(* ===== verification/_CoqProject ===== *)
-Q . S2P
Prelude.v
Words.v
Errors.v
Account.v
Params.v
ChainSpec.v
Transaction.v
Block.v
Rlp.v
TransactionRlp.v
BlockRlp.v
StateTrait.v
InMemoryState.v
IntraBlockState.v
Journal.v
View.v
Commit.v
Difficulty.v
Consensus.v
Processor.v
Blockchain.v
Blake2.v
Precompiled.v
Evm.v
EvmSafety.v
Metering.v
BytesOrder.v
StagedSync.v
Etl.v
TableCodecs.v
Bitmap.v
TrieNode.v
HashBuilder.v
MerkleTrie.v
BuilderFrames.v
BuilderMasks.v
BuilderRoot.v
Database.v
Accessors.v
Buffer.v
BufferFlush.v
StateUnwind.v
Batch.v
TotalIndex.v
HashState.v
MerkleCover.v
TrieCursor.v
IntermediateHashes.v
TrieWalk.v
TrieVisit.v
TrieRoot.v
LoopItems.v
StoredNodes.v
StateRoot.v
Interhashes.v
TrieChanges.v
HeaderSlices.v
SliceVerifier.v
DownloadStages.v
DownloadSteps.v
LinearDownload.v
LinearSafety.v
