(* ===== verification/Prelude.v ===== *)
(** * A model of Akula, an Ethereum node

    Akula (the Rust code under [src/]) downloads the chain, executes its
    blocks on a state kept in a database, and checks every result against
    the headers. This library is a shallow embedding of its core: each file
    translates one or a few source files, definition by definition and with
    the names of the source, and proves what they promise. Outcomes of
    fallible code are [Ok], [Err] (an error value) and [Panic] (an
    [unwrap] of [None], a failed assertion, an index out of range).
    Integers are [Z]; arithmetic that wraps is written out ([u64_add],
    [wrap]); H256, U256 and addresses are the integers they encode.

    ** Files and sources

    - [Prelude]: outcomes and their tactics. [Words]: [src/util.rs], words,
      byte strings, big-endian encodings. [BytesOrder]: the order of byte
      strings.
    - [Errors] ([consensus/mod.rs]), [Account] ([models/account.rs]),
      [Params] ([chain/protocol_param.rs]), [ChainSpec]
      ([models/chainspec.rs]), [Transaction] ([models/transaction.rs],
      [chain/intrinsic_gas.rs], [crypto/mod.rs]), [Block]
      ([models/block.rs], [header.rs], [receipt.rs], [log.rs],
      [bloom.rs]): the data of the chain.
    - [Rlp]: the crate [rlp] as a class with its laws. [TransactionRlp] and
      [BlockRlp]: the RLP codecs of [models/].
    - [StateTrait] ([state/interface.rs]): the class of states.
      [InMemoryState] ([state/in_memory_state.rs]) implements it.
      [IntraBlockState] ([state/intra_block_state.rs], [delta.rs],
      [object.rs]): the journaled overlay, a state monad of its own.
      [Journal]: its snapshots. [View]: what its operations read and write.
      [Commit]: its write-back to the in-memory state and the unwinding of
      blocks.
    - [Difficulty], [Consensus] ([consensus/ethash], [base.rs],
      [mod.rs]): header, ommer and transaction checks, rewards.
    - [Processor] ([execution/processor.rs]) executes transactions and
      blocks against an interface of the EVM. [Evm] ([execution/evm.rs])
      is the host that implements it: calls, creations and the interrupts of
      the interpreter. [EvmSafety] and [Metering] hold its theorems.
      [Precompiled] ([execution/precompiled.rs]) and [Blake2]
      ([crypto/blake2.rs]): the precompiled contracts that it calls.
    - [Blockchain] ([consensus/blockchain.rs]): insertion of blocks with
      reorganisations.
    - [StagedSync] ([stagedsync/]): the loop that runs, commits and unwinds
      the stages, as a step function over configurations.
    - [Etl] ([etl/]): the external sort. [TableCodecs] ([kv/tables.rs]):
      keys and values of the tables. [Bitmap] ([bitmapdb/]): chunked
      bitmap indices.
    - [TrieNode] ([trie/node.rs], [prefix_set.rs], [util.rs]) and
      [HashBuilder] ([trie/hash_builder.rs]): the state trie.
      [MerkleTrie] is the recursive specification of the tree,
      [BuilderFrames], [BuilderMasks] and [BuilderRoot] the proof that the
      builder computes it.
    - [Database]: the tables, as cursors show them. [Accessors]
      ([accessors/chain.rs], [state.rs]): typed reads and writes. [Buffer]
      ([state/buffer.rs]): the state over the tables, a second instance of
      [StateTrait]; [BufferFlush]: what its flush writes. [StateUnwind]
      ([stages/execution.rs]): the unwinding of the state tables, [Batch]:
      a batch of blocks that is flushed and unwound.
    - [TotalIndex] ([stages/total_gas_index.rs], [total_tx_index.rs]) and
      [HashState] ([stages/hashstate.rs], [stage_util.rs]): stages, with the
      laws that [StagedSync] asks of them.
    - [TrieCursor], [IntermediateHashes] ([trie/intermediate_hashes.rs]) and
      [Interhashes] ([stages/interhashes.rs]): the state root from the hashed
      tables and the stored nodes. [MerkleCover]: trees in which hashes stand
      for subtrees. [TrieWalk]: where the cursor goes, [TrieVisit]: that it
      meets every stored node. [TrieRoot], [LoopItems]: what the loop over it
      adds. [StoredNodes]: what it collects. [StateRoot]: the roots.
      [TrieChanges]: what the next run finds.
    - [HeaderSlices] ([downloader/headers_downloader/headers/]): the window
      of header slices. [SliceVerifier] ([verification/]): the interface of
      verifiers and Ethash. [DownloadStages] ([stages/]): the stages;
      [LinearDownload] ([downloader_linear.rs], [downloader_stage_loop.rs]):
      their interleaving. [DownloadSteps] and [LinearSafety]: what is saved.

    ** What the theorems show

    - State: reverting to a snapshot restores the overlay, whatever was
      journaled after it ([Journal]); writing back makes the store hold what
      the overlay shows, and unwinding the block restores the store
      ([Commit]); a call that fails leaves no effect ([EvmSafety]).
    - Gas and value: what a transaction buys, spends and gets back, the
      limits of a block ([Processor]); a call never returns more gas than it
      was given and the nesting of calls is bounded ([Metering]); rewards
      are paid once, to kin only ([Consensus]).
    - Rules: base fee, difficulty, header checks, intrinsic gas, fee
      accessors and fork schedules equal their closed forms ([Consensus],
      [Difficulty], [Transaction], [ChainSpec]).
    - Chain: the canonical chain after an insertion has the greatest total
      difficulty ([Blockchain]); committed progress of earlier stages is
      never behind later ones, unwinding ends, and the loop reaches its
      target when the stages are reliable ([StagedSync]).
    - Data: codecs round-trip and keep order ([Account], [Transaction],
      [TransactionRlp], [BlockRlp], [TableCodecs], [TrieNode]); the external sort yields a sorted
      permutation ([Etl]); a bitmap index answers range queries ([Bitmap]).
    - Trie: adding leaves and known subtrees in key order yields the root of
      the recursive Merkle-Patricia tree of them all, with no failing
      assertion ([BuilderRoot]); the state root that is checked against the
      header is that of the tree of all hashed accounts and slots, whatever
      stored nodes the computation reuses; the nodes that a run leaves behind
      hold for the tables ([Interhashes]), so that the next run can rely on
      them ([TrieChanges]).
    - Database: a flush writes what the buffered state shows and its change
      sets and history ([BufferFlush]); a batch that is flushed and unwound
      leaves the state as it was ([Batch]); the hashed tables follow the
      state ([HashState]) and the cumulative indices the chain
      ([TotalIndex]).
    - Headers: whatever peers answer and however the stages interleave, the
      linear download saves a chain of linked headers and nothing else, and
      its loop goes on until the end ([LinearSafety]); the counters that wake
      the stages are exact ([HeaderSlices]).
    - Precompiled contracts: modular exponentiation computes what EIP-198
      says, its gas is that of EIP-198 and EIP-2565, outputs are byte strings
      of the lengths promised ([Precompiled]).

    ** Parameters

    Keccak, SHA-256, RIPEMD-160, ECDSA recovery, the curve bn128, RLP, the
    interpreter (evmodin), the clock, the sentry and its peers, proof-of-work
    verification and bitmap sizes are class members or arguments; the few laws used of them are named
    hypotheses or classes, and each witness instantiates them.

    ** Fuel

    [canonical_ancestor] recurses on the number of the block (number + 1
    turns); nested calls stop at depth 1024 (fuel 1025, [Metering] proves
    that more changes nothing); chunking a bitmap of [n] members takes at
    most [n + 1] turns; merging takes one turn per entry; a turn of
    [gen_struct_step] shortens the path (length + 1); the cursor over the
    trie nodes only moves to later keys, each a digit of a stored node
    (17 (size + 1) + 1, [TrieRoot] proves that the loop ends within it).

    ** Not modelled

    I/O and bindings (database backends, sentry, programs, user interface);
    logging and timing; serde, RON, RLP and SCALE derivations, except where
    the code writes a codec by hand. The stage [Interhashes] unwinds to
    block 0 whatever the target, so it keeps all laws of [StagedSync] but
    the lower bound of the unwinding. Of the header download the
    forky phase, which works on two windows at once, and the wiring of the
    phases are left out; of the stages those that are listed in no file
    above. *)

From stdpp Require Export base gmap strings list fin_maps sets.
From Stdlib Require Export ZArith Lia.

#[global] Open Scope Z_scope.

(** ** Outcomes of fallible code

    A Rust function that returns [anyhow::Result] and may also panic
    ([unwrap] of [None], an index out of range) has three outcomes. *)

Inductive res (E A : Type) : Type :=
| Ok (a : A)
| Err (e : E)
| Panic.

Arguments Ok {E A} a.
Arguments Err {E A} e.
Arguments Panic {E A}.

Definition res_bind {E A B : Type} (f : A → res E B) (m : res E A) : res E B :=
  match m with
  | Ok a => f a
  | Err e => Err e
  | Panic => Panic
  end.

#[global] Instance res_mret {E} : MRet (res E) := fun A a => Ok a.
#[global] Instance res_mbind {E} : MBind (res E) := fun A B f m => res_bind f m.
#[global] Instance res_fmap {E} : FMap (res E) :=
  fun A B f m => res_bind (fun a => Ok (f a)) m.

(** [opt.ok_or(e)?] and [opt.unwrap()]. *)
Definition ok_or {E A} (e : E) (o : option A) : res E A :=
  match o with Some a => Ok a | None => Err e end.

Definition unwrap {E A} (o : option A) : res E A :=
  match o with Some a => Ok a | None => Panic end.

(** An early return [if b { return Err(e) }]. *)
Definition fail_if {E} (b : bool) (e : E) : res E unit :=
  if b then Err e else Ok tt.

Definition is_ok {E A} (m : res E A) : bool :=
  match m with Ok _ => true | _ => false end.

Lemma res_bind_ok {E A B} (f : A → res E B) (m : res E A) b :
  (m ≫= f) = Ok b → ∃ a, m = Ok a ∧ f a = Ok b.
Proof. destruct m; simpl; try discriminate. eauto. Qed.

Lemma ok_bind {E A B} (f : A → res E B) (a : A) : (Ok a ≫= f) = f a.
Proof. done. Qed.

Lemma err_bind {E A B} (f : A → res E B) (e : E) : (Err e ≫= f) = Err e.
Proof. done. Qed.

Lemma fail_if_ok {E} (b : bool) (e : E) u : fail_if b e = Ok u → b = false.
Proof. by destruct b. Qed.

Lemma ok_or_ok {E A} (e : E) (o : option A) a : ok_or e o = Ok a → o = Some a.
Proof. destruct o; simpl; congruence. Qed.

Lemma unwrap_ok {E A} (o : option A) a : @unwrap E A o = Ok a → o = Some a.
Proof. destruct o; simpl; congruence. Qed.

(** Running a fallible function over a list, left to right. *)
Fixpoint res_foldl {E A B} (f : B → A → res E B) (b : B) (l : list A) : res E B :=
  match l with
  | [] => Ok b
  | a :: l => b' ← f b a; res_foldl f b' l
  end.

Lemma res_foldl_app {E A B} (f : B → A → res E B) b l1 l2 :
  res_foldl f b (l1 ++ l2) = (b' ← res_foldl f b l1; res_foldl f b' l2).
Proof.
  revert b. induction l1 as [|a l1 IH]; intros b; simpl; [done|].
  unfold mbind, res_mbind. destruct (f b a); simpl; [apply IH|done|done].
Qed.

(** An invariant of the body holds after the loop. *)
Lemma res_foldl_inv {E A B} (P : B → Prop) (f : B → A → res E B) l :
  (∀ b a b', a ∈ l → P b → f b a = Ok b' → P b') →
  ∀ b b', P b → res_foldl f b l = Ok b' → P b'.
Proof.
  induction l as [|a l IH]; intros Hstep b b' Hb H; simpl in H.
  - by injection H as <-.
  - apply res_bind_ok in H as (b1 & H1 & H2).
    eapply IH; [|eapply Hstep; [left|exact Hb|exact H1]|exact H2].
    intros. eapply Hstep; eauto. by right.
Qed.

(** A loop whose body cannot fail is a plain fold. *)
Lemma res_foldl_total {E A B} (f : B → A → res E B) (g : B → A → B) l :
  (∀ b a, f b a = Ok (g b a)) → ∀ b, res_foldl f b l = Ok (foldl g b l).
Proof.
  intros Hf. induction l as [|a l IH]; intros b; simpl; [done|].
  rewrite Hf. simpl. apply IH.
Qed.

(** ** Automation *)

(** Take apart every bind, guard and [unwrap] that is known to have
    returned [Ok]. *)
Ltac res_inv_step :=
  match goal with
  | H : Ok _ = Ok _ |- _ => injection H as H
  | H : Err _ = Ok _ |- _ => discriminate H
  | H : Panic = Ok _ |- _ => discriminate H
  | H : mret _ = Ok _ |- _ => unfold mret, res_mret in H
  | H : (_ ≫= _) = Ok _ |- _ =>
      let a := fresh "a" in
      let H1 := fresh "Hm" in
      apply res_bind_ok in H; destruct H as (a & H1 & H)
  | H : fail_if _ _ = Ok _ |- _ => apply fail_if_ok in H
  | H : ok_or _ _ = Ok _ |- _ => apply ok_or_ok in H
  | H : unwrap _ = Ok _ |- _ => apply unwrap_ok in H
  end.

Ltac res_inv := repeat res_inv_step; subst.

(** Run the binds of the goal whose first computation has returned. *)
Ltac res_simpl := cbv beta iota; repeat (first [rewrite ok_bind | rewrite err_bind]; cbv beta iota).

(** Split boolean comparisons of integers into facts [lia] reads. *)
Ltac zbool :=
  repeat match goal with
  | H : (_ =? _) = true |- _ => apply Z.eqb_eq in H
  | H : (_ =? _) = false |- _ => apply Z.eqb_neq in H
  | H : (_ <? _) = true |- _ => apply Z.ltb_lt in H
  | H : (_ <? _) = false |- _ => apply Z.ltb_ge in H
  | H : (_ <=? _) = true |- _ => apply Z.leb_le in H
  | H : (_ <=? _) = false |- _ => apply Z.leb_gt in H
  | H : (_ && _)%bool = true |- _ => apply andb_true_iff in H; destruct H
  | H : (_ || _)%bool = false |- _ => apply orb_false_iff in H; destruct H
  end.

(** Case analysis on the [if]s of the goal that test integers. *)
Ltac zcases :=
  repeat match goal with
  | |- context [?a =? ?b] => destruct (Z.eqb_spec a b)
  | |- context [?a <? ?b] => destruct (Z.ltb_spec a b)
  | |- context [?a <=? ?b] => destruct (Z.leb_spec a b)
  end.
