(* ===== verification/Words.v ===== *)
(** * Words

    Machine integers and byte strings: [u64], [u128], [U256] and [U512] as
    integers of a fixed width whose wrap-around is written out (the
    production profile inherits from [release], where arithmetic wraps),
    big-endian byte strings, and the padding helpers of
    [src/src/util.rs]. *)

From S2P Require Import Prelude.

(** ** Fixed-width integers *)

Definition u64_max : Z := 2 ^ 64 - 1.
Definition u256_max : Z := 2 ^ 256 - 1.

Definition is_word (w x : Z) : Prop := 0 ≤ x < 2 ^ w.
Abbreviation is_u64 := (is_word 64).
Abbreviation is_u128 := (is_word 128).
Abbreviation is_u256 := (is_word 256).

#[global] Instance is_word_dec w x : Decision (is_word w x).
Proof. unfold is_word. apply _. Defined.

Definition wrap (w x : Z) : Z := x mod 2 ^ w.

Definition u64_add (a b : Z) : Z := wrap 64 (a + b).
Definition u64_sub (a b : Z) : Z := wrap 64 (a - b).
(* [a as i64], of a [u64] *)
Definition as_i64 (a : Z) : Z := if a <? 2 ^ 63 then a else a - 2 ^ 64.
Definition u64_mul (a b : Z) : Z := wrap 64 (a * b).
Definition u128_add (a b : Z) : Z := wrap 128 (a + b).
Definition u128_mul (a b : Z) : Z := wrap 128 (a * b).
Definition u256_add (a b : Z) : Z := wrap 256 (a + b).
Definition u256_sub (a b : Z) : Z := wrap 256 (a - b).
Definition u256_mul (a b : Z) : Z := wrap 256 (a * b).
Definition u256_shl (a n : Z) : Z := wrap 256 (Z.shiftl a n).

Definition saturating_sub (a b : Z) : Z := Z.max 0 (a - b).
Definition checked_sub (a b : Z) : option Z :=
  if a <? b then None else Some (a - b).

Lemma as_i64_small a : 0 ≤ a < 2 ^ 63 → as_i64 a = a.
Proof. intros H. unfold as_i64. destruct (Z.ltb_spec a (2 ^ 63)); lia. Qed.

Lemma wrap_small w x : is_word w x → wrap w x = x.
Proof. unfold wrap, is_word. intros. by apply Z.mod_small. Qed.

Lemma wrap_word w x : 0 ≤ w → is_word w (wrap w x).
Proof. intros. unfold wrap, is_word. apply Z.mod_pos_bound. lia. Qed.

Lemma wrap_wrap w x : 0 ≤ w → wrap w (wrap w x) = wrap w x.
Proof. intros. apply wrap_small. by apply wrap_word. Qed.

Lemma u64_add_small a b : is_u64 (a + b) → u64_add a b = a + b.
Proof. apply wrap_small. Qed.
Lemma u64_sub_small a b : is_u64 (a - b) → u64_sub a b = a - b.
Proof. apply wrap_small. Qed.
Lemma u256_add_small a b : is_u256 (a + b) → u256_add a b = a + b.
Proof. apply wrap_small. Qed.
Lemma u256_sub_small a b : is_u256 (a - b) → u256_sub a b = a - b.
Proof. apply wrap_small. Qed.
Lemma u256_mul_small a b : is_u256 (a * b) → u256_mul a b = a * b.
Proof. apply wrap_small. Qed.

Lemma u64_add_word a b : is_u64 (u64_add a b).
Proof. by apply wrap_word. Qed.
Lemma u64_sub_word a b : is_u64 (u64_sub a b).
Proof. by apply wrap_word. Qed.
Lemma u256_add_word a b : is_u256 (u256_add a b).
Proof. by apply wrap_word. Qed.
Lemma u256_sub_word a b : is_u256 (u256_sub a b).
Proof. by apply wrap_word. Qed.
Lemma u256_mul_word a b : is_u256 (u256_mul a b).
Proof. by apply wrap_word. Qed.

(** The two wrapping operations undo each other, whatever wrapped. *)
Lemma u64_add_sub a b : is_u64 a → u64_sub (u64_add a b) b = a.
Proof.
  intros Ha. unfold u64_sub, u64_add, wrap.
  rewrite Zminus_mod_idemp_l. replace (a + b - b) with a by lia.
  by apply Z.mod_small.
Qed.

Create HintDb words.
Create Rewrite HintDb words.
#[export] Hint Resolve u64_add_word u64_sub_word u256_add_word u256_sub_word
  u256_mul_word : words.
#[export] Hint Rewrite u64_add_small u64_sub_small u256_add_small
  u256_sub_small u256_mul_small wrap_small using (unfold is_word in *; lia) : words.

(** Unfold the width predicates and call [lia]. *)
Ltac word_lia := unfold is_word, u64_max, u256_max in *; lia.

(** ** Byte strings, big-endian *)

Abbreviation bytes := (list Z).

Definition is_byte (b : Z) : Prop := 0 ≤ b < 256.

#[global] Instance is_byte_dec b : Decision (is_byte b).
Proof. unfold is_byte. apply _. Defined.

(** [x.to_be_bytes()] of an integer of [n] bytes. *)
Fixpoint to_be_bytes (n : nat) (x : Z) : bytes :=
  match n with
  | O => []
  | S n => (x / 256 ^ Z.of_nat n) mod 256 :: to_be_bytes n x
  end.

(** [from_be_bytes]. *)
Definition from_be_bytes (l : bytes) : Z := foldl (fun acc b => acc * 256 + b) 0 l.

Lemma length_to_be_bytes n x : length (to_be_bytes n x) = n.
Proof. induction n; simpl; congruence. Qed.

Lemma to_be_bytes_bytes n x : Forall is_byte (to_be_bytes n x).
Proof.
  induction n; simpl; constructor; auto.
  apply Z.mod_pos_bound. lia.
Qed.

Lemma foldl_be acc l :
  foldl (fun acc b => acc * 256 + b) acc l
  = acc * 256 ^ Z.of_nat (length l) + from_be_bytes l.
Proof.
  unfold from_be_bytes. revert acc.
  induction l as [|b l IH]; intros acc; cbn [foldl length].
  - lia.
  - rewrite (IH (acc * 256 + b)), (IH (0 * 256 + b)).
    rewrite Nat2Z.inj_succ, Z.pow_succ_r by lia. ring.
Qed.

Lemma from_be_cons b l :
  from_be_bytes (b :: l) = b * 256 ^ Z.of_nat (length l) + from_be_bytes l.
Proof. unfold from_be_bytes at 1. cbn [foldl]. rewrite foldl_be. lia. Qed.

Lemma from_be_app l1 l2 :
  from_be_bytes (l1 ++ l2)
  = from_be_bytes l1 * 256 ^ Z.of_nat (length l2) + from_be_bytes l2.
Proof. unfold from_be_bytes at 1. rewrite foldl_app, foldl_be. done. Qed.

Lemma from_be_bound l :
  Forall is_byte l → 0 ≤ from_be_bytes l < 256 ^ Z.of_nat (length l).
Proof.
  induction 1 as [|b l Hb _ IH]; [done|].
  rewrite from_be_cons. cbn [length].
  rewrite Nat2Z.inj_succ, Z.pow_succ_r by lia. unfold is_byte in Hb. nia.
Qed.

Lemma from_to_be_mod n x :
  from_be_bytes (to_be_bytes n x) = x mod 256 ^ Z.of_nat n.
Proof.
  induction n as [|n IH]; [by rewrite Z.mod_1_r|].
  cbn [to_be_bytes]. rewrite from_be_cons, length_to_be_bytes, IH.
  rewrite Nat2Z.inj_succ, Z.pow_succ_r by lia.
  rewrite (Z.mul_comm 256), Z.rem_mul_r by lia. lia.
Qed.

Lemma from_to_be n x :
  0 ≤ x < 256 ^ Z.of_nat n → from_be_bytes (to_be_bytes n x) = x.
Proof. intros. rewrite from_to_be_mod. by apply Z.mod_small. Qed.

Lemma to_be_mod n m x :
  (n ≤ m)%nat → to_be_bytes n (x mod 256 ^ Z.of_nat m) = to_be_bytes n x.
Proof.
  induction n as [|n IH]; intros H; [done|].
  cbn [to_be_bytes]. rewrite IH by lia. f_equal.
  replace (Z.of_nat m) with (Z.of_nat n + (1 + Z.of_nat (m - S n))) by lia.
  rewrite !Z.pow_add_r by lia.
  rewrite Z.rem_mul_r by lia.
  rewrite (Z.mul_comm (256 ^ Z.of_nat n)), Z.div_add by lia.
  rewrite Z.div_small by (apply Z.mod_pos_bound; lia). rewrite Z.add_0_l.
  rewrite Z.rem_mul_r by lia. change (256 ^ 1) with 256.
  rewrite Z.mul_comm, Z.mod_add by lia. by rewrite Z.mod_mod by lia.
Qed.

Lemma to_from_be l :
  Forall is_byte l → to_be_bytes (length l) (from_be_bytes l) = l.
Proof.
  induction 1 as [|b l Hb Hl IH]; [done|].
  pose proof (from_be_bound l Hl) as Hbound.
  cbn [length to_be_bytes]. rewrite from_be_cons. f_equal.
  - rewrite Z.div_add_l by lia. rewrite (Z.div_small (from_be_bytes l)) by lia.
    rewrite Z.add_0_r. by apply Z.mod_small.
  - rewrite <- (to_be_mod _ (length l)) by lia.
    rewrite Z.add_comm, Z.mod_add by lia.
    by rewrite Z.mod_small.
Qed.

(** ** Padding and leading zeros ([src/src/util.rs]) *)

(** [zeroless_view]: the bytes from the first non-zero one. *)
Fixpoint zeroless_view (v : bytes) : bytes :=
  match v with
  | [] => []
  | b :: v' => if b =? 0 then zeroless_view v' else v
  end.

(** [static_left_pad::<LEN>], whose [assert!] panics on a longer input. *)
Definition static_left_pad {E} (len : nat) (unpadded : bytes) : res E bytes :=
  if (length unpadded <=? len)%nat
  then Ok (replicate (len - length unpadded) 0 ++ unpadded)
  else Panic.

Definition pad (left : bool) (buffer : bytes) (min_size : nat) : bytes :=
  if (min_size <=? length buffer)%nat then buffer
  else
    let point := if left then (min_size - length buffer)%nat else 0%nat in
    replicate point 0 ++ buffer
      ++ replicate (min_size - point - length buffer) 0.

Definition left_pad (buffer : bytes) (min_size : nat) : bytes := pad true buffer min_size.
Definition right_pad (buffer : bytes) (min_size : nat) : bytes := pad false buffer min_size.

(** [u256_to_h256] and [h256_to_u256]. A hash is the integer its big-endian
    bytes denote, so both are the identity on values of 256 bits; the byte
    strings they go through are written out. *)
Definition u256_to_h256 (v : Z) : Z := from_be_bytes (to_be_bytes 32 v).
Definition h256_to_u256 (v : Z) : Z := from_be_bytes (to_be_bytes 32 v).

Lemma from_be_replicate0 n l : from_be_bytes (replicate n 0 ++ l) = from_be_bytes l.
Proof.
  induction n as [|n IH]; [done|]. cbn [replicate app]. rewrite from_be_cons, IH. lia.
Qed.

Lemma from_be_zeroless l : from_be_bytes (zeroless_view l) = from_be_bytes l.
Proof.
  induction l as [|b l IH]; [done|]. cbn [zeroless_view].
  destruct (Z.eqb_spec b 0) as [->|]; [|done]. rewrite IH, from_be_cons. lia.
Qed.

Lemma zeroless_bytes l : Forall is_byte l → Forall is_byte (zeroless_view l).
Proof.
  induction 1; cbn [zeroless_view]; [done|]. case_match; [done|]. by constructor.
Qed.

Lemma zeroless_length l : (length (zeroless_view l) ≤ length l)%nat.
Proof. induction l; cbn [zeroless_view length]; [lia|]. case_match; cbn; lia. Qed.

Lemma zeroless_replicate n l : zeroless_view (replicate n 0 ++ l) = zeroless_view l.
Proof. induction n; simpl; auto. Qed.

Lemma is_word_bytes (n : nat) x :
  is_word (8 * Z.of_nat n) x → 0 ≤ x < 256 ^ Z.of_nat n.
Proof. unfold is_word. rewrite Z.pow_mul_r by lia. done. Qed.

(** A byte string is its zeroless view behind the zeros it lost. *)
Lemma zeroless_split l :
  l = replicate (length l - length (zeroless_view l)) 0 ++ zeroless_view l.
Proof.
  induction l as [|b l IH]; [done|]. cbn [zeroless_view].
  destruct (Z.eqb_spec b 0) as [->|].
  - pose proof (zeroless_length l). cbn [length].
    rewrite Nat.sub_succ_l by lia. cbn [replicate app]. by f_equal.
  - by rewrite Nat.sub_diag.
Qed.

Lemma zeroless_nil l : Forall is_byte l → zeroless_view l = [] → from_be_bytes l = 0.
Proof. intros _ H. rewrite <- from_be_zeroless, H. done. Qed.

Lemma zeroless_positive l : from_be_bytes l ≠ 0 → zeroless_view l ≠ [].
Proof. intros H Hn. apply H. rewrite <- from_be_zeroless, Hn. done. Qed.
