(* ===== verification/Errors.v ===== *)
(** * Errors

    The error values the modelled functions return: [ValidationError] of
    [src/src/consensus/mod.rs], and [anyhow::Error], which wraps one of
    them or an error of the database or of a decoder. *)

From S2P Require Import Prelude Words.

Inductive ValidationError : Type :=
| FutureBlock (now got : Z)
| WrongStateRoot (expected got : Z)
| WrongOmmersHash (expected got : Z)
| WrongTransactionsRoot (expected got : Z)
| WrongReceiptsRoot (expected got : Z)
| WrongLogsBloom (expected got : Z)
| UnknownParent
| WrongDifficulty
| GasAboveLimit (used limit : Z)
| InvalidGasLimit
| InvalidTimestamp (parent current : Z)
| ExtraDataTooLong
| WrongDaoExtraData
| WrongBaseFee (expected got : option Z)
| InvalidSeal
| MissingSender
| SenderNoEOA (sender : Z)
| WrongNonce (account expected got : Z)
| IntrinsicGas
| InsufficientFunds (account available required : Z)
| BlockGasLimitExceeded (available required : Z)
| MaxFeeLessThanBase
| MaxPriorityFeeGreaterThanMax
| TooManyOmmers
| InvalidOmmerHeader
| NotAnOmmer
| DuplicateOmmer
| WrongBlockGas (expected got : Z) (transactions : list (Z * Z))
| InvalidSignature
| WrongChainId
| UnsupportedTransactionType.

#[global] Instance ValidationError_eq_dec : EqDecision ValidationError.
Proof. solve_decision. Defined.

(** [anyhow::Error]: a validation error, a validation error put as context
    around another error ([.context(..)]), a message put as context
    ([.with_context(|| format!(..))]), or an error with a message. *)
Inductive anyhow : Type :=
| Validation (e : ValidationError)
| Context (e : ValidationError) (inner : anyhow)
| Note (msg : string) (inner : anyhow)
| Bail (msg : string).

Abbreviation result := (res anyhow).

(** [e.downcast_ref::<ValidationError>()]: [anyhow] finds the outermost
    context of that type, else the wrapped error. *)
Fixpoint downcast_ref (e : anyhow) : option ValidationError :=
  match e with
  | Validation v => Some v
  | Context v _ => Some v
  | Note _ inner => downcast_ref inner
  | Bail _ => None
  end.
