(* ===== verification/Account.v ===== *)
(** * Account

    [src/src/models/account.rs]: the account record and its compact storage
    encoding, with the round trip and the size bound. *)

From S2P Require Import Prelude Words Errors.

(** Keccak-256 hash of the empty string ([EMPTY_HASH]). *)
Definition EMPTY_HASH : Z :=
  0xc5d2460186f7233c927e7db2dcc703c0e500b653ca82273b7bfad8045d85a470.
Definition EMPTY_LIST_HASH : Z :=
  0x1dcc4de8dec75d7aab85b567b6ccd41ad312451b948a7413f0a142fd40d49347.
Definition EMPTY_ROOT : Z :=
  0x56e81f171bcc55a6ff8345e692c0f86e5b48e01b996cadc001622fb5e363b421.
Definition KECCAK_LENGTH : nat := 32.
Definition ADDRESS_LENGTH : nat := 20.
Definition GIGA : Z := 1000000000.
Definition ETHER : Z := 1000000000000000000.

Record Account : Type := mkAccount {
  nonce : Z;
  balance : Z;
  code_hash : Z
}.

#[global] Instance Account_eq_dec : EqDecision Account.
Proof. solve_decision. Defined.

(** [Account::default()]. *)
Definition default_account : Account :=
  {| nonce := 0; balance := 0; code_hash := EMPTY_HASH |}.

(** The values the fields' Rust types allow. *)
Definition account_wf (a : Account) : Prop :=
  is_u64 (nonce a) ∧ is_u256 (balance a) ∧ is_u256 (code_hash a).

#[global] Instance account_wf_dec a : Decision (account_wf a).
Proof. unfold account_wf. apply _. Defined.

Definition set_nonce_field (n : Z) (a : Account) : Account :=
  {| nonce := n; balance := balance a; code_hash := code_hash a |}.
Definition set_balance_field (b : Z) (a : Account) : Account :=
  {| nonce := nonce a; balance := b; code_hash := code_hash a |}.
Definition set_code_hash_field (h : Z) (a : Account) : Account :=
  {| nonce := nonce a; balance := balance a; code_hash := h |}.

(** [bytes_to_u64]: copies the bytes, last first, into an eight-byte
    little-endian buffer; a ninth byte is out of the buffer's range. *)
Fixpoint bytes_to_u64_loop (rev_buf : bytes) (i acc : Z) : result Z :=
  match rev_buf with
  | [] => Ok acc
  | b :: rest =>
      if i <? 8 then bytes_to_u64_loop rest (i + 1) (acc + b * 256 ^ i) else Panic
  end.

Definition bytes_to_u64 (buf : bytes) : result Z := bytes_to_u64_loop (reverse buf) 0 0.

(** The bit-field byte: [nonce_len] in the low four bits, then [code_hash],
    then three unused bits. *)
Record AccountStorageFlags : Type := mkFlags {
  nonce_len : Z;
  has_code_hash : bool
}.

Definition flags_to_byte (f : AccountStorageFlags) : Z :=
  Z.lor (nonce_len f) (Z.shiftl (Z.b2z (has_code_hash f)) 4).

Definition flags_of_byte (b : Z) : AccountStorageFlags :=
  {| nonce_len := Z.land b 15; has_code_hash := Z.testbit b 4 |}.

Definition MAX_ACCOUNT_LEN : nat := 1 + (1 + 32) + (1 + 32) + (1 + 8).

Definition write_compact (input : bytes) : bytes := zeroless_view input.

(** [buffer.try_extend_from_slice(s).unwrap()] on a buffer of fixed capacity. *)
Definition try_extend (buf s : bytes) : result bytes :=
  if (length buf + length s <=? MAX_ACCOUNT_LEN)%nat then Ok (buf ++ s) else Panic.

(** [set_nonce_len], which refuses a value of more than four bits. *)
Definition set_nonce_len (n : Z) (f : AccountStorageFlags) : result AccountStorageFlags :=
  if n <? 16 then Ok {| nonce_len := n; has_code_hash := has_code_hash f |} else Panic.

Definition encode_for_storage (a : Account) : result bytes :=
  let buffer := [0] in
  let field_set := {| nonce_len := 0; has_code_hash := false |} in
  '(field_set, buffer) ←
    (if negb (nonce a =? 0) then
       let b := write_compact (to_be_bytes 8 (nonce a)) in
       field_set ← set_nonce_len (Z.of_nat (length b)) field_set;
       buffer ← try_extend buffer b;
       Ok (field_set, buffer)
     else Ok (field_set, buffer));
  '(field_set, buffer) ←
    (if negb (code_hash a =? EMPTY_HASH) then
       buffer ← try_extend buffer (to_be_bytes KECCAK_LENGTH (code_hash a));
       Ok ({| nonce_len := nonce_len field_set; has_code_hash := true |}, buffer)
     else Ok (field_set, buffer));
  buffer ←
    (if negb (balance a =? 0)
     then try_extend buffer (write_compact (to_be_bytes 32 (balance a)))
     else Ok buffer);
  Ok (flags_to_byte field_set :: tail buffer).

(** [&enc[..n]] and [enc.advance(n)]: both panic when [n] is past the end. *)
Definition split_at (enc : bytes) (n : nat) : result (bytes * bytes) :=
  if (n <=? length enc)%nat then Ok (take n enc, drop n enc) else Panic.

Definition decode_for_storage (enc : bytes) : result (option Account) :=
  match enc with
  | [] => Ok None
  | b0 :: enc =>
      let field_set := flags_of_byte b0 in
      let decode_length := nonce_len field_set in
      '(n, enc) ←
        (if 0 <? decode_length then
           '(s, enc) ← split_at enc (Z.to_nat decode_length);
           n ← bytes_to_u64 s;
           Ok (n, enc)
         else Ok (0, enc));
      '(h, enc) ←
        (if has_code_hash field_set then
           '(s, enc) ← split_at enc KECCAK_LENGTH;
           Ok (from_be_bytes s, enc)
         else Ok (EMPTY_HASH, enc));
      if (32 <? length enc)%nat
      then Err (Bail "balance cannot be longer than 32 bytes")
      else
        padded ← static_left_pad 32 enc;
        Ok (Some {| nonce := n; balance := from_be_bytes padded; code_hash := h |})
  end.

(** ** The pieces of the encoding *)

Lemma flags_roundtrip f : 0 ≤ nonce_len f < 16 → flags_of_byte (flags_to_byte f) = f.
Proof.
  destruct f as [n h]; cbn. intros Hn.
  assert (n ∈ (Z.of_nat <$> seq 0 16)) as Hin.
  { apply list_elem_of_fmap. exists (Z.to_nat n). rewrite elem_of_seq. lia. }
  revert n Hin Hn. apply (Forall_forall (fun n => _ → flags_of_byte (flags_to_byte (mkFlags n h)) = mkFlags n h)).
  destruct h; repeat constructor.
Qed.

Lemma bytes_to_u64_loop_ok l :
  ∀ i acc, 0 ≤ i → i + Z.of_nat (length l) ≤ 8 →
  bytes_to_u64_loop l i acc = Ok (acc + 256 ^ i * from_be_bytes (reverse l)).
Proof.
  induction l as [|b l IH]; intros i acc Hi Hl; cbn [bytes_to_u64_loop length] in *.
  - cbn. f_equal. lia.
  - rewrite (proj2 (Z.ltb_lt i 8)) by lia. rewrite IH by lia.
    rewrite reverse_cons, from_be_app. cbn [length]. rewrite from_be_cons. cbn [length].
    change (256 ^ Z.of_nat 1) with 256. change (256 ^ Z.of_nat 0) with 1.
    change (from_be_bytes []) with 0.
    rewrite Z.pow_add_r by lia. f_equal. ring.
Qed.

Lemma bytes_to_u64_ok l :
  (length l ≤ 8)%nat → bytes_to_u64 l = Ok (from_be_bytes l).
Proof.
  intros. unfold bytes_to_u64.
  rewrite bytes_to_u64_loop_ok by (rewrite ?length_reverse; lia).
  rewrite reverse_involutive. f_equal. lia.
Qed.

Lemma compact_length n x : (length (write_compact (to_be_bytes n x)) ≤ n)%nat.
Proof.
  unfold write_compact. etransitivity; [apply zeroless_length|].
  by rewrite length_to_be_bytes.
Qed.

Lemma from_compact n x :
  0 ≤ x < 256 ^ Z.of_nat n → from_be_bytes (write_compact (to_be_bytes n x)) = x.
Proof. intros. unfold write_compact. rewrite from_be_zeroless. by apply from_to_be. Qed.

Lemma write_compact_nonempty n x :
  0 ≤ x < 256 ^ Z.of_nat n → x ≠ 0 → write_compact (to_be_bytes n x) ≠ [].
Proof. intros H Hx. apply zeroless_positive. by rewrite from_to_be. Qed.

(** The three optional parts behind the flags byte. *)
Definition nonce_part (a : Account) : bytes :=
  if nonce a =? 0 then [] else write_compact (to_be_bytes 8 (nonce a)).
Definition hash_part (a : Account) : bytes :=
  if code_hash a =? EMPTY_HASH then [] else to_be_bytes KECCAK_LENGTH (code_hash a).
Definition balance_part (a : Account) : bytes :=
  if balance a =? 0 then [] else write_compact (to_be_bytes 32 (balance a)).
Definition flags_of (a : Account) : AccountStorageFlags :=
  {| nonce_len := Z.of_nat (length (nonce_part a));
     has_code_hash := negb (code_hash a =? EMPTY_HASH) |}.

Lemma part_lengths a :
  (length (nonce_part a) ≤ 8)%nat ∧ (length (hash_part a) ≤ 32)%nat
  ∧ (length (balance_part a) ≤ 32)%nat.
Proof.
  unfold nonce_part, hash_part, balance_part.
  pose proof (compact_length 8 (nonce a)). pose proof (compact_length 32 (balance a)).
  pose proof (length_to_be_bytes KECCAK_LENGTH (code_hash a)) as Hh. unfold KECCAK_LENGTH in *.
  zcases; cbn [length]; lia.
Qed.

Lemma try_extend_ok buf s :
  (length buf + length s ≤ MAX_ACCOUNT_LEN)%nat → try_extend buf s = Ok (buf ++ s).
Proof. intros H. unfold try_extend. by rewrite (proj2 (Nat.leb_le _ _) H). Qed.

(** The encoder never overruns its buffer, and writes the flags byte, the
    nonce, the code hash and the balance in this order. *)
Lemma encode_for_storage_parts a :
  encode_for_storage a
  = Ok (flags_to_byte (flags_of a) :: nonce_part a ++ hash_part a ++ balance_part a).
Proof.
  pose proof (part_lengths a) as (H1 & H2 & H3).
  unfold encode_for_storage, flags_of. revert H1 H2 H3.
  unfold nonce_part, hash_part, balance_part. unfold MAX_ACCOUNT_LEN in *.
  destruct (Z.eqb_spec (nonce a) 0), (Z.eqb_spec (code_hash a) EMPTY_HASH),
    (Z.eqb_spec (balance a) 0); cbn [negb length]; intros H1 H2 H3;
  unfold set_nonce_len; try rewrite (proj2 (Z.ltb_lt _ 16)) by lia;
  unfold mbind, res_mbind, res_bind;
  repeat (rewrite try_extend_ok by (unfold MAX_ACCOUNT_LEN; cbn [length app]; rewrite ?length_app; lia));
  cbn [app tail nonce_len has_code_hash]; by rewrite ?app_nil_r, <- ?app_assoc.
Qed.

Lemma split_at_app l1 l2 n :
  n = length l1 → split_at (l1 ++ l2) n = Ok (l1, l2).
Proof.
  intros ->. unfold split_at. rewrite length_app.
  rewrite (proj2 (Nat.leb_le _ _)) by lia. by rewrite take_app_length, drop_app_length.
Qed.

Lemma decode_parts a : account_wf a →
  decode_for_storage (flags_to_byte (flags_of a) :: nonce_part a ++ hash_part a ++ balance_part a)
  = Ok (Some a).
Proof.
  intros H. unfold decode_for_storage.
  pose proof (part_lengths a) as (H1 & _ & H3). destruct H as (Hn & Hb & Hh).
  rewrite flags_roundtrip by (cbn; lia). cbn [flags_of nonce_len has_code_hash].
  assert ((if 0 <? Z.of_nat (length (nonce_part a))
           then '(s, enc) ← split_at (nonce_part a ++ hash_part a ++ balance_part a)
                              (Z.to_nat (Z.of_nat (length (nonce_part a))));
                n ← bytes_to_u64 s; Ok (n, enc)
           else Ok (0, nonce_part a ++ hash_part a ++ balance_part a))
          = Ok (nonce a, hash_part a ++ balance_part a)) as ->.
  { rewrite Nat2Z.id, split_at_app by done. cbn. rewrite bytes_to_u64_ok by done. cbn.
    unfold nonce_part. destruct (Z.eqb_spec (nonce a) 0) as [->|Hnz]; [done|].
    rewrite from_compact by (unfold is_word in Hn; lia).
    pose proof (write_compact_nonempty 8 (nonce a)) as Hne.
    destruct (write_compact (to_be_bytes 8 (nonce a))); [|done].
    unfold is_word in Hn. destruct Hne; [lia|done..]. }
  res_simpl.
  assert ((if negb (code_hash a =? EMPTY_HASH)
           then '(s, enc) ← split_at (hash_part a ++ balance_part a) KECCAK_LENGTH;
                Ok (from_be_bytes s, enc)
           else Ok (EMPTY_HASH, hash_part a ++ balance_part a))
          = Ok (code_hash a, balance_part a)) as ->.
  { unfold hash_part. destruct (Z.eqb_spec (code_hash a) EMPTY_HASH) as [->|]; [done|].
    rewrite split_at_app by (by rewrite length_to_be_bytes). cbn [negb]. res_simpl.
    by rewrite from_to_be by exact (is_word_bytes 32 _ Hh). }
  res_simpl.
  rewrite (proj2 (Nat.ltb_ge _ _)) by lia. unfold static_left_pad.
  rewrite (proj2 (Nat.leb_le _ _)) by lia. res_simpl.
  rewrite from_be_replicate0. destruct a as [n b h]; cbn in *.
  unfold balance_part; cbn [balance].
  destruct (Z.eqb_spec b 0) as [->|]; [done|].
  by rewrite from_compact by (unfold is_word in Hb; lia).
Qed.

(** ** Properties *)

(** C22. Storing an account and reading it back gives the account: for every
    account whose fields are in the range of their types,
    [decode_for_storage (encode_for_storage a)] is [Some a], with no error
    and no panic on the way. *)
Theorem account_storage_roundtrip (a : Account) (H : account_wf a) :
  (enc ← encode_for_storage a; decode_for_storage enc) = Ok (Some a).
Proof.
  rewrite encode_for_storage_parts. res_simpl. by apply decode_parts.
Qed.

Lemma account_storage_roundtrip_witness :
  let a := {| nonce := 2; balance := 1000; code_hash := 0x123 |} in
  account_wf a ∧ (enc ← encode_for_storage a; decode_for_storage enc) = Ok (Some a).
Proof.
  split; [by vm_compute|]. apply account_storage_roundtrip. by vm_compute.
Defined.

(** Every account encodes, to at most 73 bytes: the buffer of
    [MAX_ACCOUNT_LEN] bytes is never overrun, and a non-empty value is
    stored even for the default account, so that decoding never mistakes a
    stored account for a missing one. *)
Theorem encode_for_storage_total (a : Account) :
  ∃ enc, encode_for_storage a = Ok enc
         ∧ (1 ≤ length enc ≤ 73)%nat ∧ (length enc ≤ MAX_ACCOUNT_LEN)%nat.
Proof.
  rewrite encode_for_storage_parts. eexists; split; [done|].
  pose proof (part_lengths a) as (? & ? & ?).
  cbn [length]. rewrite !length_app. unfold MAX_ACCOUNT_LEN. lia.
Qed.

(** Sample encodings of the source's own tests. *)
Example encode_without_code :
  encode_for_storage {| nonce := 2; balance := 1000; code_hash := EMPTY_HASH |}
  = Ok [1; 2; 3; 0xe8].
Proof. vm_compute. reflexivity. Qed.

Example encode_empty_balance : encode_for_storage default_account = Ok [0].
Proof. vm_compute. reflexivity. Qed.
