(* ===== verification/Params.v ===== *)
(** * Params

    Protocol constants ([src/src/chain/protocol_param.rs]) and the EVM
    revisions the code compares. *)

From S2P Require Import Prelude Words.

Module fee.
Definition G_SLOAD_TANGERINE_WHISTLE : Z := 200.
Definition G_SLOAD_ISTANBUL : Z := 800.
Definition WARM_STORAGE_READ_COST : Z := 100.
Definition COLD_SLOAD_COST : Z := 2100.
Definition ACCESS_LIST_STORAGE_KEY_COST : Z := 1900.
Definition ACCESS_LIST_ADDRESS_COST : Z := 2400.
Definition G_SSET : Z := 20000.
Definition G_SRESET : Z := 5000.
Definition R_SCLEAR : Z := 15000.
Definition R_SELF_DESTRUCT : Z := 24000.
Definition G_CODE_DEPOSIT : Z := 200.
Definition G_TX_CREATE : Z := 32000.
Definition G_TX_DATA_ZERO : Z := 4.
Definition G_TX_DATA_NON_ZERO_FRONTIER : Z := 68.
Definition G_TX_DATA_NON_ZERO_ISTANBUL : Z := 16.
Definition G_TRANSACTION : Z := 21000.
End fee.

Module param.
Definition MAX_CODE_SIZE : Z := 0x6000.
Definition BLOCK_REWARD_FRONTIER : Z := 5 * 10 ^ 18.
Definition BLOCK_REWARD_BYZANTIUM : Z := 3 * 10 ^ 18.
Definition BLOCK_REWARD_CONSTANTINOPLE : Z := 2 * 10 ^ 18.
Definition G_QUAD_DIVISOR_BYZANTIUM : Z := 20.
Definition G_QUAD_DIVISOR_BERLIN : Z := 3.
Definition MAX_REFUND_QUOTIENT_FRONTIER : Z := 2.
Definition MAX_REFUND_QUOTIENT_LONDON : Z := 5.
Definition INITIAL_BASE_FEE : Z := 1000000000.
Definition BASE_FEE_MAX_CHANGE_DENOMINATOR : Z := 8.
Definition ELASTICITY_MULTIPLIER : Z := 2.
End param.

(** The revisions the source names, in the order in which [Revision]'s
    derived comparison ranks them. *)
Inductive Revision : Type :=
| Frontier | Homestead | Tangerine | Spurious | Byzantium
| Constantinople | Petersburg | Istanbul | Berlin | London | Shanghai.

#[global] Instance Revision_eq_dec : EqDecision Revision.
Proof. solve_decision. Defined.

Definition rev_index (r : Revision) : Z :=
  match r with
  | Frontier => 0 | Homestead => 1 | Tangerine => 2 | Spurious => 3
  | Byzantium => 4 | Constantinople => 5 | Petersburg => 6 | Istanbul => 7
  | Berlin => 8 | London => 9 | Shanghai => 10
  end.

#[global] Program Instance Revision_countable : Countable Revision :=
  inj_countable' rev_index
    (fun z => nth (Z.to_nat z) [Frontier; Homestead; Tangerine; Spurious; Byzantium;
       Constantinople; Petersburg; Istanbul; Berlin; London; Shanghai] Frontier) _.
Next Obligation. by intros []. Qed.

(** [a >= b]. *)
Definition rev_ge (a b : Revision) : bool := rev_index b <=? rev_index a.

#[global] Instance rev_index_inj : Inj (=) (=) rev_index.
Proof. by intros [] []. Qed.
