(* ===== verification/ChainSpec.v ===== *)
(** * ChainSpec

    [src/src/models/chainspec.rs]: the chain configuration, the
    configuration of one block, the list of forks, the difficulty bomb's
    delay, and the genesis seal. [BTreeMap]s are finite maps read in key
    order ([sorted_entries]). *)

From stdpp Require Import sorting.
From S2P Require Import Prelude Words Params.

(** ** Ordered maps *)

Definition key_le {A} (p q : Z * A) : Prop := p.1 ≤ q.1.
#[global] Instance key_le_dec {A} : RelDecision (@key_le A).
Proof. intros p q. unfold key_le. apply _. Defined.
#[global] Instance key_le_total {A} : Total (@key_le A).
Proof. intros p q. unfold key_le. lia. Qed.
#[global] Instance key_le_trans {A} : Transitive (@key_le A).
Proof. intros p q r. unfold key_le. lia. Qed.

(** [BTreeMap::iter]: the entries in increasing key order. *)
Definition sorted_entries {A} (m : gmap Z A) : list (Z * A) :=
  merge_sort key_le (map_to_list m).

Lemma sorted_entries_sorted {A} (m : gmap Z A) : StronglySorted key_le (sorted_entries m).
Proof. apply StronglySorted_merge_sort; apply _. Qed.

Lemma elem_of_sorted_entries {A} (m : gmap Z A) k a :
  (k, a) ∈ sorted_entries m ↔ m !! k = Some a.
Proof.
  unfold sorted_entries. rewrite (merge_sort_Permutation key_le (map_to_list m)).
  apply elem_of_map_to_list.
Qed.

(** ** Contracts and precompiles *)

Inductive ModExpVersion : Type := ModExp198 | ModExp2565.

Inductive Precompile : Type :=
| EcRecover (base word : Z)
| Sha256 (base word : Z)
| Ripemd160 (base word : Z)
| Identity (base word : Z)
| ModExp (version : ModExpVersion)
| AltBn128Add (price : Z)
| AltBn128Mul (price : Z)
| AltBn128Pairing (base pair : Z)
| Blake2F (gas_per_round : Z).

Inductive Contract : Type :=
| ContractCode (code : bytes)
| ContractPrecompile (p : Precompile).

(** ** The configuration *)

Record DifficultyBomb : Type := { delays : gmap Z Z }.

Inductive SealVerificationParams : Type :=
| Clique (period epoch : Z)
| EthashSeal (duration_limit : Z) (block_reward : gmap Z Z)
    (homestead_formula byzantium_formula : option Z)
    (difficulty_bomb : option DifficultyBomb) (skip_pow_verification : bool).

Record ConsensusParams : Type := {
  seal_verification : SealVerificationParams;
  eip1559_block : option Z
}.

Record Upgrades : Type := mkUpgrades {
  homestead : option Z; tangerine : option Z; spurious : option Z;
  byzantium : option Z; constantinople : option Z; petersburg : option Z;
  istanbul : option Z; berlin : option Z; london : option Z
}.

Record Params : Type := { chain_id : Z; network_id : Z; min_gas_limit : Z }.

(** The fields the modelled functions read; [name], [genesis] and [p2p] are
    carried by the source's record and read elsewhere. *)
Record ChainSpec : Type := {
  consensus : ConsensusParams;
  upgrades : Upgrades;
  params : Params;
  contracts : gmap Z (gmap Z Contract);
  balances : gmap Z (gmap Z Z)
}.

Record BlockExecutionSpec : Type := {
  revision : Revision;
  active_transitions : gset Revision;
  spec_params : Params;
  system_contract_changes : gmap Z Contract;
  balance_changes : gmap Z Z
}.

(** The array of [collect_block_spec], latest fork first. *)
Definition fork_schedule (u : Upgrades) : list (option Z * Revision) :=
  [ (london u, London); (berlin u, Berlin); (istanbul u, Istanbul);
    (petersburg u, Petersburg); (constantinople u, Constantinople);
    (byzantium u, Byzantium); (spurious u, Spurious);
    (tangerine u, Tangerine); (homestead u, Homestead) ].

(** The loop over the schedule: it breaks at the first fork whose block has
    been reached. *)
Fixpoint find_revision (block_number : Z) (l : list (option Z * Revision))
    (revision : Revision) (active : gset Revision) : Revision * gset Revision :=
  match l with
  | [] => (revision, active)
  | (Some fork_block, r) :: l =>
      if fork_block <=? block_number then
        (if decide (revision = Frontier) then r else revision,
         if block_number =? fork_block then {[r]} ∪ active else active)
      else find_revision block_number l revision active
  | (None, _) :: l => find_revision block_number l revision active
  end.

Definition collect_contracts (block_number : Z) (cs : gmap Z (gmap Z Contract))
    : gmap Z Contract :=
  foldl (fun acc '(bn, c) => if bn <=? block_number then c ∪ acc else acc)
    ∅ (sorted_entries cs).

Definition collect_block_spec (c : ChainSpec) (block_number : Z) : BlockExecutionSpec :=
  let '(rev, active) := find_revision block_number (fork_schedule (upgrades c)) Frontier ∅ in
  {| revision := rev;
     active_transitions := active;
     spec_params := params c;
     system_contract_changes := collect_contracts block_number (contracts c);
     balance_changes := default ∅ (balances c !! block_number) |}.

(** ** Forks *)

Definition option_list {A} (o : option A) : list A :=
  match o with Some a => [a] | None => [] end.

Definition gather_forks_seal (s : SealVerificationParams) : gset Z :=
  match s with
  | EthashSeal _ block_reward homestead_formula byzantium_formula difficulty_bomb _ =>
      list_to_set ((map_to_list block_reward).*1 ++ option_list homestead_formula
        ++ option_list byzantium_formula
        ++ match difficulty_bomb with
           | Some v => (map_to_list (delays v)).*1
           | None => []
           end)
  | Clique _ _ => ∅
  end.

Definition gather_forks (c : ChainSpec) : gset Z :=
  let u := upgrades c in
  list_to_set
    (foldr (fun o acc => option_list o ++ acc) []
       [homestead u; tangerine u; spurious u; byzantium u; constantinople u;
        petersburg u; istanbul u; berlin u; london u]
     ++ option_list (eip1559_block (consensus c))
     ++ elements (gather_forks_seal (seal_verification (consensus c)))
     ++ (map_to_list (contracts c)).*1
     ++ (map_to_list (balances c)).*1) ∖ {[0]}.

(** [DifficultyBomb::get_delay_to]: the last entry already activated. *)
Definition get_delay_to (b : DifficultyBomb) (block_number : Z) : Z :=
  default 0
    (last (omap (fun '(activation, delay_to) =>
        if activation <=? block_number then Some delay_to else None)
      (sorted_entries (delays b)))).

Definition switch_is_active (switch : option Z) (block_number : Z) : bool :=
  default u64_max switch <=? block_number.

(** ** Properties *)

(** What the revision of a block should be: the greatest one whose fork
    block has been reached. *)
Definition active_at (u : Upgrades) (bn : Z) (r : Revision) : Prop :=
  ∃ b, (Some b, r) ∈ fork_schedule u ∧ b ≤ bn.

Lemma find_revision_spec bn l acts :
  match find_revision bn l Frontier acts with
  | (r, _) =>
      (∃ l1 b l2, l = l1 ++ (Some b, r) :: l2 ∧ b ≤ bn
         ∧ (∀ b' r', (Some b', r') ∈ l1 → bn < b'))
      ∨ (r = Frontier ∧ ∀ b' r', (Some b', r') ∈ l → bn < b')
  end.
Proof.
  induction l as [|[[b|] r] l IH]; cbn.
  - right. split; [done|]. intros b' r' H. by apply elem_of_nil in H.
  - destruct (Z.leb_spec b bn); cbn.
    + left. exists [], b, l. split_and!; [done..|]. intros b' r' H'. by apply elem_of_nil in H'.
    + destruct (find_revision bn l Frontier acts) as [r' acts'].
      destruct IH as [(l1 & b1 & l2 & -> & Hb & Hl1)|[-> Hl]].
      * left. exists ((Some b, r) :: l1), b1, l2. split_and!; [done..|].
        intros b' r'' [|H']%elem_of_cons; [by simplify_eq|eauto].
      * right. split; [done|]. intros b' r'' [|H']%elem_of_cons; [by simplify_eq|eauto].
  - destruct (find_revision bn l Frontier acts) as [r' acts'].
    destruct IH as [(l1 & b1 & l2 & -> & Hb & Hl1)|[-> Hl]].
    + left. exists ((None, r) :: l1), b1, l2. split_and!; [done..|].
      intros b' r'' [|H']%elem_of_cons; [by simplify_eq|eauto].
    + right. split; [done|]. intros b' r'' [|H']%elem_of_cons; [by simplify_eq|eauto].
Qed.

(** A later entry of the schedule has a smaller revision. *)
Lemma fork_schedule_before u l1 x l2 r o :
  fork_schedule u = l1 ++ x :: l2 → (o, r) ∈ l2 → rev_index r < rev_index x.2.
Proof.
  unfold fork_schedule. intros Heq.
  do 9 (destruct l1 as [|? l1]; [injection Heq as <- <-; cbn;
    repeat setoid_rewrite elem_of_cons; rewrite elem_of_nil; naive_solver lia
    |injection Heq as _ Heq]).
  destruct l1; discriminate.
Qed.

(** [collect_block_spec] picks the right revision for a block, whatever the
    schedule (forks may be missing, or out of order): it is the greatest
    revision whose fork block has been reached, and [Frontier] exactly when
    no fork has been reached. *)
Theorem collect_block_spec_revision (c : ChainSpec) (bn : Z) :
  let r := revision (collect_block_spec c bn) in
  (r = Frontier ∧ ∀ r', ¬ active_at (upgrades c) bn r')
  ∨ (active_at (upgrades c) bn r
     ∧ ∀ r', active_at (upgrades c) bn r' → rev_index r' ≤ rev_index r).
Proof.
  unfold collect_block_spec, active_at.
  pose proof (find_revision_spec bn (fork_schedule (upgrades c)) ∅) as H.
  destruct (find_revision _ _ _ _) as [r acts]; cbn [revision].
  destruct H as [(l1 & b & l2 & Heq & Hb & Hl1)|[-> Hl]].
  - right. split; [exists b; rewrite Heq; set_solver by lia|].
    intros r' (b' & Hin & Hb'). rewrite Heq in Hin.
    apply elem_of_app in Hin as [Hin|[Hin|Hin]%elem_of_cons].
    + apply Hl1 in Hin. lia.
    + by simplify_eq.
    + pose proof (fork_schedule_before _ _ _ _ _ _ Heq Hin). cbn in *. lia.
  - left. split; [done|]. intros r' (b' & Hin & Hb'). apply Hl in Hin. lia.
Qed.

Lemma omap_active_app (P : Z → bool) (l1 l2 : list (Z * Z)) :
  let f := fun '(a, d) => if P a then Some d else None in
  omap f (l1 ++ l2) = omap f l1 ++ omap f l2.
Proof. apply omap_app. Qed.

Lemma last_active_spec bn (l : list (Z * Z)) :
  StronglySorted key_le l →
  match last (omap (fun '(a, d) => if a <=? bn then Some d else None) l) with
  | Some d => ∃ a, (a, d) ∈ l ∧ a ≤ bn ∧ ∀ a' d', (a', d') ∈ l → a' ≤ bn → a' ≤ a
  | None => ∀ a d, (a, d) ∈ l → bn < a
  end.
Proof.
  induction l as [|[a d] l IH]; intros Hs; cbn.
  - intros a d H. by apply elem_of_nil in H.
  - inversion Hs as [|? ? Hs' Hall]; subst. specialize (IH Hs').
    rewrite Forall_forall in Hall.
    destruct (Z.leb_spec a bn) as [Ha|Ha]; cbn.
    + rewrite last_cons. destruct (last _) as [d'|]; cbn.
      * destruct IH as (a1 & Hin & Ha1 & Hmax). exists a1. split_and!; [by right|done|].
        intros a' d'' [|Hin']%elem_of_cons Ha'; [|eauto].
        simplify_eq. apply (Hall (a1, d')) in Hin. unfold key_le in Hin. cbn in Hin. lia.
      * exists a. split_and!; [by left|done|].
        intros a' d'' [|Hin']%elem_of_cons Ha'; [by simplify_eq|]. apply IH in Hin'. lia.
    + destruct (last _) as [d'|]; cbn.
      * destruct IH as (a1 & Hin & Ha1 & Hmax).
        apply (Hall (a1, d')) in Hin as Hle. unfold key_le in Hle. cbn in Hle. lia.
      * intros a' d'' [|Hin']%elem_of_cons; [by simplify_eq|eauto].
Qed.

(** The difficulty bomb's delay at a block is the one of the latest
    activation not after the block, and [0] before the first activation. *)
Theorem get_delay_to_latest (b : DifficultyBomb) (bn : Z) :
  (∃ a, delays b !! a = Some (get_delay_to b bn) ∧ a ≤ bn
        ∧ ∀ a' d', delays b !! a' = Some d' → a' ≤ bn → a' ≤ a)
  ∨ (get_delay_to b bn = 0 ∧ ∀ a d, delays b !! a = Some d → bn < a).
Proof.
  unfold get_delay_to.
  pose proof (last_active_spec bn _ (sorted_entries_sorted (delays b))) as H.
  destruct (last _) as [d|]; cbn.
  - left. destruct H as (a & Hin & Ha & Hmax). exists a.
    rewrite elem_of_sorted_entries in Hin. split_and!; [done..|].
    intros a' d' Hin'. apply (Hmax a' d'). by rewrite elem_of_sorted_entries.
  - right. split; [done|]. intros a d Hin. apply (H a d). by rewrite elem_of_sorted_entries.
Qed.

Lemma fork_schedule_blocks u n :
  (∃ r, (Some n, r) ∈ fork_schedule u) ↔
  london u = Some n ∨ berlin u = Some n ∨ istanbul u = Some n ∨ petersburg u = Some n
  ∨ constantinople u = Some n ∨ byzantium u = Some n ∨ spurious u = Some n
  ∨ tangerine u = Some n ∨ homestead u = Some n.
Proof.
  unfold fork_schedule. repeat setoid_rewrite elem_of_cons. setoid_rewrite elem_of_nil.
  split.
  - intros (r & H). repeat (destruct H as [H|H]; [injection H as H1 H2; rewrite H1; tauto|]). done.
  - intros H. repeat (destruct H as [H|H]; [rewrite H; eexists; tauto|]). rewrite H. eexists. tauto.
Qed.

(** [gather_forks] lists exactly the block numbers at which the
    configuration changes anything (a fork, a reward, a formula, a bomb
    delay, a contract or a balance), without block 0. *)
Theorem gather_forks_spec (c : ChainSpec) (n : Z) :
  n ∈ gather_forks c ↔
  n ≠ 0 ∧ ((∃ r, (Some n, r) ∈ fork_schedule (upgrades c))
           ∨ eip1559_block (consensus c) = Some n
           ∨ n ∈ gather_forks_seal (seal_verification (consensus c))
           ∨ is_Some (contracts c !! n) ∨ is_Some (balances c !! n)).
Proof.
  assert (∀ (o : option Z) k, k ∈ option_list o ↔ o = Some k) as Hopt.
  { intros [x|] k; cbn; rewrite ?elem_of_cons, elem_of_nil; naive_solver. }
  assert (∀ A (m : gmap Z A) k, k ∈ (map_to_list m).*1 ↔ is_Some (m !! k)) as Hkeys.
  { intros A m k. rewrite list_elem_of_fmap. split.
    - intros ([k' a] & -> & H%elem_of_map_to_list). eauto.
    - intros [a Ha]. exists (k, a). split; [done|]. by apply elem_of_map_to_list. }
  unfold gather_forks.
  rewrite elem_of_difference, elem_of_list_to_set, elem_of_singleton.
  rewrite !elem_of_app, !Hkeys, elem_of_elements. cbn [foldr].
  rewrite !elem_of_app, !Hopt, elem_of_nil, fork_schedule_blocks. tauto.
Qed.
