(* ===== verification/Transaction.v ===== *)
(** * Transaction

    [src/src/models/transaction.rs]: transaction messages and their
    accessors, signatures, the recovery id of EIP-155, and the fee
    functions of EIP-1559; [is_valid_signature] of
    [src/src/crypto/mod.rs] and [intrinsic_gas] of
    [src/src/chain/intrinsic_gas.rs]. *)

From S2P Require Import Prelude Words Errors Params.

Inductive TxType : Type := Legacy | EIP2930 | EIP1559.

#[global] Instance TxType_eq_dec : EqDecision TxType.
Proof. solve_decision. Defined.

(** [self.tx_type as u8] and [TryFrom<u8>]. *)
Definition tx_type_to_u8 (t : TxType) : Z :=
  match t with Legacy => 0 | EIP2930 => 1 | EIP1559 => 2 end.

Definition tx_type_try_from (orig : Z) : result TxType :=
  match orig with
  | 0 => Ok Legacy
  | 1 => Ok EIP2930
  | 2 => Ok EIP1559
  | _ => Err (Bail "Invalid tx type")
  end.

Inductive TransactionAction : Type :=
| Call (address : Z)
| Create.

#[global] Instance TransactionAction_eq_dec : EqDecision TransactionAction.
Proof. solve_decision. Defined.

(** ** The recovery id *)

Record YParityAndChainId : Type := mkYParity {
  odd_y_parity : bool;
  y_chain_id : option Z
}.

Definition from_v (v : Z) : option YParityAndChainId :=
  if (v =? 27) || (v =? 28) then
    Some {| odd_y_parity := v =? 28; y_chain_id := None |}
  else if 35 <=? v then
    let w := u64_sub v 35 in
    Some {| odd_y_parity := negb (w mod 2 =? 0); y_chain_id := Some (Z.shiftr w 1) |}
  else None.

Definition to_v (y : YParityAndChainId) : Z :=
  match y_chain_id y with
  | Some chain_id => u64_add (u64_add (u64_mul chain_id 2) 35) (Z.b2z (odd_y_parity y))
  | None => u64_add 27 (Z.b2z (odd_y_parity y))
  end.

(** ** Signatures *)

Definition SECP256K1N : Z :=
  0xfffffffffffffffffffffffffffffffebaaedce6af48a03bbfd25e8cd0364141.

Definition is_valid_signature (r s : Z) : bool :=
  if (r =? 0) || (s =? 0) then false
  else if (SECP256K1N <=? r) && (SECP256K1N <=? s) then false
  else true.

Record MessageSignature : Type := mkSignature {
  sig_odd_y_parity : bool;
  sig_r : Z;
  sig_s : Z
}.

#[global] Instance MessageSignature_eq_dec : EqDecision MessageSignature.
Proof. solve_decision. Defined.

(** [MessageSignature::new]. *)
Definition new_signature (odd : bool) (r s : Z) : option MessageSignature :=
  if is_valid_signature r s
  then Some {| sig_odd_y_parity := odd; sig_r := r; sig_s := s |}
  else None.

Definition HALF_N : Z :=
  0x7fffffffffffffffffffffffffffffff5d576e7357a4501ddfe92f46681b20a0.

Definition malleable (s : MessageSignature) : bool := HALF_N <? sig_s s.

(** [is_low_s], whose constant is written byte by byte. *)
Definition LOWER : Z := from_be_bytes
  [0x7f; 0xff; 0xff; 0xff; 0xff; 0xff; 0xff; 0xff; 0xff; 0xff; 0xff; 0xff; 0xff; 0xff;
   0xff; 0xff; 0x5d; 0x57; 0x6e; 0x73; 0x57; 0xa4; 0x50; 0x1d; 0xdf; 0xe9; 0x2f; 0x46;
   0x68; 0x1b; 0x20; 0xa0].
Definition is_low_s (s : MessageSignature) : bool := sig_s s <=? LOWER.

(** ** Messages *)

Record AccessListItem : Type := mkAccessListItem {
  item_address : Z;
  slots : list Z
}.

#[global] Instance AccessListItem_eq_dec : EqDecision AccessListItem.
Proof. solve_decision. Defined.

(** [OptionalChainId]'s codec writes no chain id as [0] and reads [0] as no
    chain id. *)
Definition optional_chain_id_encode (c : option Z) : Z :=
  match c with Some chainid => chainid | None => 0 end.
Definition optional_chain_id_decode (input : Z) : option Z :=
  if input =? 0 then None else Some input.

Inductive Message : Type :=
| LegacyMsg (chain_id : option Z) (nonce gas_price gas_limit : Z)
    (action : TransactionAction) (value : Z) (input : bytes)
| EIP2930Msg (chain_id nonce gas_price gas_limit : Z)
    (action : TransactionAction) (value : Z) (input : bytes)
    (access_list : list AccessListItem)
| EIP1559Msg (chain_id nonce max_priority_fee_per_gas max_fee_per_gas gas_limit : Z)
    (action : TransactionAction) (value : Z) (input : bytes)
    (access_list : list AccessListItem).

#[global] Instance Message_eq_dec : EqDecision Message.
Proof. solve_decision. Defined.

Record MessageWithSignature : Type := mkMessageWithSignature {
  message : Message;
  signature : MessageSignature
}.

#[global] Instance MessageWithSignature_eq_dec : EqDecision MessageWithSignature.
Proof. solve_decision. Defined.

Record MessageWithSender : Type := mkMessageWithSender {
  message_of : Message;
  sender : Z
}.

(** The accessors of [impl Message]. *)
Module Tx.
Definition tx_type (m : Message) : TxType :=
  match m with
  | LegacyMsg _ _ _ _ _ _ _ => Legacy
  | EIP2930Msg _ _ _ _ _ _ _ _ => EIP2930
  | EIP1559Msg _ _ _ _ _ _ _ _ _ => EIP1559
  end.

Definition chain_id (m : Message) : option Z :=
  match m with
  | LegacyMsg chain_id _ _ _ _ _ _ => chain_id
  | EIP2930Msg chain_id _ _ _ _ _ _ _ => Some chain_id
  | EIP1559Msg chain_id _ _ _ _ _ _ _ _ => Some chain_id
  end.

Definition nonce (m : Message) : Z :=
  match m with
  | LegacyMsg _ nonce _ _ _ _ _ | EIP2930Msg _ nonce _ _ _ _ _ _
  | EIP1559Msg _ nonce _ _ _ _ _ _ _ => nonce
  end.

Definition max_priority_fee_per_gas (m : Message) : Z :=
  match m with
  | LegacyMsg _ _ gas_price _ _ _ _ | EIP2930Msg _ _ gas_price _ _ _ _ _ => gas_price
  | EIP1559Msg _ _ max_priority_fee_per_gas _ _ _ _ _ _ => max_priority_fee_per_gas
  end.

Definition max_fee_per_gas (m : Message) : Z :=
  match m with
  | LegacyMsg _ _ gas_price _ _ _ _ | EIP2930Msg _ _ gas_price _ _ _ _ _ => gas_price
  | EIP1559Msg _ _ _ max_fee_per_gas _ _ _ _ _ => max_fee_per_gas
  end.

Definition gas_limit (m : Message) : Z :=
  match m with
  | LegacyMsg _ _ _ gas_limit _ _ _ | EIP2930Msg _ _ _ gas_limit _ _ _ _
  | EIP1559Msg _ _ _ _ gas_limit _ _ _ _ => gas_limit
  end.

Definition action (m : Message) : TransactionAction :=
  match m with
  | LegacyMsg _ _ _ _ action _ _ | EIP2930Msg _ _ _ _ action _ _ _
  | EIP1559Msg _ _ _ _ _ action _ _ _ => action
  end.

Definition value (m : Message) : Z :=
  match m with
  | LegacyMsg _ _ _ _ _ value _ | EIP2930Msg _ _ _ _ _ value _ _
  | EIP1559Msg _ _ _ _ _ _ value _ _ => value
  end.

Definition input (m : Message) : bytes :=
  match m with
  | LegacyMsg _ _ _ _ _ _ input | EIP2930Msg _ _ _ _ _ _ input _
  | EIP1559Msg _ _ _ _ _ _ _ input _ => input
  end.

Definition access_list (m : Message) : list AccessListItem :=
  match m with
  | LegacyMsg _ _ _ _ _ _ _ => []
  | EIP2930Msg _ _ _ _ _ _ _ access_list
  | EIP1559Msg _ _ _ _ _ _ _ _ access_list => access_list
  end.

(** [assert!(self.max_fee_per_gas() >= base_fee_per_gas)], then the minimum. *)
Definition priority_fee_per_gas (m : Message) (base_fee_per_gas : Z) : result Z :=
  if base_fee_per_gas <=? max_fee_per_gas m then
    Ok (Z.min (max_priority_fee_per_gas m) (u256_sub (max_fee_per_gas m) base_fee_per_gas))
  else Panic.

Definition effective_gas_price (m : Message) (base_fee_per_gas : Z) : result Z :=
  p ← priority_fee_per_gas m base_fee_per_gas;
  Ok (u256_add p base_fee_per_gas).
End Tx.

(** The ranges the fields' Rust types give. *)
Definition message_wf (m : Message) : Prop :=
  is_u64 (Tx.nonce m) ∧ is_u64 (Tx.gas_limit m)
  ∧ is_u256 (Tx.max_priority_fee_per_gas m) ∧ is_u256 (Tx.max_fee_per_gas m)
  ∧ is_u256 (Tx.value m).

#[global] Instance message_wf_dec m : Decision (message_wf m).
Proof. unfold message_wf. apply _. Defined.

(** ** Intrinsic gas *)

Definition count_non_zero (input : bytes) : Z :=
  Z.of_nat (length (filter (fun c => c ≠ 0) input)).

Definition intrinsic_gas (txn : Message) (homestead istanbul : bool) : Z :=
  let gas := fee.G_TRANSACTION in
  let gas :=
    match Tx.action txn with
    | Create => if homestead then u128_add gas fee.G_TX_CREATE else gas
    | Call _ => gas
    end in
  let gas := u128_add gas
    (u128_mul (Z.of_nat (length (Tx.access_list txn))) fee.ACCESS_LIST_ADDRESS_COST) in
  let gas := foldl (fun gas e =>
      u128_add gas (u128_mul (Z.of_nat (length (slots e))) fee.ACCESS_LIST_STORAGE_KEY_COST))
    gas (Tx.access_list txn) in
  match Tx.input txn with
  | [] => gas
  | _ =>
      let non_zero_bytes := count_non_zero (Tx.input txn) in
      let non_zero_gas := if istanbul then fee.G_TX_DATA_NON_ZERO_ISTANBUL
                          else fee.G_TX_DATA_NON_ZERO_FRONTIER in
      let gas := u128_add gas (u128_mul non_zero_bytes non_zero_gas) in
      let zero_bytes := Z.of_nat (length (Tx.input txn)) - non_zero_bytes in
      u128_add gas (u128_mul zero_bytes fee.G_TX_DATA_ZERO)
  end.

Lemma u128_add_word a b : 0 ≤ u128_add a b < 2 ^ 128.
Proof. apply Z.mod_pos_bound. lia. Qed.

Lemma intrinsic_gas_word txn homestead istanbul :
  0 ≤ intrinsic_gas txn homestead istanbul < 2 ^ 128.
Proof.
  unfold intrinsic_gas. cbv zeta.
  assert (∀ l g, 0 ≤ g < 2 ^ 128 → 0 ≤ foldl (fun gas e =>
      u128_add gas (u128_mul (Z.of_nat (length (slots e))) fee.ACCESS_LIST_STORAGE_KEY_COST)) g l
      < 2 ^ 128) as Hf.
  { induction l as [|e l IH]; intros g Hg; cbn [foldl]; [done|]. apply IH, u128_add_word. }
  destruct (Tx.input txn); [apply Hf, u128_add_word|apply u128_add_word].
Qed.

(** ** Properties *)

(** The recovery id round-trips: every [v] of 64 bits that [from_v]
    accepts is the [v] of the parity and chain id it returns. *)
Theorem from_v_to_v (v : Z) (y : YParityAndChainId)
  (Hv : is_u64 v) (H : from_v v = Some y) : to_v y = v.
Proof.
  unfold from_v in H.
  destruct (Z.eqb_spec v 27) as [->|]; [by injection H as <-|].
  destruct (Z.eqb_spec v 28) as [->|]; [by injection H as <-|]. cbn [orb] in H.
  destruct (Z.leb_spec 35 v); [|done]. injection H as <-.
  unfold to_v; cbn [y_chain_id odd_y_parity].
  rewrite u64_sub_small by word_lia. rewrite Z.shiftr_div_pow2 by lia. change (2 ^ 1) with 2.
  pose proof (Z.div_mod (v - 35) 2 ltac:(lia)). pose proof (Z.mod_pos_bound (v - 35) 2 ltac:(lia)).
  set (q := (v - 35) / 2) in *. unfold u64_mul, u64_add.
  rewrite (wrap_small 64 (q * 2)), (wrap_small 64 (q * 2 + 35)) by word_lia.
  destruct (Z.eqb_spec ((v - 35) mod 2) 0); cbn [negb Z.b2z]; rewrite wrap_small; word_lia.
Qed.

Lemma from_v_to_v_witness :
  from_v 38 = Some {| odd_y_parity := true; y_chain_id := Some 1 |}
  ∧ to_v {| odd_y_parity := true; y_chain_id := Some 1 |} = 38.
Proof. split; [done|]. apply from_v_to_v; [by vm_compute|done]. Defined.

Lemma v_roundtrip (y : YParityAndChainId)
  (H : match y_chain_id y with Some c => 0 ≤ c ∧ c * 2 + 36 < 2 ^ 64 | None => True end) :
  from_v (to_v y) = Some y.
Proof.
  destruct y as [odd [c|]]; unfold to_v, from_v; cbn in H |- *; [|by destruct odd].
  unfold u64_mul, u64_add, u64_sub. pose proof (Z.b2z_bit0 odd) as _.
  assert (0 ≤ Z.b2z odd ≤ 1) by (destruct odd; cbn; lia).
  rewrite (wrap_small 64 (c * 2)) by word_lia. rewrite (wrap_small 64 (c * 2 + 35)) by word_lia.
  rewrite (wrap_small 64 (_ + Z.b2z odd)) by word_lia.
  rewrite (proj2 (Z.eqb_neq _ 27)), (proj2 (Z.eqb_neq _ 28)) by lia. cbn [orb].
  rewrite (proj2 (Z.leb_le 35 _)) by lia. rewrite wrap_small by word_lia.
  replace (c * 2 + 35 + Z.b2z odd - 35) with (Z.b2z odd + c * 2) by lia.
  rewrite Z.mod_add, Z.shiftr_div_pow2 by lia. change (2 ^ 1) with 2. rewrite Z.div_add by lia.
  by destruct odd.
Qed.

(** Conversely, the [v] of a parity and a chain id decodes to both, as
    long as [2 * chain_id + 36] fits in 64 bits (the encoder does not check
    it, and wraps past that bound). *)
Theorem to_v_from_v (y : YParityAndChainId)
  (H : match y_chain_id y with Some c => 0 ≤ c ∧ c * 2 + 36 < 2 ^ 64 | None => True end) :
  from_v (to_v y) = Some y.
Proof. by apply v_roundtrip. Qed.

Lemma to_v_from_v_witness :
  from_v (to_v {| odd_y_parity := false; y_chain_id := Some 1 |})
  = Some {| odd_y_parity := false; y_chain_id := Some 1 |}.
Proof. apply to_v_from_v. cbn. lia. Defined.

(** Fees of EIP-1559: when the fee cap covers the base fee, nothing
    wraps, and the gas price is the base fee plus the tip, capped by the
    fee cap; the miner's share is the price less the base fee. *)
Theorem effective_gas_price_spec (m : Message) (base : Z)
  (Hm : message_wf m) (Hb : 0 ≤ base) (Hcap : base ≤ Tx.max_fee_per_gas m) :
  Tx.effective_gas_price m base
  = Ok (Z.min (base + Tx.max_priority_fee_per_gas m) (Tx.max_fee_per_gas m))
  ∧ Tx.priority_fee_per_gas m base
  = Ok (Z.min (base + Tx.max_priority_fee_per_gas m) (Tx.max_fee_per_gas m) - base).
Proof.
  destruct Hm as (_ & _ & Hp & Hf & _). unfold Tx.effective_gas_price, Tx.priority_fee_per_gas.
  rewrite (proj2 (Z.leb_le _ _) Hcap). res_simpl.
  rewrite u256_sub_small by word_lia. rewrite u256_add_small by word_lia.
  split; f_equal; lia.
Qed.

Lemma effective_gas_price_spec_witness :
  let m := EIP1559Msg 1 0 2 100 21000 (Call 5) 0 [] [] in
  Tx.effective_gas_price m 7 = Ok 9.
Proof.
  apply (effective_gas_price_spec (EIP1559Msg 1 0 2 100 21000 (Call 5) 0 [] []) 7);
    [by vm_compute|lia|by vm_compute].
Defined.

(** The price exists and lies between the base fee and the fee cap. *)
Lemma effective_price (m : Message) (base : Z) :
  message_wf m → 0 ≤ base → base ≤ Tx.max_fee_per_gas m →
  ∃ price, Tx.effective_gas_price m base = Ok price ∧ base ≤ price ≤ Tx.max_fee_per_gas m.
Proof.
  intros (_ & _ & Hp & Hf & _) Hb Hcap.
  unfold Tx.effective_gas_price, Tx.priority_fee_per_gas.
  rewrite (proj2 (Z.leb_le _ _) Hcap). res_simpl. eexists. split; [done|].
  unfold is_u256, is_word in *. rewrite u256_sub_small by word_lia. rewrite u256_add_small by word_lia. lia.
Qed.

(** A transaction whose fee cap is below the base fee stops the fee
    functions with a panic. *)
Lemma effective_gas_price_panics (m : Message) (base : Z)
  (H : Tx.max_fee_per_gas m < base) : Tx.effective_gas_price m base = Panic.
Proof.
  unfold Tx.effective_gas_price, Tx.priority_fee_per_gas.
  by rewrite (proj2 (Z.leb_gt _ _) H).
Qed.

(** The gas of the access lists, and of the calldata, without wrap-around. *)
Definition slots_gas (l : list AccessListItem) : Z :=
  foldr (fun e acc => 1900 * Z.of_nat (length (slots e)) + acc) 0 l.

Definition calldata_gas (istanbul : bool) (input : bytes) : Z :=
  foldr (fun c acc => (if c =? 0 then 4 else if istanbul then 16 else 68) + acc) 0 input.

Lemma slots_gas_nonneg l : 0 ≤ slots_gas l.
Proof. induction l; cbn [slots_gas foldr] in *; [lia|]. unfold slots_gas in *. lia. Qed.

Lemma slots_fold l g :
  0 ≤ g → g + slots_gas l < 2 ^ 128 →
  foldl (fun gas e =>
      u128_add gas (u128_mul (Z.of_nat (length (slots e))) fee.ACCESS_LIST_STORAGE_KEY_COST)) g l
  = g + slots_gas l.
Proof.
  revert g. induction l as [|e l IH]; intros g Hg H; cbn [foldl slots_gas foldr] in *; [lia|].
  pose proof (slots_gas_nonneg l). fold (slots_gas l) in *.
  unfold u128_add, u128_mul, fee.ACCESS_LIST_STORAGE_KEY_COST.
  rewrite (wrap_small 128 (_ * 1900)), (wrap_small 128 (_ + _)) by word_lia.
  rewrite IH; lia.
Qed.

Lemma calldata_gas_split istanbul input :
  calldata_gas istanbul input
  = count_non_zero input * (if istanbul then 16 else 68)
    + (Z.of_nat (length input) - count_non_zero input) * 4.
Proof.
  unfold calldata_gas, count_non_zero.
  induction input as [|c input IH]; cbn [foldr length]; [by destruct istanbul|].
  rewrite IH, filter_cons. destruct (Z.eqb_spec c 0) as [->|];
    case_decide; try done; cbn [length]; destruct istanbul; lia.
Qed.

Lemma count_non_zero_bound input : 0 ≤ count_non_zero input ≤ Z.of_nat (length input).
Proof. unfold count_non_zero. pose proof (length_filter (fun c => c ≠ 0) input). lia. Qed.

(** The intrinsic gas of a transaction is 21000, 32000 more for a
    creation from Homestead on, 2400 per access-list entry, 1900 per
    storage key, and 4 per zero byte and 68 (16 from Istanbul on) per other
    byte of its input; the 128-bit arithmetic does not wrap when that sum
    fits in it. *)
Theorem intrinsic_gas_formula (txn : Message) (homestead istanbul : bool)
  (total := 21000 + (if decide (Tx.action txn = Create) then
                       if homestead then 32000 else 0 else 0)
            + 2400 * Z.of_nat (length (Tx.access_list txn)) + slots_gas (Tx.access_list txn)
            + calldata_gas istanbul (Tx.input txn))
  (H : total < 2 ^ 128) :
  intrinsic_gas txn homestead istanbul = total.
Proof.
  subst total. revert H. unfold intrinsic_gas.
  pose proof (slots_gas_nonneg (Tx.access_list txn)) as Hs.
  pose proof (count_non_zero_bound (Tx.input txn)) as Hc.
  rewrite calldata_gas_split.
  set (al := Tx.access_list txn) in *. set (inp := Tx.input txn) in *.
  set (g0 := match Tx.action txn with
             | Create => if homestead then u128_add fee.G_TRANSACTION fee.G_TX_CREATE
                         else fee.G_TRANSACTION
             | Call _ => fee.G_TRANSACTION end).
  assert (g0 = 21000 + (if decide (Tx.action txn = Create) then
                          if homestead then 32000 else 0 else 0)) as Hg0.
  { unfold g0. destruct (Tx.action txn), homestead; reflexivity. }
  rewrite <- Hg0. assert (21000 ≤ g0) as Hg1 by (rewrite Hg0; repeat case_match; lia).
  clearbody g0. clear Hg0. intros H.
  set (nz := count_non_zero inp) in *.
  assert (0 ≤ nz * (if istanbul then 16 else 68)) as Hnz by (destruct istanbul; lia).
  unfold fee.ACCESS_LIST_ADDRESS_COST.
  assert (u128_mul (Z.of_nat (length al)) 2400 = 2400 * Z.of_nat (length al)) as ->.
  { unfold u128_mul. rewrite wrap_small; word_lia. }
  assert (u128_add g0 (2400 * Z.of_nat (length al)) = g0 + 2400 * Z.of_nat (length al)) as ->.
  { unfold u128_add. rewrite wrap_small; word_lia. }
  rewrite slots_fold by lia.
  set (g := g0 + 2400 * Z.of_nat (length al) + slots_gas al) in *.
  clearbody nz al inp. destruct inp as [|c inp']; [cbn in *; destruct istanbul; lia|].
  unfold fee.G_TX_DATA_NON_ZERO_ISTANBUL, fee.G_TX_DATA_NON_ZERO_FRONTIER, fee.G_TX_DATA_ZERO.
  assert (0 ≤ g) as Hg by (unfold g; lia). clearbody g. unfold u128_add, u128_mul.
  rewrite (wrap_small 128 (nz * _)) by word_lia.
  rewrite (wrap_small 128 (g + _)) by word_lia.
  rewrite (wrap_small 128 (_ * 4)) by word_lia.
  rewrite wrap_small by word_lia. lia.
Qed.

Lemma intrinsic_gas_formula_witness :
  let txn := EIP1559Msg 1 0 2 100 21000 Create 0 [0; 7] [mkAccessListItem 5 [1; 2]] in
  intrinsic_gas txn true true = 21000 + 32000 + 2400 + 3800 + 20.
Proof. apply intrinsic_gas_formula. by vm_compute. Defined.

(** Which signatures [is_valid_signature] accepts: both values are at
    least 1 and at least one of them is below the order of the curve. The
    source's comment asks for both below the order, so a signature with one
    value out of range is accepted. *)
Theorem is_valid_signature_range (r s : Z) (Hr : 0 ≤ r) (Hs : 0 ≤ s) :
  is_valid_signature r s = true
  ↔ (1 ≤ r ∧ 1 ≤ s) ∧ (r < SECP256K1N ∨ s < SECP256K1N).
Proof.
  unfold is_valid_signature. set (n := SECP256K1N). clearbody n. zcases; cbn; lia.
Qed.

Lemma is_valid_signature_range_witness : is_valid_signature SECP256K1N 1 = true.
Proof.
  apply is_valid_signature_range; [by vm_compute|by vm_compute|].
  split; [by vm_compute|right; by vm_compute].
Defined.

(** The storage codec of legacy transactions loses a chain id of zero:
    exactly the chain id [0], which [from_v] produces for [v] of 35 or 36,
    comes back as no chain id. *)
Theorem optional_chain_id_roundtrip (c : option Z) :
  optional_chain_id_decode (optional_chain_id_encode c) = c ↔ c ≠ Some 0.
Proof.
  unfold optional_chain_id_decode, optional_chain_id_encode.
  destruct c as [c|]; [|done]. destruct (Z.eqb_spec c 0) as [->|]; naive_solver.
Qed.
