(* ===== verification/Block.v ===== *)
(** * Block

    [src/src/models/header.rs], [block.rs], [log.rs] and [receipt.rs]: the
    records of headers, blocks and receipts and the conversions between
    them. A bloom filter is an integer of 2048 bits, a hash one of 256. *)

From S2P Require Import Prelude Words Errors Transaction.

Record BlockHeader : Type := mkHeader {
  parent_hash : Z;
  ommers_hash : Z;
  beneficiary : Z;
  state_root : Z;
  transactions_root : Z;
  receipts_root : Z;
  logs_bloom : Z;
  difficulty : Z;
  number : Z;
  gas_limit : Z;
  gas_used : Z;
  timestamp : Z;
  extra_data : bytes;
  mix_hash : Z;
  header_nonce : Z;
  base_fee_per_gas : option Z
}.

#[global] Instance BlockHeader_eq_dec : EqDecision BlockHeader.
Proof. solve_decision. Defined.

Record PartialHeader : Type := mkPartialHeader {
  ph_parent_hash : Z;
  ph_beneficiary : Z;
  ph_state_root : Z;
  ph_receipts_root : Z;
  ph_logs_bloom : Z;
  ph_difficulty : Z;
  ph_number : Z;
  ph_gas_limit : Z;
  ph_gas_used : Z;
  ph_timestamp : Z;
  ph_extra_data : bytes;
  ph_mix_hash : Z;
  ph_nonce : Z;
  ph_base_fee_per_gas : option Z
}.

(** [From<BlockHeader> for PartialHeader]. *)
Definition partial_of_header (header : BlockHeader) : PartialHeader :=
  {| ph_parent_hash := parent_hash header;
     ph_beneficiary := beneficiary header;
     ph_state_root := state_root header;
     ph_receipts_root := receipts_root header;
     ph_logs_bloom := logs_bloom header;
     ph_difficulty := difficulty header;
     ph_number := number header;
     ph_gas_limit := gas_limit header;
     ph_gas_used := gas_used header;
     ph_timestamp := timestamp header;
     ph_extra_data := extra_data header;
     ph_mix_hash := mix_hash header;
     ph_nonce := header_nonce header;
     ph_base_fee_per_gas := base_fee_per_gas header |}.

(** [BlockHeader::new]. *)
Definition header_new (partial_header : PartialHeader) (ommers_hash transactions_root : Z)
    : BlockHeader :=
  {| parent_hash := ph_parent_hash partial_header;
     ommers_hash := ommers_hash;
     beneficiary := ph_beneficiary partial_header;
     state_root := ph_state_root partial_header;
     transactions_root := transactions_root;
     receipts_root := ph_receipts_root partial_header;
     logs_bloom := ph_logs_bloom partial_header;
     difficulty := ph_difficulty partial_header;
     number := ph_number partial_header;
     gas_limit := ph_gas_limit partial_header;
     gas_used := ph_gas_used partial_header;
     timestamp := ph_timestamp partial_header;
     extra_data := ph_extra_data partial_header;
     mix_hash := ph_mix_hash partial_header;
     header_nonce := ph_nonce partial_header;
     base_fee_per_gas := ph_base_fee_per_gas partial_header |}.

Record Block : Type := mkBlock {
  header : BlockHeader;
  transactions : list MessageWithSignature;
  ommers : list BlockHeader
}.

Record BlockBody : Type := mkBlockBody {
  body_transactions : list MessageWithSignature;
  body_ommers : list BlockHeader
}.

#[global] Instance BlockBody_eq_dec : EqDecision BlockBody.
Proof. solve_decision. Defined.

Record BlockWithSenders : Type := mkBlockWithSenders {
  bs_header : PartialHeader;
  bs_transactions : list MessageWithSender;
  bs_ommers : list BlockHeader
}.

Record BlockBodyWithSenders : Type := mkBodyWithSenders {
  bws_transactions : list MessageWithSender;
  bws_ommers : list BlockHeader
}.

Record Log : Type := mkLog {
  log_address : Z;
  topics : list Z;
  log_data : bytes
}.

Record Receipt : Type := mkReceipt {
  receipt_tx_type : TxType;
  success : bool;
  cumulative_gas_used : Z;
  bloom : Z;
  receipt_logs : list Log
}.

(** [From<Block> for BlockBody]. *)
Definition body_of_block (b : Block) : BlockBody :=
  {| body_transactions := transactions b; body_ommers := ommers b |}.

(** What the code takes from libraries: Keccak-256, RLP encodings (of a
    byte string, of an account's nonce, balance, storage root and code
    hash), Merkle-Patricia roots, and the recovery of a sender. *)
Class Hashing : Type := {
  keccak256 : bytes → Z;
  ommers_rlp_hash : list BlockHeader → Z;
  transactions_trie_root : list MessageWithSignature → Z;
  receipts_trie_root : list Receipt → Z;
  ecdsa_recover : MessageWithSignature → result Z;
  trie_root : list (bytes * bytes) → Z;
  rlp_bytes : bytes → bytes;
  rlp_account : Z → Z → Z → Z → bytes
}.

Section bloom.
Context `{Hashing}.

(** [m3_2048] (bloom.rs): three bits of the filter, at the low eleven bits
    of the first three byte pairs of the hash. Byte
    [255 - bit / 8] of the filter, bit [bit % 8], is bit [bit] of the
    filter read as a big-endian integer. *)
Definition m3_2048 (bloom : Z) (x : bytes) : Z :=
  let h := to_be_bytes 32 (keccak256 x) in
  foldl (fun bloom i =>
      let bit := Z.land (nth (S i) h 0 + Z.shiftl (nth i h 0) 8) 0x7FF in
      Z.lor bloom (Z.shiftl 1 bit))
    bloom [0%nat; 2%nat; 4%nat].

Definition logs_bloom_of (logs : list Log) : Z :=
  foldl (fun bloom log =>
      foldl (fun bloom topic => m3_2048 bloom (to_be_bytes 32 topic))
        (m3_2048 bloom (to_be_bytes 20 (log_address log))) (topics log))
    0 logs.

(** [Receipt::new]. *)
Definition receipt_new (tx_type : TxType) (success : bool) (cumulative_gas_used : Z)
    (logs : list Log) : Receipt :=
  {| receipt_tx_type := tx_type; success := success;
     cumulative_gas_used := cumulative_gas_used;
     bloom := logs_bloom_of logs; receipt_logs := logs |}.

(** [Block::new]. *)
Definition block_new (partial_header : PartialHeader)
    (txs : list MessageWithSignature) (oms : list BlockHeader) : Block :=
  let ommers_hash := ommers_rlp_hash oms in
  let transactions_root := transactions_trie_root txs in
  {| header := header_new partial_header ommers_hash transactions_root;
     transactions := txs; ommers := oms |}.

(** [From<Block> for BlockWithSenders], with [recover_sender().unwrap()]. *)
Definition recover_txs (txs : list MessageWithSignature) : result (list MessageWithSender) :=
  res_foldl (fun acc tx =>
      match ecdsa_recover tx with
      | Ok sender => Ok (acc ++ [{| message_of := message tx; sender := sender |}])
      | Err _ | Panic => Panic
      end) [] txs.

Definition block_with_senders (b : Block) : result BlockWithSenders :=
  txs ← recover_txs (transactions b);
  Ok {| bs_header := partial_of_header (header b); bs_transactions := txs;
        bs_ommers := ommers b |}.
End bloom.

Lemma partial_header_new p oh tr : partial_of_header (header_new p oh tr) = p.
Proof. by destruct p. Qed.

Lemma header_new_partial h :
  header_new (partial_of_header h) (ommers_hash h) (transactions_root h) = h.
Proof. by destruct h. Qed.
