(* ===== verification/Rlp.v ===== *)
(** * Rlp

    What the codecs of the models use of the crate [rlp]: streams that
    encode strings and lists, and views ([Rlp]) on encoded bytes. The
    laws are those of the Ethereum encoding; an instance with tags and
    lengths shows that they can hold. *)

From S2P Require Import Prelude Words.

(** [rlp::DecoderError]. *)
Inductive DecoderError : Type :=
| RlpIsTooBig
| RlpIsTooShort
| RlpExpectedToBeList
| RlpExpectedToBeData
| RlpIncorrectListLen
| RlpDataLenWithZeroPrefix
| RlpListLenWithZeroPrefix
| RlpInvalidIndirection
| RlpInconsistentLengthAndData
| RlpInvalidLength
| Custom (message : string).

Abbreviation decoded := (res DecoderError).

(** Encodings: [append(&[u8])] and [begin_list] with what is appended to
    it. Views, given as the bytes they start at: [is_empty], [is_data],
    [is_list], [item_count()], [at(i)], [iter()], [data()], and [as_val] at
    [Vec<u8>], at unsigned integers of so many bytes and at hashes of so
    many bytes. *)
Class Rlp : Type := {
  rlp_value : bytes → bytes;
  rlp_list_of : list bytes → bytes;
  rlp_is_empty : bytes → bool;
  rlp_is_data : bytes → bool;
  rlp_is_list : bytes → bool;
  rlp_item_count : bytes → decoded nat;
  rlp_at : nat → bytes → decoded bytes;
  rlp_iter : bytes → list bytes;
  rlp_data : bytes → decoded bytes;
  rlp_as_bytes : bytes → decoded bytes;
  rlp_as_uint : nat → bytes → decoded Z;
  rlp_as_hash : nat → bytes → decoded Z
}.

Section streams.
Context {R : Rlp}.

(** [append] of an unsigned integer: its bytes without leading zeros. *)
Definition rlp_uint (n : nat) (x : Z) : bytes := rlp_value (zeroless_view (to_be_bytes n x)).

(** [append] of a hash or an address. *)
Definition rlp_hash (n : nat) (x : Z) : bytes := rlp_value (to_be_bytes n x).

(** [append] of a [bool]: as the integer 0 or 1. *)
Definition rlp_bool (b : bool) : bytes := rlp_uint 1 (Z.b2z b).

(** [as_val] at [bool]: 0 is false, 1 is true, other integers are refused. *)
Definition rlp_as_bool (v : bytes) : decoded bool :=
  x ← rlp_as_uint 1 v;
  if x =? 0 then Ok false else if x =? 1 then Ok true else Err (Custom "invalid boolean value").

(** [val_at(i)]. *)
Definition rlp_val_at {A} (as_val : bytes → decoded A) (i : nat) (v : bytes) : decoded A :=
  w ← rlp_at i v; as_val w.

(** [as_list] and [list_at(i)]. *)
Fixpoint collect_vals {A} (as_val : bytes → decoded A) (l : list bytes) : decoded (list A) :=
  match l with
  | [] => Ok []
  | v :: l => x ← as_val v; xs ← collect_vals as_val l; Ok (x :: xs)
  end.

Definition rlp_as_list {A} (as_val : bytes → decoded A) (v : bytes) : decoded (list A) :=
  collect_vals as_val (rlp_iter v).

Definition rlp_list_at {A} (as_val : bytes → decoded A) (i : nat) (v : bytes) : decoded (list A) :=
  w ← rlp_at i v; rlp_as_list as_val w.

(** What is encoded. *)
Inductive encoded : bytes → Prop :=
| encoded_value b : encoded (rlp_value b)
| encoded_list l : Forall encoded l → encoded (rlp_list_of l).

(** The documented laws of the encoding. *)
Class RlpLaws : Prop := {
  value_kind b : rlp_is_data (rlp_value b) = true ∧ rlp_is_list (rlp_value b) = false;
  value_empty b : rlp_is_empty (rlp_value b) = bool_decide (b = []);
  value_data b : rlp_data (rlp_value b) = Ok b;
  value_bytes b : rlp_as_bytes (rlp_value b) = Ok b;
  value_uint n x : 0 ≤ x < 2 ^ (8 * Z.of_nat n) → rlp_as_uint n (rlp_uint n x) = Ok x;
  value_long n b : (n < length b)%nat → rlp_as_uint n (rlp_value b) = Err RlpIsTooBig;
  value_hash n x : 0 ≤ x < 2 ^ (8 * Z.of_nat n) → rlp_as_hash n (rlp_hash n x) = Ok x;
  list_kind l : Forall encoded l → rlp_is_data (rlp_list_of l) = false ∧ rlp_is_list (rlp_list_of l) = true;
  list_count l : Forall encoded l → rlp_item_count (rlp_list_of l) = Ok (length l);
  list_item l i v : Forall encoded l → l !! i = Some v → rlp_at i (rlp_list_of l) = Ok v;
  list_items l : Forall encoded l → rlp_iter (rlp_list_of l) = l;
  list_data l : Forall encoded l → rlp_data (rlp_list_of l) = Ok (mjoin l);
  list_head l : Forall encoded l → ∃ x r, rlp_list_of l = x :: r ∧ 0xc0 ≤ x;
  encoded_nonempty v : encoded v → v ≠ []
}.

Context {RL : RlpLaws}.

Lemma collect_encoded {A} (as_val : bytes → decoded A) (enc : A → bytes) (l : list A) :
  Forall (fun x => as_val (enc x) = Ok x) l → collect_vals as_val (enc <$> l) = Ok l.
Proof.
  induction 1 as [|x l Hx _ IH]; [done|]. cbn [fmap list_fmap collect_vals]. by rewrite Hx, ok_bind, IH, ok_bind.
Qed.

Lemma forall_encoded {A} (enc : A → bytes) (l : list A) : (∀ x, encoded (enc x)) → Forall encoded (enc <$> l).
Proof. intros H. apply Forall_fmap, Forall_forall. intros x _. apply H. Qed.

Lemma as_list_encoded {A} (as_val : bytes → decoded A) (enc : A → bytes) (l : list A) :
  (∀ x, encoded (enc x)) → Forall (fun x => as_val (enc x) = Ok x) l →
  rlp_as_list as_val (rlp_list_of (enc <$> l)) = Ok l.
Proof. intros He Hl. unfold rlp_as_list. rewrite list_items by by apply forall_encoded. by apply collect_encoded. Qed.

Lemma as_bool_encoded b : rlp_as_bool (rlp_bool b) = Ok b.
Proof. unfold rlp_as_bool, rlp_bool. rewrite value_uint by (destruct b; cbn; lia). by destruct b. Qed.

End streams.

Create HintDb rlp.
#[export] Hint Resolve encoded_value encoded_list forall_encoded : rlp.
#[export] Hint Extern 1 (encoded (rlp_uint _ _)) => apply encoded_value : rlp.
#[export] Hint Extern 1 (encoded (rlp_hash _ _)) => apply encoded_value : rlp.
#[export] Hint Extern 1 (encoded (rlp_bool _)) => apply encoded_value : rlp.

(** An encoded list of so many items. *)
Ltac encoded_items := repeat first [apply List.Forall_nil | apply List.Forall_cons; [auto with rlp|]].

(** Reading an item off a list whose items are known. *)
Ltac rlp_item :=
  match goal with
  | |- context [rlp_at ?i (rlp_list_of ?l)] =>
      rewrite (list_item l i _ ltac:(encoded_items) eq_refl)
  end.

(** ** An instance: tags with the length of what follows *)

Section tagged.
Definition tag_value (b : bytes) : bytes := 0x80 :: Z.of_nat (length b) :: b.
Definition tag_list (l : list bytes) : bytes := 0xc0 :: Z.of_nat (length (mjoin l)) :: mjoin l.

Definition tag_payload (v : bytes) : decoded bytes :=
  match v with _ :: n :: r => Ok (take (Z.to_nat n) r) | _ => Err RlpIsTooShort end.

Fixpoint tag_items (fuel : nat) (p : bytes) : list bytes :=
  match fuel, p with
  | S fuel, t :: n :: r => (t :: n :: take (Z.to_nat n) r) :: tag_items fuel (drop (Z.to_nat n) r)
  | _, _ => []
  end.

Definition tag_is (t : Z) (v : bytes) : bool := match v with x :: _ => x =? t | [] => false end.

Definition tag_iter (v : bytes) : list bytes :=
  if tag_is 0xc0 v then match tag_payload v with Ok p => tag_items (length p) p | _ => [] end else [].

Definition tag_string (v : bytes) : decoded bytes :=
  if tag_is 0x80 v then tag_payload v else Err RlpExpectedToBeData.

#[local] Instance tagged_rlp : Rlp := {|
  rlp_value := tag_value;
  rlp_list_of := tag_list;
  rlp_is_empty v := match tag_payload v with Ok p => bool_decide (p = []) | _ => true end;
  rlp_is_data := tag_is 0x80;
  rlp_is_list := tag_is 0xc0;
  rlp_item_count v := if tag_is 0xc0 v then Ok (length (tag_iter v)) else Err RlpExpectedToBeList;
  rlp_at i v := if tag_is 0xc0 v then ok_or RlpIsTooShort (tag_iter v !! i) else Err RlpExpectedToBeList;
  rlp_iter := tag_iter;
  rlp_data := tag_payload;
  rlp_as_bytes := tag_string;
  rlp_as_uint n v :=
    p ← tag_string v;
    if (n <? length p)%nat then Err RlpIsTooBig
    else match p with 0 :: _ => Err RlpInvalidIndirection | _ => Ok (from_be_bytes p) end;
  rlp_as_hash n v :=
    p ← tag_string v;
    if (length p =? n)%nat then Ok (from_be_bytes p) else Err RlpInvalidLength
|}.

Lemma payload_value b : tag_payload (tag_value b) = Ok b.
Proof. unfold tag_payload, tag_value. by rewrite Nat2Z.id, firstn_all. Qed.

Lemma payload_list l : tag_payload (tag_list l) = Ok (mjoin l).
Proof. unfold tag_payload, tag_list. by rewrite Nat2Z.id, firstn_all. Qed.

Lemma zeroless_head l y r : zeroless_view l = y :: r → y ≠ 0.
Proof. induction l as [|x l IH]; [done|]. cbn [zeroless_view]. destruct (Z.eqb_spec x 0); [done|]. by intros [= -> _]. Qed.

(** An encoding is a tag, a length and as many bytes. *)
Definition tagged (v : bytes) : Prop := ∃ t r, v = t :: Z.of_nat (length r) :: r.

Lemma encoded_tagged v : encoded v → tagged v.
Proof. destruct 1 as [b|l _]; by eexists _, _. Qed.

Lemma items_tagged l : Forall tagged l → ∀ fuel, (length (mjoin l) ≤ fuel)%nat → tag_items fuel (mjoin l) = l.
Proof.
  induction 1 as [|v l (t & r & ->) _ IH]; intros fuel Hf; [by destruct fuel|].
  change (mjoin ((t :: Z.of_nat (length r) :: r) :: l)) with ((t :: Z.of_nat (length r) :: r) ++ mjoin l) in *.
  destruct fuel as [|fuel]; [cbn in Hf; lia|]. cbn [app tag_items].
  rewrite Nat2Z.id, take_app_length, drop_app_length. f_equal. apply IH. cbn [app length] in Hf. rewrite length_app in Hf. lia.
Qed.

Lemma iter_list l : Forall encoded l → tag_iter (tag_list l) = l.
Proof.
  intros Hl. unfold tag_iter. change (tag_is 0xc0 (tag_list l)) with true. cbv iota. rewrite payload_list.
  apply items_tagged; [|done]. eapply Forall_impl; [exact Hl|apply encoded_tagged].
Qed.

#[local] Instance tagged_laws : RlpLaws.
Proof.
  split.
  - done.
  - intros b. cbn [rlp_is_empty rlp_value tagged_rlp]. by rewrite payload_value.
  - apply payload_value.
  - intros b. apply payload_value.
  - intros n x Hx. unfold rlp_uint. cbn [rlp_as_uint rlp_value tagged_rlp]. change (tag_string (tag_value ?b)) with (tag_payload (tag_value b)).
    rewrite payload_value, ok_bind. pose proof (zeroless_length (to_be_bytes n x)) as Hl. rewrite length_to_be_bytes in Hl.
    rewrite (proj2 (Nat.ltb_ge _ _)) by done.
    assert (from_be_bytes (zeroless_view (to_be_bytes n x)) = x) as Hfrom by (rewrite from_be_zeroless; by apply from_to_be, is_word_bytes).
    destruct (zeroless_view (to_be_bytes n x)) as [|y r] eqn:E; [by rewrite Hfrom|].
    assert (y ≠ 0) as Hy by by eapply zeroless_head. destruct y; [done|by rewrite Hfrom..].
  - intros n b Hb. cbn [rlp_as_uint rlp_value tagged_rlp]. change (tag_string (tag_value b)) with (tag_payload (tag_value b)).
    rewrite payload_value, ok_bind. by rewrite (proj2 (Nat.ltb_lt _ _)).
  - intros n x Hx. unfold rlp_hash. cbn [rlp_as_hash rlp_value tagged_rlp]. change (tag_string (tag_value ?b)) with (tag_payload (tag_value b)).
    rewrite payload_value, ok_bind, length_to_be_bytes, Nat.eqb_refl. by rewrite from_to_be by by apply is_word_bytes.
  - done.
  - intros l Hl. cbn [rlp_item_count rlp_list_of tagged_rlp]. change (tag_is 0xc0 (tag_list l)) with true. cbv iota. by rewrite iter_list.
  - intros l i v Hl Hi. cbn [rlp_at rlp_list_of tagged_rlp]. change (tag_is 0xc0 (tag_list l)) with true. cbv iota.
    rewrite iter_list by done. by rewrite Hi.
  - apply iter_list.
  - intros l _. apply payload_list.
  - intros l _. by eexists _, _.
  - by intros v (t & r & ->)%encoded_tagged.
Qed.
End tagged.
