(* ===== verification/TransactionRlp.v ===== *)
(** * TransactionRlp

    [src/src/models/transaction.rs]: the RLP codecs of transactions. Typed
    transactions are their type and a list; on the network that is a
    string, in the trie of a block it is taken as it is. *)

From S2P Require Import Prelude Words Errors Transaction Block Rlp.

Section codec.
Context {R : Rlp}.

Definition action_rlp (a : TransactionAction) : bytes :=
  match a with
  | Call address => rlp_hash 20 address
  | Create => rlp_value []
  end.

Definition action_decode (rlp : bytes) : decoded TransactionAction :=
  if rlp_is_empty rlp
  then if rlp_is_data rlp then Ok Create else Err RlpExpectedToBeData
  else address ← rlp_as_hash 20 rlp; Ok (Call address).

Definition access_list_item_rlp (i : AccessListItem) : bytes :=
  rlp_list_of [rlp_hash 20 (item_address i); rlp_list_of (rlp_hash 32 <$> slots i)].

Definition access_list_item_decode (rlp : bytes) : decoded AccessListItem :=
  address ← rlp_val_at (rlp_as_hash 20) 0 rlp;
  slots ← rlp_list_at (rlp_as_hash 32) 1 rlp;
  Ok (mkAccessListItem address slots).

(** ** The hash that is signed *)

Definition message_rlp (m : Message) : bytes :=
  match m with
  | LegacyMsg chain_id nonce gas_price gas_limit action value input =>
      match chain_id with
      | Some chain_id =>
          rlp_list_of [rlp_uint 8 nonce; rlp_uint 32 gas_price; rlp_uint 8 gas_limit; action_rlp action;
            rlp_uint 32 value; rlp_value input; rlp_uint 8 chain_id; rlp_uint 1 0; rlp_uint 1 0]
      | None =>
          rlp_list_of [rlp_uint 8 nonce; rlp_uint 32 gas_price; rlp_uint 8 gas_limit; action_rlp action;
            rlp_uint 32 value; rlp_value input]
      end
  | EIP2930Msg chain_id nonce gas_price gas_limit action value input access_list =>
      1 :: rlp_list_of [rlp_uint 8 chain_id; rlp_uint 8 nonce; rlp_uint 32 gas_price; rlp_uint 8 gas_limit;
        action_rlp action; rlp_uint 32 value; rlp_value input; rlp_list_of (access_list_item_rlp <$> access_list)]
  | EIP1559Msg chain_id nonce max_priority_fee_per_gas max_fee_per_gas gas_limit action value input access_list =>
      2 :: rlp_list_of [rlp_uint 8 chain_id; rlp_uint 8 nonce; rlp_uint 32 max_priority_fee_per_gas;
        rlp_uint 32 max_fee_per_gas; rlp_uint 8 gas_limit; action_rlp action; rlp_uint 32 value; rlp_value input;
        rlp_list_of (access_list_item_rlp <$> access_list)]
  end.

Definition message_hash `{Hashing} (m : Message) : Z := keccak256 (message_rlp m).

(** ** Transactions with their signature *)

Definition signed_items (t : MessageWithSignature) : list bytes :=
  let odd := sig_odd_y_parity (signature t) in
  let r := rlp_uint 32 (sig_r (signature t)) in
  let s := rlp_uint 32 (sig_s (signature t)) in
  match message t with
  | LegacyMsg chain_id nonce gas_price gas_limit action value input =>
      [rlp_uint 8 nonce; rlp_uint 32 gas_price; rlp_uint 8 gas_limit; action_rlp action; rlp_uint 32 value;
       rlp_value input; rlp_uint 8 (to_v (mkYParity odd chain_id)); r; s]
  | EIP2930Msg chain_id nonce gas_price gas_limit action value input access_list =>
      [rlp_uint 8 chain_id; rlp_uint 8 nonce; rlp_uint 32 gas_price; rlp_uint 8 gas_limit; action_rlp action;
       rlp_uint 32 value; rlp_value input; rlp_list_of (access_list_item_rlp <$> access_list); rlp_bool odd; r; s]
  | EIP1559Msg chain_id nonce max_priority_fee_per_gas max_fee_per_gas gas_limit action value input access_list =>
      [rlp_uint 8 chain_id; rlp_uint 8 nonce; rlp_uint 32 max_priority_fee_per_gas; rlp_uint 32 max_fee_per_gas;
       rlp_uint 8 gas_limit; action_rlp action; rlp_uint 32 value; rlp_value input;
       rlp_list_of (access_list_item_rlp <$> access_list); rlp_bool odd; r; s]
  end.

Definition encode_inner (standalone : bool) (t : MessageWithSignature) : bytes :=
  match message t with
  | LegacyMsg _ _ _ _ _ _ _ => rlp_list_of (signed_items t)
  | EIP2930Msg _ _ _ _ _ _ _ _ =>
      let s1 := 1 :: rlp_list_of (signed_items t) in
      if standalone then s1 else rlp_value s1
  | EIP1559Msg _ _ _ _ _ _ _ _ _ =>
      let s1 := 2 :: rlp_list_of (signed_items t) in
      if standalone then s1 else rlp_value s1
  end.

Definition tx_trie_encode (t : MessageWithSignature) : bytes := encode_inner true t.

Definition tx_rlp (t : MessageWithSignature) : bytes := encode_inner false t.

Definition fail_unless_count (n : nat) (rlp : bytes) : decoded unit :=
  count ← rlp_item_count rlp;
  fail_if (negb (count =? n)%nat) RlpIncorrectListLen.

Definition signature_decode (odd : bool) (r s : Z) : decoded MessageSignature :=
  ok_or (Custom "Invalid transaction signature format") (new_signature odd r s).

Definition eip2930_decode (rlp : bytes) : decoded MessageWithSignature :=
  fail_unless_count 11 rlp;;
  chain_id ← rlp_val_at (rlp_as_uint 8) 0 rlp;
  nonce ← rlp_val_at (rlp_as_uint 8) 1 rlp;
  gas_price ← rlp_val_at (rlp_as_uint 32) 2 rlp;
  gas_limit ← rlp_val_at (rlp_as_uint 8) 3 rlp;
  action ← rlp_val_at action_decode 4 rlp;
  value ← rlp_val_at (rlp_as_uint 32) 5 rlp;
  input ← rlp_val_at rlp_as_bytes 6 rlp;
  access_list ← rlp_list_at access_list_item_decode 7 rlp;
  odd ← rlp_val_at rlp_as_bool 8 rlp;
  r ← rlp_val_at (rlp_as_uint 32) 9 rlp;
  s ← rlp_val_at (rlp_as_uint 32) 10 rlp;
  signature ← signature_decode odd r s;
  Ok (mkMessageWithSignature (EIP2930Msg chain_id nonce gas_price gas_limit action value input access_list) signature).

Definition eip1559_decode (rlp : bytes) : decoded MessageWithSignature :=
  fail_unless_count 12 rlp;;
  chain_id ← rlp_val_at (rlp_as_uint 8) 0 rlp;
  nonce ← rlp_val_at (rlp_as_uint 8) 1 rlp;
  max_priority_fee_per_gas ← rlp_val_at (rlp_as_uint 32) 2 rlp;
  max_fee_per_gas ← rlp_val_at (rlp_as_uint 32) 3 rlp;
  gas_limit ← rlp_val_at (rlp_as_uint 8) 4 rlp;
  action ← rlp_val_at action_decode 5 rlp;
  value ← rlp_val_at (rlp_as_uint 32) 6 rlp;
  input ← rlp_val_at rlp_as_bytes 7 rlp;
  access_list ← rlp_list_at access_list_item_decode 8 rlp;
  odd ← rlp_val_at rlp_as_bool 9 rlp;
  r ← rlp_val_at (rlp_as_uint 32) 10 rlp;
  s ← rlp_val_at (rlp_as_uint 32) 11 rlp;
  signature ← signature_decode odd r s;
  Ok (mkMessageWithSignature
        (EIP1559Msg chain_id nonce max_priority_fee_per_gas max_fee_per_gas gas_limit action value input access_list)
        signature).

Definition legacy_decode (rlp : bytes) : decoded MessageWithSignature :=
  fail_unless_count 9 rlp;;
  v ← rlp_val_at (rlp_as_uint 8) 6 rlp;
  y ← ok_or (Custom "Invalid recovery ID") (from_v v);
  r ← rlp_val_at (rlp_as_uint 32) 7 rlp;
  s ← rlp_val_at (rlp_as_uint 32) 8 rlp;
  signature ← signature_decode (odd_y_parity y) r s;
  nonce ← rlp_val_at (rlp_as_uint 8) 0 rlp;
  gas_price ← rlp_val_at (rlp_as_uint 32) 1 rlp;
  gas_limit ← rlp_val_at (rlp_as_uint 8) 2 rlp;
  action ← rlp_val_at action_decode 3 rlp;
  value ← rlp_val_at (rlp_as_uint 32) 4 rlp;
  input ← rlp_val_at rlp_as_bytes 5 rlp;
  Ok (mkMessageWithSignature (LegacyMsg (y_chain_id y) nonce gas_price gas_limit action value input) signature).

Definition tx_trie_decode (slice : bytes) : decoded MessageWithSignature :=
  first ← ok_or (Custom "empty slice") (slice !! 0%nat);
  if first =? 0x01 then eip2930_decode (drop 1 slice)
  else if first =? 0x02 then eip1559_decode (drop 1 slice)
  else if rlp_is_list slice then legacy_decode slice
  else Err (Custom "invalid tx type").

Definition tx_decode (rlp : bytes) : decoded MessageWithSignature :=
  slice ← rlp_data rlp;
  first ← ok_or (Custom "empty slice") (slice !! 0%nat);
  if rlp_is_list rlp then legacy_decode rlp
  else
    let s := drop 1 slice in
    if first =? 0x01 then eip2930_decode s
    else if first =? 0x02 then eip1559_decode s
    else Err (Custom "invalid tx type").

(** ** Round trips *)

Definition action_wf (a : TransactionAction) : Prop :=
  match a with Call address => is_word 160 address | Create => True end.

Definition access_list_wf (l : list AccessListItem) : Prop :=
  Forall (fun i => is_word 160 (item_address i) ∧ Forall is_u256 (slots i)) l.

(** The values are in the range of their types, the chain id of a legacy
    transaction fits into its recovery id, and the signature is one that
    [MessageSignature::new] makes. *)
Definition transaction_wf (t : MessageWithSignature) : Prop :=
  message_wf (message t)
  ∧ match message t with
    | LegacyMsg chain_id _ _ _ action _ _ =>
        action_wf action ∧ match chain_id with Some c => 0 ≤ c ∧ c * 2 + 36 < 2 ^ 64 | None => True end
    | EIP2930Msg chain_id _ _ _ action _ _ access_list => is_u64 chain_id ∧ action_wf action ∧ access_list_wf access_list
    | EIP1559Msg chain_id _ _ _ _ action _ _ access_list => is_u64 chain_id ∧ action_wf action ∧ access_list_wf access_list
    end
  ∧ is_u256 (sig_r (signature t)) ∧ is_u256 (sig_s (signature t))
  ∧ is_valid_signature (sig_r (signature t)) (sig_s (signature t)) = true.

Context {RL : RlpLaws}.

Lemma action_encoded a : encoded (action_rlp a).
Proof. destruct a; apply encoded_value. Qed.

Lemma access_item_encoded i : encoded (access_list_item_rlp i).
Proof. apply encoded_list. encoded_items. Qed.

Lemma access_list_encoded l : encoded (rlp_list_of (access_list_item_rlp <$> l)).
Proof. apply encoded_list, forall_encoded, access_item_encoded. Qed.

#[local] Hint Resolve action_encoded access_item_encoded access_list_encoded : rlp.

Lemma signed_encoded t : Forall encoded (signed_items t).
Proof. unfold signed_items. destruct (message t); encoded_items. Qed.

Lemma val_at_item {A} (as_val : bytes → decoded A) l i v x :
  Forall encoded l → l !! i = Some v → as_val v = Ok x → rlp_val_at as_val i (rlp_list_of l) = Ok x.
Proof. intros Hl Hi Hx. unfold rlp_val_at. by rewrite (list_item l i v Hl Hi), ok_bind. Qed.

Lemma list_at_item {A} (as_val : bytes → decoded A) l i v x :
  Forall encoded l → l !! i = Some v → rlp_as_list as_val v = Ok x → rlp_list_at as_val i (rlp_list_of l) = Ok x.
Proof. intros Hl Hi Hx. unfold rlp_list_at. by rewrite (list_item l i v Hl Hi), ok_bind. Qed.

Lemma as_u64 x : is_u64 x → rlp_as_uint 8 (rlp_uint 8 x) = Ok x.
Proof. apply (value_uint 8). Qed.

Lemma as_u256 x : is_u256 x → rlp_as_uint 32 (rlp_uint 32 x) = Ok x.
Proof. apply (value_uint 32). Qed.

Lemma as_address x : is_word 160 x → rlp_as_hash 20 (rlp_hash 20 x) = Ok x.
Proof. apply (value_hash 20). Qed.

Lemma as_h256 x : is_u256 x → rlp_as_hash 32 (rlp_hash 32 x) = Ok x.
Proof. apply (value_hash 32). Qed.

Lemma action_roundtrip a : action_wf a → action_decode (action_rlp a) = Ok a.
Proof.
  unfold action_decode. destruct a as [address|]; cbn [action_rlp]; intros Ha.
  - unfold rlp_hash at 1. rewrite value_empty, bool_decide_eq_false_2 by (intros E; apply (f_equal length) in E; by rewrite length_to_be_bytes in E).
    by rewrite as_address, ok_bind.
  - rewrite value_empty, bool_decide_eq_true_2 by done. by rewrite (proj1 (value_kind [])).
Qed.

Lemma access_item_roundtrip i : is_word 160 (item_address i) → Forall is_u256 (slots i) →
  access_list_item_decode (access_list_item_rlp i) = Ok i.
Proof.
  intros Ha Hs. unfold access_list_item_decode, access_list_item_rlp.
  assert (Forall encoded [rlp_hash 20 (item_address i); rlp_list_of (rlp_hash 32 <$> slots i)]) as Henc.
  { encoded_items. }
  rewrite (val_at_item _ _ 0%nat _ (item_address i) Henc eq_refl) by by apply as_address. rewrite ok_bind.
  rewrite (list_at_item _ _ 1%nat _ (slots i) Henc eq_refl); [by destruct i|].
  apply as_list_encoded; [intros x; apply encoded_value|]. eapply Forall_impl; [exact Hs|]. intros x. apply as_h256.
Qed.

Lemma access_list_roundtrip l : access_list_wf l →
  rlp_as_list access_list_item_decode (rlp_list_of (access_list_item_rlp <$> l)) = Ok l.
Proof.
  intros Hl. apply as_list_encoded; [apply access_item_encoded|]. eapply Forall_impl; [exact Hl|].
  intros i [Ha Hs]. by apply access_item_roundtrip.
Qed.

Lemma count_ok n l : Forall encoded l → length l = n → fail_unless_count n (rlp_list_of l) = Ok tt.
Proof. intros Hl <-. unfold fail_unless_count. by rewrite list_count, ok_bind, Nat.eqb_refl. Qed.

Lemma signature_roundtrip (s : MessageSignature) : is_valid_signature (sig_r s) (sig_s s) = true →
  signature_decode (sig_odd_y_parity s) (sig_r s) (sig_s s) = Ok s.
Proof. intros H. unfold signature_decode, new_signature. rewrite H. by destruct s. Qed.

(** Read the next field of a list whose items are known. *)
Ltac field Henc :=
  match goal with
  | |- context [rlp_val_at ?f ?i (rlp_list_of ?l)] =>
      erewrite (val_at_item f l i _ _ Henc eq_refl)
        by (first [ apply value_bytes | apply as_bool_encoded | apply as_u64; eassumption | apply as_u256; eassumption
                  | apply action_roundtrip; eassumption ]); rewrite ok_bind
  | |- context [rlp_list_at ?f ?i (rlp_list_of ?l)] =>
      erewrite (list_at_item f l i _ _ Henc eq_refl) by (apply access_list_roundtrip; eassumption); rewrite ok_bind
  end.

Lemma legacy_roundtrip t chain_id nonce gas_price gas_limit action value input :
  message t = LegacyMsg chain_id nonce gas_price gas_limit action value input → transaction_wf t →
  legacy_decode (rlp_list_of (signed_items t)) = Ok t.
Proof.
  intros Hm ((Hn & Hg & Hp & _ & Hv) & Hr & Hsr & Hss & Hsig). rewrite Hm in *. cbn in Hn, Hg, Hp, Hv. destruct Hr as [Ha Hc].
  pose proof (signed_encoded t) as Henc. unfold signed_items in Henc |- *. rewrite Hm in *. cbv zeta in *.
  set (y := mkYParity (sig_odd_y_parity (signature t)) chain_id) in *.
  assert (from_v (to_v y) = Some y) as Hy by (apply v_roundtrip; by destruct chain_id).
  assert (is_u64 (to_v y)) as Hyv by (unfold to_v; destruct chain_id; apply u64_add_word).
  unfold legacy_decode. rewrite (count_ok 9 _ Henc eq_refl), ok_bind. field Henc. rewrite Hy. cbn [ok_or]. rewrite ok_bind.
  do 2 field Henc. cbn [odd_y_parity y]. rewrite signature_roundtrip, ok_bind by done. do 6 field Henc. destruct t; cbn in Hm |- *; by rewrite Hm.
Qed.

Lemma eip2930_roundtrip t chain_id nonce gas_price gas_limit action value input access_list :
  message t = EIP2930Msg chain_id nonce gas_price gas_limit action value input access_list → transaction_wf t →
  eip2930_decode (rlp_list_of (signed_items t)) = Ok t.
Proof.
  intros Hm ((Hn & Hg & Hp & _ & Hv) & Hr & Hsr & Hss & Hsig). rewrite Hm in *. cbn in Hn, Hg, Hp, Hv. destruct Hr as (Hc & Ha & Hl).
  pose proof (signed_encoded t) as Henc. unfold signed_items in Henc |- *. rewrite Hm in *. cbv zeta in *.
  unfold eip2930_decode. rewrite (count_ok 11 _ Henc eq_refl), ok_bind. do 11 field Henc.
  rewrite signature_roundtrip, ok_bind by done. destruct t; cbn in Hm |- *; by rewrite Hm.
Qed.

Lemma eip1559_roundtrip t chain_id nonce tip cap gas_limit action value input access_list :
  message t = EIP1559Msg chain_id nonce tip cap gas_limit action value input access_list → transaction_wf t →
  eip1559_decode (rlp_list_of (signed_items t)) = Ok t.
Proof.
  intros Hm ((Hn & Hg & Hp & Hf & Hv) & Hr & Hsr & Hss & Hsig). rewrite Hm in *. cbn in Hn, Hg, Hp, Hf, Hv. destruct Hr as (Hc & Ha & Hl).
  pose proof (signed_encoded t) as Henc. unfold signed_items in Henc |- *. rewrite Hm in *. cbv zeta in *.
  unfold eip1559_decode. rewrite (count_ok 12 _ Henc eq_refl), ok_bind. do 12 field Henc.
  rewrite signature_roundtrip, ok_bind by done. destruct t; cbn in Hm |- *; by rewrite Hm.
Qed.

Lemma tx_roundtrips t : transaction_wf t →
  tx_trie_decode (tx_trie_encode t) = Ok t ∧ tx_decode (tx_rlp t) = Ok t.
Proof.
  intros Hwf.
  pose proof (signed_encoded t) as Henc. destruct (list_head _ Henc) as (x & r & Hx & Hlt).
  destruct (list_kind _ Henc) as [_ Hlist]. unfold tx_trie_encode, tx_rlp, encode_inner, tx_trie_decode, tx_decode.
  destruct (message t) as [chain_id nonce gas_price gas_limit action value input|
    chain_id nonce gas_price gas_limit action value input access_list|
    chain_id nonce tip cap gas_limit action value input access_list] eqn:Hm; cbv zeta.
  - rewrite Hlist, (list_data _ Henc), ok_bind. rewrite (legacy_roundtrip t _ _ _ _ _ _ _ Hm Hwf). split.
    + rewrite Hx. cbn [lookup list_lookup ok_or]. rewrite ok_bind.
      by rewrite (proj2 (Z.eqb_neq _ _)), (proj2 (Z.eqb_neq _ _)) by lia.
    + destruct (mjoin (signed_items t)) as [|z m] eqn:E; [|done]. exfalso. unfold signed_items in E, Henc. rewrite Hm in E, Henc. cbv zeta in *.
      apply Forall_cons_1 in Henc as [Henc _]. apply encoded_nonempty in Henc. apply app_nil in E as [E _]. done.
  - rewrite value_data, ok_bind. rewrite (proj2 (value_kind _)).
    cbn [lookup list_lookup ok_or skipn]. rewrite !ok_bind. cbn [Z.eqb Pos.eqb]. rewrite drop_0. by rewrite (eip2930_roundtrip t _ _ _ _ _ _ _ _ Hm Hwf).
  - rewrite value_data, ok_bind. rewrite (proj2 (value_kind _)).
    cbn [lookup list_lookup ok_or skipn]. rewrite !ok_bind. cbn [Z.eqb Pos.eqb]. rewrite drop_0. by rewrite (eip1559_roundtrip t _ _ _ _ _ _ _ _ _ Hm Hwf).
Qed.
Lemma tx_roundtrip t : transaction_wf t → tx_decode (tx_rlp t) = Ok t.
Proof. apply tx_roundtrips. Qed.

(** C35. Transactions of every type are read back as they were, both from what
    is hashed into the transactions root of a block and from what is sent
    over the network: no field is lost, the two formats and the three types
    are told apart, and a legacy transaction keeps its chain id in its
    recovery id, as long as that fits. *)
Theorem transaction_rlp_roundtrip (t : MessageWithSignature) (Hwf : transaction_wf t) :
  tx_trie_decode (tx_trie_encode t) = Ok t ∧ tx_decode (tx_rlp t) = Ok t.
Proof. by apply tx_roundtrips. Qed.
End codec.

Definition demo_transaction : MessageWithSignature :=
  mkMessageWithSignature (EIP2930Msg 1 7 1000 21000 (Call 5) 0 [1; 2] [mkAccessListItem 6 [8; 9]]) (mkSignature true 10 11).

Lemma demo_transaction_wf : transaction_wf demo_transaction.
Proof.
  assert (∀ w x, (0 <=? x) && (x <? 2 ^ w) = true → is_word w x) as Hw by (intros; zbool; by split).
  split; [|split; [|split; [|split]]].
  - unfold message_wf. split_and!; (apply Hw; vm_compute; reflexivity).
  - cbn [message demo_transaction]. split; [apply Hw; vm_compute; reflexivity|]. split; [apply Hw; vm_compute; reflexivity|].
    constructor; [|constructor]. split; [apply Hw; vm_compute; reflexivity|].
    constructor; [apply Hw; vm_compute; reflexivity|]. constructor; [apply Hw; vm_compute; reflexivity|constructor].
  - apply Hw. vm_compute. reflexivity.
  - apply Hw. vm_compute. reflexivity.
  - vm_compute. reflexivity.
Qed.

Lemma transaction_rlp_roundtrip_witness :
  let R := tagged_rlp in
  tx_trie_decode (tx_trie_encode demo_transaction) = Ok demo_transaction
  ∧ tx_decode (tx_rlp demo_transaction) = Ok demo_transaction.
Proof. apply (transaction_rlp_roundtrip (RL := tagged_laws)), demo_transaction_wf. Defined.
