(* ===== verification/BlockRlp.v ===== *)
(** * BlockRlp

    [src/src/models/header.rs], [block.rs], [receipt.rs], [log.rs]: the RLP
    codecs of headers, bodies, logs and receipts, and the hashes that are
    taken of them; the addresses of created contracts
    ([execution/address.rs]). What [rlp_derive] generates is a list of the
    fields in order. *)

From S2P Require Import Prelude Words Errors Transaction Block Rlp TransactionRlp.

Section codec.
Context {R : Rlp}.

(** ** Headers *)

Definition base_fee_items (base_fee_per_gas : option Z) : list bytes :=
  match base_fee_per_gas with Some fee => [rlp_uint 32 fee] | None => [] end.

Definition truncated_items (h : BlockHeader) : list bytes :=
  [rlp_hash 32 (parent_hash h); rlp_hash 32 (ommers_hash h); rlp_hash 20 (beneficiary h); rlp_hash 32 (state_root h);
   rlp_hash 32 (transactions_root h); rlp_hash 32 (receipts_root h); rlp_hash 256 (logs_bloom h);
   rlp_uint 32 (difficulty h); rlp_uint 8 (number h); rlp_uint 8 (gas_limit h); rlp_uint 8 (gas_used h);
   rlp_uint 8 (timestamp h); rlp_value (extra_data h)].

Definition header_rlp (h : BlockHeader) : bytes :=
  rlp_list_of (truncated_items h ++ [rlp_hash 32 (mix_hash h); rlp_hash 8 (header_nonce h)]
               ++ base_fee_items (base_fee_per_gas h)).

Definition header_hash `{Hashing} (h : BlockHeader) : Z := keccak256 (header_rlp h).

(** [truncated_hash]: without the seal. *)
Definition truncated_hash `{Hashing} (h : BlockHeader) : Z :=
  keccak256 (rlp_list_of (truncated_items h ++ base_fee_items (base_fee_per_gas h))).

(** [rlp.next().ok_or(e)?.as_val()?] on an iterator. *)
Definition next_val {A} (e : DecoderError) (as_val : bytes → decoded A) (iter : list bytes) : decoded (A * list bytes) :=
  match iter with
  | [] => Err e
  | v :: iter => x ← as_val v; Ok (x, iter)
  end.

Definition header_decode (rlp : bytes) : decoded BlockHeader :=
  let next {A} := next_val (A := A) RlpInvalidLength in
  let iter := rlp_iter rlp in
  '(parent_hash, iter) ← next (rlp_as_hash 32) iter;
  '(ommers_hash, iter) ← next (rlp_as_hash 32) iter;
  '(beneficiary, iter) ← next (rlp_as_hash 20) iter;
  '(state_root, iter) ← next (rlp_as_hash 32) iter;
  '(transactions_root, iter) ← next (rlp_as_hash 32) iter;
  '(receipts_root, iter) ← next (rlp_as_hash 32) iter;
  '(logs_bloom, iter) ← next (rlp_as_hash 256) iter;
  '(difficulty, iter) ← next (rlp_as_uint 32) iter;
  '(number, iter) ← next (rlp_as_uint 8) iter;
  '(gas_limit, iter) ← next (rlp_as_uint 8) iter;
  '(gas_used, iter) ← next (rlp_as_uint 8) iter;
  '(timestamp, iter) ← next (rlp_as_uint 8) iter;
  '(extra_data, iter) ← next rlp_as_bytes iter;
  '(mix_hash, iter) ← next (rlp_as_hash 32) iter;
  '(nonce, iter) ← next (rlp_as_hash 8) iter;
  base_fee_per_gas ← (match iter with
                      | [] => Ok None
                      | v :: _ => fee ← rlp_as_uint 32 v; Ok (Some fee)
                      end);
  Ok (mkHeader parent_hash ommers_hash beneficiary state_root transactions_root receipts_root logs_bloom difficulty
        number gas_limit gas_used timestamp extra_data mix_hash nonce base_fee_per_gas).

(** ** Bodies *)

Definition rlp_ommers_hash `{Hashing} (ommers : list BlockHeader) : Z :=
  keccak256 (rlp_list_of (header_rlp <$> ommers)).

Definition body_rlp (b : BlockBody) : bytes :=
  rlp_list_of [rlp_list_of (tx_rlp <$> body_transactions b); rlp_list_of (header_rlp <$> body_ommers b)].

Definition body_decode (rlp : bytes) : decoded BlockBody :=
  transactions ← rlp_list_at tx_decode 0 rlp;
  ommers ← rlp_list_at header_decode 1 rlp;
  Ok {| body_transactions := transactions; body_ommers := ommers |}.

Definition tx_hash `{Hashing} (t : MessageWithSignature) : Z := keccak256 (tx_trie_encode t).

(** ** Logs and receipts *)

Definition log_rlp (l : Log) : bytes :=
  rlp_list_of [rlp_hash 20 (log_address l); rlp_list_of (rlp_hash 32 <$> topics l); rlp_value (log_data l)].

Definition log_decode (rlp : bytes) : decoded Log :=
  let next {A} := next_val (A := A) RlpIncorrectListLen in
  let iter := rlp_iter rlp in
  '(address, iter) ← next (rlp_as_hash 20) iter;
  '(topics, iter) ← next (rlp_as_list (rlp_as_hash 32)) iter;
  '(data, iter) ← next rlp_as_bytes iter;
  Ok (mkLog address topics data).

Definition receipt_items (r : Receipt) : list bytes :=
  [rlp_bool (success r); rlp_uint 8 (cumulative_gas_used r); rlp_hash 256 (bloom r);
   rlp_list_of (log_rlp <$> receipt_logs r)].

Definition receipt_encode_inner (standalone : bool) (r : Receipt) : bytes :=
  match receipt_tx_type r with
  | Legacy => rlp_list_of (receipt_items r)
  | EIP2930 | EIP1559 =>
      let l := tx_type_to_u8 (receipt_tx_type r) :: rlp_list_of (receipt_items r) in
      if standalone then l else rlp_value l
  end.

Definition receipt_trie_encode (r : Receipt) : bytes := receipt_encode_inner true r.

Definition receipt_rlp (r : Receipt) : bytes := receipt_encode_inner false r.

(** [UntypedReceipt], with the type that makes it a receipt. *)
Definition untyped_receipt_decode (rlp : bytes) : decoded (TxType → Receipt) :=
  success ← rlp_val_at rlp_as_bool 0 rlp;
  cumulative_gas_used ← rlp_val_at (rlp_as_uint 8) 1 rlp;
  bloom ← rlp_val_at (rlp_as_hash 256) 2 rlp;
  logs ← rlp_list_at log_decode 3 rlp;
  Ok (fun tx_type => mkReceipt tx_type success cumulative_gas_used bloom logs).

(** [TxType::try_from(u8)] with its error. *)
Definition tx_type_of (orig : Z) : decoded TxType :=
  match tx_type_try_from orig with
  | Ok t => Ok t
  | _ => Err (Custom "Invalid tx type")
  end.

Definition receipt_decode_inner (rlp : bytes) (is_legacy : bool) : decoded Receipt :=
  if is_legacy
  then inner ← untyped_receipt_decode rlp; Ok (inner Legacy)
  else
    tx_type ← rlp_as_uint 1 rlp;
    inner ← untyped_receipt_decode rlp;
    tx_type ← tx_type_of tx_type;
    Ok (inner tx_type).

Definition receipt_decode (rlp : bytes) : decoded Receipt :=
  let is_legacy := negb (rlp_is_data rlp) in
  receipt_decode_inner rlp is_legacy.

(** ** Addresses of created contracts *)

(** [Address::from_slice(&hash.0[12..])]. *)
Definition low_address (hash : Z) : Z := from_be_bytes (drop 12 (to_be_bytes 32 hash)).

Definition create_address `{Hashing} (caller nonce : Z) : Z :=
  low_address (keccak256 (rlp_list_of [rlp_hash 20 caller; rlp_uint 8 nonce])).

Definition create2_address `{Hashing} (caller salt code_hash : Z) : Z :=
  low_address (keccak256 (0xff :: to_be_bytes 20 caller ++ to_be_bytes 32 salt ++ to_be_bytes 32 code_hash)).

(** ** Round trips *)

Definition header_in_range (h : BlockHeader) : Prop :=
  is_u256 (parent_hash h) ∧ is_u256 (ommers_hash h) ∧ is_word 160 (beneficiary h) ∧ is_u256 (state_root h)
  ∧ is_u256 (transactions_root h) ∧ is_u256 (receipts_root h) ∧ is_word 2048 (logs_bloom h) ∧ is_u256 (difficulty h)
  ∧ is_u64 (number h) ∧ is_u64 (gas_limit h) ∧ is_u64 (gas_used h) ∧ is_u64 (timestamp h) ∧ is_u256 (mix_hash h)
  ∧ is_u64 (header_nonce h) ∧ from_option is_u256 True (base_fee_per_gas h).

Definition log_in_range (l : Log) : Prop := is_word 160 (log_address l) ∧ Forall is_u256 (topics l).

Definition receipt_in_range (r : Receipt) : Prop :=
  is_u64 (cumulative_gas_used r) ∧ is_word 2048 (bloom r) ∧ Forall log_in_range (receipt_logs r).

Context {RL : RlpLaws}.

Lemma header_items_encoded h :
  Forall encoded (truncated_items h ++ [rlp_hash 32 (mix_hash h); rlp_hash 8 (header_nonce h)]
                  ++ base_fee_items (base_fee_per_gas h)).
Proof. destruct h as [? ? ? ? ? ? ? ? ? ? ? ? ? ? ? [fee|]]; cbn [truncated_items base_fee_items app base_fee_per_gas]; encoded_items. Qed.

Lemma header_encoded h : encoded (header_rlp h).
Proof. apply encoded_list, header_items_encoded. Qed.

Lemma as_bloom x : is_word 2048 x → rlp_as_hash 256 (rlp_hash 256 x) = Ok x.
Proof. apply (value_hash 256). Qed.

Lemma as_h64 x : is_u64 x → rlp_as_hash 8 (rlp_hash 8 x) = Ok x.
Proof. apply (value_hash 8). Qed.

Lemma header_roundtrip h : header_in_range h → header_decode (header_rlp h) = Ok h.
Proof.
  intros (H1 & H2 & H3 & H4 & H5 & H6 & H7 & H8 & H9 & H10 & H11 & H12 & H13 & H14 & H15).
  unfold header_decode, header_rlp. rewrite (list_items _ (header_items_encoded h)). cbv zeta.
  unfold truncated_items. cbn [app next_val].
  repeat (rewrite ?as_h256, ?as_address, ?as_bloom, ?as_u256, ?as_u64, ?value_bytes, ?as_h64 by done; res_simpl; cbn [next_val]).
  destruct (base_fee_per_gas h) as [fee|] eqn:Hb; cbn [base_fee_items]; cbn in H15.
  - rewrite as_u256, !ok_bind by done. destruct h; cbn in Hb; by subst.
  - rewrite ok_bind. destruct h; cbn in Hb; by subst.
Qed.

Lemma tx_encoded t : encoded (tx_rlp t).
Proof.
  unfold tx_rlp, encode_inner. destruct (message t); [|apply encoded_value..]. apply encoded_list, signed_encoded.
Qed.

Lemma log_encoded l : encoded (log_rlp l).
Proof. apply encoded_list. encoded_items. Qed.

Lemma log_roundtrip l : log_in_range l → log_decode (log_rlp l) = Ok l.
Proof.
  intros [Ha Ht]. unfold log_decode, log_rlp. rewrite list_items by encoded_items. cbv zeta. cbn [next_val].
  rewrite as_address, !ok_bind by done. cbn [next_val].
  rewrite as_list_encoded by (first [intros x; apply encoded_value | eapply Forall_impl; [exact Ht|]; intros x; apply as_h256]).
  res_simpl. cbn [next_val]. rewrite value_bytes. res_simpl. by destruct l.
Qed.

Lemma receipt_items_encoded r : Forall encoded (receipt_items r).
Proof. unfold receipt_items. pose proof log_encoded. encoded_items. Qed.

Lemma untyped_receipt_roundtrip r : receipt_in_range r →
  untyped_receipt_decode (rlp_list_of (receipt_items r)) =
  Ok (fun tx_type => mkReceipt tx_type (success r) (cumulative_gas_used r) (bloom r) (receipt_logs r)).
Proof.
  intros (Hg & Hb & Hl). pose proof (receipt_items_encoded r) as Henc. unfold untyped_receipt_decode.
  rewrite (val_at_item _ _ 0%nat _ _ Henc eq_refl (as_bool_encoded _)), ok_bind.
  rewrite (val_at_item _ _ 1%nat _ _ Henc eq_refl (as_u64 _ Hg)), ok_bind.
  rewrite (val_at_item _ _ 2%nat _ _ Henc eq_refl (as_bloom _ Hb)), ok_bind.
  by rewrite (list_at_item _ _ 3%nat _ (receipt_logs r) Henc eq_refl
    (as_list_encoded _ _ _ log_encoded (Forall_impl _ _ _ Hl log_roundtrip))), ok_bind.
Qed.

(** C36. Headers, with and without a base fee, are read back as they were, bit
    for bit; so are whole bodies, transactions of every type and ommers
    included, and the receipts of legacy transactions with their logs. *)
Theorem block_rlp_roundtrip (h : BlockHeader) (b : BlockBody) (r : Receipt)
    (Hh : header_in_range h)
    (Htxs : Forall transaction_wf (body_transactions b))
    (Hommers : Forall header_in_range (body_ommers b))
    (Hr : receipt_in_range r) (Hlegacy : receipt_tx_type r = Legacy) :
  header_decode (header_rlp h) = Ok h
  ∧ body_decode (body_rlp b) = Ok b
  ∧ receipt_decode (receipt_rlp r) = Ok r.
Proof.
  split; [by apply header_roundtrip|]. split.
  - assert (Forall encoded [rlp_list_of (tx_rlp <$> body_transactions b); rlp_list_of (header_rlp <$> body_ommers b)]) as Henc.
    { pose proof tx_encoded. pose proof header_encoded. encoded_items. }
    unfold body_decode, body_rlp.
    rewrite (list_at_item _ _ 0%nat _ (body_transactions b) Henc eq_refl
      (as_list_encoded _ _ _ tx_encoded (Forall_impl _ _ _ Htxs tx_roundtrip))), ok_bind.
    rewrite (list_at_item _ _ 1%nat _ (body_ommers b) Henc eq_refl
      (as_list_encoded _ _ _ header_encoded (Forall_impl _ _ _ Hommers header_roundtrip))), ok_bind.
    by destruct b.
  - unfold receipt_decode, receipt_rlp, receipt_encode_inner. rewrite Hlegacy.
    rewrite (proj1 (list_kind _ (receipt_items_encoded r))). cbn [negb receipt_decode_inner].
    rewrite untyped_receipt_roundtrip, ok_bind by done. destruct r. cbn in *. by subst.
Qed.

(** C37. A receipt of a typed transaction, as it is sent over the network, is
    never read back: the decoder asks for one byte where the whole receipt
    stands as a string, and answers that the value is too big. *)
Theorem typed_receipt_not_decoded (r : Receipt) (Htyped : receipt_tx_type r ≠ Legacy) :
  receipt_decode (receipt_rlp r) = Err RlpIsTooBig.
Proof.
  assert (rlp_list_of (receipt_items r) ≠ []) as Hne by apply encoded_nonempty, encoded_list, receipt_items_encoded.
  set (l := tx_type_to_u8 (receipt_tx_type r) :: rlp_list_of (receipt_items r)).
  assert (receipt_rlp r = rlp_value l) as -> by (unfold receipt_rlp, receipt_encode_inner; by destruct (receipt_tx_type r)).
  unfold receipt_decode. rewrite (proj1 (value_kind l)). cbn [negb receipt_decode_inner].
  rewrite value_long; [done|]. cbn. destruct (rlp_list_of (receipt_items r)); [done|]. cbn. lia.
Qed.
End codec.

Definition demo_header : BlockHeader :=
  mkHeader 1 2 3 4 5 6 7 8 9 10 11 12 [13; 14] 15 16 (Some 17).

Definition demo_receipt (tx_type : TxType) : Receipt :=
  mkReceipt tx_type true 21000 5 [mkLog 3 [4; 5] [6; 7; 8]].

Lemma demo_header_in_range : header_in_range demo_header.
Proof.
  assert (∀ w x, (0 <=? x) && (x <? 2 ^ w) = true → is_word w x) as Hw by (intros; zbool; by split).
  unfold header_in_range. split_and!; (apply Hw; vm_compute; reflexivity).
Qed.

Lemma demo_receipt_in_range tx_type : receipt_in_range (demo_receipt tx_type).
Proof.
  assert (∀ w x, (0 <=? x) && (x <? 2 ^ w) = true → is_word w x) as Hw by (intros; zbool; by split).
  split; [apply Hw; vm_compute; reflexivity|]. split; [apply Hw; vm_compute; reflexivity|].
  constructor; [|constructor]. split; [apply Hw; vm_compute; reflexivity|].
  constructor; [apply Hw; vm_compute; reflexivity|]. constructor; [apply Hw; vm_compute; reflexivity|constructor].
Qed.

Lemma block_rlp_roundtrip_witness :
  let R := tagged_rlp in
  let b := {| body_transactions := [demo_transaction]; body_ommers := [demo_header] |} in
  header_decode (header_rlp demo_header) = Ok demo_header
  ∧ body_decode (body_rlp b) = Ok b
  ∧ receipt_decode (receipt_rlp (demo_receipt Legacy)) = Ok (demo_receipt Legacy).
Proof.
  apply (block_rlp_roundtrip (RL := tagged_laws)).
  - apply demo_header_in_range.
  - apply List.Forall_cons; [apply demo_transaction_wf|apply List.Forall_nil].
  - apply List.Forall_cons; [apply demo_header_in_range|apply List.Forall_nil].
  - apply demo_receipt_in_range.
  - reflexivity.
Defined.

Lemma typed_receipt_not_decoded_witness :
  let R := tagged_rlp in
  receipt_decode (receipt_rlp (demo_receipt EIP1559)) = Err RlpIsTooBig.
Proof. apply (typed_receipt_not_decoded (RL := tagged_laws)). discriminate. Defined.
