(* ===== verification/StateTrait.v ===== *)
(** * StateTrait

    [src/src/state/interface.rs]: the [State] trait, the interface between
    block execution and the store it reads and writes, as a type class. The
    readers may fail with a database error. *)

From S2P Require Import Prelude Words Errors Account Transaction Block.

Class State (S : Type) : Type := {
  read_account : S → Z → result (option Account);
  read_code : S → Z → result bytes;
  read_storage : S → Z → Z → result Z;
  erase_storage : Z → S → result S;
  read_header : S → Z → Z → result (option BlockHeader);
  read_body : S → Z → Z → result (option BlockBody);
  total_difficulty : S → Z → Z → result (option Z);
  begin_block : Z → S → S;
  update_account : Z → option Account → option Account → S → S;
  update_code : Z → bytes → S → result S;
  update_storage : Z → Z → Z → Z → S → result S
}.
