(* ===== verification/InMemoryState.v ===== *)
(** * InMemoryState

    [src/src/state/in_memory_state.rs]: the store that keeps all state in
    memory, with the changes of each block for unwinding, as an instance of
    the [State] interface. Hash maps are finite maps; loops over one are
    folds whose result does not depend on the order. *)

From S2P Require Import Prelude Words Errors Account Transaction Block StateTrait.

Abbreviation AccountChanges := (gmap Z (option Account)).
Abbreviation StorageChanges := (gmap Z (gmap Z Z)).

Record InMemoryState : Type := mkIMS {
  accounts : gmap Z Account;
  code : gmap Z bytes;
  slots_of : gmap Z (gmap Z Z);
  headers : list (gmap Z BlockHeader);
  bodies : list (gmap Z BlockBody);
  difficulties : list (gmap Z Z);
  canonical_hashes : list Z;
  account_changes : gmap Z AccountChanges;
  storage_changes : gmap Z StorageChanges;
  block_number : Z
}.

Definition empty_ims : InMemoryState := mkIMS ∅ ∅ ∅ [] [] [] [] ∅ ∅ 0.

(** ** Field updates *)

Definition ims_accounts f s := mkIMS (f (accounts s)) (code s) (slots_of s) (headers s) (bodies s)
  (difficulties s) (canonical_hashes s) (account_changes s) (storage_changes s) (block_number s).
Definition ims_code f s := mkIMS (accounts s) (f (code s)) (slots_of s) (headers s) (bodies s)
  (difficulties s) (canonical_hashes s) (account_changes s) (storage_changes s) (block_number s).
Definition ims_slots f s := mkIMS (accounts s) (code s) (f (slots_of s)) (headers s) (bodies s)
  (difficulties s) (canonical_hashes s) (account_changes s) (storage_changes s) (block_number s).
Definition ims_chain h b d s := mkIMS (accounts s) (code s) (slots_of s) h b d
  (canonical_hashes s) (account_changes s) (storage_changes s) (block_number s).
Definition ims_canonical f s := mkIMS (accounts s) (code s) (slots_of s) (headers s) (bodies s)
  (difficulties s) (f (canonical_hashes s)) (account_changes s) (storage_changes s) (block_number s).
Definition ims_account_changes f s := mkIMS (accounts s) (code s) (slots_of s) (headers s)
  (bodies s) (difficulties s) (canonical_hashes s) (f (account_changes s)) (storage_changes s)
  (block_number s).
Definition ims_storage_changes f s := mkIMS (accounts s) (code s) (slots_of s) (headers s)
  (bodies s) (difficulties s) (canonical_hashes s) (account_changes s) (f (storage_changes s))
  (block_number s).
Definition ims_block_number n s := mkIMS (accounts s) (code s) (slots_of s) (headers s) (bodies s)
  (difficulties s) (canonical_hashes s) (account_changes s) (storage_changes s) n.

(** ** Chain data *)

(** [if v.len() <= n { v.resize_with(n + 1, Default::default) }]. *)
Definition grow {A} (d : A) (n : nat) (v : list A) : list A :=
  if (length v <=? n)%nat then v ++ replicate (n + 1 - length v) d else v.

Definition number_of_accounts (s : InMemoryState) : Z := Z.of_nat (size (accounts s)).
Definition storage_size (s : InMemoryState) (address : Z) : Z :=
  match slots_of s !! address with Some m => Z.of_nat (size m) | None => 0 end.

Definition current_canonical_block (s : InMemoryState) : Z :=
  u64_sub (Z.of_nat (length (canonical_hashes s))) 1.
Definition canonical_hash (s : InMemoryState) (n : Z) : option Z :=
  canonical_hashes s !! Z.to_nat n.

Definition insert_block (block : Block) (hash : Z) (s : InMemoryState) : InMemoryState :=
  let hdr := header block in
  let bn := Z.to_nat (number hdr) in
  let headers := grow ∅ bn (headers s) in
  let headers := alter (insert hash hdr) bn headers in
  let bodies := grow ∅ bn (bodies s) in
  let bodies := alter (insert hash (body_of_block block)) bn bodies in
  let diffs := grow ∅ bn (difficulties s) in
  (* the lookup in the parent's map leaves an entry there *)
  let '(parent_td, diffs) :=
    match bn with
    | O => (0, diffs)
    | S p =>
        let m := default ∅ (diffs !! p) in
        let td := default 0 (m !! parent_hash hdr) in
        (td, <[p := <[parent_hash hdr := td]> m]> diffs)
    end in
  let d := u256_add parent_td (difficulty hdr) in
  let diffs := alter (insert hash d) bn diffs in
  ims_chain headers bodies diffs s.

Definition canonize_block (n block_hash : Z) (s : InMemoryState) : InMemoryState :=
  ims_canonical (fun c => <[Z.to_nat n := block_hash]> (grow 0 (Z.to_nat n) c)) s.

Definition decanonize_block (n : Z) (s : InMemoryState) : InMemoryState :=
  ims_canonical (take (Z.to_nat n)) s.

Section hashing.
Context `{Hashing}.

(** [read_body_with_senders], with [recover_sender()?]. *)
Definition read_body_with_senders (s : InMemoryState) (n block_hash : Z)
    : result (option BlockBodyWithSenders) :=
  match bodies s !! Z.to_nat n with
  | Some body_map =>
      match body_map !! block_hash with
      | Some body =>
          txs ← res_foldl (fun acc tx =>
                   sender ← ecdsa_recover tx;
                   Ok (acc ++ [{| message_of := message tx; sender := sender |}]))
                 [] (body_transactions body);
          Ok (Some {| bws_transactions := txs; bws_ommers := body_ommers body |})
      | None => Ok None
      end
  | None => Ok None
  end.

Definition account_storage_root (s : InMemoryState) (address : Z) : Z :=
  match slots_of s !! address with
  | Some m =>
      if decide (m = ∅) then EMPTY_ROOT
      else trie_root ((fun '(location, value) =>
             (to_be_bytes 32 (keccak256 (to_be_bytes 32 location)),
              rlp_bytes (zeroless_view (to_be_bytes 32 value)))) <$> map_to_list m)
  | None => EMPTY_ROOT
  end.

Definition state_root_hash (s : InMemoryState) : Z :=
  if decide (accounts s = ∅) then EMPTY_ROOT
  else trie_root ((fun '(address, a) =>
         (to_be_bytes 32 (keccak256 (to_be_bytes 20 address)),
          rlp_account (nonce a) (balance a) (account_storage_root s address) (code_hash a)))
       <$> map_to_list (accounts s)).
End hashing.

(** ** Unwinding *)

(** [remove] the value when it is zero, [insert] it otherwise. *)
Definition put_slot (location value : Z) (m : gmap Z Z) : gmap Z Z :=
  if value =? 0 then delete location m else <[location := value]> m.

(** [self.storage.entry(address).or_default()], updated. *)
Definition update_slots (address : Z) (f : gmap Z Z → gmap Z Z) (m : gmap Z (gmap Z Z))
    : gmap Z (gmap Z Z) :=
  <[address := f (default ∅ (m !! address))]> m.

Definition restore_account (address : Z) (account : option Account) (m : gmap Z Account)
    : gmap Z Account :=
  match account with Some a => <[address := a]> m | None => delete address m end.

Definition restore_slots (address : Z) (slots : gmap Z Z) (m : gmap Z (gmap Z Z))
    : gmap Z (gmap Z Z) :=
  map_fold (fun location value m => update_slots address (put_slot location value) m) m slots.

Definition unwind_state_changes (n : Z) (s : InMemoryState) : InMemoryState :=
  let acs := default ∅ (account_changes s !! n) in
  let s := ims_account_changes (delete n) s in
  let s := ims_accounts (fun m => map_fold restore_account m acs) s in
  let scs := default ∅ (storage_changes s !! n) in
  let s := ims_storage_changes (delete n) s in
  ims_slots (fun m => map_fold restore_slots m scs) s.

(** ** The [State] interface *)

(** [self.storage_changes.entry(block).or_default().entry(address).or_default()],
    updated. *)
Definition record_slots (address : Z) (f : gmap Z Z → gmap Z Z) (s : InMemoryState)
    : InMemoryState :=
  ims_storage_changes (fun m =>
    <[block_number s := update_slots address f (default ∅ (m !! block_number s))]> m) s.

Module IMS.
Definition read_account (s : InMemoryState) (address : Z) : result (option Account) :=
  Ok (accounts s !! address).

Definition read_code (s : InMemoryState) (code_hash : Z) : result bytes :=
  Ok (default [] (code s !! code_hash)).

Definition read_storage (s : InMemoryState) (address location : Z) : result Z :=
  Ok (match slots_of s !! address with
      | Some storage => default 0 (storage !! location)
      | None => 0
      end).

Definition erase_storage (address : Z) (s : InMemoryState) : result InMemoryState :=
  let address_storage := default ∅ (slots_of s !! address) in
  let s := ims_slots (delete address) s in
  if decide (address_storage = ∅) then Ok s
  else Ok (record_slots address (fun m => address_storage ∪ m) s).

Definition read_header (s : InMemoryState) (n block_hash : Z) : result (option BlockHeader) :=
  Ok (headers s !! Z.to_nat n ≫= fun m => m !! block_hash).

Definition read_body (s : InMemoryState) (n block_hash : Z) : result (option BlockBody) :=
  Ok (bodies s !! Z.to_nat n ≫= fun m => m !! block_hash).

Definition total_difficulty (s : InMemoryState) (n block_hash : Z) : result (option Z) :=
  Ok (difficulties s !! Z.to_nat n ≫= fun m => m !! block_hash).

Definition begin_block (n : Z) (s : InMemoryState) : InMemoryState := ims_block_number n s.

Definition update_account (address : Z) (initial current : option Account) (s : InMemoryState)
    : InMemoryState :=
  ims_accounts (restore_account address current)
    (ims_account_changes (fun m =>
       <[block_number s := <[address := initial]> (default ∅ (m !! block_number s))]> m) s).

Definition update_code (code_hash : Z) (c : bytes) (s : InMemoryState) : result InMemoryState :=
  Ok (ims_code (insert code_hash c) s).

Definition update_storage (address location initial current : Z) (s : InMemoryState)
    : result InMemoryState :=
  let s := record_slots address (insert location initial) s in
  Ok (ims_slots (update_slots address (put_slot location current)) s).
End IMS.

#[global] Instance ims_state : State InMemoryState := {|
  StateTrait.read_account := IMS.read_account;
  StateTrait.read_code := IMS.read_code;
  StateTrait.read_storage := IMS.read_storage;
  StateTrait.erase_storage := IMS.erase_storage;
  StateTrait.read_header := IMS.read_header;
  StateTrait.read_body := IMS.read_body;
  StateTrait.total_difficulty := IMS.total_difficulty;
  StateTrait.begin_block := IMS.begin_block;
  StateTrait.update_account := IMS.update_account;
  StateTrait.update_code := IMS.update_code;
  StateTrait.update_storage := IMS.update_storage
|}.

(** A concrete choice of the library functions, for examples: the hash of a
    byte string is the integer it denotes. *)
Definition toy_hashing : Hashing := {|
  keccak256 := from_be_bytes;
  ommers_rlp_hash := fun l => Z.of_nat (length l);
  transactions_trie_root := fun l => Z.of_nat (length l);
  receipts_trie_root := fun l => Z.of_nat (length l);
  ecdsa_recover := fun tx => Ok (sig_r (signature tx));
  trie_root := fun l => Z.of_nat (length l);
  rlp_bytes := fun b => b;
  rlp_account := fun n b s c => [n; b; s; c]
|}.
