(* ===== verification/IntraBlockState.v ===== *)
(** * IntraBlockState

    [src/src/state/intra_block_state.rs], [delta.rs] and [object.rs]: the
    journaled overlay a block is executed on. Every operation is a
    computation of the state-and-error monad [M]; an operation that fails
    drops the overlay, as the processor that owns it does.

    The journal is a [Vec]: the list's head is the vector's last element. *)

From S2P Require Import Prelude Words Errors Account Transaction Block StateTrait.

(** ** Data *)

Record Object : Type := mkObject {
  obj_initial : option Account;
  obj_current : option Account
}.

#[global] Instance Object_eq_dec : EqDecision Object.
Proof. solve_decision. Defined.

(** [initial]: at the beginning of the block; [original]: of the transaction. *)
Record CommittedValue : Type := mkCommitted {
  cv_initial : Z;
  cv_original : Z
}.

Record Storage : Type := mkStorage {
  committed : gmap Z CommittedValue;
  current : gmap Z Z
}.

Definition default_storage : Storage := {| committed := ∅; current := ∅ |}.

Inductive Delta : Type :=
| DCreate (address : Z)
| DUpdate (address : Z) (previous : Object)
| DUpdateBalance (address previous : Z)
| DIncarnation (address : Z)
| DSelfdestruct (address : Z)
| DTouch (address : Z)
| DStorageChange (address key previous : Z)
| DStorageWipe (address : Z) (st : Storage)
| DStorageCreate (address : Z)
| DStorageAccess (address key : Z)
| DAccountAccess (address : Z).

Record IntraBlockState (S : Type) : Type := mkIBS {
  db : S;
  objects : gmap Z Object;
  storage : gmap Z Storage;
  incarnations : gmap Z Z;
  existing_code : gmap Z bytes;
  new_code : gmap Z bytes;
  journal : list Delta;
  self_destructs : gset Z;
  logs : list Log;
  touched : gset Z;
  refund : Z;
  accessed_addresses : gset Z;
  accessed_storage_keys : gmap Z (gset Z)
}.

Arguments mkIBS {S}. Arguments db {S}. Arguments objects {S}. Arguments storage {S}.
Arguments incarnations {S}. Arguments existing_code {S}. Arguments new_code {S}.
Arguments journal {S}. Arguments self_destructs {S}. Arguments logs {S}.
Arguments touched {S}. Arguments refund {S}. Arguments accessed_addresses {S}.
Arguments accessed_storage_keys {S}.

Record Snapshot : Type := mkSnapshot {
  journal_size : nat;
  log_size : nat;
  snap_refund : Z
}.

Inductive AccessStatus : Type := Cold | Warm.

(** ** Field updates *)

Section fields.
Context {S : Type}.
Implicit Types st : IntraBlockState S.

Definition set_objects f st := mkIBS (db st) (f (objects st)) (storage st) (incarnations st)
  (existing_code st) (new_code st) (journal st) (self_destructs st) (logs st) (touched st)
  (refund st) (accessed_addresses st) (accessed_storage_keys st).
Definition set_storage_map f st := mkIBS (db st) (objects st) (f (storage st)) (incarnations st)
  (existing_code st) (new_code st) (journal st) (self_destructs st) (logs st) (touched st)
  (refund st) (accessed_addresses st) (accessed_storage_keys st).
Definition set_incarnations f st := mkIBS (db st) (objects st) (storage st) (f (incarnations st))
  (existing_code st) (new_code st) (journal st) (self_destructs st) (logs st) (touched st)
  (refund st) (accessed_addresses st) (accessed_storage_keys st).
Definition set_existing_code f st := mkIBS (db st) (objects st) (storage st) (incarnations st)
  (f (existing_code st)) (new_code st) (journal st) (self_destructs st) (logs st) (touched st)
  (refund st) (accessed_addresses st) (accessed_storage_keys st).
Definition set_new_code f st := mkIBS (db st) (objects st) (storage st) (incarnations st)
  (existing_code st) (f (new_code st)) (journal st) (self_destructs st) (logs st) (touched st)
  (refund st) (accessed_addresses st) (accessed_storage_keys st).
Definition set_journal f st := mkIBS (db st) (objects st) (storage st) (incarnations st)
  (existing_code st) (new_code st) (f (journal st)) (self_destructs st) (logs st) (touched st)
  (refund st) (accessed_addresses st) (accessed_storage_keys st).
Definition set_self_destructs f st := mkIBS (db st) (objects st) (storage st) (incarnations st)
  (existing_code st) (new_code st) (journal st) (f (self_destructs st)) (logs st) (touched st)
  (refund st) (accessed_addresses st) (accessed_storage_keys st).
Definition set_logs f st := mkIBS (db st) (objects st) (storage st) (incarnations st)
  (existing_code st) (new_code st) (journal st) (self_destructs st) (f (logs st)) (touched st)
  (refund st) (accessed_addresses st) (accessed_storage_keys st).
Definition set_touched f st := mkIBS (db st) (objects st) (storage st) (incarnations st)
  (existing_code st) (new_code st) (journal st) (self_destructs st) (logs st) (f (touched st))
  (refund st) (accessed_addresses st) (accessed_storage_keys st).
Definition set_refund f st := mkIBS (db st) (objects st) (storage st) (incarnations st)
  (existing_code st) (new_code st) (journal st) (self_destructs st) (logs st) (touched st)
  (f (refund st)) (accessed_addresses st) (accessed_storage_keys st).
Definition set_accessed_addresses f st := mkIBS (db st) (objects st) (storage st)
  (incarnations st) (existing_code st) (new_code st) (journal st) (self_destructs st) (logs st)
  (touched st) (refund st) (f (accessed_addresses st)) (accessed_storage_keys st).
Definition set_accessed_storage_keys f st := mkIBS (db st) (objects st) (storage st)
  (incarnations st) (existing_code st) (new_code st) (journal st) (self_destructs st) (logs st)
  (touched st) (refund st) (accessed_addresses st) (f (accessed_storage_keys st)).

(** [IntraBlockState::new]. *)
Definition new (d : S) : IntraBlockState S :=
  mkIBS d ∅ ∅ ∅ ∅ ∅ [] ∅ [] ∅ 0 ∅ ∅.

Definition push (d : Delta) : IntraBlockState S → IntraBlockState S :=
  set_journal (fun j => d :: j).
End fields.

(** ** The monad of operations *)

Definition M (S A : Type) : Type := IntraBlockState S → result (A * IntraBlockState S).

#[global] Instance M_ret {S} : MRet (M S) := fun A a st => Ok (a, st).
#[global] Instance M_bind {S} : MBind (M S) := fun A B f m st =>
  match m st with
  | Ok (a, st') => f a st'
  | Err e => Err e
  | Panic => Panic
  end.

Definition gets {S A} (f : IntraBlockState S → A) : M S A := fun st => Ok (f st, st).
Definition modify {S} (f : IntraBlockState S → IntraBlockState S) : M S unit :=
  fun st => Ok (tt, f st).
Definition lift {S A} (r : result A) : M S A :=
  fun st => match r with Ok a => Ok (a, st) | Err e => Err e | Panic => Panic end.

(** A read of the store. *)
Definition from_db {S A} (f : S → result A) : M S A := fun st => lift (f (db st)) st.

(** ** Operations *)

Section operations.
Context {S : Type} {HS : State S} {HH : Hashing}.
Implicit Types st : IntraBlockState S.

(** [get_object]: a miss reads the account from the store and keeps it. *)
Definition get_object (address : Z) : M S (option Object) :=
  os ← gets objects;
  match os !! address with
  | Some obj => mret (Some obj)
  | None =>
      accdata ← from_db (fun d => read_account d address);
      match accdata with
      | Some account =>
          let obj := {| obj_initial := Some account; obj_current := Some account |} in
          modify (set_objects (insert address obj));;
          mret (Some obj)
      | None => mret None
      end
  end.

Definition put_object (address : Z) (obj : Object) : M S unit :=
  modify (set_objects (insert address obj)).

Definition ensure_object (address : Z) : M S unit :=
  o ← get_object address;
  match o with
  | Some obj =>
      match obj_current obj with
      | None =>
          modify (push (DUpdate address obj));;
          put_object address
            {| obj_initial := obj_initial obj; obj_current := Some default_account |}
      | Some _ => mret tt
      end
  | None =>
      modify (push (DCreate address));;
      put_object address {| obj_initial := None; obj_current := Some default_account |}
  end.

(** [objects.get_mut(&address).unwrap()]. *)
Definition get_or_create_object (address : Z) : M S Object :=
  ensure_object address;;
  os ← gets objects;
  lift (unwrap (os !! address)).

Definition exists_ (address : Z) : M S bool :=
  obj ← get_object address;
  mret (match obj with
        | Some obj => if obj_current obj then true else false
        | None => false
        end).

Definition is_dead (address : Z) : M S bool :=
  obj ← get_object address;
  mret (match obj with
        | Some obj =>
            match obj_current obj with
            | Some current =>
                (code_hash current =? EMPTY_HASH) && (nonce current =? 0)
                  && (balance current =? 0)
            | None => true
            end
        | None => true
        end).

Definition create_contract (address : Z) : M S unit :=
  prev ← get_object address;
  let current :=
    {| nonce := 0;
       balance := match prev with
                  | Some prev =>
                      match obj_current prev with
                      | Some prev_current => balance prev_current
                      | None => 0
                      end
                  | None => 0
                  end;
       code_hash := EMPTY_HASH |} in
  let initial := match prev with Some prev => obj_initial prev | None => None end in
  modify (push (match prev with
                | Some prev => DUpdate address prev
                | None => DCreate address
                end));;
  modify (set_incarnations
    (fun m => <[address := u64_add (default 0 (m !! address)) 1]> m));;
  modify (push (DIncarnation address));;
  put_object address {| obj_initial := initial; obj_current := Some current |};;
  ss ← gets storage;
  match ss !! address with
  | Some removed =>
      modify (set_storage_map (delete address));;
      modify (push (DStorageWipe address removed))
  | None => modify (push (DStorageCreate address))
  end.

Definition destruct_ (address : Z) : M S unit :=
  modify (set_incarnations
    (fun m => <[address := u64_add (default 0 (m !! address)) 1]> m));;
  modify (set_storage_map (delete address));;
  o ← get_object address;
  match o with
  | Some obj => put_object address {| obj_initial := obj_initial obj; obj_current := None |}
  | None => mret tt
  end.

Definition record_selfdestruct (address : Z) : M S unit :=
  sd ← gets self_destructs;
  if decide (address ∈ sd) then mret tt
  else
    modify (set_self_destructs (union {[address]}));;
    modify (push (DSelfdestruct address)).

(** The loops over a copy of a set, in the order the copy lists it. *)
Fixpoint for_each {A} (f : A → M S unit) (l : list A) : M S unit :=
  match l with
  | [] => mret tt
  | a :: l => f a;; for_each f l
  end.

Definition destruct_selfdestructs : M S unit :=
  sd ← gets self_destructs;
  for_each destruct_ (elements sd).

Definition destruct_touched_dead : M S unit :=
  t ← gets touched;
  for_each (fun address =>
      dead ← is_dead address;
      if dead : bool then destruct_ address else mret tt) (elements t).

Definition number_of_self_destructs : M S Z :=
  sd ← gets self_destructs;
  mret (Z.of_nat (size sd)).

Definition get_balance (address : Z) : M S Z :=
  obj ← get_object address;
  mret (match obj with
        | Some object =>
            match obj_current object with
            | Some current => balance current
            | None => 0
            end
        | None => 0
        end).

Definition RIPEMD_ADDRESS : Z := 3.

Definition touch (address : Z) : M S unit :=
  t ← gets touched;
  let inserted := bool_decide (address ∉ t) in
  modify (set_touched (union {[address]}));;
  if inserted && negb (address =? RIPEMD_ADDRESS)
  then modify (push (DTouch address)) else mret tt.

(** The body [set_balance], [add_to_balance] and [subtract_from_balance]
    share: [f] computes the new balance. *)
Definition update_balance (address : Z) (f : Z → Z) : M S unit :=
  obj ← get_or_create_object address;
  current ← lift (unwrap (obj_current obj));
  modify (push (DUpdateBalance address (balance current)));;
  put_object address
    {| obj_initial := obj_initial obj;
       obj_current := Some (set_balance_field (f (balance current)) current) |};;
  touch address.

Definition set_balance (address value : Z) : M S unit :=
  update_balance address (fun _ => value).
Definition add_to_balance (address addend : Z) : M S unit :=
  update_balance address (fun b => u256_add b addend).
Definition subtract_from_balance (address subtrahend : Z) : M S unit :=
  update_balance address (fun b => u256_sub b subtrahend).

Definition get_nonce (address : Z) : M S Z :=
  obj ← get_object address;
  mret (match obj with
        | Some object =>
            match obj_current object with
            | Some current => nonce current
            | None => 0
            end
        | None => 0
        end).

Definition set_nonce (address n : Z) : M S unit :=
  object ← get_or_create_object address;
  modify (push (DUpdate address object));;
  current ← lift (unwrap (obj_current object));
  put_object address
    {| obj_initial := obj_initial object; obj_current := Some (set_nonce_field n current) |}.

Definition get_code (address : Z) : M S (option bytes) :=
  obj ← get_object address;
  match obj with
  | Some obj =>
      match obj_current obj with
      | Some current =>
          let code_hash := code_hash current in
          if negb (code_hash =? EMPTY_HASH) then
            nc ← gets new_code;
            match nc !! code_hash with
            | Some code => mret (Some code)
            | None =>
                ec ← gets existing_code;
                match ec !! code_hash with
                | Some code => mret (Some code)
                | None =>
                    code ← from_db (fun d => read_code d code_hash);
                    modify (set_existing_code (insert code_hash code));;
                    mret (Some code)
                end
            end
          else mret None
      | None => mret None
      end
  | None => mret None
  end.

Definition get_code_hash (address : Z) : M S Z :=
  obj ← get_object address;
  mret (match obj with
        | Some object =>
            match obj_current object with
            | Some current => code_hash current
            | None => EMPTY_HASH
            end
        | None => EMPTY_HASH
        end).

Definition set_code (address : Z) (code : bytes) : M S unit :=
  obj ← get_or_create_object address;
  modify (push (DUpdate address obj));;
  current ← lift (unwrap (obj_current obj));
  let h := keccak256 code in
  put_object address
    {| obj_initial := obj_initial obj; obj_current := Some (set_code_hash_field h current) |};;
  modify (set_new_code (fun m => match m !! h with Some _ => m | None => <[h := code]> m end)).

Definition access_account (address : Z) : M S AccessStatus :=
  acc ← gets accessed_addresses;
  if decide (address ∈ acc) then mret Warm
  else
    modify (set_accessed_addresses (union {[address]}));;
    modify (push (DAccountAccess address));;
    mret Cold.

Definition access_storage (address key : Z) : M S AccessStatus :=
  acc ← gets accessed_storage_keys;
  let keys := default ∅ (acc !! address) in
  if decide (key ∈ keys) then mret Warm
  else
    modify (set_accessed_storage_keys (insert address ({[key]} ∪ keys)));;
    modify (push (DStorageAccess address key));;
    mret Cold.

Definition get_storage (address key : Z) (original : bool) : M S Z :=
  o ← get_object address;
  match o with
  | Some obj =>
      match obj_current obj with
      | Some _ =>
          modify (set_storage_map
            (fun m => <[address := default default_storage (m !! address)]> m));;
          ss ← gets storage;
          let sto := default default_storage (ss !! address) in
          match (if original then None else current sto !! key) with
          | Some v => mret v
          | None =>
              match committed sto !! key with
              | Some v => mret (cv_original v)
              | None =>
                  incs ← gets incarnations;
                  match obj_initial obj, incs !! address with
                  | Some _, None =>
                      val ← from_db (fun d => read_storage d address key);
                      modify (set_storage_map (fun m =>
                        let sto := default default_storage (m !! address) in
                        <[address :=
                            {| committed :=
                                 <[key := {| cv_initial := val; cv_original := val |}]>
                                   (committed sto);
                               current := current sto |}]> m));;
                      mret val
                  | _, _ => mret 0
                  end
              end
          end
      | None => mret 0
      end
  | None => mret 0
  end.

Definition get_current_storage (address key : Z) : M S Z := get_storage address key false.
Definition get_original_storage (address key : Z) : M S Z := get_storage address key true.

(** [self.storage.entry(address).or_default().current.insert(key, value)]. *)
Definition insert_current (address key value : Z) : M S unit :=
  modify (set_storage_map (fun m =>
    let sto := default default_storage (m !! address) in
    <[address := {| committed := committed sto;
                    current := <[key := value]> (current sto) |}]> m)).

Definition set_storage (address key value : Z) : M S unit :=
  previous ← get_current_storage address key;
  if previous =? value then mret tt
  else
    insert_current address key value;;
    modify (push (DStorageChange address key previous)).

(** *** Snapshots *)

Definition take_snapshot st : Snapshot :=
  {| journal_size := length (journal st); log_size := length (logs st);
     snap_refund := refund st |}.

(** [Delta::revert]. *)
Definition revert (d : Delta) : M S unit :=
  match d with
  | DCreate address => modify (set_objects (delete address))
  | DUpdate address previous => modify (set_objects (insert address previous))
  | DUpdateBalance address previous =>
      os ← gets objects;
      obj ← lift (unwrap (os !! address));
      current ← lift (unwrap (obj_current obj));
      put_object address
        {| obj_initial := obj_initial obj;
           obj_current := Some (set_balance_field previous current) |}
  | DIncarnation address =>
      incs ← gets incarnations;
      e ← lift (unwrap (incs !! address));
      let e := u64_sub e 1 in
      modify (set_incarnations (fun m =>
        if e =? 0 then delete address m else <[address := e]> m))
  | DSelfdestruct address => modify (set_self_destructs (fun s => s ∖ {[address]}))
  | DTouch address => modify (set_touched (fun s => s ∖ {[address]}))
  | DStorageChange address key previous => insert_current address key previous
  | DStorageWipe address sto => modify (set_storage_map (insert address sto))
  | DStorageCreate address => modify (set_storage_map (delete address))
  | DStorageAccess address key =>
      modify (set_accessed_storage_keys (fun m =>
        <[address := default ∅ (m !! address) ∖ {[key]}]> m))
  | DAccountAccess address =>
      modify (set_accessed_addresses (fun s => s ∖ {[address]}))
  end.

(** [self.journal.pop().unwrap().revert(self)], [n] times. *)
Fixpoint revert_n (n : nat) : M S unit :=
  match n with
  | O => mret tt
  | Datatypes.S n =>
      j ← gets journal;
      match j with
      | [] => lift Panic
      | d :: j' => modify (set_journal (fun _ => j'));; revert d;; revert_n n
      end
  end.

(** [self.journal.len() - snapshot.journal_size] is an unsigned
    subtraction: a snapshot of a longer journal makes the loop run out of
    entries, and panic. *)
Definition revert_to_snapshot (snapshot : Snapshot) : M S unit :=
  j ← gets journal;
  if (journal_size snapshot <=? length j)%nat then
    revert_n (length j - journal_size snapshot);;
    modify (set_logs (take (log_size snapshot)));;
    modify (set_refund (fun _ => snap_refund snapshot))
  else lift Panic.

(** *** End of a transaction and of a block *)

Definition finalize_storage (sto : Storage) : Storage :=
  {| committed :=
       map_fold (fun key val acc =>
           let c := default {| cv_initial := 0; cv_original := 0 |} (acc !! key) in
           <[key := {| cv_initial := cv_initial c; cv_original := val |}]> acc)
         (committed sto) (current sto);
     current := ∅ |}.

Definition finalize_transaction : M S unit :=
  modify (set_storage_map (fmap finalize_storage)).

Definition clear_journal_and_substate : M S unit :=
  modify (set_journal (fun _ => []));;
  modify (set_self_destructs (fun _ => ∅));;
  modify (set_logs (fun _ => []));;
  modify (set_touched (fun _ => ∅));;
  modify (set_refund (fun _ => 0));;
  modify (set_accessed_addresses (fun _ => ∅));;
  modify (set_accessed_storage_keys (fun _ => ∅)).

Definition add_log (log : Log) : M S unit := modify (set_logs (fun l => l ++ [log])).
Definition add_refund (addend : Z) : M S unit :=
  modify (set_refund (fun r => u64_add r addend)).
Definition subtract_refund (subtrahend : Z) : M S unit :=
  modify (set_refund (fun r => u64_sub r subtrahend)).
Definition get_refund : M S Z := gets refund.

(** [write_to_db], with the orders in which its four loops (and the inner
    one) meet the entries of the hash maps. *)
Definition write_incarnations (l : list (Z * Z)) (d : S) : result S :=
  res_foldl (fun d '(address, incarnation) =>
    if 0 <? incarnation then erase_storage address d else Ok d) d l.

Definition write_slots (address : Z) (l : list (Z * CommittedValue)) (d : S) : result S :=
  res_foldl (fun d '(key, val) =>
    update_storage address key (cv_initial val) (cv_original val) d) d l.

Definition write_storages (os : gmap Z Object) (l : list (Z * Storage)) (d : S) : result S :=
  res_foldl (fun d '(address, sto) =>
    match os !! address with
    | Some obj =>
        match obj_current obj with
        | Some _ => write_slots address (map_to_list (committed sto)) d
        | None => Ok d
        end
    | None => Ok d
    end) d l.

Definition write_accounts (l : list (Z * Object)) (d : S) : S :=
  foldl (fun d '(address, obj) =>
    update_account address (obj_initial obj) (obj_current obj) d) d l.

Definition write_codes (l : list (Z * bytes)) (d : S) : result S :=
  res_foldl (fun d '(code_hash, code) => update_code code_hash code d) d l.

Definition write_to_db st (block_number : Z) : result S :=
  let d := begin_block block_number (db st) in
  d ← write_incarnations (map_to_list (incarnations st)) d;
  d ← write_storages (objects st) (map_to_list (storage st)) d;
  let d := write_accounts (map_to_list (objects st)) d in
  write_codes (map_to_list (new_code st)) d.
End operations.
