(* ===== verification/Journal.v ===== *)
(** * Journal

    Snapshots of [IntraBlockState]: whatever a transaction does between
    [take_snapshot] and [revert_to_snapshot], nested snapshots and reverts
    included, the revert succeeds and gives back the state of the snapshot,
    up to the caches ([le]) that no reader can observe. *)

From S2P Require Import Prelude Words Errors Account Transaction Block StateTrait InMemoryState IntraBlockState.

Section monad.
Context {S : Type}.

Lemma M_bind_inv {A B} (m : M S A) (f : A → M S B) st b st' :
  (m ≫= f) st = Ok (b, st') → ∃ a st1, m st = Ok (a, st1) ∧ f a st1 = Ok (b, st').
Proof. unfold mbind, M_bind. destruct (m st) as [[a st1]| |]; naive_solver. Qed.

Lemma M_bind_run {A B} (m : M S A) (f : A → M S B) st a st1 :
  m st = Ok (a, st1) → (m ≫= f) st = f a st1.
Proof. unfold mbind, M_bind. by intros ->. Qed.

Lemma lift_inv {A} (r : result A) (st st' : IntraBlockState S) a :
  lift r st = Ok (a, st') → r = Ok a ∧ st' = st.
Proof. unfold lift. destruct r; naive_solver. Qed.
End monad.

Lemma from_db_inv {S A} (f : S → result A) (st st' : IntraBlockState S) a :
  from_db f st = Ok (a, st') → f (db st) = Ok a ∧ st' = st.
Proof. apply lift_inv. Qed.

(** Take apart a successful run of a sequence of operations. *)
Ltac m_ret H := first [injection H as <- <- | injection H as ? <- | injection H as ? ?].

Ltac m_inv :=
  repeat match goal with
  | H : (_ ≫= _) _ = Ok (_, _) |- _ =>
      let a := fresh "a" in let s := fresh "st" in let H1 := fresh "Hm" in
      apply M_bind_inv in H; destruct H as (a & s & H1 & H)
  | H : mret _ _ = Ok (_, _) |- _ => unfold mret, M_ret in H; m_ret H
  | H : gets _ _ = Ok (_, _) |- _ => unfold gets in H; m_ret H
  | H : modify _ _ = Ok (_, _) |- _ => unfold modify in H; m_ret H
  | H : put_object _ _ _ = Ok (_, _) |- _ => unfold put_object, modify in H; m_ret H
  | H : lift _ _ = Ok (_, _) |- _ =>
      let Hr := fresh "Hr" in apply lift_inv in H; destruct H as [Hr ->]
  | H : from_db _ _ = Ok (_, _) |- _ =>
      let Hr := fresh "Hr" in apply from_db_inv in H; destruct H as [Hr ->]
  | H : unwrap _ = Ok _ |- _ => apply unwrap_ok in H
  end; cbv beta in *.

Section journal.
Context {S : Type} {HS : State S} {HH : Hashing}.
Implicit Types st x y z : IntraBlockState S.

(** ** States equal up to their caches *)

Definition sto st a : Storage := default default_storage (storage st !! a).

(** The account at the beginning of the block. *)
Definition initial_of st a : option Account :=
  match objects st !! a with
  | Some o => obj_initial o
  | None => match read_account (db st) a with Ok (Some acc) => Some acc | _ => None end
  end.

(** A slot that is read from the store, and the value read. *)
Definition loads st a k v : Prop :=
  is_Some (initial_of st a) ∧ incarnations st !! a = None
  ∧ read_storage (db st) a k = Ok v.

(** The value of a slot at the beginning of the transaction. *)
Definition orig st a k v : Prop :=
  match committed (sto st a) !! k with
  | Some c => v = cv_original c
  | None => ((initial_of st a = None ∨ is_Some (incarnations st !! a)) ∧ v = 0)
            ∨ loads st a k v
  end.

Definition le_objects y x : Prop := ∀ a,
  match objects y !! a with
  | Some o => objects x !! a = Some o
  | None => objects x !! a = None
            ∨ ∃ acc, read_account (db y) a = Ok (Some acc)
                     ∧ objects x !! a = Some (mkObject (Some acc) (Some acc))
  end.

Definition le_committed y x : Prop := ∀ a k,
  match committed (sto y a) !! k with
  | Some c => committed (sto x a) !! k = Some c
  | None => committed (sto x a) !! k = None
            ∨ ∃ v, loads y a k v ∧ committed (sto x a) !! k = Some (mkCommitted v v)
  end.

Definition le_current y x : Prop := ∀ a k,
  match current (sto y a) !! k with
  | Some v => current (sto x a) !! k = Some v
  | None => current (sto x a) !! k = None
            ∨ ∃ v, orig y a k v ∧ current (sto x a) !! k = Some v
  end.

(** [x] is [y], with more read from the store, more code known, more logs,
    and perhaps the RIPEMD precompile touched. *)
Record le y x : Prop := mk_le {
  le_db : db x = db y;
  le_obj : le_objects y x;
  le_com : le_committed y x;
  le_cur : le_current y x;
  le_inc : incarnations x = incarnations y;
  le_code : new_code y ⊆ new_code x;
  le_sd : self_destructs x = self_destructs y;
  le_logs : logs y `prefix_of` logs x;
  le_touched : touched y ⊆ touched x ∧ touched x ⊆ touched y ∪ {[RIPEMD_ADDRESS]};
  le_addrs : accessed_addresses x = accessed_addresses y;
  le_keys : ∀ a, default ∅ (accessed_storage_keys x !! a)
                 = default ∅ (accessed_storage_keys y !! a)
}.

Lemma initial_of_objects y x a :
  db x = db y → le_objects y x → initial_of x a = initial_of y a.
Proof.
  intros Hdb Ho. unfold initial_of. specialize (Ho a). rewrite Hdb.
  destruct (objects y !! a); [by rewrite Ho|].
  destruct Ho as [->|(acc & -> & ->)]; done.
Qed.

Lemma le_initial y x a : le y x → initial_of x a = initial_of y a.
Proof. intros H. apply initial_of_objects; apply H. Qed.

Lemma loads_le y x a k v : le y x → loads x a k v ↔ loads y a k v.
Proof.
  intros H. unfold loads. by rewrite (le_initial _ _ _ H), (le_inc _ _ H), (le_db _ _ H).
Qed.

Lemma orig_le y x a k v : le y x → orig x a k v → orig y a k v.
Proof.
  intros H. unfold orig. pose proof (le_com _ _ H a k) as Hc.
  rewrite (le_initial _ _ _ H), (le_inc _ _ H).
  pose proof (loads_le y x a k v H) as Hl0.
  destruct (committed (sto y a) !! k); [by rewrite Hc|].
  destruct Hc as [->|(v' & Hl & ->)]; [tauto|]. cbn. intros ->. by right.
Qed.

Lemma orig_le_l y x a k v : le y x → orig y a k v → orig x a k v.
Proof.
  intros H. unfold orig. pose proof (le_com _ _ H a k) as Hc.
  rewrite (le_initial _ _ _ H), (le_inc _ _ H).
  pose proof (loads_le y x a k v H) as Hl0.
  destruct (committed (sto y a) !! k); [by rewrite Hc|].
  destruct Hc as [->|(v' & Hl & ->)]; [tauto|]. cbn.
  intros [[Hn ->]|Hl'].
  - destruct Hl as ([? Hi] & Hinc & _). destruct Hn as [Hn|[? Hn]]; congruence.
  - destruct Hl as (_ & _ & Hr), Hl' as (_ & _ & Hr'). congruence.
Qed.

#[global] Instance le_refl : Reflexive le.
Proof.
  intros x. split; try done.
  - intros a. destruct (objects x !! a); auto.
  - intros a k. destruct (committed _ !! k); auto.
  - intros a k. destruct (current _ !! k); auto.
  - set_solver.
Qed.

#[global] Instance le_trans : Transitive le.
Proof.
  intros x y z H1 H2. split.
  - by rewrite (le_db _ _ H2), (le_db _ _ H1).
  - intros a. pose proof (le_obj _ _ H1 a) as Ha. pose proof (le_obj _ _ H2 a) as Hb.
    destruct (objects x !! a); [by rewrite Ha in Hb|].
    destruct Ha as [Ha|(acc & Hr & Ha)]; rewrite Ha in Hb; [|eauto].
    rewrite (le_db _ _ H1) in Hb. eauto.
  - intros a k. pose proof (le_com _ _ H1 a k) as Ha. pose proof (le_com _ _ H2 a k) as Hb.
    destruct (committed (sto x a) !! k); [by rewrite Ha in Hb|].
    destruct Ha as [Ha|(v & Hr & Ha)]; rewrite Ha in Hb; [|eauto].
    destruct Hb as [Hb|(v & Hl & Hb)]; [eauto|]. right. exists v. split; [|done].
    by apply (loads_le _ _ _ _ _ H1).
  - intros a k. pose proof (le_cur _ _ H1 a k) as Ha. pose proof (le_cur _ _ H2 a k) as Hb.
    destruct (current (sto x a) !! k); [by rewrite Ha in Hb|].
    destruct Ha as [Ha|(v & Hr & Ha)]; rewrite Ha in Hb; [|eauto].
    destruct Hb as [Hb|(v & Hl & Hb)]; [eauto|]. right. exists v. split; [|done].
    by apply (orig_le _ _ _ _ _ H1).
  - by rewrite (le_inc _ _ H2), (le_inc _ _ H1).
  - etrans; [apply (le_code _ _ H1)|apply (le_code _ _ H2)].
  - by rewrite (le_sd _ _ H2), (le_sd _ _ H1).
  - etrans; [apply (le_logs _ _ H1)|apply (le_logs _ _ H2)].
  - pose proof (le_touched _ _ H1). pose proof (le_touched _ _ H2). set_solver.
  - by rewrite (le_addrs _ _ H2), (le_addrs _ _ H1).
  - intros a. by rewrite (le_keys _ _ H2), (le_keys _ _ H1).
Qed.

(** ** Undoing a stretch of the journal *)

Definition undoable st st1 : Prop :=
  ∃ ds, journal st1 = ds ++ journal st
    ∧ ∀ x J, le st1 x → journal x = ds ++ J →
      ∃ x', revert_n (length ds) x = Ok (tt, x') ∧ le st x' ∧ journal x' = J.

Lemma undoable_cached st st1 : le st st1 → journal st1 = journal st → undoable st st1.
Proof.
  intros Hle Hj. exists []. split; [done|]. intros x J Hx HJ. exists x.
  split_and!; [done| |done]. by etrans.
Qed.

#[global] Instance undoable_refl : Reflexive undoable.
Proof. intros st. by apply undoable_cached. Qed.

Lemma revert_n_add n m x u x1 :
  revert_n n x = Ok (u, x1) → revert_n (n + m) x = revert_n m x1.
Proof.
  revert x. induction n as [|n IH]; intros x H; [by injection H as _ <-|].
  cbn [revert_n Nat.add] in *.
  apply M_bind_inv in H as (j & s & Hj & H). rewrite (M_bind_run _ _ _ _ _ Hj).
  destruct j as [|d j]; [done|].
  apply M_bind_inv in H as (? & s1 & H1 & H). rewrite (M_bind_run _ _ _ _ _ H1).
  apply M_bind_inv in H as (? & s2 & H2 & H). rewrite (M_bind_run _ _ _ _ _ H2).
  by apply IH.
Qed.

Lemma revert_n_cons n x d J :
  journal x = d :: J →
  revert_n (Datatypes.S n) x = (revert d ≫= fun _ => revert_n n) (set_journal (fun _ => J) x).
Proof. intros H. cbn [revert_n]. rewrite (M_bind_run _ _ _ _ _ eq_refl). by rewrite H. Qed.

#[global] Instance undoable_trans : Transitive undoable.
Proof.
  intros st st1 st2 (ds1 & Hj1 & H1) (ds2 & Hj2 & H2).
  exists (ds2 ++ ds1). split; [by rewrite Hj2, Hj1, app_assoc|].
  intros x J Hx HJ. rewrite <- app_assoc in HJ.
  destruct (H2 x _ Hx HJ) as (x1 & Hr1 & Hle1 & HJ1).
  destruct (H1 x1 J Hle1 HJ1) as (x' & Hr & Hle & HJ').
  exists x'. rewrite length_app, (revert_n_add _ _ _ _ _ Hr1). done.
Qed.

(** One journal entry, undone by one step of the loop. *)
Lemma undoable_one st st1 d :
  journal st1 = d :: journal st →
  (∀ x, le st1 x → ∃ x', revert d x = Ok (tt, x') ∧ le st x' ∧ journal x' = journal x) →
  undoable st st1.
Proof.
  intros Hj H. exists [d]. split; [done|]. intros x J Hx HJ.
  destruct (H (set_journal (fun _ => J) x)) as (x' & Hr & Hle & Hj').
  { by destruct Hx; split. }
  exists x'. split_and!; [|done|done].
  cbn [length]. by rewrite (revert_n_cons _ _ _ _ HJ), (M_bind_run _ _ _ _ _ Hr).
Qed.

(** *** The primitive changes *)

(** [sto] and [initial_of] of an updated state. *)
Lemma initial_of_put st a o b :
  initial_of (set_objects (insert a o) st) b
  = if decide (b = a) then obj_initial o else initial_of st b.
Proof.
  unfold initial_of; cbn. destruct (decide (b = a)) as [->|].
  - by rewrite lookup_insert_eq.
  - by rewrite lookup_insert_ne.
Qed.

(** A change of one object that keeps its initial account changes neither
    what loads nor the original values. *)
Lemma le_object_change st st1 x :
  le st1 x →
  db st1 = db st → storage st1 = storage st → incarnations st1 = incarnations st →
  new_code st ⊆ new_code st1 → self_destructs st1 = self_destructs st →
  logs st1 = logs st → touched st1 = touched st →
  accessed_addresses st1 = accessed_addresses st →
  accessed_storage_keys st1 = accessed_storage_keys st →
  (∀ b, initial_of st1 b = initial_of st b) →
  ∀ x', db x' = db x → storage x' = storage x → incarnations x' = incarnations x →
  new_code x' = new_code x → self_destructs x' = self_destructs x →
  logs x' = logs x → touched x' = touched x →
  accessed_addresses x' = accessed_addresses x →
  accessed_storage_keys x' = accessed_storage_keys x →
  le_objects st x' → le st x'.
Proof.
  intros H D1 S1 I1 C1 SD1 L1 T1 A1 K1 Hinit x' D2 S2 I2 C2 SD2 L2 T2 A2 K2 Ho.
  destruct H as [Hdb Hobj Hcom Hcur Hinc Hcode Hsd Hlogs Htou Haddr Hkeys].
  assert (∀ b k v, loads st1 b k v ↔ loads st b k v) as Hl.
  { intros b k v. unfold loads. by rewrite Hinit, I1, D1. }
  assert (∀ b, sto st1 b = sto st b) as Hs1 by (intros b; unfold sto; by rewrite S1).
  assert (∀ b, sto x' b = sto x b) as Hs2 by (intros b; unfold sto; by rewrite S2).
  assert (∀ b k v, orig st1 b k v ↔ orig st b k v) as Hor.
  { intros b k v. unfold orig. rewrite Hs1, Hinit, I1. pose proof (Hl b k v). case_match; tauto. }
  split; try congruence; try exact Ho.
  - intros b k. specialize (Hcom b k). rewrite Hs1 in Hcom. rewrite Hs2.
    destruct (committed _ !! k); [done|].
    destruct Hcom as [?|(v & ? & ?)]; [by left|right; exists v; by rewrite <- Hl].
  - intros b k. specialize (Hcur b k). rewrite Hs1 in Hcur. rewrite Hs2.
    destruct (current _ !! k); [done|].
    destruct Hcur as [?|(v & ? & ?)]; [by left|right; exists v; by rewrite <- Hor].
  - rewrite C2. by etrans.
Qed.

Lemma undoable_update st a o o' :
  objects st !! a = Some o → obj_initial o' = obj_initial o →
  undoable st (set_objects (insert a o') (push (DUpdate a o) st)).
Proof.
  intros Ho Hi. eapply undoable_one; [done|]. intros x Hx.
  eexists; split; [done|]. split; [|done].
  eapply (le_object_change _ _ _ Hx); try done.
  - intros b. rewrite initial_of_put. case_decide; [subst|done].
    unfold initial_of. by rewrite Ho.
  - intros b. pose proof (le_obj _ _ Hx b) as Hb. cbn in *.
    destruct (decide (a = b)) as [->|].
    + by rewrite Ho, lookup_insert_eq.
    + by rewrite lookup_insert_ne in Hb |- *.
Qed.

Lemma undoable_create st a o' :
  objects st !! a = None → read_account (db st) a = Ok None → obj_initial o' = None →
  undoable st (set_objects (insert a o') (push (DCreate a) st)).
Proof.
  intros Ho Hr Hi. eapply undoable_one; [done|]. intros x Hx.
  eexists; split; [done|]. split; [|done].
  eapply (le_object_change _ _ _ Hx); try done.
  - intros b. rewrite initial_of_put. case_decide; [subst|done].
    unfold initial_of. by rewrite Ho, Hr.
  - intros b. pose proof (le_obj _ _ Hx b) as Hb. cbn in *.
    destruct (decide (a = b)) as [->|].
    + rewrite Ho. left. by rewrite lookup_delete_eq.
    + rewrite lookup_insert_ne in Hb by done. by rewrite lookup_delete_ne.
Qed.

Lemma undoable_balance st a o c b' :
  objects st !! a = Some o → obj_current o = Some c →
  undoable st (set_objects
    (insert a (mkObject (obj_initial o) (Some (set_balance_field b' c))))
    (push (DUpdateBalance a (balance c)) st)).
Proof.
  intros Ho Hc. eapply undoable_one; [done|]. intros x Hx.
  pose proof (le_obj _ _ Hx a) as Ha. cbn in Ha. rewrite lookup_insert_eq in Ha.
  eexists; split.
  { cbn [revert]. unfold gets, mbind, M_bind. rewrite Ha. done. }
  split; [|done]. destruct c as [n b h]; cbn.
  eapply (le_object_change _ _ _ Hx); try done.
  - intros b0. rewrite initial_of_put. case_decide; [subst|done].
    unfold initial_of. by rewrite Ho.
  - intros b0. pose proof (le_obj _ _ Hx b0) as Hb. cbn in *.
    destruct (decide (a = b0)) as [->|].
    + rewrite Ho, lookup_insert_eq. destruct o; cbn in *. by subst.
    + by rewrite lookup_insert_ne in Hb |- *.
Qed.

(** Changes to the substate. *)
Lemma undoable_touch st a :
  a ∉ touched st → a ≠ RIPEMD_ADDRESS →
  undoable st (push (DTouch a) (set_touched (union {[a]}) st)).
Proof.
  intros Ha Hr. eapply undoable_one; [done|]. intros x Hx.
  eexists; split; [done|]. split; [|done].
  destruct Hx; split; try done. cbn in *. set_solver.
Qed.

Lemma undoable_selfdestruct st a :
  a ∉ self_destructs st →
  undoable st (push (DSelfdestruct a) (set_self_destructs (union {[a]}) st)).
Proof.
  intros Ha. eapply undoable_one; [done|]. intros x Hx.
  eexists; split; [done|]. split; [|done].
  destruct Hx as [? ? ? ? ? ? Hsd]; split; try done. cbn in *. rewrite Hsd. set_solver.
Qed.

Lemma undoable_access_account st a :
  a ∉ accessed_addresses st →
  undoable st (push (DAccountAccess a) (set_accessed_addresses (union {[a]}) st)).
Proof.
  intros Ha. eapply undoable_one; [done|]. intros x Hx.
  eexists; split; [done|]. split; [|done].
  destruct Hx as [? ? ? ? ? ? ? ? ? Hac]; split; try done. cbn in *. rewrite Hac. set_solver.
Qed.

Lemma undoable_access_storage st a k :
  k ∉ default ∅ (accessed_storage_keys st !! a) →
  undoable st (push (DStorageAccess a k)
    (set_accessed_storage_keys
       (insert a ({[k]} ∪ default ∅ (accessed_storage_keys st !! a))) st)).
Proof.
  intros Hk. eapply undoable_one; [done|]. intros x Hx.
  eexists; split; [done|]. split; [|done].
  destruct Hx as [? ? ? ? ? ? ? ? ? ? Hkeys]; split; try done. cbn in *.
  intros b. specialize (Hkeys b). destruct (decide (a = b)) as [->|].
  - rewrite lookup_insert_eq in Hkeys |- *. cbn in *. rewrite Hkeys. set_solver.
  - by rewrite lookup_insert_ne in Hkeys |- *.
Qed.

(** Changes to the storage. *)
Lemma sto_insert st a b s :
  sto (set_storage_map (insert a s) st) b = if decide (b = a) then s else sto st b.
Proof.
  unfold sto; cbn. case_decide; subst; [by rewrite lookup_insert_eq|].
  by rewrite lookup_insert_ne.
Qed.

(** The value a slot has now. *)
Definition now st a k v : Prop :=
  match current (sto st a) !! k with
  | Some v' => v = v'
  | None => orig st a k v
  end.

Definition write_current a k v : IntraBlockState S → IntraBlockState S :=
  set_storage_map (fun m =>
    let s := default default_storage (m !! a) in
    <[a := {| committed := committed s; current := <[k := v]> (current s) |}]> m).

Lemma sto_write_current st a k v b :
  sto (write_current a k v st) b
  = if decide (b = a)
    then {| committed := committed (sto st a); current := <[k := v]> (current (sto st a)) |}
    else sto st b.
Proof. unfold write_current, sto. cbn. apply sto_insert. Qed.

Lemma orig_write_current st a k v b k' v' :
  orig (write_current a k v st) b k' v' ↔ orig st b k' v'.
Proof. unfold orig. rewrite sto_write_current. case_decide; subst; done. Qed.

Lemma undoable_storage_change st a k v previous :
  now st a k previous →
  undoable st (push (DStorageChange a k previous) (write_current a k v st)).
Proof.
  intros Hnow. eapply undoable_one; [done|]. intros x Hx.
  exists (write_current a k previous x). split; [done|]. split; [|done].
  destruct Hx as [? ? Hcom Hcur]; split; try done.
  - intros b k'. specialize (Hcom b k'). rewrite sto_write_current.
    unfold sto at 1 in Hcom. cbn [push set_journal storage] in Hcom.
    fold (sto (write_current a k v st) b) in Hcom.
    rewrite sto_write_current in Hcom. case_decide; subst; done.
  - intros b k'. specialize (Hcur b k').
    unfold sto at 1 in Hcur. cbn [push set_journal storage] in Hcur.
    fold (sto (write_current a k v st) b) in Hcur.
    rewrite sto_write_current in Hcur |- *.
    assert (∀ w, orig (push (DStorageChange a k previous) (write_current a k v st)) b k' w
                 → orig st b k' w) as Hor.
    { intros w. apply orig_write_current. }
    case_decide as Hb; subst; cbn in *; [|destruct (current _ !! k'); naive_solver].
    destruct (decide (k = k')) as [->|].
    + rewrite lookup_insert_eq in *. unfold now in Hnow.
      destruct (current (sto st a) !! k'); [congruence|eauto].
    + rewrite lookup_insert_ne in * by done.
      destruct (current (sto st a) !! k'); naive_solver.
Qed.

Lemma revert_incarnation x a n :
  incarnations x !! a = Some n →
  revert (DIncarnation a) x
  = Ok (tt, set_incarnations (fun m =>
              if u64_sub n 1 =? 0 then delete a m else <[a := u64_sub n 1]> m) x).
Proof.
  intros H. unfold revert. rewrite (M_bind_run _ _ _ _ _ eq_refl). rewrite H. done.
Qed.

(** The last part of [create_contract]: a new incarnation, and the storage
    set aside. *)
Lemma undoable_new_incarnation st a :
  (∀ n, incarnations st !! a = Some n → 1 ≤ n < 2 ^ 64) →
  let st1 := push (DIncarnation a) (set_incarnations
      (fun m => <[a := u64_add (default 0 (m !! a)) 1]> m) st) in
  undoable st
    match storage st !! a with
    | Some removed => push (DStorageWipe a removed) (set_storage_map (delete a) st1)
    | None => push (DStorageCreate a) st1
    end.
Proof.
  intros Hwf st1.
  set (d := match storage st !! a with
            | Some removed => DStorageWipe a removed | None => DStorageCreate a end).
  set (st2 := match storage st !! a with
            | Some removed => push (DStorageWipe a removed) (set_storage_map (delete a) st1)
            | None => push (DStorageCreate a) st1 end).
  assert (st2 = push d (set_storage_map (delete a) st1)) as Hst2.
  { unfold st2, d. destruct (storage st !! a) eqn:Hs; [done|].
    unfold set_storage_map; cbn. by rewrite delete_id. }
  rewrite Hst2. exists [d; DIncarnation a]. split; [done|].
  intros x J Hx HJ. clear st2 Hst2.
  assert (∀ y, revert d y
            = Ok (tt, set_storage_map (partial_alter (fun _ => storage st !! a) a) y)) as Hr1.
  { intros y. unfold d. by destruct (storage st !! a). }
  pose proof (le_inc _ _ Hx) as Hinc. cbn in Hinc.
  set (n := u64_add (default 0 (incarnations st !! a)) 1).
  assert (incarnations x !! a = Some n) as Hxa.
  { by rewrite Hinc, lookup_insert_eq. }
  assert (u64_sub n 1 = default 0 (incarnations st !! a)) as Hn.
  { apply u64_add_sub. destruct (incarnations st !! a) as [m|] eqn:Hm; cbn; [|done].
    specialize (Hwf m eq_refl). word_lia. }
  set (x' := set_journal (fun _ => J) (set_incarnations (fun m =>
           if u64_sub n 1 =? 0 then delete a m else <[a := u64_sub n 1]> m)
           (set_storage_map (partial_alter (fun _ => storage st !! a) a) x))).
  assert (∀ b, sto x' b = if decide (b = a) then sto st a else sto x b) as Hsx.
  { intros b. unfold sto, x'; cbn. case_decide; subst; [by rewrite lookup_partial_alter_eq|].
    by rewrite lookup_partial_alter_ne. }
  exists x'.
  split_and!; [| |done].
  { pose proof (revert_incarnation (set_journal (fun _ => J) (set_storage_map
      (partial_alter (fun _ => storage st !! a) a) (set_journal (fun _ => DIncarnation a :: J) x)))
      a n Hxa) as Hr2.
    cbn [length]. rewrite (revert_n_cons _ _ _ _ HJ), (M_bind_run _ _ _ _ _ (Hr1 _)).
    erewrite revert_n_cons by done.
    by rewrite (M_bind_run _ _ _ _ _ Hr2). }
  destruct Hx as [Hdb Hobj Hcom Hcur _ Hcode Hsd Hlogs Htou Haddr Hkeys].
  assert (∀ b, b ≠ a → ∀ k v, loads (push d (set_storage_map (delete a) st1)) b k v
            → loads st b k v) as Hl.
  { intros b Hb k v. unfold loads; cbn. by rewrite lookup_insert_ne. }
  assert (∀ b, b ≠ a → sto (push d (set_storage_map (delete a) st1)) b = sto st b) as Hst.
  { intros b Hb. unfold sto; cbn. by rewrite lookup_delete_ne. }
  assert (∀ b, b ≠ a → ∀ k v, orig (push d (set_storage_map (delete a) st1)) b k v
            → orig st b k v) as Hor.
  { intros b Hb k v. specialize (Hl b Hb k v). unfold orig. rewrite Hst by done. cbn.
    rewrite lookup_insert_ne by done. unfold initial_of in *; cbn in *.
    case_match; tauto. }
  split; try done.
  - intros b k. rewrite Hsx. case_decide as Hb; subst; [case_match; auto|].
    specialize (Hcom b k). rewrite Hst in Hcom by done. specialize (Hl b Hb k).
    destruct (committed (sto st b) !! k); [done|].
    destruct Hcom as [?|(v & ? & ?)]; [by left|right; exists v; split; [by apply Hl|done]].
  - intros b k. rewrite Hsx. case_decide as Hb; subst; [case_match; auto|].
    specialize (Hcur b k). rewrite Hst in Hcur by done. specialize (Hor b Hb k).
    destruct (current (sto st b) !! k); [done|].
    destruct Hcur as [?|(v & ? & ?)]; [by left|right; exists v; split; [by apply Hor|done]].
  - cbn. rewrite Hinc, Hn. apply map_eq. intros b.
    destruct (decide (a = b)) as [<-|Hb]; zcases;
      rewrite ?lookup_delete_eq, ?lookup_insert_eq, ?lookup_delete_ne, ?lookup_insert_ne by done;
      [| |done|done]; destruct (incarnations st !! a) as [m|] eqn:Hm; cbn in *; try done.
    specialize (Hwf m eq_refl). lia.
Qed.

(** ** The operations *)

Lemma get_object_spec st a o st1 :
  get_object a st = Ok (o, st1) →
  le st st1 ∧ journal st1 = journal st ∧ objects st1 !! a = o
  ∧ (o = None → read_account (db st) a = Ok None ∧ st1 = st).
Proof.
  unfold get_object. intros H. m_inv.
  destruct (objects st !! a) as [obj|] eqn:Ho.
  { m_inv. by split_and!. }
  m_inv. destruct a0 as [acc|]; m_inv; [|by split_and!].
  split_and!; [|done|by cbn; rewrite lookup_insert_eq|done].
  assert (∀ b, initial_of (set_objects (insert a (mkObject (Some acc) (Some acc))) st) b
               = initial_of st b) as Hi.
  { intros b. rewrite initial_of_put. case_decide; [subst|done].
    unfold initial_of. by rewrite Ho, Hr. }
  split; try done.
  - intros b. cbn. destruct (decide (a = b)) as [<-|].
    + rewrite Ho, lookup_insert_eq. eauto.
    + rewrite lookup_insert_ne by done. case_match; auto.
  - intros b k. fold (sto st b). unfold sto; cbn. fold (sto st b). case_match; auto.
  - intros b k. unfold sto; cbn. fold (sto st b). case_match; auto.
  - set_solver.
Qed.

Lemma get_object_undoable st a o st1 : get_object a st = Ok (o, st1) → undoable st st1.
Proof. intros (H1 & H2 & _)%get_object_spec. by apply undoable_cached. Qed.

Lemma ensure_object_spec st a u st1 :
  ensure_object a st = Ok (u, st1) →
  undoable st st1 ∧ ∃ o c, objects st1 !! a = Some o ∧ obj_current o = Some c.
Proof.
  unfold ensure_object. intros H. m_inv.
  apply get_object_spec in Hm as Hg. destruct Hg as (Hle & Hj & Ho & Hnone).
  pose proof (undoable_cached _ _ Hle Hj) as Hu. destruct a0 as [obj|].
  - destruct (obj_current obj) as [c|] eqn:Hc; m_inv; [by eauto 10|].
    split; [|cbn; rewrite lookup_insert_eq; eauto].
    etrans; [exact Hu|]. by apply undoable_update.
  - destruct (Hnone eq_refl) as [Hr ->]. m_inv.
    split; [|cbn; rewrite lookup_insert_eq; eauto]. by apply undoable_create.
Qed.

Lemma get_or_create_object_spec st a o st1 :
  get_or_create_object a st = Ok (o, st1) →
  undoable st st1 ∧ objects st1 !! a = Some o ∧ ∃ c, obj_current o = Some c.
Proof.
  unfold get_or_create_object. intros H. m_inv.
  apply ensure_object_spec in Hm as (Hu & o' & c & Ho & Hc).
  split; [done|]. split; [done|]. rewrite Ho in Hr. simplify_eq. eauto.
Qed.

Lemma touch_undoable st a u st1 : touch a st = Ok (u, st1) → undoable st st1.
Proof.
  unfold touch. intros H. m_inv. destruct (decide (a ∈ touched st)) as [Hin|Hin].
  - rewrite bool_decide_eq_false_2 in H by tauto. cbn [andb] in H. m_inv. apply undoable_cached; [|done].
    pose proof (le_refl st) as [? ? ? ? ? ? ? ? ?]. split; try done. cbn. set_solver.
  - rewrite bool_decide_eq_true_2 in H by done. cbn [andb] in H.
    destruct (Z.eqb_spec a RIPEMD_ADDRESS) as [->|]; cbn [negb] in H; m_inv;
      [|by apply undoable_touch].
    apply undoable_cached; [|done]. pose proof (le_refl st) as [? ? ? ? ? ? ? ? ?].
    split; try done. cbn. set_solver.
Qed.

Lemma update_balance_undoable st a f u st1 :
  update_balance a f st = Ok (u, st1) → undoable st st1.
Proof.
  unfold update_balance. intros H. m_inv.
  apply get_or_create_object_spec in Hm as (Hu & Ho & _).
  apply touch_undoable in H. etrans; [exact Hu|]. etrans; [|exact H].
  by apply undoable_balance.
Qed.

Lemma set_nonce_undoable st a n u st1 : set_nonce a n st = Ok (u, st1) → undoable st st1.
Proof.
  unfold set_nonce. intros H. m_inv.
  apply get_or_create_object_spec in Hm as (Hu & Ho & _).
  etrans; [exact Hu|]. by apply undoable_update.
Qed.

Lemma set_code_undoable st a c u st1 : set_code a c st = Ok (u, st1) → undoable st st1.
Proof.
  unfold set_code. intros H. m_inv.
  apply get_or_create_object_spec in Hm as (Hu & Ho & _).
  etrans; [exact Hu|]. etrans; [exact (undoable_update _ a a0
    (mkObject (obj_initial a0) (Some (set_code_hash_field (keccak256 c) a2))) Ho eq_refl)|].
  apply undoable_cached; [|done].
  match goal with |- le ?s _ => pose proof (le_refl s) as [] end.
  split; try done. cbn. case_match; [done|]. by apply insert_subseteq.
Qed.

Lemma get_code_undoable st a c st1 : get_code a st = Ok (c, st1) → undoable st st1.
Proof.
  unfold get_code. intros H. m_inv. apply get_object_undoable in Hm as Hu.
  destruct a0 as [o|]; [|by m_inv]. destruct (obj_current o); [|by m_inv].
  destruct (negb _); [|by m_inv]. m_inv. case_match; [by m_inv|]. m_inv.
  case_match; m_inv; [done|]. etrans; [exact Hu|]. apply undoable_cached; [|done].
  match goal with |- le ?s _ => pose proof (le_refl s) as [] end. by split.
Qed.

(** *** Storage *)

Lemma le_same_storage st st1 (f : gmap Z Storage → gmap Z Storage) :
  st1 = set_storage_map f st → (∀ b, sto st1 b = sto st b) → le st st1.
Proof.
  intros -> Hs. pose proof (le_refl st) as [? ? ? ? ? ? ? ? ?]. split; try done.
  - intros b k. rewrite Hs. case_match; auto.
  - intros b k. rewrite Hs. case_match; auto.
Qed.

Lemma get_storage_spec st a k original v st1 :
  get_storage a k original st = Ok (v, st1) →
  le st st1 ∧ journal st1 = journal st
  ∧ (∀ o c, objects st1 !! a = Some o → obj_current o = Some c →
     original = false → now st1 a k v).
Proof.
  unfold get_storage. intros H. m_inv.
  apply get_object_spec in Hm as (Hle & Hj & Ho & Hnone).
  destruct a0 as [obj|]; [|m_inv; split_and!; try done; intros; simplify_eq; congruence].
  destruct (obj_current obj) as [cur|] eqn:Hcur;
    [|m_inv; split_and!; try done; intros; congruence].
  m_inv. rename st0 into s0.
  set (s1 := set_storage_map (fun m => <[a:=default default_storage (m !! a)]> m) s0) in *.
  assert (∀ b, sto s1 b = sto s0 b) as Hs1.
  { intros b. unfold s1, sto; cbn. destruct (decide (a = b)) as [<-|].
    - by rewrite lookup_insert_eq. - by rewrite lookup_insert_ne. }
  assert (le st s1) as Hle1.
  { etrans; [exact Hle|]. by eapply le_same_storage. }
  assert (default default_storage (storage s1 !! a) = sto s1 a) as Hsto by done.
  rewrite Hsto in H.
  assert (initial_of s1 a = obj_initial obj) as Hinit.
  { unfold initial_of. cbn. by rewrite Ho. }
  destruct (if original then None else current (sto s1 a) !! k) as [w|] eqn:Hw.
  { m_inv. split_and!; [done..|]. intros o c ? ? ->. unfold now. by rewrite Hw. }
  assert (original = false → ∀ w, orig s1 a k w → now s1 a k w) as Hnow.
  { intros -> w Hor. unfold now. by rewrite Hw. }
  destruct (committed (sto s1 a) !! k) as [cv|] eqn:Hcom.
  { m_inv. split_and!; [done..|]. intros o c ? ? Hf. apply Hnow; [done|].
    unfold orig. by rewrite Hcom. }
  m_inv.
  assert (obj_initial obj = None ∨ is_Some (incarnations s1 !! a) → v = 0 →
          ∀ o c, objects s1 !! a = Some o → obj_current o = Some c →
          original = false → now s1 a k v) as Hzero.
  { intros Hor -> o c ? ? Hf. apply Hnow; [done|]. unfold orig. rewrite Hcom, Hinit.
    by left. }
  destruct (obj_initial obj) as [acc|] eqn:Hi;
    [|m_inv; split_and!; [done..|apply Hzero; auto]].
  change (incarnations s1) with (incarnations s0) in *.
  destruct (incarnations s0 !! a) eqn:Hinc; [m_inv; split_and!; [done..|apply Hzero; eauto]|].
  m_inv.
  match goal with |- le st ?s ∧ _ => set (s2 := s) end.
  assert (∀ b, sto s2 b = if decide (b = a) then mkStorage
     (<[k:=mkCommitted a0 a0]> (committed (sto s1 a))) (current (sto s1 a))
     else sto s1 b) as Hs2.
  { intros b. unfold s2. by apply sto_insert. }
  assert (loads s1 a k a0) as Hl by (split_and!; [rewrite Hinit|..]; done).
  split_and!; [|done|].
  - etrans; [exact Hle1|]. pose proof (le_refl s1) as [? ? ? ? ? ? ? ? ?]. split; try done.
    + intros b k'. rewrite Hs2. case_decide; subst; [|destruct (committed (sto s1 b) !! k'); auto]. cbn.
      destruct (decide (k = k')) as [<-|].
      * rewrite Hcom, lookup_insert_eq. right. by exists a0.
      * rewrite lookup_insert_ne by done. destruct (committed (sto s1 a) !! k'); auto.
    + intros b k'. rewrite Hs2. case_decide; subst; cbn; destruct (current _ !! k'); auto.
  - intros o c ? ? ->. unfold now. rewrite Hs2. case_decide; [|done]. cbn. rewrite Hw.
    unfold orig. rewrite Hs2. case_decide; [|done]. cbn. by rewrite lookup_insert_eq.
Qed.

Lemma get_storage_undoable st a k b v st1 :
  get_storage a k b st = Ok (v, st1) → undoable st st1.
Proof. intros (? & ? & _)%get_storage_spec. by apply undoable_cached. Qed.

Lemma get_storage_objects st a k b v st1 :
  get_storage a k b st = Ok (v, st1) →
  ∃ o s, get_object a st = Ok (o, s) ∧ objects st1 !! a = o.
Proof.
  unfold get_storage. intros H. m_inv. exists a0, st0. split; [done|].
  apply get_object_spec in Hm as (_ & _ & Ho & _).
  destruct a0 as [obj|]; [|by m_inv]. destruct (obj_current obj); [|by m_inv]. m_inv.
  destruct (if b then None else _); [by m_inv|].
  destruct (committed _ !! k); [by m_inv|]. m_inv.
  destruct (obj_initial obj); [|by m_inv].
  destruct (incarnations _ !! a); [by m_inv|]. by m_inv.
Qed.

Lemma exists_inv st a s :
  exists_ a st = Ok (true, s) →
  ∃ o c, get_object a st = Ok (Some o, s) ∧ obj_current o = Some c.
Proof.
  unfold exists_. intros H. apply M_bind_inv in H as (o & s' & Hg & H).
  unfold mret, M_ret in H. injection H as Hb <-.
  destruct o as [o|]; [|done]. destruct (obj_current o) eqn:?; [eauto|done].
Qed.

Lemma set_storage_undoable st a k v u st1 :
  (∃ s, exists_ a st = Ok (true, s)) →
  set_storage a k v st = Ok (u, st1) → undoable st st1.
Proof.
  unfold set_storage, get_current_storage. intros [s (ob & c & Hob & Hc)%exists_inv] H. m_inv.
  apply get_storage_objects in Hm as Hobj. destruct Hobj as (o & s' & Hg & Ho).
  apply get_storage_spec in Hm as (Hle & Hj & Hnow).
  pose proof (undoable_cached _ _ Hle Hj) as Hu.
  destruct (a0 =? v); [by m_inv|]. unfold insert_current in H. m_inv.
  rewrite Hg in Hob. injection Hob as -> ->.
  etrans; [exact Hu|]. apply undoable_storage_change. by eapply Hnow.
Qed.

Lemma create_contract_undoable st a u st1 :
  (∀ n, incarnations st !! a = Some n → 1 ≤ n < 2 ^ 64) →
  create_contract a st = Ok (u, st1) → undoable st st1.
Proof.
  unfold create_contract. intros Hwf H. m_inv.
  apply get_object_spec in Hm as (Hle & Hj & Ho & Hnone). rename st0 into s.
  etrans; [by apply undoable_cached|].
  set (cur := mkAccount _ _ _) in H.
  set (ini := match a0 with Some prev => obj_initial prev | None => None end) in H.
  set (d := match a0 with Some prev => DUpdate a prev | None => DCreate a end) in H.
  set (s2 := set_objects (insert a (mkObject ini (Some cur))) (push d s)).
  assert (undoable s s2) as Hu.
  { unfold s2, d, ini. destruct a0 as [prev|].
    - by apply undoable_update.
    - destruct (Hnone eq_refl) as [Hr Hs]. subst s. by apply undoable_create. }
  etrans; [exact Hu|].
  rewrite <- (le_inc _ _ Hle) in Hwf.
  pose proof (undoable_new_incarnation s2 a Hwf) as Hu2.
  change (storage s2) with (storage s) in Hu2. cbn in H.
  destruct (storage s !! a); m_inv; exact Hu2.
Qed.

(** ** Bracketed executions *)

Inductive op : Type :=
| OpExists (a : Z) | OpIsDead (a : Z) | OpCreateContract (a : Z)
| OpRecordSelfdestruct (a : Z)
| OpGetBalance (a : Z) | OpSetBalance (a v : Z) | OpAddToBalance (a v : Z)
| OpSubtractFromBalance (a v : Z) | OpTouch (a : Z)
| OpGetNonce (a : Z) | OpSetNonce (a n : Z)
| OpGetCode (a : Z) | OpGetCodeHash (a : Z) | OpSetCode (a : Z) (code : bytes)
| OpAccessAccount (a : Z) | OpAccessStorage (a k : Z)
| OpGetCurrentStorage (a k : Z) | OpGetOriginalStorage (a k : Z)
| OpSetStorage (a k v : Z)
| OpAddLog (l : Log) | OpAddRefund (n : Z) | OpSubtractRefund (n : Z).

Definition ignore {A} (m : M S A) : M S unit := _ ← m; mret tt.

Definition run_op (o : op) : M S unit :=
  match o with
  | OpExists a => ignore (exists_ a)
  | OpIsDead a => ignore (is_dead a)
  | OpCreateContract a => create_contract a
  | OpRecordSelfdestruct a => record_selfdestruct a
  | OpGetBalance a => ignore (get_balance a)
  | OpSetBalance a v => set_balance a v
  | OpAddToBalance a v => add_to_balance a v
  | OpSubtractFromBalance a v => subtract_from_balance a v
  | OpTouch a => touch a
  | OpGetNonce a => ignore (get_nonce a)
  | OpSetNonce a n => set_nonce a n
  | OpGetCode a => ignore (get_code a)
  | OpGetCodeHash a => ignore (get_code_hash a)
  | OpSetCode a code => set_code a code
  | OpAccessAccount a => ignore (access_account a)
  | OpAccessStorage a k => ignore (access_storage a k)
  | OpGetCurrentStorage a k => ignore (get_current_storage a k)
  | OpGetOriginalStorage a k => ignore (get_original_storage a k)
  | OpSetStorage a k v => set_storage a k v
  | OpAddLog l => add_log l
  | OpAddRefund n => add_refund n
  | OpSubtractRefund n => subtract_refund n
  end.

(** What the callers guarantee: storage is written in accounts that exist
    (the EVM writes in the contract it runs), and the count of an
    account's incarnations has not wrapped around 64 bits. *)
Definition op_ok (o : op) st : Prop :=
  match o with
  | OpCreateContract a => ∀ n, incarnations st !! a = Some n → 1 ≤ n < 2 ^ 64
  | OpSetStorage a _ _ => ∃ s, exists_ a st = Ok (true, s)
  | _ => True
  end.

Lemma run_op_undoable o st u st1 : op_ok o st → run_op o st = Ok (u, st1) → undoable st st1.
Proof.
  assert (∀ s s', le s s' → journal s' = journal s → undoable s s') as Hc by apply undoable_cached.
  destruct o; cbn [op_ok run_op]; intros Hok H;
    unfold ignore, exists_, is_dead, get_balance, get_nonce, get_code_hash,
      record_selfdestruct, set_balance, add_to_balance, subtract_from_balance,
      access_account, access_storage, get_current_storage, get_original_storage,
      add_log, add_refund, subtract_refund in H;
    try (by m_inv; eapply get_object_undoable);
    try (by eapply update_balance_undoable);
    try (by m_inv; eapply get_storage_undoable).
  - by eapply create_contract_undoable.
  - m_inv. case_decide; m_inv; [done|by apply undoable_selfdestruct].
  - by eapply touch_undoable.
  - by eapply set_nonce_undoable.
  - m_inv. by eapply get_code_undoable.
  - by eapply set_code_undoable.
  - m_inv. case_decide; m_inv; [done|by apply undoable_access_account].
  - m_inv. case_decide; m_inv; [done|by apply undoable_access_storage].
  - by eapply set_storage_undoable.
  - m_inv. apply Hc; [|done]. pose proof (le_refl st) as [? ? ? ? ? ? ? ? ?].
    split; try done. cbn. by apply prefix_app_r.
  - m_inv. apply Hc; [|done]. by pose proof (le_refl st) as [? ? ? ? ? ? ? ? ?]; split.
  - m_inv. apply Hc; [|done]. by pose proof (le_refl st) as [? ? ? ? ? ? ? ? ?]; split.
Qed.

(** An execution that starts at a snapshot: operations, and nested
    executions that are reverted to the snapshot they started from. *)
Inductive exec : IntraBlockState S → IntraBlockState S → Prop :=
| exec_done st : exec st st
| exec_op o st st1 st2 :
    op_ok o st → run_op o st = Ok (tt, st1) → exec st1 st2 → exec st st2
| exec_revert st st1 st2 st3 :
    exec st st1 → revert_to_snapshot (take_snapshot st) st1 = Ok (tt, st2) →
    exec st2 st3 → exec st st3.

Lemma revert_keeps d x u x' :
  revert d x = Ok (u, x') → logs x' = logs x.
Proof. destruct d; cbn [revert]; intros H; unfold insert_current in H; m_inv; done. Qed.

Lemma revert_n_logs n x u x' : revert_n n x = Ok (u, x') → logs x' = logs x.
Proof.
  revert x. induction n as [|n IH]; intros x H; [by injection H as <- <-|].
  destruct (journal x) as [|d J] eqn:Hj.
  - cbn [revert_n] in H. m_inv. by rewrite Hj in H.
  - rewrite (revert_n_cons _ _ _ _ Hj) in H. apply M_bind_inv in H as (? & s & Hd & H).
    apply revert_keeps in Hd. apply IH in H. by rewrite H, Hd.
Qed.

Lemma undoable_revert st st' :
  undoable st st' →
  ∃ st'', revert_to_snapshot (take_snapshot st) st' = Ok (tt, st'')
    ∧ le st st'' ∧ journal st'' = journal st ∧ logs st'' = logs st ∧ refund st'' = refund st.
Proof.
  intros (ds & Hj & H). destruct (H st' (journal st) (reflexivity st') Hj)
    as (x' & Hr & Hle & Hj'). apply revert_n_logs in Hr as Hlogs.
  unfold revert_to_snapshot, take_snapshot; cbn [journal_size log_size snap_refund].
  eexists. split; [|split].
  - rewrite (M_bind_run _ _ _ _ _ eq_refl), Hj, length_app.
    rewrite (proj2 (Nat.leb_le _ _)) by lia. rewrite Nat.add_sub.
    by rewrite (M_bind_run _ _ _ _ _ Hr).
  - destruct Hle as [? ? ? ? ? ? ? Hp]; split; try done. cbn.
    destruct Hp as [l ->]. by rewrite take_app_length.
  - split_and!; try done. cbn. destruct Hle as [? ? ? ? ? ? ? Hp].
    destruct Hp as [l ->]. by rewrite take_app_length.
Qed.

Lemma exec_undoable st st' : exec st st' → undoable st st'.
Proof.
  induction 1 as [st|o st st1 st2 Hok Hrun _ IH|st st1 st2 st3 _ IH1 Hrev _ IH2].
  - done.
  - etrans; [by eapply run_op_undoable|done].
  - destruct (undoable_revert _ _ IH1) as (s & Hs & Hle & Hj & _).
    rewrite Hs in Hrev. injection Hrev as <-. etrans; [by apply undoable_cached|done].
Qed.

(** ** Caches are not observable *)

Lemma get_object_frame a st o s :
  get_object a st = Ok (o, s) →
  storage s = storage st ∧ incarnations s = incarnations st ∧ db s = db st.
Proof.
  unfold get_object. intros H. m_inv. destruct (objects st !! a); m_inv; [done|].
  destruct a0; by m_inv.
Qed.

Lemma get_object_le y x a o y1 :
  le y x → get_object a y = Ok (o, y1) → ∃ x1, get_object a x = Ok (o, x1).
Proof.
  intros Hle H. pose proof (le_obj _ _ Hle a) as Ho.
  unfold get_object in *. rewrite (M_bind_run _ _ _ _ _ eq_refl). m_inv.
  destruct (objects y !! a) as [ob|].
  { rewrite Ho. m_inv. eexists. reflexivity. }
  m_inv. destruct Ho as [->|(acc & Hr2 & ->)].
  - unfold from_db, lift, mbind, M_bind. rewrite (le_db _ _ Hle), Hr.
    destruct a0; m_inv; eexists; reflexivity.
  - rewrite Hr in Hr2. injection Hr2 as ->. m_inv. eexists. reflexivity.
Qed.

(** What [get_storage] answers, without the caches it fills. *)
Definition original_value st a k (obj : Object) : result Z :=
  match committed (sto st a) !! k with
  | Some c => Ok (cv_original c)
  | None =>
      match obj_initial obj, incarnations st !! a with
      | Some _, None => read_storage (db st) a k
      | _, _ => Ok 0
      end
  end.

Definition storage_value st a k (original : bool) (o : option Object) : result Z :=
  match o with
  | Some obj =>
      match obj_current obj with
      | Some _ =>
          match (if original then None else current (sto st a) !! k) with
          | Some v => Ok v
          | None => original_value st a k obj
          end
      | None => Ok 0
      end
  | None => Ok 0
  end.

Lemma get_storage_value st a k b o s v :
  get_object a st = Ok (o, s) →
  (∃ st1, get_storage a k b st = Ok (v, st1)) ↔ storage_value st a k b o = Ok v.
Proof.
  intros Hg. destruct (get_object_frame _ _ _ _ Hg) as (Hs & Hi & Hd).
  unfold get_storage. rewrite (M_bind_run _ _ _ _ _ Hg).
  unfold storage_value, original_value, sto.
  destruct o as [obj|]; [|unfold mret, M_ret; naive_solver].
  destruct (obj_current obj) as [c|]; [|unfold mret, M_ret; naive_solver].
  rewrite (M_bind_run _ _ _ _ _ eq_refl), (M_bind_run _ _ _ _ _ eq_refl). cbn.
  rewrite lookup_insert_eq, Hs. cbn.
  destruct (if b then None else _); [unfold mret, M_ret; naive_solver|].
  destruct (committed _ !! k); [unfold mret, M_ret; naive_solver|].
  rewrite (M_bind_run _ _ _ _ _ eq_refl). cbn. rewrite Hi.
  destruct (obj_initial obj); [|unfold mret, M_ret; naive_solver].
  destruct (incarnations st !! a); [unfold mret, M_ret; naive_solver|].
  unfold from_db, lift, mbind, M_bind, modify. cbn. rewrite Hd.
  destruct (read_storage (db st) a k); unfold mret, M_ret; naive_solver.
Qed.

Lemma original_value_orig st a k obj v :
  initial_of st a = obj_initial obj → original_value st a k obj = Ok v ↔ orig st a k v.
Proof.
  intros Hi. unfold original_value, orig, loads. rewrite Hi.
  destruct (committed _ !! k); [naive_solver|].
  destruct (obj_initial obj), (incarnations st !! a);
    unfold is_Some; naive_solver.
Qed.

Lemma initial_of_get_object st a obj s :
  get_object a st = Ok (Some obj, s) → initial_of st a = obj_initial obj.
Proof.
  intros (Hle & _ & Ho & _)%get_object_spec. rewrite <- (le_initial _ _ _ Hle).
  unfold initial_of. by rewrite Ho.
Qed.

Lemma get_storage_le y x a k b v y1 :
  le y x → get_storage a k b y = Ok (v, y1) → ∃ x1, get_storage a k b x = Ok (v, x1).
Proof.
  intros Hle H. assert (∃ o s, get_object a y = Ok (o, s)) as (o & s & Hg).
  { unfold get_storage in H. apply M_bind_inv in H as (o & s & Hg & _). eauto. }
  destruct (get_object_le _ _ _ _ _ Hle Hg) as (s' & Hg').
  apply (get_storage_value _ _ _ _ _ _ _ Hg').
  assert (∃ s1, get_storage a k b y = Ok (v, s1)) as Hv by eauto.
  apply (get_storage_value _ _ _ _ _ _ _ Hg) in Hv. clear H. unfold storage_value in *.
  destruct o as [obj|]; [|done]. destruct (obj_current obj); [|done].
  apply initial_of_get_object in Hg, Hg'.
  assert (∀ w, original_value y a k obj = Ok w → original_value x a k obj = Ok w) as Hor.
  { intros w. rewrite !original_value_orig by done. by apply orig_le_l. }
  destruct b; [by apply Hor|]. pose proof (le_cur _ _ Hle a k) as Hc.
  destruct (current (sto y a) !! k) as [w|]; [by rewrite Hc|].
  destruct Hc as [->|(w & Hw & ->)]; [by apply Hor|].
  apply (original_value_orig _ _ _ _ _ Hg) in Hw. congruence.
Qed.

(** What the EVM can ask of an account. *)
Inductive query : Type :=
| QExists (a : Z) | QIsDead (a : Z) | QBalance (a : Z) | QNonce (a : Z) | QCodeHash (a : Z)
| QCurrentStorage (a k : Z) | QOriginalStorage (a k : Z)
| QSelfdestructed (a : Z) | QAccountWarm (a : Z) | QSlotWarm (a k : Z).

Definition run_query (q : query) : M S Z :=
  match q with
  | QExists a => b ← exists_ a; mret (Z.b2z b)
  | QIsDead a => b ← is_dead a; mret (Z.b2z b)
  | QBalance a => get_balance a
  | QNonce a => get_nonce a
  | QCodeHash a => get_code_hash a
  | QCurrentStorage a k => get_current_storage a k
  | QOriginalStorage a k => get_original_storage a k
  | QSelfdestructed a => gets (fun st => Z.b2z (bool_decide (a ∈ self_destructs st)))
  | QAccountWarm a => gets (fun st => Z.b2z (bool_decide (a ∈ accessed_addresses st)))
  | QSlotWarm a k =>
      gets (fun st => Z.b2z (bool_decide (k ∈ default ∅ (accessed_storage_keys st !! a))))
  end.

Lemma get_object_bind_le {A} y x a (f : option Object → A) v y1 :
  le y x → (o ← get_object a; mret (f o)) y = Ok (v, y1) →
  ∃ x1, (o ← get_object a; mret (f o)) x = Ok (v, x1).
Proof.
  intros Hle (o & s & Hg & H)%M_bind_inv. m_inv.
  destruct (get_object_le _ _ _ _ _ Hle Hg) as (x1 & Hx).
  rewrite (M_bind_run _ _ _ _ _ Hx). by eexists.
Qed.

Lemma run_query_le q y x v y1 :
  le y x → run_query q y = Ok (v, y1) → ∃ x1, run_query q x = Ok (v, x1).
Proof.
  intros Hle. destruct q; cbn [run_query].
  3-5: by apply get_object_bind_le.
  3-4: by apply get_storage_le.
  1-2: intros (b & s & H & Hr)%M_bind_inv; m_inv;
    destruct (get_object_bind_le _ _ _ _ _ _ Hle H) as (x1 & Hx);
    eexists; by rewrite (M_bind_run _ _ _ _ _ Hx).
  - unfold gets. rewrite (le_sd _ _ Hle). naive_solver.
  - unfold gets. rewrite (le_addrs _ _ Hle). naive_solver.
  - unfold gets. rewrite (le_keys _ _ Hle). naive_solver.
Qed.

(** C1. Snapshots work: whatever operations run after a snapshot, with any
    number of nested snapshots taken and reverted on the way, reverting to
    the snapshot succeeds, puts the journal, the logs, the refund counter,
    the self-destructs and the access lists back, leaves at most the RIPEMD
    precompile as an additional touched account, and every question about
    an account or a slot that had an answer at the snapshot has the same
    answer after the revert. *)
Theorem revert_restores st st' :
  exec st st' →
  ∃ st'', revert_to_snapshot (take_snapshot st) st' = Ok (tt, st'')
    ∧ journal st'' = journal st ∧ logs st'' = logs st ∧ refund st'' = refund st
    ∧ self_destructs st'' = self_destructs st
    ∧ accessed_addresses st'' = accessed_addresses st
    ∧ touched st ⊆ touched st'' ⊆ touched st ∪ {[RIPEMD_ADDRESS]}
    ∧ ∀ q v s, run_query q st = Ok (v, s) → ∃ s', run_query q st'' = Ok (v, s').
Proof.
  intros (st'' & Hr & Hle & Hj & Hl & Href)%exec_undoable%undoable_revert.
  exists st''. split_and!; try done; try apply Hle.
  intros q v s. by apply run_query_le.
Qed.
End journal.

(** A call that creates a contract, pays it and writes a slot, and a nested
    one that self-destructs and is reverted. *)
Definition demo_ims : InMemoryState :=
  ims_slots (insert 7 {[1 := 11]}) (ims_accounts (insert 7 (mkAccount 1 100 9)) empty_ims).

Definition demo_start : IntraBlockState InMemoryState := new demo_ims.

Definition step (o : op) (st : IntraBlockState InMemoryState) : IntraBlockState InMemoryState :=
  match run_op (HH := toy_hashing) o st with Ok (_, st') => st' | _ => st end.

Definition demo_nested : IntraBlockState InMemoryState :=
  step (OpSetStorage 7 1 55) (step (OpSubtractFromBalance 7 30) demo_start).

Definition demo_inner : IntraBlockState InMemoryState :=
  step (OpCreateContract 8) (step (OpRecordSelfdestruct 7) demo_nested).

Definition demo_reverted : IntraBlockState InMemoryState :=
  match revert_to_snapshot (take_snapshot demo_nested) demo_inner with
  | Ok (_, st) => st
  | _ => demo_nested
  end.

Lemma revert_restores_witness :
  ∃ st'', revert_to_snapshot (take_snapshot demo_start) demo_reverted = Ok (tt, st'')
    ∧ ∃ s', run_query (QCurrentStorage 7 1) st'' = Ok (11, s').
Proof.
  destruct (revert_restores (HH := toy_hashing) demo_start demo_reverted)
    as (st'' & H & _ & _ & _ & _ & _ & _ & Hq).
  - apply (exec_op (OpSubtractFromBalance 7 30) _ (step (OpSubtractFromBalance 7 30) demo_start));
      [exact I|vm_compute; reflexivity|].
    apply (exec_op (OpSetStorage 7 1 55) _ demo_nested);
      [eexists; vm_compute; reflexivity|vm_compute; reflexivity|].
    apply (exec_revert demo_nested demo_inner demo_reverted);
      [|vm_compute; reflexivity|constructor].
    apply (exec_op (OpRecordSelfdestruct 7) _ (step (OpRecordSelfdestruct 7) demo_nested));
      [exact I|vm_compute; reflexivity|].
    apply (exec_op (OpCreateContract 8) _ demo_inner);
      [|vm_compute; reflexivity|constructor].
    cbn [op_ok]. intros n Hn.
    assert (incarnations (step (OpRecordSelfdestruct 7) demo_nested) !! 8 = None) as He
      by (vm_compute; reflexivity).
    rewrite He in Hn. discriminate Hn.
  - exists st''. split; [exact H|]. apply (Hq (QCurrentStorage 7 1) 11 _ eq_refl).
Defined.
