(* ===== verification/View.v ===== *)
(** * View

    The world state an [IntraBlockState] stands for: what each operation of
    [intra_block_state.rs] does to the account an address has, whatever is
    cached. The caches' preorder [le] leaves the view unchanged. *)

From S2P Require Import Prelude Words Errors Account Transaction Block StateTrait IntraBlockState.
From S2P Require Import Journal.

Section view.
Context {S : Type} {HS : State S} {HH : Hashing}.
Implicit Types st x y : IntraBlockState S.

(** The account of an address, read through the overlay. *)
Definition account_of st (a : Z) : result (option Account) :=
  match objects st !! a with
  | Some o => Ok (obj_current o)
  | None => read_account (db st) a
  end.

Lemma account_of_same st st' a :
  objects st' !! a = objects st !! a → db st' = db st → account_of st' a = account_of st a.
Proof. unfold account_of. by intros -> ->. Qed.

Lemma account_of_le y x a : le y x → account_of x a = account_of y a.
Proof.
  intros H. unfold account_of. pose proof (le_obj _ _ H a) as Ho. rewrite (le_db _ _ H).
  destruct (objects y !! a); [by rewrite Ho|].
  destruct Ho as [->|(acc & -> & ->)]; done.
Qed.

Lemma account_of_put st a o b :
  account_of (set_objects (insert a o) st) b
  = if decide (b = a) then Ok (obj_current o) else account_of st b.
Proof.
  unfold account_of. cbn. case_decide; [subst; by rewrite lookup_insert_eq|].
  by rewrite lookup_insert_ne.
Qed.

Lemma get_object_view a st o st' :
  get_object a st = Ok (o, st') → account_of st a = Ok (o ≫= obj_current) ∧ le st st'.
Proof.
  intros H. apply get_object_spec in H as Hs. destruct Hs as (Hle & _ & Ho & Hn).
  split; [|done]. rewrite <- (account_of_le _ _ _ Hle). unfold account_of. rewrite Ho.
  destruct o as [o|]; [done|]. destruct (Hn eq_refl) as [Hr ->]. exact Hr.
Qed.

Lemma get_object_run a st cur :
  account_of st a = Ok cur → ∃ o st', get_object a st = Ok (o, st') ∧ (o ≫= obj_current) = cur.
Proof.
  unfold account_of, get_object. intros H. rewrite (M_bind_run _ _ _ _ _ eq_refl).
  destruct (objects st !! a) as [o|]; [injection H as <-; by exists (Some o), st|].
  unfold from_db, lift, mbind, M_bind. rewrite H.
  destruct cur as [acc|]; unfold modify, mret, M_ret; eauto.
Qed.

(** The readers. *)
Lemma get_balance_view a st b st' :
  get_balance a st = Ok (b, st') →
  ∃ cur, account_of st a = Ok cur ∧ b = default 0 (balance <$> cur) ∧ le st st'.
Proof.
  unfold get_balance. intros H. m_inv. apply get_object_view in Hm as [Ha Hle].
  eexists. split_and!; [exact Ha| |done]. destruct a0 as [o|]; [|done].
  cbn. by destruct (obj_current o).
Qed.

Lemma get_nonce_view a st n st' :
  get_nonce a st = Ok (n, st') →
  ∃ cur, account_of st a = Ok cur ∧ n = default 0 (nonce <$> cur) ∧ le st st'.
Proof.
  unfold get_nonce. intros H. m_inv. apply get_object_view in Hm as [Ha Hle].
  eexists. split_and!; [exact Ha| |done]. destruct a0 as [o|]; [|done].
  cbn. by destruct (obj_current o).
Qed.

Lemma get_code_hash_view a st h st' :
  get_code_hash a st = Ok (h, st') →
  ∃ cur, account_of st a = Ok cur ∧ h = default EMPTY_HASH (code_hash <$> cur) ∧ le st st'.
Proof.
  unfold get_code_hash. intros H. m_inv. apply get_object_view in Hm as [Ha Hle].
  eexists. split_and!; [exact Ha| |done]. destruct a0 as [o|]; [|done].
  cbn. by destruct (obj_current o).
Qed.

(** [get_or_create_object] gives the account, or an empty one. *)
Lemma get_or_create_view a st o st' :
  get_or_create_object a st = Ok (o, st') →
  ∃ cur, account_of st a = Ok cur ∧ obj_current o = Some (default default_account cur)
    ∧ ∀ b, b ≠ a → account_of st' b = account_of st b.
Proof.
  unfold get_or_create_object. intros H. m_inv.
  unfold ensure_object in Hm. apply M_bind_inv in Hm as (o0 & s1 & Hg & Hm).
  apply get_object_view in Hg as Hv. destruct Hv as [Ha Hle].
  apply get_object_spec in Hg as (_ & _ & Ho & _).
  exists (o0 ≫= obj_current). split; [done|]. destruct o0 as [obj|].
  - cbn. destruct (obj_current obj) as [c|] eqn:Hc; m_inv.
    + rewrite Hr in Ho. injection Ho as ->. split; [done|].
      intros b _. by apply account_of_le.
    + cbn in Hr |- *. rewrite lookup_insert_eq in Hr. injection Hr as <-.
      split; [done|]. intros b Hb. rewrite account_of_put, decide_False by done.
      rewrite (account_of_same s1) by done. by apply account_of_le.
  - m_inv. cbn in Hr |- *. rewrite lookup_insert_eq in Hr. injection Hr as <-.
    split; [done|]. intros b Hb. rewrite account_of_put, decide_False by done.
    rewrite (account_of_same s1) by done. by apply account_of_le.
Qed.

Lemma touch_view a st u st' b : touch a st = Ok (u, st') → account_of st' b = account_of st b.
Proof.
  unfold touch. intros H. m_inv. destruct (bool_decide _ && _); m_inv; by apply account_of_same.
Qed.

(** The writers: the account written, and the others untouched. *)
Definition written st st' (a : Z) (f : Account → Account) : Prop :=
  ∃ cur, account_of st a = Ok cur
    ∧ ∀ b, account_of st' b = if decide (b = a) then Ok (Some (f (default default_account cur)))
                              else account_of st b.

Lemma update_balance_view a f st u st' :
  update_balance a f st = Ok (u, st') →
  written st st' a (fun acc => set_balance_field (f (balance acc)) acc).
Proof.
  unfold update_balance. intros H. m_inv.
  apply get_or_create_view in Hm as (cur & Ha & Hc & Hb). rewrite Hc in Hr. injection Hr as <-.
  exists cur. split; [done|]. intros b. rewrite (touch_view _ _ _ _ _ H), account_of_put.
  case_decide; [done|]. rewrite (account_of_same st0) by done. by apply Hb.
Qed.

Lemma set_nonce_view a n st u st' :
  set_nonce a n st = Ok (u, st') → written st st' a (set_nonce_field n).
Proof.
  unfold set_nonce. intros H. m_inv.
  apply get_or_create_view in Hm as (cur & Ha & Hc & Hb). rewrite Hc in Hr. injection Hr as <-.
  exists cur. split; [done|]. intros b. rewrite account_of_put.
  case_decide; [done|]. rewrite (account_of_same st0) by done. by apply Hb.
Qed.

Lemma set_code_view a code st u st' :
  set_code a code st = Ok (u, st') → written st st' a (set_code_hash_field (keccak256 code)).
Proof.
  unfold set_code. intros H. m_inv.
  apply get_or_create_view in Hm as (cur & Ha & Hc & Hb). rewrite Hc in Hr. injection Hr as <-.
  exists cur. split; [done|]. intros b.
  match goal with |- context [set_new_code ?f ?s] =>
    rewrite (account_of_same s (set_new_code f s)) by done end.
  rewrite account_of_put. case_decide; [done|].
  rewrite (account_of_same st0) by done. by apply Hb.
Qed.

(** A write after which the overlay answers for the address. *)
Lemma update_balance_run a f st cur :
  account_of st a = Ok cur → ∃ st', update_balance a f st = Ok (tt, st').
Proof.
  intros H. destruct (get_object_run _ _ _ H) as (o & st1 & Hg & _).
  apply get_object_spec in Hg as Hs. destruct Hs as (_ & _ & Ho & _).
  unfold update_balance, get_or_create_object, ensure_object, touch.
  unfold mbind, M_bind, put_object, modify, gets, lift, mret, M_ret. rewrite Hg.
  destruct o as [obj|].
  - destruct (obj_current obj) as [c|] eqn:Hc.
    + rewrite Ho. cbn. rewrite Hc. cbn. case_match; eauto.
    + cbn. rewrite lookup_insert_eq. cbn. case_match; eauto.
  - cbn. rewrite lookup_insert_eq. cbn. case_match; eauto.
Qed.
End view.

(** ** Execution reads the store and leaves it alone *)

Definition keeps_db {S A} (m : M S A) : Prop := ∀ st a st', m st = Ok (a, st') → db st' = db st.

Create HintDb keeps.

Section keeps.
Context {S : Type} {HS : State S} {HH : Hashing}.

Lemma keeps_bind {A C} (m : M S A) (f : A → M S C) :
  keeps_db m → (∀ a, keeps_db (f a)) → keeps_db (m ≫= f).
Proof. intros Hm Hf st c st' (a & s & H1 & H2)%M_bind_inv. by rewrite (Hf _ _ _ _ H2), (Hm _ _ _ H1). Qed.

Lemma keeps_ret {A} (a : A) : keeps_db (S := S) (mret a).
Proof. by intros st x st' [= _ <-]. Qed.

Lemma keeps_gets {A} (f : IntraBlockState S → A) : keeps_db (gets f).
Proof. by intros st x st' [= _ <-]. Qed.

Lemma keeps_lift {A} (r : result A) : keeps_db (S := S) (lift r).
Proof. by intros st x st' (_ & ->)%lift_inv. Qed.

Lemma keeps_lift_bind {A C} (r : result A) (f : A → M S C) :
  (∀ a, r = Ok a → keeps_db (f a)) → keeps_db (lift r ≫= f).
Proof. intros Hf st c st' (a & s & [Hr ->]%lift_inv & H)%M_bind_inv. by eapply Hf. Qed.
Lemma keeps_from_db {A} (f : S → result A) : keeps_db (from_db f).
Proof. by intros st x st' (_ & ->)%from_db_inv. Qed.

Lemma keeps_modify (f : IntraBlockState S → IntraBlockState S) :
  (∀ st, db (f st) = db st) → keeps_db (modify f).
Proof. by intros Hf st x st' [= _ <-]. Qed.

Lemma keeps_for_each {A} (f : A → M S unit) l : (∀ a, keeps_db (f a)) → keeps_db (for_each f l).
Proof.
  intros Hf. induction l as [|a l IH]; cbn; [apply keeps_ret|].
  apply keeps_bind; [apply Hf|done].
Qed.

Lemma keeps_le {A} (m : M S A) : (∀ st a st', m st = Ok (a, st') → le st st') → keeps_db m.
Proof. intros H st a st' Hm. apply (le_db _ _ (H _ _ _ Hm)). Qed.
End keeps.

#[export] Hint Resolve keeps_ret keeps_gets keeps_lift keeps_from_db : keeps.

(** Follow the structure of an operation. *)
Ltac keeps := repeat first
  [ solve [auto with keeps]
  | apply keeps_lift_bind; intros ? ?
  | apply keeps_bind; [|intros ?]
  | apply keeps_for_each; intros ?
  | apply keeps_modify; reflexivity
  | progress cbv beta zeta
  | match goal with
    | |- keeps_db (match ?x with _ => _ end) => destruct x
    | |- keeps_db (if ?x then _ else _) => destruct x
    | |- keeps_db (let '(_, _) := ?x in _) => destruct x
    end ].

Section keeps_operations.
Context {S : Type} {HS : State S} {HH : Hashing}.

Lemma keeps_get_object a : keeps_db (S := S) (get_object a).
Proof. unfold get_object. keeps. Qed.
#[local] Hint Resolve keeps_get_object : keeps.

Lemma keeps_get_or_create_object a : keeps_db (S := S) (get_or_create_object a).
Proof. unfold get_or_create_object, ensure_object, put_object. keeps. Qed.
#[local] Hint Resolve keeps_get_or_create_object : keeps.

Lemma keeps_touch a : keeps_db (S := S) (touch a).
Proof. unfold touch. keeps. Qed.
#[local] Hint Resolve keeps_touch : keeps.

Lemma keeps_update_balance a f : keeps_db (S := S) (update_balance a f).
Proof. unfold update_balance, put_object. keeps. Qed.

Lemma keeps_set_nonce a n : keeps_db (S := S) (set_nonce a n).
Proof. unfold set_nonce, put_object. keeps. Qed.

Lemma keeps_destruct a : keeps_db (S := S) (destruct_ a).
Proof. unfold destruct_, put_object. keeps. Qed.
#[local] Hint Resolve keeps_destruct : keeps.

Lemma keeps_destruct_selfdestructs : keeps_db (S := S) destruct_selfdestructs.
Proof. unfold destruct_selfdestructs. keeps. Qed.

Lemma keeps_destruct_touched_dead : keeps_db (S := S) destruct_touched_dead.
Proof. unfold destruct_touched_dead, is_dead. keeps. Qed.

Lemma keeps_access_account a : keeps_db (S := S) (access_account a).
Proof. unfold access_account. keeps. Qed.

Lemma keeps_access_storage a k : keeps_db (S := S) (access_storage a k).
Proof. unfold access_storage. keeps. Qed.

Lemma keeps_clear : keeps_db (S := S) clear_journal_and_substate.
Proof. unfold clear_journal_and_substate. keeps. Qed.

Lemma keeps_finalize : keeps_db (S := S) finalize_transaction.
Proof. unfold finalize_transaction. keeps. Qed.
End keeps_operations.

#[export] Hint Resolve keeps_get_object keeps_get_or_create_object keeps_touch keeps_update_balance
  keeps_set_nonce keeps_destruct keeps_destruct_selfdestructs keeps_destruct_touched_dead
  keeps_access_account keeps_access_storage keeps_clear keeps_finalize : keeps.

(** ** Properties of states that operations preserve *)

Definition preserves {S A} (P : IntraBlockState S → Prop) (m : M S A) : Prop :=
  ∀ st a st', m st = Ok (a, st') → P st → P st'.

Create HintDb preserves.

Section preserves.
Context {S : Type} {HS : State S} {HH : Hashing}.
Implicit Types P : IntraBlockState S → Prop.

Lemma preserves_bind {A C} P (m : M S A) (f : A → M S C) :
  preserves P m → (∀ a, preserves P (f a)) → preserves P (m ≫= f).
Proof. intros Hm Hf st c st' (a & s & H1 & H2)%M_bind_inv HP. eapply Hf; [done|]. by eapply Hm. Qed.

Lemma preserves_ret {A} P (a : A) : preserves P (mret a).
Proof. by intros st x st' [= _ <-]. Qed.
Lemma preserves_gets {A} P (f : IntraBlockState S → A) : preserves P (gets f).
Proof. by intros st x st' [= _ <-]. Qed.
Lemma preserves_lift {A} P (r : result A) : preserves P (lift r).
Proof. by intros st x st' (_ & ->)%lift_inv. Qed.
Lemma preserves_from_db {A} P (f : S → result A) : preserves P (from_db f).
Proof. by intros st x st' (_ & ->)%from_db_inv. Qed.
Lemma preserves_modify P (f : IntraBlockState S → IntraBlockState S) :
  (∀ st, P st → P (f st)) → preserves P (modify f).
Proof. intros Hf st x st' [= _ <-]. apply Hf. Qed.
Lemma preserves_ignore {A} P (m : M S A) : preserves P m → preserves P (ignore m).
Proof. intros H. unfold ignore. apply preserves_bind; [done|]. intros. apply preserves_ret. Qed.
Lemma preserves_for_each {A} P (f : A → M S unit) l :
  (∀ a, preserves P (f a)) → preserves P (for_each f l).
Proof.
  intros Hf. induction l as [|a l IH]; cbn; [apply preserves_ret|]. by apply preserves_bind.
Qed.
End preserves.

#[export] Hint Resolve preserves_ret preserves_gets preserves_lift preserves_from_db : preserves.

Ltac preserves := repeat first
  [ solve [auto with preserves]
  | apply preserves_bind; [|intros ?]
  | apply preserves_for_each; intros ?
  | apply preserves_ignore
  | apply preserves_modify; solve [let HP := fresh in intros ? HP; exact HP | intros; apply Z.mod_pos_bound; lia]
  | progress cbv beta zeta
  | match goal with
    | |- preserves _ (match ?x with _ => _ end) => destruct x
    | |- preserves _ (if ?x then _ else _) => destruct x
    end ].
