(* ===== verification/Commit.v ===== *)
(** * Commit

    Writing an intra-block state back to the in-memory store
    ([write_to_db]), and unwinding the block
    ([InMemoryState::unwind_state_changes]): what the store holds after
    each, address by address and slot by slot. *)

From S2P Require Import Prelude Words Errors Account Transaction Block StateTrait InMemoryState.
From S2P Require Import IntraBlockState Journal View.

(** A loop over the entries of a finite map, in whatever order they are
    listed: an invariant indexed by the entries seen so far. *)
Lemma map_loop {A D E} (f : D → Z * A → res E D) (P : gmap Z A → D → Prop) (whole : gmap Z A) d :
  P ∅ d →
  (∀ m k x d, m !! k = None → whole !! k = Some x → P m d →
     ∃ d', f d (k, x) = Ok d' ∧ P (<[k:=x]> m) d') →
  ∃ d', res_foldl f d (map_to_list whole) = Ok d' ∧ P whole d'.
Proof.
  intros H0 Hstep.
  assert (∀ l m d, NoDup l.*1 → (∀ k, k ∈ l.*1 → m !! k = None) →
            (∀ k x, (k, x) ∈ l → whole !! k = Some x) → P m d →
            ∃ d', res_foldl f d l = Ok d' ∧ P (list_to_map l ∪ m) d') as Hl.
  { induction l as [|[k x] l IH]; intros m d1 Hnd Hm Hin HP; cbn [res_foldl].
    - exists d1. split; [done|]. cbn. by rewrite (left_id_L ∅ (∪)).
    - cbn in Hnd. apply NoDup_cons in Hnd as [Hk Hnd].
      destruct (Hstep m k x d1) as (d2 & Hf & HP2); [apply Hm; by left|apply Hin; by left|done|].
      rewrite Hf. res_simpl.
      destruct (IH (<[k:=x]> m) d2) as (d3 & Hr & HP3); [done| | |done|].
      + intros k' Hk'. rewrite lookup_insert_ne by (intros ->; done). apply Hm. by right.
      + intros k' x' H'. apply Hin. by right.
      + exists d3. split; [done|]. cbn. rewrite <- insert_union_l, insert_union_r; [done|].
        by apply not_elem_of_list_to_map. }
  destruct (Hl (map_to_list whole) ∅ d) as (d' & Hr & HP); [apply NoDup_fst_map_to_list|done| |done|].
  - intros k x Hin. by apply elem_of_map_to_list.
  - exists d'. split; [done|]. by rewrite list_to_map_to_list, (right_id_L ∅ (∪)) in HP.
Qed.

(** ** The store, slot by slot *)

Definition slot (d : InMemoryState) (a k : Z) : Z := default 0 (default ∅ (slots_of d !! a) !! k).

(** The old value recorded for a slot in the changes of a block. *)
Definition recorded (d : InMemoryState) (n a k : Z) : option Z :=
  default ∅ (default ∅ (storage_changes d !! n) !! a) !! k.

(** Everything but the slots and their changes. *)
Definition frame (d : InMemoryState) : InMemoryState :=
  ims_slots (fun _ => ∅) (ims_storage_changes (fun _ => ∅) d).

Lemma read_storage_slot d a k : IMS.read_storage d a k = Ok (slot d a k).
Proof. unfold IMS.read_storage, slot. destruct (slots_of d !! a); [done|]. cbn. by rewrite lookup_empty. Qed.

Lemma lookup_update_slots a f m b :
  update_slots a f m !! b = if decide (b = a) then Some (f (default ∅ (m !! a))) else m !! b.
Proof.
  unfold update_slots. case_decide; [subst; by rewrite lookup_insert_eq|].
  by rewrite lookup_insert_ne.
Qed.

Lemma lookup_put_slot k v m k' :
  default 0 (put_slot k v m !! k') = if decide (k' = k) then v else default 0 (m !! k').
Proof.
  unfold put_slot. destruct (Z.eqb_spec v 0) as [->|]; case_decide; subst;
    rewrite ?lookup_delete_eq, ?lookup_delete_ne, ?lookup_insert_eq, ?lookup_insert_ne by done; done.
Qed.

Lemma slot_update d a k v b k' :
  slot (ims_slots (update_slots a (put_slot k v)) d) b k'
  = if decide (b = a ∧ k' = k) then v else slot d b k'.
Proof.
  unfold slot. cbn. rewrite lookup_update_slots.
  destruct (decide (b = a)) as [->|]; [|rewrite decide_False by tauto; done].
  cbn. rewrite lookup_put_slot. destruct (decide (k' = k)); [by rewrite decide_True|].
  by rewrite decide_False by tauto.
Qed.

Lemma recorded_update d a f b k :
  recorded (record_slots a f d) (block_number d) b k
  = if decide (b = a)
    then f (default ∅ (default ∅ (storage_changes d !! block_number d) !! a)) !! k
    else recorded d (block_number d) b k.
Proof.
  unfold recorded, record_slots. cbn. rewrite lookup_insert_eq. cbn.
  rewrite lookup_update_slots. by case_decide.
Qed.

Lemma recorded_other d a f n b k :
  n ≠ block_number d → recorded (record_slots a f d) n b k = recorded d n b k.
Proof. intros Hn. unfold recorded, record_slots. cbn. by rewrite lookup_insert_ne. Qed.

(** Values written to slots: [f a k] is the pair of the value recorded as old
    and the new value of the slots written. *)
Record slots_written (d d' : InMemoryState) (f : Z → Z → option CommittedValue) : Prop := {
  sw_slot b k : slot d' b k = match f b k with Some v => cv_original v | None => slot d b k end;
  sw_recorded b k : recorded d' (block_number d) b k
    = match f b k with
      | Some v => Some (cv_initial v)
      | None => recorded d (block_number d) b k
      end;
  sw_frame : frame d' = frame d
}.

Lemma frame_block_number d d' : frame d' = frame d → block_number d' = block_number d.
Proof. intros H. by apply (f_equal block_number) in H. Qed.

Lemma slots_written_refl d f : (∀ b k, f b k = None) → slots_written d d f.
Proof. intros H. split; [..|done]; intros b k; by rewrite H. Qed.

Lemma slots_written_trans d1 d2 d3 f g h :
  slots_written d1 d2 f → slots_written d2 d3 g →
  (∀ b k, h b k = match g b k with Some v => Some v | None => f b k end) →
  slots_written d1 d3 h.
Proof.
  intros H1 H2 Hh. pose proof (frame_block_number _ _ (sw_frame _ _ _ H1)) as Hn. split.
  - intros b k. rewrite (sw_slot _ _ _ H2), (sw_slot _ _ _ H1), Hh. by destruct (g b k).
  - intros b k. rewrite <- Hn, (sw_recorded _ _ _ H2), Hn, (sw_recorded _ _ _ H1), Hh.
    by destruct (g b k).
  - by rewrite (sw_frame _ _ _ H2), (sw_frame _ _ _ H1).
Qed.

Lemma update_storage_written d a k v :
  ∃ d', IMS.update_storage a k (cv_initial v) (cv_original v) d = Ok d'
    ∧ slots_written d d' (fun b k' => if decide (b = a ∧ k' = k) then Some v else None).
Proof.
  eexists. split; [done|]. split; [| |done].
  - intros b k'. rewrite slot_update. by case_decide.
  - intros b k'. change (recorded (ims_slots ?f ?x)) with (recorded x). rewrite recorded_update.
    destruct (decide (b = a)) as [->|]; [|rewrite decide_False by tauto; done].
    destruct (decide (k' = k)) as [->|].
    + rewrite decide_True by done. by rewrite lookup_insert_eq.
    + rewrite decide_False by tauto. rewrite lookup_insert_ne by done.
      done.
Qed.

Lemma write_slots_written a m d :
  ∃ d', write_slots a (map_to_list m) d = Ok d'
    ∧ slots_written d d' (fun b k => if decide (b = a) then m !! k else None).
Proof.
  unfold write_slots.
  apply (map_loop _ (fun m' d' =>
    slots_written d d' (fun b k => if decide (b = a) then m' !! k else None))).
  - apply slots_written_refl. intros b k. case_decide; by rewrite ?lookup_empty.
  - intros m' k x d1 Hk Hx H1. destruct (update_storage_written d1 a k x) as (d2 & Hu & H2).
    exists d2. split; [exact Hu|]. eapply slots_written_trans; [exact H1|exact H2|].
    intros b k'. cbv beta.
    destruct (decide (b = a)) as [->|]; [|by rewrite decide_False by naive_solver].
    destruct (decide (k' = k)) as [->|].
    + by rewrite lookup_insert_eq, (decide_True (P := a = a ∧ k = k)).
    + rewrite lookup_insert_ne by done.
      by rewrite (decide_False (P := a = a ∧ k' = k)) by naive_solver.
Qed.

(** The slots of the accounts that live at the end of the block. *)
Definition live_slots (os : gmap Z Object) (ss : gmap Z Storage) (b k : Z) : option CommittedValue :=
  match os !! b ≫= obj_current with
  | Some _ => ss !! b ≫= fun s => committed s !! k
  | None => None
  end.

Lemma write_storages_written os ss d :
  ∃ d', write_storages os (map_to_list ss) d = Ok d' ∧ slots_written d d' (live_slots os ss).
Proof.
  unfold write_storages.
  apply (map_loop _ (fun ss' d' => slots_written d d' (live_slots os ss'))).
  - apply slots_written_refl. intros b k. unfold live_slots. rewrite lookup_empty.
    by destruct (os !! b ≫= obj_current).
  - intros ss' a s d1 Ha Hs H1. unfold live_slots.
    assert (∀ b k, b ≠ a → (<[a:=s]> ss' !! b ≫= fun s => committed s !! k)
                          = (ss' !! b ≫= fun s => committed s !! k)) as Hne.
    { intros b k Hb. by rewrite lookup_insert_ne. }
    destruct (os !! a ≫= obj_current) as [c|] eqn:Hc.
    + assert (∃ o, os !! a = Some o ∧ obj_current o = Some c) as (o & Ho & Hoc)
        by (destruct (os !! a); naive_solver).
      rewrite Ho, Hoc. destruct (write_slots_written a (committed s) d1) as (d2 & Hw & H2).
      exists d2. split; [done|]. eapply slots_written_trans; [exact H1|exact H2|].
      intros b k. cbn. destruct (decide (b = a)) as [->|Hb].
      * rewrite lookup_insert_eq, Hc. cbn. unfold live_slots. rewrite Ha, Hc. cbn.
        by destruct (committed s !! k).
      * rewrite Hne by done. done.
    + exists d1. split.
      { destruct (os !! a) as [o|]; [|done]. cbn in Hc. by rewrite Hc. }
      eapply slots_written_trans; [exact H1|by apply slots_written_refl with (f := fun _ _ => None)|].
      intros b k. cbn. destruct (decide (b = a)) as [->|Hb]; [|by rewrite Hne].
      unfold live_slots. by rewrite Hc.
Qed.

(** *** Erasure *)

Definition raw_slots (d : InMemoryState) (a : Z) : gmap Z Z := default ∅ (slots_of d !! a).

Record erased (d d' : InMemoryState) (gone : Z → bool) : Prop := {
  er_slots b : raw_slots d' b = if gone b then ∅ else raw_slots d b;
  er_recorded b k : recorded d' (block_number d) b k
    = if gone b then match raw_slots d b !! k with
                     | Some v => Some v
                     | None => recorded d (block_number d) b k
                     end
      else recorded d (block_number d) b k;
  er_frame : frame d' = frame d
}.

Lemma erase_storage_erased a d :
  ∃ d', IMS.erase_storage a d = Ok d' ∧ erased d d' (fun b => bool_decide (b = a)).
Proof.
  unfold IMS.erase_storage. set (d1 := ims_slots (delete a) d).
  assert (∀ b, raw_slots d1 b = if bool_decide (b = a) then ∅ else raw_slots d b) as Hraw.
  { intros b. unfold raw_slots, d1. cbn. case_bool_decide; subst;
      by rewrite ?lookup_delete_eq, ?lookup_delete_ne. }
  assert (∀ b k, recorded d1 (block_number d) b k = recorded d (block_number d) b k) as Hrec by done.
  fold (raw_slots d a). case_decide as He.
  - exists d1. split; [done|]. split; [done| |done]. intros b k. rewrite Hrec.
    case_bool_decide; [|done]. subst. by rewrite He, lookup_empty.
  - eexists. split; [done|]. split; [done| |done]. intros b k.
    change (block_number d) with (block_number d1). rewrite recorded_update.
    destruct (decide (b = a)) as [->|]; [|by rewrite bool_decide_eq_false_2].
    rewrite bool_decide_eq_true_2 by done. rewrite lookup_union.
    change (storage_changes d1) with (storage_changes d).
    change (block_number d1) with (block_number d).
    fold (recorded d (block_number d) a k). unfold union_with, union, option_union_with.
    destruct (raw_slots d a !! k); [by destruct (recorded _ _ _ _)|].
    unfold recorded. by destruct (_ !! k).
Qed.

Definition has {A} (m : gmap Z A) (b : Z) : bool := if m !! b then true else false.

Lemma has_insert {A} (m : gmap Z A) a x b : has (<[a:=x]> m) b = bool_decide (b = a) || has m b.
Proof.
  unfold has. destruct (bool_decide_reflect (b = a)) as [->|]; [by rewrite lookup_insert_eq|].
  by rewrite lookup_insert_ne.
Qed.

Lemma write_incarnations_erased incs d :
  (∀ a n, incs !! a = Some n → 0 < n) →
  ∃ d', write_incarnations (map_to_list incs) d = Ok d' ∧ erased d d' (has incs).
Proof.
  intros Hpos. unfold write_incarnations.
  apply (map_loop _ (fun m' d' => erased d d' (has m'))).
  - split; [| |done]; intros b; unfold has; by rewrite lookup_empty.
  - intros m' a n d1 Ha Hn H1. rewrite (proj2 (Z.ltb_lt _ _)) by (by apply (Hpos a)).
    destruct (erase_storage_erased a d1) as (d2 & He & H2).
    exists d2. split; [exact He|]. pose proof (frame_block_number _ _ (er_frame _ _ _ H1)) as Hb.
    assert (has m' a = false) as Hf by (unfold has; by rewrite Ha).
    split.
    + intros b. rewrite (er_slots _ _ _ H2), (er_slots _ _ _ H1), has_insert.
      by destruct (bool_decide (b = a)).
    + intros b k. rewrite <- Hb, (er_recorded _ _ _ H2), Hb, (er_recorded _ _ _ H1), has_insert.
      rewrite (er_slots _ _ _ H1).
      destruct (bool_decide_reflect (b = a)) as [->|]; [|done]. by rewrite Hf.
    + by rewrite (er_frame _ _ _ H2), (er_frame _ _ _ H1).
Qed.

(** *** Accounts and codes *)

Definition changed_account (d : InMemoryState) (n a : Z) : option (option Account) :=
  default ∅ (account_changes d !! n) !! a.

Record accounts_written (d d' : InMemoryState) (os : gmap Z Object) : Prop := {
  aw_accounts a : accounts d' !! a
    = match os !! a with Some o => obj_current o | None => accounts d !! a end;
  aw_changed a : changed_account d' (block_number d) a
    = match os !! a with
      | Some o => Some (obj_initial o)
      | None => changed_account d (block_number d) a
      end;
  aw_slots : slots_of d' = slots_of d;
  aw_recorded : storage_changes d' = storage_changes d;
  aw_code : code d' = code d;
  aw_number : block_number d' = block_number d
}.

Lemma lookup_restore_account a o m b :
  restore_account a o m !! b = if decide (b = a) then o else m !! b.
Proof.
  destruct o; cbn; case_decide; subst;
    by rewrite ?lookup_insert_eq, ?lookup_insert_ne, ?lookup_delete_eq, ?lookup_delete_ne.
Qed.

Lemma write_accounts_written os d : accounts_written d (write_accounts (map_to_list os) d) os.
Proof.
  unfold write_accounts.
  set (g := fun d '(a, o) => update_account a (obj_initial o) (obj_current o) d).
  destruct (map_loop (E := anyhow) (fun d x => Ok (g d x))
    (fun os d' => accounts_written d d' os) os d)
    as (d' & Hr & H).
  - split; try done; intros a; by rewrite lookup_empty.
  - intros m a o d1 Ha Ho H1. eexists. split; [done|].
    destruct H1 as [Hacc Hch Hs Hrec Hcode Hn].
    split; cbn; rewrite ?Hs, ?Hrec, ?Hcode, ?Hn; try done.
    + intros b. rewrite lookup_restore_account, Hacc.
      case_decide; [subst; by rewrite lookup_insert_eq|by rewrite lookup_insert_ne].
    + intros b. unfold changed_account at 1. cbn. rewrite Hn, lookup_insert_eq. cbn.
      destruct (decide (b = a)) as [->|]; [by rewrite !lookup_insert_eq|].
      rewrite !lookup_insert_ne by done. apply Hch.
  - rewrite (res_foldl_total _ g) in Hr by done. injection Hr as <-. exact H.
Qed.

Lemma write_codes_written codes d :
  ∃ d', write_codes (map_to_list codes) d = Ok d'
    ∧ (∀ h, code d' !! h = match codes !! h with Some c => Some c | None => code d !! h end)
    ∧ ims_code (fun _ => ∅) d' = ims_code (fun _ => ∅) d.
Proof.
  unfold write_codes.
  apply (map_loop _ (fun m d' =>
    (∀ h, code d' !! h = match m !! h with Some c => Some c | None => code d !! h end)
    ∧ ims_code (fun _ => ∅) d' = ims_code (fun _ => ∅) d)).
  - split; [|done]. intros h. by rewrite lookup_empty.
  - intros m h c d1 Hh Hc [H1 H2]. eexists. split; [done|]. split; [|exact H2].
    intros h'. cbn. destruct (decide (h' = h)) as [->|]; [by rewrite !lookup_insert_eq|].
    by rewrite !lookup_insert_ne.
Qed.

(** ** The block written *)

Section commit.
Context {HH : Hashing}.
Implicit Types st : IntraBlockState InMemoryState.

(** What the store holds after [write_to_db], and what it has recorded. *)
Record committed_to st (n : Z) (d' : InMemoryState) : Prop := {
  ct_account a : accounts d' !! a
    = match objects st !! a with Some o => obj_current o | None => accounts (db st) !! a end;
  ct_slot a k : slot d' a k
    = match live_slots (objects st) (storage st) a k with
      | Some v => cv_original v
      | None => if has (incarnations st) a then 0 else slot (db st) a k
      end;
  ct_code h : code d' !! h
    = match new_code st !! h with Some c => Some c | None => code (db st) !! h end;
  ct_changed a : changed_account d' n a
    = match objects st !! a with
      | Some o => Some (obj_initial o)
      | None => changed_account (db st) n a
      end;
  ct_recorded a k : recorded d' n a k
    = match live_slots (objects st) (storage st) a k with
      | Some v => Some (cv_initial v)
      | None => if has (incarnations st) a then
                  match raw_slots (db st) a !! k with
                  | Some v => Some v
                  | None => recorded (db st) n a k
                  end
                else recorded (db st) n a k
      end
}.

Lemma write_to_db_committed st n :
  (∀ a i, incarnations st !! a = Some i → 0 < i) →
  ∃ d', write_to_db st n = Ok d' ∧ committed_to st n d'.
Proof.
  intros Hpos. unfold write_to_db.
  set (d0 := begin_block n (db st)).
  destruct (write_incarnations_erased (incarnations st) d0 Hpos) as (d1 & -> & H1). res_simpl.
  destruct (write_storages_written (objects st) (storage st) d1) as (d2 & -> & H2). res_simpl.
  pose proof (write_accounts_written (objects st) d2) as H3.
  set (d3 := write_accounts _ d2) in *. clearbody d3.
  destruct (write_codes_written (new_code st) d3) as (d4 & -> & H4 & H5).
  exists d4. split; [done|].
  pose proof (frame_block_number _ _ (er_frame _ _ _ H1)) as Hn1.
  pose proof (frame_block_number _ _ (sw_frame _ _ _ H2)) as Hn2.
  change (block_number d0) with n in *.
  assert (accounts d2 = accounts (db st)) as Ha.
  { etrans; [apply (f_equal accounts (sw_frame _ _ _ H2))|].
    apply (f_equal accounts (er_frame _ _ _ H1)). }
  assert (account_changes d2 = account_changes (db st)) as Hac.
  { etrans; [apply (f_equal account_changes (sw_frame _ _ _ H2))|].
    apply (f_equal account_changes (er_frame _ _ _ H1)). }
  assert (code d2 = code (db st)) as Hcode.
  { etrans; [apply (f_equal code (sw_frame _ _ _ H2))|].
    apply (f_equal code (er_frame _ _ _ H1)). }
  destruct H3 as [Hacc Hch Hs3 Hrec3 Hcode3 _]. rewrite Hn2, Hn1 in Hch.
  pose proof (f_equal accounts H5) as Hacc4. pose proof (f_equal slots_of H5) as Hs4.
  pose proof (f_equal account_changes H5) as Hac4.
  pose proof (f_equal storage_changes H5) as Hrec4. cbn in Hacc4, Hs4, Hac4, Hrec4.
  split.
  - intros a. by rewrite Hacc4, Hacc, Ha.
  - intros a k. unfold slot at 1. rewrite Hs4, Hs3. fold (slot d2 a k).
    rewrite (sw_slot _ _ _ H2). destruct (live_slots _ _ a k); [done|].
    unfold slot. fold (raw_slots d1 a). rewrite (er_slots _ _ _ H1).
    by destruct (has _ a); rewrite ?lookup_empty.
  - intros h. rewrite H4, Hcode3, Hcode. done.
  - intros a. unfold changed_account at 1. rewrite Hac4. fold (changed_account d3 n a).
    rewrite Hch. unfold changed_account. by rewrite Hac.
  - intros a k. unfold recorded at 1. rewrite Hrec4, Hrec3. fold (recorded d2 n a k).
    rewrite <- Hn1, (sw_recorded _ _ _ H2), Hn1.
    destruct (live_slots _ _ a k); [done|]. apply (er_recorded _ _ _ H1).
Qed.

(** The value of a slot at the end of a block: what [get_current_storage]
    reads for an account [o] that lives. *)
Lemma end_of_block_slot st a k o c :
  objects st !! a = Some o → obj_current o = Some c → current (sto st a) = ∅ →
  (∀ i, incarnations st !! a = Some i → 0 < i) →
  (obj_initial o = None → slot (db st) a k = 0) →
  storage_value st a k false (Some o)
  = Ok (match live_slots (objects st) (storage st) a k with
        | Some v => cv_original v
        | None => if has (incarnations st) a then 0 else slot (db st) a k
        end).
Proof.
  intros Ho Hc Hcur Hpos Hinit. unfold storage_value, live_slots, original_value.
  rewrite Ho, Hc, Hcur, lookup_empty. cbn. rewrite Hc. unfold sto, has.
  destruct (storage st !! a) as [s|]; cbn; [destruct (committed s !! k); [done|]|];
    (destruct (incarnations st !! a); [by destruct (obj_initial o)|];
     destruct (obj_initial o); [apply read_storage_slot|by rewrite Hinit]).
Qed.

End commit.

(** ** Unwinding *)

Lemma lookup_restore_accounts m acs a :
  map_fold restore_account m acs !! a = match acs !! a with Some o => o | None => m !! a end.
Proof.
  revert acs. apply (map_fold_weak_ind (fun (r : gmap Z Account) acs =>
    r !! a = match acs !! a with Some o => o | None => m !! a end)).
  - by rewrite lookup_empty.
  - intros b o acs r Hb IH. rewrite lookup_restore_account. case_decide; subst.
    + by rewrite lookup_insert_eq.
    + by rewrite lookup_insert_ne.
Qed.

(** A map of slots, read with zero for a missing one. *)
Definition slot_in (m : gmap Z (gmap Z Z)) (a k : Z) : Z := default 0 (default ∅ (m !! a) !! k).

Lemma slot_in_update a k v m b k' :
  slot_in (update_slots a (put_slot k v) m) b k'
  = if decide (b = a ∧ k' = k) then v else slot_in m b k'.
Proof. apply (slot_update (ims_slots (fun _ => m) empty_ims)). Qed.

Lemma slot_in_restore a slots m b k :
  slot_in (restore_slots a slots m) b k
  = match (if decide (b = a) then slots !! k else None) with
    | Some v => v
    | None => slot_in m b k
    end.
Proof.
  unfold restore_slots. revert slots.
  apply (map_fold_weak_ind (fun r slots => slot_in r b k
    = match (if decide (b = a) then slots !! k else None) with
      | Some v => v | None => slot_in m b k end)).
  - by case_decide; rewrite ?lookup_empty.
  - intros k' v slots r Hk IH. rewrite slot_in_update, IH.
    destruct (decide (b = a)) as [->|]; [|by rewrite decide_False by naive_solver].
    destruct (decide (k = k')) as [->|].
    + by rewrite lookup_insert_eq, (decide_True (P := a = a ∧ k' = k')).
    + rewrite lookup_insert_ne by done.
      by rewrite (decide_False (P := a = a ∧ k = k')) by naive_solver.
Qed.

Lemma slot_in_restore_all scs m b k :
  slot_in (map_fold restore_slots m scs) b k
  = match default ∅ (scs !! b) !! k with Some v => v | None => slot_in m b k end.
Proof.
  revert scs. apply (map_fold_weak_ind (fun r scs => slot_in r b k
    = match default ∅ (scs !! b) !! k with Some v => v | None => slot_in m b k end)).
  - rewrite lookup_empty. cbn. by rewrite lookup_empty.
  - intros a slots scs r Ha IH. rewrite slot_in_restore, IH.
    destruct (decide (b = a)) as [->|]; [|by rewrite lookup_insert_ne].
    rewrite lookup_insert_eq, Ha. cbn. by destruct (slots !! k); rewrite ?lookup_empty.
Qed.

Lemma unwind_account d n a :
  accounts (unwind_state_changes n d) !! a
  = match changed_account d n a with Some o => o | None => accounts d !! a end.
Proof. apply lookup_restore_accounts. Qed.

Lemma unwind_slot d n a k :
  slot (unwind_state_changes n d) a k
  = match recorded d n a k with Some v => v | None => slot d a k end.
Proof. apply slot_in_restore_all. Qed.

Section unwind.
Context {HH : Hashing}.
Implicit Types st : IntraBlockState InMemoryState.

(** C17. Unwinding a block that was just written gives back the store it was
    executed on: every account, and every slot except where a slot was
    written by the block with an initial value other than the store's; that
    value is the one the unwinding leaves. *)
Theorem unwind_restores st n
  (Hpos : ∀ a i, incarnations st !! a = Some i → 0 < i)
  (Hobj : ∀ a o, objects st !! a = Some o → obj_initial o = accounts (db st) !! a)
  (Hfresh : account_changes (db st) !! n = None ∧ storage_changes (db st) !! n = None) :
  ∃ d', write_to_db st n = Ok d'
    ∧ (∀ a, accounts (unwind_state_changes n d') !! a = accounts (db st) !! a)
    ∧ ∀ a k, slot (unwind_state_changes n d') a k
             = match live_slots (objects st) (storage st) a k with
               | Some v => cv_initial v
               | None => slot (db st) a k
               end.
Proof.
  destruct (write_to_db_committed st n Hpos) as (d' & Hw & [Ha Hs _ Hch Hrec]).
  destruct Hfresh as [Hf1 Hf2]. exists d'. split_and!; [done|..].
  - intros a. rewrite unwind_account, Hch, Ha. unfold changed_account. rewrite Hf1. cbn.
    destruct (objects st !! a) eqn:Ho; [by apply Hobj|]. by rewrite lookup_empty.
  - intros a k. rewrite unwind_slot, Hrec, Hs.
    assert (recorded (db st) n a k = None) as ->.
    { unfold recorded. rewrite Hf2. cbn. by rewrite lookup_empty. }
    destruct (live_slots _ _ a k); [done|]. destruct (has _ a); [|done].
    unfold slot. fold (raw_slots (db st) a). by destruct (raw_slots (db st) a !! k).
Qed.
End unwind.

(** *** Examples *)

(** A block in which account 7 pays account 8 and writes its slot 1. *)
Definition demo_end : IntraBlockState InMemoryState :=
  match finalize_transaction (step (OpSetStorage 7 1 55)
          (step (OpAddToBalance 8 30) (step (OpSubtractFromBalance 7 30) demo_start))) with
  | Ok (_, st) => st
  | _ => demo_start
  end.

Lemma demo_end_incarnations a i : incarnations demo_end !! a = Some i → 0 < i.
Proof.
  intros H. assert (incarnations demo_end = ∅) as He by (vm_compute; reflexivity).
  rewrite He, lookup_empty in H. discriminate H.
Qed.


Lemma unwind_restores_witness :
  ∃ d', write_to_db demo_end 3 = Ok d'
    ∧ accounts (unwind_state_changes 3 d') !! 7 = Some (mkAccount 1 100 9)
    ∧ slot (unwind_state_changes 3 d') 7 1 = 11.
Proof.
  destruct (unwind_restores demo_end 3 demo_end_incarnations) as (d' & Hw & Ha & Hs).
  - intros a o Ho.
    assert (objects demo_end = <[7 := mkObject (Some (mkAccount 1 100 9)) (Some (mkAccount 1 70 9))]>
      {[8 := mkObject None (Some (mkAccount 0 30 EMPTY_HASH))]}) as He by (vm_compute; reflexivity).
    rewrite He in Ho. apply lookup_insert_Some in Ho as [[<- <-]|[_ Ho]]; [vm_compute; reflexivity|].
    apply lookup_singleton_Some in Ho as [<- <-]. vm_compute. reflexivity.
  - vm_compute. split; reflexivity.
  - exists d'. split; [exact Hw|]. rewrite Ha, Hs. split; vm_compute; reflexivity.
Defined.

(** A contract destroyed by one transaction of a block and created again by
    another, which writes the same slot. *)
Definition demo_recreated : IntraBlockState InMemoryState :=
  let run (m : M InMemoryState unit) st := match m st with Ok (_, st') => st' | _ => st end in
  let st := step (OpRecordSelfdestruct 7) demo_start in
  let st := run finalize_transaction (run destruct_selfdestructs st) in
  let st := run clear_journal_and_substate st in
  run finalize_transaction (step (OpSetStorage 7 1 22) (step (OpCreateContract 7) st)).

(** Flaw of the recorded changes: when a block destroys a contract and
    creates it again, a slot the new contract writes is recorded with the
    old value zero, over the value [erase_storage] had recorded; unwinding
    the block leaves the slot empty, although it held 11 before. *)
Theorem recreated_contract_unwind :
  slot demo_ims 7 1 = 11
  ∧ ∃ d', write_to_db demo_recreated 3 = Ok d'
    ∧ accounts (unwind_state_changes 3 d') !! 7 = accounts demo_ims !! 7
    ∧ slot (unwind_state_changes 3 d') 7 1 = 0.
Proof.
  split; [by vm_compute|].
  assert (is_ok (write_to_db demo_recreated 3) = true) as Hok by (vm_compute; reflexivity).
  destruct (write_to_db demo_recreated 3) as [d'| |] eqn:H; [|discriminate Hok..].
  exists d'. split; [done|]. vm_compute in H. injection H as <-. vm_compute. by split.
Qed.

(** ** Chain data *)

(** Headers, bodies, difficulties and canonical hashes: execution does not
    touch them. *)
Definition chain_of (s : InMemoryState) :=
  (headers s, bodies s, difficulties s, canonical_hashes s).

Lemma res_foldl_chain {A} (f : InMemoryState → A → result InMemoryState) l d d' :
  (∀ d x d', f d x = Ok d' → chain_of d' = chain_of d) →
  res_foldl f d l = Ok d' → chain_of d' = chain_of d.
Proof.
  intros Hf. apply (res_foldl_inv (fun d' => chain_of d' = chain_of d)); [|done].
  intros d1 x d2 _ H1 H2%Hf. by rewrite H2.
Qed.

Lemma unwind_chain n s : chain_of (unwind_state_changes n s) = chain_of s.
Proof. done. Qed.

Lemma write_to_db_chain (st : IntraBlockState InMemoryState) n d' :
  write_to_db st n = Ok d' → chain_of d' = chain_of (db st).
Proof.
  unfold write_to_db. intros H. res_inv.
  assert (∀ b d e, erase_storage b d = Ok e → chain_of e = chain_of d) as He.
  { intros b d e. cbn. unfold IMS.erase_storage. by case_decide; intros [= <-]. }
  assert (∀ l d e x, write_slots x l d = Ok e → chain_of e = chain_of d) as Hs.
  { intros l d e x. apply res_foldl_chain. by intros d1 [k v] d2 [= <-]. }
  apply res_foldl_chain in H; [|by intros d1 [k v] d2 [= <-]]. rewrite H.
  assert (∀ l d, chain_of (write_accounts l d) = chain_of d) as Ha.
  { induction l as [|[x o] l IH]; intros d; [done|]. etrans; [apply IH|done]. }
  rewrite Ha. apply res_foldl_chain in Hm0.
  2:{ intros d1 [x s] d2. destruct (objects st !! x) as [o|]; [|by intros [= <-]].
      destruct (obj_current o); [apply Hs|by intros [= <-]]. }
  rewrite Hm0. apply res_foldl_chain in Hm; [|intros d1 [x i] d2].
  { by rewrite Hm. }
  destruct (0 <? i); [apply He|by intros [= <-]].
Qed.
