(* ===== verification/Difficulty.v ===== *)
(** * Difficulty

    [src/src/consensus/ethash/difficulty.rs]: the difficulty a header must
    have, in the 64- and 256-bit arithmetic of the source, and the proof that
    it is the signed formula of the Yellow Paper and of EIP-100. *)

From S2P Require Import Prelude Words.

Definition MIN_DIFFICULTY : Z := 131072.

Record BlockDifficultyBombData : Type := { delay_to : Z }.

(** A shift count past the word is reduced modulo the width of the word, as
    release builds of the integer library do. *)
Definition canonical_difficulty (block_number block_timestamp parent_difficulty
    parent_timestamp : Z) (parent_has_uncles byzantium_formula homestead_formula : bool)
    (difficulty_bomb : option BlockDifficultyBombData) : Z :=
  let difficulty := parent_difficulty in
  let x := Z.shiftr parent_difficulty 11 in
  let difficulty :=
    if byzantium_formula then
      let difficulty := u256_sub difficulty (u256_mul x 99) in
      let y := if parent_has_uncles then 2 else 1 in
      let z := u64_sub block_timestamp parent_timestamp / 9 in
      if z <? u64_add 99 y
      then u256_add difficulty (u256_mul (u64_sub (u64_add 99 y) z) x)
      else difficulty
    else if homestead_formula then
      let difficulty := u256_sub difficulty (u256_mul x 99) in
      let z := u64_sub block_timestamp parent_timestamp / 10 in
      if z <? 100
      then u256_add difficulty (u256_mul (u64_sub 100 z) x)
      else difficulty
    else if u64_sub block_timestamp parent_timestamp <? 13
    then u256_add difficulty x
    else u256_sub difficulty x in
  let difficulty :=
    match difficulty_bomb with
    | Some bomb_config =>
        let n := saturating_sub block_number (delay_to bomb_config) / 100000 in
        if 2 <=? n
        then u256_add difficulty (u256_shl 1 (u64_sub n 2 mod 256))
        else difficulty
    | None => difficulty
    end in
  Z.max difficulty MIN_DIFFICULTY.

(** ** The reference formula *)

(** Equations (41) to (46) of the Yellow Paper, with EIP-100's uncle term,
    over unbounded signed integers: [t] is the time since the parent. *)
Definition sigma2 (parent_has_uncles byzantium_formula homestead_formula : bool) (t : Z) : Z :=
  if byzantium_formula then Z.max ((if parent_has_uncles then 2 else 1) - t / 9) (-99)
  else if homestead_formula then Z.max (1 - t / 10) (-99)
  else if t <? 13 then 1 else -1.

Definition epsilon (block_number : Z) (difficulty_bomb : option BlockDifficultyBombData) : Z :=
  match difficulty_bomb with
  | Some b =>
      let n := Z.max (block_number - delay_to b) 0 / 100000 in
      if 2 <=? n then 2 ^ (n - 2) else 0
  | None => 0
  end.

Definition yellow_paper_difficulty (block_number t parent_difficulty : Z)
    (parent_has_uncles byzantium_formula homestead_formula : bool)
    (difficulty_bomb : option BlockDifficultyBombData) : Z :=
  Z.max 131072
    (parent_difficulty
     + parent_difficulty / 2048 * sigma2 parent_has_uncles byzantium_formula homestead_formula t
     + epsilon block_number difficulty_bomb).

(** ** Equivalence *)

(** A difficulty at which neither the adjustment nor the bomb leaves 256
    bits. *)
Definition in_range (parent_difficulty block_number : Z)
    (difficulty_bomb : option BlockDifficultyBombData) : Prop :=
  0 ≤ parent_difficulty < 2 ^ 255 ∧ 0 ≤ block_number
  ∧ match difficulty_bomb with
    | Some b => 0 ≤ delay_to b ∧ block_number - delay_to b < 254 * 100000
    | None => True
    end.

Lemma epsilon_range block_number b :
  0 ≤ block_number → 0 ≤ delay_to b → block_number - delay_to b < 254 * 100000 →
  0 ≤ epsilon block_number (Some b) < 2 ^ 252.
Proof.
  intros H0 H1 H2. unfold epsilon. cbv zeta.
  destruct (Z.leb_spec 2 (Z.max (block_number - delay_to b) 0 / 100000)); [|lia].
  split; [lia|]. apply Z.pow_lt_mono_r; [lia|lia|].
  assert (Z.max (block_number - delay_to b) 0 / 100000 < 254); [|lia].
  apply Z.div_lt_upper_bound; lia.
Qed.

(** The bomb: a saturating subtraction, and a shift that stays in the word. *)
Lemma bomb_step d block_number b :
  0 ≤ block_number → 0 ≤ delay_to b → block_number - delay_to b < 254 * 100000 →
  0 ≤ d → d + epsilon block_number (Some b) < 2 ^ 256 →
  (let n := saturating_sub block_number (delay_to b) / 100000 in
   if 2 <=? n then u256_add d (u256_shl 1 (u64_sub n 2 mod 256)) else d)
  = d + epsilon block_number (Some b).
Proof.
  intros H0 H1 H2 Hd. pose proof (epsilon_range block_number b H0 H1 H2) as He. revert He.
  unfold epsilon, saturating_sub. cbv zeta. rewrite (Z.max_comm 0).
  assert (Hn : Z.max (block_number - delay_to b) 0 / 100000 < 254)
    by (apply Z.div_lt_upper_bound; lia).
  assert (Hn0 : 0 ≤ Z.max (block_number - delay_to b) 0 / 100000) by (apply Z.div_pos; lia).
  set (n := _ / 100000) in *. clearbody n.
  destruct (Z.leb_spec 2 n); [|lia]. intros He Hs.
  rewrite u64_sub_small by word_lia. rewrite (Z.mod_small (n - 2)) by lia.
  unfold u256_shl. rewrite Z.shiftl_mul_pow2, Z.mul_1_l by lia.
  rewrite wrap_small by word_lia. by rewrite u256_add_small by word_lia.
Qed.

(** The adjustment: subtracting 99 shares and adding some back never
    underflows, and amounts to the signed factor. *)
Lemma shares_step d k x :
  0 ≤ x → 2048 * x ≤ d → d < 2 ^ 255 → 0 ≤ k ≤ 101 →
  u256_add (u256_sub d (u256_mul x 99)) (u256_mul k x) = d + x * (k - 99).
Proof.
  intros Hx Hd Hd2 Hk.
  assert (k * x ≤ 101 * x) by nia. assert (0 ≤ k * x) by nia.
  rewrite (u256_mul_small x) by word_lia. rewrite u256_sub_small by word_lia.
  rewrite (u256_mul_small k) by word_lia. rewrite u256_add_small by word_lia. lia.
Qed.

Lemma shares_drop d x :
  0 ≤ x → 2048 * x ≤ d → d < 2 ^ 255 → u256_sub d (u256_mul x 99) = d + x * -99.
Proof.
  intros. rewrite (u256_mul_small x) by word_lia. rewrite u256_sub_small by word_lia. lia.
Qed.

Lemma adjust_step d x t uncles byzantium homestead :
  0 ≤ x → 2048 * x ≤ d → d < 2 ^ 255 → 0 ≤ t →
  (if byzantium : bool then
     let difficulty := u256_sub d (u256_mul x 99) in
     let y := if uncles : bool then 2 else 1 in
     if t / 9 <? u64_add 99 y
     then u256_add difficulty (u256_mul (u64_sub (u64_add 99 y) (t / 9)) x) else difficulty
   else if homestead : bool then
     let difficulty := u256_sub d (u256_mul x 99) in
     if t / 10 <? 100 then u256_add difficulty (u256_mul (u64_sub 100 (t / 10)) x)
     else difficulty
   else if t <? 13 then u256_add d x else u256_sub d x)
  = d + x * sigma2 uncles byzantium homestead t.
Proof.
  intros Hx Hd Hd2 Ht. unfold sigma2.
  pose proof (Z.div_pos t 9 Ht ltac:(lia)). pose proof (Z.div_pos t 10 Ht ltac:(lia)).
  destruct byzantium; [|destruct homestead]; cbv zeta.
  - assert (u64_add 99 (if uncles then 2 else 1) = 99 + (if uncles then 2 else 1)) as ->
      by (by destruct uncles).
    set (y := if uncles then 2 else 1). assert (1 ≤ y ≤ 2) by (subst y; destruct uncles; lia).
    clearbody y. destruct (Z.ltb_spec (t / 9) (99 + y)).
    + rewrite u64_sub_small by word_lia. rewrite shares_step by lia. f_equal. nia.
    + rewrite shares_drop by done. f_equal. nia.
  - destruct (Z.ltb_spec (t / 10) 100).
    + rewrite u64_sub_small by word_lia. rewrite shares_step by lia. f_equal. nia.
    + rewrite shares_drop by done. f_equal. nia.
  - destruct (Z.ltb_spec t 13); [rewrite u256_add_small by word_lia|rewrite u256_sub_small by word_lia]; lia.
Qed.

Lemma sigma2_range uncles byzantium homestead t :
  0 ≤ t → -99 ≤ sigma2 uncles byzantium homestead t ≤ 2.
Proof.
  intros Ht. unfold sigma2.
  pose proof (Z.div_pos t 9 Ht ltac:(lia)). pose proof (Z.div_pos t 10 Ht ltac:(lia)).
  destruct byzantium; [destruct uncles; lia|]. destruct homestead; [lia|].
  destruct (t <? 13); lia.
Qed.

(** C21. The difficulty computed in wrapping unsigned arithmetic is the one
    of the Yellow Paper's signed formula (with EIP-100 from Byzantium on),
    for a header later than its parent and a difficulty below [2 ^ 255]: no
    subtraction underflows, no sum overflows, and the ice age's shift stays
    in the word up to 25.4 million blocks past its delay. *)
Theorem canonical_difficulty_yellow_paper (bn ts pd pts : Z)
  (uncles byzantium homestead : bool) (bomb : option BlockDifficultyBombData)
  (Hts : 0 ≤ pts ≤ ts) (Hts' : ts < 2 ^ 64) (H : in_range pd bn bomb) :
  canonical_difficulty bn ts pd pts uncles byzantium homestead bomb
  = yellow_paper_difficulty bn (ts - pts) pd uncles byzantium homestead bomb.
Proof.
  destruct H as (Hpd & Hbn & Hb). unfold canonical_difficulty, yellow_paper_difficulty.
  rewrite (u64_sub_small ts pts) by word_lia. rewrite Z.shiftr_div_pow2 by lia.
  change (2 ^ 11) with 2048.
  assert (0 ≤ pd / 2048) by (apply Z.div_pos; lia).
  assert (2048 * (pd / 2048) ≤ pd) by (apply Z.mul_div_le; lia).
  cbv zeta. rewrite adjust_step by (try done; lia).
  pose proof (sigma2_range uncles byzantium homestead (ts - pts) ltac:(lia)) as Hs.
  set (s := sigma2 _ _ _ _) in *. set (x := pd / 2048) in *. clearbody s x.
  assert (0 ≤ pd + x * s) by nia. assert (x * s ≤ 2 * x) by nia.
  destruct bomb as [b|]; unfold MIN_DIFFICULTY; [|cbn [epsilon]; lia].
  destruct Hb as [Hb1 Hb2]. pose proof (epsilon_range bn b Hbn Hb1 Hb2).
  pose proof (bomb_step (pd + x * s) bn b Hbn Hb1 Hb2) as Hbomb. cbv zeta in Hbomb.
  rewrite Hbomb; word_lia.
Qed.

Lemma canonical_difficulty_yellow_paper_witness :
  canonical_difficulty 9_069_000 1_000_020 2_400_000_000_000_000 1_000_000 true true true
    (Some {| delay_to := 5_000_000 |}) = 2_400_000_000_000_000 + 274_877_906_944
  ∧ canonical_difficulty 9_069_000 1_000_020 2_400_000_000_000_000 1_000_000 true true true
    (Some {| delay_to := 5_000_000 |})
  = yellow_paper_difficulty 9_069_000 20 2_400_000_000_000_000 true true true
      (Some {| delay_to := 5_000_000 |}).
Proof.
  split; [by vm_compute|].
  apply (canonical_difficulty_yellow_paper 9_069_000 1_000_020 _ 1_000_000);
    [lia|lia|split_and!; cbn; lia].
Defined.
