(* ===== verification/Consensus.v ===== *)
(** * Consensus

    [src/src/consensus/mod.rs], [base.rs] and [ethash/mod.rs]: the checks on
    transactions, headers and blocks before execution, the rewards after it,
    and the [Consensus] trait as a record of operations on a store. The
    system clock and the proof-of-work hash are parameters. *)

From S2P Require Import Prelude Words Errors Params ChainSpec Transaction Block StateTrait.
From S2P Require Import InMemoryState Account Difficulty.

(** ** Transactions *)

Definition pre_validate_transaction (txn : Message) (canonical_chain_id : Z)
    (base_fee_per_gas : option Z) : res ValidationError unit :=
  match Tx.chain_id txn with
  | Some chain_id => fail_if (negb (chain_id =? canonical_chain_id)) WrongChainId
  | None => Ok tt
  end;;
  match base_fee_per_gas with
  | Some base_fee => fail_if (Tx.max_fee_per_gas txn <? base_fee) MaxFeeLessThanBase
  | None => Ok tt
  end;;
  fail_if (Tx.max_fee_per_gas txn <? Tx.max_priority_fee_per_gas txn)
    MaxPriorityFeeGreaterThanMax.

(** [?] on a [Result<_, ValidationError>] in a function of [anyhow::Result]. *)
Definition lift_validation {A} (r : res ValidationError A) : result A :=
  match r with Ok a => Ok a | Err e => Err (Validation e) | Panic => Panic end.

(** [.context(e)] on a [Result]. *)
Definition with_context {A} (e : ValidationError) (r : result A) : result A :=
  match r with Err inner => Err (Context e inner) | r => r end.

(** ** The base engine *)

Record ConsensusEngineBase : Type := {
  base_chain_id : Z;
  base_eip1559_block : option Z
}.

(** The proof-of-work library and the hash it seals: a block's number gives
    the cache, the cache and the header's hash and nonce the mix and the
    final hash. *)
Class Pow : Type := {
  hashimoto : Z → Z → Z → Z * Z;
  cross_boundary : Z → Z;
  truncated_hash : BlockHeader → Z
}.

Definition i64_max : Z := 2 ^ 63 - 1.

Definition fail (b : bool) (e : ValidationError) : result unit := fail_if b (Validation e).

Section base.
Context {S : Type} {HS : State S} {HH : Hashing}.
Implicit Types (c : ConsensusEngineBase) (header parent ommer : BlockHeader) (state : S).

(** EIP-1559. The quotients by [parent_gas_target] divide by zero, a panic,
    when the parent's gas limit is below 2. *)
Definition expected_base_fee_per_gas c header parent : result (option Z) :=
  match base_eip1559_block c with
  | Some fork_block =>
      if fork_block <=? number header then
        if number header =? fork_block then Ok (Some param.INITIAL_BASE_FEE)
        else
          let parent_gas_target := gas_limit parent / param.ELASTICITY_MULTIPLIER in
          parent_base_fee ← unwrap (base_fee_per_gas parent);
          if gas_used parent =? parent_gas_target then Ok (Some parent_base_fee)
          else if parent_gas_target =? 0 then Panic
          else if parent_gas_target <? gas_used parent then
            let gas_used_delta := u64_sub (gas_used parent) parent_gas_target in
            let base_fee_delta :=
              Z.max 1 (u256_mul parent_base_fee gas_used_delta / parent_gas_target
                       / param.BASE_FEE_MAX_CHANGE_DENOMINATOR) in
            Ok (Some (u256_add parent_base_fee base_fee_delta))
          else
            let gas_used_delta := u64_sub parent_gas_target (gas_used parent) in
            let base_fee_delta :=
              u256_mul parent_base_fee gas_used_delta / parent_gas_target
                / param.BASE_FEE_MAX_CHANGE_DENOMINATOR in
            Ok (Some (saturating_sub parent_base_fee base_fee_delta))
      else Ok None
  | None => Ok None
  end.

(** [now] is the clock's answer, in seconds of the Unix epoch. *)
Definition base_validate_block_header c (now : result Z) header parent
    (with_future_timestamp_check : bool) : result unit :=
  (if with_future_timestamp_check then
     now ← now;
     fail (now <? timestamp header) (FutureBlock now (timestamp header))
   else Ok tt);;
  fail (gas_limit header <? gas_used header)
    (GasAboveLimit (gas_used header) (gas_limit header));;
  fail (gas_limit header <? 5000) InvalidGasLimit;;
  fail (i64_max <? gas_limit header) InvalidGasLimit;;
  fail (32 <? Z.of_nat (length (extra_data header))) ExtraDataTooLong;;
  fail (timestamp header <=? timestamp parent)
    (InvalidTimestamp (timestamp parent) (timestamp header));;
  let parent_gas_limit :=
    match base_eip1559_block c with
    | Some fork_block =>
        if fork_block =? number header
        then u64_mul (gas_limit parent) param.ELASTICITY_MULTIPLIER
        else gas_limit parent
    | None => gas_limit parent
    end in
  let gas_delta :=
    if parent_gas_limit <? gas_limit header
    then u64_sub (gas_limit header) parent_gas_limit
    else u64_sub parent_gas_limit (gas_limit header) in
  fail (parent_gas_limit / 1024 <=? gas_delta) InvalidGasLimit;;
  expected ← expected_base_fee_per_gas c header parent;
  fail (bool_decide (base_fee_per_gas header ≠ expected))
    (WrongBaseFee expected (base_fee_per_gas header)).

Definition get_parent_header state header : result (option BlockHeader) :=
  match checked_sub (number header) 1 with
  | Some parent_number => read_header state parent_number (parent_hash header)
  | None => Ok None
  end.

(** [is_kin] with the ommers it collects on the way ([old_ommers]). *)
Fixpoint is_kin (branch_header mainline_header : BlockHeader) (mainline_hash : Z) (n : nat)
    state (old_ommers : list BlockHeader) : result (bool * list BlockHeader) :=
  match n with
  | O => Ok (false, old_ommers)
  | Datatypes.S n' =>
      if decide (branch_header = mainline_header) then Ok (false, old_ommers)
      else
        mainline_body ← read_body state (number mainline_header) mainline_hash;
        match mainline_body with
        | Some mainline_body =>
            let old_ommers := old_ommers ++ body_ommers mainline_body in
            mainline_parent ← get_parent_header state mainline_header;
            branch_parent ← get_parent_header state branch_header;
            match mainline_parent with
            | Some mainline_parent =>
                if bool_decide (branch_parent = Some mainline_parent)
                then Ok (true, old_ommers)
                else is_kin branch_header mainline_parent (parent_hash mainline_header) n'
                       state old_ommers
            | None => Ok (false, old_ommers)
            end
        | None => Ok (false, old_ommers)
        end
  end.

(** The body of the loop over the ommers. *)
Definition validate_ommer c (now : result Z) (block : Block) parent ommer state : result unit :=
  ommer_parent ← get_parent_header state ommer;
  ommer_parent ← ok_or (Validation UnknownParent) ommer_parent;
  with_context InvalidOmmerHeader (base_validate_block_header c now ommer ommer_parent false);;
  '(kin, old_ommers) ← is_kin ommer parent (parent_hash (header block)) 6 state [];
  fail (negb kin) NotAnOmmer;;
  fail (bool_decide (ommer ∈ old_ommers)) DuplicateOmmer.

Definition base_pre_validate_block c (now : result Z) (block : Block) state : result unit :=
  let expected_ommers_hash := ommers_rlp_hash (ommers block) in
  fail (negb (ommers_hash (header block) =? expected_ommers_hash))
    (WrongOmmersHash expected_ommers_hash (ommers_hash (header block)));;
  let expected_transactions_root := transactions_trie_root (transactions block) in
  fail (negb (transactions_root (header block) =? expected_transactions_root))
    (WrongTransactionsRoot expected_transactions_root (transactions_root (header block)));;
  fail (2 <? Z.of_nat (length (ommers block))) TooManyOmmers;;
  fail (match ommers block with [a; b] => bool_decide (a = b) | _ => false end) DuplicateOmmer;;
  parent ← get_parent_header state (header block);
  parent ← ok_or (Validation UnknownParent) parent;
  res_foldl (fun _ ommer => validate_ommer c now block parent ommer state) tt (ommers block);;
  res_foldl (fun _ txn => lift_validation (pre_validate_transaction (message txn)
      (base_chain_id c) (base_fee_per_gas (header block)))) tt (transactions block).
End base.

(** ** Ethash *)

Inductive FinalizationChange : Type := Reward (address amount : Z).

Record Ethash : Type := {
  eth_base : ConsensusEngineBase;
  eth_duration_limit : Z;
  eth_block_reward : gmap Z Z;
  eth_homestead_formula : option Z;
  eth_byzantium_formula : option Z;
  eth_difficulty_bomb : option DifficultyBomb;
  eth_skip_pow_verification : bool
}.

Definition ethash_new (chain_id : Z) (eip1559_block : option Z) (duration_limit : Z)
    (block_reward : gmap Z Z) (homestead_formula byzantium_formula : option Z)
    (difficulty_bomb : option DifficultyBomb) (skip_pow_verification : bool) : Ethash :=
  {| eth_base := {| base_chain_id := chain_id; base_eip1559_block := eip1559_block |};
     eth_duration_limit := duration_limit;
     eth_block_reward := block_reward;
     eth_homestead_formula := homestead_formula;
     eth_byzantium_formula := byzantium_formula;
     eth_difficulty_bomb := difficulty_bomb;
     eth_skip_pow_verification := skip_pow_verification |}.

Section ethash.
Context {S : Type} {HS : State S} {HH : Hashing} {HP : Pow}.
Implicit Types (e : Ethash) (header : BlockHeader) (state : S).

Definition eth_validate_block_header e (now : result Z) header state
    (with_future_timestamp_check : bool) : result unit :=
  parent ← get_parent_header state header;
  parent ← ok_or (Validation UnknownParent) parent;
  base_validate_block_header (eth_base e) now header parent with_future_timestamp_check;;
  let parent_has_uncles := negb (ommers_hash parent =? EMPTY_LIST_HASH) in
  let d := canonical_difficulty (number header) (timestamp header) (difficulty parent)
             (timestamp parent) parent_has_uncles
             (switch_is_active (eth_byzantium_formula e) (number header))
             (switch_is_active (eth_homestead_formula e) (number header))
             ((fun b => {| delay_to := get_delay_to b (number header) |})
                <$> eth_difficulty_bomb e) in
  fail (negb (d =? difficulty header)) WrongDifficulty.

Definition validate_seal e header : result unit :=
  if eth_skip_pow_verification e then Ok tt
  else
    let '(mixh, final_hash) :=
      hashimoto (number header) (truncated_hash header) (header_nonce header) in
    fail (negb (mixh =? mix_hash header)) InvalidSeal;;
    fail (cross_boundary (difficulty header) <? h256_to_u256 final_hash) InvalidSeal.

Definition block_reward_of (revision : Revision) : Z :=
  if rev_ge revision Constantinople then param.BLOCK_REWARD_CONSTANTINOPLE
  else if rev_ge revision Byzantium then param.BLOCK_REWARD_BYZANTIUM
  else param.BLOCK_REWARD_FRONTIER.

(** [finalize]: the ommers' rewards in order, the miner's last. *)
Definition finalize (header : PartialHeader) (ommers : list BlockHeader) (revision : Revision)
    : result (list FinalizationChange) :=
  let block_reward := block_reward_of revision in
  let block_number := ph_number header in
  let '(changes, miner_reward) :=
    foldl (fun '(changes, miner_reward) ommer =>
        let ommer_reward :=
          Z.shiftr (u256_mul (u64_sub (u64_add 8 (number ommer)) block_number) block_reward) 3 in
        (changes ++ [Reward (beneficiary ommer) ommer_reward],
         u128_add miner_reward (block_reward / 32)))
      ([], block_reward) ommers in
  Ok (changes ++ [Reward (ph_beneficiary header) miner_reward]).

Definition get_beneficiary (header : BlockHeader) : result Z := Ok (beneficiary header).
End ethash.

(** ** The trait *)

Record Consensus (S : Type) : Type := mkConsensus {
  c_pre_validate_block : Block → S → result unit;
  c_validate_block_header : BlockHeader → S → bool → result unit;
  c_validate_seal : BlockHeader → result unit;
  c_finalize : PartialHeader → list BlockHeader → Revision → result (list FinalizationChange);
  c_get_beneficiary : BlockHeader → result Z
}.
Arguments mkConsensus {S}. Arguments c_pre_validate_block {S}.
Arguments c_validate_block_header {S}. Arguments c_validate_seal {S}.
Arguments c_finalize {S}. Arguments c_get_beneficiary {S}.

Definition ethash_consensus {S : Type} {HS : State S} {HH : Hashing} {HP : Pow} (now : result Z)
    (e : Ethash) : Consensus S := {|
  c_pre_validate_block := base_pre_validate_block (eth_base e) now;
  c_validate_block_header := eth_validate_block_header e now;
  c_validate_seal := validate_seal e;
  c_finalize := finalize;
  c_get_beneficiary := get_beneficiary
|}.

Definition engine_factory {S : Type} {HS : State S} {HH : Hashing} {HP : Pow} (now : result Z)
    (chain_config : ChainSpec) : result (Consensus S) :=
  match seal_verification (consensus chain_config) with
  | EthashSeal duration_limit block_reward homestead_formula byzantium_formula
      difficulty_bomb skip_pow_verification =>
      Ok (ethash_consensus now
            (ethash_new (ChainSpec.chain_id (params chain_config))
               (eip1559_block (consensus chain_config)) duration_limit block_reward
               homestead_formula byzantium_formula difficulty_bomb skip_pow_verification))
  | Clique _ _ => Err (Bail "unsupported consensus engine")
  end.

(** ** Headers *)

(** The gas limit a header is compared with: doubled at the London block. *)
Definition adjusted_parent_gas_limit (c : ConsensusEngineBase) (header parent : BlockHeader) : Z :=
  if decide (base_eip1559_block c = Some (number header))
  then 2 * gas_limit parent else gas_limit parent.

Lemma fail_ok b e u : fail b e = Ok u ↔ b = false.
Proof. destruct b; cbn; destruct u; split; congruence. Qed.

Lemma res_seq_ok {A B} (m : result A) (f : result B) b :
  (m;; f) = Ok b ↔ is_ok m = true ∧ f = Ok b.
Proof. destruct m; cbn; naive_solver. Qed.

Lemma is_ok_fail b e : is_ok (fail b e) = true ↔ b = false.
Proof. by destruct b. Qed.

Section header_properties.
Implicit Types (c : ConsensusEngineBase) (header parent : BlockHeader).


(** The formula of EIP-1559 over unbounded integers, for a parent with gas
    limit [limit], gas used [used] and base fee [base]. *)
Definition eip1559_base_fee (limit used base : Z) : Z :=
  let target := limit / 2 in
  if used =? target then base
  else if target <? used then base + Z.max 1 (base * (used - target) / target / 8)
  else base - base * (target - used) / target / 8.

Lemma eip1559_decrease base target used :
  0 ≤ base → 0 < target → 0 ≤ used ≤ target →
  0 ≤ base * (target - used) / target / 8 ≤ base / 8.
Proof.
  intros Hb Ht Hu.
  assert (base * (target - used) / target ≤ base).
  { apply Z.div_le_upper_bound; [lia|]. nia. }
  assert (0 ≤ base * (target - used) / target) by (apply Z.div_pos; nia).
  split; [apply Z.div_pos; lia|apply Z.div_le_mono; lia].
Qed.

(** C23. The base fee expected of a header after the London block: the
    formula of EIP-1559, with no overflow, no underflow and no division by
    zero, for every parent a header check accepts with a base fee below
    [2 ^ 192]. It rises by at least 1 when the parent used more than its
    target, and never falls by more than an eighth. *)
Theorem expected_base_fee_eip1559 c header parent fork base
  (Hc : base_eip1559_block c = Some fork) (Hn : fork < number header)
  (Hl : 5000 ≤ gas_limit parent < 2 ^ 63) (Hu : 0 ≤ gas_used parent ≤ gas_limit parent)
  (Hb : base_fee_per_gas parent = Some base) (Hb' : 0 ≤ base < 2 ^ 192) :
  let new := eip1559_base_fee (gas_limit parent) (gas_used parent) base in
  expected_base_fee_per_gas c header parent = Ok (Some new)
  ∧ base - base / 8 ≤ new
  ∧ (gas_limit parent / 2 < gas_used parent → base < new)
  ∧ (gas_used parent ≤ gas_limit parent / 2 → new ≤ base).
Proof.
  unfold expected_base_fee_per_gas, eip1559_base_fee. rewrite Hc, Hb.
  unfold param.ELASTICITY_MULTIPLIER, param.BASE_FEE_MAX_CHANGE_DENOMINATOR.
  rewrite (proj2 (Z.leb_le _ _)), (proj2 (Z.eqb_neq _ _)) by lia. cbv zeta. cbn [unwrap]. res_simpl.
  assert (2500 ≤ gas_limit parent / 2) by (apply Z.div_le_lower_bound; lia).
  assert (gas_limit parent ≤ 2 * (gas_limit parent / 2) + 1).
  { pose proof (Z.div_mod (gas_limit parent) 2 ltac:(lia)).
    pose proof (Z.mod_pos_bound (gas_limit parent) 2). lia. }
  set (target := gas_limit parent / 2) in *. set (used := gas_used parent) in *.
  assert (target < 2 ^ 63) by (subst target; apply Z.div_lt_upper_bound; lia).
  clearbody target used. pose proof (Z.div_pos base 8 ltac:(lia) ltac:(lia)).
  destruct (Z.eqb_spec used target); [split_and!; [done|lia..]|].
  rewrite (proj2 (Z.eqb_neq target 0)) by lia.
  destruct (Z.ltb_spec target used).
  - assert (0 ≤ used - target ≤ target + 1) by lia.
    assert (0 ≤ base * (used - target) < 2 ^ 256).
    { split; [nia|]. apply Z.le_lt_trans with (2 ^ 192 * 2 ^ 63); [nia|lia]. }
    rewrite u64_sub_small by word_lia. rewrite u256_mul_small by word_lia.
    assert (0 ≤ base * (used - target) / target / 8 ≤ 2 ^ 192).
    { split; [repeat apply Z.div_pos; lia|].
      apply Z.div_le_upper_bound; [lia|]. apply Z.div_le_upper_bound; [lia|]. nia. }
    rewrite u256_add_small by word_lia. split_and!; [done|lia..].
  - pose proof (eip1559_decrease base target used ltac:(lia) ltac:(lia) ltac:(lia)).
    assert (0 ≤ base * (target - used) < 2 ^ 256).
    { split; [nia|]. apply Z.le_lt_trans with (2 ^ 192 * 2 ^ 63); [nia|lia]. }
    rewrite u64_sub_small by word_lia. rewrite u256_mul_small by word_lia.
    assert (base / 8 ≤ base) by (apply Z.div_le_upper_bound; lia).
    unfold saturating_sub. rewrite Z.max_r by lia. split_and!; [done|lia..].
Qed.
End header_properties.

Definition demo_header (n gas used ts : Z) (fee : option Z) : BlockHeader :=
  mkHeader 0 0 0 0 0 0 0 131072 n gas used ts [] 0 0 fee.

Definition demo_engine : ConsensusEngineBase :=
  {| base_chain_id := 1; base_eip1559_block := Some 10 |}.


Lemma expected_base_fee_eip1559_witness :
  expected_base_fee_per_gas demo_engine (demo_header 12 10_000_000 0 101 None)
    (demo_header 11 10_000_000 10_000_000 100 (Some 800)) = Ok (Some 900).
Proof.
  apply (expected_base_fee_eip1559 demo_engine (demo_header 12 10_000_000 0 101 None)
    (demo_header 11 10_000_000 10_000_000 100 (Some 800)) 10 800); cbn; done || lia.
Defined.

(** ** Ommers and rewards *)

(** A store gives back, under a number, only headers of that number. *)
Definition well_numbered {S : Type} {HS : State S} (state : S) : Prop :=
  ∀ n h hd, 0 ≤ n → read_header state n h = Ok (Some hd) → number hd = n.

Section ommer_properties.
Context {S : Type} {HS : State S} {HH : Hashing}.
Implicit Types (c : ConsensusEngineBase) (hd parent ommer : BlockHeader) (state : S).

Lemma get_parent_header_number state hd parent :
  well_numbered state → get_parent_header state hd = Ok (Some parent) →
  number parent = number hd - 1 ∧ 1 ≤ number hd.
Proof.
  unfold get_parent_header, checked_sub. intros Hw.
  destruct (Z.ltb_spec (number hd) 1); [done|]. intros H1%Hw; lia.
Qed.

(** A branch accepted as kin starts at most [n - 1] generations before the
    mainline header. *)
Lemma is_kin_number state ommer n : ∀ mainline h old old',
  well_numbered state → is_kin ommer mainline h n state old = Ok (true, old') →
  number mainline - (Z.of_nat n - 1) ≤ number ommer ≤ number mainline
  ∧ 1 ≤ number ommer.
Proof.
  induction n as [|n IH]; intros mainline h old old' Hw H; cbn [is_kin] in H; [done|].
  case_decide; [done|]. res_inv. destruct a as [body|]; [|done]. res_inv.
  destruct a as [mp|]; [|done].
  apply get_parent_header_number in Hm0 as [Hn1 Hn1']; [|done].
  match type of H with context [bool_decide ?P] => destruct (bool_decide_reflect P) end; subst.
  - apply get_parent_header_number in Hm1 as [Hn2 Hn2']; [|done]. lia.
  - apply IH in H; [lia|done].
Qed.

Lemma res_foldl_unit_in {A} (f : A → result unit) l a :
  res_foldl (fun _ x => f x) tt l = Ok tt → a ∈ l → f a = Ok tt.
Proof.
  induction l as [|x l IH]; intros H Hin; [by apply elem_of_nil in Hin|].
  cbn in H. res_inv. destruct a0. apply elem_of_cons in Hin as [->|Hin]; auto.
Qed.

Lemma pre_validate_block_ommer c now block state ommer :
  base_pre_validate_block c now block state = Ok tt → ommer ∈ ommers block →
  ∃ parent, get_parent_header state (header block) = Ok (Some parent)
    ∧ validate_ommer c now block parent ommer state = Ok tt.
Proof.
  unfold base_pre_validate_block, fail. cbv zeta. intros H Hin. res_inv.
  exists a4. split; [done|]. destruct a5. by apply (res_foldl_unit_in _ _ _ Hm5).
Qed.

Lemma validate_ommer_generation c now block state ommer parent :
  well_numbered state → get_parent_header state (header block) = Ok (Some parent) →
  validate_ommer c now block parent ommer state = Ok tt →
  1 ≤ number (header block) - number ommer ≤ 6 ∧ 1 ≤ number ommer.
Proof.
  intros Hw Hp H. unfold validate_ommer, fail in H. res_inv.
  destruct a2 as [kin old]. res_inv. destruct kin; [|done].
  apply is_kin_number in Hm2; [|done].
  apply get_parent_header_number in Hp as [Hn _]; [|done]. lia.
Qed.

(** The rewards as the Yellow Paper states them, over unbounded integers. *)
Definition ommer_reward (R block_number : Z) (ommer : BlockHeader) : FinalizationChange :=
  Reward (beneficiary ommer) ((8 - (block_number - number ommer)) * R / 8).

Lemma block_reward_of_range rev : 0 < block_reward_of rev ≤ 5 * 10 ^ 18.
Proof.
  unfold block_reward_of, param.BLOCK_REWARD_CONSTANTINOPLE, param.BLOCK_REWARD_BYZANTIUM,
    param.BLOCK_REWARD_FRONTIER.
  destruct (rev_ge _ _); [lia|]. destruct (rev_ge _ _); lia.
Qed.

Lemma ommer_rewards_fold R bn l : ∀ changes miner,
  0 < R ≤ 5 * 10 ^ 18 → bn < 2 ^ 63 → 0 ≤ miner →
  miner + Z.of_nat (length l) * (R / 32) < 2 ^ 128 →
  (∀ o, o ∈ l → 1 ≤ bn - number o ≤ 6 ∧ 1 ≤ number o) →
  foldl (fun '(changes, miner_reward) ommer =>
      (changes ++ [Reward (beneficiary ommer)
         (Z.shiftr (u256_mul (u64_sub (u64_add 8 (number ommer)) bn) R) 3)],
       u128_add miner_reward (R / 32))) (changes, miner) l
  = (changes ++ (ommer_reward R bn <$> l), miner + Z.of_nat (length l) * (R / 32)).
Proof.
  induction l as [|o l IH]; intros changes miner HR Hbn Hm Hsum Hl; cbn [foldl].
  - by rewrite app_nil_r, Z.mul_0_l, Z.add_0_r.
  - destruct (Hl o ltac:(left)) as [Ho Ho'].
    assert (0 ≤ R / 32) by (apply Z.div_pos; lia).
    rewrite length_cons in *.
    unfold u128_add. rewrite (wrap_small 128) by word_lia.
    rewrite IH; [|done..|lia|lia|intros; apply Hl; by right].
    rewrite (u64_add_small 8) by word_lia. rewrite u64_sub_small by word_lia.
    assert (0 ≤ (8 + number o - bn) * R < 2 ^ 256).
    { split; [nia|]. apply Z.le_lt_trans with (8 * (5 * 10 ^ 18)); [nia|lia]. }
    rewrite u256_mul_small by word_lia. rewrite Z.shiftr_div_pow2 by lia.
    rewrite <- app_assoc. cbn. unfold ommer_reward at 2.
    f_equal; [|lia]. do 4 f_equal. lia.
Qed.

(** C14. A block that passes pre-validation has its ommers within the last
    six generations, and its finalisation pays, without any wrap-around, the
    rewards of the Yellow Paper: [(8 - k) / 8] of the block reward to an
    ommer of [k] generations before, in order, and to the miner the block
    reward with a 32nd more per ommer. *)
Theorem finalize_rewards c now block state revision
  (Hw : well_numbered state) (Hn : number (header block) < 2 ^ 63)
  (H : base_pre_validate_block c now block state = Ok tt) :
  let R := block_reward_of revision in
  let bn := number (header block) in
  finalize (partial_of_header (header block)) (ommers block) revision
  = Ok ((ommer_reward R bn <$> ommers block)
        ++ [Reward (beneficiary (header block)) (R + Z.of_nat (length (ommers block)) * (R / 32))])
  ∧ (∀ ommer, ommer ∈ ommers block → 1 ≤ bn - number ommer ≤ 6)
  ∧ (length (ommers block) ≤ 2)%nat ∧ NoDup (ommers block).
Proof.
  assert ((length (ommers block) ≤ 2)%nat ∧ NoDup (ommers block)) as [Hlen Hnd].
  { unfold base_pre_validate_block, fail in H. cbv zeta in H. res_inv. zbool.
    split; [lia|]. destruct (ommers block) as [|a' [|b' [|]]]; cbn in *; try lia; try by repeat constructor; set_solver.
    case_bool_decide; [done|]. repeat constructor; set_solver. }
  assert (∀ o, o ∈ ommers block → 1 ≤ number (header block) - number o ≤ 6 ∧ 1 ≤ number o) as Ho.
  { intros o Hin. destruct (pre_validate_block_ommer _ _ _ _ _ H Hin) as (p & Hp & Hv).
    by apply (validate_ommer_generation _ _ _ _ _ _ Hw Hp Hv). }
  pose proof (block_reward_of_range revision) as HR. cbv zeta.
  split_and!; [|intros o Hin; by apply Ho|done|done].
  assert (0 ≤ block_reward_of revision / 32 ≤ 5 * 10 ^ 18).
  { split; [apply Z.div_pos; lia|apply Z.div_le_upper_bound; lia]. }
  unfold finalize. cbv zeta. cbn [ph_number partial_of_header ph_beneficiary].
  rewrite ommer_rewards_fold by (done || nia). done.
Qed.
End ommer_properties.

(** The in-memory store stays well numbered as blocks are inserted. *)
Definition ims_well_numbered (s : InMemoryState) : Prop :=
  ∀ n m h hd, headers s !! n = Some m → m !! h = Some hd → number hd = Z.of_nat n.

Lemma ims_well_numbered_state s : ims_well_numbered s → well_numbered s.
Proof.
  intros Hw n h hd Hn. cbn. unfold IMS.read_header. intros [= H].
  apply bind_Some in H as (m & Hm & Hh). rewrite (Hw _ _ _ _ Hm Hh). lia.
Qed.

Lemma lookup_grow {A} (d : A) n v i x :
  grow d n v !! i = Some x → v !! i = Some x ∨ x = d.
Proof.
  unfold grow. destruct (Nat.leb_spec (length v) n); [|by left].
  intros [?|[_ Hr]]%lookup_app_Some; [by left|]. apply lookup_replicate in Hr as [-> _]. by right.
Qed.

Lemma insert_block_well_numbered block hash s :
  0 ≤ number (header block) → ims_well_numbered s → ims_well_numbered (insert_block block hash s).
Proof.
  intros Hn Hw n m h hd. unfold insert_block. cbv zeta.
  set (g := grow _ _ (difficulties s)).
  destruct (match Z.to_nat _ with O => _ | _ => _ end) as [td ds]. cbn [headers ims_chain].
  assert (∀ n m h hd, grow ∅ (Z.to_nat (number (header block))) (headers s) !! n = Some m →
            m !! h = Some hd → number hd = Z.of_nat n) as Hg.
  { intros n' m' h' hd' [Hl| ->]%lookup_grow; [by apply (Hw _ _ _ _ Hl)|].
    by rewrite lookup_empty. }
  destruct (decide (n = Z.to_nat (number (header block)))) as [->|Hne].
  - rewrite list_lookup_alter_eq. intros (m0 & Hm0 & ->)%fmap_Some.
    destruct (decide (h = hash)) as [->|Hh].
    + rewrite lookup_insert_eq. intros [= <-]. lia.
    + rewrite lookup_insert_ne by done. by apply Hg.
  - rewrite list_lookup_alter_ne by done. apply Hg.
Qed.

Definition demo_link (n parent coinbase ts omm : Z) : BlockHeader :=
  mkHeader parent omm coinbase 0 0 0 0 131072 n 10_000_000 0 ts [] 0 0 None.

Definition demo_grandparent : Block := mkBlock (demo_link 4 0 1 100 0) [] [].
Definition demo_parent : Block := mkBlock (demo_link 5 104 2 101 0) [] [].
Definition demo_ommer : BlockHeader := demo_link 5 104 3 102 0.
Definition demo_block : Block := mkBlock (demo_link 6 105 4 103 1) [] [demo_ommer].

Definition demo_chain : InMemoryState :=
  insert_block demo_parent 105 (insert_block demo_grandparent 104 empty_ims).

Lemma finalize_rewards_witness :
  let R := 5 * 10 ^ 18 in
  finalize (partial_of_header (header demo_block)) (ommers demo_block) Homestead
  = Ok [Reward 3 (7 * R / 8); Reward 4 (R + R / 32)].
Proof.
  destruct (finalize_rewards (HH := toy_hashing) {| base_chain_id := 1; base_eip1559_block := None |}
    Panic demo_block demo_chain Homestead) as (H & _).
  - apply ims_well_numbered_state. do 2 (apply insert_block_well_numbered; [cbn; lia|]).
    intros n m h hd Hn. cbn in Hn. by rewrite lookup_nil in Hn.
  - cbn. lia.
  - vm_compute. reflexivity.
  - rewrite H. vm_compute. reflexivity.
Defined.
