(* ===== verification/Processor.v ===== *)
(** * Processor

    [src/src/execution/processor.rs]: the execution of a block's
    transactions on an intra-block state. What the processor borrows (the
    header, the body, the block specification, the engine) are arguments; its
    cumulative gas is threaded along. The EVM is reached through the
    interface [Evm]. *)

From stdpp Require Import pretty.
From S2P Require Import Prelude Words Errors Account Params ChainSpec Transaction Block.
From S2P Require Import StateTrait InMemoryState IntraBlockState Journal View Difficulty Consensus.

(** [CallResult] of [evm.rs]. *)
Record CallResult : Type := mkCallResult {
  call_success : bool;
  gas_left : Z;
  output_data : bytes
}.

(** [evm::execute], with its header, block specification, transaction and
    gas. *)
Class Evm (S : Type) : Type :=
  evm_execute : PartialHeader → BlockExecutionSpec → MessageWithSender → Z → M S CallResult.

(** What the processor relies on: the gas left is between zero and the gas
    given, the refund counter is a 64-bit word, and the store is only read. *)
Class EvmLaws (S : Type) {HE : Evm S} : Prop := {
  evm_gas_left header spec txn gas st r st' :
    0 ≤ gas < 2 ^ 63 → evm_execute header spec txn gas st = Ok (r, st') →
    0 ≤ gas_left r ≤ gas;
  evm_refund header spec txn gas st r st' :
    evm_execute header spec txn gas st = Ok (r, st') → is_u64 (refund st) → is_u64 (refund st');
  evm_db header spec txn gas : keeps_db (evm_execute header spec txn gas)
}.

#[export] Hint Resolve evm_db : keeps.

Section processor.
Context {S : Type} {HS : State S} {HH : Hashing} {HE : Evm S}.
Context (engine : Consensus S) (header : PartialHeader) (block : BlockBodyWithSenders)
  (block_spec : BlockExecutionSpec).
Implicit Types (txn : MessageWithSender) (st : IntraBlockState S) (cumulative_gas_used : Z).

Definition available_gas cumulative_gas_used : Z :=
  u64_sub (ph_gas_limit header) cumulative_gas_used.

Definition validate_transaction cumulative_gas_used txn : M S unit :=
  let tx := message_of txn in
  match pre_validate_transaction tx (ChainSpec.chain_id (spec_params block_spec))
          (ph_base_fee_per_gas header) with
  | Ok _ => mret tt
  | _ => lift Panic
  end;;
  code_hash ← get_code_hash (sender txn);
  lift (fail (negb (code_hash =? EMPTY_HASH)) (SenderNoEOA (sender txn)));;
  expected_nonce ← get_nonce (sender txn);
  lift (fail (negb (expected_nonce =? Tx.nonce tx))
          (WrongNonce (sender txn) expected_nonce (Tx.nonce tx)));;
  let max_gas_cost := wrap 512 (Tx.gas_limit tx * Tx.max_fee_per_gas tx) in
  let v0 := wrap 512 (max_gas_cost + Tx.value tx) in
  available_balance ← get_balance (sender txn);
  lift (fail (available_balance <? v0) (InsufficientFunds (sender txn) available_balance v0));;
  lift (fail (available_gas cumulative_gas_used <? Tx.gas_limit tx)
          (BlockGasLimitExceeded (available_gas cumulative_gas_used) (Tx.gas_limit tx))).

Definition base_fee : Z := default 0 (ph_base_fee_per_gas header).

Definition refund_gas txn (gas_left : Z) : M S Z :=
  refund ← get_refund;
  refund ← (if negb (rev_ge (revision block_spec) London) then
              n ← number_of_self_destructs;
              mret (u64_add refund (u64_mul fee.R_SELF_DESTRUCT n))
            else mret refund);
  let max_refund_quotient :=
    if rev_ge (revision block_spec) London
    then param.MAX_REFUND_QUOTIENT_LONDON else param.MAX_REFUND_QUOTIENT_FRONTIER in
  let max_refund := u64_sub (Tx.gas_limit (message_of txn)) gas_left / max_refund_quotient in
  let refund := Z.min refund max_refund in
  let gas_left := u64_add gas_left refund in
  effective_gas_price ← lift (Tx.effective_gas_price (message_of txn) base_fee);
  add_to_balance (sender txn) (u256_mul gas_left effective_gas_price);;
  mret gas_left.

(** The access list, entry by entry and key by key. *)
Definition warm_access_list (l : list AccessListItem) : M S unit :=
  for_each (fun entry =>
    ignore (access_account (item_address entry));;
    for_each (fun key => ignore (access_storage (item_address entry) (h256_to_u256 key)))
      (slots entry)) l.

Definition buy_gas txn : M S unit :=
  let tx := message_of txn in
  effective_gas_price ← lift (Tx.effective_gas_price tx base_fee);
  subtract_from_balance (sender txn) (u256_mul (Tx.gas_limit tx) effective_gas_price).

(** [execute_transaction], with the new cumulative gas. *)
Definition execute_transaction cumulative_gas_used txn : M S (Receipt * Z) :=
  let rev := revision block_spec in
  let tx := message_of txn in
  clear_journal_and_substate;;
  ignore (access_account (sender txn));;
  buy_gas txn;;
  match Tx.action tx with
  | Call to =>
      ignore (access_account to);;
      set_nonce (sender txn) (u64_add (Tx.nonce tx) 1)
  | Create => mret tt
  end;;
  warm_access_list (Tx.access_list tx);;
  let g0 := intrinsic_gas tx (rev_ge rev Homestead) (rev_ge rev Istanbul) in
  gas ← lift (ok_or (Validation IntrinsicGas) (checked_sub (Tx.gas_limit tx) g0));
  vm_res ← evm_execute header block_spec txn gas;
  (* [gas_left as u64] of an [i64] *)
  refunded ← refund_gas txn (wrap 64 (gas_left vm_res));
  let gas_used := u64_sub (Tx.gas_limit tx) refunded in
  priority_fee_per_gas ← lift (Tx.priority_fee_per_gas tx base_fee);
  add_to_balance (ph_beneficiary header) (u256_mul gas_used priority_fee_per_gas);;
  destruct_selfdestructs;;
  (if rev_ge rev Spurious then destruct_touched_dead else mret tt);;
  finalize_transaction;;
  let cumulative_gas_used := u64_add cumulative_gas_used gas_used in
  logs ← gets logs;
  mret ({| receipt_tx_type := Tx.tx_type tx;
           success := call_success vm_res;
           Block.cumulative_gas_used := cumulative_gas_used;
           bloom := logs_bloom_of logs;
           receipt_logs := logs |}, cumulative_gas_used).

(** [.with_context(|| format!("Failed to validate tx #{}", i))]. *)
Definition with_note {A} (msg : string) (m : M S A) : M S A :=
  fun st => match m st with Err e => Err (Note msg e) | r => r end.

(** The loop over the transactions, from the [i]th on. *)
Fixpoint execute_transactions (i : N) (txns : list MessageWithSender)
    (receipts : list Receipt) cumulative_gas_used : M S (list Receipt * Z) :=
  match txns with
  | [] => mret (receipts, cumulative_gas_used)
  | txn :: txns =>
      with_note ("Failed to validate tx #" +:+ pretty i)
        (validate_transaction cumulative_gas_used txn);;
      '(receipt, cumulative_gas_used) ← execute_transaction cumulative_gas_used txn;
      execute_transactions (i + 1) txns (receipts ++ [receipt]) cumulative_gas_used
  end.

Definition apply_change (change : FinalizationChange) : M S unit :=
  match change with Reward address amount => add_to_balance address amount end.

Definition execute_block_no_post_validation : M S (list Receipt) :=
  for_each (fun '(address, balance) => set_balance address balance)
    (map_to_list (balance_changes block_spec));;
  '(receipts, _) ← execute_transactions 0 (bws_transactions block) [] 0;
  changes ← lift (c_finalize engine header (bws_ommers block) (revision block_spec));
  for_each apply_change changes;;
  mret receipts.

(** The gas of each transaction, for [WrongBlockGas]. *)
Definition gas_per_transaction (receipts : list Receipt) : list (Z * Z) :=
  (foldl (fun '(acc, last_gas_used, i) receipt =>
      (acc ++ [(i, u64_sub (Block.cumulative_gas_used receipt) last_gas_used)],
       Block.cumulative_gas_used receipt, i + 1)) ([], 0, 0) receipts).1.1.

Definition block_gas (receipts : list Receipt) : Z :=
  match last receipts with Some r => Block.cumulative_gas_used r | None => 0 end.

(** The checks on the receipts. *)
Definition check_receipts (receipts : list Receipt) : result unit :=
  fail (negb (block_gas receipts =? ph_gas_used header))
    (WrongBlockGas (ph_gas_used header) (block_gas receipts) (gas_per_transaction receipts));;
  (if rev_ge (revision block_spec) Byzantium then
     let expected := receipts_trie_root receipts in
     fail (negb (expected =? ph_receipts_root header))
       (WrongReceiptsRoot expected (ph_receipts_root header))
   else Ok tt);;
  let expected_logs_bloom := foldl (fun b r => Z.lor b (bloom r)) 0 receipts in
  fail (negb (expected_logs_bloom =? ph_logs_bloom header))
    (WrongLogsBloom expected_logs_bloom (ph_logs_bloom header)).

(** [execute_and_write_block]: the receipts and the store the block is
    written to. *)
Definition execute_and_write_block (state : S) : result (list Receipt * S) :=
  '(receipts, st) ← execute_block_no_post_validation (new state);
  check_receipts receipts;;
  state ← write_to_db st (ph_number header);
  Ok (receipts, state).
End processor.

(** ** The store is not written before the end *)

Section keeps_processor.
Context {S : Type} {HS : State S} {HH : Hashing} {HE : Evm S} {HG : EvmLaws S}.
Context (engine : Consensus S) (header : PartialHeader) (block : BlockBodyWithSenders)
  (block_spec : BlockExecutionSpec).

Lemma keeps_validate_transaction cum txn :
  keeps_db (validate_transaction header block_spec cum txn).
Proof. unfold validate_transaction, get_code_hash, get_nonce, get_balance. keeps. Qed.
#[local] Hint Resolve keeps_validate_transaction : keeps.

Lemma keeps_execute_transaction cum txn : keeps_db (execute_transaction header block_spec cum txn).
Proof.
  unfold execute_transaction, buy_gas, subtract_from_balance, add_to_balance, warm_access_list,
    refund_gas, ignore, add_to_balance, get_refund, number_of_self_destructs. keeps.
Qed.
#[local] Hint Resolve keeps_execute_transaction : keeps.

Lemma keeps_with_note {A} msg (m : M S A) : keeps_db m → keeps_db (with_note msg m).
Proof.
  intros Hm st a st'. unfold with_note. destruct (m st) as [[]| |] eqn:H; [|done|done].
  intros [= <- <-]. by apply Hm in H.
Qed.
#[local] Hint Resolve keeps_with_note : keeps.

Lemma keeps_execute_transactions txns : ∀ i receipts cum,
  keeps_db (execute_transactions header block_spec i txns receipts cum).
Proof. induction txns as [|t txns IH]; intros i receipts cum; cbn [execute_transactions]; keeps. Qed.
#[local] Hint Resolve keeps_execute_transactions : keeps.

Lemma keeps_execute_block : keeps_db (execute_block_no_post_validation engine header block block_spec).
Proof.
  unfold execute_block_no_post_validation, set_balance. keeps.
  unfold apply_change, add_to_balance. keeps.
Qed.
End keeps_processor.

(** ** Gas *)

Section gas.
Context {S : Type} {HS : State S} {HH : Hashing} {HE : Evm S} {HG : EvmLaws S}.
Context (engine : Consensus S) (header : PartialHeader) (block : BlockBodyWithSenders)
  (block_spec : BlockExecutionSpec).
Implicit Types (txn : MessageWithSender) (st : IntraBlockState S).

Lemma lift_ok {A} (r : result A) st a st' : lift r st = Ok (a, st') → r = Ok a ∧ st' = st.
Proof. apply lift_inv. Qed.

(** The refund: at most a fifth (a half before London) of the gas spent. *)
Lemma refund_gas_value txn left st r st' :
  is_u64 (Tx.gas_limit (message_of txn)) → is_u64 (refund st) →
  0 ≤ left ≤ Tx.gas_limit (message_of txn) →
  refund_gas header block_spec txn left st = Ok (r, st') →
  left ≤ r ≤ left + (Tx.gas_limit (message_of txn) - left) / 2.
Proof.
  intros Hl Href Hleft H. unfold refund_gas, get_refund, number_of_self_destructs in H.
  apply M_bind_inv in H as (c & s & Hc & H). unfold gets in Hc. injection Hc as <- <-.
  apply M_bind_inv in H as (c & s & Hc & H).
  assert (0 ≤ c) as Hc0.
  { destruct (negb _); m_inv; [|apply Href]. apply u64_add_word. }
  m_inv. rewrite (u64_sub_small (Tx.gas_limit _)) by word_lia.
  set (g := Tx.gas_limit _ - left). assert (0 ≤ g < 2 ^ 64) by (subst g; word_lia).
  set (q := if rev_ge _ _ then _ else _).
  assert (0 ≤ g / q ≤ g / 2) as Hq.
  { subst q. unfold param.MAX_REFUND_QUOTIENT_LONDON, param.MAX_REFUND_QUOTIENT_FRONTIER.
    split; [apply Z.div_pos; destruct (rev_ge _ _); lia|].
    destruct (rev_ge _ _); [apply Z.div_le_compat_l; lia|lia]. }
  clearbody q. assert (g / 2 ≤ g) by (apply Z.div_le_upper_bound; lia).
  rewrite u64_add_small by word_lia. lia.
Qed.

Notation keeps_refund := (preserves (S := S) (fun st => is_u64 (refund st))).

Lemma refund_update_balance a f : keeps_refund (update_balance a f).
Proof.
  unfold update_balance, get_or_create_object, ensure_object, get_object, put_object. preserves.
Qed.
Lemma refund_set_nonce a n : keeps_refund (set_nonce a n).
Proof.
  unfold set_nonce, get_or_create_object, ensure_object, get_object, put_object. preserves.
Qed.
Lemma refund_access_account a : keeps_refund (access_account a).
Proof. unfold access_account. preserves. Qed.
Lemma refund_access_storage a k : keeps_refund (access_storage a k).
Proof. unfold access_storage. preserves. Qed.
#[local] Hint Resolve refund_update_balance refund_set_nonce refund_access_account
  refund_access_storage : preserves.

Lemma refund_buy_gas txn : keeps_refund (buy_gas header txn).
Proof. unfold buy_gas, subtract_from_balance. preserves. Qed.
Lemma refund_warm_access_list l : keeps_refund (warm_access_list l).
Proof. unfold warm_access_list. preserves. Qed.

(** The refund counter is a word when the machine starts. *)
Lemma prologue_refund txn (enter : M S unit) s s0 s1 s2 s3 s4 u0 u1 u2 u3 u4 l :
  keeps_refund enter →
  clear_journal_and_substate s = Ok (u0, s0) →
  ignore (access_account (sender txn)) s0 = Ok (u1, s1) →
  buy_gas header txn s1 = Ok (u2, s2) →
  enter s2 = Ok (u3, s3) →
  warm_access_list l s3 = Ok (u4, s4) → is_u64 (refund s4).
Proof.
  intros He H0 H1 H2 H3 H4. apply (refund_warm_access_list _ _ _ _ H4), (He _ _ _ H3).
  apply (refund_buy_gas _ _ _ _ H2), (preserves_ignore _ _ (refund_access_account _) _ _ _ H1).
  injection H0 as <- <-. by vm_compute.
Qed.

(** A transaction executed: the gas it is charged. *)
Lemma execute_transaction_gas cum txn st r cum' st' :
  0 ≤ Tx.gas_limit (message_of txn) < 2 ^ 63 →
  0 ≤ cum → cum + Tx.gas_limit (message_of txn) < 2 ^ 64 →
  execute_transaction header block_spec cum txn st = Ok ((r, cum'), st') →
  Block.cumulative_gas_used r = cum'
  ∧ cum' - cum ≤ Tx.gas_limit (message_of txn)
  ∧ intrinsic_gas (message_of txn) (rev_ge (revision block_spec) Homestead)
      (rev_ge (revision block_spec) Istanbul) ≤ 2 * (cum' - cum).
Proof.
  intros Hl Hc Hs H. unfold execute_transaction in H.
  do 5 (apply M_bind_inv in H as (? & ? & ? & H)).
  match goal with H : warm_access_list _ _ = Ok (_, ?s) |- _ =>
    assert (is_u64 (refund s)) by
      (eapply prologue_refund; [|eassumption..]; case_match; preserves) end.
  repeat (apply M_bind_inv in H as (? & ? & ? & H)).
  set (g0 := intrinsic_gas _ _ _) in *.
  repeat match goal with H : lift _ _ = Ok _ |- _ => apply lift_ok in H as [? ->] end.
  pose proof (intrinsic_gas_word (message_of txn) (rev_ge (revision block_spec) Homestead)
    (rev_ge (revision block_spec) Istanbul)) as Hg0. fold g0 in Hg0. clearbody g0.
  match goal with H : ok_or _ _ = Ok _ |- _ => apply ok_or_ok in H; unfold checked_sub in H end.
  destruct (Z.ltb_spec (Tx.gas_limit (message_of txn)) g0); simplify_eq.
  match goal with H : evm_execute _ _ _ _ _ = Ok _ |- _ =>
    apply evm_gas_left in H as Hleft; [|lia]; apply evm_refund in H as Href; [|done] end.
  match goal with H : refund_gas _ _ _ _ _ = Ok _ |- _ =>
    rewrite wrap_small in H by word_lia;
    apply refund_gas_value in H; [|word_lia|done|lia] end.
  match goal with H : mret _ _ = Ok _ |- _ => injection H as <- <- <- end. cbn.
  match goal with |- context [u64_sub (Tx.gas_limit (message_of txn)) ?x] => set (ret := x) in * end.
  clearbody ret. set (gl := Tx.gas_limit (message_of txn)) in *. clearbody gl.
  set (left := gas_left _) in *. clearbody left.
  assert ((gl - left) / 2 ≤ gl - left) by (apply Z.div_le_upper_bound; lia).
  pose proof (Z.mul_div_le (gl - left) 2 ltac:(lia)).
  rewrite (u64_sub_small gl) by word_lia. rewrite u64_add_small by word_lia.
  split_and!; [done|lia|lia].
Qed.

(** The gas each transaction of a list is charged, from the cumulative
    counters of its receipts. *)
Fixpoint gas_charged (prev : Z) (receipts : list Receipt) : list Z :=
  match receipts with
  | [] => []
  | r :: rs => Block.cumulative_gas_used r - prev :: gas_charged (Block.cumulative_gas_used r) rs
  end.

(** A transaction is charged between half its intrinsic gas and its gas
    limit. *)
Definition fair_charge txn (g : Z) : Prop :=
  g ≤ Tx.gas_limit (message_of txn)
  ∧ intrinsic_gas (message_of txn) (rev_ge (revision block_spec) Homestead)
      (rev_ge (revision block_spec) Istanbul) ≤ 2 * g.

Lemma fair_charge_nonneg txn g : fair_charge txn g → 0 ≤ g.
Proof.
  intros [_ H]. pose proof (intrinsic_gas_word (message_of txn)
    (rev_ge (revision block_spec) Homestead) (rev_ge (revision block_spec) Istanbul)). lia.
Qed.

Lemma validate_transaction_available cum txn st u st' :
  validate_transaction header block_spec cum txn st = Ok (u, st') →
  Tx.gas_limit (message_of txn) ≤ available_gas header cum.
Proof.
  unfold validate_transaction, fail. intros H. m_inv.
  match goal with H : fail_if (available_gas _ _ <? _) _ = Ok _ |- _ => apply fail_if_ok in H end.
  zbool. lia.
Qed.

Lemma execute_transactions_gas txns : ∀ i receipts cum st receipts' cum' st',
  ph_gas_limit header < 2 ^ 63 → 0 ≤ cum ≤ ph_gas_limit header →
  Forall (fun txn => is_u64 (Tx.gas_limit (message_of txn))) txns →
  execute_transactions header block_spec i txns receipts cum st = Ok ((receipts', cum'), st') →
  ∃ rs, receipts' = receipts ++ rs ∧ cum ≤ cum' ≤ ph_gas_limit header
    ∧ cum' = default cum (Block.cumulative_gas_used <$> last rs)
    ∧ Forall2 fair_charge txns (gas_charged cum rs).
Proof.
  induction txns as [|txn txns IH]; intros i receipts cum st receipts' cum' st' Hgl Hcum Hall H;
    cbn [execute_transactions] in H.
  { m_inv. exists []. rewrite app_nil_r. split_and!; [done|lia|lia|done|constructor]. }
  apply Forall_cons in Hall as [Htx Hall].
  apply M_bind_inv in H as (? & s & Hv & H). unfold with_note in Hv.
  destruct (validate_transaction _ _ _ _ _) as [[u s0]| |] eqn:Hval; [|done|done].
  apply validate_transaction_available in Hval. unfold available_gas in Hval.
  rewrite u64_sub_small in Hval by word_lia. clear Hv.
  apply M_bind_inv in H as ([r cum1] & s1 & He & H).
  apply execute_transaction_gas in He as (Hr & Hg1 & Hg2); [|word_lia|lia|word_lia].
  assert (fair_charge txn (cum1 - cum)) as Hf by done.
  pose proof (fair_charge_nonneg _ _ Hf).
  apply IH in H as (rs & -> & Hc & Hlast & Hall2); [|done|lia|done].
  exists (r :: rs). rewrite <- app_assoc. split_and!; [done|lia|lia| |].
  - rewrite last_cons. rewrite Hlast. destruct (last rs); cbn; [done|]. done.
  - cbn [gas_charged]. rewrite Hr. by constructor.
Qed.

Lemma gas_charged_sum prev rs :
  foldr Z.add 0 (gas_charged prev rs) = default prev (Block.cumulative_gas_used <$> last rs) - prev.
Proof.
  revert prev. induction rs as [|r rs IH]; intros prev; cbn [gas_charged foldr].
  - cbn. lia.
  - rewrite IH, last_cons. destruct (last rs); cbn; lia.
Qed.

Lemma check_receipts_ok receipts u :
  check_receipts header block_spec receipts = Ok u →
  block_gas receipts = ph_gas_used header
  ∧ foldl (fun b r => Z.lor b (bloom r)) 0 receipts = ph_logs_bloom header
  ∧ (rev_ge (revision block_spec) Byzantium = true →
     receipts_trie_root receipts = ph_receipts_root header).
Proof.
  unfold check_receipts, fail. intros H. res_inv.
  repeat match goal with H : negb _ = false |- _ => apply negb_false_iff, Z.eqb_eq in H end.
  split_and!; [done|done|]. intros Hr. rewrite Hr in *. res_inv.
  by match goal with H : negb _ = false |- _ => apply negb_false_iff, Z.eqb_eq in H end.
Qed.

(** C9. A block that executes and is written: every transaction was charged
    at most its gas limit and at least half its intrinsic gas, no counter
    wrapped, the charges add up to the gas the header claims, which is
    within the header's gas limit, and the receipts match the header's bloom
    filter and (from Byzantium on) receipts root. *)
Theorem execute_and_write_block_ok state receipts state'
  (Hgl : 0 ≤ ph_gas_limit header < 2 ^ 63)
  (Htx : Forall (fun txn => is_u64 (Tx.gas_limit (message_of txn))) (bws_transactions block))
  (H : execute_and_write_block engine header block block_spec state = Ok (receipts, state')) :
  Forall2 fair_charge (bws_transactions block) (gas_charged 0 receipts)
  ∧ foldr Z.add 0 (gas_charged 0 receipts) = ph_gas_used header
  ∧ ph_gas_used header ≤ ph_gas_limit header
  ∧ foldl (fun b r => Z.lor b (bloom r)) 0 receipts = ph_logs_bloom header
  ∧ (rev_ge (revision block_spec) Byzantium = true →
     receipts_trie_root receipts = ph_receipts_root header).
Proof.
  unfold execute_and_write_block in H. res_inv. destruct a as [rs st].
  unfold execute_block_no_post_validation in Hm. m_inv. destruct a0 as [rs' cum].
  apply execute_transactions_gas in Hm1 as (rs'' & -> & Hc & Hlast & Hall);
    [|lia|word_lia|done].
  m_inv. cbn [app] in *. subst. res_inv.
  match goal with H : check_receipts _ _ _ = Ok _ |- _ =>
    apply check_receipts_ok in H as (Hg & Hb & Hr') end.
  rewrite gas_charged_sum, Z.sub_0_r. unfold block_gas in Hg.
  destruct (last receipts); cbn in *; split_and!; try done; lia.
Qed.
End gas.

(** ** Validation and the purchase of gas *)

Section purchase.
Context {S : Type} {HS : State S} {HH : Hashing}.
Context (header : PartialHeader) (block_spec : BlockExecutionSpec).
Implicit Types (txn : MessageWithSender) (st : IntraBlockState S).

(** The conditions of Section 6.2 of the Yellow Paper, EIP-1559 and
    EIP-3607, on the sender's account [acc]. *)
Record payable (cum : Z) txn (acc : Account) : Prop := {
  pay_chain : ∀ c, Tx.chain_id (message_of txn) = Some c →
              c = ChainSpec.chain_id (spec_params block_spec);
  pay_fee : base_fee header ≤ Tx.max_fee_per_gas (message_of txn);
  pay_tip : Tx.max_priority_fee_per_gas (message_of txn) ≤ Tx.max_fee_per_gas (message_of txn);
  pay_eoa : code_hash acc = EMPTY_HASH;
  pay_nonce : nonce acc = Tx.nonce (message_of txn);
  pay_funds : Tx.gas_limit (message_of txn) * Tx.max_fee_per_gas (message_of txn)
              + Tx.value (message_of txn) ≤ balance acc;
  pay_gas : Tx.gas_limit (message_of txn) ≤ available_gas header cum
}.

Lemma pre_validate_ok txn :
  message_wf (message_of txn) →
  pre_validate_transaction (message_of txn) (ChainSpec.chain_id (spec_params block_spec))
    (ph_base_fee_per_gas header) = Ok tt →
  (∀ c, Tx.chain_id (message_of txn) = Some c → c = ChainSpec.chain_id (spec_params block_spec))
  ∧ base_fee header ≤ Tx.max_fee_per_gas (message_of txn)
  ∧ Tx.max_priority_fee_per_gas (message_of txn) ≤ Tx.max_fee_per_gas (message_of txn).
Proof.
  unfold pre_validate_transaction, base_fee. intros (_ & _ & Hp & Hf & _) H. res_inv. zbool.
  split_and!; [| |lia].
  - intros c Hc. rewrite Hc in Hm. apply fail_if_ok in Hm.
    by apply negb_false_iff, Z.eqb_eq in Hm.
  - destruct (ph_base_fee_per_gas header); cbn in *; [|word_lia].
    apply fail_if_ok in Hm0. zbool. lia.
Qed.

Lemma max_cost_small txn :
  message_wf (message_of txn) →
  wrap 512 (wrap 512 (Tx.gas_limit (message_of txn) * Tx.max_fee_per_gas (message_of txn))
            + Tx.value (message_of txn))
  = Tx.gas_limit (message_of txn) * Tx.max_fee_per_gas (message_of txn)
    + Tx.value (message_of txn).
Proof.
  intros (_ & Hg & _ & Hf & Hv). unfold is_u64, is_u256, is_word in *.
  assert (0 ≤ Tx.gas_limit (message_of txn) * Tx.max_fee_per_gas (message_of txn)
          ≤ 2 ^ 64 * 2 ^ 256) by nia.
  rewrite (wrap_small 512 (_ * _)) by word_lia. by rewrite wrap_small by word_lia.
Qed.

Lemma validate_transaction_payable cum txn st u st' :
  message_wf (message_of txn) →
  validate_transaction header block_spec cum txn st = Ok (u, st') →
  le st st' ∧ ∃ cur, account_of st (sender txn) = Ok cur
    ∧ payable cum txn (default default_account cur).
Proof.
  intros Hwf H. unfold validate_transaction in H. rewrite (max_cost_small _ Hwf) in H.
  apply M_bind_inv in H as (? & s0 & Hpre & H).
  destruct (pre_validate_transaction _ _ _) as [[]| |] eqn:Hp; [|by m_inv|by m_inv]. m_inv.
  apply pre_validate_ok in Hp as (Hc & Hf & Ht); [|done].
  unfold fail in *. repeat match goal with H : fail_if _ _ = Ok _ |- _ => apply fail_if_ok in H end.
  apply get_code_hash_view in Hm as (cur & Ha & -> & Hle).
  apply get_nonce_view in Hm1 as (cur1 & Ha1 & -> & Hle1).
  rewrite (account_of_le _ _ _ Hle), Ha in Ha1. injection Ha1 as <-.
  apply get_balance_view in Hm3 as (cur2 & Ha2 & -> & Hle2).
  rewrite (account_of_le _ _ _ Hle1), (account_of_le _ _ _ Hle), Ha in Ha2. injection Ha2 as <-.
  split; [by do 2 (etrans; [done|])|]. exists cur. split; [done|].
  repeat match goal with H : negb _ = false |- _ => apply negb_false_iff in H end.
  zbool. destruct cur; cbn in *; split; try done; lia.
Qed.

(** C11. A validated transaction pays exactly: the gas price exists (no
    panic), the purchase neither wraps the 256-bit product nor overdraws the
    sender, whose balance drops by gas limit times price while every other
    account is untouched, and what is left covers the value it sends. *)
Theorem buy_gas_exact cum txn st u st1
  (Hwf : message_wf (message_of txn))
  (Hbase : 0 ≤ base_fee header)
  (Hbal : ∀ acc, account_of st (sender txn) = Ok (Some acc) → is_u256 (balance acc))
  (H : validate_transaction header block_spec cum txn st = Ok (u, st1)) :
  ∃ cur price st2,
    account_of st (sender txn) = Ok cur
    ∧ Tx.effective_gas_price (message_of txn) (base_fee header) = Ok price
    ∧ base_fee header ≤ price ≤ Tx.max_fee_per_gas (message_of txn)
    ∧ buy_gas header txn st1 = Ok (tt, st2)
    ∧ (let acc := default default_account cur in
       let paid := Tx.gas_limit (message_of txn) * price in
       Tx.value (message_of txn) ≤ balance acc - paid
       ∧ ∀ a, account_of st2 a
              = if decide (a = sender txn)
                then Ok (Some (set_balance_field (balance acc - paid) acc))
                else account_of st a).
Proof.
  apply validate_transaction_payable in H as (Hle & cur & Ha & Hpay); [|done].
  destruct (effective_price (message_of txn) (base_fee header) Hwf Hbase (pay_fee _ _ _ Hpay))
    as (price & Hprice & Hlo & Hhi).
  assert (account_of st1 (sender txn) = Ok cur) as Ha1 by by rewrite (account_of_le _ _ _ Hle).
  destruct (update_balance_run (sender txn)
    (fun b => u256_sub b (u256_mul (Tx.gas_limit (message_of txn)) price)) st1 cur Ha1) as (st2 & Hrun).
  exists cur, price, st2. split_and!; [done..| |].
  { unfold buy_gas. rewrite Hprice. by unfold lift, mbind, M_bind. }
  apply update_balance_view in Hrun as (cur' & Ha' & Hw). rewrite Ha1 in Ha'. injection Ha' as <-.
  pose proof (pay_funds _ _ _ Hpay) as Hfunds. destruct Hwf as (_ & Hg & _ & Hf & Hv).
  unfold is_u64, is_u256, is_word in *.
  assert (0 ≤ balance (default default_account cur) < 2 ^ 256) as Hb.
  { destruct cur as [acc|]; [by apply Hbal|by vm_compute]. }
  assert (0 ≤ Tx.gas_limit (message_of txn) * price
          ≤ Tx.gas_limit (message_of txn) * Tx.max_fee_per_gas (message_of txn)) by nia.
  cbv zeta. split; [lia|]. intros a. rewrite Hw. case_decide; [|by apply account_of_le].
  rewrite u256_mul_small by word_lia. by rewrite u256_sub_small by word_lia.
Qed.
End purchase.

(** A machine for examples: it spends nothing. *)
#[local] Instance idle_evm : Evm InMemoryState := fun _ _ _ gas =>
  modify (set_refund (fun _ => 0));;
  mret {| call_success := true; gas_left := gas; output_data := [] |}.

#[local] Instance idle_evm_gas : EvmLaws InMemoryState.
Proof.
  split.
  - intros ? ? ? ? ? r st' Hg H. injection H as <- <-. cbn. lia.
  - intros ? ? ? ? ? r st' H _. injection H as <- <-. by vm_compute.
  - intros. unfold evm_execute, idle_evm. keeps.
Qed.

#[local] Instance toy_pow : Pow := {|
  hashimoto := fun _ h _ => (h, 0); cross_boundary := fun _ => 1; truncated_hash := fun _ => 0 |}.

#[local] Existing Instance toy_hashing.

Definition demo_tx : MessageWithSender :=
  mkMessageWithSender (LegacyMsg None 0 10 25_000 (Call 8) 5 []) 7.

Definition demo_spec : BlockExecutionSpec :=
  {| revision := Istanbul; active_transitions := ∅;
     spec_params := {| ChainSpec.chain_id := 1; network_id := 1; min_gas_limit := 5000 |};
     system_contract_changes := ∅; balance_changes := ∅ |}.

Definition demo_engine_ethash : Consensus InMemoryState :=
  ethash_consensus Panic (ethash_new 1 None 13 ∅ None None None true).

Definition demo_sender : InMemoryState :=
  ims_accounts (insert 7 (mkAccount 0 1_000_000 EMPTY_HASH)) empty_ims.

Definition demo_header_6 : PartialHeader :=
  mkPartialHeader 105 9 0 1 0 131072 6 10_000_000 21_000 103 [] 0 0 None.

Definition demo_run : result (list Receipt * InMemoryState) :=
  execute_and_write_block demo_engine_ethash
    demo_header_6
    (mkBodyWithSenders [demo_tx] []) demo_spec demo_sender.

Lemma execute_and_write_block_ok_witness :
  is_ok demo_run = true
  ∧ ∀ receipts state', demo_run = Ok (receipts, state') →
      foldr Z.add 0 (gas_charged 0 receipts) = 21_000
      ∧ accounts state' !! 7 = Some (mkAccount 1 790_000 EMPTY_HASH).
Proof.
  split; [vm_compute; reflexivity|]. intros receipts state' H. split.
  - refine (proj1 (proj2 (execute_and_write_block_ok _ _ _ _ _ _ _ _ _ H))).
    + vm_compute. split; congruence.
    + repeat constructor; vm_compute; congruence.
  - vm_compute in H. injection H as _ <-. vm_compute. reflexivity.
Defined.

Lemma buy_gas_exact_witness :
  ∃ u st1 price st2,
    validate_transaction demo_header_6 demo_spec 0 demo_tx (new demo_sender) = Ok (u, st1)
    ∧ Tx.effective_gas_price (message_of demo_tx) (base_fee demo_header_6) = Ok price
    ∧ buy_gas demo_header_6 demo_tx st1 = Ok (tt, st2)
    ∧ account_of st2 7 = Ok (Some (mkAccount 0 (1_000_000 - 25_000 * price) EMPTY_HASH)).
Proof.
  assert (is_ok (validate_transaction demo_header_6 demo_spec 0 demo_tx (new demo_sender)) = true)
    as Hok by (vm_compute; reflexivity).
  destruct (validate_transaction demo_header_6 demo_spec 0 demo_tx (new demo_sender))
    as [[u st1]| |] eqn:H; [|discriminate Hok|discriminate Hok].
  destruct (buy_gas_exact demo_header_6 demo_spec 0 demo_tx (new demo_sender) u st1)
    as (cur & price & st2 & Hcur & Hprice & _ & Hbuy & _ & Hw).
  - by vm_compute.
  - by vm_compute.
  - intros acc Hacc. vm_compute in Hacc. injection Hacc as <-. by vm_compute.
  - exact H.
  - exists u, st1, price, st2. split_and!; [done..|]. rewrite Hw. cbn [sender demo_tx decide].
    vm_compute in Hcur. injection Hcur as <-. reflexivity.
Defined.
