(* ===== verification/Blockchain.v ===== *)
(** * Blockchain

    [src/src/consensus/blockchain.rs]: inserting blocks in a chain kept in
    memory, with reorganisations. The functions mutate the blockchain in
    place, so an error leaves what was done before it: the monad [B] returns
    the state with the error. *)

From stdpp Require Import pretty.
From S2P Require Import Prelude Words Errors Account Params ChainSpec Transaction Block.
From S2P Require Import StateTrait InMemoryState IntraBlockState View Commit Consensus Processor.

(** [BlockHeader::hash]: Keccak-256 of the RLP encoding. *)
Class HeaderHashing : Type := header_hash : BlockHeader → Z.

Record Blockchain : Type := mkBlockchain {
  state : InMemoryState;
  config : ChainSpec;
  engine : Consensus InMemoryState;
  bad_blocks : gmap Z ValidationError;
  bc_receipts : list Receipt
}.

Record WithHash (T : Type) : Type := mkWithHash { inner : T; hash : Z }.
Arguments mkWithHash {T}. Arguments inner {T}. Arguments hash {T}.

Definition map_state (f : InMemoryState → InMemoryState) (b : Blockchain) : Blockchain :=
  mkBlockchain (f (state b)) (config b) (engine b) (bad_blocks b) (bc_receipts b).
Definition map_bad_blocks (f : gmap Z ValidationError → gmap Z ValidationError) (b : Blockchain)
    : Blockchain :=
  mkBlockchain (state b) (config b) (engine b) (f (bad_blocks b)) (bc_receipts b).

(** ** The monad *)

Definition B (A : Type) : Type := Blockchain → result A * Blockchain.

#[global] Instance B_ret : MRet B := fun A a b => (Ok a, b).
#[global] Instance B_bind : MBind B := fun A C f m b =>
  match m b with
  | (Ok a, b') => f a b'
  | (Err e, b') => (Err e, b')
  | (Panic, b') => (Panic, b')
  end.

Definition b_gets {A} (f : Blockchain → A) : B A := fun b => (Ok (f b), b).
Definition b_modify (f : Blockchain → Blockchain) : B unit := fun b => (Ok tt, f b).
Definition b_lift {A} (r : result A) : B A := fun b => (r, b).
(** A read of the blockchain that may fail. *)
Definition b_read {A} (f : Blockchain → result A) : B A := fun b => (f b, b).

Fixpoint b_for {A} (f : A → B unit) (l : list A) : B unit :=
  match l with [] => mret tt | a :: l => f a;; b_for f l end.

(** [ancestor + 1 ..= tip]. *)
Definition blocks_after (ancestor tip : Z) : list Z := seqZ (ancestor + 1) (tip - ancestor).

Section blockchain.
Context {HH : Hashing} {HE : Evm InMemoryState} {HP : Pow} {HD : HeaderHashing}.

Definition new_with_consensus (st : InMemoryState) (eng : Consensus InMemoryState)
    (cfg : ChainSpec) (genesis_block : Block) : Blockchain :=
  let h := header_hash (header genesis_block) in
  let n := number (header genesis_block) in
  {| state := canonize_block n h (insert_block genesis_block h st);
     config := cfg; engine := eng; bad_blocks := ∅; bc_receipts := [] |}.

Definition blockchain_new (now : result Z) (st : InMemoryState) (cfg : ChainSpec)
    (genesis_block : Block) : result Blockchain :=
  eng ← engine_factory now cfg;
  Ok (new_with_consensus st eng cfg genesis_block).

Definition execute_block (block : BlockWithSenders) (check_state_root : bool) : B unit :=
  let body := {| bws_transactions := bs_transactions block; bws_ommers := bs_ommers block |} in
  cfg ← b_gets config;
  let block_spec := collect_block_spec cfg (ph_number (bs_header block)) in
  st' ← b_read (fun b =>
    '(_, st') ← execute_and_write_block (engine b) (bs_header block) body block_spec (state b);
    Ok st');
  b_modify (map_state (fun _ => st'));;
  if check_state_root then
    s ← b_gets state;
    let root := state_root_hash s in
    if negb (root =? ph_state_root (bs_header block)) then
      b_modify (map_state (unwind_state_changes (ph_number (bs_header block))));;
      b_lift (Err (Validation (WrongStateRoot (ph_state_root (bs_header block)) root)))
    else mret tt
  else mret tt.

(** A block of the store with its senders: [None] is unwrapped. *)
Definition stored_block (n h : Z) : B BlockWithSenders :=
  body ← b_read (fun b => read_body_with_senders (state b) n h);
  body ← b_lift (unwrap body);
  hd ← b_read (fun b => read_header (state b) n h);
  hd ← b_lift (unwrap hd);
  mret {| bs_header := partial_of_header hd; bs_transactions := bws_transactions body;
          bs_ommers := bws_ommers body |}.

(** [.await.unwrap()]. *)
Definition b_unwrap {A} (m : B A) : B A :=
  fun b => match m b with (Err _, b') => (Panic, b') | r => r end.

Definition re_execute_canonical_chain (ancestor tip : Z) : B unit :=
  if ancestor <=? tip then
    b_for (fun n =>
      h ← b_gets (fun b => canonical_hash (state b) n);
      h ← b_lift (unwrap h);
      block ← stored_block n h;
      b_unwrap (execute_block block false)) (blocks_after ancestor tip)
  else b_lift Panic.

Definition unwind_last_changes (ancestor tip : Z) : B unit :=
  if ancestor <=? tip then
    b_for (fun n => b_modify (map_state (unwind_state_changes n)))
      (reverse (blocks_after ancestor tip))
  else b_lift Panic.

(** The loop of [intermediate_chain], from the tip down; [chain] is the
    vector of the blocks pushed, already reversed. *)
Fixpoint intermediate_loop (numbers : list Z) (h : Z) (chain : list (WithHash BlockWithSenders))
    : B (list (WithHash BlockWithSenders)) :=
  match numbers with
  | [] => mret chain
  | n :: numbers =>
      block ← stored_block n h;
      intermediate_loop numbers (ph_parent_hash (bs_header block))
        ({| inner := block; hash := h |} :: chain)
  end.

(** [Vec::with_capacity] panics when the capacity exceeds [isize::MAX]
    bytes. *)
Definition intermediate_chain (block_number h canonical_ancestor : Z)
    : B (list (WithHash BlockWithSenders)) :=
  if i64_max <? u64_sub block_number canonical_ancestor then b_lift Panic
  else intermediate_loop (reverse (blocks_after canonical_ancestor block_number)) h [].

(** [canonical_ancestor] with fuel; the number of the header decreases, so
    its number plus one is enough. *)
Fixpoint canonical_ancestor (fuel : nat) (s : InMemoryState) (hd : PartialHeader) (h : Z)
    : result Z :=
  match fuel with
  | O => Panic
  | S fuel =>
      if bool_decide (canonical_hash s (ph_number hd) = Some h) then Ok (ph_number hd)
      else
        parent ← read_header s (u64_sub (ph_number hd) 1) (ph_parent_hash hd);
        parent ← ok_or (Validation UnknownParent) parent;
        canonical_ancestor fuel s (partial_of_header parent) (ph_parent_hash hd)
  end.

Definition find_ancestor (hd : PartialHeader) (h : Z) : B Z :=
  b_read (fun b => canonical_ancestor (S (Z.to_nat (ph_number hd))) (state b) hd h).

(** What a failed execution does before the error is returned. *)
Definition handle_failure (h ancestor executed tip : Z) (e : anyhow) : B unit :=
  match downcast_ref e with
  | Some v =>
      b_modify (map_bad_blocks (insert h v));;
      unwind_last_changes ancestor (u64_add ancestor executed);;
      re_execute_canonical_chain ancestor tip
  | None => mret tt
  end;;
  b_lift (Err e).

(** The loop over the chain, and the number of blocks it executed. *)
Fixpoint execute_chain (chain : list (WithHash BlockWithSenders)) (block_number h ancestor tip : Z)
    (check_state_root : bool) (executed : Z) : B Z :=
  match chain with
  | [] => mret executed
  | x :: chain => fun b =>
      match execute_block (inner x) check_state_root b with
      | (Ok _, b') =>
          execute_chain chain block_number h ancestor tip check_state_root (u64_add executed 1) b'
      | (Err e, b') =>
          (handle_failure h ancestor executed tip
             (Note ("Failed to execute block #" +:+ pretty (Z.to_N block_number)) e);;
           mret executed) b'
      | (Panic, b') => (Panic, b')
      end
  end.

Definition canonize_chain (ancestor tip : Z) (chain : list (WithHash BlockWithSenders)) : B unit :=
  b_for (fun i => b_modify (map_state (decanonize_block i))) (reverse (blocks_after ancestor tip));;
  b_for (fun x => b_modify (map_state (canonize_block (ph_number (bs_header (inner x))) (hash x))))
    chain.

Definition stored_difficulty (n h : Z) : B Z :=
  td ← b_read (fun b => total_difficulty (state b) n h);
  b_lift (unwrap td).

(** The first half of [insert_block]: the checks, the unwinding to the fork
    and the execution of the branch. It gives the fork, the canonical tip,
    the branch and the number of its blocks executed. *)
Definition execute_branch (block : Block) (check_state_root : bool)
    : B (Z * Z * list (WithHash BlockWithSenders) * Z) :=
  b_read (fun b => c_validate_block_header (engine b) (header block) (state b) true);;
  b_read (fun b => c_pre_validate_block (engine b) block (state b));;
  let h := header_hash (header block) in
  bad ← b_gets (fun b => bad_blocks b !! h);
  match bad with Some error => b_lift (Err (Validation error)) | None => mret tt end;;
  bs ← b_lift (block_with_senders block);
  ancestor ← find_ancestor (bs_header bs) h;
  current_canonical_block ← b_gets (fun b => current_canonical_block (state b));
  unwind_last_changes ancestor current_canonical_block;;
  let block_number := ph_number (bs_header bs) in
  chain ← intermediate_chain (u64_sub block_number 1) (ph_parent_hash (bs_header bs)) ancestor;
  let chain := chain ++ [{| inner := bs; hash := h |}] in
  executed ← execute_chain chain block_number h ancestor current_canonical_block
               check_state_root 0;
  mret (ancestor, current_canonical_block, chain, executed).

(** The second half: the block is stored, and the heavier of the branch and
    the canonical chain becomes, or stays, canonical. *)
Definition choose_chain (block : Block) (ancestor current_canonical_block : Z)
    (chain : list (WithHash BlockWithSenders)) (executed : Z) : B unit :=
  let h := header_hash (header block) in
  b_modify (map_state (InMemoryState.insert_block block h));;
  canonical ← b_gets (fun b => canonical_hash (state b) current_canonical_block);
  canonical ← b_lift (unwrap canonical);
  current_total_difficulty ← stored_difficulty current_canonical_block canonical;
  td ← stored_difficulty (number (header block)) h;
  if current_total_difficulty <? td
  then canonize_chain ancestor current_canonical_block chain
  else
    unwind_last_changes ancestor (u64_add ancestor executed);;
    re_execute_canonical_chain ancestor current_canonical_block.

Definition insert_block_in_chain (block : Block) (check_state_root : bool) : B unit :=
  '(ancestor, tip, chain, executed) ← execute_branch block check_state_root;
  choose_chain block ancestor tip chain executed.
End blockchain.

(** ** What execution leaves alone *)

Definition b_keeps {A} (m : B A) : Prop := ∀ b r b',
  m b = (r, b') → chain_of (state b') = chain_of (state b) ∧ config b' = config b ∧ engine b' = engine b.

Create HintDb bkeeps.

Lemma B_bind_cases {A C} (m : B A) (f : A → B C) b r b' :
  (m ≫= f) b = (r, b') →
  (∃ a b1, m b = (Ok a, b1) ∧ f a b1 = (r, b'))
  ∨ (∃ e, m b = (Err e, b') ∧ r = Err e) ∨ (m b = (Panic, b') ∧ r = Panic).
Proof.
  unfold mbind, B_bind. destruct (m b) as [[a|e|] b1]; [eauto|intros [= <- <-]; eauto..].
Qed.

Lemma b_keeps_bind {A C} (m : B A) (f : A → B C) :
  b_keeps m → (∀ a, b_keeps (f a)) → b_keeps (m ≫= f).
Proof.
  intros Hm Hf b r b' [(a & b1 & H1 & H2)|[(e & H1 & _)|[H1 _]]]%B_bind_cases.
  - apply Hm in H1 as (-> & -> & ->) || (apply Hm in H1 as (E1 & E2 & E3)).
    apply Hf in H2 as (-> & -> & ->). by rewrite E1, E2, E3.
  - by apply Hm in H1.
  - by apply Hm in H1.
Qed.

Lemma b_keeps_ret {A} (a : A) : b_keeps (mret a).
Proof. by intros b r b' [= _ <-]. Qed.
Lemma b_keeps_gets {A} (f : Blockchain → A) : b_keeps (b_gets f).
Proof. by intros b r b' [= _ <-]. Qed.
Lemma b_keeps_read {A} (f : Blockchain → result A) : b_keeps (b_read f).
Proof. by intros b r b' [= _ <-]. Qed.
Lemma b_keeps_lift {A} (x : result A) : b_keeps (b_lift x).
Proof. by intros b r b' [= _ <-]. Qed.
Lemma b_keeps_bad f : b_keeps (b_modify (map_bad_blocks f)).
Proof. by intros b r b' [= _ <-]. Qed.
Lemma b_keeps_unwind n : b_keeps (b_modify (map_state (unwind_state_changes n))).
Proof. by intros b r b' [= _ <-]. Qed.
Lemma b_keeps_for {A} (f : A → B unit) l : (∀ a, b_keeps (f a)) → b_keeps (b_for f l).
Proof.
  intros Hf. induction l as [|a l IH]; cbn; [apply b_keeps_ret|].
  apply b_keeps_bind; [apply Hf|done].
Qed.
Lemma b_keeps_unwrap {A} (m : B A) : b_keeps m → b_keeps (b_unwrap m).
Proof.
  intros Hm b r b'. unfold b_unwrap. destruct (m b) as [[a|e|] b1] eqn:H;
    intros [= _ <-]; by apply Hm in H.
Qed.

#[export] Hint Resolve b_keeps_ret b_keeps_gets b_keeps_read b_keeps_lift b_keeps_bad
  b_keeps_unwind : bkeeps.

Ltac bkeeps := repeat first
  [ solve [auto with bkeeps]
  | apply b_keeps_bind; [|intros ?]
  | apply b_keeps_for; intros ?
  | apply b_keeps_unwrap
  | progress cbv beta zeta
  | match goal with
    | |- b_keeps (match ?x with _ => _ end) => destruct x
    end ].

Section blockchain_keeps.
Context {HH : Hashing} {HE : Evm InMemoryState} {HG : EvmLaws InMemoryState}
  {HP : Pow} {HD : HeaderHashing}.

Lemma execute_and_write_block_chain eng hd body spec (s : InMemoryState) rs s' :
  execute_and_write_block eng hd body spec s = Ok (rs, s') → chain_of s' = chain_of s.
Proof.
  unfold execute_and_write_block. intros H. res_inv. destruct a as [receipts st]. res_inv.
  apply keeps_execute_block in Hm. apply write_to_db_chain in Hm1. by rewrite Hm1, Hm.
Qed.

Lemma b_keeps_execute_block block chk : b_keeps (execute_block block chk).
Proof.
  intros b r b' H. unfold execute_block in H.
  apply B_bind_cases in H as [(cfg & b1 & [= <- <-] & H)|[(e & [=] & _)|[[=] _]]].
  apply B_bind_cases in H as [(s' & b1 & Hx & H)|[(e & [= _ <-] & _)|[[= _ <-] _]]]; [|done..].
  injection Hx as Hx <-. res_inv. destruct a as [rs s1]. res_inv.
  apply execute_and_write_block_chain in Hm.
  assert (b_keeps (if chk then
    s ← b_gets state;
    let root := state_root_hash s in
    if negb (root =? ph_state_root (bs_header block)) then
      b_modify (map_state (unwind_state_changes (ph_number (bs_header block))));;
      b_lift (Err (Validation (WrongStateRoot (ph_state_root (bs_header block)) root)))
    else mret tt
  else mret tt)) as Hk by bkeeps.
  apply B_bind_cases in H as [(u & b1 & [= _ <-] & H)|[(e & [=] & _)|[[=] _]]].
  apply Hk in H as (E1 & E2 & E3). by rewrite E1, E2, E3.
Qed.
#[local] Hint Resolve b_keeps_execute_block : bkeeps.

Lemma b_keeps_stored_block n h : b_keeps (stored_block n h).
Proof. unfold stored_block. bkeeps. Qed.
#[local] Hint Resolve b_keeps_stored_block : bkeeps.

Lemma b_keeps_re_execute ancestor tip : b_keeps (re_execute_canonical_chain ancestor tip).
Proof. unfold re_execute_canonical_chain. bkeeps. Qed.

Lemma b_keeps_unwind_last ancestor tip : b_keeps (unwind_last_changes ancestor tip).
Proof. unfold unwind_last_changes. bkeeps. Qed.
#[local] Hint Resolve b_keeps_re_execute b_keeps_unwind_last : bkeeps.

Lemma b_keeps_intermediate_loop ns : ∀ h chain, b_keeps (intermediate_loop ns h chain).
Proof. induction ns as [|n ns IH]; intros h chain; cbn [intermediate_loop]; bkeeps. Qed.
#[local] Hint Resolve b_keeps_intermediate_loop : bkeeps.

Lemma b_keeps_intermediate n h ancestor : b_keeps (intermediate_chain n h ancestor).
Proof. unfold intermediate_chain. bkeeps. Qed.

Lemma b_keeps_handle h ancestor executed tip e : b_keeps (handle_failure h ancestor executed tip e).
Proof. unfold handle_failure. bkeeps. Qed.
#[local] Hint Resolve b_keeps_handle : bkeeps.

Lemma b_keeps_execute_chain chain n h ancestor tip chk : ∀ executed,
  b_keeps (execute_chain chain n h ancestor tip chk executed).
Proof.
  induction chain as [|x chain IH]; intros executed; cbn [execute_chain]; [bkeeps|].
  intros b r b' H. destruct (execute_block (inner x) chk b) as [[u|e|] b1] eqn:Hx;
    apply b_keeps_execute_block in Hx as (E1 & E2 & E3).
  - apply IH in H as (F1 & F2 & F3). by rewrite F1, F2, F3.
  - revert H. generalize (Note ("Failed to execute block #" +:+ pretty (Z.to_N n)) e). intros e' H.
    assert (b_keeps (handle_failure h ancestor executed tip e';; mret executed)) as Hk by bkeeps.
    apply Hk in H as (F1 & F2 & F3). by rewrite F1, F2, F3.
  - injection H as _ <-. done.
Qed.
End blockchain_keeps.

#[export] Hint Resolve b_keeps_execute_block b_keeps_stored_block b_keeps_re_execute
  b_keeps_unwind_last b_keeps_intermediate b_keeps_execute_chain : bkeeps.

(** ** Reorganisation of the canonical hashes *)

Lemma B_bind_ok {A C} (m : B A) (f : A → B C) b c b' :
  (m ≫= f) b = (Ok c, b') → ∃ a b1, m b = (Ok a, b1) ∧ f a b1 = (Ok c, b').
Proof. intros [H|[(e & _ & [=])|[_ [=]]]]%B_bind_cases. exact H. Qed.

Lemma map_state_map_state f g b : map_state f (map_state g b) = map_state (fun s => f (g s)) b.
Proof. done. Qed.

Lemma b_for_modify {A} (f : A → InMemoryState → InMemoryState) l : ∀ b,
  b_for (fun x => b_modify (map_state (f x))) l b
  = (Ok tt, map_state (fun s => foldl (fun s x => f x s) s l) b).
Proof.
  induction l as [|x l IH]; intros b; cbn [b_for foldl]; [by destruct b|].
  unfold mbind, B_bind, b_modify. by rewrite IH.
Qed.

Lemma decanonize_all anc k : ∀ s,
  0 ≤ anc →
  canonical_hashes (foldl (fun s i => decanonize_block i s) s (reverse (seqZ (anc + 1) (Z.of_nat k))))
  = if (0 <? k)%nat then take (Z.to_nat (anc + 1)) (canonical_hashes s) else canonical_hashes s.
Proof.
  induction k as [|k IH]; intros s Hanc; [done|].
  rewrite seqZ_S, reverse_snoc. cbn [foldl]. rewrite IH by done. cbn.
  destruct k; [f_equal; lia|]. cbn [Nat.ltb Nat.leb]. rewrite take_take. f_equal. lia.
Qed.

Lemma canonize_all (chain : list (WithHash BlockWithSenders)) : ∀ s,
  (fun x => ph_number (bs_header (inner x))) <$> chain
  = seqZ (Z.of_nat (length (canonical_hashes s))) (Z.of_nat (length chain)) →
  canonical_hashes (foldl (fun s x =>
      canonize_block (ph_number (bs_header (inner x))) (hash x) s) s chain)
  = canonical_hashes s ++ (hash <$> chain).
Proof.
  induction chain as [|x chain IH]; intros s Hn; cbn [foldl fmap list_fmap]; [by rewrite app_nil_r|].
  rewrite length_cons, Nat2Z.inj_succ, seqZ_cons in Hn by lia. cbn in Hn.
  injection Hn as Hx Hn. rewrite Z.pred_succ in Hn.
  set (s1 := canonize_block _ _ s).
  assert (canonical_hashes s1 = canonical_hashes s ++ [hash x]) as Hs1.
  { unfold s1, canonize_block. cbn. rewrite Hx, Nat2Z.id. unfold grow.
    rewrite Nat.leb_refl. replace (_ + 1 - _)%nat with 1%nat by lia. cbn.
    by rewrite insert_app_r_alt, Nat.sub_diag by lia. }
  rewrite IH, Hs1, <- app_assoc; [done|]. rewrite Hn, Hs1, length_app. cbn. f_equal. lia.
Qed.

Lemma foldl_state_other {A} (P : InMemoryState → InMemoryState → Prop)
    (f : A → InMemoryState → InMemoryState) l `{!Reflexive P, !Transitive P} :
  (∀ x s, P s (f x s)) → ∀ s, P s (foldl (fun s x => f x s) s l).
Proof.
  intros Hf. induction l as [|x l IH]; intros s; cbn; [done|]. etrans; [apply Hf|apply IH].
Qed.

(** ** Fork choice *)

(** A store whose vectors have the lengths a [Vec] can have, and whose
    canonical chain is not empty. *)
Record chain_wf (s : InMemoryState) : Prop := {
  cw_numbered : ims_well_numbered s;
  cw_headers : Z.of_nat (length (headers s)) < 2 ^ 63;
  cw_canonical : 1 ≤ Z.of_nat (length (canonical_hashes s)) < 2 ^ 63
}.

Lemma chain_wf_same s s' : chain_of s' = chain_of s → chain_wf s → chain_wf s'.
Proof.
  unfold chain_of. intros [= Hh _ _ Hc] [Hn Hl Hcc]. split; [|by rewrite Hh|by rewrite Hc].
  unfold ims_well_numbered. by rewrite Hh.
Qed.

Lemma current_canonical s :
  1 ≤ Z.of_nat (length (canonical_hashes s)) < 2 ^ 64 →
  current_canonical_block s = Z.of_nat (length (canonical_hashes s)) - 1.
Proof. intros H. unfold current_canonical_block. rewrite u64_sub_small; word_lia. Qed.

Lemma canonical_hash_bound s n h : canonical_hash s n = Some h → 0 ≤ n → n < Z.of_nat (length (canonical_hashes s)).
Proof. unfold canonical_hash. intros H%lookup_lt_Some. lia. Qed.

Lemma read_parent s n h hd :
  chain_wf s → 0 ≤ n < 2 ^ 63 → read_header s (u64_sub n 1) h = Ok (Some hd) →
  1 ≤ n ∧ number hd = n - 1.
Proof.
  intros Hwf Hn. cbn. unfold IMS.read_header. intros [= H].
  apply bind_Some in H as (m & Hm & Hh).
  assert (1 ≤ n).
  { destruct (decide (1 ≤ n)); [done|]. assert (n = 0) as -> by lia.
    apply lookup_lt_Some in Hm. pose proof (cw_headers _ Hwf). unfold u64_sub, wrap in Hm.
    assert ((0 - 1) mod 2 ^ 64 = 2 ^ 64 - 1) as E by (by vm_compute). rewrite E in Hm. lia. }
  rewrite u64_sub_small in Hm by word_lia.
  split; [done|]. rewrite (cw_numbered _ Hwf _ _ _ _ Hm Hh). lia.
Qed.

Lemma canonical_ancestor_bound fuel s : ∀ hd h anc,
  chain_wf s → 0 ≤ ph_number hd < 2 ^ 63 → canonical_ancestor fuel s hd h = Ok anc →
  0 ≤ anc ≤ ph_number hd ∧ anc ≤ current_canonical_block s.
Proof.
  induction fuel as [|fuel IH]; intros hd h anc Hwf Hn H; cbn [canonical_ancestor] in H; [done|].
  destruct (bool_decide_reflect (canonical_hash s (ph_number hd) = Some h)) as [Hc|_].
  - injection H as <-. apply canonical_hash_bound in Hc; [|lia].
    pose proof (cw_canonical _ Hwf). rewrite current_canonical by lia. lia.
  - res_inv. destruct (read_parent _ _ _ _ Hwf Hn Hm) as [H1 H2].
    apply IH in H; [|done|cbn; lia]. cbn in H. lia.
Qed.

(** The fuel given is enough: the search never runs out of it. *)
Lemma canonical_ancestor_total fuel s : ∀ hd h,
  chain_wf s → 0 ≤ ph_number hd < 2 ^ 63 → ph_number hd < Z.of_nat fuel →
  canonical_ancestor fuel s hd h ≠ Panic.
Proof.
  induction fuel as [|fuel IH]; intros hd h Hwf Hn Hf; [lia|]. cbn [canonical_ancestor].
  destruct (bool_decide _); [done|].
  destruct (read_header s (u64_sub (ph_number hd) 1) (ph_parent_hash hd)) as [[parent|]|e|] eqn:Hr;
    res_simpl; try done.
  cbn [ok_or]. res_simpl.
  destruct (read_parent _ _ _ _ Hwf Hn Hr) as [H1 H2]. apply IH; cbn; [done|lia|lia].
Qed.

(** The total difficulty stored for a block, and the canonical tip's. *)
Definition td_at (s : InMemoryState) (n h : Z) : option Z :=
  difficulties s !! Z.to_nat n ≫= fun m => m !! h.
Definition tip_difficulty (s : InMemoryState) : option Z :=
  canonical_hash s (current_canonical_block s) ≫= td_at s (current_canonical_block s).

Lemma insert_block_chain block h s s' :
  chain_of s' = chain_of s → chain_of (insert_block block h s') = chain_of (insert_block block h s).
Proof.
  destruct s, s'. unfold chain_of. cbn. intros [= -> -> -> ->]. unfold insert_block. cbn.
  by destruct (match Z.to_nat _ with O => _ | _ => _ end).
Qed.

Lemma insert_block_canonical block h s :
  canonical_hashes (insert_block block h s) = canonical_hashes s.
Proof. unfold insert_block. by destruct (match Z.to_nat _ with O => _ | _ => _ end). Qed.

Lemma b_read_ok {A} (f : Blockchain → result A) b a b' :
  b_read f b = (Ok a, b') → f b = Ok a ∧ b' = b.
Proof. by intros [= -> ->]. Qed.

Section fork_choice.
Context {HH : Hashing} {HE : Evm InMemoryState} {HG : EvmLaws InMemoryState}
  {HP : Pow} {HD : HeaderHashing}.

Lemma stored_block_number n h b bs b' :
  chain_wf (state b) → 0 ≤ n → stored_block n h b = (Ok bs, b') → ph_number (bs_header bs) = n.
Proof.
  intros Hwf Hn H. unfold stored_block in H.
  apply B_bind_ok in H as (body & b1 & [= _ <-] & H).
  apply B_bind_ok in H as (body' & b1 & [= _ <-] & H).
  apply B_bind_ok in H as (hd & b1 & [= Hr <-] & H).
  apply B_bind_ok in H as (hd' & b1 & [= Hu <-] & H). apply unwrap_ok in Hu.
  rewrite <- Hr in Hu. injection H as <- _. cbn. apply bind_Some in Hu as (m & Hm & Hh).
  rewrite (cw_numbered _ Hwf _ _ _ _ Hm Hh). lia.
Qed.

Lemma intermediate_loop_numbers ns : ∀ h chain b chain' b',
  chain_wf (state b) → (∀ n, n ∈ ns → 0 ≤ n) →
  intermediate_loop ns h chain b = (Ok chain', b') →
  (fun x => ph_number (bs_header (inner x))) <$> chain'
  = reverse ns ++ ((fun x => ph_number (bs_header (inner x))) <$> chain).
Proof.
  induction ns as [|n ns IH]; intros h chain b chain' b' Hwf Hns H; cbn [intermediate_loop] in H.
  { by injection H as <- _. }
  apply B_bind_ok in H as (bs & b1 & H1 & H).
  apply stored_block_number in H1 as Hn; [|done|apply Hns; by left].
  apply b_keeps_stored_block in H1 as (Hc & _).
  apply IH in H; [|by eapply chain_wf_same|intros m Hm; apply Hns; by right].
  rewrite H, reverse_cons, <- app_assoc. cbn. by rewrite Hn.
Qed.

Lemma intermediate_chain_numbers n h anc b chain b' :
  chain_wf (state b) → 0 ≤ anc ≤ n + 1 → 0 ≤ n + 1 < 2 ^ 63 →
  intermediate_chain (u64_sub (n + 1) 1) h anc b = (Ok chain, b') →
  anc ≤ n ∧ (fun x => ph_number (bs_header (inner x))) <$> chain = blocks_after anc n.
Proof.
  intros Hwf Hanc Hn H. unfold intermediate_chain in H.
  destruct (decide (anc = n + 1)) as [->|Hne].
  { exfalso. assert (u64_sub (u64_sub (n + 1) 1) (n + 1) = 2 ^ 64 - 1) as E.
    { unfold u64_sub, wrap. rewrite Zminus_mod_idemp_l.
      replace (n + 1 - 1 - (n + 1)) with (-1) by lia. by vm_compute. }
    rewrite E in H. by vm_compute in H. }
  rewrite (u64_sub_small (n + 1) 1), Z.add_simpl_r in H by word_lia.
  rewrite (u64_sub_small n anc) in H by word_lia. rewrite (proj2 (Z.ltb_ge _ _)) in H by (unfold i64_max; lia).
  split; [lia|]. apply intermediate_loop_numbers in H; [|done|].
  - by rewrite H, reverse_involutive, app_nil_r.
  - intros m. rewrite elem_of_reverse. unfold blocks_after. rewrite elem_of_seqZ. lia.
Qed.

(** What the first half establishes. *)
Lemma execute_branch_ok block chk b anc tip chain executed b' :
  chain_wf (state b) → 0 ≤ number (header block) < 2 ^ 63 →
  execute_branch block chk b = (Ok (anc, tip, chain, executed), b') →
  chain_of (state b') = chain_of (state b) ∧ tip = current_canonical_block (state b)
  ∧ 0 ≤ anc ≤ tip ∧ anc < number (header block)
  ∧ (fun x => ph_number (bs_header (inner x))) <$> chain
    = blocks_after anc (number (header block))
  ∧ last (hash <$> chain) = Some (header_hash (header block)).
Proof.
  intros Hwf Hn H. unfold execute_branch in H.
  apply B_bind_ok in H as (? & b1 & [= _ <-] & H).
  apply B_bind_ok in H as (? & b1 & [= _ <-] & H).
  apply B_bind_ok in H as (bad & b1 & [= _ <-] & H).
  apply B_bind_ok in H as (? & b1 & Hbad & H).
  assert (b1 = b) as -> by (by destruct bad; injection Hbad).
  apply B_bind_ok in H as (bs & b1 & [= Hbs <-] & H).
  unfold block_with_senders in Hbs. res_inv. cbn [bs_header] in H.
  apply B_bind_ok in H as (anc' & b1 & [Hanc ->]%b_read_ok & H).
  apply B_bind_ok in H as (tip' & b1 & [= <- <-] & H).
  apply B_bind_ok in H as (? & b1 & Hu & H). apply b_keeps_unwind_last in Hu as (Hc1 & _ & _).
  apply B_bind_ok in H as (chain' & b2 & Hi & H).
  apply b_keeps_intermediate in Hi as Hk. destruct Hk as (Hc2 & _ & _).
  apply B_bind_ok in H as (ex & b3 & He & H). apply b_keeps_execute_chain in He as (Hc3 & _ & _).
  injection H as <- <- <- <- <-.
  apply canonical_ancestor_bound in Hanc; [|done|done]. cbn in Hanc, Hi |- *.
  replace (number (header block)) with (number (header block) - 1 + 1) in Hi by lia.
  apply intermediate_chain_numbers in Hi as [Hlt Hnum]; [|by eapply chain_wf_same|lia|lia].
  split_and!; [by rewrite Hc3, Hc2|done|lia|lia|lia| |].
  - rewrite fmap_app, Hnum. cbn. unfold blocks_after.
    replace (number (header block) - anc') with (Z.of_nat (S (Z.to_nat (number (header block) - 1 - anc')))) by lia.
    rewrite seqZ_S. f_equal; [f_equal; lia|]. f_equal. lia.
  - rewrite fmap_app. apply last_snoc.
Qed.

Lemma execute_branch_keeps block chk : b_keeps (execute_branch block chk).
Proof. unfold execute_branch, find_ancestor. bkeeps. Qed.

Lemma stored_difficulty_cases n h b r b' :
  stored_difficulty n h b = (r, b') →
  b' = b ∧ ((∃ td, r = Ok td ∧ td_at (state b) n h = Some td) ∨ r = Panic).
Proof.
  unfold stored_difficulty. intros H.
  apply B_bind_cases in H as [(td & b1 & [= <- <-] & H)|[(e & [=] & _)|[[=] _]]].
  unfold td_at. revert H. destruct (_ ≫= _); intros [= <- <-]; eauto.
Qed.

Lemma canonize_chain_run anc tip chain b :
  canonize_chain anc tip chain b
  = (Ok tt, map_state (fun s =>
       foldl (fun s x => canonize_block (ph_number (bs_header (inner x))) (hash x) s)
         (foldl (fun s i => decanonize_block i s) s (reverse (blocks_after anc tip))) chain) b).
Proof.
  unfold canonize_chain, mbind, B_bind. rewrite b_for_modify.
  etrans; [apply b_for_modify|]. done.
Qed.

Lemma canonize_chain_hashes anc chain s n :
  1 ≤ Z.of_nat (length (canonical_hashes s)) < 2 ^ 63 →
  0 ≤ anc ≤ current_canonical_block s → anc < n →
  (fun x => ph_number (bs_header (inner x))) <$> chain = blocks_after anc n →
  canonical_hashes (foldl (fun s x => canonize_block (ph_number (bs_header (inner x))) (hash x) s)
      (foldl (fun s i => decanonize_block i s) s
         (reverse (blocks_after anc (current_canonical_block s)))) chain)
  = take (Z.to_nat (anc + 1)) (canonical_hashes s) ++ (hash <$> chain).
Proof.
  intros Hwf Hanc Hn Hc. pose proof (current_canonical s ltac:(lia)) as Htip.
  assert (length chain = Z.to_nat (n - anc)) as Hlen.
  { apply (f_equal length) in Hc. unfold blocks_after in Hc.
    by rewrite length_fmap, length_seqZ in Hc. }
  set (s1 := foldl _ s _).
  assert (canonical_hashes s1 = take (Z.to_nat (anc + 1)) (canonical_hashes s)) as Hs1.
  { unfold s1, blocks_after.
    replace (current_canonical_block s - anc)
      with (Z.of_nat (Z.to_nat (current_canonical_block s - anc))) by lia.
    rewrite decanonize_all by lia. destruct (Nat.ltb_spec 0 (Z.to_nat (current_canonical_block s - anc)));
      [done|]. rewrite take_ge by lia. done. }
  rewrite <- Hs1. apply canonize_all. rewrite Hs1, length_take, Hc, Hlen. unfold blocks_after.
  f_equal; lia.
Qed.

(** The result of an insertion, for a store [s] the block was just put in. *)
Definition fork_choice (n h : Z) (s s' : InMemoryState) (r : result unit) : Prop :=
  match r with
  | Ok _ =>
      ∃ td0 td1, tip_difficulty s = Some td0 ∧ td_at s n h = Some td1
        ∧ tip_difficulty s' = Some (Z.max td0 td1)
        ∧ if td0 <? td1
          then current_canonical_block s' = n ∧ canonical_hash s' n = Some h
               ∧ ∃ fork, 0 ≤ fork < n ∧ ∀ i, 0 ≤ i ≤ fork → canonical_hash s' i = canonical_hash s i
          else canonical_hashes s' = canonical_hashes s
  | Err _ => canonical_hashes s' = canonical_hashes s
  | Panic => True
  end.

Lemma tip_difficulty_chain s s' : chain_of s' = chain_of s → tip_difficulty s' = tip_difficulty s.
Proof.
  unfold chain_of. intros [= _ _ Hd Hc].
  unfold tip_difficulty, td_at, canonical_hash, current_canonical_block. by rewrite Hd, Hc.
Qed.

Lemma fork_choice_chain n h s0 s s' r :
  chain_of s0 = chain_of s → fork_choice n h s0 s' r → fork_choice n h s s' r.
Proof.
  intros Hc. pose proof (tip_difficulty_chain _ _ Hc) as Ht. unfold chain_of in Hc.
  injection Hc as _ _ Hd Hcan. unfold fork_choice, td_at, canonical_hash.
  by rewrite Ht, Hd, Hcan.
Qed.

(** The heavier branch canonised. *)
Lemma canonize_chain_choice anc chain n h td0 td1 b :
  let s := state b in
  1 ≤ Z.of_nat (length (canonical_hashes s)) < 2 ^ 63 → 0 ≤ n < 2 ^ 63 →
  0 ≤ anc ≤ current_canonical_block s → anc < n →
  (fun x => ph_number (bs_header (inner x))) <$> chain = blocks_after anc n →
  last (hash <$> chain) = Some h →
  tip_difficulty s = Some td0 → td_at s n h = Some td1 → td0 < td1 →
  ∀ r b', canonize_chain anc (current_canonical_block s) chain b = (r, b') →
  fork_choice n h s (state b') r.
Proof.
  intros s Hlen Hn Hanc Hlt Hnum Hlast Ht0 Ht1 Htd r b' H.
  rewrite canonize_chain_run in H. injection H as <- <-. cbn [state map_state fork_choice].
  set (s2 := foldl _ _ chain).
  assert (canonical_hashes s2 = take (Z.to_nat (anc + 1)) (canonical_hashes s) ++ (hash <$> chain))
    as Hc2 by by apply canonize_chain_hashes with (n := n).
  assert (difficulties s2 = difficulties s) as Hd2.
  { unfold s2. etrans; [apply (foldl_state_other (fun s s' => difficulties s' = difficulties s))|].
    1-2: by intros ? **; congruence. done.
    apply (foldl_state_other (fun s s' => difficulties s' = difficulties s)); try done.
    by intros ? **; congruence. }
  assert (length (hash <$> chain) = Z.to_nat (n - anc)) as Hlc.
  { apply (f_equal length) in Hnum. unfold blocks_after in Hnum.
    rewrite length_fmap in Hnum |- *. by rewrite Hnum, length_seqZ. }
  pose proof (current_canonical s ltac:(lia)) as Htip.
  assert (length (take (Z.to_nat (anc + 1)) (canonical_hashes s)) = Z.to_nat (anc + 1)) as Hlt2
    by (rewrite length_take; lia).
  assert (current_canonical_block s2 = n) as Hcur.
  { rewrite current_canonical; rewrite Hc2, length_app, Hlc, Hlt2; lia. }
  assert (canonical_hash s2 n = Some h) as Hh.
  { unfold canonical_hash. rewrite Hc2, lookup_app_r by lia.
    rewrite <- Hlast, last_lookup. f_equal. lia. }
  exists td0, td1. split_and!; [done|done| |].
  - unfold tip_difficulty. rewrite Hcur, Hh. cbn. unfold td_at. rewrite Hd2.
    rewrite Z.max_r by lia. exact Ht1.
  - rewrite (proj2 (Z.ltb_lt _ _) Htd). split_and!; [done|done|]. exists anc. split; [lia|].
    intros i Hi. unfold canonical_hash. rewrite Hc2, lookup_app_l by lia.
    apply lookup_take_lt. lia.
Qed.

Lemma choose_chain_choice block anc tip chain executed b r b' :
  let h := header_hash (header block) in
  let n := number (header block) in
  chain_wf (state b) → tip = current_canonical_block (state b) → 0 ≤ n < 2 ^ 63 →
  0 ≤ anc ≤ tip → anc < n →
  (fun x => ph_number (bs_header (inner x))) <$> chain = blocks_after anc n →
  last (hash <$> chain) = Some h →
  choose_chain block anc tip chain executed b = (r, b') →
  fork_choice n h (InMemoryState.insert_block block h (state b)) (state b') r.
Proof.
  intros h n Hwf -> Hn Hanc Hlt Hnum Hlast H. unfold choose_chain in H.
  fold h in H. fold n in H. set (s1 := InMemoryState.insert_block block h (state b)) in *.
  assert (canonical_hashes s1 = canonical_hashes (state b)) as Hcan by apply insert_block_canonical.
  apply B_bind_cases in H as [(? & b1 & [= _ <-] & H)|[(e & [=] & _)|[[=] _]]].
  apply B_bind_cases in H as [(c0 & b1 & [= <- <-] & H)|[(e & [=] & _)|[[=] _]]].
  set (b1 := map_state (InMemoryState.insert_block block h) b) in *.
  change (state b1) with s1 in H.
  assert (current_canonical_block s1 = current_canonical_block (state b)) as Hcur
    by (unfold current_canonical_block; by rewrite Hcan).
  apply B_bind_cases in H as [(c1 & b2 & [= Hc1 <-] & H)|[(e & [= He _] & ->)|[_ ->]]]; [| |done].
  2:{ unfold unwrap in He. by case_match. }
  apply unwrap_ok in Hc1. change (canonical_hash s1 (current_canonical_block (state b)) = Some c1) in Hc1.
  apply B_bind_cases in H as [(td0 & b2 & Ht0 & H)|[(e & He & ->)|[_ ->]]]; [| |done].
  2:{ apply stored_difficulty_cases in He as (_ & [(? & [=] & _)|[=]]). }
  apply stored_difficulty_cases in Ht0 as (-> & [(td0' & [= <-] & Ht0)|[=]]).
  apply B_bind_cases in H as [(td1 & b2 & Ht1 & H)|[(e & He & ->)|[_ ->]]]; [| |done].
  2:{ apply stored_difficulty_cases in He as (_ & [(? & [=] & _)|[=]]). }
  apply stored_difficulty_cases in Ht1 as (-> & [(td1' & [= <-] & Ht1)|[=]]).
  change (state b1) with s1 in Ht0, Ht1.
  assert (tip_difficulty s1 = Some td0) as Htip
    by (unfold tip_difficulty; rewrite Hcur, Hc1; exact Ht0).
  destruct (Z.ltb_spec td0 td1) as [Hlt'|Hge].
  - rewrite <- Hcur in H, Hanc.
    apply (canonize_chain_choice anc chain n h td0 td1 b1); try done.
    change (state b1) with s1. rewrite Hcan. apply Hwf.
  - assert (chain_of (state b') = chain_of s1) as Hc'.
    { assert (b_keeps (unwind_last_changes anc (u64_add anc executed);;
        re_execute_canonical_chain anc (current_canonical_block (state b)))) as Hk by bkeeps.
      by apply Hk in H as (-> & _). }
    assert (canonical_hashes (state b') = canonical_hashes s1) as Hcan'
      by (unfold chain_of in Hc'; by injection Hc').
    destruct r as [u|e|]; cbn; [|done|done].
    exists td0, td1. split_and!; [done|done| |].
    + rewrite (tip_difficulty_chain _ _ Hc'), Z.max_l by lia. done.
    + by rewrite (proj2 (Z.ltb_ge _ _) Hge).
Qed.


(** Flaw of [insert_block]: a block that is already canonical, and still
    passes the header checks, is not refused. The search for the fork stops
    at the block itself, the length of the branch underflows, and the
    allocation of its vector panics, whatever the block. *)
Theorem reinsert_canonical_panics block chk b
  (Hwf : chain_wf (state b)) (Hn : 1 ≤ number (header block) < 2 ^ 63)
  (Hhead : c_validate_block_header (engine b) (header block) (state b) true = Ok tt)
  (Hpre : c_pre_validate_block (engine b) block (state b) = Ok tt)
  (Hbad : bad_blocks b !! header_hash (header block) = None)
  (Hsend : is_ok (block_with_senders block) = true)
  (Hcan : canonical_hash (state b) (number (header block)) = Some (header_hash (header block))) :
  (insert_block_in_chain block chk b).1 = Panic.
Proof.
  destruct (block_with_senders block) as [bs| |] eqn:Hbs; [|done|done].
  assert (bs_header bs = partial_of_header (header block)) as Hbh.
  { unfold block_with_senders in Hbs. by res_inv. }
  pose proof (canonical_hash_bound _ _ _ Hcan ltac:(lia)) as Hb.
  pose proof (cw_canonical _ Hwf) as Hcw.
  pose proof (current_canonical (state b) ltac:(lia)) as Htip.
  unfold insert_block_in_chain, execute_branch, find_ancestor, b_read, b_gets, b_lift.
  unfold mbind, B_bind. rewrite Hhead, Hpre, Hbad, Hbs. cbn. rewrite Hbh. cbn.
  rewrite (bool_decide_eq_true_2 _ Hcan).
  unfold unwind_last_changes. rewrite (proj2 (Z.leb_le _ _)) by lia. rewrite b_for_modify.
  unfold intermediate_chain.
  assert (u64_sub (u64_sub (number (header block)) 1) (number (header block)) = 2 ^ 64 - 1) as ->.
  { unfold u64_sub, wrap. rewrite Zminus_mod_idemp_l.
    replace (_ - 1 - _) with (-1) by lia. by vm_compute. }
  reflexivity.
Qed.
End fork_choice.

(** *** Examples *)

#[local] Existing Instance toy_hashing.
#[local] Existing Instance toy_pow.
#[local] Existing Instance idle_evm.
#[local] Existing Instance idle_evm_gas.
#[local] Instance toy_header_hash : HeaderHashing :=
  fun hd => 1000 * number hd + beneficiary hd + 1.

Definition demo_config : ChainSpec := {|
  consensus := {| seal_verification := EthashSeal 13 ∅ None None None true; eip1559_block := None |};
  upgrades := mkUpgrades None None None None None None None None None;
  params := {| ChainSpec.chain_id := 1; network_id := 1; min_gas_limit := 5000 |};
  contracts := ∅; balances := ∅ |}.

Definition demo_genesis : Block :=
  mkBlock (mkHeader 0 0 0 0 0 0 0 131072 0 10_000_000 0 100 [] 0 0 None) [] [].

Definition demo_block_1 : Block :=
  mkBlock (mkHeader 1 0 4 0 0 0 0 131136 1 10_000_000 0 101 [] 0 0 None) [] [].

Definition demo_blockchain : Blockchain :=
  new_with_consensus empty_ims
    (ethash_consensus (Ok 1000) (ethash_new 1 None 13 ∅ None None None true))
    demo_config demo_genesis.

Lemma demo_numbered : ims_well_numbered (state demo_blockchain).
Proof.
  change (ims_well_numbered (insert_block demo_genesis 1 empty_ims)).
  apply insert_block_well_numbered; [cbn; lia|].
  intros n m h hd Hn. cbn in Hn. by rewrite lookup_nil in Hn.
Qed.


(** The chain with the block canonical. *)
Definition demo_blockchain_1 : Blockchain :=
  map_state (fun s => canonize_block 1 1005 (insert_block demo_block_1 1005 s)) demo_blockchain.

Lemma reinsert_canonical_panics_witness :
  (insert_block_in_chain demo_block_1 false demo_blockchain_1).1 = Panic.
Proof.
  apply reinsert_canonical_panics; [|vm_compute; first [reflexivity|split; congruence]..].
  split; [|vm_compute; reflexivity|vm_compute; split; congruence].
  change (ims_well_numbered (insert_block demo_block_1 1005 (state demo_blockchain))).
  apply insert_block_well_numbered; [cbn; lia|apply demo_numbered].
Defined.
