(* ===== verification/Blake2.v ===== *)
(** * Blake2

    [src/src/crypto/blake2.rs]: the compression function of BLAKE2b, on
    words of 64 bits. Vectors are lists that keep their lengths; the indices
    are constants below them. *)

From S2P Require Import Prelude Words.

Definition SIGMA : list (list nat) :=
  [ [0; 1; 2; 3; 4; 5; 6; 7; 8; 9; 10; 11; 12; 13; 14; 15];
    [14; 10; 4; 8; 9; 15; 13; 6; 1; 12; 0; 2; 11; 7; 5; 3];
    [11; 8; 12; 0; 5; 2; 15; 13; 10; 14; 3; 6; 7; 1; 9; 4];
    [7; 9; 3; 1; 13; 12; 11; 14; 2; 6; 5; 10; 4; 0; 15; 8];
    [9; 0; 5; 7; 2; 4; 10; 15; 14; 1; 11; 12; 6; 8; 3; 13];
    [2; 12; 6; 10; 0; 11; 8; 3; 4; 13; 7; 5; 15; 14; 1; 9];
    [12; 5; 1; 15; 14; 13; 4; 10; 0; 7; 6; 3; 9; 2; 8; 11];
    [13; 11; 7; 14; 12; 1; 3; 9; 5; 0; 15; 4; 8; 6; 2; 10];
    [6; 15; 14; 9; 11; 3; 0; 8; 12; 2; 13; 7; 1; 4; 10; 5];
    [10; 2; 8; 4; 7; 6; 1; 5; 15; 11; 9; 14; 3; 12; 13; 0] ]%nat.

Definition IV : list Z :=
  [ 0x6a09e667f3bcc908; 0xbb67ae8584caa73b; 0x3c6ef372fe94f82b; 0xa54ff53a5f1d36f1;
    0x510e527fade682d1; 0x9b05688c2b3e6c1f; 0x1f83d9abfb41bd6b; 0x5be0cd19137e2179 ].

(** [x.rotate_right(n)] of a [u64]. *)
Definition rotate_right (x n : Z) : Z := Z.lor (Z.shiftr x n) (wrap 64 (Z.shiftl x (64 - n))).

(** [v[i]], of an index within bounds. *)
Definition at_ (v : list Z) (i : nat) : Z := default 0 (v !! i).

Definition mix_add (a b : nat) (x : Z) (v : list Z) : list Z := <[a := u64_add (u64_add (at_ v a) (at_ v b)) x]> v.
Definition mix_rot (d a : nat) (n : Z) (v : list Z) : list Z := <[d := rotate_right (Z.lxor (at_ v d) (at_ v a)) n]> v.

(** The G mixing function. *)
Definition g (v : list Z) (a b c d : nat) (x y : Z) : list Z :=
  let v := mix_add a b x v in
  let v := mix_rot d a 32 v in
  let v := mix_add c d 0 v in
  let v := mix_rot b c 24 v in
  let v := mix_add a b y v in
  let v := mix_rot d a 16 v in
  let v := mix_add c d 0 v in
  mix_rot b c 63 v.

(** One round, with the word selection [s]. *)
Definition round (m : list Z) (s : list nat) (v : list Z) : list Z :=
  let w i := at_ m (default 0%nat (s !! i)) in
  let v := g v 0 4 8 12 (w 0%nat) (w 1%nat) in
  let v := g v 1 5 9 13 (w 2%nat) (w 3%nat) in
  let v := g v 2 6 10 14 (w 4%nat) (w 5%nat) in
  let v := g v 3 7 11 15 (w 6%nat) (w 7%nat) in
  let v := g v 0 5 10 15 (w 8%nat) (w 9%nat) in
  let v := g v 1 6 11 12 (w 10%nat) (w 11%nat) in
  let v := g v 2 7 8 13 (w 12%nat) (w 13%nat) in
  g v 3 4 9 14 (w 14%nat) (w 15%nat).

(** A loop [for i in i..i + count] that updates [v]. *)
Fixpoint for_range {A} (f : nat → A → A) (count i : nat) (v : A) : A :=
  match count with
  | O => v
  | S count => for_range f count (S i) (f i v)
  end.

(** [for i in 0..rounds]. *)
Definition mix_rounds (rounds : nat) (m v : list Z) : list Z :=
  for_range (fun i => round m (default [] (SIGMA !! (i mod 10)%nat))) rounds 0 v.

Definition compress (h m : list Z) (t : Z * Z) (f : bool) (rounds : nat) : list Z :=
  let v := h ++ IV in
  let v := <[12%nat := Z.lxor (at_ v 12) t.1]> v in
  let v := <[13%nat := Z.lxor (at_ v 13) t.2]> v in
  let v := if f then <[14%nat := Z.lxor (at_ v 14) u64_max]> v else v in
  let v := mix_rounds rounds m v in
  imap (fun i x => Z.lxor x (Z.lxor (at_ v i) (at_ v (i + 8)))) h.

(** ** Words stay words *)

Definition words (v : list Z) : Prop := Forall is_u64 v.

Lemma lxor_word a b : is_u64 a → is_u64 b → is_u64 (Z.lxor a b).
Proof.
  unfold is_word. intros Ha Hb. split; [apply Z.lxor_nonneg; lia|].
  destruct (decide (Z.lxor a b = 0)) as [->|Hne]; [lia|]. apply Z.log2_lt_pow2.
  - pose proof (proj2 (Z.lxor_nonneg a b)). lia.
  - pose proof (Z.log2_lxor a b ltac:(lia) ltac:(lia)).
    assert (∀ x, 0 ≤ x < 2 ^ 64 → Z.log2 x < 64) as Hl.
    { intros x Hx. destruct (decide (x = 0)) as [->|]; [by cbn|]. apply Z.log2_lt_pow2; lia. }
    pose proof (Hl a Ha). pose proof (Hl b Hb). lia.
Qed.

Lemma rotate_right_word x n : is_u64 x → 0 ≤ n → is_u64 (rotate_right x n).
Proof.
  intros Hx Hn. unfold rotate_right. pose proof (wrap_word 64 (Z.shiftl x (64 - n)) ltac:(lia)) as Hw.
  assert (is_u64 (Z.shiftr x n)) as Hs.
  { unfold is_word in *. rewrite Z.shiftr_div_pow2 by done. split; [apply Z.div_pos; lia|].
    eapply Z.le_lt_trans; [apply Z.div_le_upper_bound; [lia|]|apply Hx]. nia. }
  unfold is_word in *. split; [apply Z.lor_nonneg; lia|].
  destruct (decide (Z.lor (Z.shiftr x n) (wrap 64 (Z.shiftl x (64 - n))) = 0)) as [->|Hne]; [lia|].
  apply Z.log2_lt_pow2; [pose proof (proj2 (Z.lor_nonneg (Z.shiftr x n) (wrap 64 (Z.shiftl x (64 - n))))); lia|].
  rewrite Z.log2_lor by lia.
  assert (∀ y, 0 ≤ y < 2 ^ 64 → Z.log2 y < 64) as Hl.
  { intros y Hy. destruct (decide (y = 0)) as [->|]; [by cbn|]. apply Z.log2_lt_pow2; lia. }
  pose proof (Hl _ Hs). pose proof (Hl _ Hw). lia.
Qed.

Lemma at_word v i : words v → is_u64 (at_ v i).
Proof.
  intros Hv. unfold at_. destruct (v !! i) as [x|] eqn:E; [by eapply Forall_lookup_1|]. cbn. unfold is_word. lia.
Qed.

#[export] Hint Resolve lxor_word rotate_right_word at_word Forall_insert : blake.
#[export] Hint Resolve u64_add_word : blake.

Lemma mix_add_words a b x v : words v → words (mix_add a b x v).
Proof. intros Hv. unfold mix_add, words in *. auto with blake. Qed.

Lemma mix_rot_words d a n v : words v → 0 ≤ n → words (mix_rot d a n v).
Proof. intros Hv Hn. unfold mix_rot, words in *. auto 6 with blake. Qed.

Lemma g_words v a b c d x y : words v → words (g v a b c d x y).
Proof. intros Hv. unfold g. repeat first [apply mix_rot_words; [|lia] | apply mix_add_words]. exact Hv. Qed.

Opaque g.

Lemma round_words m s v : words v → words (round m s v).
Proof. intros Hv. unfold round. cbv zeta. do 8 apply g_words. exact Hv. Qed.

Lemma for_range_inv {A} (P : A → Prop) (f : nat → A → A) count : ∀ i v,
  (∀ i v, P v → P (f i v)) → P v → P (for_range f count i v).
Proof. induction count as [|count IH]; intros i v Hf Hv; [done|]. apply IH; auto. Qed.

Lemma mix_rounds_words rounds m v : words v → words (mix_rounds rounds m v).
Proof. apply for_range_inv. intros i w. apply round_words. Qed.

(** The compressed state has as many words as the state. *)
Lemma compress_words h m t f rounds :
  words h → is_u64 t.1 → is_u64 t.2 →
  words (compress h m t f rounds) ∧ length (compress h m t f rounds) = length h.
Proof.
  intros Hh H1 H2. unfold compress. split; [|by rewrite length_imap].
  assert (words IV) as HIV by (repeat constructor; unfold is_word; lia).
  assert (words (h ++ IV)) as H0 by by apply Forall_app.
  set (v1 := <[12%nat := _]> (h ++ IV)). assert (words v1) as Hv1 by (apply Forall_insert; auto with blake).
  set (v2 := <[13%nat := _]> v1). assert (words v2) as Hv2 by (apply Forall_insert; auto with blake).
  set (v3 := if f then _ else _). assert (words v3) as Hv3.
  { subst v3. destruct f; [|done]. apply Forall_insert; [done|]. apply lxor_word; [auto with blake|].
    unfold is_word, u64_max. lia. }
  pose proof (mix_rounds_words rounds m v3 Hv3) as Hv. set (v := mix_rounds rounds m v3) in *. clearbody v.
  apply Forall_lookup. intros i x. rewrite list_lookup_imap. intros (y & Hy & ->)%fmap_Some.
  apply lxor_word; [exact (Forall_lookup_1 _ _ _ _ Hh Hy)|]. auto with blake.
Qed.
