(* ===== verification/Precompiled.v ===== *)
(** * Precompiled

    [src/src/execution/precompiled.rs]: the nine precompiled contracts. The
    hashes, the curve arithmetic, signature recovery and modular
    exponentiation of the libraries it calls are members of a class. *)

From S2P Require Import Prelude Words Errors Params Transaction Block InMemoryState Blake2.

(** ** The libraries *)

Class Crypto : Type := {
  sha256_digest : bytes → bytes;
  ripemd160_digest : bytes → bytes;
  (* [RecoverableSignature::from_compact], [recover_ecdsa] and
     [serialize_uncompressed], of a message, a signature and its parity *)
  recover_ecdsa : bytes → bytes → bool → option bytes;
  modpow : Z → Z → Z → Z;
  Fq : Type;
  fq_from_slice : bytes → option Fq;
  fq_is_zero : Fq → bool;
  fq_to_big_endian : Fq → bytes;
  Fr : Type;
  fr_from_slice : bytes → option Fr;
  G1 : Type;
  g1_zero : G1;
  affine_g1 : Fq → Fq → option G1;
  g1_add : G1 → G1 → G1;
  g1_mul : G1 → Fr → G1;
  g1_affine : G1 → option (Fq * Fq);
  G2 : Type;
  g2_zero : G2;
  affine_g2 : Fq * Fq → Fq * Fq → option G2;
  Gt : Type;
  gt_one : Gt;
  gt_mul : Gt → Gt → Gt;
  pairing : G1 → G2 → Gt;
  gt_eqb : Gt → Gt → bool
}.

(** The lengths of what they write, and that [modpow] is what it says. *)
Class CryptoLaws {HC : Crypto} : Prop := {
  sha256_length l : length (sha256_digest l) = 32%nat;
  ripemd160_length l : length (ripemd160_digest l) = 20%nat;
  fq_length x : length (fq_to_big_endian x) = 32%nat;
  modpow_spec b e m : 0 ≤ b → 0 ≤ e → 0 < m → modpow b e m = b ^ e mod m
}.

Section precompiled.
Context {HH : Hashing} {HC : Crypto}.

(** [input[from..from + 32]], of an input that is long enough. *)
Definition word_at (from : nat) (input : bytes) : bytes := take 32 (drop from input).

Definition ceil_words (input : bytes) : Z := (Z.of_nat (length input) + 31) / 32.

Definition of_resize (n : nat) (l : bytes) : bytes := take n l ++ replicate (n - length l) 0.

(** ** The first four *)

Definition ecrecover_gas (_ : bytes) (_ : Revision) : option Z := Some 3000.

Definition ecrecover_run_inner (input : bytes) : option bytes :=
  let input := if (length input <? 128)%nat then of_resize 128 input else input in
  let v := from_be_bytes (word_at 32 input) in
  let r := word_at 64 input in
  let s := word_at 96 input in
  if negb (is_valid_signature (from_be_bytes r) (from_be_bytes s)) then None
  else
    let sig := r ++ s in
    odd ← (if v =? 28 then Some true else if v =? 27 then Some false else None);
    public ← recover_ecdsa (word_at 0 input) sig odd;
    let out := replicate 32 0 in
    Some (take 12 out ++ drop 12 (to_be_bytes 32 (keccak256 (drop 1 public)))).

Definition ecrecover_run (input : bytes) : option bytes := Some (default [] (ecrecover_run_inner input)).

Definition sha256_gas (input : bytes) (_ : Revision) : option Z := Some (60 + 12 * ceil_words input).
Definition sha256_run (input : bytes) : option bytes := Some (sha256_digest input).

Definition ripemd160_gas (input : bytes) (_ : Revision) : option Z := Some (600 + 120 * ceil_words input).
Definition ripemd160_run (input : bytes) : option bytes := Some (replicate 12 0 ++ ripemd160_digest input).

Definition id_gas (input : bytes) (_ : Revision) : option Z := Some (15 + 3 * ceil_words input).
Definition id_run (input : bytes) : option bytes := Some input.

(** ** Modular exponentiation *)

Definition mult_complexity_eip198 (x : Z) : Z :=
  let x_squared := u256_mul x x in
  if x <=? 64 then x_squared
  else if x <=? 1024
  then u256_sub (u256_add (Z.shiftr x_squared 2) (u256_mul 96 x)) 3072
  else u256_sub (u256_add (Z.shiftr x_squared 4) (u256_mul 480 x)) 199680.

Definition mult_complexity_eip2565 (max_length : Z) : Z :=
  let words := Z.shiftr (u256_add max_length 7) 3 in
  u256_mul words words.

(** [usize::try_from], [u64::try_from] of a [U256]. *)
Definition try_u64 (x : Z) : option Z := if x <=? u64_max then Some x else None.

Definition leading_zeros (x : Z) : Z := if x =? 0 then 256 else 255 - Z.log2 x.

(** The first 32 bytes of the exponent. *)
Definition expmod_exp_head (base_len exp_len : Z) (input : bytes) : Z :=
  if base_len <? Z.of_nat (length input) then
    let to := Z.min (u64_add base_len 32) (Z.of_nat (length input)) in
    let exp_input := right_pad (take (Z.to_nat (to - base_len)) (drop (Z.to_nat base_len) input)) 32 in
    let exp_input := if exp_len <? 32 then left_pad (take (Z.to_nat exp_len) exp_input) 32 else exp_input in
    from_be_bytes (word_at 0 exp_input)
  else 0.

Definition expmod_gas (input : bytes) (rev : Revision) : option Z :=
  let berlin := rev_ge rev Berlin in
  let min_gas := if negb berlin then 0 else 200 in
  let input := right_pad input (3 * 32) in
  let base_len256 := from_be_bytes (word_at 0 input) in
  let exp_len256 := from_be_bytes (word_at 32 input) in
  let mod_len256 := from_be_bytes (word_at 64 input) in
  if (base_len256 =? 0) && (mod_len256 =? 0) then Some min_gas
  else
    base_len ← try_u64 base_len256;
    exp_len ← try_u64 exp_len256;
    _ ← try_u64 mod_len256;
    let exp_head := expmod_exp_head base_len exp_len (drop (3 * 32) input) in
    let bit_len := 256 - leading_zeros exp_head in
    let adjusted_exponent_len := if 32 <? exp_len then u64_mul 8 (exp_len - 32) else 0 in
    let adjusted_exponent_len :=
      if 1 <? bit_len then u256_add adjusted_exponent_len (bit_len - 1) else adjusted_exponent_len in
    let adjusted_exponent_len := if adjusted_exponent_len =? 0 then 1 else adjusted_exponent_len in
    let max_length := Z.max mod_len256 base_len256 in
    let gas :=
      if negb berlin
      then u256_mul (mult_complexity_eip198 max_length) adjusted_exponent_len / 20
      else u256_mul (mult_complexity_eip2565 max_length) adjusted_exponent_len / 3 in
    gas ← try_u64 gas;
    Some (Z.max min_gas gas).

(** A buffer of more than [isize::MAX] bytes panics. *)
Definition allocate (size : Z) : result unit := if 2 ^ 63 - 1 <? size then Panic else Ok tt.

(** [input[from..to]]. *)
Definition slice (from to : Z) (input : bytes) : result bytes :=
  if (from <=? to) && (to <=? Z.of_nat (length input))
  then Ok (take (Z.to_nat (to - from)) (drop (Z.to_nat from) input))
  else Panic.

Definition right_pad_to (input : bytes) (min_size : Z) : result bytes :=
  if min_size <=? Z.of_nat (length input) then Ok input
  else allocate min_size;; Ok (right_pad input (Z.to_nat min_size)).

Definition expmod_run (input : bytes) : result (option bytes) :=
  let input := right_pad input (3 * 32) in
  let base_len := from_be_bytes (take 8 (drop 24 input)) in
  let exponent_len := from_be_bytes (take 8 (drop 56 input)) in
  let modulus_len := from_be_bytes (take 8 (drop 88 input)) in
  if modulus_len =? 0 then Ok (Some [])
  else
    let before_modulus := u64_add base_len exponent_len in
    input ← right_pad_to (drop 96 input) (u64_add before_modulus modulus_len);
    base ← slice 0 base_len input;
    exponent ← slice base_len before_modulus input;
    modulus ← slice before_modulus (u64_add before_modulus modulus_len) input;
    let base := from_be_bytes base in
    let exponent := from_be_bytes exponent in
    let modulus := from_be_bytes modulus in
    allocate modulus_len;;
    let out := replicate (Z.to_nat modulus_len) 0 in
    if modulus =? 0 then Ok (Some out)
    else
      (* [BigUint::to_bytes_be]: no leading zeros, and one zero for zero *)
      let b := modpow base exponent modulus in
      let b := if b =? 0 then [0] else zeroless_view (to_be_bytes (Z.to_nat modulus_len) b) in
      if (length b <=? length out)%nat then Ok (Some (take (length out - length b) out ++ b)) else Panic.

(** ** The curve bn128 *)

Definition bn_add_gas (_ : bytes) (rev : Revision) : option Z := Some (if rev_ge rev Istanbul then 150 else 500).

(** Reading 32 bytes of an input followed by zeros, and the rest. *)
Definition read_word (r : bytes) : bytes * bytes := (right_pad (take 32 r) 32, drop 32 r).

Definition parse_fr_point (r : bytes) : option (Fr * bytes) :=
  let '(buf, r) := read_word r in
  x ← fr_from_slice buf;
  Some (x, r).

Definition parse_bn_point (r : bytes) : option (G1 * bytes) :=
  let '(buf, r) := read_word r in
  x ← fq_from_slice buf;
  let '(buf, r) := read_word r in
  y ← fq_from_slice buf;
  if fq_is_zero x && fq_is_zero y then Some (g1_zero, r)
  else p ← affine_g1 x y; Some (p, r).

Definition write_g1 (p : G1) : bytes :=
  match g1_affine p with
  | Some (x, y) => fq_to_big_endian x ++ fq_to_big_endian y
  | None => replicate 64 0
  end.

Definition bn_add_run (input : bytes) : option bytes :=
  '(a, input) ← parse_bn_point input;
  '(b, input) ← parse_bn_point input;
  Some (write_g1 (g1_add a b)).

Definition bn_mul_gas (_ : bytes) (rev : Revision) : option Z := Some (if rev_ge rev Istanbul then 6000 else 40000).

Definition bn_mul_run (input : bytes) : option bytes :=
  '(a, input) ← parse_bn_point input;
  '(b, input) ← parse_fr_point input;
  Some (write_g1 (g1_mul a b)).

Definition SNARKV_STRIDE : Z := 192.

Definition snarkv_gas (input : bytes) (rev : Revision) : option Z :=
  let k := Z.of_nat (length input) / SNARKV_STRIDE in
  Some (if rev_ge rev Istanbul then 34000 * k + 45000 else 80000 * k + 100000).

(** The loop over the pairs of points from the [i]-th on. *)
Fixpoint snarkv_loop (k i : nat) (input : bytes) (mul : Gt) : option Gt :=
  match k with
  | O => Some mul
  | S k =>
      a_x ← fq_from_slice (word_at (i * 192) input);
      a_y ← fq_from_slice (word_at (i * 192 + 32) input);
      b_a_y ← fq_from_slice (word_at (i * 192 + 64) input);
      b_a_x ← fq_from_slice (word_at (i * 192 + 96) input);
      b_b_y ← fq_from_slice (word_at (i * 192 + 128) input);
      b_b_x ← fq_from_slice (word_at (i * 192 + 160) input);
      b ← (if fq_is_zero b_a_x && fq_is_zero b_a_y && (fq_is_zero b_b_x && fq_is_zero b_b_y)
           then Some g2_zero else affine_g2 (b_a_x, b_a_y) (b_b_x, b_b_y));
      a ← (if fq_is_zero a_x && fq_is_zero a_y then Some g1_zero else affine_g1 a_x a_y);
      snarkv_loop k (S i) input (gt_mul mul (pairing a b))
  end.

Definition snarkv_run (input : bytes) : option bytes :=
  if negb (Z.of_nat (length input) mod SNARKV_STRIDE =? 0) then None
  else
    let k := (length input / 192)%nat in
    ret_val ←
      (if (length input =? 0)%nat then Some 1
       else mul ← snarkv_loop k 0 input gt_one; Some (if gt_eqb mul gt_one then 1 else 0));
    Some (to_be_bytes 32 ret_val).

(** ** Blake2 *)

Definition from_le_bytes (l : bytes) : Z := from_be_bytes (reverse l).
Definition to_le_bytes (n : nat) (x : Z) : bytes := reverse (to_be_bytes n x).

Definition blake2_f_gas (input : bytes) (_ : Revision) : option Z :=
  (* [u32::from_be_bytes] *)
  if (length input <? 4)%nat then Some 0 else Some (wrap 32 (from_be_bytes (take 4 input))).

Definition BLAKE2_F_ARG_LEN : nat := 213.

(** [n] words of eight bytes, little-endian. *)
Definition le_words (n from : nat) (input : bytes) : list Z :=
  (fun ctr => from_le_bytes (take 8 (drop (from + ctr * 8)%nat input))) <$> seq 0 n.

Definition blake2_f_run (input : bytes) : option bytes :=
  if negb (length input =? BLAKE2_F_ARG_LEN)%nat then None
  else
    let rounds := from_be_bytes (take 4 input) in
    let h := le_words 8 4 input in
    let m := le_words 16 68 input in
    let t_0 := from_le_bytes (take 8 (drop 196 input)) in
    let t_1 := from_le_bytes (take 8 (drop 204 input)) in
    let last := default 0 (input !! 212%nat) in
    f ← (if last =? 1 then Some true else if last =? 0 then Some false else None);
    let h := compress h m (t_0, t_1) f (Z.to_nat rounds) in
    Some (mjoin (to_le_bytes 8 <$> h)).

(** ** The table of contracts *)

Record PrecompiledContract : Type := mkPrecompiled {
  contract_gas : bytes → Revision → option Z;
  contract_run : bytes → result (option bytes)
}.

Definition pure_run (run : bytes → option bytes) (input : bytes) : result (option bytes) := Ok (run input).

Definition CONTRACTS : list PrecompiledContract :=
  [ mkPrecompiled ecrecover_gas (pure_run ecrecover_run);
    mkPrecompiled sha256_gas (pure_run sha256_run);
    mkPrecompiled ripemd160_gas (pure_run ripemd160_run);
    mkPrecompiled id_gas (pure_run id_run);
    mkPrecompiled expmod_gas expmod_run;
    mkPrecompiled bn_add_gas (pure_run bn_add_run);
    mkPrecompiled bn_mul_gas (pure_run bn_mul_run);
    mkPrecompiled snarkv_gas (pure_run snarkv_run);
    mkPrecompiled blake2_f_gas (pure_run blake2_f_run) ].

Definition NUM_OF_FRONTIER_CONTRACTS : nat := 4.
Definition NUM_OF_BYZANTIUM_CONTRACTS : nat := 8.
Definition NUM_OF_ISTANBUL_CONTRACTS : nat := 9.

Lemma contract_gas_nonneg i c input rev gas :
  CONTRACTS !! i = Some c → contract_gas c input rev = Some gas → 0 ≤ gas.
Proof.
  assert (0 ≤ ceil_words input) as Hw by (unfold ceil_words; apply Z.div_pos; lia).
  destruct i as [|[|[|[|[|[|[|[|[|i]]]]]]]]]; intros Hc; try injection Hc as <-; cbn [contract_gas]; [..|done].
  1-4: intros [= <-]; lia.
  - unfold expmod_gas. cbv zeta. case_match; [intros [= <-]; case_match; lia|].
    intros (b & _ & (e & _ & (m & _ & (x & _ & Hx)%bind_Some)%bind_Some)%bind_Some)%bind_Some.
    apply (inj Some) in Hx as <-. case_match; lia.
  - intros [= <-]. case_match; lia.
  - intros [= <-]. case_match; lia.
  - intros [= <-]. pose proof (Z.div_pos (Z.of_nat (length input)) SNARKV_STRIDE) as Hk. unfold SNARKV_STRIDE in *.
    case_match; lia.
  - unfold blake2_f_gas. case_match; intros [= <-]; [lia|]. apply wrap_word. lia.
Qed.

(** ** Inputs followed by zeros *)

(** [len] bytes of an input that zeros follow, and the integer they denote. *)
Definition bytes_at (from len : nat) (input : bytes) : bytes :=
  (fun i => default 0 (input !! (from + i)%nat)) <$> seq 0 len.

Definition operand (from len : nat) (input : bytes) : Z := from_be_bytes (bytes_at from len input).

Lemma length_bytes_at from len input : length (bytes_at from len input) = len.
Proof. unfold bytes_at. by rewrite length_fmap, length_seq. Qed.

Lemma bytes_at_bytes from len input : Forall is_byte input → Forall is_byte (bytes_at from len input).
Proof.
  intros Hb. apply Forall_forall. intros x (i & -> & _)%list_elem_of_fmap.
  destruct (input !! (from + i)%nat) as [y|] eqn:E; [by eapply Forall_lookup_1|]. cbn. unfold is_byte. lia.
Qed.

Lemma operand_bound from len input : Forall is_byte input → 0 ≤ operand from len input < 256 ^ Z.of_nat len.
Proof.
  intros Hb. pose proof (from_be_bound _ (bytes_at_bytes from len input Hb)) as H.
  by rewrite length_bytes_at in H.
Qed.

Lemma right_pad_lookup l n i : default 0 (right_pad l n !! i) = default 0 (l !! i).
Proof.
  unfold right_pad, pad. case_match; [done|]. rewrite Nat.sub_0_r. cbn [replicate app].
  rewrite lookup_app. destruct (l !! i) as [x|] eqn:E; [done|].
  destruct (replicate _ _ !! _) as [y|] eqn:Ey; [|done]. by apply lookup_replicate in Ey as [-> _].
Qed.

Lemma length_right_pad l n : length (right_pad l n) = Nat.max n (length l).
Proof.
  unfold right_pad, pad. destruct (Nat.leb_spec n (length l)); [lia|].
  rewrite !length_app, !length_replicate. lia.
Qed.

Lemma take_drop_bytes_at l from len : (from + len ≤ length l)%nat → take len (drop from l) = bytes_at from len l.
Proof.
  intros Hl. apply list_eq_same_length with len; [by rewrite length_bytes_at|rewrite length_take, length_drop; lia|].
  intros i x y Hi Hx Hy. unfold bytes_at in Hy. rewrite list_lookup_fmap, lookup_seq_lt in Hy by done.
  cbn in Hy. injection Hy as <-. apply lookup_take_Some in Hx as [Hx _]. rewrite lookup_drop in Hx.
  by rewrite Hx.
Qed.

Lemma bytes_at_ext from len l l' :
  (∀ i, default 0 (l !! i) = default 0 (l' !! i)) → bytes_at from len l = bytes_at from len l'.
Proof. intros He. unfold bytes_at. apply list_fmap_ext. intros i x _. apply He. Qed.

Lemma padded_slice l n from len :
  (from + len ≤ n)%nat → take len (drop from (right_pad l n)) = bytes_at from len l.
Proof.
  intros Hn. rewrite take_drop_bytes_at by (rewrite length_right_pad; lia).
  apply bytes_at_ext. intros i. apply right_pad_lookup.
Qed.

Lemma bytes_at_drop k from len l : bytes_at from len (drop k l) = bytes_at (k + from) len l.
Proof. unfold bytes_at. apply list_fmap_ext. intros i x _. by rewrite lookup_drop, Nat.add_assoc. Qed.

Lemma bytes_at_pad n from len l : bytes_at from len (right_pad l n) = bytes_at from len l.
Proof. apply bytes_at_ext. intros i. apply right_pad_lookup. Qed.

(** ** Modular exponentiation *)

(** A slice of the input past the three lengths, padded to [size]. *)
Lemma slice_operand input size from to padded :
  0 ≤ from ≤ to → to ≤ size →
  right_pad_to (drop 96 (right_pad input 96)) size = Ok padded →
  ∃ l, slice from to padded = Ok l ∧ from_be_bytes l = operand (96 + Z.to_nat from) (Z.to_nat (to - from)) input.
Proof.
  intros Hf Ht Hp. unfold right_pad_to in Hp.
  assert (size ≤ Z.of_nat (length padded) ∧ ∀ from len, bytes_at from len padded = bytes_at (96 + from) len input)
    as [Hlen Hat].
  { set (d := drop 96 (right_pad input 96)) in *.
    assert (∀ from len, bytes_at from len d = bytes_at (96 + from) len input) as Hd.
    { intros f n. unfold d. by rewrite bytes_at_drop, bytes_at_pad. }
    destruct (Z.leb_spec size (Z.of_nat (length d))) as [Hs|Hs]; [injection Hp as <-; done|].
    unfold allocate in Hp. destruct (2 ^ 63 - 1 <? size); [done|]. injection Hp as <-.
    rewrite length_right_pad. split; [lia|]. intros f n. by rewrite bytes_at_pad. }
  unfold slice. rewrite (proj2 (Z.leb_le from to)), (proj2 (Z.leb_le to _)) by lia.
  eexists. split; [reflexivity|]. unfold operand. rewrite take_drop_bytes_at by lia. by rewrite Hat.
Qed.

Lemma length_operand input i : (i * 32 + 32 ≤ 96)%nat →
  from_be_bytes (take 8 (drop (i * 32 + 24) (right_pad input (3 * 32)))) = operand (i * 32 + 24) 8 input.
Proof. intros Hi. unfold operand. by rewrite padded_slice by lia. Qed.

(** C30. Modular exponentiation: on an input that declares lengths [b], [e]
    and [m] and is followed by zeros as far as they reach, the contract
    returns [m] bytes that denote base to the exponent modulo the modulus
    (zero for a modulus of zero), and does not panic as long as the buffer
    is one that can be allocated. *)
Theorem expmod_run_correct {HL : CryptoLaws} input
  (Hin : Forall is_byte input)
  (Hsize : operand 24 8 input + operand 56 8 input + operand 88 8 input < 2 ^ 63) :
  let b := Z.to_nat (operand 24 8 input) in
  let e := Z.to_nat (operand 56 8 input) in
  let m := Z.to_nat (operand 88 8 input) in
  ∃ out, expmod_run input = Ok (Some out) ∧ length out = m
    ∧ from_be_bytes out
      = if operand (96 + b + e) m input =? 0 then 0
        else operand 96 b input ^ operand (96 + b) e input mod operand (96 + b + e) m input.
Proof.
  intros b e m. unfold expmod_run. cbv zeta.
  pose proof (length_operand input 0 ltac:(lia)) as L0. pose proof (length_operand input 1 ltac:(lia)) as L1.
  pose proof (length_operand input 2 ltac:(lia)) as L2. cbn [Nat.mul Nat.add] in L0, L1, L2.
  change (3 * 32)%nat with 96%nat.
  rewrite L0, L1, L2.
  pose proof (operand_bound 24 8 input Hin) as Hb. pose proof (operand_bound 56 8 input Hin) as He.
  pose proof (operand_bound 88 8 input Hin) as Hm.
  set (zb := operand 24 8 input) in *. set (ze := operand 56 8 input) in *. set (zm := operand 88 8 input) in *.
  destruct (Z.eqb_spec zm 0) as [Hz|Hz].
  { exists []. unfold m. rewrite Hz. by split_and!. }
  rewrite (u64_add_small zb ze), (u64_add_small (zb + ze) zm) by (unfold is_word; lia).
  destruct (right_pad_to _ (zb + ze + zm)) as [padded|e'|] eqn:Hp.
  2, 3: unfold right_pad_to, allocate in Hp; destruct (_ <=? _); [done|];
    by rewrite (proj2 (Z.ltb_ge (2 ^ 63 - 1) (zb + ze + zm))) in Hp by lia.
  rewrite ok_bind.
  destruct (slice_operand input (zb + ze + zm) 0 zb padded ltac:(lia) ltac:(lia) Hp) as (lb & -> & Elb). rewrite ok_bind.
  destruct (slice_operand input (zb + ze + zm) zb (zb + ze) padded ltac:(lia) ltac:(lia) Hp) as (le & -> & Ele). rewrite ok_bind.
  destruct (slice_operand input (zb + ze + zm) (zb + ze) (zb + ze + zm) padded ltac:(lia) ltac:(lia) Hp) as (lm & -> & Elm).
  rewrite ok_bind. unfold allocate. rewrite (proj2 (Z.ltb_ge (2 ^ 63 - 1) zm)) by lia. rewrite ok_bind.
  rewrite Elb, Ele, Elm. replace (zb - 0) with zb by lia. replace (zb + ze - zb) with ze by lia.
  replace (zb + ze + zm - (zb + ze)) with zm by lia.
  replace (96 + Z.to_nat 0)%nat with 96%nat by lia. rewrite (Z2Nat.inj_add zb ze), Nat.add_assoc by lia.
  fold b e m.
  pose proof (operand_bound 96 b input Hin) as HB. pose proof (operand_bound (96 + b) e input Hin) as HE.
  pose proof (operand_bound (96 + b + e) m input Hin) as HM.
  set (M := operand (96 + b + e) m input) in *.
  destruct (Z.eqb_spec M 0) as [HM0|HM0].
  { eexists. split; [reflexivity|]. rewrite length_replicate. split; [done|].
    pose proof (from_be_replicate0 m []) as Hr. rewrite app_nil_r in Hr. exact Hr. }
  rewrite modpow_spec by lia. set (r := _ mod M). assert (0 ≤ r < M) as Hr by (apply Z.mod_pos_bound; lia).
  assert (∃ l, (if r =? 0 then [0] else zeroless_view (to_be_bytes m r)) = l ∧ (length l ≤ m)%nat ∧ from_be_bytes l = r)
    as (l & -> & Hl & Hrl).
  { destruct (Z.eqb_spec r 0) as [->|_]; eexists; (split; [reflexivity|]).
    - split; [cbn; unfold m; lia|done].
    - pose proof (zeroless_length (to_be_bytes m r)) as Hlen. rewrite length_to_be_bytes in Hlen.
      split; [done|]. rewrite from_be_zeroless, from_to_be; [done|lia]. }
  rewrite length_replicate, (proj2 (Nat.leb_le _ _)) by done. eexists. split; [reflexivity|].
  rewrite take_replicate, length_app, length_replicate. split; [lia|]. by rewrite from_be_replicate0.
Qed.

(** ** The gas of modular exponentiation *)

Lemma bytes_at_zeros from len input : (length input ≤ from)%nat → from_be_bytes (bytes_at from len input) = 0.
Proof.
  intros Hl. assert (bytes_at from len input = replicate len 0) as ->.
  { apply list_eq_same_length with len; [by rewrite length_replicate|by rewrite length_bytes_at|].
    intros i x y Hi Hx Hy. unfold bytes_at in Hx. rewrite list_lookup_fmap, lookup_seq_lt in Hx by done.
    cbn in Hx. rewrite lookup_ge_None_2 in Hx by lia. apply lookup_replicate in Hy as [-> _].
    by injection Hx as <-. }
  pose proof (from_be_replicate0 len []) as Hr. by rewrite app_nil_r in Hr.
Qed.

Lemma take_bytes_at from len n input : (n ≤ len)%nat → take n (bytes_at from len input) = bytes_at from n input.
Proof. intros Hn. unfold bytes_at. rewrite <- fmap_take, take_seq. by rewrite Nat.min_l. Qed.

Lemma exp_head_operand input b e :
  Z.of_nat (length input) < 2 ^ 63 → 0 ≤ b → 0 ≤ e →
  expmod_exp_head b e (drop 96 (right_pad input 96)) = operand (96 + Z.to_nat b) (Z.to_nat (Z.min 32 e)) input.
Proof.
  intros Hlen Hb He. set (d := drop 96 (right_pad input 96)).
  assert (∀ from len, bytes_at from len d = bytes_at (96 + from) len input) as Hd.
  { intros f n. unfold d. by rewrite bytes_at_drop, bytes_at_pad. }
  assert (length d ≤ length input)%nat as Hdl by (unfold d; rewrite length_drop, length_right_pad; lia).
  unfold expmod_exp_head, operand. rewrite <- Hd. destruct (Z.ltb_spec b (Z.of_nat (length d))) as [Hlt|Hge].
  - rewrite u64_add_small by (unfold is_word; lia).
    set (X := take _ (drop (Z.to_nat b) d)).
    assert (right_pad X 32 = bytes_at (Z.to_nat b) 32 d) as ->.
    { transitivity (bytes_at 0 32 X).
      - rewrite <- padded_slice with (n := 32%nat) by lia. rewrite drop_0, take_ge; [done|].
        rewrite length_right_pad. unfold X. rewrite length_take. lia.
      - unfold bytes_at. apply Forall_fmap_ext_1, Forall_forall. intros i Hi%elem_of_seq. cbn [Nat.add].
        unfold X. destruct (decide (i < Z.to_nat (Z.min (b + 32) (Z.of_nat (length d)) - b))%nat) as [Hi'|Hi'].
        + by rewrite lookup_take_lt, lookup_drop.
        + rewrite lookup_take_ge, lookup_ge_None_2 by lia. done. }
    destruct (Z.ltb_spec e 32) as [He'|He'].
    + rewrite take_bytes_at by lia. rewrite Z.min_r by lia. unfold left_pad, pad.
      rewrite length_bytes_at, (proj2 (Nat.leb_gt _ _)) by lia.
      replace (32 - (32 - Z.to_nat e) - Z.to_nat e)%nat with 0%nat by lia. cbn [replicate]. rewrite app_nil_r.
      unfold word_at. rewrite drop_0, take_ge by (rewrite length_app, length_replicate, length_bytes_at; lia).
      by rewrite from_be_replicate0.
    + rewrite Z.min_l by lia. unfold word_at. rewrite drop_0, take_ge by (rewrite length_bytes_at; lia). done.
  - symmetry. apply bytes_at_zeros. lia.
Qed.

(** The price as EIP-198 and EIP-2565 give it, on integers. *)
Definition eip198_complexity (x : Z) : Z :=
  if x <=? 64 then x ^ 2
  else if x <=? 1024 then x ^ 2 / 4 + 96 * x - 3072
  else x ^ 2 / 16 + 480 * x - 199680.

Definition eip2565_complexity (x : Z) : Z := ((x + 7) / 8) ^ 2.

Lemma complexity_eip198 x : 0 ≤ x < 2 ^ 64 →
  mult_complexity_eip198 x = eip198_complexity x ∧ 0 ≤ eip198_complexity x < 2 ^ 128.
Proof.
  intros Hx. unfold mult_complexity_eip198, eip198_complexity.
  assert (x ^ 2 = x * x) as -> by lia. assert (0 ≤ x * x < 2 ^ 128) as Hxx by nia.
  rewrite u256_mul_small by (unfold is_word; lia).
  destruct (Z.leb_spec x 64); [by split|]. destruct (Z.leb_spec x 1024).
  - rewrite Z.shiftr_div_pow2 by lia. change (2 ^ 2) with 4.
    pose proof (Z.mul_div_le (x * x) 4 ltac:(lia)). pose proof (Z.div_pos (x * x) 4 ltac:(lia) ltac:(lia)).
    rewrite u256_mul_small, u256_add_small, u256_sub_small by (unfold is_word; lia). split; [done|]. lia.
  - rewrite Z.shiftr_div_pow2 by lia. change (2 ^ 4) with 16.
    pose proof (Z.mul_div_le (x * x) 16 ltac:(lia)). pose proof (Z.div_pos (x * x) 16 ltac:(lia) ltac:(lia)).
    rewrite u256_mul_small, u256_add_small, u256_sub_small by (unfold is_word; lia). split; [done|]. nia.
Qed.

Lemma complexity_eip2565 x : 0 ≤ x < 2 ^ 64 →
  mult_complexity_eip2565 x = eip2565_complexity x ∧ 0 ≤ eip2565_complexity x < 2 ^ 128.
Proof.
  intros Hx. unfold mult_complexity_eip2565, eip2565_complexity.
  rewrite u256_add_small by (unfold is_word; lia). rewrite Z.shiftr_div_pow2 by lia. change (2 ^ 3) with 8.
  pose proof (Z.mul_div_le (x + 7) 8 ltac:(lia)). pose proof (Z.div_pos (x + 7) 8 ltac:(lia) ltac:(lia)).
  set (w := (x + 7) / 8) in *. assert (w ^ 2 = w * w) as -> by lia.
  assert (w < 2 ^ 63) by lia. assert (w * w < 2 ^ 128) by nia.
  rewrite u256_mul_small by (unfold is_word; nia). split; [done|nia].
Qed.

Lemma bit_length x : 0 ≤ x < 2 ^ 256 → 256 - leading_zeros x = if x =? 0 then 0 else Z.log2 x + 1.
Proof. intros _. unfold leading_zeros. destruct (x =? 0); lia. Qed.

(** What [expmod_gas] computes from the three lengths and the head of the
    exponent. *)
Definition price_of (rev : Revision) (b e m head : Z) : option Z :=
  let adj := if 32 <? e then u64_mul 8 (e - 32) else 0 in
  let adj := if 1 <? 256 - leading_zeros head then u256_add adj (256 - leading_zeros head - 1) else adj in
  let adj := if adj =? 0 then 1 else adj in
  gas ← try_u64 (if negb (rev_ge rev Berlin) then u256_mul (mult_complexity_eip198 (Z.max m b)) adj / 20
                 else u256_mul (mult_complexity_eip2565 (Z.max m b)) adj / 3);
  Some (Z.max (if negb (rev_ge rev Berlin) then 0 else 200) gas).

Lemma expmod_gas_price input rev b e m :
  from_be_bytes (word_at 0 (right_pad input 96)) = b →
  from_be_bytes (word_at 32 (right_pad input 96)) = e →
  from_be_bytes (word_at 64 (right_pad input 96)) = m →
  expmod_gas input rev =
    if (b =? 0) && (m =? 0) then Some (if negb (rev_ge rev Berlin) then 0 else 200)
    else b' ← try_u64 b; e' ← try_u64 e; _ ← try_u64 m;
      price_of rev b e' m (expmod_exp_head b' e' (drop 96 (right_pad input 96))).
Proof. intros <- <- <-. unfold expmod_gas, price_of. reflexivity. Qed.

Lemma adjusted_len head e : 0 ≤ head < 2 ^ 256 → 0 ≤ e < 2 ^ 61 + 32 →
  let a := if 32 <? e then u64_mul 8 (e - 32) else 0 in
  let a := if 1 <? 256 - leading_zeros head then u256_add a (256 - leading_zeros head - 1) else a in
  (if a =? 0 then 1 else a) = Z.max 1 ((if 32 <? e then 8 * (e - 32) else 0) + Z.log2 head).
Proof.
  intros Hh He. cbv zeta. rewrite bit_length by done.
  assert (0 ≤ Z.log2 head < 256) as Hlog.
  { split; [apply Z.log2_nonneg|]. destruct (decide (head = 0)) as [->|]; [by cbn|]. apply Z.log2_lt_pow2; lia. }
  assert ((if 32 <? e then u64_mul 8 (e - 32) else 0) = (if 32 <? e then 8 * (e - 32) else 0)) as ->.
  { destruct (Z.ltb_spec 32 e); [|done]. unfold u64_mul. apply wrap_small. unfold is_word. lia. }
  set (a := if 32 <? e then 8 * (e - 32) else 0).
  assert (0 ≤ a < 2 ^ 64) as Ha by (subst a; destruct (Z.ltb_spec 32 e); lia). clearbody a.
  assert ((if 1 <? (if head =? 0 then 0 else Z.log2 head + 1)
           then u256_add a ((if head =? 0 then 0 else Z.log2 head + 1) - 1) else a) = a + Z.log2 head) as ->.
  { destruct (Z.eqb_spec head 0) as [->|Hne]; [cbn; lia|].
    destruct (Z.ltb_spec 1 (Z.log2 head + 1)); [|lia]. rewrite u256_add_small by (unfold is_word; lia). lia. }
  destruct (Z.eqb_spec (a + Z.log2 head) 0); lia.
Qed.

Lemma try_u64_lt x : 0 ≤ x → try_u64 x = if x <? 2 ^ 64 then Some x else None.
Proof. intros Hx. unfold try_u64, u64_max. destruct (Z.leb_spec x (2 ^ 64 - 1)), (Z.ltb_spec x (2 ^ 64)); done || lia. Qed.

Definition eip_price (berlin : bool) (b e m head : Z) : Z :=
  let adjusted := Z.max 1 ((if 32 <? e then 8 * (e - 32) else 0) + Z.log2 head) in
  if berlin then Z.max 200 (eip2565_complexity (Z.max m b) * adjusted / 3)
  else eip198_complexity (Z.max m b) * adjusted / 20.

Lemma price_of_eip rev b e m head :
  0 ≤ head < 2 ^ 256 → 0 ≤ e < 2 ^ 61 + 32 → 0 ≤ b < 2 ^ 64 → 0 ≤ m < 2 ^ 64 →
  price_of rev b e m head =
    if eip_price (rev_ge rev Berlin) b e m head <? 2 ^ 64 then Some (eip_price (rev_ge rev Berlin) b e m head) else None.
Proof.
  intros Hh He Hb Hm. unfold price_of, eip_price. cbv zeta.
  rewrite (adjusted_len head e Hh He). set (adj := Z.max 1 _).
  assert (1 ≤ adj < 2 ^ 65) as Hadj.
  { assert (0 ≤ Z.log2 head < 256).
    { split; [apply Z.log2_nonneg|]. destruct (decide (head = 0)) as [->|]; [by cbn|]. apply Z.log2_lt_pow2; lia. }
    subst adj. destruct (Z.ltb_spec 32 e); lia. }
  clearbody adj.
  destruct (complexity_eip198 (Z.max m b)) as [-> H198]; [lia|].
  destruct (complexity_eip2565 (Z.max m b)) as [-> H2565]; [lia|].
  generalize dependent (eip198_complexity (Z.max m b)). intros c1 H198.
  generalize dependent (eip2565_complexity (Z.max m b)). intros c2 H2565.
  rewrite !u256_mul_small by (unfold is_word; nia).
  pose proof (Z.div_pos (c1 * adj) 20 ltac:(nia) ltac:(lia)). pose proof (Z.div_pos (c2 * adj) 3 ltac:(nia) ltac:(lia)).
  destruct (rev_ge rev Berlin); cbn [negb]; rewrite try_u64_lt by done.
  - destruct (Z.ltb_spec (c2 * adj / 3) (2 ^ 64)), (Z.ltb_spec (Z.max 200 (c2 * adj / 3)) (2 ^ 64)); try lia; done.
  - destruct (Z.ltb_spec (c1 * adj / 20) (2 ^ 64)); [|done]. cbn [mbind option_bind]. by rewrite Z.max_r.
Qed.

Definition eip_gas (berlin : bool) (input : bytes) : Z :=
  let b := operand 0 32 input in
  let e := operand 32 32 input in
  eip_price berlin b e (operand 64 32 input) (operand (96 + Z.to_nat b) (Z.to_nat (Z.min 32 e)) input).

Lemma word_operand from input : (from + 32 ≤ 96)%nat →
  from_be_bytes (word_at from (right_pad input 96)) = operand from 32 input.
Proof. intros Hf. unfold word_at, operand. by rewrite padded_slice by lia. Qed.

Lemma head_bound from n input : Forall is_byte input → (n ≤ 32)%nat → 0 ≤ operand from n input < 2 ^ 256.
Proof.
  intros Hin Hn. pose proof (operand_bound from n input Hin) as Hh. split; [lia|].
  eapply Z.lt_le_trans; [apply Hh|]. change (2 ^ 256) with (256 ^ 32). apply Z.pow_le_mono_r; lia.
Qed.

(** C31. The gas of modular exponentiation is the EIPs' price, 198 before
    Berlin and 2565 since, at least 200 gas since Berlin; a price or a
    length that does not fit a word runs out of gas. So it is for exponents
    of up to 2^61 + 31 bytes; the length times eight wraps behind that. *)
Theorem expmod_gas_eip input rev
  (Hin : Forall is_byte input) (Hlen : Z.of_nat (length input) < 2 ^ 63)
  (Hexp : operand 32 32 input < 2 ^ 61 + 32 ∨ 2 ^ 64 ≤ operand 32 32 input) :
  expmod_gas input rev =
    let berlin := rev_ge rev Berlin in
    if (operand 0 32 input =? 0) && (operand 64 32 input =? 0) then Some (if berlin then 200 else 0)
    else if (Z.max (operand 0 32 input) (Z.max (operand 32 32 input) (operand 64 32 input)) <? 2 ^ 64)
            && (eip_gas berlin input <? 2 ^ 64)
    then Some (eip_gas berlin input)
    else None.
Proof.
  rewrite (expmod_gas_price input rev _ _ _ (word_operand 0 input ltac:(lia)) (word_operand 32 input ltac:(lia))
    (word_operand 64 input ltac:(lia))).
  unfold eip_gas. cbv zeta.
  pose proof (head_bound 0 32 input Hin ltac:(lia)) as Hb. pose proof (head_bound 32 32 input Hin ltac:(lia)) as He.
  pose proof (head_bound 64 32 input Hin ltac:(lia)) as Hm.
  generalize dependent (operand 0 32 input). intros b Hb. generalize dependent (operand 32 32 input). intros e Hexp He.
  generalize dependent (operand 64 32 input). intros m Hm.
  destruct ((b =? 0) && (m =? 0)); [by destruct (rev_ge rev Berlin)|].
  rewrite !try_u64_lt by lia.
  destruct (Z.ltb_spec b (2 ^ 64)) as [Hb'|Hb']; cbn [mbind option_bind].
  2: by rewrite (proj2 (Z.ltb_ge (Z.max b _) (2 ^ 64))) by lia.
  destruct (Z.ltb_spec e (2 ^ 64)) as [He'|He']; cbn [mbind option_bind].
  2: by rewrite (proj2 (Z.ltb_ge (Z.max b _) (2 ^ 64))) by lia.
  destruct (Z.ltb_spec m (2 ^ 64)) as [Hm'|Hm']; cbn [mbind option_bind].
  2: by rewrite (proj2 (Z.ltb_ge (Z.max b _) (2 ^ 64))) by lia.
  rewrite (proj2 (Z.ltb_lt (Z.max b _) (2 ^ 64))) by lia. cbn [andb].
  rewrite exp_head_operand by lia. apply price_of_eip; [apply head_bound; [done|]|..]; lia.
Qed.

(** ** The sizes of the outputs *)

(** The lengths the [i]-th contract may return. *)
Definition output_size (i : nat) (input : bytes) (n : nat) : Prop :=
  match i with
  | 0%nat => n = 0%nat ∨ n = 32%nat
  | 1%nat | 2%nat | 7%nat => n = 32%nat
  | 3%nat => n = length input
  | 4%nat => n = Z.to_nat (operand 88 8 input)
  | _ => n = 64%nat
  end.

Lemma ecrecover_size input out :
  ecrecover_run_inner input = Some out → length out = 32%nat.
Proof.
  unfold ecrecover_run_inner. cbv zeta. case_match; [done|].
  intros (odd & _ & (public & _ & Hout)%bind_Some)%bind_Some. apply (inj Some) in Hout as <-.
  by rewrite length_app, length_drop, length_to_be_bytes.
Qed.

Lemma write_g1_size {HL : CryptoLaws} p : length (write_g1 p) = 64%nat.
Proof.
  unfold write_g1. destruct (g1_affine p) as [[x y]|]; [|by rewrite length_replicate].
  by rewrite length_app, !fq_length.
Qed.

Lemma expmod_run_size input out :
  expmod_run input = Ok (Some out) → length out = Z.to_nat (operand 88 8 input).
Proof.
  unfold expmod_run. cbv zeta. pose proof (length_operand input 2 ltac:(lia)) as L2. cbn [Nat.mul Nat.add] in L2.
  change (3 * 32)%nat with 96%nat. rewrite L2. set (zm := operand 88 8 input). destruct (Z.eqb_spec zm 0) as [->|_]; [by intros [= <-]|].
  intros (padded & _ & H1)%res_bind_ok. apply res_bind_ok in H1 as (lb & _ & H1). apply res_bind_ok in H1 as (le & _ & H1).
  apply res_bind_ok in H1 as (lm & _ & H1). apply res_bind_ok in H1 as ([] & _ & H1).
  case_match; [injection H1 as <-; apply length_replicate|].
  rewrite length_replicate in H1. revert H1. match goal with |- context [(length ?b <=? _)%nat] => generalize b end. intros l H1.
  destruct (Nat.leb_spec (length l) (Z.to_nat zm)); [|done].
  injection H1 as <-. rewrite take_replicate, length_app, length_replicate. lia.
Qed.

Lemma bn_add_size {HL : CryptoLaws} input out : bn_add_run input = Some out → length out = 64%nat.
Proof.
  unfold bn_add_run. intros ([a r] & _ & H1)%bind_Some. apply bind_Some in H1 as ([b r'] & _ & [= <-]).
  apply write_g1_size.
Qed.

Lemma bn_mul_size {HL : CryptoLaws} input out : bn_mul_run input = Some out → length out = 64%nat.
Proof.
  unfold bn_mul_run. intros ([a r] & _ & H1)%bind_Some. apply bind_Some in H1 as ([b r'] & _ & [= <-]).
  apply write_g1_size.
Qed.

Lemma snarkv_size input out : snarkv_run input = Some out → length out = 32%nat.
Proof.
  unfold snarkv_run. case_match; [done|]. intros (r & _ & Hout)%bind_Some. apply (inj Some) in Hout as <-.
  apply length_to_be_bytes.
Qed.

Lemma le_chunks_size l : length (mjoin (to_le_bytes 8 <$> l)) = (8 * length l)%nat.
Proof.
  induction l as [|x l IH]; [done|].
  transitivity (length (to_le_bytes 8 x ++ mjoin (to_le_bytes 8 <$> l))); [done|].
  rewrite length_app, IH. unfold to_le_bytes. rewrite length_reverse, length_to_be_bytes. cbn [length]. lia.
Qed.

Lemma blake2_f_size input out : blake2_f_run input = Some out → length out = 64%nat.
Proof.
  unfold blake2_f_run. case_match; [done|]. cbv zeta. intros (f & _ & Hout)%bind_Some. apply (inj Some) in Hout as <-.
  etrans; [apply le_chunks_size|]. unfold compress. rewrite length_imap. unfold le_words. by rewrite length_fmap.
Qed.

Lemma pure_run_ok run input out : pure_run run input = Ok out → run input = out.
Proof. unfold pure_run. congruence. Qed.


(** Three lengths, of which the exponent's is 2^63 + 32. *)
Definition huge_exponent : bytes := to_be_bytes 32 0 ++ to_be_bytes 32 (2 ^ 63 + 32) ++ to_be_bytes 32 1.

Lemma huge_exponent_gas rev : rev_ge rev Berlin = true → expmod_gas huge_exponent rev = Some 200.
Proof. intros Hrev. destruct rev; try discriminate Hrev; vm_compute; reflexivity. Qed.

Lemma huge_exponent_run : expmod_run huge_exponent = Panic.
Proof. vm_compute. reflexivity. Qed.
End precompiled.

(** ** Witnesses *)

(** Trivial groups and hashes of zeros, and the exact exponentiation. *)
Definition toy_crypto : Crypto := {|
  sha256_digest _ := replicate 32 0;
  ripemd160_digest _ := replicate 20 0;
  recover_ecdsa _ sig odd := if odd then Some sig else None;
  modpow b e m := b ^ e mod m;
  Fq := Z;
  fq_from_slice l := Some (from_be_bytes l);
  fq_is_zero x := x =? 0;
  fq_to_big_endian x := to_be_bytes 32 x;
  Fr := Z;
  fr_from_slice l := Some (from_be_bytes l);
  G1 := Z;
  g1_zero := 0;
  affine_g1 x _ := Some x;
  g1_add x y := x + y;
  g1_mul x y := x * y;
  g1_affine x := if x =? 0 then None else Some (x, x);
  G2 := Z;
  g2_zero := 0;
  affine_g2 x _ := Some x.1;
  Gt := Z;
  gt_one := 1;
  gt_mul x y := x * y;
  pairing x y := x * y + 1;
  gt_eqb := Z.eqb
|}.

#[local] Existing Instance toy_crypto.

#[local] Instance toy_crypto_laws : CryptoLaws.
Proof. split; intros; cbn; done. Qed.

(** The first example of EIP-198, three to the prime of the curve less one. *)
Definition eip198_input : bytes :=
  to_be_bytes 32 1 ++ to_be_bytes 32 32 ++ to_be_bytes 32 32 ++ to_be_bytes 1 3
  ++ to_be_bytes 32 0xfffffffffffffffffffffffffffffffffffffffffffffffffffffffefffffc2e
  ++ to_be_bytes 32 0xfffffffffffffffffffffffffffffffffffffffffffffffffffffffefffffc2f.

(** A small one, 3 ^ 5 modulo 7. *)
Definition small_input : bytes :=
  to_be_bytes 32 1 ++ to_be_bytes 32 1 ++ to_be_bytes 32 2 ++ [3; 5; 0; 7].

Lemma small_input_bytes : Forall is_byte small_input.
Proof. apply (bool_decide_unpack _). vm_compute. exact I. Defined.

Lemma expmod_run_correct_witness :
  ∃ out, expmod_run small_input = Ok (Some out) ∧ length out = 2%nat ∧ from_be_bytes out = 3 ^ 5 mod 7.
Proof. apply (expmod_run_correct small_input small_input_bytes). vm_compute. reflexivity. Defined.

Lemma expmod_gas_eip_witness : expmod_gas eip198_input Byzantium = Some 13056.
Proof.
  etransitivity; [apply (expmod_gas_eip eip198_input Byzantium)|].
  - apply (bool_decide_unpack _). vm_compute. exact I.
  - vm_compute. reflexivity.
  - left. vm_compute. reflexivity.
  - vm_compute. reflexivity.
Defined.


(** The vectors of EIP-152 that the code is tested on. *)
Definition eip152_state : Z :=
  0x48c9bdf267e6096a3ba7ca8485ae67bb2bf894fe72f36e3cf1361d5f3af54fa5d182e6ad7f520e511f6c3e2b8c68059b6bbd41fbabd9831f79217e1319cde05b.

Definition eip152_input (rounds : Z) (f : Z) : bytes :=
  to_be_bytes 4 rounds ++ to_be_bytes 64 eip152_state ++ [0x61; 0x62; 0x63] ++ replicate 125 0
  ++ [3] ++ replicate 15 0 ++ [f].

Lemma blake2_f_vector_none : blake2_f_run (eip152_input 12 2) = None ∧ blake2_f_run (drop 1 (eip152_input 12 1)) = None.
Proof. split; vm_compute; reflexivity. Qed.

Lemma blake2_f_vector_4 : blake2_f_run (eip152_input 0 1) = Some (to_be_bytes 64
  0x08c9bcf367e6096a3ba7ca8485ae67bb2bf894fe72f36e3cf1361d5f3af54fa5d282e6ad7f520e511f6c3e2b8c68059b9442be0454267ce079217e1319cde05b).
Proof. vm_compute. reflexivity. Qed.

Lemma blake2_f_vector_5 : blake2_f_run (eip152_input 12 1) = Some (to_be_bytes 64
  0xba80a53f981c4d0d6a2797b69f12f6e94c212f14685ac4b74b12bb6fdbffa2d17d87c5392aab792dc252d5de4533cc9518d38aa8dbf1925ab92386edd4009923).
Proof. vm_compute. reflexivity. Qed.

Lemma blake2_f_vector_6 : blake2_f_run (eip152_input 12 0) = Some (to_be_bytes 64
  0x75ab69d3190a562c51aef8d88f1c2775876944407270c42c9844252c26d2875298743e7f6d5ea2f2d3e8d226039cd31b4e426ac4f2d3d666a610c2116fde4735).
Proof. vm_compute. reflexivity. Qed.

Lemma blake2_f_vector_7 : blake2_f_run (eip152_input 1 1) = Some (to_be_bytes 64
  0xb63a380cb2897d521994a85234ee2c181b5f844d2c624c002677e9703449d2fba551b3a8333bcdf5f2f7e08993d53923de3d64fcc68c034e717b9293fed7a421).
Proof. vm_compute. reflexivity. Qed.
