(* ===== verification/Evm.v ===== *)
(** * Evm

    [src/src/execution/evm.rs]: the host of the virtual machine: message
    calls, contract creation, and the loop that answers the interrupts of the
    interpreter. The interpreter (the [evmodin] library) is a parameter: from
    a message, a code and a revision it gives the tree of the interrupts it
    raises, each with its continuation; execution is metered, so the tree is
    well founded. The tracer and the cache of analysed codes do not influence
    the result and are left out. *)

From S2P Require Import Prelude Words Errors Account Params ChainSpec Transaction Block.
From S2P Require Import StateTrait InMemoryState IntraBlockState Journal View Processor Precompiled.

(** ** Messages *)

Inductive StatusCode : Type :=
| Success | Revert | OutOfGas | InsufficientBalance | InvalidInstruction
| ContractValidationFailure | PrecompileFailure | OtherStatus (code : Z).

#[global] Instance StatusCode_eq_dec : EqDecision StatusCode.
Proof. solve_decision. Defined.

Inductive CallKind : Type := CallK | CallCode | DelegateCall.

#[global] Instance CallKind_eq_dec : EqDecision CallKind.
Proof. solve_decision. Defined.

Record EvmMessage : Type := mkMsg {
  kind : CallKind;
  is_static : bool;
  depth : Z;
  gas : Z;
  recipient : Z;
  code_address : Z;
  msg_sender : Z;
  input_data : bytes;
  msg_value : Z
}.

Record CreateMessage : Type := mkCreate {
  create_depth : Z;
  create_gas : Z;
  create_sender : Z;
  initcode : bytes;
  endowment : Z;
  salt : option Z
}.

Record Output : Type := mkOutput {
  status_code : StatusCode;
  out_gas_left : Z;
  out_data : bytes;
  create_address : option Z
}.

Inductive StorageStatus : Type := Unchanged | Added | Deleted | Modified | ModifiedAgain.

Record TxContext : Type := {
  tx_gas_price : Z; tx_origin : Z; block_coinbase : Z; ctx_block_number : Z;
  block_timestamp : Z; block_gas_limit : Z; block_difficulty : Z; ctx_chain_id : Z;
  block_base_fee : Z
}.

(** ** The interpreter *)

Inductive InterruptVariant : Type :=
| Complete (res : Output + StatusCode)
| IAccountExists (address : Z) (i : bool → InterruptVariant)
| IGetBalance (address : Z) (i : Z → InterruptVariant)
| IGetCodeSize (address : Z) (i : Z → InterruptVariant)
| IGetStorage (address key : Z) (i : Z → InterruptVariant)
| ISetStorage (address key new_val : Z) (i : StorageStatus → InterruptVariant)
| IGetCodeHash (address : Z) (i : Z → InterruptVariant)
| ICopyCode (address : Z) (offset max_size : nat) (i : bytes → InterruptVariant)
| ISelfdestruct (address beneficiary : Z) (i : unit → InterruptVariant)
| ICreate (message : CreateMessage) (i : Output → InterruptVariant)
| ICall (message : EvmMessage) (i : Output → InterruptVariant)
| IGetTxContext (i : TxContext → InterruptVariant)
| IGetBlockHash (block_number : Z) (i : Z → InterruptVariant)
| IEmitLog (address : Z) (topics : list Z) (data : bytes) (i : unit → InterruptVariant)
| IAccessAccount (address : Z) (i : AccessStatus → InterruptVariant)
| IAccessStorage (address key : Z) (i : AccessStatus → InterruptVariant).

(** The interpreter and the hashes of new contracts' addresses. *)
Class Machine : Type := {
  interpret : EvmMessage → bytes → Revision → InterruptVariant;
  address_of_create : Z → Z → Z;
  address_of_create2 : Z → Z → Z → Z
}.

Section evm.
Context {B : Type} {HS : State B} {HH : Hashing} {HC : Crypto} {HM : Machine}.
Context (header : PartialHeader) (block_spec : BlockExecutionSpec) (txn : MessageWithSender).
Implicit Types (msg : EvmMessage).

Let rev := revision block_spec.

Definition number_of_precompiles : Z :=
  match rev with
  | Frontier | Homestead | Tangerine | Spurious => 4
  | Byzantium | Constantinople | Petersburg => 8
  | Istanbul | Berlin | London | Shanghai => 9
  end.

Definition is_precompiled (contract : Z) : bool :=
  if contract =? 0 then false else contract <=? number_of_precompiles.

(** [res] is mutated along [create] and [call]. *)
Definition fresh (gas : Z) : Output :=
  {| status_code := Success; out_gas_left := gas; out_data := []; create_address := None |}.
Definition with_status (s : StatusCode) (o : Output) : Output :=
  {| status_code := s; out_gas_left := out_gas_left o; out_data := out_data o;
     create_address := create_address o |}.
Definition with_gas (g : Z) (o : Output) : Output :=
  {| status_code := status_code o; out_gas_left := g; out_data := out_data o;
     create_address := create_address o |}.
Definition with_data (d : bytes) (o : Output) : Output :=
  {| status_code := status_code o; out_gas_left := out_gas_left o; out_data := d;
     create_address := create_address o |}.
Definition with_address (a : option Z) (o : Output) : Output :=
  {| status_code := status_code o; out_gas_left := out_gas_left o; out_data := out_data o;
     create_address := a |}.

(** The end of [create] and of [call] when the status is not [Success]. *)
Definition revert_failed (snapshot : Snapshot) (res : Output) : M B Output :=
  revert_to_snapshot snapshot;;
  mret (if decide (status_code res = Revert) then res else with_gas 0 res).

(** What [create] does with the code a constructor returned. *)
Definition deploy (contract_addr : Z) (res : Output) : M B Output :=
  let code_len := Z.of_nat (length (out_data res)) in
  let code_deploy_gas := u64_mul code_len fee.G_CODE_DEPOSIT in
  if rev_ge rev London && (0 <? code_len) && (nth 0 (out_data res) 0 =? 0xEF)
  then mret (with_status ContractValidationFailure res)
  else if rev_ge rev Spurious && (param.MAX_CODE_SIZE <? code_len)
  then mret (with_status OutOfGas res)
  else if (0 <=? out_gas_left res) && (code_deploy_gas <=? out_gas_left res)
  then
    set_code contract_addr (out_data res);;
    mret (with_gas (out_gas_left res - code_deploy_gas) res)
  else if rev_ge rev Homestead then mret (with_status OutOfGas res)
  else mret res.

Section recursion.
(** [self.execute(msg, code, code_hash)]. *)
Context (execute : EvmMessage → bytes → M B Output).

Definition new_address (message : CreateMessage) (nonce : Z) : Z :=
  match salt message with
  | Some salt => address_of_create2 (create_sender message) salt (keccak256 (initcode message))
  | None => address_of_create (create_sender message) nonce
  end.

Definition create (message : CreateMessage) : M B Output :=
  let res := fresh (create_gas message) in
  let value := endowment message in
  balance ← get_balance (create_sender message);
  if balance <? value then mret (with_status InsufficientBalance res)
  else
    nonce ← get_nonce (create_sender message);
    set_nonce (create_sender message) (u64_add nonce 1);;
    let contract_addr := new_address message nonce in
    ignore (access_account contract_addr);;
    contract_nonce ← get_nonce contract_addr;
    taken ← (if negb (contract_nonce =? 0) then mret true
             else code_hash ← get_code_hash contract_addr; mret (negb (code_hash =? EMPTY_HASH)));
    if taken : bool then mret (with_gas 0 (with_status InvalidInstruction res))
    else
      snapshot ← gets take_snapshot;
      create_contract contract_addr;;
      (if rev_ge rev Spurious then set_nonce contract_addr 1 else mret tt);;
      subtract_from_balance (create_sender message) value;;
      add_to_balance contract_addr value;;
      let deploy_message :=
        {| kind := CallK; is_static := false; depth := create_depth message;
           gas := create_gas message; recipient := contract_addr; code_address := 0;
           msg_sender := create_sender message; input_data := []; msg_value := endowment message |} in
      res ← execute deploy_message (initcode message);
      res ← (if decide (status_code res = Success) then deploy contract_addr res else mret res);
      if decide (status_code res = Success)
      then mret (with_address (Some contract_addr) res)
      else revert_failed snapshot res.

(** A precompiled contract on the gas of the message. *)
Definition run_precompiled msg (res : Output) : result Output :=
  let num := Z.to_nat (Z.land (code_address msg) 0xff - 1) in
  contract ← unwrap (CONTRACTS !! num);
  let input := input_data msg in
  match contract_gas contract input rev with
  | Some g =>
      (* [i64::try_from(g).ok()] *)
      if 2 ^ 63 - 1 <? g then Ok (with_status OutOfGas res)
      else if gas msg <? g then Ok (with_status OutOfGas res)
      else
        output ← contract_run contract input;
        Ok (match output with
            | Some output => with_data output (with_gas (gas msg - g) (with_status Success res))
            | None => with_status PrecompileFailure res
            end)
  | None => Ok (with_status OutOfGas res)
  end.

Definition transfer msg : M B unit :=
  if decide (kind msg = CallK) then
    if is_static msg then touch (recipient msg)
    else
      subtract_from_balance (msg_sender msg) (msg_value msg);;
      add_to_balance (recipient msg) (msg_value msg)
  else mret tt.

Definition call msg : M B Output :=
  let res := fresh (gas msg) in
  let value := msg_value msg in
  poor ← (if decide (kind msg = DelegateCall) then mret false
          else balance ← get_balance (msg_sender msg); mret (balance <? value));
  if poor : bool then mret (with_status InsufficientBalance res)
  else
    let precompiled := is_precompiled (code_address msg) in
    code ← (if precompiled then mret None else get_code (code_address msg));
    missing ← (if (value =? 0) && rev_ge rev Spurious && negb precompiled
               then e ← exists_ (code_address msg); mret (negb e) else mret false);
    if missing : bool then mret res
    else
      snapshot ← gets take_snapshot;
      transfer msg;;
      if negb precompiled && bool_decide (default [] code = []) then mret res
      else
        res ← (if precompiled then lift (run_precompiled msg res)
               else
                 ignore (get_code_hash (code_address msg));;
                 execute msg (default [] code));
        if decide (status_code res = Success) then mret res
        else revert_failed snapshot res.

(** *** The interrupts *)

(** The refunds and the status of a storage write: EIP-1283, EIP-2200,
    EIP-2929 and EIP-3529. The unsigned subtractions are of constants. *)
Definition storage_status (address key current_val new_val : Z) : M B StorageStatus :=
  if current_val =? new_val then mret Unchanged
  else
    set_storage address key new_val;;
    let eip1283 := rev_ge rev Istanbul || bool_decide (rev = Constantinople) in
    if negb eip1283 then
      if current_val =? 0 then mret Added
      else if new_val =? 0 then add_refund fee.R_SCLEAR;; mret Deleted
      else mret Modified
    else
      let sload_cost :=
        if rev_ge rev Berlin then fee.WARM_STORAGE_READ_COST
        else if rev_ge rev Istanbul then fee.G_SLOAD_ISTANBUL
        else fee.G_SLOAD_TANGERINE_WHISTLE in
      let sstore_reset_gas :=
        if rev_ge rev Berlin then u64_sub fee.G_SRESET fee.COLD_SLOAD_COST else fee.G_SRESET in
      original_val ← get_original_storage address key;
      let sstore_clears_refund :=
        if rev_ge rev London then u64_add sstore_reset_gas fee.ACCESS_LIST_STORAGE_KEY_COST
        else fee.R_SCLEAR in
      if original_val =? current_val then
        if original_val =? 0 then mret Added
        else
          (if new_val =? 0 then add_refund sstore_clears_refund else mret tt);;
          mret Modified
      else
        (if negb (original_val =? 0) then
           (if current_val =? 0 then subtract_refund sstore_clears_refund else mret tt);;
           (if new_val =? 0 then add_refund sstore_clears_refund else mret tt)
         else mret tt);;
        (if original_val =? new_val then
           add_refund (if original_val =? 0 then u64_sub fee.G_SSET sload_cost
                       else u64_sub sstore_reset_gas sload_cost)
         else mret tt);;
        mret ModifiedAgain.

Definition tx_context : result TxContext :=
  let base_fee_per_gas := base_fee header in
  tx_gas_price ← Tx.effective_gas_price (message_of txn) base_fee_per_gas;
  Ok {| tx_gas_price := tx_gas_price;
        tx_origin := sender txn;
        block_coinbase := ph_beneficiary header;
        ctx_block_number := ph_number header;
        block_timestamp := ph_timestamp header;
        block_gas_limit := ph_gas_limit header;
        block_difficulty := ph_difficulty header;
        ctx_chain_id := ChainSpec.chain_id (spec_params block_spec);
        block_base_fee := base_fee_per_gas |}.

(** The walk along the parents: [for i in 1..distance]. *)
Fixpoint ancestor_hash (steps : nat) (i hash : Z) : M B Z :=
  match steps with
  | O => mret hash
  | S steps =>
      hd ← from_db (fun d => read_header d (u64_sub (ph_number header) i) hash);
      hd ← lift (ok_or (Bail "no header") hd);
      ancestor_hash steps (i + 1) (parent_hash hd)
  end.

Definition block_hash (n : Z) : M B Z :=
  let distance := u64_sub (ph_number header) n in
  if distance <=? 256
  then ancestor_hash (Z.to_nat (distance - 1)) 1 (ph_parent_hash header)
  else lift Panic.

Definition selfdestruct (address beneficiary : Z) : M B unit :=
  record_selfdestruct address;;
  balance ← get_balance address;
  add_to_balance beneficiary balance;;
  set_balance address 0.

Definition code_of (address : Z) : M B bytes :=
  code ← get_code address;
  mret (default [] code).

(** The part of the code from [offset] on, of at most [max_size] bytes. *)
Definition copied_code (offset max_size : nat) (code : bytes) : bytes :=
  if (offset <? length code)%nat then take max_size (drop offset code) else [].

Fixpoint host_loop (interrupt : InterruptVariant) : M B Output :=
  match interrupt with
  | Complete (inl output) => mret output
  | Complete (inr status_code) =>
      mret {| status_code := status_code; out_gas_left := 0; out_data := [];
              create_address := None |}
  | IAccountExists address i =>
      e ← (if rev_ge rev Spurious then d ← is_dead address; mret (negb d) else exists_ address);
      host_loop (i e)
  | IGetBalance address i => balance ← get_balance address; host_loop (i balance)
  | IGetCodeSize address i =>
      code ← code_of address;
      host_loop (i (Z.of_nat (length code)))
  | IGetStorage address key i => value ← get_current_storage address key; host_loop (i value)
  | ISetStorage address key new_val i =>
      current_val ← get_current_storage address key;
      status ← storage_status address key current_val new_val;
      host_loop (i status)
  | IGetCodeHash address i =>
      dead ← is_dead address;
      hash ← (if dead : bool then mret 0 else get_code_hash address);
      host_loop (i (h256_to_u256 hash))
  | ICopyCode address offset max_size i =>
      code ← code_of address;
      host_loop (i (copied_code offset max_size code))
  | ISelfdestruct address beneficiary i => selfdestruct address beneficiary;; host_loop (i tt)
  | ICreate message i =>
      res ← create message;
      host_loop (i (if decide (status_code res = Revert) then res else with_data [] res))
  | ICall message i => res ← call message; host_loop (i res)
  | IGetTxContext i => context ← lift tx_context; host_loop (i context)
  | IGetBlockHash block_number i =>
      hash ← block_hash block_number;
      host_loop (i (h256_to_u256 hash))
  | IEmitLog address topics data i =>
      add_log {| log_address := address; topics := u256_to_h256 <$> topics; log_data := data |};;
      host_loop (i tt)
  | IAccessAccount address i =>
      status ← (if is_precompiled address then mret Warm else access_account address);
      host_loop (i status)
  | IAccessStorage address key i => status ← access_storage address key; host_loop (i status)
  end.
End recursion.

(** [execute], with fuel for the depth of calls: the interpreter raises no
    call at depth 1024. Beyond the fuel, calls are answered by [beyond]. *)
Fixpoint execute_from (beyond : EvmMessage → bytes → M B Output) (fuel : nat) msg
    (code : bytes) : M B Output :=
  match fuel with
  | O => beyond msg code
  | S fuel => host_loop (execute_from beyond fuel) (interpret msg code rev)
  end.

Definition execute : nat → EvmMessage → bytes → M B Output :=
  execute_from (fun _ _ => lift (Err (Bail "out of fuel"))).

Definition call_depth : nat := 1025.

(** [evm::execute]. *)
Definition evm_execute_transaction (gas : Z) : M B CallResult :=
  res ← match Tx.action (message_of txn) with
        | Call to =>
            call (execute call_depth)
              {| kind := CallK; is_static := false; depth := 0; msg_sender := sender txn;
                 input_data := Tx.input (message_of txn); msg_value := Tx.value (message_of txn);
                 gas := as_i64 gas; recipient := to; code_address := to |}
        | Create =>
            create (execute call_depth)
              {| create_depth := 0; create_gas := as_i64 gas; create_sender := sender txn;
                 initcode := Tx.input (message_of txn); endowment := Tx.value (message_of txn);
                 salt := None |}
        end;
  mret {| call_success := bool_decide (status_code res = Success);
          gas_left := out_gas_left res; output_data := out_data res |}.
End evm.

(** The interface of the processor, implemented. *)
#[global] Instance evm_instance {B : Type} {HS : State B} {HH : Hashing} {HC : Crypto} {HM : Machine} : Evm B :=
  fun header block_spec txn gas => evm_execute_transaction header block_spec txn gas.
