(* ===== verification/EvmSafety.v ===== *)
(** * EvmSafety

    What the host of [evm.rs] guarantees whatever a contract does, from the
    documented behaviour of the interpreter ([lawful]): every execution is a
    bracketed sequence of overlay operations, so a call that fails leaves no
    trace; gas is never created; the fuel for the depth of calls is enough. *)

From S2P Require Import Prelude Words Errors Account Params ChainSpec Transaction Block.
From S2P Require Import StateTrait InMemoryState IntraBlockState Journal View Processor Precompiled Evm.

(** ** The interpreter's contract *)

(** What the tree of an execution of [msg] with [g] gas left may contain:
    storage is written in the executing account only, calls stay within depth
    1024 and are paid from the gas left (a creation costs 32000 besides), a
    plain call runs the code of its recipient and the other kinds run in the
    executing account. *)
Fixpoint lawful (msg : EvmMessage) (g : Z) (t : InterruptVariant) : Prop :=
  match t with
  | Complete (inl out) => 0 ≤ out_gas_left out ≤ g
  | Complete (inr status) => 0 ≤ g ∧ status ≠ Success
  | ISetStorage a _ _ i => a = recipient msg ∧ ∀ x, lawful msg g (i x)
  | ICreate c i =>
      create_depth c = depth msg + 1 ∧ create_depth c ≤ 1024
      ∧ 0 ≤ create_gas c ≤ g - 32000
      ∧ ∀ out, 0 ≤ out_gas_left out ≤ create_gas c →
               lawful msg (g - 32000 - create_gas c + out_gas_left out) (i out)
  | ICall m i =>
      depth m = depth msg + 1 ∧ depth m ≤ 1024 ∧ 0 ≤ gas m ≤ g
      ∧ (if decide (kind m = CallK) then recipient m = code_address m
         else recipient m = recipient msg)
      ∧ ∀ out, 0 ≤ out_gas_left out ≤ gas m →
               lawful msg (g - gas m + out_gas_left out) (i out)
  | IAccountExists _ i => ∀ x, lawful msg g (i x)
  | IGetBalance _ i | IGetCodeSize _ i | IGetStorage _ _ i | IGetCodeHash _ i
  | IGetBlockHash _ i => ∀ x, lawful msg g (i x)
  | ICopyCode _ _ _ i => ∀ x, lawful msg g (i x)
  | ISelfdestruct _ _ i | IEmitLog _ _ _ i => ∀ x, lawful msg g (i x)
  | IGetTxContext i => ∀ x, lawful msg g (i x)
  | IAccessAccount _ i | IAccessStorage _ _ i => ∀ x, lawful msg g (i x)
  end.

Class MachineLaws {HM : Machine} : Prop := {
  interpret_lawful msg code rev : 0 ≤ gas msg → lawful msg (gas msg) (interpret msg code rev)
}.

(** ** What the operations preserve *)

(** The bodies of the overlay's operations. *)
Ltac unfold_ops := cbn [run_op]; unfold ignore, exists_, is_dead, get_balance, get_nonce, get_code,
  get_code_hash, record_selfdestruct, set_balance, add_to_balance, subtract_from_balance,
  update_balance, set_nonce, set_code, access_account, access_storage, get_current_storage,
  get_original_storage, set_storage, get_storage, insert_current, touch, add_log, add_refund,
  subtract_refund, create_contract, get_or_create_object, ensure_object, get_object, put_object.

Section operations.
Context {S : Type} {HS : State S} {HH : Hashing}.
Implicit Types st : IntraBlockState S.

Definition creates (o : op) : bool := match o with OpCreateContract _ => true | _ => false end.

(** Only a creation counts an incarnation. *)
Lemma run_op_incarnations o incs :
  creates o = false → preserves (fun st => incarnations st = incs) (run_op (S := S) o).
Proof. destruct o; intros Hc; try discriminate Hc; unfold_ops; preserves. Qed.

Lemma create_contract_incarnations a st u st' :
  create_contract a st = Ok (u, st') →
  incarnations st' = <[a := u64_add (default 0 (incarnations st !! a)) 1]> (incarnations st).
Proof.
  unfold create_contract. intros H. apply M_bind_inv in H as (prev & s & Hg & H).
  apply get_object_frame in Hg as (_ & Hi & _).
  repeat (apply M_bind_inv in H as (? & ? & [= <- <-] & H)). cbn in H.
  destruct (storage _ !! a); m_inv; cbn; by rewrite Hi.
Qed.

(** ** Accounts that exist *)

Definition alive st (a : Z) : Prop := ∃ c, account_of st a = Ok (Some c).

Lemma alive_le y x a : le y x → alive y a → alive x a.
Proof. intros Hle [c Hc]. exists c. by rewrite (account_of_le _ _ _ Hle). Qed.

Lemma alive_same st st' a :
  objects st' = objects st → db st' = db st → alive st a → alive st' a.
Proof. intros Ho Hd [c Hc]. exists c. unfold account_of in *. by rewrite Ho, Hd. Qed.

Lemma alive_written st st' a f b : written st st' a f → alive st b → alive st' b.
Proof.
  intros (cur & Ha & Hw) [c Hc]. unfold alive. rewrite Hw. case_decide; eauto.
Qed.

Lemma written_alive st st' a f : written st st' a f → alive st' a.
Proof. intros (cur & _ & Hw). eexists. by rewrite Hw, decide_True. Qed.

Lemma create_contract_view a st u st' :
  create_contract a st = Ok (u, st') →
  alive st' a ∧ ∀ b, b ≠ a → account_of st' b = account_of st b.
Proof.
  unfold create_contract. intros H. apply M_bind_inv in H as (prev & s & Hg & H).
  apply get_object_view in Hg as [_ Hle].
  repeat (apply M_bind_inv in H as (? & ? & [= <- <-] & H)). cbn in H.
  set (cur := mkAccount _ _ _) in H.
  assert (∀ b, account_of st' b = if decide (b = a) then Ok (Some cur) else account_of s b) as Hb.
  { intros b. rewrite (account_of_same (set_objects (insert a
        (mkObject (match prev with Some p => obj_initial p | None => None end) (Some cur))) s) st').
    - by rewrite account_of_put.
    - by destruct (storage _ !! a); m_inv.
    - by destruct (storage _ !! a); m_inv. }
  split.
  - exists cur. by rewrite Hb, decide_True.
  - intros b Hne. rewrite Hb, decide_False by done. by apply account_of_le.
Qed.
End operations.

Section executions.
Context {S : Type} {HS : State S} {HH : Hashing}.
Implicit Types st : IntraBlockState S.

Lemma run_op_alive o st u st1 a : run_op o st = Ok (u, st1) → alive st a → alive st1 a.
Proof.
  assert (∀ s s', le s s' → alive s a → alive s' a) as Hle by (intros; by eapply alive_le).
  destruct o; cbn [run_op]; intros H Ha;
    unfold ignore, exists_, is_dead, get_balance, get_nonce, get_code_hash,
      record_selfdestruct, set_balance, add_to_balance, subtract_from_balance,
      access_account, access_storage, get_current_storage, get_original_storage,
      add_log, add_refund, subtract_refund in H;
    try (by m_inv; eapply Hle; [eapply get_object_spec|]);
    try (by eapply alive_written; [eapply update_balance_view|]);
    try (by m_inv; apply get_storage_spec in Hm as (? & _); eapply Hle);
    try (by m_inv; repeat (case_match; m_inv); first [exact Ha|eapply alive_same; [..|exact Ha]]).
  - apply create_contract_view in H as [Hn Ho]. destruct (decide (a = a0)) as [->|Hne]; [done|].
    destruct Ha as [c Hc]. exists c. by rewrite Ho.
  - unfold touch in H. m_inv. destruct (bool_decide _ && _); m_inv; by eapply alive_same; [..|exact Ha].
  - eapply alive_written; [by eapply set_nonce_view|done].
  - m_inv. unfold get_code in Hm. m_inv. apply get_object_spec in Hm0 as (Hl & _).
    eapply Hle in Ha; [|exact Hl]. destruct a2 as [o|]; [|by m_inv].
    destruct (obj_current o); [|by m_inv]. destruct (negb _); [|by m_inv]. m_inv.
    case_match; [by m_inv|]. m_inv. case_match; m_inv; [done|].
    eapply alive_same; [..|exact Ha]; done.
  - eapply alive_written; [by eapply set_code_view|done].
  - unfold set_storage in H. m_inv. apply get_storage_spec in Hm as (Hl & _).
    eapply Hle in Ha; [|exact Hl]. destruct (_ =? _); [by m_inv|]. unfold insert_current in H. m_inv.
    eapply alive_same; [..|exact Ha]; done.
Qed.

Lemma exec_trans st1 st2 st3 : exec st1 st2 → exec st2 st3 → exec st1 st3.
Proof.
  induction 1 as [|o st s1 s2 Hok Hr _ IH|st s1 s2 s3 H1 _ Hr _ IH2]; intros H; [done| |].
  - eapply exec_op; [done|done|by apply IH].
  - eapply exec_revert; [done|done|by apply IH2].
Qed.

Lemma exec_one o st st1 : op_ok o st → run_op o st = Ok (tt, st1) → exec st st1.
Proof. intros. by eapply exec_op; [..|constructor]. Qed.

(** A failed bracket leaves the state of its snapshot, up to caches. *)
Lemma reverted_le st st1 st2 u :
  exec st st1 → revert_to_snapshot (take_snapshot st) st1 = Ok (u, st2) →
  le st st2 ∧ journal st2 = journal st ∧ logs st2 = logs st ∧ refund st2 = refund st.
Proof.
  intros He Hr. apply exec_undoable in He. apply undoable_revert in He as (s & Hs & H).
  rewrite Hs in Hr. by injection Hr as <- <-.
Qed.

Lemma exec_alive st st' a : exec st st' → alive st a → alive st' a.
Proof.
  induction 1 as [|o st s1 s2 Hok Hr _ IH|st s1 s2 s3 H1 _ Hr _ IH2]; intros Ha; [done| |].
  - apply IH. by eapply run_op_alive.
  - apply IH2. apply (reverted_le _ _ _ _ H1) in Hr as (Hle & _). by eapply alive_le.
Qed.

(** *** Steps that create nothing *)

(** An execution that leaves the counts of incarnations. *)
Definition quiet st st' : Prop := exec st st' ∧ incarnations st' = incarnations st.

#[global] Instance quiet_refl : Reflexive quiet.
Proof. intros st. by split; [constructor|]. Qed.

#[global] Instance quiet_trans : Transitive quiet.
Proof. intros x y z [H1 I1] [H2 I2]. split; [by eapply exec_trans|by rewrite I2]. Qed.

Lemma quiet_op o st st1 :
  creates o = false → op_ok o st → run_op o st = Ok (tt, st1) → quiet st st1.
Proof.
  intros Hc Hok Hr. split; [by eapply exec_one|]. by eapply run_op_incarnations.
Qed.

Lemma quiet_read {A} o (m : M S A) st a st1 :
  run_op o = ignore m → creates o = false → op_ok o st → m st = Ok (a, st1) → quiet st st1.
Proof.
  intros Ho Hc Hok Hm. apply (quiet_op o); [done|done|]. rewrite Ho. unfold ignore.
  by rewrite (M_bind_run _ _ _ _ _ Hm).
Qed.

Lemma quiet_ignore {A} (m : M S A) st u st1 :
  (∀ a, m st = Ok (a, st1) → quiet st st1) → ignore m st = Ok (u, st1) → quiet st st1.
Proof. unfold ignore. intros Hm H. m_inv. by eapply Hm. Qed.

Lemma quiet_get_balance a st b st1 : get_balance a st = Ok (b, st1) → quiet st st1.
Proof. by apply (quiet_read (OpGetBalance a)). Qed.
Lemma quiet_get_nonce a st b st1 : get_nonce a st = Ok (b, st1) → quiet st st1.
Proof. by apply (quiet_read (OpGetNonce a)). Qed.
Lemma quiet_get_code a st b st1 : get_code a st = Ok (b, st1) → quiet st st1.
Proof. by apply (quiet_read (OpGetCode a)). Qed.
Lemma quiet_get_code_hash a st b st1 : get_code_hash a st = Ok (b, st1) → quiet st st1.
Proof. by apply (quiet_read (OpGetCodeHash a)). Qed.
Lemma quiet_exists a st b st1 : exists_ a st = Ok (b, st1) → quiet st st1.
Proof. by apply (quiet_read (OpExists a)). Qed.
Lemma quiet_is_dead a st b st1 : is_dead a st = Ok (b, st1) → quiet st st1.
Proof. by apply (quiet_read (OpIsDead a)). Qed.
Lemma quiet_access_account a st b st1 : access_account a st = Ok (b, st1) → quiet st st1.
Proof. by apply (quiet_read (OpAccessAccount a)). Qed.
Lemma quiet_access_storage a k st b st1 : access_storage a k st = Ok (b, st1) → quiet st st1.
Proof. by apply (quiet_read (OpAccessStorage a k)). Qed.
Lemma quiet_current a k st b st1 : get_current_storage a k st = Ok (b, st1) → quiet st st1.
Proof. by apply (quiet_read (OpGetCurrentStorage a k)). Qed.
Lemma quiet_original a k st b st1 : get_original_storage a k st = Ok (b, st1) → quiet st st1.
Proof. by apply (quiet_read (OpGetOriginalStorage a k)). Qed.
Lemma quiet_set_nonce a n st u st1 : set_nonce a n st = Ok (u, st1) → quiet st st1.
Proof. destruct u. by apply (quiet_op (OpSetNonce a n)). Qed.
Lemma quiet_set_code a c st u st1 : set_code a c st = Ok (u, st1) → quiet st st1.
Proof. destruct u. by apply (quiet_op (OpSetCode a c)). Qed.
Lemma quiet_add a v st u st1 : add_to_balance a v st = Ok (u, st1) → quiet st st1.
Proof. destruct u. by apply (quiet_op (OpAddToBalance a v)). Qed.
Lemma quiet_subtract a v st u st1 : subtract_from_balance a v st = Ok (u, st1) → quiet st st1.
Proof. destruct u. by apply (quiet_op (OpSubtractFromBalance a v)). Qed.
Lemma quiet_set_balance a v st u st1 : set_balance a v st = Ok (u, st1) → quiet st st1.
Proof. destruct u. by apply (quiet_op (OpSetBalance a v)). Qed.
Lemma quiet_touch a st u st1 : touch a st = Ok (u, st1) → quiet st st1.
Proof. destruct u. by apply (quiet_op (OpTouch a)). Qed.
Lemma quiet_selfdestruct a st u st1 : record_selfdestruct a st = Ok (u, st1) → quiet st st1.
Proof. destruct u. by apply (quiet_op (OpRecordSelfdestruct a)). Qed.
Lemma quiet_add_log l st u st1 : add_log l st = Ok (u, st1) → quiet st st1.
Proof. destruct u. by apply (quiet_op (OpAddLog l)). Qed.
Lemma quiet_add_refund n st u st1 : add_refund n st = Ok (u, st1) → quiet st st1.
Proof. destruct u. by apply (quiet_op (OpAddRefund n)). Qed.
Lemma quiet_subtract_refund n st u st1 : subtract_refund n st = Ok (u, st1) → quiet st st1.
Proof. destruct u. by apply (quiet_op (OpSubtractRefund n)). Qed.

Lemma alive_exists a st :
  alive st a → ∃ s, exists_ a st = Ok (true, s).
Proof.
  intros [c Hc]. destruct (get_object_run _ _ _ Hc) as (o & s & Hg & Hcur).
  unfold exists_. rewrite (M_bind_run _ _ _ _ _ Hg). destruct o as [o|]; [|done].
  cbn in Hcur. rewrite Hcur. by eexists.
Qed.

Lemma quiet_set_storage a k v st u st1 :
  alive st a → set_storage a k v st = Ok (u, st1) → quiet st st1.
Proof.
  intros Ha. destruct u. apply (quiet_op (OpSetStorage a k v)); [done|]. by apply alive_exists.
Qed.

(** Sequences of quiet steps. *)
Lemma quiet_bind {A C} (m : M S A) (f : A → M S C) st c st' :
  (m ≫= f) st = Ok (c, st') →
  (∀ a s, m st = Ok (a, s) → quiet st s) →
  (∀ a s, quiet st s → f a s = Ok (c, st') → quiet s st') → quiet st st'.
Proof.
  intros (a & s & H1 & H2)%M_bind_inv Hm Hf. apply Hm in H1. etrans; [exact H1|].
  by eapply Hf.
Qed.

Lemma quiet_same_state {A} (m : M S A) st a st' :
  (m st = Ok (a, st') → st' = st) → m st = Ok (a, st') → quiet st st'.
Proof. intros H H1. by rewrite (H H1). Qed.
End executions.

#[export] Hint Resolve quiet_get_balance quiet_get_nonce quiet_get_code quiet_get_code_hash
  quiet_exists quiet_is_dead quiet_access_account quiet_access_storage quiet_current
  quiet_original quiet_set_nonce quiet_set_code quiet_add quiet_subtract quiet_set_balance
  quiet_touch quiet_selfdestruct quiet_add_log quiet_add_refund quiet_subtract_refund : quiet.

(** Show a run of non-creating operations quiet. *)
Ltac quiet_run H :=
  first
  [ solve [eauto with quiet]
  | match type of H with
    | mret _ _ = Ok _ => unfold mret, M_ret in H; injection H as ? ?; subst; reflexivity
    | gets _ _ = Ok _ => unfold gets in H; injection H as ? ?; subst; reflexivity
    | lift _ _ = Ok _ => apply lift_inv in H; destruct H as [_ H]; rewrite H; reflexivity
    | from_db _ _ = Ok _ => apply from_db_inv in H; destruct H as [_ H]; rewrite H; reflexivity
    | ignore _ _ = Ok _ => eapply quiet_ignore; [|exact H]; intros ? ?H1; quiet_run H1
    | (_ ≫= _) _ = Ok _ =>
        let a := fresh "a" in let s := fresh "s" in let H1 := fresh "H" in
        apply M_bind_inv in H; destruct H as (a & s & H1 & H);
        apply (transitivity (y := s)); [quiet_run H1|quiet_run H]
    | (if ?x then _ else _) _ = Ok _ => destruct x; quiet_run H
    | (match ?x with _ => _ end) _ = Ok _ => destruct x; quiet_run H
    end ].

(** ** Reads *)

Section cached.
Context {S : Type} {HS : State S} {HH : Hashing}.
Implicit Types st : IntraBlockState S.

(** The state with more in its caches. *)
Definition cached st st' : Prop :=
  le st st' ∧ journal st' = journal st ∧ logs st' = logs st ∧ refund st' = refund st.

#[global] Instance cached_refl : Reflexive cached.
Proof. by intros st. Qed.

#[global] Instance cached_trans : Transitive cached.
Proof.
  intros x y z (L1 & J1 & G1 & R1) (L2 & J2 & G2 & R2).
  split_and!; [by etrans|congruence..].
Qed.

Lemma cached_get_object a st o st1 : get_object a st = Ok (o, st1) → cached st st1.
Proof.
  intros H. pose proof (get_object_spec _ _ _ _ H) as (Hle & Hj & _ & _).
  unfold get_object in H. m_inv. destruct (objects st !! a); [by m_inv|]. m_inv.
  by destruct a0; m_inv.
Qed.

Lemma cached_get_balance a st b st1 : get_balance a st = Ok (b, st1) → cached st st1.
Proof. unfold get_balance. intros H. m_inv. by eapply cached_get_object. Qed.
Lemma cached_exists a st b st1 : exists_ a st = Ok (b, st1) → cached st st1.
Proof. unfold exists_. intros H. m_inv. by eapply cached_get_object. Qed.

Lemma get_code_spec a st c st1 :
  get_code a st = Ok (c, st1) → cached st st1 ∧ (c ≠ None → alive st1 a).
Proof.
  unfold get_code. intros H. m_inv. apply cached_get_object in Hm as Hc.
  apply get_object_view in Hm as [Ha Hle].
  assert (∀ s, objects s = objects st0 → db s = db st0 → ∀ o cur, a0 = Some o →
            obj_current o = Some cur → alive s a) as Hal.
  { intros s Ho Hd o cur -> Hcur. apply (alive_same st0); [done|done|].
    apply (alive_le _ _ _ Hle). exists cur. rewrite Ha. cbn. by rewrite Hcur. }
  destruct a0 as [o|]; [|m_inv; by split].
  destruct (obj_current o) as [cur|] eqn:Hcur; [|m_inv; by split].
  destruct (negb _); [|m_inv; by split]. m_inv.
  destruct (new_code st0 !! code_hash cur); [m_inv; split; [done|intros _; by eapply Hal]|].
  m_inv. destruct (existing_code st0 !! code_hash cur); m_inv;
    [split; [done|intros _; by eapply Hal]|].
  split; [|intros _; by eapply Hal]. etrans; [exact Hc|].
  match goal with |- cached ?s _ => pose proof (le_refl s) as [] end. split_and!; try done.
Qed.
End cached.

(** ** Outcomes *)

Section outcomes.
Context {B : Type} {HS : State B} {HH : Hashing} {HC : Crypto} {HM : Machine} {HL : MachineLaws}.
Context (header : PartialHeader) (block_spec : BlockExecutionSpec) (txn : MessageWithSender).
Implicit Types (st : IntraBlockState B) (msg : EvmMessage).

(** Every incarnation counted has been paid 32000 out of [c]. *)
Definition inc_bound st (c : Z) : Prop :=
  0 ≤ c ∧ ∀ a n, incarnations st !! a = Some n → 1 ≤ n ∧ 32000 * n ≤ c.

Lemma inc_bound_same st st' c c' :
  incarnations st' = incarnations st → c ≤ c' → inc_bound st c → inc_bound st' c'.
Proof.
  unfold inc_bound. intros -> Hc [H0 H]. split; [lia|]. intros a n Hn.
  destruct (H a n Hn). lia.
Qed.

(** The gas that exists, [t] in all, fits the counters. *)
Definition affordable (t : Z) : Prop := t < 32000 * 2 ^ 64.

Record outcome (t g : Z) st (out : Output) st' : Prop := {
  oc_exec : exec st st';
  oc_gas : 0 ≤ out_gas_left out ≤ g;
  oc_inc : inc_bound st' (t - out_gas_left out)
}.

Definition exec_spec (ex : EvmMessage → bytes → M B Output) : Prop :=
  ∀ msg code st out st' t, ex msg code st = Ok (out, st') → 0 ≤ gas msg →
    inc_bound st (t - gas msg) → affordable t → alive st (recipient msg) →
    outcome t (gas msg) st out st'.

Lemma quiet_outcome t g st s out st' :
  quiet st s → outcome t g s out st' → outcome t g st out st'.
Proof. intros [He _] [H1 H2 H3]. split; [by eapply exec_trans|done|done]. Qed.

Lemma quiet_inc st s c : quiet st s → inc_bound st c → inc_bound s c.
Proof. intros [_ Hi]. by apply inc_bound_same. Qed.

Lemma quiet_alive st s a : quiet st s → alive st a → alive s a.
Proof. intros [He _]. by apply exec_alive. Qed.

(** The end of a failed call or creation. *)
Lemma revert_failed_outcome t g st s res out st' :
  exec st s → inc_bound st (t - g) → 0 ≤ out_gas_left res ≤ g →
  revert_failed (take_snapshot st) res s = Ok (out, st') →
  outcome t g st out st' ∧ cached st st' ∧ status_code out = status_code res.
Proof.
  intros He Hi Hg H. unfold revert_failed in H. apply M_bind_inv in H as (u & s1 & Hr & H).
  pose proof (reverted_le _ _ _ _ He Hr) as (Hle & Hj & Hl & Hf). destruct u.
  assert (out_gas_left out = 0 ∨ out = res) as Hout.
  { case_decide; m_inv; auto. }
  assert (st' = s1) as -> by (case_decide; by m_inv).
  split_and!; [|done..|].
  - split; [by eapply exec_revert; [..|constructor]| |].
    + destruct Hout as [->| ->]; lia.
    + apply (inc_bound_same st _ (t - g)); [apply (le_inc _ _ Hle)| |done].
      destruct Hout as [->| ->]; lia.
  - unfold mret, M_ret in H. injection H as <-. by case_decide.
Qed.

Lemma run_precompiled_gas msg out :
  0 ≤ gas msg → run_precompiled block_spec msg (fresh (gas msg)) = Ok out → 0 ≤ out_gas_left out ≤ gas msg.
Proof.
  intros Hg. unfold run_precompiled. intros (c & Hc & H)%res_bind_ok.
  destruct (contract_gas _ _ _) as [g|] eqn:Hp; [|injection H as <-; cbn; lia].
  apply (contract_gas_nonneg _ _ _ _ _ (unwrap_ok _ _ Hc)) in Hp.
  destruct (_ <? g) eqn:?; [injection H as <-; cbn; lia|].
  destruct (gas msg <? g) eqn:?; [injection H as <-; cbn; lia|]. zbool.
  apply res_bind_ok in H as (output & _ & [= <-]). destruct output; cbn; lia.
Qed.

Lemma transfer_quiet msg st u st' : transfer msg st = Ok (u, st') → quiet st st'.
Proof. unfold transfer. intros H. quiet_run H. Qed.

(** The account a call executes in. *)
Definition call_place msg st : Prop :=
  if decide (kind msg = CallK) then recipient msg = code_address msg else alive st (recipient msg).

Lemma call_outcome ex msg st out st' t :
  exec_spec ex → call block_spec ex msg st = Ok (out, st') → 0 ≤ gas msg →
  inc_bound st (t - gas msg) → affordable t → call_place msg st →
  outcome t (gas msg) st out st' ∧ (status_code out ≠ Success → cached st st').
Proof.
  intros Hex H Hg Hi Ht Hp. unfold call in H.
  apply M_bind_inv in H as (poor & s1 & H1 & H).
  assert (quiet st s1) as Q1 by quiet_run H1.
  assert (cached st s1) as C1.
  { case_decide; [by m_inv|]. m_inv. by eapply cached_get_balance. }
  clear H1. destruct poor.
  { m_inv. split; [|done]. split; [apply Q1|cbn; lia|]. cbn. by eapply quiet_inc. }
  apply M_bind_inv in H as (code & s2 & H2 & H).
  assert (quiet s1 s2) as Q2 by quiet_run H2.
  assert (cached s1 s2 ∧ (code ≠ None → alive s2 (code_address msg))) as [C2 Hcode].
  { destruct (is_precompiled _ _); [by m_inv|]. by apply get_code_spec. }
  clear H2. apply M_bind_inv in H as (missing & s3 & H3 & H).
  assert (quiet s2 s3) as Q3 by quiet_run H3.
  assert (cached s2 s3) as C3.
  { destruct (_ && _); [|by m_inv]. m_inv. by eapply cached_exists. }
  clear H3. assert (quiet st s3) as Q by (by do 2 (etrans; [done|])).
  assert (cached st s3) as C by (by do 2 (etrans; [done|])).
  pose proof (quiet_inc _ _ _ Q Hi) as Hi3. destruct missing.
  { m_inv. split; [|done]. split; [apply Q|cbn; lia|done]. }
  apply M_bind_inv in H as (snapshot & s3' & [= <- <-] & H).
  apply M_bind_inv in H as (u & s4 & H4 & H). apply transfer_quiet in H4 as Q4.
  destruct (negb _ && _) eqn:Hempty.
  { m_inv. split; [|done]. eapply quiet_outcome; [done|].
    split; [apply Q4|cbn; lia|by eapply quiet_inc]. }
  apply M_bind_inv in H as (res & s5 & H5 & H).
  assert (outcome t (gas msg) s3 res s5) as O5.
  { destruct (is_precompiled block_spec (code_address msg)).
    - m_inv. pose proof (run_precompiled_gas msg _ Hg Hr). split; [apply Q4|done|].
      apply (inc_bound_same s3 _ (t - gas msg)); [apply Q4| |done].
      lia.
    - apply M_bind_inv in H5 as (u' & s6 & H6 & H5).
      assert (quiet s4 s6) as Q6 by quiet_run H6.
      apply (quiet_outcome _ _ _ s6); [by etrans|].
      apply (Hex _ _ _ _ _ _ H5); [done|by do 2 (eapply quiet_inc; [done|])|done|].
      do 2 (eapply quiet_alive; [done|]).
      unfold call_place in Hp. destruct (decide (kind msg = CallK)).
      + rewrite Hp. apply (quiet_alive _ _ _ Q3), Hcode. intros ->.
        discriminate Hempty.
      + by apply (quiet_alive _ _ _ Q). }
  destruct (decide (status_code res = Success)).
  - m_inv. split; [by eapply quiet_outcome|done].
  - apply (revert_failed_outcome t (gas msg)) in H as (O & Cr & Hs);
      [|apply O5|done|apply O5]. split; [by eapply quiet_outcome|]. intros _. by etrans.
Qed.

(** *** Creation *)

Lemma deploy_outcome t g a s res out st' :
  outcome t g s res st' → ∀ st2, deploy block_spec a res st' = Ok (out, st2) →
  outcome t g s out st2.
Proof.
  intros [He Hg Hi] st2 H. unfold deploy in H. cbv zeta in H.
  destruct (_ && _ && _); [by m_inv|]. destruct (_ && _); [by m_inv|].
  destruct ((0 <=? _) && _) eqn:Hpay.
  - zbool. apply M_bind_inv in H as (u & s1 & Hset & H). m_inv.
    apply quiet_set_code in Hset as Q.
    assert (0 ≤ u64_mul (Z.of_nat (length (out_data res))) fee.G_CODE_DEPOSIT)
      by (apply Z.mod_pos_bound; lia).
    split; cbn.
    + eapply exec_trans; [exact He|apply Q].
    + lia.
    + apply (inc_bound_same st' _ (t - out_gas_left res)); [apply Q|lia|done].
  - destruct (rev_ge _ _); by m_inv.
Qed.

Lemma create_contract_exec a c st u st' :
  inc_bound st (c - 32000) → c < 32000 * 2 ^ 64 → create_contract a st = Ok (u, st') →
  exec st st' ∧ inc_bound st' c ∧ alive st' a.
Proof.
  intros [H0 Hi] Hc H.
  split_and!.
  - destruct u. apply (exec_one (OpCreateContract a)); [|done].
    intros n Hn. destruct (Hi a n Hn). lia.
  - apply create_contract_incarnations in H as Hinc. unfold inc_bound. rewrite Hinc.
    split; [lia|]. intros b n. destruct (decide (b = a)) as [->|Hne].
    + rewrite lookup_insert_eq. intros [= <-].
      destruct (incarnations st !! a) as [n|] eqn:Hn; cbn.
      * destruct (Hi a n Hn). rewrite u64_add_small by word_lia. lia.
      * rewrite u64_add_small by word_lia. lia.
    + rewrite lookup_insert_ne by done. intros Hn. destruct (Hi b n Hn). lia.
  - by eapply create_contract_view.
Qed.

Lemma create_outcome ex message st out st' t :
  exec_spec ex → create block_spec ex message st = Ok (out, st') → 0 ≤ create_gas message →
  inc_bound st (t - 32000 - create_gas message) → affordable t →
  outcome t (create_gas message) st out st'.
Proof.
  intros Hex H Hg Hi Ht. unfold create in H.
  assert (∀ s o, quiet st s → out_gas_left o = create_gas message ∨ out_gas_left o = 0 →
            outcome t (create_gas message) st o s) as Hearly.
  { intros s o Q Ho. split; [apply Q|lia|].
    apply (inc_bound_same st _ (t - 32000 - create_gas message)); [apply Q|lia|done]. }
  apply M_bind_inv in H as (balance & s1 & H1 & H).
  assert (quiet st s1) as Q1 by quiet_run H1. clear H1.
  destruct (balance <? _); [m_inv; apply Hearly; cbn; auto|].
  apply M_bind_inv in H as (nonce & s2 & H2 & H).
  assert (quiet s1 s2) as Q2 by quiet_run H2. clear H2.
  apply M_bind_inv in H as (u3 & s3 & H3 & H).
  assert (quiet s2 s3) as Q3 by quiet_run H3. clear H3. cbv zeta in H.
  set (a := new_address message nonce) in *. clearbody a.
  apply M_bind_inv in H as (u4 & s4 & H4 & H).
  assert (quiet s3 s4) as Q4 by quiet_run H4. clear H4.
  apply M_bind_inv in H as (cn & s5 & H5 & H).
  assert (quiet s4 s5) as Q5 by quiet_run H5. clear H5.
  apply M_bind_inv in H as (taken & s6 & H6 & H).
  assert (quiet s5 s6) as Q6 by quiet_run H6. clear H6.
  assert (quiet st s6) as Q by (by do 5 (etrans; [done|])). clear Q1 Q2 Q3 Q4 Q5 Q6.
  destruct taken; [m_inv; apply Hearly; cbn; auto|].
  apply (quiet_outcome _ _ _ s6); [done|]. pose proof (quiet_inc _ _ _ Q Hi) as Hi6.
  apply M_bind_inv in H as (snapshot & s6' & [= <- <-] & H).
  apply M_bind_inv in H as (u7 & s7 & H7 & H).
  apply (create_contract_exec a (t - create_gas message)) in H7 as (E7 & I7 & A7);
    [|replace (t - create_gas message - 32000) with (t - 32000 - create_gas message) by lia; done
     |unfold affordable in Ht; lia].
  apply M_bind_inv in H as (u8 & s8 & H8 & H).
  assert (quiet s7 s8) as Q8 by quiet_run H8. clear H8.
  apply M_bind_inv in H as (u9 & s9 & H9 & H).
  assert (quiet s8 s9) as Q9 by quiet_run H9. clear H9.
  apply M_bind_inv in H as (u10 & s10 & H10 & H).
  assert (quiet s9 s10) as Q10 by quiet_run H10. clear H10.
  assert (quiet s7 s10) as Q7 by (by do 2 (etrans; [done|])). clear Q8 Q9 Q10.
  apply M_bind_inv in H as (res & s11 & H11 & H).
  pose proof (Hex _ _ _ _ _ t H11) as O. cbn in O.
  specialize (O Hg (quiet_inc _ _ _ Q7 I7) Ht (quiet_alive _ _ _ Q7 A7)). clear H11.
  assert (outcome t (create_gas message) s6 res s11) as O11.
  { destruct O as [E11 G11 I11]. split; [|done|done].
    eapply exec_trans; [exact E7|]. eapply exec_trans; [apply Q7|exact E11]. }
  apply M_bind_inv in H as (res' & s12 & H12 & H).
  assert (outcome t (create_gas message) s6 res' s12) as O12.
  { destruct (decide (status_code res = Success)); [|by m_inv].
    by eapply deploy_outcome. }
  destruct (decide (status_code res' = Success)).
  - m_inv. destruct O12 as [E12 G12 I12]. by split.
  - apply (revert_failed_outcome t (create_gas message)) in H as (O' & _ & _);
      [done|apply O12| |apply O12].
    apply (inc_bound_same s6 _ (t - 32000 - create_gas message)); [done|lia|done].
Qed.

(** *** The loop *)

Lemma ancestor_hash_same steps : ∀ i h st r st',
  ancestor_hash header steps i h st = Ok (r, st') → st' = st.
Proof.
  induction steps as [|steps IH]; intros i h st r st' H; cbn [ancestor_hash] in H; [by m_inv|].
  m_inv. by apply IH in H.
Qed.

Lemma block_hash_quiet n st r st' : block_hash header n st = Ok (r, st') → quiet st st'.
Proof.
  unfold block_hash. cbv zeta. destruct (_ <=? _); intros H; [|by m_inv].
  by apply ancestor_hash_same in H as ->.
Qed.

Lemma selfdestruct_quiet a b st u st' : selfdestruct a b st = Ok (u, st') → quiet st st'.
Proof. unfold selfdestruct. intros H. quiet_run H. Qed.

Lemma code_of_quiet a st c st' : code_of a st = Ok (c, st') → quiet st st'.
Proof. unfold code_of. intros H. quiet_run H. Qed.

Lemma storage_status_quiet a k c v st r st' :
  alive st a → storage_status block_spec a k c v st = Ok (r, st') → quiet st st'.
Proof.
  unfold storage_status. intros Ha H. destruct (c =? v); [quiet_run H|].
  apply M_bind_inv in H as (u & s & H1 & H). apply quiet_set_storage in H1; [|done].
  etrans; [exact H1|]. cbv zeta in H. destruct (negb _); quiet_run H.
Qed.

Lemma host_loop_outcome ex msg tree : exec_spec ex → ∀ g st out st' t,
  host_loop header block_spec txn ex tree st = Ok (out, st') → lawful msg g tree →
  inc_bound st (t - g) → affordable t → alive st (recipient msg) →
  outcome t g st out st'.
Proof.
  intros Hex. induction tree as
    [res|a i IH|a i IH|a i IH|a k i IH|a k v i IH|a i IH|a o n i IH|a b i IH|c i IH|m i IH
    |i IH|n i IH|a tp d i IH|a i IH|a k i IH];
    intros g st out st' t H Hlaw Hi Ht Ha; cbn [host_loop lawful] in H, Hlaw.
  1:{ destruct res as [o|s]; m_inv; (split; [apply exec_done|cbn; lia|]); cbn;
        (eapply inc_bound_same; [reflexivity| |exact Hi]); lia. }
  all: repeat match type of H with
       | (_ ≫= _) _ = Ok _ =>
           let x := fresh "x" in let s := fresh "s" in let Hs := fresh "Hs" in
           apply M_bind_inv in H; destruct H as (x & s & Hs & H)
       end.
  (* storage writes, creations and calls *)
  5:{ destruct Hlaw as [-> Hlaw]. apply quiet_current in Hs.
      apply storage_status_quiet in Hs0; [|by eapply quiet_alive].
      assert (quiet st s0) as Q by by etrans. apply (quiet_outcome _ _ _ s0); [done|].
      by eapply IH; [exact H|apply Hlaw|eapply quiet_inc|done|eapply quiet_alive]. }
  8:{ destruct Hlaw as (_ & _ & Hg & Hlaw).
      apply (create_outcome _ _ _ _ _ (t - g + 32000 + create_gas c)) in Hs;
        [|done|lia|by apply (inc_bound_same st _ (t - g)); [|lia|]|unfold affordable in *; lia].
      destruct Hs as [E1 G1 I1].
      assert (∀ y, out_gas_left y = out_gas_left x →
        outcome t (g - 32000 - create_gas c + out_gas_left x) s out st' → outcome t g st out st') as Hend.
      { intros y _ [E2 G2 I2]. split; [exact (exec_trans _ _ _ E1 E2)|lia|done]. }
      apply (Hend x); [done|]. eapply IH; [exact H| | |done|by eapply exec_alive].
      - case_decide; [apply Hlaw|apply (Hlaw (with_data [] x))]; cbn; lia.
      - replace (t - (g - 32000 - create_gas c + out_gas_left x))
          with (t - g + 32000 + create_gas c - out_gas_left x) by lia. done. }
  8:{ destruct Hlaw as (_ & _ & Hg & Hplace & Hlaw).
      apply (call_outcome _ _ _ _ _ (t - g + gas m)) in Hs;
        [|done|lia|by apply (inc_bound_same st _ (t - g)); [|lia|]|unfold affordable in *; lia|].
      2:{ unfold call_place. case_decide; [done|by rewrite Hplace]. }
      destruct Hs as [[E1 G1 I1] _].
      assert (outcome t (g - gas m + out_gas_left x) s out st') as [E2 G2 I2].
      { eapply IH; [exact H|apply Hlaw; lia| |done|by eapply exec_alive].
        replace (t - (g - gas m + out_gas_left x)) with (t - g + gas m - out_gas_left x) by lia.
        done. }
      split; [exact (exec_trans _ _ _ E1 E2)|lia|done]. }
  all: match type of H with
       | host_loop _ _ _ _ _ ?s = _ =>
           assert (quiet st s) as Q;
             [|apply (quiet_outcome _ _ _ s); [done|];
               by eapply IH; [exact H|apply Hlaw|eapply quiet_inc|done|eapply quiet_alive]]
       end.
  all: try first [by quiet_run Hs|by eapply code_of_quiet|by eapply block_hash_quiet
                 |by eapply selfdestruct_quiet].
  all: try (etrans; [by quiet_run Hs|]; by quiet_run Hs0).
  all: etrans; [by eapply quiet_is_dead|]; destruct x; quiet_run Hs0.
Qed.

Lemma execute_outcome fuel : exec_spec (execute header block_spec txn fuel).
Proof.
  unfold execute. induction fuel as [|fuel IH]; intros msg code st out st' t H Hg Hi Ht Ha;
    cbn [execute_from] in H; [done|].
  eapply (host_loop_outcome _ msg _ IH); [exact H|by apply interpret_lawful|done..].
Qed.

(** Counters of incarnations a chain can reach. *)
Definition incarnations_ok st : Prop :=
  ∀ a n, incarnations st !! a = Some n → 1 ≤ n ≤ 2 ^ 63.

Lemma incarnations_ok_bound st : incarnations_ok st → inc_bound st (32000 * 2 ^ 63).
Proof. intros H. split; [lia|]. intros a n Hn. destruct (H a n Hn). lia. Qed.

(** C2. A message call that does not succeed leaves no trace: whatever the
    code it ran did (writes, payments, logs, self-destructs, creations and
    calls to any depth), every question about an account or a slot that had
    an answer before has the same answer after, the journal, the logs and
    the refund counter are back, and the gas left is within the gas
    given. *)
Theorem failed_call_reverts fuel msg st out st'
  (Hgas : 0 ≤ gas msg < 2 ^ 63) (Hinc : incarnations_ok st) (Hplace : call_place msg st)
  (H : call block_spec (execute header block_spec txn fuel) msg st = Ok (out, st'))
  (Hfail : status_code out ≠ Success) :
  0 ≤ out_gas_left out ≤ gas msg
  ∧ journal st' = journal st ∧ logs st' = logs st ∧ refund st' = refund st
  ∧ self_destructs st' = self_destructs st ∧ accessed_addresses st' = accessed_addresses st
  ∧ ∀ q v s, run_query q st = Ok (v, s) → ∃ s', run_query q st' = Ok (v, s').
Proof.
  apply (call_outcome _ _ _ _ _ (32000 * 2 ^ 63 + gas msg)) in H as [[_ Hg _] Hc];
    [|apply execute_outcome|lia| |unfold affordable; lia|done].
  - destruct (Hc Hfail) as (Hle & Hj & Hl & Hr).
    split_and!; [apply Hg|apply Hg|done..|apply (le_sd _ _ Hle)|apply (le_addrs _ _ Hle)|].
    intros q v s. by apply run_query_le.
  - replace (_ + gas msg - gas msg) with (32000 * 2 ^ 63) by lia. by apply incarnations_ok_bound.
Qed.
End outcomes.

(** ** An interpreter for examples *)

(** At the top a contract writes its slot 1, calls contract 19 with half its
    gas and a payment of 5, and reverts; below it destroys itself in favour
    of 13. *)
Definition demo_interpret (msg : EvmMessage) (code : bytes) (rev : Revision) : InterruptVariant :=
  let half := gas msg / 2 in
  let out status g := {| status_code := status; out_gas_left := g; out_data := [];
                         create_address := None |} in
  if depth msg =? 0 then
    ISetStorage (recipient msg) 1 77 (fun _ =>
    ICall {| kind := CallK; is_static := false; depth := depth msg + 1; gas := half;
             recipient := 19; code_address := 19; msg_sender := recipient msg;
             input_data := []; msg_value := 5 |} (fun _ =>
    Complete (inl (out Revert (gas msg - half)))))
  else ISelfdestruct (recipient msg) 13 (fun _ => Complete (inl (out Success (gas msg)))).

#[local] Existing Instances toy_hashing toy_crypto.

#[local] Instance demo_machine : Machine := {|
  interpret := demo_interpret;
  address_of_create := fun sender nonce => sender + nonce;
  address_of_create2 := fun sender salt hash => sender + salt + hash |}.

Lemma demo_machine_laws : MachineLaws.
Proof.
  split. intros msg code rev Hg. cbn. unfold demo_interpret.
  assert (0 ≤ gas msg / 2 ≤ gas msg) by (split; [apply Z.div_pos|apply Z.div_le_upper_bound]; lia).
  destruct (Z.eqb_spec (depth msg) 0) as [Hd|_]; cbn; [|lia].
  split; [done|]. intros _. split_and!; [done|lia..|done|]. intros out Hout. lia.
Qed.

Definition demo_contracts : InMemoryState :=
  ims_code (insert 258 [1; 2]) (ims_accounts (fun _ =>
    {[ 17 := mkAccount 0 100 EMPTY_HASH; 18 := mkAccount 1 50 258; 19 := mkAccount 1 60 258 ]})
    (ims_slots (insert 18 {[1 := 11]}) empty_ims)).

Definition demo_message : EvmMessage :=
  {| kind := CallK; is_static := false; depth := 0; gas := 1000; recipient := 18;
     code_address := 18; msg_sender := 17; input_data := []; msg_value := 30 |}.

Definition demo_call : result (Output * IntraBlockState InMemoryState) :=
  call demo_spec
    (execute demo_header_6 demo_spec demo_tx call_depth)
    demo_message (new demo_contracts).

Lemma failed_call_reverts_witness :
  ∃ out st', demo_call = Ok (out, st') ∧ status_code out = Revert
    ∧ 0 ≤ out_gas_left out ≤ 1000
    ∧ ∃ s', run_query (QCurrentStorage 18 1) st' = Ok (11, s').
Proof.
  assert (is_ok demo_call = true) as Hok by (vm_compute; reflexivity).
  assert (∀ out st', demo_call = Ok (out, st') → status_code out = Revert) as Hrev.
  { intros out st' H. vm_compute in H. injection H as <- _. reflexivity. }
  destruct demo_call as [[out st']| |] eqn:H; [|discriminate Hok|discriminate Hok].
  exists out, st'. specialize (Hrev out st' eq_refl).
  assert (status_code out ≠ Success) as Hfail by by rewrite Hrev.
  destruct (failed_call_reverts (HL := demo_machine_laws) demo_header_6 demo_spec demo_tx
    call_depth demo_message (new demo_contracts) out st' ltac:(cbn; lia)
    ltac:(intros a n Hn; discriminate Hn) eq_refl H Hfail) as (Hg & _ & _ & _ & _ & _ & Hq).
  split; [done|]. split; [done|]. split; [exact Hg|].
  apply (Hq (QCurrentStorage 18 1) 11 _ eq_refl).
Defined.

(** ** A precompiled contract that takes the node down *)

(** C33. The gas of modular exponentiation multiplies the length of the
    exponent by eight in 64 bits: since Berlin a call with 200 gas, whose 96
    bytes of input declare an exponent of 2^63 + 32 bytes, is not out of gas
    but panics as it allocates the padded input. *)
Theorem expmod_call_panics {HC : Crypto} block_spec msg res
  (Hrev : rev_ge (revision block_spec) Berlin = true)
  (Ha : code_address msg = 5) (Hin : input_data msg = huge_exponent) (Hg : 200 ≤ gas msg) :
  run_precompiled block_spec msg res = Panic.
Proof.
  unfold run_precompiled. rewrite Ha, Hin. change (Z.to_nat (Z.land 5 255 - 1)) with 4%nat.
  change (unwrap (CONTRACTS !! 4%nat)) with (@Ok anyhow _ (mkPrecompiled expmod_gas expmod_run)).
  rewrite ok_bind. cbn [contract_gas contract_run]. rewrite huge_exponent_gas by done. change (2 ^ 63 - 1 <? 200) with false.
  rewrite (proj2 (Z.ltb_ge (gas msg) 200)) by done. by rewrite huge_exponent_run.
Qed.

Definition expmod_message : EvmMessage :=
  {| kind := CallK; is_static := false; depth := 1; gas := 200; recipient := 5;
     code_address := 5; msg_sender := 18; input_data := huge_exponent; msg_value := 0 |}.

Definition berlin_spec : BlockExecutionSpec :=
  {| revision := Berlin; active_transitions := ∅; spec_params := spec_params demo_spec;
     system_contract_changes := ∅; balance_changes := ∅ |}.

Lemma expmod_call_panics_witness : run_precompiled berlin_spec expmod_message (fresh 200) = Panic.
Proof. apply expmod_call_panics; [reflexivity..|cbn; lia]. Defined.
