(* ===== verification/Metering.v ===== *)
(** * Metering

    The counters of [evm.rs] under any code a lawful interpreter runs: gas is
    never created, the refund counter stays a word, the store is only read;
    so the host discharges the laws the processor relies on ([EvmLaws]). The
    depth of calls bounds the recursion: the fuel of [execute] is enough. *)

From S2P Require Import Prelude Words Errors Account Params ChainSpec Transaction Block.
From S2P Require Import StateTrait InMemoryState IntraBlockState Journal View Processor Precompiled Evm EvmSafety.

(** ** Triples *)

(** From a state in [R], [m] ends in [R] with a result in [Q], if it ends. *)
Definition triple {S A} (R : IntraBlockState S → Prop) (m : M S A) (Q : A → Prop) : Prop :=
  ∀ st a st', m st = Ok (a, st') → R st → R st' ∧ Q a.

Section triple.
Context {S : Type} (R : IntraBlockState S → Prop).

Lemma triple_ret {A} (a : A) (Q : A → Prop) : Q a → triple R (mret a) Q.
Proof. by intros Ha st x st' [= <- <-] HR. Qed.

Lemma triple_step {A C} (m : M S A) (f : A → M S C) Q :
  preserves R m → (∀ a, triple R (f a) Q) → triple R (m ≫= f) Q.
Proof. intros Hm Hf st c st' (a & s & H1 & H2)%M_bind_inv HR. eapply Hf; [done|]. by eapply Hm. Qed.

Lemma triple_bind {A C} (m : M S A) (f : A → M S C) P Q :
  triple R m P → (∀ a, P a → triple R (f a) Q) → triple R (m ≫= f) Q.
Proof.
  intros Hm Hf st c st' (a & s & H1 & H2)%M_bind_inv HR.
  destruct (Hm _ _ _ H1 HR) as [HR' Ha]. by eapply Hf.
Qed.

Lemma triple_err {A} (e : anyhow) (Q : A → Prop) : triple R (lift (Err e)) Q.
Proof. by intros st a st' H. Qed.

Lemma triple_lift {A} (r : result A) (Q : A → Prop) : (∀ a, r = Ok a → Q a) → triple R (lift r) Q.
Proof.
  intros HQ st a st' H Hst. unfold lift in H. destruct r as [x|e|]; [|discriminate..]. injection H as <- <-.
  split; [done|by apply HQ].
Qed.

Lemma preserves_triple {A} (m : M S A) Q : triple R m Q → preserves R m.
Proof. intros H st a st' Hm HR. by eapply H. Qed.

Lemma triple_weaken {A} (m : M S A) (P Q : A → Prop) :
  (∀ a, P a → Q a) → triple R m P → triple R m Q.
Proof. intros HPQ H st a st' Hm HR. destruct (H _ _ _ Hm HR). eauto. Qed.
End triple.

(** What stays true of the state of a run over the store [d]; the refund
    counter is a word [if] it was one. *)
Definition sound {S} (d : S) (word : Prop) (st : IntraBlockState S) : Prop :=
  db st = d ∧ (word → is_u64 (refund st)).

Section counters.
Context {S : Type} {HS : State S} {HH : Hashing} (d : S) (word : Prop).

Lemma sound_modify (f : IntraBlockState S → IntraBlockState S) :
  (∀ st, db (f st) = db st) → (∀ st, is_u64 (refund st) → is_u64 (refund (f st))) →
  preserves (sound d word) (modify f).
Proof. intros Hd Hr. apply preserves_modify. intros st [? ?]. split; [by rewrite Hd|auto]. Qed.
End counters.

(** Operations that leave the refund or set it to a word. *)
Ltac sound_op := unfold_ops; repeat first
  [ progress preserves
  | apply sound_modify; [reflexivity|];
      solve [let HP := fresh in intros ? HP; exact HP
            | intros ? _; apply Z.mod_pos_bound; lia] ].

Section metering.
Context {B : Type} {HS : State B} {HH : Hashing} {HC : Crypto} {HM : Machine} {HL : MachineLaws}.
Context (header : PartialHeader) (block_spec : BlockExecutionSpec) (txn : MessageWithSender).
Context (d : B) (word : Prop).
Implicit Types (msg : EvmMessage).

Notation R := (sound d word).

(** The gas left of an output, out of [g]. *)
Definition within (g : Z) (out : Output) : Prop := 0 ≤ out_gas_left out ≤ g.

(** The same, for messages whose gas is not negative. *)
Definition within_if (ok : Prop) (g : Z) (out : Output) : Prop := ok → within g out.

Definition metered (ex : EvmMessage → bytes → M B Output) : Prop :=
  ∀ msg code, triple R (ex msg code) (within_if (0 ≤ gas msg) (gas msg)).

Lemma sound_run_op o : preserves R (run_op o).
Proof. destruct o; sound_op. Qed.

Lemma sound_revert delta : preserves R (revert delta).
Proof. destruct delta; cbn [revert]; sound_op. Qed.

Lemma sound_revert_n n : preserves R (revert_n n).
Proof.
  induction n as [|n IH]; cbn [revert_n]; [preserves|].
  apply preserves_bind; [preserves|]. intros [|delta j]; [preserves|].
  apply preserves_bind; [sound_op|]. intros _.
  apply preserves_bind; [apply sound_revert|done].
Qed.

Lemma revert_failed_metered ok g snapshot res :
  (word → is_u64 (snap_refund snapshot)) → within_if ok g res →
  triple R (revert_failed snapshot res) (within_if ok g).
Proof.
  intros Hs Hg. unfold revert_failed. apply triple_step.
  - unfold revert_to_snapshot. preserves; first [apply sound_revert_n|by apply sound_modify|idtac].
    intros st u st' [= _ <-] [? _]. by split.
  - intros _. apply triple_ret. case_decide; [done|]. intros Hok.
    specialize (Hg Hok). unfold within in *. cbn. lia.
Qed.

Lemma take_snapshot_metered :
  triple R (gets take_snapshot) (fun s => word → is_u64 (snap_refund s)).
Proof. by intros st s st' [= <- <-] [? ?]. Qed.

(** A step of an operation. *)
Ltac step := apply triple_step; [solve [sound_op]|intros ?].

Lemma call_metered ex msg :
  metered ex → triple R (call block_spec ex msg) (within_if (0 ≤ gas msg) (gas msg)).
Proof.
  intros Hex. unfold call. step. destruct a; [apply triple_ret; intros ?; split; cbn; lia|].
  step. step. destruct a0; [apply triple_ret; intros ?; split; cbn; lia|].
  eapply triple_bind; [apply take_snapshot_metered|intros snapshot Hs].
  apply triple_step; [unfold transfer; sound_op|intros _].
  destruct (negb _ && _); [apply triple_ret; intros ?; split; cbn; lia|].
  apply (triple_bind _ _ _ (within_if (0 ≤ gas msg) (gas msg))).
  - destruct (is_precompiled _ _); [apply triple_lift; intros out Hout Hg; by eapply run_precompiled_gas|].
    step. by apply Hex.
  - intros res Hres. case_decide; [by apply triple_ret|]. by apply revert_failed_metered.
Qed.

Lemma deploy_metered ok g a res :
  within_if ok g res → triple R (deploy block_spec a res) (within_if ok g).
Proof.
  unfold within_if, within. intros Hg. unfold deploy. cbv zeta.
  destruct (_ && _ && _); [by apply triple_ret|]. destruct (_ && _); [by apply triple_ret|].
  destruct ((0 <=? _) && _) eqn:Hpay.
  - zbool. step. apply triple_ret. intros Hok. specialize (Hg Hok). cbn.
    assert (0 ≤ u64_mul (Z.of_nat (length (out_data res))) fee.G_CODE_DEPOSIT)
      by (apply Z.mod_pos_bound; lia). lia.
  - destruct (rev_ge _ _); by apply triple_ret.
Qed.

Lemma create_metered ex message :
  metered ex →
  triple R (create block_spec ex message)
    (within_if (0 ≤ create_gas message) (create_gas message)).
Proof.
  intros Hex. unfold create.
  assert (∀ s, within_if (0 ≤ create_gas message) (create_gas message)
                 (with_status s (fresh (create_gas message)))) as Hearly
    by (intros s ?; split; cbn; lia).
  step. destruct (_ <? _); [by apply triple_ret|]. step. step. cbv zeta. step. step.
  apply triple_step; [sound_op|intros taken]. destruct taken; [apply triple_ret; intros ?; split; cbn; lia|].
  eapply triple_bind; [apply take_snapshot_metered|intros snapshot Hs].
  step. step. step. step.
  eapply triple_bind; [by apply Hex|]. cbn [gas]. intros res Hres.
  apply (triple_bind _ _ _ (within_if (0 ≤ create_gas message) (create_gas message))).
  - case_decide; [by apply deploy_metered|by apply triple_ret].
  - intros res' Hres'. case_decide; [by apply triple_ret|by apply revert_failed_metered].
Qed.

Lemma ancestor_hash_sound steps : ∀ i h, preserves R (ancestor_hash header steps i h).
Proof.
  induction steps as [|steps IH]; intros i h; cbn [ancestor_hash]; [preserves|].
  do 2 (apply preserves_bind; [preserves|intros ?]). apply IH.
Qed.

Lemma block_hash_sound n : preserves R (block_hash header n).
Proof.
  unfold block_hash. cbv zeta. destruct (_ <=? _); [apply ancestor_hash_sound|preserves].
Qed.

Lemma host_loop_metered ex msg tree : metered ex → ∀ ok g,
  (ok → lawful msg g tree) →
  triple R (host_loop header block_spec txn ex tree) (within_if ok g).
Proof.
  intros Hex. induction tree as
    [res|a i IH|a i IH|a i IH|a k i IH|a k v i IH|a i IH|a o n i IH|a b i IH|c i IH|m i IH
    |i IH|n i IH|a tp dt i IH|a i IH|a k i IH]; intros ok g Hlaw; cbn [host_loop lawful] in *.
  1:{ destruct res as [o|s]; apply triple_ret; [done|]. intros Hok. destruct (Hlaw Hok).
      split; cbn; lia. }
  5:{ step. apply triple_step; [unfold storage_status; sound_op|].
      intros s. apply IH. intros Hok. by apply (Hlaw Hok). }
  8:{ eapply triple_bind; [by apply create_metered|]. intros out Hout.
      apply (triple_weaken _ _ (within_if ok (g - 32000 - create_gas c + out_gas_left out))).
      - intros x Hx Hok. destruct (Hlaw Hok) as (_ & _ & Hg & _).
        specialize (Hx Hok). specialize (Hout (proj1 Hg)). unfold within in *. lia.
      - case_decide; apply IH; intros Hok; destruct (Hlaw Hok) as (_ & _ & Hg & Hl).
        + apply Hl, Hout, Hg.
        + apply (Hl (with_data [] out)), Hout, Hg. }
  8:{ eapply triple_bind; [by apply call_metered|]. intros out Hout.
      apply (triple_weaken _ _ (within_if ok (g - gas m + out_gas_left out))).
      - intros x Hx Hok. destruct (Hlaw Hok) as (_ & _ & Hg & _).
        specialize (Hx Hok). specialize (Hout (proj1 Hg)). unfold within in *. lia.
      - apply IH. intros Hok. destruct (Hlaw Hok) as (_ & _ & Hg & _ & Hl). apply Hl, Hout, Hg. }
  all: repeat apply triple_step;
    first [ by intros; apply IH; intros Hok; apply (Hlaw Hok)
          | by unfold code_of, selfdestruct; sound_op
          | apply block_hash_sound | idtac ].
  intros dead. apply triple_step; [by sound_op|]. intros hash. apply IH. intros Hok. by apply (Hlaw Hok).
Qed.

Lemma execute_from_metered beyond fuel :
  metered beyond → metered (execute_from header block_spec txn beyond fuel).
Proof.
  intros Hb. induction fuel as [|fuel IH]; [done|]. intros msg code. cbn [execute_from].
  eapply host_loop_metered; [done|]. apply interpret_lawful.
Qed.

Lemma evm_metered gas :
  triple R (evm_execute_transaction header block_spec txn gas)
    (fun r => 0 ≤ as_i64 gas → 0 ≤ gas_left r ≤ as_i64 gas).
Proof.
  unfold evm_execute_transaction, execute.
  assert (metered (execute_from header block_spec txn
            (fun _ _ => lift (Err (Bail "out of fuel"))) call_depth)) as Hex
    by (apply execute_from_metered; intros ? ?; apply triple_err).
  destruct (Tx.action _).
  all: eapply triple_bind; [first [by apply call_metered|by apply create_metered]|].
  all: intros res Hres; by apply triple_ret.
Qed.
End metering.

(** C12. A transaction on the virtual machine, whatever code runs: the gas
    left is between zero and the gas given, the refund counter stays a 64-bit
    word, and the store below the overlay is not written. *)
Theorem evm_execute_transaction_metered {B : Type} {HS : State B} {HH : Hashing} {HC : Crypto} {HM : Machine}
    {HL : MachineLaws} header block_spec txn gas (st : IntraBlockState B) r st'
  (Hg : 0 ≤ gas < 2 ^ 63) (Hw : is_u64 (refund st))
  (H : evm_execute_transaction header block_spec txn gas st = Ok (r, st')) :
  0 ≤ gas_left r ≤ gas ∧ is_u64 (refund st') ∧ db st' = db st.
Proof.
  destruct (evm_metered header block_spec txn (db st) True gas _ _ _ H) as [[Hd Hr] Hgl];
    [done|]. rewrite as_i64_small in Hgl by done. split_and!; try done; [apply Hgl; lia..|auto].
Qed.

#[export] Instance evm_laws {B : Type} {HS : State B} {HH : Hashing} {HC : Crypto} {HM : Machine}
  {HL : MachineLaws} : EvmLaws B.
Proof.
  split.
  - intros header spec txn gas st r st' Hg H.
    destruct (evm_metered header spec txn (db st) False gas _ _ _ H) as [_ Hr]; [done|].
    rewrite as_i64_small in Hr by done. apply Hr. lia.
  - intros header spec txn gas st r st' H Hw.
    destruct (evm_metered header spec txn (db st) True gas _ _ _ H) as [[_ Hr] _]; [done|auto].
  - intros header spec txn gas st r st' H.
    by destruct (evm_metered header spec txn (db st) False gas _ _ _ H) as [[Hd _] _].
Qed.

(** ** The fuel *)

Section depth.
Context {B : Type} {HS : State B} {HH : Hashing} {HC : Crypto} {HM : Machine} {HL : MachineLaws}.
Context (header : PartialHeader) (block_spec : BlockExecutionSpec) (txn : MessageWithSender).
Implicit Types (msg : EvmMessage) (st : IntraBlockState B).

Lemma M_bind_agree {A C} (m m' : M B A) (f f' : A → M B C) st :
  m st = m' st → (∀ a s, m st = Ok (a, s) → f a s = f' a s) → (m ≫= f) st = (m' ≫= f') st.
Proof. unfold mbind, M_bind. intros <-. destruct (m st) as [[a s]| |]; auto. Qed.

(** Executions that agree on the messages one level below [n]. *)
Definition agree_below (n : Z) (ex1 ex2 : EvmMessage → bytes → M B Output) : Prop :=
  ∀ msg code st, depth msg = n + 1 → depth msg ≤ 1024 → 0 ≤ gas msg →
    ex1 msg code st = ex2 msg code st.

(** Past a step the two sides share. *)
Ltac shared := apply M_bind_agree; [reflexivity|intros ? ? _].

Lemma call_agree n ex1 ex2 msg st :
  agree_below n ex1 ex2 → depth msg = n + 1 → depth msg ≤ 1024 → 0 ≤ gas msg →
  call block_spec ex1 msg st = call block_spec ex2 msg st.
Proof.
  intros Hag Hn Hd Hg. unfold call. apply M_bind_agree; [done|]. intros poor s1 _.
  destruct poor; [done|]. shared. apply M_bind_agree; [done|].
  intros missing s3 _. destruct missing; [done|]. shared. shared.
  destruct (_ && _); [done|]. apply M_bind_agree; [|done].
  destruct (is_precompiled _ _); [done|]. shared. by apply Hag.
Qed.

Lemma create_agree n ex1 ex2 message st :
  agree_below n ex1 ex2 → create_depth message = n + 1 → create_depth message ≤ 1024 →
  0 ≤ create_gas message →
  create block_spec ex1 message st = create block_spec ex2 message st.
Proof.
  intros Hag Hn Hd Hg. unfold create. shared. destruct (_ <? _); [done|]. do 4 shared.
  apply M_bind_agree; [done|]. intros taken s9 _. destruct taken; [done|]. do 5 shared.
  apply M_bind_agree; [by apply Hag|done].
Qed.

Lemma host_loop_agree ex1 ex2 msg tree :
  (∀ d word, metered d word ex1) → agree_below (depth msg) ex1 ex2 → ∀ g st,
  lawful msg g tree →
  host_loop header block_spec txn ex1 tree st = host_loop header block_spec txn ex2 tree st.
Proof.
  intros Hm Hag. induction tree as
    [res|a i IH|a i IH|a i IH|a k i IH|a k v i IH|a i IH|a o n i IH|a b i IH|c i IH|m i IH
    |i IH|n i IH|a tp dt i IH|a i IH|a k i IH]; intros g st Hlaw; cbn [host_loop lawful] in *.
  1: done.
  5: destruct Hlaw as [_ Hlaw].
  9:{ destruct Hlaw as (Hd & Hd' & Hg & Hlaw).
      apply M_bind_agree; [apply (create_agree (depth msg)); (done || lia)|].
      intros out s Hout. apply (IH _ (g - 32000 - create_gas c + out_gas_left out)).
      destruct (create_metered block_spec (db st) False ex1 c (Hm _ _) _ _ _ Hout)
        as [_ Ho]; [by split|]. specialize (Ho (proj1 Hg)).
      case_decide; [by apply Hlaw|by apply (Hlaw (with_data [] out))]. }
  9:{ destruct Hlaw as (Hd & Hd' & Hg & _ & Hlaw).
      apply M_bind_agree; [apply (call_agree (depth msg)); (done || lia)|].
      intros out s Hout. apply (IH _ (g - gas m + out_gas_left out)), Hlaw.
      destruct (call_metered block_spec (db st) False ex1 m (Hm _ _) _ _ _ Hout)
        as [_ Ho]; [by split|apply Ho, Hg]. }
  all: repeat shared; by eapply IH.
Qed.

(** C13. The bound on the depth of calls bounds the recursion: from a message
    at depth 0 the execution never asks for a call beyond level 1024, so
    whatever would answer there, and however much more fuel there is, the
    result of an execution is the one the fuel of the model gives. *)
Theorem call_depth_enough beyond fuel msg code st
  (Hg : 0 ≤ gas msg) (Hd : 0 ≤ depth msg ≤ 1024)
  (Hfuel : 1025 ≤ depth msg + Z.of_nat fuel) :
  execute_from header block_spec txn beyond fuel msg code st
  = execute header block_spec txn call_depth msg code st.
Proof.
  unfold execute. symmetry.
  assert (1025 ≤ depth msg + Z.of_nat call_depth) as Hfuel' by (unfold call_depth; lia).
  revert Hfuel'. generalize call_depth as fuel'.
  induction fuel as [|fuel IH] in msg, code, st, Hg, Hd, Hfuel |- *; intros [|fuel'] Hfuel'; [lia..|].
  cbn [execute_from]. apply (host_loop_agree _ _ msg _ ) with (g := gas msg); [| |by apply interpret_lawful].
  - intros d word. apply execute_from_metered. intros ? ?. apply triple_err.
  - intros m c s Hm Hm' Hgas. apply IH; lia.
Qed.
End depth.

(** ** Examples *)

#[local] Existing Instances toy_hashing toy_crypto.
#[local] Existing Instance demo_machine.
#[local] Existing Instance demo_machine_laws.

Definition demo_call_tx : MessageWithSender :=
  mkMessageWithSender (LegacyMsg None 0 10 25_000 (Call 18) 30 []) 17.

Definition demo_evm : result (CallResult * IntraBlockState InMemoryState) :=
  evm_execute_transaction demo_header_6 demo_spec demo_call_tx 1000 (new demo_contracts).

Lemma evm_execute_transaction_metered_witness :
  ∃ r st', demo_evm = Ok (r, st') ∧ gas_left r = 500 ∧ 0 ≤ gas_left r ≤ 1000
    ∧ is_u64 (refund st') ∧ db st' = demo_contracts.
Proof.
  assert (match demo_evm with Ok (r, _) => gas_left r = 500 | _ => False end) as Hok
    by (vm_compute; reflexivity).
  destruct demo_evm as [[r st']| |] eqn:H; [|done|done]. exists r, st'.
  split; [done|]. split; [exact Hok|].
  refine (evm_execute_transaction_metered demo_header_6 demo_spec demo_call_tx 1000
    (new demo_contracts) r st' _ _ H); [done|by vm_compute].
Defined.

Lemma call_depth_enough_witness :
  depth demo_message = 0
  ∧ execute_from demo_header_6 demo_spec demo_call_tx (fun _ _ => lift Panic) 2000
      demo_message [1; 2] (new demo_contracts)
    = execute demo_header_6 demo_spec demo_call_tx call_depth demo_message [1; 2]
        (new demo_contracts).
Proof.
  split; [reflexivity|]. apply call_depth_enough; unfold demo_message; cbn [gas depth]; lia.
Defined.
