(* ===== verification/BytesOrder.v ===== *)
(** * BytesOrder

    The order of byte strings, lexicographic as [Ord] of slices, arrays and
    vectors of bytes, and of pairs of them: what the external sort, the
    database tables and the prefix sets rely on. *)

From stdpp Require Import sorting.
From S2P Require Import Prelude Words.

Fixpoint bytes_cmp (a b : bytes) : comparison :=
  match a, b with
  | [], [] => Eq
  | [], _ :: _ => Lt
  | _ :: _, [] => Gt
  | x :: a, y :: b => match x ?= y with Eq => bytes_cmp a b | c => c end
  end.

Definition bytes_le (a b : bytes) : Prop := bytes_cmp a b ≠ Gt.
Definition bytes_lt (a b : bytes) : Prop := bytes_cmp a b = Lt.

#[global] Instance bytes_le_dec : RelDecision bytes_le.
Proof. intros a b. unfold bytes_le. apply _. Defined.
#[global] Instance bytes_lt_dec : RelDecision bytes_lt.
Proof. intros a b. unfold bytes_lt. apply _. Defined.

Lemma bytes_cmp_refl a : bytes_cmp a a = Eq.
Proof. induction a as [|x a IH]; cbn; [done|]. by rewrite Z.compare_refl. Qed.

Lemma bytes_cmp_eq a b : bytes_cmp a b = Eq ↔ a = b.
Proof.
  split; [|intros ->; apply bytes_cmp_refl].
  revert b. induction a as [|x a IH]; intros [|y b]; cbn; try done.
  destruct (Z.compare_spec x y) as [->| |]; [|done..]. intros H. by rewrite (IH b H).
Qed.

Lemma bytes_cmp_opp a b : bytes_cmp b a = CompOpp (bytes_cmp a b).
Proof.
  revert b. induction a as [|x a IH]; intros [|y b]; cbn; try done.
  rewrite (Z.compare_antisym x y). destruct (x ?= y); cbn; auto.
Qed.

(** Transitivity of the strict order, from which the rest follows. *)
Lemma bytes_lt_trans a b c : bytes_lt a b → bytes_lt b c → bytes_lt a c.
Proof.
  unfold bytes_lt. revert b c. induction a as [|x a IH]; intros [|y b] [|z c]; cbn; try done.
  destruct (Z.compare_spec x y) as [->|Hxy|]; [| |done].
  - destruct (Z.compare_spec y z); [apply IH|done|done].
  - intros _. destruct (Z.compare_spec y z) as [->|Hyz|]; [| |done]; intros _.
    + by rewrite (proj2 (Z.compare_lt_iff x z)).
    + by rewrite (proj2 (Z.compare_lt_iff x z)) by lia.
Qed.

Lemma bytes_le_lt a b : bytes_le a b ↔ a = b ∨ bytes_lt a b.
Proof.
  unfold bytes_le, bytes_lt. rewrite <- bytes_cmp_eq. destruct (bytes_cmp a b); naive_solver.
Qed.

Lemma bytes_lt_irrefl a : ¬ bytes_lt a a.
Proof. unfold bytes_lt. by rewrite bytes_cmp_refl. Qed.

#[global] Instance bytes_le_preorder : PreOrder bytes_le.
Proof.
  split.
  - intros a. apply bytes_le_lt. by left.
  - intros a b c. rewrite !bytes_le_lt. intros [->|Hab] [->|Hbc]; eauto using bytes_lt_trans.
Qed.

#[global] Instance bytes_le_antisymm : AntiSymm (=) bytes_le.
Proof.
  intros a b. rewrite !bytes_le_lt. intros [->|Hab] [H|Hba]; try done.
  by destruct (bytes_lt_irrefl a (bytes_lt_trans a b a Hab Hba)).
Qed.

#[global] Instance bytes_le_total : Total bytes_le.
Proof.
  intros a b. unfold bytes_le. rewrite (bytes_cmp_opp a b).
  destruct (bytes_cmp a b); cbn; [by left|by left|by right].
Qed.

Lemma bytes_nlt_le a b : ¬ bytes_lt a b ↔ bytes_le b a.
Proof.
  unfold bytes_lt, bytes_le. rewrite (bytes_cmp_opp a b). by destruct (bytes_cmp a b).
Qed.

(** ** Prefixes *)

Lemma bytes_cmp_app p a b : bytes_cmp (p ++ a) (p ++ b) = bytes_cmp a b.
Proof. induction p as [|x p IH]; cbn; [done|]. by rewrite Z.compare_refl. Qed.

Lemma prefix_bytes_le p a : p `prefix_of` a → bytes_le p a.
Proof.
  intros [b ->]. unfold bytes_le. rewrite <- (app_nil_r p) at 1. rewrite bytes_cmp_app.
  by destruct b.
Qed.

(** What lies between a prefix and a string with that prefix has it too. *)
Lemma bytes_le_prefix p a b :
  bytes_le p a → bytes_le a b → p `prefix_of` b → p `prefix_of` a.
Proof.
  unfold bytes_le. revert a b. induction p as [|x p IH]; intros a b Hpa Hab [c ->].
  { apply prefix_nil. }
  destruct a as [|y a]; cbn in *; [done|].
  rewrite (Z.compare_antisym x y) in Hab.
  destruct (Z.compare_spec x y) as [->| |]; cbn in *; [|done..].
  apply prefix_cons, (IH a (p ++ c)); [done|done|by apply prefix_app_r].
Qed.

(** ** Pairs *)

Definition pair_le (a b : bytes * bytes) : Prop :=
  bytes_lt a.1 b.1 ∨ a.1 = b.1 ∧ bytes_le a.2 b.2.

#[global] Instance pair_le_dec : RelDecision pair_le.
Proof. intros a b. unfold pair_le. apply _. Defined.

#[global] Instance pair_le_preorder : PreOrder pair_le.
Proof.
  split; [by right|]. intros [a a'] [b b'] [c c']. unfold pair_le. cbn.
  intros [?|[-> ?]] [?|[-> ?]]; eauto using bytes_lt_trans. right. split; [done|by etrans].
Qed.

#[global] Instance pair_le_antisymm : AntiSymm (=) pair_le.
Proof.
  intros [a a'] [b b']. unfold pair_le. cbn. intros [Hab|[Hab Hab']] [Hba|[Hba Hba']]; subst.
  - by destruct (bytes_lt_irrefl a (bytes_lt_trans a b a Hab Hba)).
  - by destruct (bytes_lt_irrefl a).
  - by destruct (bytes_lt_irrefl b).
  - f_equal. by apply (anti_symm bytes_le).
Qed.

#[global] Instance pair_le_total : Total pair_le.
Proof.
  intros [a a'] [b b']. unfold pair_le. cbn.
  destruct (decide (bytes_lt a b)) as [|H1]; [by left; left|].
  destruct (decide (bytes_lt b a)) as [|H2]; [by right; left|].
  rewrite bytes_nlt_le in H1, H2. assert (a = b) as -> by by apply (anti_symm bytes_le).
  destruct (total bytes_le a' b'); [left|right]; by right.
Qed.
