(* ===== verification/StagedSync.v ===== *)
(** * StagedSync

    [src/src/stagedsync/]: the staged synchronisation loop. The stages, which
    may keep memory of their own, are parameters; the table of their progress
    and the transactions of the database are an interface ([StageDb]). The
    loop is a machine whose states are its program points: [step] is one
    round of one of its loops. Logging, timings and the delay between rounds
    are rest out. *)

From stdpp Require Import sorting.
From S2P Require Import Prelude Words Errors.

(** ** The stages' interface *)

Abbreviation StageId := string.

Record StageInput : Type := mkStageInput {
  restarted : bool;
  first_started_at : option Z;
  previous_stage : option (StageId * Z);
  stage_progress : option Z
}.

Record UnwindInput : Type := mkUnwindInput { unwind_from : Z; unwind_to : Z }.

Inductive ExecOutput : Type :=
| Unwind (unwind_to : Z)
| Progress (stage_progress : Z) (done : bool).

(** Transactions on the database and the [SyncStage] table. *)
Class StageDb (D : Type) : Type := {
  begin_mutable : D → result D;
  commit : D → result D;
  get_progress : StageId → D → result (option Z);
  save_progress : StageId → Z → D → result D
}.

(** A transaction starts from what is committed and commits what it holds. *)
Class StageDbLaws (D : Type) {HD : StageDb D} : Prop := {
  begin_same d tx : begin_mutable d = Ok tx → tx = d;
  commit_same tx d : commit tx = Ok d → d = tx;
  save_get id p tx tx' : save_progress id p tx = Ok tx' → get_progress id tx' = Ok (Some p);
  save_get_other id id' p tx tx' :
    save_progress id p tx = Ok tx' → id' ≠ id → get_progress id' tx' = get_progress id' tx
}.

Section sync.
Context {D Mem : Type} {HD : StageDb D}.

(** A stage: the transaction and the memory of the stages are mutated. *)
Record Stage : Type := mkStage {
  id : StageId;
  execute : StageInput → D → Mem → result (ExecOutput * D * Mem);
  unwind : UnwindInput → D → Mem → result (Z * D * Mem)
}.

Record StagedSync : Type := mkStagedSync {
  stages : list Stage;
  min_progress_to_commit_after_stage : Z;
  max_block : option Z;
  exit_after_sync : bool;
  delay_after_sync : option Z
}.

Definition new_staged_sync : StagedSync := mkStagedSync [] 0 None false None.

Definition push (stage : Stage) (s : StagedSync) : StagedSync :=
  mkStagedSync (stages s ++ [stage]) (min_progress_to_commit_after_stage s) (max_block s)
    (exit_after_sync s) (delay_after_sync s).

(** ** The loop *)

(** The program points of [run]: the head of the loop, the unwinding of the
    stages [rest] (in reverse order) and of one of them, the execution of the
    stages [rest] and the invocations of one of them. *)
Inductive Phase : Type :=
| Start (to : option Z)
| Unwinding (tx : D) (to : Z) (rest : list Stage)
| UnwindingStage (tx : D) (to : Z) (stage : Stage) (progress : Z) (rest : list Stage)
| Running (tx : D) (previous : option (StageId * Z)) (minimum : option Z) (rest : list Stage)
| Invoking (tx : D) (previous : option (StageId * Z)) (minimum : option Z) (stage : Stage)
    (start_progress : option Z) (restarted : bool) (rest : list Stage)
| Returned.

Record Config : Type := mkConfig { committed : D; memory : Mem; phase : Phase }.

Definition lower_minimum (minimum : option Z) (progress : Z) : option Z :=
  Some (match minimum with Some m => Z.min m progress | None => progress end).

Definition reached_max (s : StagedSync) (minimum : option Z) : bool :=
  match minimum, max_block s with Some m, Some b => m =? b | _, _ => false end.

Definition step (s : StagedSync) (c : Config) : result Config :=
  match phase c with
  | Start (Some to) =>
      tx ← begin_mutable (committed c);
      Ok (mkConfig (committed c) (memory c) (Unwinding tx to (reverse (stages s))))
  | Unwinding tx to [] =>
      d ← commit tx;
      Ok (mkConfig d (memory c) (Start None))
  | Unwinding tx to (stage :: rest) =>
      progress ← get_progress (id stage) tx;
      Ok (mkConfig (committed c) (memory c)
            (UnwindingStage tx to stage (default 0 progress) rest))
  | UnwindingStage tx to stage progress rest =>
      if to <? progress then
        '(progress', tx, mem) ← unwind stage (mkUnwindInput progress to) tx (memory c);
        tx ← save_progress (id stage) progress' tx;
        Ok (mkConfig (committed c) mem (UnwindingStage tx to stage progress' rest))
      else Ok (mkConfig (committed c) (memory c) (Unwinding tx to rest))
  | Start None =>
      tx ← begin_mutable (committed c);
      Ok (mkConfig (committed c) (memory c) (Running tx None None (stages s)))
  | Running tx previous minimum [] =>
      d ← commit tx;
      Ok (mkConfig d (memory c) (if reached_max s minimum then Returned else Start None))
  | Running tx previous minimum (stage :: rest) =>
      start_progress ← get_progress (id stage) tx;
      Ok (mkConfig (committed c) (memory c)
            (Invoking tx previous minimum stage start_progress false rest))
  | Invoking tx previous minimum stage start_progress restarted rest =>
      prev_progress ← get_progress (id stage) tx;
      '(output, tx, mem) ←
        execute stage (mkStageInput restarted start_progress previous prev_progress) tx (memory c);
      match output with
      | Progress progress done =>
          tx ← save_progress (id stage) progress tx;
          let minimum := lower_minimum minimum progress in
          '(d, tx) ←
            (if min_progress_to_commit_after_stage s
                <=? saturating_sub progress (default 0 start_progress)
             then d ← commit tx; tx ← begin_mutable d; Ok (d, tx)
             else Ok (committed c, tx));
          Ok (mkConfig d mem
                (if done : bool then Running tx (Some (id stage, progress)) minimum rest
                 else Invoking tx previous minimum stage start_progress true rest))
      | Unwind to => Ok (mkConfig (committed c) mem (Start (Some to)))
      end
  | Returned => Ok c
  end.

(** The configurations of a run of the loop. *)
Inductive steps (s : StagedSync) : Config → Config → Prop :=
| steps_refl c : steps s c c
| steps_step c1 c2 c3 : step s c1 = Ok c2 → steps s c2 c3 → steps s c1 c3.

Definition run_from (d : D) (mem : Mem) : Config := mkConfig d mem (Start None).

(** The same with a bound, to run it. *)
Fixpoint run (fuel : nat) (s : StagedSync) (c : Config) : result Config :=
  match fuel with
  | O => Ok c
  | S fuel => c ← step s c; run fuel s c
  end.

Lemma steps_trans s c1 c2 c3 : steps s c1 c2 → steps s c2 c3 → steps s c1 c3.
Proof. induction 1; [done|]. intros. econstructor; eauto. Qed.

Lemma steps_one s c1 c2 : step s c1 = Ok c2 → steps s c1 c2.
Proof. intros. econstructor; [done|constructor]. Qed.

Lemma run_steps fuel s : ∀ c c', run fuel s c = Ok c' → steps s c c'.
Proof.
  induction fuel as [|fuel IH]; intros c c' H; cbn [run] in H; res_inv; [constructor|].
  econstructor; [done|by apply IH].
Qed.

(** An invariant of [step]. *)
Lemma steps_inv (P : Config → Prop) s :
  (∀ c c', P c → step s c = Ok c' → P c') → ∀ c c', steps s c c' → P c → P c'.
Proof. intros HP c c'. induction 1; eauto. Qed.
End sync.

Arguments Stage D Mem : clear implicits.
Arguments StagedSync D Mem : clear implicits.
Arguments Config D Mem : clear implicits.

(** ** Progress *)

Section progress.
Context {D Mem : Type} {HD : StageDb D} {HL : StageDbLaws D}.
Implicit Types (d tx : D) (s : StagedSync D Mem) (c : Config D Mem) (st : Stage D Mem).

(** The progress of a stage, zero for a stage that never ran. *)
Definition prog d st : Z :=
  match get_progress (id st) d with Ok p => default 0 p | _ => 0 end.

Lemma prog_get d st p : get_progress (id st) d = Ok p → prog d st = default 0 p.
Proof. unfold prog. by intros ->. Qed.

Lemma prog_save d d' st p : save_progress (id st) p d = Ok d' → prog d' st = p.
Proof. unfold prog. by intros ->%save_get. Qed.

Lemma prog_save_other d d' st st' p :
  save_progress (id st) p d = Ok d' → id st' ≠ id st → prog d' st' = prog d st'.
Proof. unfold prog. intros H Hne. by rewrite (save_get_other _ _ _ _ _ H Hne). Qed.

(** What a stage does with its transaction: the progress table is the loop's;
    unless it is past the stage before it already, it does not go back when
    it executes, nor past that stage; it unwinds at least one block and not below the
    target. *)
Class StageLaws st : Prop := {
  execute_progress input d m out d' m' :
    execute st input d m = Ok (out, d', m') → ∀ i, get_progress i d' = get_progress i d;
  execute_bounds input d m p done d' m' :
    execute st input d m = Ok (Progress p done, d', m') →
    (∀ i q, previous_stage input = Some (i, q) → default 0 (stage_progress input) ≤ q) →
    default 0 (stage_progress input) ≤ p ∧ ∀ i q, previous_stage input = Some (i, q) → p ≤ q;
  unwind_progress input d m p d' m' :
    unwind st input d m = Ok (p, d', m') → ∀ i, get_progress i d' = get_progress i d;
  unwind_bounds input d m p d' m' :
    unwind st input d m = Ok (p, d', m') → unwind_to input < unwind_from input →
    unwind_to input ≤ p < unwind_from input
}.

Lemma prog_same d d' st : (∀ i, get_progress i d' = get_progress i d) → prog d' st = prog d st.
Proof. unfold prog. by intros ->. Qed.

(** No stage is ahead of the one before it. *)
Definition ordered d (l : list (Stage D Mem)) : Prop :=
  StronglySorted (fun a b => prog d b ≤ prog d a) l.

Lemma ordered_app d l1 l2 :
  ordered d (l1 ++ l2) ↔ (∀ a b, a ∈ l1 → b ∈ l2 → prog d b ≤ prog d a) ∧ ordered d l1 ∧ ordered d l2.
Proof. apply StronglySorted_app. Qed.

Lemma ordered_ext d d' l : (∀ a, a ∈ l → prog d' a = prog d a) → ordered d l → ordered d' l.
Proof.
  intros Heq H. unfold ordered in *. induction H as [|a l Hl IH Ha]; [constructor|].
  constructor; [apply IH; intros; apply Heq; by right|].
  apply Forall_forall. intros b Hb. rewrite !Heq by (by left || by right).
  by eapply Forall_forall in Ha.
Qed.

(** One stage of a pipeline moves. *)
Lemma ordered_move d d' l1 st l2 p :
  NoDup (id <$> l1 ++ st :: l2) → ordered d (l1 ++ st :: l2) →
  (∀ a, id a ≠ id st → prog d' a = prog d a) → prog d' st = p →
  (∀ a, a ∈ l1 → p ≤ prog d a) → (∀ b, b ∈ l2 → prog d b ≤ p) →
  ordered d' (l1 ++ st :: l2).
Proof.
  rewrite fmap_app, fmap_cons, NoDup_app, NoDup_cons. intros (_ & H12 & Hn2 & _) Ho Heq Hp H1 H2.
  assert (∀ a, a ∈ l1 → prog d' a = prog d a) as E1.
  { intros a Ha. apply Heq. intros E. eapply H12; [by apply list_elem_of_fmap_2|].
    rewrite E. left. }
  assert (∀ b, b ∈ l2 → prog d' b = prog d b) as E2.
  { intros b Hb. apply Heq. intros E. apply Hn2. rewrite <- E. by apply list_elem_of_fmap_2. }
  apply ordered_app in Ho as (Ho12 & Ho1 & Ho2).
  apply StronglySorted_inv in Ho2 as [Ho2 Hst].
  apply ordered_app. split_and!; [|by eapply ordered_ext|].
  - intros a b Ha Hb. rewrite (E1 a Ha). apply elem_of_cons in Hb as [->|Hb].
    + rewrite Hp. by apply H1.
    + rewrite E2 by done. apply Ho12; [done|by right].
  - constructor; [by eapply ordered_ext|]. apply Forall_forall. intros b Hb.
    rewrite E2, Hp by done. by apply H2.
Qed.
End progress.

(** ** The pipeline stays ordered *)

Section pipeline.
Context {D Mem : Type} {HD : StageDb D} {HL : StageDbLaws D}.
Context (s : StagedSync D Mem) (Hlaws : Forall StageLaws (stages s)) (Hids : NoDup (id <$> stages s)).
Implicit Types (d tx : D) (c : Config D Mem) (st : Stage D Mem).

(** The stage just executed is the last of those done. *)
Definition previous_ok tx (finished : list (Stage D Mem)) (previous : option (StageId * Z)) : Prop :=
  match previous with
  | None => finished = []
  | Some (i, q) => ∃ l a, finished = l ++ [a] ∧ i = id a ∧ q = prog tx a
  end.

Definition minimum_ok tx (finished : list (Stage D Mem)) (minimum : option Z) : Prop :=
  match minimum with None => finished = [] | Some m => ∀ a, a ∈ finished → m ≤ prog tx a end.

Definition phase_ok c : Prop :=
  match phase c with
  | Start _ => True
  | Unwinding tx to rest =>
      ∃ post, stages s = reverse rest ++ post ∧ ordered tx (stages s) ∧ ∀ b, b ∈ post → prog tx b ≤ to
  | UnwindingStage tx to st p rest =>
      ∃ post, stages s = reverse rest ++ st :: post ∧ ordered tx (stages s)
        ∧ (∀ b, b ∈ post → prog tx b ≤ to) ∧ prog tx st = p
  | Running tx previous minimum rest =>
      ∃ finished, stages s = finished ++ rest ∧ ordered tx (stages s)
        ∧ previous_ok tx finished previous ∧ minimum_ok tx finished minimum
  | Invoking tx previous minimum st _ _ rest =>
      ∃ finished, stages s = finished ++ st :: rest ∧ ordered tx (stages s)
        ∧ previous_ok tx finished previous ∧ minimum_ok tx finished minimum
  | Returned => ∃ b, max_block s = Some b ∧ ∀ a, a ∈ stages s → b ≤ prog (committed c) a
  end.

Definition config_ok c : Prop := ordered (committed c) (stages s) ∧ phase_ok c.

Lemma stage_laws l1 st l2 : stages s = l1 ++ st :: l2 → StageLaws st.
Proof.
  intros E. rewrite E in Hlaws. apply Forall_app in Hlaws as [_ H]. by apply Forall_cons in H as [? _].
Qed.

(** The stages of a split pipeline have other names. *)
Lemma split_ids l1 st l2 a :
  stages s = l1 ++ st :: l2 → a ∈ l1 ∨ a ∈ l2 → id a ≠ id st.
Proof.
  intros E Ha. rewrite E, fmap_app, fmap_cons in Hids. apply NoDup_app in Hids as (_ & H12 & Hn).
  apply NoDup_cons in Hn as [Hn _]. intros Hid. destruct Ha as [Ha|Ha].
  - apply (H12 (id a)); [by apply list_elem_of_fmap_2|]. rewrite Hid. left.
  - apply Hn. rewrite <- Hid. by apply list_elem_of_fmap_2.
Qed.

Lemma ordered_split tx l1 st l2 :
  stages s = l1 ++ st :: l2 → ordered tx (stages s) →
  (∀ a, a ∈ l1 → prog tx st ≤ prog tx a) ∧ ∀ b, b ∈ l2 → prog tx b ≤ prog tx st.
Proof.
  intros E Ho. rewrite E in Ho. apply ordered_app in Ho as (H12 & _ & Ho2).
  apply StronglySorted_inv in Ho2 as [_ Hf]. split.
  - intros a Ha. apply H12; [done|left].
  - intros b Hb. by eapply Forall_forall in Hf.
Qed.

(** The stages already executed are at least where the previous one is. *)
Lemma previous_bound tx finished rest previous i q a :
  stages s = finished ++ rest → ordered tx (stages s) → previous_ok tx finished previous →
  previous = Some (i, q) → a ∈ finished → q ≤ prog tx a.
Proof.
  intros E Ho Hp -> Ha. destruct Hp as (l & z & -> & -> & ->).
  apply elem_of_app in Ha as [Ha| ->%list_elem_of_singleton]; [|lia].
  apply (ordered_split tx l z rest); [by rewrite E, <- app_assoc|done|done].
Qed.

Lemma previous_ok_ext tx tx' finished previous :
  (∀ a, a ∈ finished → prog tx' a = prog tx a) →
  previous_ok tx finished previous → previous_ok tx' finished previous.
Proof.
  destruct previous as [[i q]|]; [|done]. intros Heq (l & a & -> & -> & ->).
  exists l, a. split_and!; [done..|]. symmetry. apply Heq, elem_of_app. right. by left.
Qed.

(** The minimum after one more invocation, of a stage at [p]. *)
Lemma lower_minimum_ok tx tx' finished finished' minimum p :
  minimum_ok tx finished minimum → (∀ a, a ∈ finished → prog tx' a = prog tx a) →
  (∀ a, a ∈ finished' → a ∈ finished ∨ prog tx' a = p) →
  minimum_ok tx' finished' (lower_minimum minimum p).
Proof.
  intros Hm Heq Hf a Ha. destruct (Hf a Ha) as [Ha'| ->]; [|by destruct minimum; cbn; lia].
  rewrite (Heq _ Ha'). destruct minimum as [m|]; cbn in *.
  - specialize (Hm a Ha'). lia.
  - rewrite Hm in Ha'. by apply elem_of_nil in Ha'.
Qed.

(** A transaction whose stage has been invoked, or unwound, and saved. *)
Lemma saved_ordered tx tx1 tx2 l1 st l2 p :
  stages s = l1 ++ st :: l2 → ordered tx (stages s) → (∀ i, get_progress i tx1 = get_progress i tx) →
  save_progress (id st) p tx1 = Ok tx2 →
  (∀ a, a ∈ l1 → p ≤ prog tx a) → (∀ b, b ∈ l2 → prog tx b ≤ p) →
  ordered tx2 (stages s) ∧ prog tx2 st = p ∧ ∀ a, a ∈ l1 ∨ a ∈ l2 → prog tx2 a = prog tx a.
Proof.
  intros E Ho H1 H2 Hl1 Hl2.
  assert (∀ a : Stage D Mem, id a ≠ id st → prog tx2 a = prog tx a) as Heq.
  { intros a Ha. rewrite (prog_save_other _ _ _ _ _ H2 Ha). by apply prog_same. }
  pose proof (prog_save _ _ _ _ H2) as Hp. split_and!; [|done|].
  - rewrite E in Ho |- *. eapply ordered_move; try done. by rewrite <- E.
  - intros a Ha. apply Heq. by eapply split_ids.
Qed.

(** An invocation of a stage. *)
Lemma invoking_ok d mem tx previous minimum st start r rest c' :
  config_ok (mkConfig d mem (Invoking tx previous minimum st start r rest)) →
  step s (mkConfig d mem (Invoking tx previous minimum st start r rest)) = Ok c' → config_ok c'.
Proof.
  intros [Hc Hp] H. destruct Hp as (finished & E & Ho & Hprev & Hmin). unfold step in H. cbn in H. res_inv.
  destruct a0 as [[out tx1] mem']. pose proof (stage_laws _ _ _ E) as Hst.
  destruct out as [to|p done]; [by res_inv|]. res_inv. destruct a1 as [d' tx'].
  assert (ordered a0 (stages s) ∧ prog a0 st = p
          ∧ ∀ x, x ∈ finished ∨ x ∈ rest → prog a0 x = prog tx x) as (Ho' & Hp' & Heq).
  { pose proof (execute_progress _ _ _ _ _ _ Hm0) as Hsame.
    apply prog_get in Hm as Hpg. destruct (ordered_split _ _ _ _ E Ho) as [Hl1 Hl2].
    apply execute_bounds in Hm0 as [Hlo Hhi].
    2: { cbn. intros i q ->. destruct Hprev as (l & z & -> & _ & ->). rewrite <- Hpg. apply Hl1.
         apply elem_of_app. right. by left. }
    cbn in Hlo, Hhi.
    apply (saved_ordered tx tx1 a0 _ _ _ p E Ho Hsame Hm1).
    - intros x Hx. destruct previous as [[i q]|]; [|cbn in Hprev; by rewrite Hprev in Hx; apply elem_of_nil in Hx].
      transitivity q; [by eapply Hhi|by eapply previous_bound].
    - intros x Hx. specialize (Hl2 x Hx). lia. }
  assert (ordered d' (stages s) ∧ tx' = a0) as [Hd' ->].
  { destruct (_ <=? _); res_inv; simplify_eq; [|by split].
    apply commit_same in Hm3 as ->. by apply begin_same in Hm4 as ->. }
  injection H as <-. split; [done|]. cbn. destruct done.
  + exists (finished ++ [st]). rewrite <- app_assoc. split_and!; [done|done| |].
    * by exists finished, st.
    * apply (lower_minimum_ok tx _ finished); [done|by intros; apply Heq; left|].
      intros x [Hx| ->%list_elem_of_singleton]%elem_of_app; auto.
  + exists finished. split_and!; [done|done| |].
    * eapply previous_ok_ext; [|done]. intros x Hx. apply Heq. by left.
    * apply (lower_minimum_ok tx _ finished); [done|by intros; apply Heq; left|auto].
Qed.

Lemma step_ok c c' : config_ok c → step s c = Ok c' → config_ok c'.
Proof.
  intros [Hc Hp] H. destruct c as [d mem ph]; unfold phase_ok in Hp; cbn [phase committed] in *.
  destruct ph as [[to|]|tx to [|st rest]|tx to st p rest|tx previous minimum [|st rest]
    |tx previous minimum st start r rest|].
  8: exact (invoking_ok _ _ _ _ _ _ _ _ _ _ (conj Hc Hp) H).
  all: unfold step in H; cbn in H.
  - (* unwinding starts *)
    res_inv. apply begin_same in Hm as ->. split; [done|]. exists [].
    rewrite reverse_involutive, app_nil_r. split_and!; [done..|]. intros b Hb. by apply elem_of_nil in Hb.
  - (* a round starts *)
    res_inv. apply begin_same in Hm as ->. split; [done|]. by exists [].
  - destruct Hp as (post & _ & Ho & _). res_inv. by apply commit_same in Hm as ->.
  - destruct Hp as (post & E & Ho & Hpost). rewrite reverse_cons, <- app_assoc in E. res_inv.
    split; [done|]. exists post. split_and!; [done..|]. by apply prog_get.
  - destruct Hp as (post & E & Ho & Hpost & Hpr). destruct (to <? p) eqn:Hto; res_inv.
    + destruct a as [[p' tx1] mem']. res_inv. zbool. pose proof (stage_laws _ _ _ E) as Hst.
      pose proof (unwind_progress _ _ _ _ _ _ Hm) as Hsame.
      apply unwind_bounds in Hm as Hb; [|done]. cbn in Hb.
      destruct (ordered_split _ _ _ _ E Ho) as [Hl1 Hl2].
      destruct (saved_ordered tx tx1 a _ _ _ p' E Ho Hsame Hm0) as (Ho' & Hp' & Heq).
      { intros x Hx. specialize (Hl1 x Hx). lia. }
      { intros x Hx. specialize (Hpost x Hx). lia. }
      split; [done|]. exists post. split_and!; [done..| |done].
      intros b Hb'. rewrite Heq by by right. by apply Hpost.
    + zbool. split; [done|]. exists (st :: post). split_and!; [done..|].
      intros b [->|Hb]%elem_of_cons; [lia|by apply Hpost].
  - destruct Hp as (finished & E & Ho & _ & Hmin). rewrite app_nil_r in E. subst finished.
    res_inv. apply commit_same in Hm as ->. split; [done|]. cbn.
    destruct (reached_max s minimum) eqn:Hmax; [|done]. unfold reached_max in Hmax.
    destruct minimum as [m|]; [|done]. destruct (max_block s) as [b|] eqn:Hb; [|done]. zbool.
    exists b. split; [done|]. intros a Ha. subst m. by apply Hmin.
  - destruct Hp as (finished & E & Ho & Hprev & Hmin). res_inv. split; [done|]. by exists finished.
  - by res_inv.
Qed.

Lemma reachable_ok d mem c :
  ordered d (stages s) → steps s (run_from d mem) c → config_ok c.
Proof.
  intros Hd Hs. eapply (steps_inv config_ok); [by apply step_ok|exact Hs|by split].
Qed.


(** The loop returns only when a maximal block is configured and every
    stage has committed progress up to it. *)
Theorem run_returns_at_max_block d mem c
  (Hd : ordered d (stages s)) (Hs : steps s (run_from d mem) c) (Hr : phase c = Returned) :
  ∃ b, max_block s = Some b ∧ ∀ a, a ∈ stages s → b ≤ prog (committed c) a.
Proof.
  destruct (reachable_ok d mem c Hd Hs) as [_ Hp]. unfold phase_ok in Hp. by rewrite Hr in Hp.
Qed.
End pipeline.

(** ** The loop makes progress *)

Section liveness.
Context {D Mem : Type} {HD : StageDb D} {HL : StageDbLaws D}.
Context (s : StagedSync D Mem) (Hlaws : Forall StageLaws (stages s)) (Hids : NoDup (id <$> stages s)).
Implicit Types (d tx : D) (mem : Mem) (st a : Stage D Mem).

(** A database whose operations succeed. *)
Class Reliable : Prop := {
  begin_ok d : ∃ tx, begin_mutable d = Ok tx;
  commit_ok tx : ∃ d, commit tx = Ok d;
  get_ok i tx : ∃ p, get_progress i tx = Ok p;
  save_ok i p tx : ∃ tx', save_progress i p tx = Ok tx'
}.

Context {HR : Reliable}.

Lemma get_prog tx st : ∃ p, get_progress (id st) tx = Ok p ∧ default 0 p = prog tx st.
Proof. destruct (get_ok (id st) tx) as [p Hp]. exists p. split; [done|]. by rewrite (prog_get _ _ _ Hp). Qed.

(** A stage's operation, then its progress saved. *)
Lemma save_prog tx tx1 st p :
  (∀ i, get_progress i tx1 = get_progress i tx) →
  ∃ tx2, save_progress (id st) p tx1 = Ok tx2 ∧ prog tx2 st = p
    ∧ ∀ a : Stage D Mem, id a ≠ id st → prog tx2 a = prog tx a.
Proof.
  intros H1. destruct (save_ok (id st) p tx1) as [tx2 H2]. exists tx2.
  split_and!; [done|by eapply prog_save|]. intros a Ha.
  rewrite (prog_save_other _ _ _ _ _ H2 Ha). by apply prog_same.
Qed.

(** An invocation that reports progress, whether or not it commits. *)
Lemma invoked_step tx previous minimum st start r rest d mem o p done tx1 mem1 tx2 :
  get_progress (id st) tx = Ok o →
  execute st (mkStageInput r start previous o) tx mem = Ok (Progress p done, tx1, mem1) →
  save_progress (id st) p tx1 = Ok tx2 →
  ∃ d', step s (mkConfig d mem (Invoking tx previous minimum st start r rest))
    = Ok (mkConfig d' mem1
            (if done : bool then Running tx2 (Some (id st, p)) (lower_minimum minimum p) rest
             else Invoking tx2 previous (lower_minimum minimum p) st start true rest)).
Proof.
  intros Hget He Hs. unfold step. cbn. rewrite Hget. cbn. rewrite He. cbn. rewrite Hs. cbn.
  destruct (_ <=? _); [|by eexists]. destruct (commit_ok tx2) as [d' Hc].
  destruct (begin_ok d') as [tx' Hb]. rewrite Hc. cbn. rewrite Hb. cbn.
  apply commit_same in Hc as ->. apply begin_same in Hb as ->. by eexists.
Qed.

(** The stages that can always unwind. *)
Definition unwinds st : Prop :=
  ∀ input tx mem, unwind_to input < unwind_from input →
    ∃ p tx' mem', unwind st input tx mem = Ok (p, tx', mem').

Lemma stage_unwinds st to rest d : StageLaws st → unwinds st → ∀ n p tx mem,
  prog tx st = p → p - to ≤ Z.of_nat n →
  ∃ tx' mem', steps s (mkConfig d mem (UnwindingStage tx to st p rest))
                      (mkConfig d mem' (Unwinding tx' to rest))
    ∧ prog tx' st = Z.min p to ∧ ∀ a, id a ≠ id st → prog tx' a = prog tx a.
Proof.
  intros Hst Hu. induction n as [|n IH]; intros p tx mem Hp Hn.
  all: destruct (Z.ltb_spec to p) as [Hlt|Hle]; try lia.
  1,3: exists tx, mem; split_and!; [|lia|done]; apply steps_one; unfold step; cbn;
    by destruct (Z.ltb_spec to p); [lia|].
  destruct (Hu (mkUnwindInput p to) tx mem Hlt) as (p' & tx1 & mem1 & H1).
  pose proof (unwind_progress _ _ _ _ _ _ H1) as Hsame.
  apply unwind_bounds in H1 as Hb; [|done]. cbn in Hb.
  destruct (save_prog tx tx1 st p' Hsame) as (tx2 & H2 & Hp2 & Hother).
  destruct (IH p' tx2 mem1 Hp2) as (tx' & mem' & Hs & Hp' & Ho); [lia|].
  exists tx', mem'. split_and!; [|lia|intros a Ha; rewrite Ho by done; by apply Hother].
  eapply steps_step; [|exact Hs]. unfold step. cbn.
  destruct (Z.ltb_spec to p); [|lia]. rewrite H1. cbn. by rewrite H2.
Qed.

Lemma stages_unwind to rest d : Forall StageLaws rest → Forall unwinds rest → NoDup (id <$> rest) →
  ∀ tx mem, ∃ tx' mem',
    steps s (mkConfig d mem (Unwinding tx to rest)) (mkConfig d mem' (Unwinding tx' to []))
    ∧ (∀ a, a ∈ rest → prog tx' a = Z.min (prog tx a) to)
    ∧ ∀ a, id a ∉ (id <$> rest) → prog tx' a = prog tx a.
Proof.
  induction rest as [|st rest IH]; intros Hl Hu Hn tx mem.
  { exists tx, mem. split_and!; [constructor| |done]. intros a Ha. by apply elem_of_nil in Ha. }
  apply Forall_cons in Hl as [Hst Hl]. apply Forall_cons in Hu as [Hust Hu].
  rewrite fmap_cons in Hn. apply NoDup_cons in Hn as [Hnin Hn].
  destruct (get_prog tx st) as (o & Hget & Hp).
  destruct (stage_unwinds st to rest d Hst Hust (Z.to_nat (prog tx st - to)) (prog tx st) tx mem)
    as (tx1 & mem1 & Hs1 & Hp1 & Ho1); [done|lia|].
  destruct (IH Hl Hu Hn tx1 mem1) as (tx' & mem' & Hs & Hin & Hout).
  exists tx', mem'. split_and!.
  - eapply steps_step; [|eapply steps_trans; [exact Hs1|exact Hs]].
    unfold step. cbn. rewrite Hget. cbn. by rewrite Hp.
  - intros a [->|Ha]%elem_of_cons; [by rewrite Hout|]. rewrite Hin by done. rewrite Ho1; [done|].
    intros E. apply Hnin. rewrite <- E. by apply list_elem_of_fmap_2.
  - rewrite fmap_cons. intros a [Ha Ha']%not_elem_of_cons. rewrite Hout by done. by apply Ho1.
Qed.


(** Stages whose every invocation, before block [b] and after a stage at [b],
    moves towards [b], and is done there. *)
Definition diligent (b : Z) st : Prop :=
  ∀ input tx mem, default 0 (stage_progress input) ≤ b →
    (∀ i q, previous_stage input = Some (i, q) → q = b) →
    ∃ p done tx' mem', execute st input tx mem = Ok (Progress p done, tx', mem')
      ∧ p ≤ b ∧ if done : bool then p = b else default 0 (stage_progress input) < p.

(** The minimum so far, of invocations that ended at [b]. *)
Definition minimum_at (b : Z) (minimum : option Z) : Prop := minimum = None ∨ minimum = Some b.

Definition previous_at (b : Z) (previous : option (StageId * Z)) : Prop :=
  ∀ i q, previous = Some (i, q) → q = b.

Lemma stage_executes b st rest : StageLaws st → diligent b st →
  ∀ n tx d mem previous minimum start r,
  previous_at b previous → prog tx st ≤ b → b - prog tx st ≤ Z.of_nat n →
  ∃ d' tx' mem' m,
    steps s (mkConfig d mem (Invoking tx previous minimum st start r rest))
            (mkConfig d' mem' (Running tx' (Some (id st, b)) (Some m) rest))
    ∧ prog tx' st = b ∧ (∀ a, id a ≠ id st → prog tx' a = prog tx a)
    ∧ (prog tx st = b → minimum_at b minimum → m = b).
Proof.
  intros Hst Hd. induction n as [|n IH]; intros tx d mem previous minimum start r Hprev Hle Hn.
  all: destruct (get_prog tx st) as (o & Hget & Hp).
  all: destruct (Hd (mkStageInput r start previous o) tx mem) as (p & fin & tx1 & mem1 & H1 & Hpb & Hend);
    [cbn; lia|done|]; cbn in Hend.
  all: pose proof (execute_progress _ _ _ _ _ _ H1) as Hsame;
    apply execute_bounds in H1 as Hlo; [destruct Hlo as [Hlo _]; cbn in Hlo|cbn; intros i q Hq; specialize (Hprev i q Hq); lia].
  all: destruct (save_prog tx tx1 st p Hsame) as (tx2 & H2 & Hp2 & Hother).
  all: destruct (invoked_step tx previous minimum st start r rest d mem o p fin tx1 mem1 tx2 Hget H1 H2)
    as (d2 & Hstep).
  all: destruct fin; [subst p; exists d2, tx2, mem1; eexists; split_and!;
      [by apply steps_one|done|done|intros _ [->| ->]; cbn; lia]|]. 1: lia.
  destruct (IH tx2 d2 mem1 previous (lower_minimum minimum p) start true Hprev)
    as (d' & tx' & mem' & m & Hs & Hp' & Ho' & Hm); [lia|lia|].
  exists d', tx', mem', m. split_and!; [by eapply steps_step|done| |lia].
  intros a Ha. rewrite Ho' by done. by apply Hother.
Qed.

(** The stages of a round, executed one after the other. *)
Lemma stages_execute b rest : Forall StageLaws rest → Forall (diligent b) rest →
  NoDup (id <$> rest) → ∀ tx d mem previous minimum,
  previous_at b previous → (∀ a, a ∈ rest → prog tx a ≤ b) →
  ∃ d' tx' mem' previous' minimum',
    steps s (mkConfig d mem (Running tx previous minimum rest))
            (mkConfig d' mem' (Running tx' previous' minimum' []))
    ∧ (∀ a, a ∈ rest → prog tx' a = b) ∧ (∀ a, id a ∉ (id <$> rest) → prog tx' a = prog tx a)
    ∧ (rest ≠ [] ∨ minimum ≠ None → minimum' ≠ None)
    ∧ ((∀ a, a ∈ rest → prog tx a = b) → minimum_at b minimum → minimum_at b minimum').
Proof.
  induction rest as [|st rest IH]; intros Hl Hd Hn tx d mem previous minimum Hprev Hle.
  { exists d, tx, mem, previous, minimum. split_and!; [constructor| |done|by intros [?|?]|done].
    intros a Ha. by apply elem_of_nil in Ha. }
  apply Forall_cons in Hl as [Hst Hl]. apply Forall_cons in Hd as [Hdst Hd].
  rewrite fmap_cons in Hn. apply NoDup_cons in Hn as [Hnin Hn].
  assert (∀ a, a ∈ rest → id a ≠ id st) as Hids'.
  { intros a Ha E. apply Hnin. rewrite <- E. by apply list_elem_of_fmap_2. }
  destruct (get_prog tx st) as (o & Hget & _).
  destruct (stage_executes b st rest Hst Hdst (Z.to_nat (b - prog tx st)) tx d mem previous minimum
              o false Hprev) as (d1 & tx1 & mem1 & m & Hs1 & Hp1 & Ho1 & Hm1); [apply Hle; left|lia|].
  destruct (IH Hl Hd Hn tx1 d1 mem1 (Some (id st, b)) (Some m))
    as (d' & tx' & mem' & previous' & minimum' & Hs & Hin & Hout & Hne & Hmin).
  { by intros i q [= _ <-]. }
  { intros a Ha. rewrite Ho1 by auto. apply Hle. by right. }
  exists d', tx', mem', previous', minimum'. split_and!.
  - eapply steps_step; [|eapply steps_trans; [exact Hs1|exact Hs]].
    unfold step. cbn. by rewrite Hget.
  - intros a [->|Ha]%elem_of_cons; [by rewrite Hout|by apply Hin].
  - rewrite fmap_cons. intros a [Ha Ha']%not_elem_of_cons. rewrite Hout by done. by apply Ho1.
  - intros _. apply Hne. by right.
  - intros Hall Hat. apply Hmin.
    + intros a Ha. rewrite Ho1 by auto. apply Hall. by right.
    + right. f_equal. apply Hm1; [apply Hall; left|done].
Qed.

(** One round of the loop, up to its commit. *)
Lemma round_commits b d mem :
  max_block s = Some b → stages s ≠ [] → Forall (diligent b) (stages s) →
  (∀ a, a ∈ stages s → prog d a ≤ b) →
  ∃ d' mem' m,
    steps s (run_from d mem) (mkConfig d' mem' (if m =? b then Returned else Start None))
    ∧ (∀ a, a ∈ stages s → prog d' a = b)
    ∧ ((∀ a, a ∈ stages s → prog d a = b) → m = b).
Proof.
  intros Hmax Hne Hd Hle. destruct (begin_ok d) as [tx Htx]. apply begin_same in Htx as Hsame. subst tx.
  destruct (stages_execute b (stages s) Hlaws Hd Hids d d mem None None)
    as (d1 & tx & mem' & previous & minimum & Hs & Hin & _ & Hsome & Hmin); [done|done|].
  destruct minimum as [m|]; [|by destruct Hsome; [left|]].
  destruct (commit_ok tx) as [d' Hc]. exists d', mem', m. split_and!.
  - eapply steps_step; [unfold step; cbn; rewrite Htx; reflexivity|].
    eapply steps_trans; [exact Hs|]. apply steps_one. unfold step. cbn. rewrite Hc. cbn.
    by rewrite Hmax.
  - apply commit_same in Hc as ->. done.
  - intros Hall. destruct (Hmin Hall) as [|[= ->]]; [by left|done|done].
Qed.

End liveness.

(** ** Examples *)

(** A database that is its progress table. *)
#[local] Instance demo_stage_db : StageDb (gmap StageId Z) := {|
  begin_mutable := fun d => Ok d;
  commit := fun tx => Ok tx;
  get_progress := fun i d => Ok (d !! i);
  save_progress := fun i p d => Ok (<[i := p]> d)
|}.

#[local] Instance demo_stage_db_laws : StageDbLaws (gmap StageId Z).
Proof.
  split; cbn; intros; simplify_eq; [done|done|by rewrite lookup_insert_eq|].
  by rewrite lookup_insert_ne.
Qed.

#[local] Instance demo_reliable : Reliable (D := gmap StageId Z).
Proof. split; cbn; eauto. Qed.

(** A stage that advances by two blocks, up to the stage before it or block
    5, and unwinds by one. *)
Definition demo_stage (name : StageId) : Stage (gmap StageId Z) unit := {|
  id := name;
  execute := fun input tx mem =>
    let from := default 0 (stage_progress input) in
    let target := match previous_stage input with Some (_, q) => q | None => 5 end in
    let p := Z.max from (Z.min target (from + 2)) in
    Ok (Progress p (target <=? p), tx, mem);
  unwind := fun input tx mem => Ok (unwind_from input - 1, tx, mem)
|}.

Lemma demo_stage_laws name : StageLaws (demo_stage name).
Proof.
  split; cbn; intros; simplify_eq; cbn; try done; try lia. split; [lia|].
  intros i q E. rewrite E in *. specialize (H0 i q eq_refl). lia.
Qed.

Lemma demo_stage_diligent name : diligent 5 (demo_stage name).
Proof.
  intros input tx mem Hle Hprev. cbn.
  assert (match previous_stage input with Some (_, q) => q | None => 5 end = 5) as ->.
  { destruct (previous_stage input) as [[i q]|] eqn:E; [by eapply Hprev|done]. }
  do 4 eexists. split; [reflexivity|]. split; [lia|].
  destruct (Z.leb_spec 5 (Z.max (default 0 (stage_progress input))
    (Z.min 5 (default 0 (stage_progress input) + 2)))); lia.
Qed.

Definition demo_sync : StagedSync (gmap StageId Z) unit :=
  push (demo_stage "Execution") (push (demo_stage "Headers")
    (mkStagedSync [] 1 (Some 5) false None)).

Lemma demo_sync_laws : Forall StageLaws (stages demo_sync).
Proof. do 2 (constructor; [apply demo_stage_laws|]). constructor. Qed.

Lemma demo_sync_ids : NoDup (id <$> stages demo_sync).
Proof. apply (bool_decide_unpack _). vm_compute. exact I. Qed.

Definition demo_run_to (n : nat) : Config (gmap StageId Z) unit :=
  match run n demo_sync (run_from ∅ tt) with Ok c => c | _ => run_from ∅ tt end.

Lemma demo_run_steps n : is_ok (run n demo_sync (run_from ∅ tt)) = true →
  steps demo_sync (run_from ∅ tt) (demo_run_to n).
Proof.
  unfold demo_run_to. destruct (run n _ _) eqn:E; [|done|done]. intros _. by eapply run_steps.
Qed.

Lemma demo_ordered : ordered (Mem := unit) ∅ (stages demo_sync).
Proof.
  repeat (constructor; [|repeat (constructor; [by vm_compute|])]); constructor.
Qed.


Lemma run_returns_at_max_block_witness :
  phase (demo_run_to 30) = Returned
  ∧ ∃ b, max_block demo_sync = Some b ∧ ∀ a, a ∈ stages demo_sync → b ≤ prog (committed (demo_run_to 30)) a.
Proof.
  split; [vm_compute; reflexivity|].
  apply (run_returns_at_max_block demo_sync demo_sync_laws demo_sync_ids ∅ tt);
    [exact demo_ordered|apply demo_run_steps; vm_compute; reflexivity|vm_compute; reflexivity].
Defined.


