(* ===== verification/Etl.v ===== *)
(** * Etl

    [src/src/etl/]: the external sort that feeds the database tables. Pairs
    are buffered; a full buffer is sorted and written to a temporary file
    ([DataProvider]); iteration merges the files through a heap. Files are
    byte strings; reading past their end is an error. *)

From stdpp Require Import sorting.
From S2P Require Import Prelude Words Errors BytesOrder.

(** ** Data providers *)

(** An entry, with its key and value encoded. *)
Abbreviation Entry := (bytes * bytes)%type.

Record DataProvider : Type := mkProvider { file : bytes; provider_len : nat }.

Definition write_entry (e : Entry) : bytes :=
  to_be_bytes 8 (Z.of_nat (length e.1)) ++ to_be_bytes 8 (Z.of_nat (length e.2)) ++ e.1 ++ e.2.

Definition new_provider (buffer : list Entry) : DataProvider :=
  {| file := mjoin (write_entry <$> buffer); provider_len := length buffer |}.

Definition read_exact (n : nat) (f : bytes) : result (bytes * bytes) :=
  if (n <=? length f)%nat then Ok (take n f, drop n f)
  else Err (Bail "failed to fill whole buffer").

Definition to_next (p : DataProvider) : result (option Entry * DataProvider) :=
  match provider_len p with
  | O => Ok (None, p)
  | S len =>
      '(buffer_key_length, f) ← read_exact 8 (file p);
      '(buffer_value_length, f) ← read_exact 8 f;
      '(key, f) ← read_exact (Z.to_nat (from_be_bytes buffer_key_length)) f;
      '(value, f) ← read_exact (Z.to_nat (from_be_bytes buffer_value_length)) f;
      Ok (Some (key, value), {| file := f; provider_len := len |})
  end.

(** ** The collector *)

Record Collector : Type := mkCollector {
  buffer_size : Z;
  data_providers : list DataProvider;
  buffer_capacity : Z;
  buffer : list Entry
}.

Definition new_collector (buffer_capacity : Z) : Collector := mkCollector 0 [] buffer_capacity [].

(** [sort_unstable]: equal entries are the same. *)
Definition flush (c : Collector) : Collector :=
  mkCollector 0 (data_providers c ++ [new_provider (merge_sort pair_le (buffer c))])
    (buffer_capacity c) [].

Definition entry_size (e : Entry) : Z := Z.of_nat (length e.1) + Z.of_nat (length e.2).

(** [push], of an encoded entry. *)
Definition push (e : Entry) (c : Collector) : Collector :=
  let c := mkCollector (u64_add (buffer_size c) (entry_size e)) (data_providers c)
             (buffer_capacity c) (buffer c ++ [e]) in
  if buffer_capacity c <? buffer_size c then flush c else c.

(** The heap of the first entries of the providers, with the provider's
    index: [BinaryHeap<Reverse<_>>], a multiset whose least item is popped. *)
Abbreviation item := (Entry * nat)%type.

Definition item_le (a b : item) : Prop :=
  a.1 ≠ b.1 ∧ pair_le a.1 b.1 ∨ a.1 = b.1 ∧ (a.2 ≤ b.2)%nat.

#[global] Instance item_le_dec : RelDecision item_le.
Proof. intros a b. unfold item_le. apply _. Defined.

Fixpoint heap_push (x : item) (heap : list item) : list item :=
  match heap with
  | [] => [x]
  | y :: heap' => if decide (item_le x y) then x :: heap else y :: heap_push x heap'
  end.

(** Anchor each data provider in the heap. *)
Fixpoint anchor (current_id : nat) (ps : list DataProvider) (heap : list item) :
    result (list DataProvider * list item) :=
  match ps with
  | [] => Ok ([], heap)
  | p :: ps =>
      '(next, p) ← to_next p;
      let heap := match next with Some e => heap_push (e, current_id) heap | None => heap end in
      '(ps, heap) ← anchor (S current_id) ps heap;
      Ok (p :: ps, heap)
  end.

(** The entries yielded by the loop over the heap and how it ends; the fuel
    is the number of entries. *)
Fixpoint merge_heap (fuel : nat) (ps : list DataProvider) (heap : list item) :
    list Entry * result unit :=
  match heap with
  | [] => ([], Ok tt)
  | (e, i) :: heap =>
      match fuel with
      | O => ([], Err (Bail "out of fuel"))
      | S fuel =>
          match (p ← unwrap (ps !! i); to_next p) with
          | Ok (Some next, p) =>
              let '(l, r) := merge_heap fuel (<[i := p]> ps) (heap_push (next, i) heap) in (e :: l, r)
          | Ok (None, p) =>
              let '(l, r) := merge_heap fuel (<[i := p]> ps) heap in (e :: l, r)
          | Err x => ([e], Err x)
          | Panic => ([e], Panic)
          end
      end
  end.

(** The iterator, run to its end: the pairs it yields, then its result. *)
Definition iter (c : Collector) : list Entry * result unit :=
  match data_providers c with
  | [] => (merge_sort pair_le (buffer c), Ok tt)
  | _ =>
      let c := if buffer_size c =? 0 then c else flush c in
      let fuel := sum_list (provider_len <$> data_providers c) in
      match anchor 0 (data_providers c) [] with
      | Ok (ps, heap) => merge_heap fuel ps heap
      | Err x => ([], Err x)
      | Panic => ([], Panic)
      end
  end.

(** [TableCollector::load], into a cursor whose [put] is a parameter. *)
Definition load {C : Type} (put : bytes → bytes → C → result C) (c : Collector) (cursor : C) :
    result C :=
  let '(items, r) := iter c in
  cursor ← res_foldl (fun cursor e => put e.1 e.2 cursor) cursor items;
  r;; Ok cursor.

(** ** Files *)

(** What fits a file's records. *)
Definition entry_ok (e : Entry) : Prop :=
  Z.of_nat (length e.1) < 2 ^ 64 ∧ Z.of_nat (length e.2) < 2 ^ 64.

Lemma read_exact_app l f : read_exact (length l) (l ++ f) = Ok (l, f).
Proof.
  unfold read_exact. rewrite length_app, (proj2 (Nat.leb_le _ _)) by lia.
  by rewrite take_app_length, drop_app_length.
Qed.

Lemma read_length n f :
  Z.of_nat n < 2 ^ 64 →
  read_exact 8 (to_be_bytes 8 (Z.of_nat n) ++ f) = Ok (to_be_bytes 8 (Z.of_nat n), f)
  ∧ Z.to_nat (from_be_bytes (to_be_bytes 8 (Z.of_nat n))) = n.
Proof.
  intros Hn. split.
  - apply (read_exact_app (to_be_bytes 8 (Z.of_nat n))).
  - rewrite from_to_be by (change (256 ^ Z.of_nat 8) with (2 ^ 64); lia). apply Nat2Z.id.
Qed.

(** A provider gives back the entries it was made from, one by one. *)
Lemma to_next_new e l :
  entry_ok e → to_next (new_provider (e :: l)) = Ok (Some e, new_provider l).
Proof.
  destruct e as [k v]. intros [Hk Hv]. cbn [fst snd] in Hk, Hv. unfold to_next, new_provider. cbn [provider_len file].
  change (mjoin (write_entry <$> (k, v) :: l)) with (write_entry (k, v) ++ mjoin (write_entry <$> l)).
  cbn [length].
  change (write_entry (k, v)) with (to_be_bytes 8 (Z.of_nat (length k))
    ++ to_be_bytes 8 (Z.of_nat (length v)) ++ k ++ v). rewrite <- !app_assoc.
  destruct (read_length (length k) (to_be_bytes 8 (Z.of_nat (length v)) ++ k ++ v ++
    mjoin (write_entry <$> l)) Hk) as [-> Hk'].
  rewrite ok_bind. destruct (read_length (length v) (k ++ v ++ mjoin (write_entry <$> l)) Hv) as [-> Hv'].
  rewrite ok_bind, Hk', read_exact_app, ok_bind, Hv', read_exact_app. done.
Qed.

(** ** The merge *)

(** What is left of the providers, as lists of entries. *)
Definition provide (ls : list (list Entry)) : list DataProvider := new_provider <$> ls.

#[global] Instance item_le_trans : Transitive item_le.
Proof.
  intros [a i] [b j] [c k]. unfold item_le. cbn.
  intros [[Hab Hab']|[-> Hij]] [[Hbc Hbc']|[-> Hjk]]; [|by left..|right; split; [done|lia]].
  left. split; [|by etrans]. intros ->. apply Hab. by apply (anti_symm pair_le).
Qed.

#[global] Instance item_le_total : Total item_le.
Proof.
  intros [a i] [b j]. unfold item_le. cbn. destruct (decide (a = b)) as [->|Hne].
  - destruct (Nat.le_ge_cases i j); [left|right]; by right.
  - destruct (total pair_le a b); [left|right]; left; auto.
Qed.

Lemma item_le_pair a b : item_le a b → pair_le a.1 b.1.
Proof. intros [[_ H]|[-> _]]; [done|reflexivity]. Qed.

Lemma heap_push_perm x heap : heap_push x heap ≡ₚ x :: heap.
Proof.
  induction heap as [|y heap IH]; cbn; [done|]. destruct (decide _); [done|].
  rewrite IH. apply Permutation_swap.
Qed.

Lemma heap_push_sorted x heap :
  StronglySorted item_le heap → StronglySorted item_le (heap_push x heap).
Proof.
  induction heap as [|y heap IH]; cbn; intros H; [by repeat constructor|].
  apply StronglySorted_cons in H as [Hy H]. destruct (decide (item_le x y)) as [Hxy|Hxy].
  - repeat first [apply StronglySorted_cons; split]; [|done|done]. constructor; [done|].
    eapply Forall_impl; [exact Hy|]. intros z Hz. by etrans.
  - apply StronglySorted_cons. split; [|by apply IH]. rewrite heap_push_perm. constructor; [|done].
    by destruct (total item_le x y).
Qed.

(** The heap holds, for every provider that is not exhausted, an entry below
    all that is left of it, and no other. *)
Record anchored (ls : list (list Entry)) (heap : list item) : Prop := {
  an_sorted : StronglySorted item_le heap;
  an_runs : Forall (StronglySorted pair_le) ls;
  an_below e i : (e, i) ∈ heap → ∃ l, ls !! i = Some l ∧ Forall (pair_le e) l;
  an_head i l : ls !! i = Some l → l ≠ [] → ∃ e, (e, i) ∈ heap
}.

(** The least of the heap is the least of all that is left. *)
Lemma anchored_least ls e i heap :
  anchored ls ((e, i) :: heap) →
  Forall (pair_le e) (fst <$> heap) ∧ Forall (pair_le e) (mjoin ls).
Proof.
  intros [Hs _ Hb Hh]. apply StronglySorted_cons in Hs as [Hmin _].
  assert (∀ x, x ∈ (e, i) :: heap → pair_le e x.1) as Hle.
  { intros x [->|Hx]%elem_of_cons; [reflexivity|]. apply (item_le_pair (e, i)).
    by eapply Forall_forall in Hmin. }
  split.
  - apply Forall_forall. intros x ([x' j] & -> & Hx)%list_elem_of_fmap. apply Hle. by right.
  - apply Forall_forall. intros x (l & Hx & Hl)%list_elem_of_join. 
    apply list_elem_of_lookup in Hl as [j Hj].
    destruct (Hh j l Hj) as [e' He']; [by intros ->; apply elem_of_nil in Hx|].
    destruct (Hb _ _ He') as (l' & Hj' & Hall). simplify_eq.
    etrans; [apply (Hle _ He')|]. by eapply Forall_forall in Hall.
Qed.

(** The next entry of the popped provider takes its place. *)
Lemma anchored_next ls e i heap x l :
  anchored ls ((e, i) :: heap) → ls !! i = Some (x :: l) →
  anchored (<[i := l]> ls) (heap_push (x, i) heap).
Proof.
  intros [Hs Hr Hb Hh] Hi. apply StronglySorted_cons in Hs as [_ Hs].
  assert (StronglySorted pair_le (x :: l)) as Hxl by by eapply Forall_lookup_1 in Hr.
  apply StronglySorted_cons in Hxl as [Hx Hl].
  assert (i < length ls)%nat as Hlen by by eapply lookup_lt_Some.
  split.
  - by apply heap_push_sorted.
  - by apply Forall_insert.
  - intros e' j. rewrite heap_push_perm. intros [[= -> ->]|Hj]%elem_of_cons.
    { exists l. by rewrite list_lookup_insert_eq. }
    destruct (Hb e' j) as (l' & Hj' & Hall); [by right|]. destruct (decide (j = i)) as [->|Hne].
    + exists l. rewrite list_lookup_insert_eq by done. simplify_eq. split; [done|].
      by apply Forall_cons in Hall as [_ ?].
    + exists l'. by rewrite list_lookup_insert_ne.
  - intros j l' Hj Hne. destruct (decide (j = i)) as [->|Hji].
    + exists x. rewrite heap_push_perm. left.
    + rewrite list_lookup_insert_ne in Hj by done. destruct (Hh j l' Hj Hne) as [e' He'].
      exists e'. rewrite heap_push_perm. apply elem_of_cons in He' as [[= -> ->]|He']; [done|by right].
Qed.

(** An exhausted provider leaves the heap. *)
Lemma anchored_end ls e i heap :
  anchored ls ((e, i) :: heap) → ls !! i = Some [] → anchored ls heap.
Proof.
  intros [Hs Hr Hb Hh] Hi. apply StronglySorted_cons in Hs as [_ Hs]. split; [done|done| |].
  - intros e' j Hj. apply Hb. by right.
  - intros j l Hj Hne. destruct (Hh j l Hj Hne) as [e' He']. exists e'.
    apply elem_of_cons in He' as [[= -> ->]|He']; [|done]. by simplify_eq.
Qed.

Lemma mjoin_insert (ls : list (list Entry)) i x l :
  ls !! i = Some (x :: l) → mjoin ls ≡ₚ x :: mjoin (<[i := l]> ls).
Proof.
  revert i. induction ls as [|l' ls IH]; intros [|i] H; try done; cbn in H |- *.
  - by simplify_eq.
  - rewrite (IH i H). symmetry. apply Permutation_middle.
Qed.

Lemma anchored_empty ls : anchored ls [] → mjoin ls = [].
Proof.
  intros [_ _ _ Hh]. destruct (mjoin ls) as [|x l] eqn:E; [done|].
  assert (x ∈ mjoin ls) as (l' & Hx & Hl)%list_elem_of_join by (rewrite E; left).
  apply list_elem_of_lookup in Hl as [i Hi].
  destruct (Hh i l' Hi) as [e He]; [by intros ->; apply elem_of_nil in Hx|].
  by apply elem_of_nil in He.
Qed.

Lemma merge_heap_sorts fuel : ∀ ls heap,
  anchored ls heap → Forall (Forall entry_ok) ls →
  (length heap + length (mjoin ls) ≤ fuel)%nat →
  ∃ out, merge_heap fuel (provide ls) heap = (out, Ok tt)
    ∧ StronglySorted pair_le out ∧ out ≡ₚ (fst <$> heap) ++ mjoin ls.
Proof.
  induction fuel as [|fuel IH]; intros ls [|[e i] heap] Ha Hok Hf; cbn in Hf; try lia.
  1-2: exists []; split_and!; [done|constructor|by rewrite (anchored_empty _ Ha)].
  destruct (anchored_least _ _ _ _ Ha) as [Hheap Hls].
  assert (∀ out, out ≡ₚ (fst <$> heap) ++ mjoin ls → StronglySorted pair_le out →
            StronglySorted pair_le (e :: out) ∧ e :: out ≡ₚ (fst <$> (e, i) :: heap) ++ mjoin ls) as Hend.
  { intros out Hp Hs. split; [|by rewrite Hp]. apply StronglySorted_cons. split; [|done].
    rewrite Hp. by apply Forall_app. }
  destruct (an_below _ _ Ha e i) as (l & Hi & _); [left|].
  assert (provide ls !! i = Some (new_provider l)) as Hp by (unfold provide; by rewrite list_lookup_fmap, Hi).
  cbn [merge_heap]. rewrite Hp. cbn [unwrap]. rewrite ok_bind. destruct l as [|x l].
  - assert (<[i := new_provider []]> (provide ls) = provide ls) as Hsame
      by by apply list_insert_id.
    change (to_next (new_provider [])) with (Ok (E := anyhow) (@None Entry, new_provider [])).
    cbv iota. rewrite Hsame. destruct (IH ls heap) as (out & -> & Hs & Hperm);
      [by eapply anchored_end|done|lia|].
    exists (e :: out). split; [done|]. by apply Hend.
  - assert (Forall entry_ok (x :: l)) as [Hx Hl]%Forall_cons by by eapply Forall_lookup_1 in Hok.
    rewrite to_next_new by done. cbv iota.
    assert (<[i := new_provider l]> (provide ls) = provide (<[i := l]> ls)) as ->
      by (unfold provide; by rewrite list_fmap_insert).
    pose proof (mjoin_insert ls i x l Hi) as Hj.
    destruct (IH (<[i := l]> ls) (heap_push (x, i) heap)) as (out & -> & Hs & Hperm).
    + by apply anchored_next with e.
    + by apply Forall_insert.
    + rewrite (Permutation_length (heap_push_perm _ _)). rewrite (Permutation_length Hj) in Hf.
      cbn in Hf |- *. lia.
    + exists (e :: out). split; [done|]. apply Hend; [|done]. rewrite Hperm, heap_push_perm, Hj.
      cbn. apply Permutation_middle.
Qed.

(** Anchoring takes the first entry of each provider. *)
Lemma anchor_heads ls : ∀ i heap, Forall (Forall entry_ok) ls →
  StronglySorted item_le heap →
  ∃ heap', anchor i (provide ls) heap = Ok (provide (tail <$> ls), heap')
    ∧ StronglySorted item_le heap'
    ∧ (fst <$> heap') ++ mjoin (tail <$> ls) ≡ₚ (fst <$> heap) ++ mjoin ls
    ∧ ∀ e j, (e, j) ∈ heap' ↔ (e, j) ∈ heap ∨ ∃ k l, ls !! k = Some (e :: l) ∧ j = (i + k)%nat.
Proof.
  induction ls as [|l ls IH]; intros i heap Hok Hs.
  { exists heap. split_and!; [done..|]. intros e j. split; [by left|].
    intros [?|(k & l & Hk & _)]; [done|]. by rewrite lookup_nil in Hk. }
  apply Forall_cons in Hok as [Hl Hok]. unfold provide. rewrite !fmap_cons. cbn [anchor].
  destruct l as [|x l].
  - change (to_next (new_provider [])) with (Ok (E := anyhow) (@None Entry, new_provider [])).
    rewrite ok_bind. cbv iota zeta. fold (provide ls).
    destruct (IH (S i) heap Hok Hs) as (heap' & -> & Hs' & Hperm & Hin).
    exists heap'. rewrite ok_bind. split_and!; [done|done|done|]. intros e j. rewrite Hin.
    split; (intros [?|(k & l & Hk & ->)]; [by left|right]).
    + exists (S k), l. split; [done|lia].
    + destruct k as [|k]; [done|]. exists k, l. split; [done|lia].
  - apply Forall_cons in Hl as [Hx Hl]. rewrite to_next_new by done.
    rewrite ok_bind. cbv iota zeta. fold (provide ls).
    destruct (IH (S i) (heap_push (x, i) heap) Hok) as (heap' & -> & Hs' & Hperm & Hin);
      [by apply heap_push_sorted|].
    exists heap'. rewrite ok_bind. split_and!; [done|done| |].
    + trans (l ++ (fst <$> heap') ++ mjoin (tail <$> ls)); [apply Permutation_app_swap_app|].
      rewrite Hperm, heap_push_perm. cbn.
      trans (x :: l ++ (fst <$> heap) ++ mjoin ls); [symmetry; apply Permutation_middle|].
      trans (x :: (fst <$> heap) ++ l ++ mjoin ls); [|apply Permutation_middle].
      constructor. apply Permutation_app_swap_app.
    + intros e j. rewrite Hin, heap_push_perm, elem_of_cons. split.
      * intros [[[= -> ->]|?]|(k & l' & Hk & ->)]; [right|by left|right].
        -- exists 0%nat, l. split; [done|lia].
        -- exists (S k), l'. split; [done|lia].
      * intros [?|([|k] & l' & Hk & ->)]; [by left; right| |].
        -- left. left. cbn in Hk. simplify_eq. f_equal. lia.
        -- right. exists k, l'. split; [done|lia].
Qed.

Lemma anchor_anchored ls :
  Forall (Forall entry_ok) ls → Forall (StronglySorted pair_le) ls →
  ∃ heap, anchor 0 (provide ls) [] = Ok (provide (tail <$> ls), heap)
    ∧ anchored (tail <$> ls) heap ∧ (fst <$> heap) ++ mjoin (tail <$> ls) ≡ₚ mjoin ls.
Proof.
  intros Hok Hr. destruct (anchor_heads ls 0 [] Hok) as (heap & Ha & Hs & Hp & Hin); [constructor|].
  exists heap. split_and!; [done| |done]. split; [done| | |].
  - apply Forall_fmap. eapply Forall_impl; [exact Hr|]. intros [|x l] H; [done|].
    by apply StronglySorted_cons in H as [_ ?].
  - intros e i [Hn|(k & l & Hk & ->)]%Hin; [by apply elem_of_nil in Hn|].
    exists l. change (0 + k)%nat with k. rewrite list_lookup_fmap, Hk. split; [done|].
    eapply Forall_lookup_1 in Hr; [|exact Hk]. by apply StronglySorted_cons in Hr as [? _].
  - intros i l Hi Hne. rewrite list_lookup_fmap in Hi.
    destruct (ls !! i) as [[|x l']|] eqn:E; cbn in Hi; simplify_eq. exists x.
    apply Hin. right. exists i, l. by split.
Qed.

(** ** The collector *)

(** The bytes of some entries. *)
Definition total_size (l : list Entry) : Z := foldr Z.add 0 (entry_size <$> l).

(** The runs written so far and the buffer, for the entries pushed. *)
Definition holds (pushed : list Entry) (c : Collector) : Prop :=
  ∃ runs, data_providers c = provide runs ∧ Forall (StronglySorted pair_le) runs
    ∧ mjoin runs ++ buffer c ≡ₚ pushed
    ∧ buffer_size c = total_size (buffer c).

Definition push_all (l : list Entry) (c : Collector) : Collector := foldl (fun c e => push e c) c l.

Lemma total_size_app l1 l2 : total_size (l1 ++ l2) = total_size l1 + total_size l2.
Proof. unfold total_size. induction l1 as [|e l1 IH]; cbn in *; [lia|]. rewrite IH. lia. Qed.

Lemma total_size_nonneg l : 0 ≤ total_size l.
Proof.
  unfold total_size. induction l as [|e l IH]; cbn; [lia|]. unfold entry_size at 1. lia.
Qed.

#[global] Instance total_size_perm : Proper ((≡ₚ) ==> (=)) total_size.
Proof. unfold total_size. induction 1; cbn in *; lia. Qed.

Lemma flush_holds pushed c : holds pushed c → holds pushed (flush c).
Proof.
  intros (runs & Hd & Hr & Hp & Hs). exists (runs ++ [merge_sort pair_le (buffer c)]).
  split_and!; [|by apply Forall_app; split; [|repeat constructor; apply StronglySorted_merge_sort; apply _]| |done].
  - cbn. unfold provide. by rewrite Hd, fmap_app.
  - cbn. rewrite app_nil_r, join_app. cbn. rewrite app_nil_r.
    by rewrite merge_sort_Permutation.
Qed.

Lemma push_holds e pushed c :
  holds pushed c → total_size (pushed ++ [e]) < 2 ^ 64 →
  holds (pushed ++ [e]) (push e c).
Proof.
  intros (runs & Hd & Hr & Hp & Hs) Hsum.
  assert (total_size (buffer c ++ [e]) < 2 ^ 64) as Hsum'.
  { rewrite <- Hp, <- app_assoc, total_size_app in Hsum. pose proof (total_size_nonneg (mjoin runs)). lia. }
  pose proof (total_size_nonneg (buffer c ++ [e])) as H0. rewrite total_size_app in Hsum', H0.
  assert (holds (pushed ++ [e]) (mkCollector (u64_add (buffer_size c) (entry_size e))
            (data_providers c) (buffer_capacity c) (buffer c ++ [e]))) as Hnew.
  { exists runs. split_and!; [done|done|cbn; by rewrite app_assoc, Hp|]. cbn [buffer buffer_size].
    rewrite total_size_app, Hs. cbn in *. rewrite u64_add_small by word_lia. lia. }
  unfold push. cbn [buffer_capacity buffer_size]. destruct (_ <? _); [by apply flush_holds|done].
Qed.

Lemma push_all_holds l : ∀ pushed c,
  holds pushed c → total_size (pushed ++ l) < 2 ^ 64 →
  holds (pushed ++ l) (push_all l c).
Proof.
  induction l as [|e l IH]; intros pushed c Hc Hsum; [by rewrite app_nil_r|].
  cbn. rewrite cons_middle, app_assoc. rewrite cons_middle, app_assoc in Hsum.
  apply IH; [|done]. apply push_holds; [done|].
  rewrite total_size_app in Hsum. pose proof (total_size_nonneg l). lia.
Qed.

Lemma new_collector_holds cap : holds [] (new_collector cap).
Proof. exists []. by split_and!. Qed.

(** Two sorted lists of the same entries are the same. *)
Lemma sorts_to out l : StronglySorted pair_le out → out ≡ₚ l → out = merge_sort pair_le l.
Proof.
  intros Hs Hp. apply (StronglySorted_unique pair_le); [done| |].
  - apply StronglySorted_merge_sort; apply _.
  - by rewrite merge_sort_Permutation.
Qed.

Lemma runs_iter runs l : Forall entry_ok l → Forall (StronglySorted pair_le) runs → mjoin runs ≡ₚ l →
  ∃ ps heap, anchor 0 (provide runs) [] = Ok (ps, heap)
    ∧ merge_heap (sum_list (provider_len <$> provide runs)) ps heap = (merge_sort pair_le l, Ok tt).
Proof.
  intros Hok Hr Hp. assert (Forall (Forall entry_ok) runs) as Hoks.
  { apply Forall_forall. intros run Hrun. apply Forall_forall. intros e He.
    eapply Forall_forall; [exact Hok|]. rewrite <- Hp. apply list_elem_of_join. eauto. }
  destruct (anchor_anchored runs Hoks Hr) as (heap & Ha & Han & Hperm).
  destruct (merge_heap_sorts (sum_list (provider_len <$> provide runs)) (tail <$> runs) heap)
    as (out & Hout & Hs & Ho); [done| | |].
  - apply Forall_fmap. eapply Forall_impl; [exact Hoks|]. intros [|x run] H; [done|].
    by apply Forall_cons in H as [_ ?].
  - apply Permutation_length in Hperm. rewrite length_app, length_fmap in Hperm. rewrite Hperm.
    clear. induction runs as [|run runs IH]; [done|]. unfold provide in *. rewrite !fmap_cons.
    change (mjoin (run :: runs)) with (run ++ mjoin runs). rewrite length_app. cbn. lia.
  - exists (provide (tail <$> runs)), heap. split; [done|]. rewrite Hout. f_equal.
    apply sorts_to; [done|]. by rewrite Ho, Hperm.
Qed.

Lemma load_pushed cap l
  (Hok : Forall entry_ok l) (Hpos : Forall (fun e => 0 < entry_size e) l)
  (Hsum : total_size l < 2 ^ 64) :
  iter (push_all l (new_collector cap)) = (merge_sort pair_le l, Ok tt)
  ∧ ∀ (C : Type) (put : bytes → bytes → C → result C) cursor,
      load put (push_all l (new_collector cap)) cursor
      = res_foldl (fun cursor e => put e.1 e.2 cursor) cursor (merge_sort pair_le l).
Proof.
  enough (iter (push_all l (new_collector cap)) = (merge_sort pair_le l, Ok tt)) as Hi.
  { split; [done|]. intros C put cursor. unfold load. rewrite Hi.
    unfold mbind, res_mbind, res_bind. by destruct (res_foldl _ _ _). }
  destruct (push_all_holds l [] _ (new_collector_holds cap)) as (runs & Hd & Hr & Hp & Hs); [done|].
  cbn [app] in Hp. unfold iter. set (c := push_all l (new_collector cap)) in *. clearbody c.
  destruct runs as [|run runs].
  - rewrite Hd. cbn in Hp. f_equal. apply sorts_to; [apply StronglySorted_merge_sort; apply _|].
    by rewrite merge_sort_Permutation.
  - destruct (data_providers c) eqn:Hdc; [done|]. rewrite <- Hdc in Hd. clear Hdc.
    destruct (Z.eqb_spec (buffer_size c) 0) as [Hz|_].
    + assert (buffer c = []) as Hb.
      { destruct (buffer c) as [|e b] eqn:Hb; [done|]. rewrite Hs in Hz.
        change (total_size (e :: b)) with (entry_size e + total_size b) in Hz.
        pose proof (total_size_nonneg b). assert (e ∈ l) as He by (rewrite <- Hp; set_solver).
        eapply Forall_forall in Hpos; [|exact He]. cbv beta in Hpos. lia. }
      rewrite Hb, app_nil_r in Hp. rewrite Hd.
      by destruct (runs_iter (run :: runs) l Hok Hr Hp) as (ps & heap & -> & ->).
    + destruct (flush_holds l c) as (runs' & -> & Hr' & Hp' & _);
        [by exists (run :: runs)|]. cbn [flush buffer] in Hp'. rewrite app_nil_r in Hp'.
      by destruct (runs_iter runs' l Hok Hr' Hp') as (ps & heap & -> & ->).
Qed.


(** A pair of an empty key and an empty value that is pushed after a flush
    has no size, so the last flush skips it: it is lost. *)
Lemma empty_pair_lost :
  iter (push_all [([1], [2]); ([], [])] (new_collector 0)) = ([([1], [2])], Ok tt).
Proof. vm_compute. reflexivity. Qed.

Definition demo_entries : list Entry :=
  [([3], [1]); ([1; 2], [9]); ([1], [7; 7]); ([2], []); ([1], [0])].

