(* ===== verification/TableCodecs.v ===== *)
(** * TableCodecs

    [src/src/kv/tables.rs]: how keys and values are written in the database.
    A table object is a pair of an encoder and a decoder; each is a value
    here, since many objects share the type of integers. The formats of the
    serialisation libraries (SCALE, RON, croaring) are not modelled. *)

From stdpp Require Import pretty.
From S2P Require Import Prelude Words Errors Account BytesOrder.

(** ** Table objects *)

Record TableObject (A : Type) : Type := mkObjectCodec {
  encode : A → bytes;
  decode : bytes → result A
}.
Arguments mkObjectCodec {A} encode decode.
Arguments encode {A} t a.
Arguments decode {A} t b.

Definition InvalidLength (expected got : nat) : anyhow :=
  Bail ("Invalid length: " +:+ pretty (N.of_nat expected) +:+ " != " +:+ pretty (N.of_nat got)).
Definition TooShort (minimum got : nat) : anyhow :=
  Bail ("Too short: " +:+ pretty (N.of_nat got) +:+ " < " +:+ pretty (N.of_nat minimum)).
Definition TooLong (maximum got : nat) : anyhow :=
  Bail ("Too long: " +:+ pretty (N.of_nat got) +:+ " > " +:+ pretty (N.of_nat maximum)).

Definition BLOCK_NUMBER_LENGTH : nat := 8.

(** [Vec<u8>] and [Bytes]. *)
Definition vec_u8 : TableObject bytes := mkObjectCodec id Ok.

(** [VariableVec<LEN>]: an array vector of at most [len] bytes. *)
Definition variable_vec (len : nat) : TableObject bytes :=
  mkObjectCodec id (fun b =>
    if (length b <=? len)%nat then Ok b else Err (Bail "insufficient capacity")).

(** An integer of [len] bytes, big-endian: [u64_table_object!] with [len = 8]
    ([u64], [BlockNumber], [TxIndex]), [Address], [H256]. *)
Definition fixed (len : nat) : TableObject Z :=
  mkObjectCodec (to_be_bytes len) (fun b =>
    if (length b =? len)%nat then Ok (from_be_bytes b) else Err (InvalidLength len (length b))).

Definition u64_object : TableObject Z := fixed BLOCK_NUMBER_LENGTH.
Definition address_object : TableObject Z := fixed ADDRESS_LENGTH.
Definition h256_object : TableObject Z := fixed KECCAK_LENGTH.

(** [TruncateStart<T>] of an object of [len] bytes. *)
Definition truncate_start {A} (len : nat) (t : TableObject A) : TableObject A :=
  mkObjectCodec (fun a => zeroless_view (encode t a)) (fun b =>
    if (len <? length b)%nat then Err (TooLong len (length b))
    else decode t (replicate (len - length b) 0 ++ b)).

(** [Vec<Address>]. *)
Fixpoint decode_addresses (count : nat) (b : bytes) : result (list Z) :=
  match count with
  | O => Ok []
  | S count =>
      a ← decode address_object (take ADDRESS_LENGTH b);
      l ← decode_addresses count (drop ADDRESS_LENGTH b);
      Ok (a :: l)
  end.

Definition addresses_object : TableObject (list Z) :=
  mkObjectCodec (fun l => mjoin (encode address_object <$> l)) (fun b =>
    if negb (length b mod ADDRESS_LENGTH =? 0)%nat
    then Err (Bail "Slice len should be divisible by 20")
    else decode_addresses (length b / ADDRESS_LENGTH) b).

(** [U256]: without its leading zeros. *)
Definition u256_object : TableObject Z :=
  mkObjectCodec (fun v => zeroless_view (to_be_bytes KECCAK_LENGTH v)) (fun b =>
    if (KECCAK_LENGTH <? length b)%nat then Err (TooLong KECCAK_LENGTH (length b))
    else Ok (from_be_bytes (replicate (KECCAK_LENGTH - length b) 0 ++ b))).

(** [(H256, U256)]. *)
Definition slot_object : TableObject (Z * Z) :=
  mkObjectCodec (fun '(location, value) => encode h256_object location ++ encode u256_object value)
    (fun b =>
       if (KECCAK_LENGTH + KECCAK_LENGTH <? length b)%nat
       then Err (TooLong (KECCAK_LENGTH + KECCAK_LENGTH) (length b))
       else if (length b <? KECCAK_LENGTH)%nat then Err (TooShort KECCAK_LENGTH (length b))
       else
         location ← decode h256_object (take KECCAK_LENGTH b);
         value ← decode u256_object (drop KECCAK_LENGTH b);
         Ok (location, value)).

(** [BitmapKey<K>], for an inner key of [len] bytes. *)
Definition bitmap_key_object {K} (len : nat) (k : TableObject K) : TableObject (K * Z) :=
  mkObjectCodec (fun '(inner, block_number) => encode k inner ++ encode u64_object block_number)
    (fun b =>
       if negb (length b =? len + BLOCK_NUMBER_LENGTH)%nat
       then Err (InvalidLength (len + BLOCK_NUMBER_LENGTH) (length b))
       else
         inner ← decode k (take len b);
         block_number ← decode u64_object (drop len b);
         Ok (inner, block_number)).

(** The inner key [(Address, H256)]; it is never decoded by itself. *)
Definition address_slot_object : TableObject (Z * Z) :=
  mkObjectCodec (fun '(a, h) => encode address_object a ++ encode h256_object h)
    (fun b =>
       a ← decode address_object (take ADDRESS_LENGTH b);
       h ← decode h256_object (drop ADDRESS_LENGTH b);
       Ok (a, h)).

(** Pairs of objects of fixed lengths ([HeaderKey], the keys of logs); the
    decoders of the components are unwrapped. *)
Definition pair_object {A B} (a_len b_len : nat) (a : TableObject A) (b : TableObject B) :
    TableObject (A * B) :=
  mkObjectCodec (fun '(x, y) => encode a x ++ encode b y)
    (fun v =>
       if negb (length v =? a_len + b_len)%nat
       then Err (Bail ("Invalid len: " +:+ pretty (N.of_nat (length v)) +:+ " != "
                   +:+ pretty (N.of_nat a_len) +:+ " + " +:+ pretty (N.of_nat b_len)))
       else
         match decode a (take a_len v) with
         | Ok x => match decode b (drop a_len v) with Ok y => Ok (x, y) | _ => Panic end
         | _ => Panic
         end).

(** [HeaderKey]. *)
Definition header_key_object : TableObject (Z * Z) :=
  pair_object BLOCK_NUMBER_LENGTH KECCAK_LENGTH u64_object h256_object.

(** [Account]; its encoder does not fail (its buffer is large enough). *)
Definition account_object : TableObject Account :=
  mkObjectCodec (fun a => match encode_for_storage a with Ok enc => enc | _ => [] end)
    (fun b => a ← decode_for_storage b; ok_or (Bail "cannot be empty") a).

(** [AccountChange]. *)
Definition account_change_object : TableObject (Z * option Account) :=
  mkObjectCodec (fun '(address, account) =>
      encode address_object address
      ++ match account with Some a => encode account_object a | None => [] end)
    (fun b =>
       if (length b <? ADDRESS_LENGTH)%nat then Err (TooShort ADDRESS_LENGTH (length b))
       else
         address ← decode address_object (take ADDRESS_LENGTH b);
         account ← (if (ADDRESS_LENGTH <? length b)%nat
                    then a ← decode account_object (drop ADDRESS_LENGTH b); Ok (Some a)
                    else Ok None);
         Ok (address, account)).

(** [StorageChangeKey]. *)
Definition storage_change_key_object : TableObject (Z * Z) :=
  mkObjectCodec (fun '(block_number, address) =>
      encode u64_object block_number ++ encode address_object address)
    (fun b =>
       if negb (length b =? BLOCK_NUMBER_LENGTH + ADDRESS_LENGTH)%nat
       then Err (InvalidLength (BLOCK_NUMBER_LENGTH + ADDRESS_LENGTH) (length b))
       else
         block_number ← decode u64_object (take BLOCK_NUMBER_LENGTH b);
         address ← decode address_object (drop BLOCK_NUMBER_LENGTH b);
         Ok (block_number, address)).

(** [StorageChange]. *)
Definition storage_change_object : TableObject (Z * Z) :=
  mkObjectCodec (fun '(location, value) => encode h256_object location ++ encode u256_object value)
    (fun b =>
       if (length b <? KECCAK_LENGTH)%nat then Err (TooShort KECCAK_LENGTH (length b))
       else
         location ← decode h256_object (take KECCAK_LENGTH b);
         value ← decode u256_object (drop KECCAK_LENGTH b);
         Ok (location, value)).

(** [CallTraceSetEntry], with its bit field of two flags. *)
Record CallTraceSetEntry : Type := mkTraceEntry {
  trace_address : Z;
  trace_from : bool;
  trace_to : bool
}.

Definition call_trace_object : TableObject CallTraceSetEntry :=
  mkObjectCodec (fun e =>
      encode address_object (trace_address e)
      ++ [Z.lor (Z.b2z (trace_from e)) (Z.shiftl (Z.b2z (trace_to e)) 1)])
    (fun b =>
       if negb (length b =? ADDRESS_LENGTH + 1)%nat
       then Err (InvalidLength (ADDRESS_LENGTH + 1) (length b))
       else
         let field_set := nth ADDRESS_LENGTH b 0 in
         address ← decode address_object (take ADDRESS_LENGTH b);
         Ok (mkTraceEntry address (Z.testbit field_set 0) (Z.testbit field_set 1))).

(** ** Round trips *)

(** An object reads back the values of [wf] it writes; its encodings have
    one length. *)
Class RoundTrip {A} (t : TableObject A) (wf : A → Prop) : Prop :=
  roundtrip a : wf a → decode t (encode t a) = Ok a.

Class FixedLength {A} (t : TableObject A) (len : nat) : Prop :=
  fixed_length a : length (encode t a) = len.

#[export] Hint Mode RoundTrip + + - : typeclass_instances.

(** A value in a field of [len] bytes. *)
Definition fits (len : nat) (x : Z) : Prop := 0 ≤ x < 256 ^ Z.of_nat len.

Definition both {A B} (P : A → Prop) (Q : B → Prop) (x : A * B) : Prop := P x.1 ∧ Q x.2.

#[global] Instance fixed_roundtrip len : RoundTrip (fixed len) (fits len).
Proof.
  intros x Hx. unfold fixed. cbn [encode decode].
  by rewrite length_to_be_bytes, Nat.eqb_refl, from_to_be.
Qed.

#[global] Instance fixed_fixed len : FixedLength (fixed len) len.
Proof. intros x. apply length_to_be_bytes. Qed.

#[global] Instance vec_u8_roundtrip : RoundTrip vec_u8 (fun _ => True).
Proof. done. Qed.

#[global] Instance variable_vec_roundtrip len :
  RoundTrip (variable_vec len) (fun b => (length b ≤ len)%nat).
Proof. intros b Hb. unfold variable_vec. cbn. by rewrite (proj2 (Nat.leb_le _ _)). Qed.

(** Padding back what was stripped. *)
Lemma pad_zeroless (l : bytes) :
  replicate (length l - length (zeroless_view l)) 0 ++ zeroless_view l = l.
Proof.
  induction l as [|b l IH]; [done|]. cbn [zeroless_view]. destruct (Z.eqb_spec b 0) as [->|_].
  - pose proof (zeroless_length l) as Hl. cbn [length]. rewrite Nat.sub_succ_l by done.
    cbn [replicate app]. by rewrite IH.
  - by rewrite Nat.sub_diag.
Qed.

#[global] Instance truncate_start_roundtrip {A} len (t : TableObject A) wf
  {HF : FixedLength t len} {HT : RoundTrip t wf} : RoundTrip (truncate_start len t) wf.
Proof.
  intros a Ha. unfold truncate_start. cbn [encode decode].
  pose proof (fixed_length (t := t) a) as Hl. pose proof (zeroless_length (encode t a)) as Hz.
  rewrite (proj2 (Nat.ltb_ge _ _)) by lia. rewrite <- Hl at 1. rewrite pad_zeroless. by apply roundtrip.
Qed.

#[global] Instance u256_roundtrip : RoundTrip u256_object (fits KECCAK_LENGTH).
Proof.
  intros v Hv. unfold u256_object. cbn [encode decode].
  pose proof (length_to_be_bytes KECCAK_LENGTH v) as Hl.
  pose proof (zeroless_length (to_be_bytes KECCAK_LENGTH v)) as Hz.
  rewrite (proj2 (Nat.ltb_ge _ _)) by lia. rewrite <- Hl at 1. by rewrite pad_zeroless, from_to_be.
Qed.

Lemma u256_length v : (length (encode u256_object v) ≤ KECCAK_LENGTH)%nat.
Proof.
  cbn [encode u256_object]. etrans; [apply zeroless_length|]. by rewrite length_to_be_bytes.
Qed.

(** Splitting what was appended after a part of known length. *)
Lemma take_encoded {A} (t : TableObject A) len {HF : FixedLength t len} a (rest : bytes) :
  take len (encode t a ++ rest) = encode t a ∧ drop len (encode t a ++ rest) = rest.
Proof. pose proof (fixed_length (t := t) a) as <-. by rewrite take_app_length, drop_app_length. Qed.

(** Decode a concatenation, part by part. *)
Ltac split_parts := repeat match goal with
  | |- context [take ?n (encode ?t ?a ++ ?r)] => rewrite (proj1 (take_encoded t n a r))
  | |- context [drop ?n (encode ?t ?a ++ ?r)] => rewrite (proj2 (take_encoded t n a r))
  | |- context [decode ?t (encode ?t ?a)] => rewrite (roundtrip (t := t) a) by assumption
  | |- context [Ok _ ≫= _] => rewrite ok_bind
  end; try done.

#[global] Instance pair_roundtrip {A B} la lb (a : TableObject A) (b : TableObject B) P Q
  {Fa : FixedLength a la} {Fb : FixedLength b lb} {Ra : RoundTrip a P} {Rb : RoundTrip b Q} :
  RoundTrip (pair_object la lb a b) (both P Q).
Proof.
  intros [x y] [Hx Hy]. cbn [fst snd] in *. unfold pair_object. cbn [decode encode].
  rewrite length_app, !fixed_length, Nat.eqb_refl. cbn [negb]. split_parts.
Qed.

#[global] Instance bitmap_key_roundtrip {K} len (k : TableObject K) P
  {Fk : FixedLength k len} {Rk : RoundTrip k P} :
  RoundTrip (bitmap_key_object len k) (both P (fits BLOCK_NUMBER_LENGTH)).
Proof.
  intros [x y] [Hx Hy]. cbn [fst snd] in *. unfold bitmap_key_object. cbn [decode encode].
  rewrite length_app, (fixed_length (t := k)), (fixed_length (t := u64_object)), Nat.eqb_refl.
  cbn [negb]. split_parts.
Qed.

#[global] Instance address_slot_roundtrip :
  RoundTrip address_slot_object (both (fits ADDRESS_LENGTH) (fits KECCAK_LENGTH)).
Proof.
  intros [x y] [Hx Hy]. cbn [fst snd] in *. unfold address_slot_object. cbn [decode encode]. split_parts.
Qed.

#[global] Instance address_slot_fixed :
  FixedLength address_slot_object (ADDRESS_LENGTH + KECCAK_LENGTH).
Proof.
  intros [x y]. cbn [encode address_slot_object]. by rewrite length_app, !fixed_length.
Qed.

#[global] Instance slot_roundtrip :
  RoundTrip slot_object (both (fits KECCAK_LENGTH) (fits KECCAK_LENGTH)).
Proof.
  intros [x y] [Hx Hy]. cbn [fst snd] in *. unfold slot_object. cbn [decode encode].
  pose proof (u256_length y). rewrite length_app, (fixed_length (t := h256_object)).
  rewrite (proj2 (Nat.ltb_ge _ _)), (proj2 (Nat.ltb_ge _ _)) by lia. split_parts.
Qed.

#[global] Instance storage_change_roundtrip :
  RoundTrip storage_change_object (both (fits KECCAK_LENGTH) (fits KECCAK_LENGTH)).
Proof.
  intros [x y] [Hx Hy]. cbn [fst snd] in *. unfold storage_change_object. cbn [decode encode].
  rewrite length_app, (fixed_length (t := h256_object)).
  rewrite (proj2 (Nat.ltb_ge _ _)) by lia. split_parts.
Qed.

#[global] Instance storage_change_key_roundtrip :
  RoundTrip storage_change_key_object (both (fits BLOCK_NUMBER_LENGTH) (fits ADDRESS_LENGTH)).
Proof.
  intros [x y] [Hx Hy]. cbn [fst snd] in *. unfold storage_change_key_object. cbn [decode encode].
  rewrite length_app, !fixed_length, Nat.eqb_refl. cbn [negb]. split_parts.
Qed.

#[global] Instance account_object_roundtrip : RoundTrip account_object account_wf.
Proof.
  intros a Ha. unfold account_object. cbn [decode encode].
  by rewrite encode_for_storage_parts, decode_parts.
Qed.

#[global] Instance account_change_roundtrip :
  RoundTrip account_change_object (both (fits ADDRESS_LENGTH) (from_option account_wf True)).
Proof.
  intros [x [a|]] [Hx Ha]; cbn [fst snd from_option] in *; unfold account_change_object;
    cbn [decode encode].
  - rewrite length_app, (fixed_length (t := address_object)).
    assert (0 < length (encode account_object a))%nat.
    { cbn [encode account_object]. rewrite encode_for_storage_parts. cbn. lia. }
    rewrite (proj2 (Nat.ltb_ge _ _)), (proj2 (Nat.ltb_lt _ _)) by lia. split_parts.
  - rewrite length_app, (fixed_length (t := address_object)). cbn [length].
    rewrite (proj2 (Nat.ltb_ge _ _)), (proj2 (Nat.ltb_ge _ _)) by lia. split_parts.
Qed.

#[global] Instance call_trace_roundtrip :
  RoundTrip call_trace_object (fun e => fits ADDRESS_LENGTH (trace_address e)).
Proof.
  intros [x f g] Hx. cbn [trace_address] in Hx. unfold call_trace_object.
  cbn [decode encode trace_address trace_from trace_to].
  rewrite length_app, (fixed_length (t := address_object)). cbn [length Nat.eqb Nat.add negb].
  change (negb (_ =? _)%nat) with false. cbv iota.
  rewrite app_nth2 by (rewrite (fixed_length (t := address_object)); lia).
  rewrite (fixed_length (t := address_object)), Nat.sub_diag. split_parts. by destruct f, g.
Qed.

#[global] Instance addresses_roundtrip : RoundTrip addresses_object (Forall (fits ADDRESS_LENGTH)).
Proof.
  intros l Hl. unfold addresses_object. cbn [decode encode].
  assert (length (mjoin (encode address_object <$> l)) = length l * ADDRESS_LENGTH)%nat as Hlen.
  { clear. induction l as [|x l IH]; [done|]. 
    change (mjoin (encode address_object <$> x :: l))
      with (encode address_object x ++ mjoin (encode address_object <$> l)).
    rewrite length_app, IH, (fixed_length (t := address_object)). cbn [length]. lia. }
  rewrite Hlen, Nat.Div0.mod_mul, Nat.div_mul by done. cbn [Nat.eqb negb]. clear Hlen.
  induction Hl as [|x l Hx Hl IH]; [done|]. cbn [length decode_addresses].
  change (mjoin (encode address_object <$> x :: l))
    with (encode address_object x ++ mjoin (encode address_object <$> l)).
  split_parts. by rewrite IH.
Qed.

(** C27. Every object of the tables reads back what it writes: numbers,
    addresses, hashes, integers stripped of their leading zeros, slots, the
    keys of the indices, accounts and the change sets of accounts and
    storage, traces and lists of senders. *)
Theorem table_objects_roundtrip :
  RoundTrip u64_object (fits BLOCK_NUMBER_LENGTH)
  ∧ RoundTrip (truncate_start BLOCK_NUMBER_LENGTH u64_object) (fits BLOCK_NUMBER_LENGTH)
  ∧ RoundTrip address_object (fits ADDRESS_LENGTH)
  ∧ RoundTrip h256_object (fits KECCAK_LENGTH)
  ∧ RoundTrip u256_object (fits KECCAK_LENGTH)
  ∧ RoundTrip slot_object (both (fits KECCAK_LENGTH) (fits KECCAK_LENGTH))
  ∧ RoundTrip header_key_object (both (fits BLOCK_NUMBER_LENGTH) (fits KECCAK_LENGTH))
  ∧ RoundTrip (bitmap_key_object ADDRESS_LENGTH address_object)
      (both (fits ADDRESS_LENGTH) (fits BLOCK_NUMBER_LENGTH))
  ∧ RoundTrip (bitmap_key_object (ADDRESS_LENGTH + KECCAK_LENGTH) address_slot_object)
      (both (both (fits ADDRESS_LENGTH) (fits KECCAK_LENGTH)) (fits BLOCK_NUMBER_LENGTH))
  ∧ RoundTrip account_object account_wf
  ∧ RoundTrip account_change_object (both (fits ADDRESS_LENGTH) (from_option account_wf True))
  ∧ RoundTrip storage_change_key_object (both (fits BLOCK_NUMBER_LENGTH) (fits ADDRESS_LENGTH))
  ∧ RoundTrip storage_change_object (both (fits KECCAK_LENGTH) (fits KECCAK_LENGTH))
  ∧ RoundTrip call_trace_object (fun e => fits ADDRESS_LENGTH (trace_address e))
  ∧ RoundTrip addresses_object (Forall (fits ADDRESS_LENGTH)).
Proof. split_and!; apply _. Qed.

(** ** The order of keys *)

(** The bytes of a key compare as its value: a table is in the order of its
    keys, which cursors and range scans rely on. *)
Class Ordered {A} (t : TableObject A) (wf : A → Prop) (cmp : A → A → comparison) : Prop :=
  ordered a b : wf a → wf b → bytes_cmp (encode t a) (encode t b) = cmp a b.

Definition lex {A B} (f : A → A → comparison) (g : B → B → comparison) (x y : A * B) : comparison :=
  match f x.1 y.1 with Eq => g x.2 y.2 | c => c end.

Lemma bytes_cmp_fixed (a b r s : bytes) :
  length a = length b →
  bytes_cmp (a ++ r) (b ++ s) = match bytes_cmp a b with Eq => bytes_cmp r s | c => c end.
Proof.
  revert b. induction a as [|x a IH]; intros [|y b] H; try done. cbn in *.
  destruct (x ?= y); [|done..]. by apply IH; lia.
Qed.

#[global] Instance fixed_ordered len : Ordered (fixed len) (fits len) Z.compare.
Proof.
  unfold fits. induction len as [|len IH]; intros x y Hx Hy.
  { cbn in *. assert (x = y) as -> by lia. by rewrite Z.compare_refl. }
  cbn [fixed encode to_be_bytes bytes_cmp]. set (p := 256 ^ Z.of_nat len) in *.
  assert (0 < p) as Hp by (apply Z.pow_pos_nonneg; lia).
  assert (256 ^ Z.of_nat (S len) = 256 * p) as Hpp by (rewrite Nat2Z.inj_succ, Z.pow_succ_r; lia).
  rewrite Hpp in Hx, Hy.
  assert (∀ z, 0 ≤ z < 256 * p → (z / p) mod 256 = z / p) as Hmod.
  { intros z Hz. apply Z.mod_small. split; [apply Z.div_pos; lia|].
    apply Z.div_lt_upper_bound; lia. }
  rewrite !Hmod by done.
  rewrite <- (to_be_mod len len x), <- (to_be_mod len len y) by done. fold p.
  pose proof (IH (x mod p) (y mod p)) as IH'. cbn [fixed encode] in IH'.
  rewrite IH' by (apply Z.mod_pos_bound; lia).
  pose proof (Z.div_mod x p ltac:(lia)). pose proof (Z.div_mod y p ltac:(lia)).
  pose proof (Z.mod_pos_bound x p Hp). pose proof (Z.mod_pos_bound y p Hp).
  symmetry. destruct (Z.compare_spec (x / p) (y / p)) as [E|Hlt|Hlt].
  - rewrite E in *. destruct (Z.compare_spec (x mod p) (y mod p));
      [apply Z.compare_eq_iff|apply Z.compare_lt_iff|apply Z.compare_gt_iff]; lia.
  - apply Z.compare_lt_iff. nia.
  - apply Z.compare_gt_iff. nia.
Qed.

(** Concatenations compare part by part. *)
Lemma concat_ordered {A B} (a : TableObject A) (b : TableObject B) len (t : TableObject (A * B))
    P Q f g {Fa : FixedLength a len} {Oa : Ordered a P f} {Ob : Ordered b Q g} :
  (∀ x y, encode t (x, y) = encode a x ++ encode b y) → Ordered t (both P Q) (lex f g).
Proof.
  intros Ht [x y] [x' y'] [Hx Hy] [Hx' Hy']. cbn [fst snd] in *. rewrite !Ht.
  rewrite bytes_cmp_fixed by by rewrite !(fixed_length (t := a)).
  unfold lex. cbn [fst snd]. rewrite (ordered (t := a)) by done. by destruct (f x x'); [apply ordered|..].
Qed.

Ltac by_parts a b := eapply (concat_ordered a b); [apply _|apply _|apply _|done].

(** The keys of the tables are written in an order-preserving way: block
    numbers and hashes as numbers, the keys of headers and of the storage
    change sets first by block, the keys of the indices first by the item
    indexed, then by block. *)
Theorem table_keys_ordered :
  Ordered u64_object (fits BLOCK_NUMBER_LENGTH) Z.compare
  ∧ Ordered header_key_object (both (fits BLOCK_NUMBER_LENGTH) (fits KECCAK_LENGTH))
      (lex Z.compare Z.compare)
  ∧ Ordered storage_change_key_object (both (fits BLOCK_NUMBER_LENGTH) (fits ADDRESS_LENGTH))
      (lex Z.compare Z.compare)
  ∧ Ordered (bitmap_key_object ADDRESS_LENGTH address_object)
      (both (fits ADDRESS_LENGTH) (fits BLOCK_NUMBER_LENGTH)) (lex Z.compare Z.compare)
  ∧ Ordered (bitmap_key_object (ADDRESS_LENGTH + KECCAK_LENGTH) address_slot_object)
      (both (both (fits ADDRESS_LENGTH) (fits KECCAK_LENGTH)) (fits BLOCK_NUMBER_LENGTH))
      (lex (lex Z.compare Z.compare) Z.compare).
Proof.
  assert (Ordered address_slot_object (both (fits ADDRESS_LENGTH) (fits KECCAK_LENGTH))
            (lex Z.compare Z.compare)) by by_parts address_object h256_object.
  split_and!; [apply _|..].
  - by_parts u64_object h256_object.
  - by_parts u64_object address_object.
  - by_parts address_object u64_object.
  - by_parts address_slot_object u64_object.
Qed.
