(* ===== verification/Bitmap.v ===== *)
(** * Bitmap

    [src/src/bitmapdb/mod.rs]: indices of block numbers, stored as chunks of
    compressed bitmaps under the key of the indexed item and the last block
    of the chunk. A [RoaringTreemap] (of the [croaring] library) is a set of
    64-bit numbers; the size of its serialisation is a parameter. A cursor
    over a table is the list of the table's entries in the order of their
    keys. *)

From stdpp Require Import sorting.
From S2P Require Import Prelude Words Errors BytesOrder.

Abbreviation Treemap := (gset Z).

(** [bm.iter()], in ascending order. *)
Definition ascending (bm : Treemap) : list Z := merge_sort Z.le (elements bm).

(** [bm.maximum()]. *)
Definition maximum (bm : Treemap) : option Z := last (ascending bm).

Class Roaring : Type := { serialized_size : Treemap → Z }.

(** ** Chunks *)

Section chunks.
Context {HR : Roaring} (size_limit : Z).
Implicit Types (bm v : Treemap) (n : Z).

(** The loop of [Chunks::next]: the numbers that fit and the first that does
    not. *)
Fixpoint fill v (it : list Z) : Treemap * option Z :=
  match it with
  | [] => (v, None)
  | n :: it =>
      let v' := {[n]} ∪ v in
      if size_limit <? serialized_size v' then (v' ∖ {[n]}, Some n) else fill v' it
  end.

(** [Chunks::next]: the chunk and what is left. *)
Definition next_chunk bm : option (Treemap * Treemap) :=
  if decide (bm = ∅) then None
  else if serialized_size bm <=? size_limit then Some (bm, ∅)
  else
    let '(v, min_n) := fill ∅ (ascending bm) in
    match min_n with
    | Some m =>
        let to_remove := filter (fun n => n < m) (ascending bm) in
        Some (v, bm ∖ list_to_set to_remove)
    | None => Some (bm, ∅)
    end.

(** The iterator, run to its end; the fuel bounds the number of chunks. *)
Fixpoint chunks (fuel : nat) bm : option (list Treemap) :=
  match fuel with
  | O => None
  | S fuel =>
      match next_chunk bm with
      | None => Some []
      | Some (v, bm) => cons v <$> chunks fuel bm
      end
  end.

(** [ChunksWithKeys]: the key is the last block of the chunk, or the maximal
    number for the last chunk. *)
Fixpoint with_keys (cs : list Treemap) : list (option Z * Treemap) :=
  match cs with
  | [] => []
  | [c] => [(Some u64_max, c)]
  | c :: cs => (maximum c, c) :: with_keys cs
  end.
End chunks.

(** ** Tables of bitmaps *)

(** [BitmapKey], with its inner key encoded. *)
Abbreviation BitmapKey := (bytes * Z)%type.

Abbreviation Table := (list (BitmapKey * Treemap)).

(** The order of encoded keys whose inner keys have the same length. *)
Definition key_lt (a b : BitmapKey) : Prop := bytes_lt a.1 b.1 ∨ a.1 = b.1 ∧ a.2 < b.2.
Definition key_le (a b : BitmapKey) : Prop := bytes_lt a.1 b.1 ∨ a.1 = b.1 ∧ a.2 ≤ b.2.

#[global] Instance key_lt_dec : RelDecision key_lt.
Proof. intros a b. unfold key_lt. apply _. Defined.
#[global] Instance key_le_dec : RelDecision key_le.
Proof. intros a b. unfold key_le. apply _. Defined.

(** [cursor.seek(start)]: the entries from the first key not below [start]. *)
Fixpoint seek (start : BitmapKey) (t : Table) : Table :=
  match t with
  | [] => []
  | e :: t' => if decide (key_le start e.1) then t else seek start t'
  end.

(** The stream of [walk]: the entry sought, then each [next]. *)
Definition walk (start_key : option BitmapKey) (t : Table) : Table :=
  match start_key with Some start => seek start t | None => t end.

Fixpoint collect (key : bytes) (to : Z) (out : option Treemap) (s : Table) : option Treemap :=
  match s with
  | [] => out
  | ((inner, block_number), v) :: s =>
      (* [take_while] *)
      if decide (inner = key) then
        let out := Some (match out with Some o => o ∪ v | None => v end) in
        if to <=? block_number then out else collect key to out s
      else out
  end.

Definition get (t : Table) (key : bytes) (from to : Z) : Treemap :=
  default ∅ (collect key to None (walk (Some (key, from)) t)).

(** ** The numbers of a bitmap in order *)

Section sets.
Implicit Types (bm v : Treemap) (n : Z).

Lemma ascending_perm bm : ascending bm ≡ₚ elements bm.
Proof. apply merge_sort_Permutation. Qed.

Lemma elem_of_ascending bm n : n ∈ ascending bm ↔ n ∈ bm.
Proof. by rewrite ascending_perm, elem_of_elements. Qed.

Lemma ascending_sorted bm : StronglySorted Z.lt (ascending bm).
Proof.
  assert (StronglySorted Z.le (ascending bm)) as Hs by (apply StronglySorted_merge_sort; apply _).
  assert (NoDup (ascending bm)) as Hn by (rewrite ascending_perm; apply NoDup_elements).
  induction Hs as [|n l Hs IH Hl]; [constructor|]. apply NoDup_cons in Hn as [Hnin Hn].
  constructor; [by apply IH|]. apply Forall_forall. intros m Hm.
  assert (n ≠ m) by (by intros ->). eapply Forall_forall in Hl; [|exact Hm]. cbv beta in Hl. lia.
Qed.

Lemma maximum_spec bm : bm ≠ ∅ → ∃ m, maximum bm = Some m ∧ m ∈ bm ∧ ∀ n, n ∈ bm → n ≤ m.
Proof.
  intros Hne. unfold maximum. pose proof (ascending_sorted bm) as Hs.
  destruct (ascending bm) as [|x l] eqn:E using rev_ind.
  - destruct Hne. apply set_eq. intros n. rewrite <- elem_of_ascending, E. set_solver.
  - clear IHl. rewrite last_snoc. exists x. split; [done|].
    assert (∀ n, n ∈ bm ↔ n ∈ l ++ [x]) as Hin by (intros n; by rewrite <- E, elem_of_ascending).
    split; [apply Hin; set_solver|]. intros n [Hn| ->%list_elem_of_singleton]%Hin%elem_of_app; [|lia].
    apply StronglySorted_app in Hs as (H & _). specialize (H n x Hn). set_solver by lia.
Qed.
End sets.

(** ** Chunks partition the bitmap *)

Section chunk_lemmas.
Context {HR : Roaring} (size_limit : Z).
Implicit Types (bm v : Treemap) (n : Z) (cs : list Treemap).

(** A number fits a chunk by itself. *)
Hypothesis single_fits : ∀ n, serialized_size {[n]} ≤ size_limit.

Lemma fill_spec it : ∀ v, StronglySorted Z.lt it → (∀ a n, a ∈ v → n ∈ it → a < n) →
  v = ∅ ∨ serialized_size v ≤ size_limit →
  match fill size_limit v it with
  | (w, None) => w = v ∪ list_to_set it ∧ (it = [] ∧ v = ∅ ∨ serialized_size w ≤ size_limit)
  | (w, Some m) => ∃ l1 l2, it = l1 ++ m :: l2 ∧ w = v ∪ list_to_set l1
                     ∧ serialized_size w ≤ size_limit ∧ w ≠ ∅
  end.
Proof.
  induction it as [|n it IH]; intros v Hs Hlt Hv; cbn [fill].
  { split; [set_solver|]. destruct Hv; [by left|right]. done. }
  apply StronglySorted_cons in Hs as [Hn Hs].
  assert (n ∉ v) as Hnv by (intros Hnv; specialize (Hlt n n Hnv); set_solver by lia).
  destruct (Z.ltb_spec size_limit (serialized_size ({[n]} ∪ v))) as [Hbig|Hfit].
  - exists [], it. assert (({[n]} ∪ v) ∖ {[n]} = v) as -> by set_solver.
    destruct Hv as [->|Hv].
    + rewrite (right_id_L ∅ (∪)) in Hbig. specialize (single_fits n). lia.
    + split_and!; [done|set_solver|done|]. intros ->.
      rewrite (right_id_L ∅ (∪)) in Hbig. specialize (single_fits n). lia.
  - specialize (IH ({[n]} ∪ v) Hs). assert (∀ a m, a ∈ {[n]} ∪ v → m ∈ it → a < m) as Hlt'.
    { intros a m [->%elem_of_singleton|Ha]%elem_of_union Hm; [by eapply Forall_forall in Hn|].
      apply Hlt; [done|by right]. }
    specialize (IH Hlt' (or_intror Hfit)).
    destruct (fill size_limit ({[n]} ∪ v) it) as [w [m|]].
    + destruct IH as (l1 & l2 & -> & -> & Hw & Hne). exists (n :: l1), l2.
      split_and!; [done|set_solver|done|done].
    + destruct IH as [-> Hw]. split; [set_solver|]. right. destruct Hw as [[_ Hw]|Hw]; [set_solver|done].
Qed.

(** A chunk and the rest: the chunk is not empty, fits, and is below. *)
Record cut bm c bm' : Prop := {
  cut_union : bm = c ∪ bm';
  cut_nonempty : c ≠ ∅;
  cut_fits : serialized_size c ≤ size_limit;
  cut_below : ∀ a n, a ∈ c → n ∈ bm' → a < n
}.

Lemma next_chunk_cut bm : bm ≠ ∅ → ∃ c bm', next_chunk size_limit bm = Some (c, bm') ∧ cut bm c bm'.
Proof.
  intros Hne. unfold next_chunk. rewrite decide_False by done.
  destruct (Z.leb_spec (serialized_size bm) size_limit) as [Hfit|Hbig].
  { exists bm, ∅. split; [done|]. split; [set_solver|done|done|set_solver]. }
  pose proof (ascending_sorted bm) as Hs.
  pose proof (fill_spec (ascending bm) ∅ Hs) as H. specialize (H ltac:(set_solver) (or_introl eq_refl)).
  assert (list_to_set (ascending bm) = bm) as Hset.
  { apply set_eq. intros n. by rewrite elem_of_list_to_set, elem_of_ascending. }
  destruct (fill size_limit ∅ (ascending bm)) as [w [m|]].
  - destruct H as (l1 & l2 & E & Hw & Hsz & Hwne). rewrite E in Hs, Hset |- *.
    apply StronglySorted_app in Hs as (H12 & _ & Hs2). apply StronglySorted_cons in Hs2 as [Hm _].
    assert (∀ n, n ∈ filter (fun n => n < m) (l1 ++ m :: l2) ↔ n ∈ l1) as Hrem.
    { intros n. rewrite list_elem_of_filter, elem_of_app, elem_of_cons. split.
      - intros [Hnm [?|[->|Hn]]]; [done|lia|]. eapply Forall_forall in Hm; [|done]. cbv beta in Hm. lia.
      - intros Hn. split; [apply H12; [done|left]|by left]. }
    exists w, (bm ∖ list_to_set (filter (fun n => n < m) (l1 ++ m :: l2))). split; [done|].
    rewrite (left_id_L ∅ (∪)) in Hw. split.
    + apply set_eq. intros n. rewrite Hw, <- Hset. rewrite elem_of_union, elem_of_difference,
        !elem_of_list_to_set, Hrem, elem_of_app, elem_of_cons.
      destruct (decide (n ∈ l1)); naive_solver.
    + done.
    + done.
    + intros a n Ha Hn. rewrite Hw, elem_of_list_to_set in Ha.
      rewrite <- Hset, elem_of_difference, !elem_of_list_to_set, Hrem in Hn.
      destruct Hn as [[Hn|Hn]%elem_of_app Hnl]; [done|]. by apply H12.
  - destruct H as [-> H]. rewrite (left_id_L ∅ (∪)), Hset in H.
    destruct H as [[H _]|H]; [|lia]. rewrite H in Hset. cbn in Hset. by subst bm.
Qed.

(** Chunks in order, none empty, each within the limit. *)
Fixpoint chain cs bm : Prop :=
  match cs with
  | [] => bm = ∅
  | c :: cs => ∃ bm', cut bm c bm' ∧ chain cs bm'
  end.

Lemma chunks_chain fuel : ∀ bm, (size bm < fuel)%nat →
  ∃ cs, chunks size_limit fuel bm = Some cs ∧ chain cs bm.
Proof.
  induction fuel as [|fuel IH]; intros bm Hf; [lia|]. cbn [chunks].
  destruct (decide (bm = ∅)) as [->|Hne].
  { exists []. unfold next_chunk. by rewrite decide_True. }
  destruct (next_chunk_cut bm Hne) as (c & bm' & -> & Hcut).
  assert (size bm' < size bm)%nat as Hlt.
  { apply subset_size. destruct Hcut as [-> Hc _ Hlt]. split; [set_solver|].
    apply set_choose_L in Hc as [a Ha]. intros H. specialize (Hlt a a Ha). set_solver by lia. }
  destruct (IH bm') as (cs & -> & Hcs); [lia|]. exists (c :: cs). split; [done|by exists bm'].
Qed.

Lemma chain_union cs : ∀ bm, chain cs bm → ⋃ cs = bm.
Proof.
  induction cs as [|c cs IH]; intros bm; cbn; [by intros ->|].
  intros (bm' & Hc & Hcs). by rewrite (IH bm' Hcs), <- (cut_union _ _ _ Hc).
Qed.
End chunk_lemmas.

(** ** Reading an index *)

Section index.
Context {HR : Roaring} (size_limit : Z).
Implicit Types (bm v : Treemap) (n : Z) (cs : list Treemap) (key : bytes).

(** The entries of a table for the chunks of a bitmap. *)
Definition entries_of key cs (own : Table) : Prop :=
  with_keys cs = (fun e => (Some e.1.2, e.2)) <$> own ∧ Forall (fun e => e.1.1 = key) own.

Lemma entries_cons key c cs own :
  entries_of key (c :: cs) own →
  ∃ k own', own = ((key, k), c) :: own' ∧ entries_of key cs own'
    ∧ match cs with [] => k = u64_max | _ => maximum c = Some k end.
Proof.
  intros [E Hk]. destruct own as [|[[i k] v] own]; [by destruct cs|].
  apply Forall_cons in Hk as [Hi Hk]. cbn in Hi. subst i.
  destruct cs as [|c' cs]; cbn in E; simplify_eq.
  - destruct own; [|done]. exists u64_max, []. by split_and!.
  - exists k, own. split_and!; [done|by split|done].
Qed.

(** The key of a chunk that is not the last is its greatest number. *)
Lemma chunk_key c c' cs k bm :
  chain size_limit (c :: c' :: cs) bm → maximum c = Some k →
  (∀ n, n ∈ c → n ≤ k) ∧ ∀ n, n ∈ bm → n ∉ c → k < n.
Proof.
  intros (bm' & [-> Hne _ Hlt] & _) Hk. destruct (maximum_spec c Hne) as (m & Hm & Hin & Hle).
  simplify_eq. split; [done|]. intros n Hn Hnc. apply Hlt; [done|set_solver].
Qed.

(** Entries read without a bound below: nothing but numbers of the bitmap,
    and all of them up to [to]. *)
Lemma collect_spec key cs to after : Forall (fun e => e.1.1 ≠ key) after →
  ∀ bm own out, chain size_limit cs bm → entries_of key cs own →
  (∀ n, n ∈ bm → n ≤ u64_max) → to ≤ u64_max →
  (∀ n, n ∈ default ∅ (collect key to out (own ++ after)) → n ∈ default ∅ out ∨ n ∈ bm)
  ∧ (∀ n, n ∈ default ∅ out → n ∈ default ∅ (collect key to out (own ++ after)))
  ∧ (∀ n, n ∈ bm → n ≤ to → n ∈ default ∅ (collect key to out (own ++ after))).
Proof.
  intros Ha. induction cs as [|c cs IH]; intros bm own out Hc Ho Hmax Hto.
  { cbn in Hc. subst bm. destruct Ho as [Ho _]. destruct own; [|done]. cbn [app].
    assert (collect key to out after = out) as ->.
    { destruct after as [|[[i k] v] after]; [done|]. apply Forall_cons in Ha as [Ha _].
      cbn. by rewrite decide_False. }
    split_and!; [by left|done|set_solver]. }
  apply entries_cons in Ho as (k & own' & -> & Ho & Hk). cbn [app collect].
  rewrite decide_True by done. cbv zeta. set (out' := match out with Some o => o ∪ c | None => c end).
  assert (∀ n, n ∈ out' ↔ n ∈ default ∅ out ∨ n ∈ c) as Hout'.
  { intros n. subst out'. destruct out; cbn; set_solver. }
  pose proof Hc as (bm' & [-> Hne _ Hlt] & Hcs).
  assert (∀ n, n ∈ c ∪ bm' → n ≤ to → to ≤ k → n ∈ c) as Hlast.
  { intros n Hn Hnt Htk. destruct cs as [|c' cs].
    - cbn in Hcs. subst bm'. set_solver.
    - destruct (chunk_key _ _ _ _ _ Hc Hk) as [_ Hk']. destruct (decide (n ∈ c)) as [|Hnc]; [done|].
      specialize (Hk' n Hn Hnc). lia. }
  destruct (Z.leb_spec to k) as [Htk|Htk].
  - cbn [default]. split_and!.
    + intros n Hn%Hout'. set_solver.
    + intros n Hn. apply Hout'. by left.
    + intros n Hn Hnt. apply Hout'. right. by apply Hlast.
  - destruct (IH bm' own' (Some out') Hcs Ho) as (H1 & H2 & H3); [set_solver|done|].
    cbn [default] in *. split_and!.
    + intros n [Hn%Hout'|Hn]%H1; set_solver.
    + intros n Hn. apply H2, Hout'. by left.
    + intros n [Hn|Hn]%elem_of_union Hnt; [apply H2, Hout'; by right|by apply H3].
Qed.

Lemma seek_skip start before t :
  Forall (fun e => ¬ key_le start e.1) before → seek start (before ++ t) = seek start t.
Proof.
  induction 1 as [|e before He _ IH]; [done|]. cbn. by rewrite decide_False.
Qed.

Lemma seek_at start e t : key_le start e.1 → seek start (e :: t) = e :: t.
Proof. intros. cbn. by rewrite decide_True. Qed.

(** The entries sought in an index. *)
Lemma seek_spec key cs from to after : Forall (fun e => bytes_lt key e.1.1) after →
  ∀ bm own, chain size_limit cs bm → entries_of key cs own →
  (∀ n, n ∈ bm → n ≤ u64_max) → from ≤ to → to ≤ u64_max →
  ∀ n, (n ∈ default ∅ (collect key to None (seek (key, from) (own ++ after))) → n ∈ bm)
       ∧ (n ∈ bm → from ≤ n ≤ to →
          n ∈ default ∅ (collect key to None (seek (key, from) (own ++ after)))).
Proof.
  intros Ha. assert (Forall (fun e : BitmapKey * Treemap => e.1.1 ≠ key) after) as Ha'.
  { eapply Forall_impl; [exact Ha|]. intros e He E.
    cbv beta in He. rewrite E in He. by destruct (bytes_lt_irrefl key). }
  induction cs as [|c cs IH]; intros bm own Hc Ho Hmax Hft Hto n.
  { cbn in Hc. subst bm. destruct Ho as [Ho _]. destruct own; [|done]. cbn [app].
    assert (seek (key, from) after = after) as ->.
    { destruct after as [|e after]; [done|]. apply Forall_cons in Ha as [Ha _].
      apply seek_at. by left. }
    destruct (collect_spec key [] to after Ha' ∅ [] None) as (H1 & _); [done|by split|set_solver|done|].
    split; [|set_solver]. intros Hn. destruct (H1 n Hn); set_solver. }
  pose proof Ho as Ho'. apply entries_cons in Ho' as (k & own' & -> & Ho' & Hk).
  destruct (decide (from ≤ k)) as [Hfk|Hfk].
  - cbn [app]. rewrite seek_at by (right; done).
    destruct (collect_spec key (c :: cs) to after Ha' bm (((key, k), c) :: own') None)
      as (H1 & _ & H3); [done..|]. split; [intros Hn; destruct (H1 n Hn); set_solver|].
    intros Hn Hr. apply H3; [done|lia].
  - cbn [app seek]. rewrite decide_False.
    2:{ unfold key_le. cbn. intros [H|[_ H]]; [by destruct (bytes_lt_irrefl key)|lia]. }
    pose proof Hc as (bm' & [-> Hne _ Hlt] & Hcs).
    destruct (IH bm' own' Hcs Ho') with (n := n) as [H1 H2]; [set_solver|done|done|].
    split; [set_solver|]. intros Hn Hr. destruct cs as [|c' cs]; cbn in Hk; [lia|].
    destruct (chunk_key _ _ _ _ _ Hc Hk) as [Hle _].
    apply H2; [|done]. apply elem_of_union in Hn as [Hn|Hn]; [specialize (Hle n Hn); lia|done].
Qed.

(** C26. An index answers as the bitmap it was made from: cut into chunks
    that fit the limit, which always succeeds, and stored in the order of
    their keys among the entries of other items, the range read back from
    the table holds exactly the numbers of the bitmap in the range, and
    nothing that is not in the bitmap. *)
Theorem index_get bm key from to
  (Hfits : ∀ n, serialized_size {[n]} ≤ size_limit)
  (Hmax : ∀ n, n ∈ bm → n ≤ u64_max) (Hft : from ≤ to) (Hto : to ≤ u64_max) :
  ∃ cs, chunks size_limit (S (size bm)) bm = Some cs
    ∧ Forall (fun c => c ≠ ∅ ∧ serialized_size c ≤ size_limit) cs
    ∧ ∀ before own after n,
        Forall (fun e => bytes_lt e.1.1 key) before → entries_of key cs own →
        Forall (fun e => bytes_lt key e.1.1) after →
        (n ∈ get (before ++ own ++ after) key from to → n ∈ bm)
        ∧ (from ≤ n ≤ to → n ∈ get (before ++ own ++ after) key from to ↔ n ∈ bm).
Proof.
  destruct (chunks_chain size_limit Hfits (S (size bm)) bm) as (cs & Hcs & Hc); [lia|].
  exists cs. split_and!; [done| |].
  - clear -Hc. revert bm Hc. induction cs as [|c cs IH]; intros bm; [constructor|].
    intros (bm' & [_ ? ? _] & Hc). constructor; [done|by eapply IH].
  - intros before own after n Hb Ho Ha. unfold get, walk. rewrite seek_skip.
    + destruct (seek_spec key cs from to after Ha bm own Hc Ho Hmax Hft Hto n) as [H1 H2].
      split; [done|]. intros Hr. split; auto.
    + eapply Forall_impl; [exact Hb|]. intros [[i k] v] Hi [Hlt|[E _]]; cbn in *.
      * by destruct (bytes_lt_irrefl key (bytes_lt_trans _ _ _ Hlt Hi)).
      * subst. by destruct (bytes_lt_irrefl i).
Qed.
End index.

(** ** Examples *)

(** Two bytes per number. *)
#[local] Instance demo_roaring : Roaring := {| serialized_size := fun bm => 2 * Z.of_nat (size bm) |}.

Definition demo_bitmap : Treemap := list_to_set [3; 8; 10; 15; 21].

Definition demo_own : Table :=
  [(([7], 8), list_to_set [3; 8]); (([7], 15), list_to_set [10; 15]); (([7], u64_max), {[21]})].

Lemma index_get_witness :
  chunks 5 6 demo_bitmap = Some [list_to_set [3; 8]; list_to_set [10; 15]; {[21]}]
  ∧ (10 ∈ get ([(([6], 1), {[99]})] ++ demo_own ++ [(([8], 2), {[77]})]) [7] 9 12 ↔ 10 ∈ demo_bitmap).
Proof.
  split; [vm_compute; reflexivity|].
  destruct (index_get 5 demo_bitmap [7] 9 12) as (cs & Hcs & _ & H).
  - intros n. cbn. rewrite size_singleton. lia.
  - apply (bool_decide_unpack (set_Forall (fun n => n ≤ u64_max) demo_bitmap)). vm_compute. exact I.
  - lia.
  - by vm_compute.
  - vm_compute in Hcs. injection Hcs as <-.
    apply (proj2 (H [(([6], 1), {[99]})] demo_own [(([8], 2), {[77]})] 10
      ltac:(repeat constructor) ltac:(split; [vm_compute; reflexivity|repeat constructor])
      ltac:(repeat constructor))). lia.
Defined.
