(* ===== verification/TrieNode.v ===== *)
(** * TrieNode

    [src/src/trie/node.rs], [prefix_set.rs] and [util.rs]: the nodes of the
    hashed trie that are stored in the database, with their encoding, and
    the sets of changed keys that tell which stored nodes still hold. *)

From stdpp Require Import sorting.
From S2P Require Import Prelude Words Errors Account BytesOrder TableCodecs.

(** ** Masks of sixteen bits *)

(** [1u16 << digit]; the shift count wraps. *)
Definition bit16 (digit : Z) : Z := Z.shiftl 1 (Z.land digit 15).

Definition digits16 : list Z := seqZ 0 16.

(** [mask.count_ones()]. *)
Definition count_ones (mask : Z) : nat := length (filter (fun d => Z.testbit mask d = true) digits16).

Definition is_u16 (x : Z) : Prop := 0 ≤ x < 2 ^ 16.

(** [assert_subset]. *)
Definition assert_subset (sub sup : Z) : result unit :=
  if Z.land sub sup =? sub then Ok tt else Panic.

Fixpoint prefix_length (a b : bytes) : nat :=
  match a, b with
  | x :: a, y :: b => if x =? y then S (prefix_length a b) else O
  | _, _ => O
  end.

(** [s.starts_with(prefix)]. *)
Definition has_prefix (s prefix : bytes) : bool := bool_decide (prefix `prefix_of` s).

(** ** Nodes *)

Record Node : Type := mkNode {
  state_mask : Z;
  tree_mask : Z;
  hash_mask : Z;
  hashes : list Z;
  node_root_hash : option Z
}.

Definition new_node (state_mask tree_mask hash_mask : Z) (hashes : list Z) (root_hash : option Z) :
    result Node :=
  assert_subset tree_mask state_mask;;
  assert_subset hash_mask state_mask;;
  if (count_ones hash_mask =? length hashes)%nat
  then Ok (mkNode state_mask tree_mask hash_mask hashes root_hash)
  else Panic.

Definition set_root_hash (root_hash : option Z) (n : Node) : Node :=
  mkNode (state_mask n) (tree_mask n) (hash_mask n) (hashes n) root_hash.

Definition marshal_node (n : Node) : bytes :=
  to_be_bytes 2 (state_mask n) ++ to_be_bytes 2 (tree_mask n) ++ to_be_bytes 2 (hash_mask n)
  ++ match node_root_hash n with Some h => to_be_bytes KECCAK_LENGTH h | None => [] end
  ++ mjoin (to_be_bytes KECCAK_LENGTH <$> hashes n).

(** [count] hashes off a slice. *)
Fixpoint read_hashes (count : nat) (v : bytes) : list Z :=
  match count with
  | O => []
  | S count => from_be_bytes (take KECCAK_LENGTH v) :: read_hashes count (drop KECCAK_LENGTH v)
  end.

Definition unmarshal_node (v : bytes) : result (option Node) :=
  if (length v <? 6)%nat then Ok None
  else if negb ((length v - 6) mod KECCAK_LENGTH =? 0)%nat then Ok None
  else
    let state_mask := from_be_bytes (take 2 v) in
    let tree_mask := from_be_bytes (take 2 (drop 2 v)) in
    let hash_mask := from_be_bytes (take 2 (drop 4 v)) in
    let v := drop 6 v in
    let has_root := (count_ones hash_mask + 1 =? length v / KECCAK_LENGTH)%nat in
    let root_hash := if has_root then Some (from_be_bytes (take KECCAK_LENGTH v)) else None in
    let v := if has_root then drop KECCAK_LENGTH v else v in
    let hashes := read_hashes (length v / KECCAK_LENGTH) v in
    n ← new_node state_mask tree_mask hash_mask hashes root_hash;
    Ok (Some n).

(** The nodes [Node::new] makes of values in the ranges of their types. *)
Definition node_ok (n : Node) : Prop :=
  is_u16 (state_mask n) ∧ is_u16 (tree_mask n) ∧ is_u16 (hash_mask n)
  ∧ Forall is_u256 (hashes n) ∧ from_option is_u256 True (node_root_hash n)
  ∧ new_node (state_mask n) (tree_mask n) (hash_mask n) (hashes n) (node_root_hash n) = Ok n.

Lemma new_node_count s t h hs r n : new_node s t h hs r = Ok n → count_ones h = length hs.
Proof.
  unfold new_node. intros H. res_inv. destruct (Nat.eqb_spec (count_ones h) (length hs)); [done|].
  by res_inv.
Qed.

Lemma length_hashes hs : length (mjoin (to_be_bytes KECCAK_LENGTH <$> hs)) = (length hs * KECCAK_LENGTH)%nat.
Proof.
  induction hs as [|h hs IH]; [done|].
  change (mjoin (to_be_bytes KECCAK_LENGTH <$> h :: hs))
    with (to_be_bytes KECCAK_LENGTH h ++ mjoin (to_be_bytes KECCAK_LENGTH <$> hs)).
  rewrite length_app, IH, length_to_be_bytes. cbn [length]. lia.
Qed.

Lemma take_drop_be n x (l : bytes) :
  take n (to_be_bytes n x ++ l) = to_be_bytes n x ∧ drop n (to_be_bytes n x ++ l) = l.
Proof. by split; [apply take_app_length'|apply drop_app_length']; rewrite length_to_be_bytes. Qed.

Lemma header_be s t h (rest : bytes) :
  let v := to_be_bytes 2 s ++ to_be_bytes 2 t ++ to_be_bytes 2 h ++ rest in
  take 2 v = to_be_bytes 2 s ∧ take 2 (drop 2 v) = to_be_bytes 2 t
  ∧ take 2 (drop 4 v) = to_be_bytes 2 h ∧ drop 6 v = rest.
Proof.
  intros v. subst v. change 6%nat with (2 + 4)%nat. rewrite <- drop_drop.
  change 4%nat with (2 + 2)%nat. rewrite <- drop_drop.
  by rewrite !(proj2 (take_drop_be _ _ _)), !(proj1 (take_drop_be _ _ _)).
Qed.

Lemma read_hashes_marshal hs : Forall is_u256 hs →
  read_hashes (length hs) (mjoin (to_be_bytes KECCAK_LENGTH <$> hs)) = hs.
Proof.
  induction 1 as [|h hs Hh _ IH]; [done|]. cbn [length read_hashes].
  change (mjoin (to_be_bytes KECCAK_LENGTH <$> h :: hs))
    with (to_be_bytes KECCAK_LENGTH h ++ mjoin (to_be_bytes KECCAK_LENGTH <$> hs)).
  rewrite (proj1 (take_drop_be _ _ _)), (proj2 (take_drop_be _ _ _)), IH.
  by rewrite from_to_be by exact (is_word_bytes 32 _ Hh).
Qed.

Lemma marshalled_node n (H : node_ok n) : unmarshal_node (marshal_node n) = Ok (Some n).
Proof.
  destruct n as [s t h hs r]. destruct H as (Hs & Ht & Hh & Hhs & Hr & Hnew).
  cbn [state_mask tree_mask hash_mask hashes node_root_hash] in *.
  pose proof (new_node_count _ _ _ _ _ _ Hnew) as Hcount.
  unfold unmarshal_node, marshal_node. cbn [state_mask tree_mask hash_mask hashes node_root_hash].
  set (tail := mjoin _). set (root := match r with Some _ => _ | None => _ end).
  assert (length (root ++ tail) = ((match r with Some _ => 1 | None => 0 end + length hs) * KECCAK_LENGTH)%nat)
    as Hlen.
  { subst tail root. rewrite length_app, length_hashes. destruct r; [rewrite length_to_be_bytes|cbn [length]]; lia. }
  destruct (header_be s t h (root ++ tail)) as (-> & -> & -> & ->).
  rewrite !length_app, !length_to_be_bytes, <- length_app, Hlen.
  rewrite (proj2 (Nat.ltb_ge _ _)) by lia.
  replace (2 + (2 + (2 + _)) - 6)%nat
    with ((match r with Some _ => 1 | None => 0 end + length hs) * KECCAK_LENGTH)%nat by lia.
  rewrite Nat.Div0.mod_mul, Nat.div_mul by done. cbn [Nat.eqb negb]. cbv iota zeta.
  rewrite !from_to_be by (by apply (is_word_bytes 2)). rewrite Hcount.
  subst root. destruct r as [r|].
  - rewrite (proj2 (Nat.eqb_eq _ _)) by lia.
    rewrite (proj1 (take_drop_be _ _ _)), (proj2 (take_drop_be _ _ _)), from_to_be
      by exact (is_word_bytes 32 _ Hr).
    subst tail. rewrite length_hashes, Nat.div_mul, read_hashes_marshal by done. by rewrite Hnew.
  - rewrite (proj2 (Nat.eqb_neq _ _)) by lia. cbn [app].
    subst tail. rewrite length_hashes, Nat.div_mul, read_hashes_marshal by done. by rewrite Hnew.
Qed.

(** A node stored in the database is read back as it was, with or
    without its root hash (which the reader recognises by the length): no
    assertion of the constructor fails. *)
Theorem node_marshalling n (H : node_ok n) : unmarshal_node (marshal_node n) = Ok (Some n).
Proof. by apply marshalled_node. Qed.

Lemma node_marshalling_witness :
  unmarshal_node (marshal_node (mkNode 63 5 6 [1; 2] (Some 3)))
  = Ok (Some (mkNode 63 5 6 [1; 2] (Some 3))).
Proof.
  apply node_marshalling. unfold node_ok, is_u16. repeat split; try done.
  repeat constructor; cbv; done.
Defined.

(** ** The set of changed keys *)

(** A [BTreeSet] of byte strings: its elements in order, each once. *)
Definition PrefixSet : Type := list bytes.

Definition new_prefix_set : PrefixSet := [].

(** [BTreeSet::insert]. *)
Fixpoint insert (key : bytes) (ps : PrefixSet) : PrefixSet :=
  match ps with
  | [] => [key]
  | s :: ps' =>
      match bytes_cmp key s with
      | Lt => key :: ps
      | Eq => ps
      | Gt => s :: insert key ps'
      end
  end.

(** The first element at or after [prefix]: [range(prefix..).next()]. *)
Definition first_from (prefix : bytes) (ps : PrefixSet) : option bytes :=
  head (filter (fun s => bytes_le prefix s) ps).

Definition contains (prefix : bytes) (ps : PrefixSet) : bool :=
  match first_from prefix ps with
  | Some s => has_prefix s prefix
  | None => false
  end.

Lemma elem_of_insert key ps k : k ∈ insert key ps ↔ k = key ∨ k ∈ ps.
Proof.
  induction ps as [|s ps IH]; cbn; [by rewrite list_elem_of_singleton, elem_of_nil; naive_solver|].
  destruct (bytes_cmp key s) eqn:E; rewrite !elem_of_cons; [|done|].
  - apply bytes_cmp_eq in E as ->. naive_solver.
  - rewrite IH. naive_solver.
Qed.

Lemma insert_sorted key ps :
  StronglySorted bytes_lt ps → StronglySorted bytes_lt (insert key ps).
Proof.
  induction 1 as [|s ps Hps IH Hs]; cbn; [by repeat constructor|].
  destruct (bytes_cmp key s) eqn:E; [by constructor|..].
  - constructor; [by constructor|]. constructor; [done|].
    eapply Forall_impl; [exact Hs|]. intros x. by apply bytes_lt_trans.
  - constructor; [done|]. rewrite Forall_forall. intros k [->|Hk]%elem_of_insert.
    + unfold bytes_lt. by rewrite bytes_cmp_opp, E.
    + rewrite Forall_forall in Hs. auto.
Qed.

Lemma inserts_sorted keys ps :
  StronglySorted bytes_lt ps → StronglySorted bytes_lt (foldl (fun ps key => insert key ps) ps keys).
Proof. revert ps. induction keys as [|k keys IH]; cbn; auto using insert_sorted. Qed.

Lemma elem_of_inserts keys ps k :
  k ∈ foldl (fun ps key => insert key ps) ps keys ↔ k ∈ keys ∨ k ∈ ps.
Proof.
  revert ps. induction keys as [|k' keys IH]; intros ps; cbn; [set_solver|].
  rewrite IH, elem_of_insert. set_solver.
Qed.

Lemma contains_sorted p ps (Hsorted : StronglySorted bytes_lt ps) :
  contains p ps = true ↔ Exists (prefix p) ps.
Proof.
  unfold contains, first_from, has_prefix.
  induction Hsorted as [|s ps Hps IH Hs]; [by rewrite Exists_nil|].
  rewrite Exists_cons. cbn [filter list_filter]. destruct (decide (bytes_le p s)) as [Hle|Hnle]; cbn [head].
  - rewrite bool_decide_eq_true. split; [by left|]. intros [?|(b & Hb & Hpb)%Exists_exists]; [done|].
    apply (bytes_le_prefix p s b); [done| |done]. apply bytes_le_lt. right.
    rewrite Forall_forall in Hs. auto.
  - rewrite IH. split; [by right|]. intros [?|?]; [|done].
    by destruct Hnle; apply prefix_bytes_le.
Qed.

(** After any insertions, in any order and with repetitions, the set
    says of a path that it has changed exactly when one of the inserted keys
    goes through it: looking at the first key at or after the path is
    enough. *)
Theorem prefix_set_contains (keys : list bytes) p :
  contains p (foldl (fun ps key => insert key ps) new_prefix_set keys) = true
  ↔ ∃ key, key ∈ keys ∧ p `prefix_of` key.
Proof.
  rewrite contains_sorted by (apply inserts_sorted; constructor). rewrite Exists_exists.
  split; intros (key & Hkey & Hp); exists key; [|rewrite elem_of_inserts; auto].
  rewrite elem_of_inserts in Hkey. destruct Hkey as [?|Hn]; [done|by apply elem_of_nil in Hn].
Qed.
