(* ===== verification/HashBuilder.v ===== *)
(** * HashBuilder

    [src/src/trie/hash_builder.rs]: the Merkle-Patricia root of a sequence
    of leaves and known subtrees that come in the order of their keys,
    computed with a stack of references and the masks of the branches that
    are still open. The RLP streams and Keccak are parameters. *)

From S2P Require Import Prelude Words Errors Account Block BytesOrder TrieNode.

(** An RLP list of items that are already encoded, and the empty item. *)
Class RlpStream : Type := {
  rlp_list : list bytes → bytes;
  rlp_null : bytes
}.

Inductive HashBuilderValue : Type :=
| ValueBytes (value : bytes)
| ValueHash (hash : Z).

(** [HashBuilder]; the node collector is the sequence of its calls. *)
Record HashBuilder : Type := mkBuilder {
  node_collector : option (list (bytes * Node));
  key : bytes;
  value : HashBuilderValue;
  is_in_db_trie : bool;
  groups : list Z;
  tree_masks : list Z;
  hash_masks : list Z;
  stack : list bytes;
  rlp_buffer : bytes
}.

Definition new_builder : HashBuilder :=
  mkBuilder None [] (ValueBytes []) false [] [] [] [] [].

Definition with_key (k : bytes) (v : HashBuilderValue) (in_db : bool) (hb : HashBuilder) : HashBuilder :=
  mkBuilder (node_collector hb) k v in_db (groups hb) (tree_masks hb) (hash_masks hb) (stack hb)
    (rlp_buffer hb).
Definition with_groups (g : list Z) (hb : HashBuilder) : HashBuilder :=
  mkBuilder (node_collector hb) (key hb) (value hb) (is_in_db_trie hb) g (tree_masks hb)
    (hash_masks hb) (stack hb) (rlp_buffer hb).
Definition with_masks (t h : list Z) (hb : HashBuilder) : HashBuilder :=
  mkBuilder (node_collector hb) (key hb) (value hb) (is_in_db_trie hb) (groups hb) t h (stack hb)
    (rlp_buffer hb).
Definition with_stack (s : list bytes) (hb : HashBuilder) : HashBuilder :=
  mkBuilder (node_collector hb) (key hb) (value hb) (is_in_db_trie hb) (groups hb) (tree_masks hb)
    (hash_masks hb) s (rlp_buffer hb).
Definition with_buffer (b : bytes) (hb : HashBuilder) : HashBuilder :=
  mkBuilder (node_collector hb) (key hb) (value hb) (is_in_db_trie hb) (groups hb) (tree_masks hb)
    (hash_masks hb) (stack hb) b.
Definition with_collected (c : option (list (bytes * Node))) (hb : HashBuilder) : HashBuilder :=
  mkBuilder c (key hb) (value hb) (is_in_db_trie hb) (groups hb) (tree_masks hb)
    (hash_masks hb) (stack hb) (rlp_buffer hb).

Definition has_collector (hb : HashBuilder) : bool := bool_decide (is_Some (node_collector hb)).

(** [v[i] = f(v[i])], which panics out of range. *)
Definition alter_at (i : nat) (f : Z → Z) (v : list Z) : result (list Z) :=
  match v !! i with Some x => Ok (<[i := f x]> v) | None => Panic end.

(** [mask |= 1u16 << digit] and [mask &= !(1u16 << digit)]. *)
Definition set_bit (digit mask : Z) : Z := Z.lor mask (bit16 digit).
Definition unset_bit (digit mask : Z) : Z := Z.land mask (Z.lnot (bit16 digit)).

(** [while groups.last() == Some(&0) { groups.pop(); }]. *)
Fixpoint pop_zeros (v : list Z) : list Z :=
  match v with
  | [] => []
  | x :: v =>
      match pop_zeros v with
      | [] => if x =? 0 then [] else [x]
      | v => x :: v
      end
  end.

(** ** Paths *)

(** The bytes of [encode_path] behind the first: two nibbles each. *)
Fixpoint pack_pairs (nibbles : bytes) : bytes :=
  match nibbles with
  | hi :: lo :: nibbles => wrap 8 (wrap 8 (Z.shiftl hi 4) + lo) :: pack_pairs nibbles
  | _ => []
  end.

Definition encode_path (nibbles : bytes) (terminating : bool) : bytes :=
  let odd := negb (length nibbles mod 2 =? 0)%nat in
  let first := (if terminating then 0x20 else 0x00) + (if odd then 0x10 else 0x00) in
  match nibbles with
  | n :: rest => if odd then Z.lor first n :: pack_pairs rest else first :: pack_pairs nibbles
  | [] => [first]
  end.

Fixpoint pack_nibbles (nibbles : bytes) : bytes :=
  match nibbles with
  | hi :: lo :: nibbles => wrap 8 (wrap 8 (Z.shiftl hi 4) + lo) :: pack_nibbles nibbles
  | [hi] => [wrap 8 (Z.shiftl hi 4)]
  | [] => []
  end.

Definition unpack_nibbles (packed : bytes) : bytes :=
  mjoin ((fun b => [Z.shiftr b 4; Z.land b 0x0F]) <$> packed).

Definition wrap_hash (hash : Z) : bytes := (0x80 + Z.of_nat KECCAK_LENGTH) :: to_be_bytes KECCAK_LENGTH hash.

Section builder.
Context `{!Hashing} `{!RlpStream}.

Definition node_ref (rlp : bytes) : bytes :=
  if (length rlp <? KECCAK_LENGTH)%nat then rlp else wrap_hash (keccak256 rlp).

(** The encoded nodes; the functions of the builder also leave them in its
    buffer. *)
Definition leaf_rlp (path value : bytes) : bytes :=
  rlp_list [rlp_bytes (encode_path path true); rlp_bytes value].
Definition extension_rlp (path child_ref : bytes) : bytes :=
  rlp_list [rlp_bytes (encode_path path false); child_ref].

Definition leaf_node_rlp (path value : bytes) (hb : HashBuilder) : bytes * HashBuilder :=
  let out := leaf_rlp path value in (out, with_buffer out hb).
Definition extension_node_rlp (path child_ref : bytes) (hb : HashBuilder) : bytes * HashBuilder :=
  let out := extension_rlp path child_ref in (out, with_buffer out hb).

(** The loop of [branch_ref] over the digits: the items of the stream and the
    child hashes, from the references at the top of the stack. *)
Fixpoint branch_items (digits : list Z) (state_mask hash_mask : Z) (refs : list bytes) :
    result (list bytes * list bytes) :=
  match digits with
  | [] => Ok ([], [])
  | digit :: digits =>
      if Z.testbit state_mask digit then
        match refs with
        | [] => Panic
        | r :: refs =>
            '(items, child_hashes) ← branch_items digits state_mask hash_mask refs;
            Ok (r :: items, if Z.testbit hash_mask digit then r :: child_hashes else child_hashes)
        end
      else
        '(items, child_hashes) ← branch_items digits state_mask hash_mask refs;
        Ok (rlp_null :: items, child_hashes)
  end.

Definition branch_ref (state_mask hash_mask : Z) (hb : HashBuilder) :
    result (list bytes * HashBuilder) :=
  assert_subset hash_mask state_mask;;
  let children := count_ones state_mask in
  if (length (stack hb) <? children)%nat then Panic
  else
    let first_child_idx := (length (stack hb) - children)%nat in
    '(items, child_hashes) ← branch_items digits16 state_mask hash_mask (drop first_child_idx (stack hb));
    let out := rlp_list (items ++ [rlp_null]) in
    let hb := with_buffer out hb in
    Ok (child_hashes, with_stack (take first_child_idx (stack hb) ++ [node_ref out]) hb).

(** [private_root_hash(false)]. *)
Definition stack_root_hash (hb : HashBuilder) : result Z :=
  match last (stack hb) with
  | None => Ok EMPTY_ROOT
  | Some r =>
      Ok (if (length r =? KECCAK_LENGTH + 1)%nat then from_be_bytes (drop 1 r) else keccak256 r)
  end.

(** The steps of one turn of the loop of [gen_struct_step]. First, the digit
    goes into the group at [len], and the masks are as long as the path. *)
Definition open_group (len : nat) (extra_digit : Z) (current : bytes) (hb : HashBuilder) :
    result HashBuilder :=
  let g := if (length (groups hb) <=? len)%nat then resize (S len) 0 (groups hb) else groups hb in
  g ← alter_at len (set_bit extra_digit) g;
  let hb := with_groups g hb in
  Ok (if (length (tree_masks hb) <? length current)%nat
      then with_masks (resize (length current) 0 (tree_masks hb))
             (resize (length current) 0 (hash_masks hb)) hb
      else hb).

(** [1u16 << current.last().unwrap()] into the last masks of the path. *)
Definition mark_hash (current : bytes) (hb : HashBuilder) : result HashBuilder :=
  d ← unwrap (last current);
  t ← (if is_in_db_trie hb then alter_at (length current - 1) (set_bit d) (tree_masks hb)
       else Ok (tree_masks hb));
  h ← alter_at (length current - 1) (set_bit d) (hash_masks hb);
  Ok (with_masks t h hb).

(** The pending value goes on the stack; the result says whether an
    extension may be built over it. *)
Definition push_value (short_node_key current : bytes) (hb : HashBuilder) :
    result (bool * HashBuilder) :=
  match value hb with
  | ValueBytes leaf_value =>
      let '(rlp, hb) := leaf_node_rlp short_node_key leaf_value hb in
      Ok (false, with_stack (stack hb ++ [node_ref rlp]) hb)
  | ValueHash hash =>
      let hb := with_stack (stack hb ++ [wrap_hash hash]) hb in
      hb ← (if has_collector hb then mark_hash current hb else Ok hb);
      Ok (true, hb)
  end.

(** The masks when an extension is built over [current[len_from..]]. *)
Definition extension_masks (len_from : nat) (current : bytes) (hb : HashBuilder) : result HashBuilder :=
  d ← unwrap (current !! (len_from - 1)%nat);
  h ← alter_at (len_from - 1) (unset_bit d) (hash_masks hb);
  last_mask ← unwrap (tree_masks hb !! (length current - 1)%nat);
  t ← (if last_mask =? 0 then Ok (tree_masks hb)
       else alter_at (len_from - 1) (set_bit d) (tree_masks hb));
  Ok (with_masks t h hb).

Definition push_extension (len_from : nat) (short_node_key current : bytes) (hb : HashBuilder) :
    result HashBuilder :=
  hb ← (if has_collector hb && (0 <? len_from)%nat then extension_masks len_from current hb else Ok hb);
  stack_last ← unwrap (last (stack hb));
  let hb := with_stack (removelast (stack hb)) hb in
  let '(rlp, hb) := extension_node_rlp short_node_key stack_last hb in
  let hb := with_stack (stack hb ++ [node_ref rlp]) hb in
  Ok (with_masks (resize len_from 0 (tree_masks hb)) (resize len_from 0 (hash_masks hb)) hb).

(** The pending value or the branch that has just been closed, under the
    rest [current[len_from..]] of its path. *)
Definition push_node (build_extensions : bool) (len_from : nat) (current : bytes) (hb : HashBuilder) :
    result HashBuilder :=
  let short_node_key := drop len_from current in
  '(build_extensions, hb) ←
    (if build_extensions then Ok (true, hb) else push_value short_node_key current hb);
  if build_extensions && bool_decide (short_node_key ≠ [])
  then push_extension len_from short_node_key current hb else Ok hb.

(** [assert_eq!(child.len(), KECCAK_LENGTH + 1)] and its hash. *)
Definition hash_of_ref (r : bytes) : result Z :=
  if (length r =? KECCAK_LENGTH + 1)%nat then Ok (from_be_bytes (drop 1 r)) else Panic.

(** [masks[len - 1] |= 1u16 << current[len - 1]], if there is a parent. *)
Definition mark_parent (len : nat) (current : bytes) (masks : list Z) : result (list Z) :=
  match len with
  | O => Ok masks
  | S parent => d ← unwrap (current !! parent); alter_at parent (set_bit d) masks
  end.

(** The node of a branch that has just been closed, for the collector. *)
Definition collect_branch (len : nat) (current : bytes) (child_hashes : list bytes) (hb : HashBuilder) :
    result HashBuilder :=
  h ← mark_parent len current (hash_masks hb);
  let hb := with_masks (tree_masks hb) h hb in
  tree_mask ← unwrap (tree_masks hb !! len);
  hash_mask ← unwrap (hash_masks hb !! len);
  if negb (tree_mask =? 0) || negb (hash_mask =? 0) then
    t ← mark_parent len current (tree_masks hb);
    let hb := with_masks t (hash_masks hb) hb in
    hashes ← res_foldl (fun hashes r => h ← hash_of_ref r; Ok (hashes ++ [h])) [] child_hashes;
    state_mask ← unwrap (groups hb !! len);
    tree_mask ← unwrap (tree_masks hb !! len);
    hash_mask ← unwrap (hash_masks hb !! len);
    n ← new_node state_mask tree_mask hash_mask hashes None;
    n ← (if (len =? 0)%nat then h ← stack_root_hash hb; Ok (set_root_hash (Some h) n) else Ok n);
    Ok (with_collected ((fun calls => calls ++ [(take len current, n)]) <$> node_collector hb) hb)
  else Ok hb.

(** The branch at [len] is complete. *)
Definition close_branch (len : nat) (current : bytes) (hb : HashBuilder) : result HashBuilder :=
  state_mask ← unwrap (groups hb !! len);
  hash_mask ← unwrap (hash_masks hb !! len);
  '(child_hashes, hb) ← branch_ref state_mask hash_mask hb;
  if has_collector hb then collect_branch len current child_hashes hb else Ok hb.

(** [gen_struct_step], from a turn of its loop on. Every turn but the last
    shortens [current]: the fuel is one more than its length. *)
Fixpoint gen_struct_loop (fuel : nat) (build_extensions : bool) (current succeeding : bytes)
    (hb : HashBuilder) : result HashBuilder :=
  match fuel with
  | O => Err (Bail "out of fuel")
  | S fuel =>
      let preceding_exists := bool_decide (groups hb ≠ []) in
      let preceding_len := (length (groups hb) - 1)%nat in
      let common_prefix_len := prefix_length succeeding current in
      let len := Nat.max preceding_len common_prefix_len in
      if (length current <=? len)%nat then Panic
      else
        extra_digit ← unwrap (current !! len);
        hb ← open_group len extra_digit current hb;
        let continues := bool_decide (succeeding ≠ []) in
        let len_from := if continues || preceding_exists then S len else len in
        hb ← push_node build_extensions len_from current hb;
        if (preceding_len <=? common_prefix_len)%nat && continues then Ok hb
        else
          hb ← (if continues || preceding_exists then close_branch len current hb else Ok hb);
          let hb := with_masks (resize len 0 (tree_masks hb)) (resize len 0 (hash_masks hb))
                      (with_groups (resize len 0 (groups hb)) hb) in
          if (preceding_len =? 0)%nat then Ok hb
          else
            let current := take preceding_len current in
            let hb := with_groups (pop_zeros (groups hb)) hb in
            gen_struct_loop fuel true current succeeding hb
  end.

Definition gen_struct_step (current succeeding : bytes) (hb : HashBuilder) : result HashBuilder :=
  gen_struct_loop (S (length current)) false current succeeding hb.

(** [assert!(key > self.key)]. *)
Definition assert (b : bool) : result unit := if b then Ok tt else Panic.

Definition add_leaf (k : bytes) (v : bytes) (hb : HashBuilder) : result HashBuilder :=
  assert (bool_decide (bytes_lt (key hb) k));;
  hb ← (if bool_decide (key hb ≠ []) then gen_struct_step (key hb) k hb else Ok hb);
  Ok (with_key k (ValueBytes v) (is_in_db_trie hb) hb).

Definition add_branch_node (k : bytes) (v : Z) (in_db : bool) (hb : HashBuilder) : result HashBuilder :=
  assert (bool_decide (bytes_lt (key hb) k) || bool_decide (key hb = [] ∧ k = []));;
  hb ← (if bool_decide (key hb ≠ []) then gen_struct_step (key hb) k hb
        else Ok (if bool_decide (k = []) then with_stack (stack hb ++ [wrap_hash v]) hb else hb));
  Ok (with_key k (ValueHash v) in_db hb).

(** A client adds leaves and known subtrees in the order of their keys, the
    latter with the flag that says whether they are in the database. *)
Definition add_item (i : bytes * HashBuilderValue) (in_db : bool) (hb : HashBuilder) : result HashBuilder :=
  match i.2 with
  | ValueBytes v => add_leaf i.1 v hb
  | ValueHash h => add_branch_node i.1 h in_db hb
  end.

Definition add_items (l : list ((bytes * HashBuilderValue) * bool)) (hb : HashBuilder) :
    result HashBuilder :=
  res_foldl (fun hb i => add_item i.1 i.2 hb) hb l.

Definition finalize (hb : HashBuilder) : result HashBuilder :=
  if bool_decide (key hb ≠ [])
  then
    hb ← gen_struct_step (key hb) [] hb;
    Ok (with_key [] (ValueBytes []) (is_in_db_trie hb) hb)
  else Ok hb.

Definition root_hash (hb : HashBuilder) : result (Z * HashBuilder) :=
  hb ← finalize hb;
  h ← stack_root_hash hb;
  Ok (h, hb).

End builder.
