(* ===== verification/MerkleTrie.v ===== *)
(** * MerkleTrie

    The Merkle-Patricia tree of a sequence of items, by recursion on their
    paths: the specification of the hash builder. An item is a leaf, or the
    known hash of the whole subtree under its key. *)

From stdpp Require Import sorting.
From S2P Require Import Prelude Words Errors Account Block BytesOrder TrieNode HashBuilder.

Abbreviation item := (bytes * HashBuilderValue)%type.

(** ** Items under a path *)

Definition down_item (x : Z) (i : item) : option item :=
  match i.1 with
  | y :: k => if y =? x then Some (k, i.2) else None
  | [] => None
  end.

Definition down (x : Z) (items : list item) : list item := omap (down_item x) items.

Definition sub (p : bytes) (items : list item) : list item := foldl (fun l x => down x l) items p.

Definition prepend (q : bytes) (items : list item) : list item := (fun i => (q ++ i.1, i.2)) <$> items.

(** The path that all the items share. *)
Definition lcp (a b : bytes) : bytes := take (prefix_length a b) a.

Definition shared (items : list item) : bytes :=
  match items with
  | [] => []
  | i :: rest => foldr (fun j c => lcp c j.1) i.1 rest
  end.

(** The length of the longest key. *)
Definition depth (items : list item) : nat := max_list (length ∘ fst <$> items).

(** ** Nodes *)

(** What stands for a subtree: its encoding, or a hash that is known. *)
Inductive capped : Type :=
| Rlp (b : bytes)
| Known (h : Z).

Section trie.
Context `{!Hashing} `{!RlpStream}.

(** How a parent refers to the subtree. *)
Definition ref_of (c : capped) : bytes :=
  match c with Rlp b => node_ref b | Known h => wrap_hash h end.

Definition extend (q : bytes) (c : capped) : capped :=
  match q with [] => c | _ => Rlp (extension_rlp q (ref_of c)) end.

Definition branch_rlp (child : Z → bytes) : bytes := rlp_list ((child <$> digits16) ++ [rlp_null]).

(** A leaf, or an extension over a branch; the fuel bounds the nesting of
    branches. *)
Fixpoint cap (fuel : nat) (items : list item) : capped :=
  match items with
  | [] => Rlp rlp_null
  | [(k, ValueBytes v)] => Rlp (leaf_rlp k v)
  | [(k, ValueHash h)] => extend k (Known h)
  | _ =>
      match fuel with
      | O => Rlp []
      | S fuel =>
          let q := shared items in
          let child d := match sub (q ++ [d]) items with [] => rlp_null | l => ref_of (cap fuel l) end in
          extend q (Rlp (branch_rlp child))
      end
  end.

(** The root node, and its hash. *)
Definition trie_node (items : list item) : capped := cap (depth items) items.

Definition merkle_root (items : list item) : Z :=
  match items with
  | [] => EMPTY_ROOT
  | _ => match trie_node items with Rlp b => keccak256 b | Known h => h end
  end.

Definition child (items : list item) (d : Z) : bytes :=
  match down d items with [] => rlp_null | l => ref_of (trie_node l) end.

End trie.

(** ** The items the builder takes

    Their keys are paths of nibbles, in increasing order, none under
    another. *)

Definition diverges (a b : bytes) : Prop := bytes_lt a b ∧ ¬ a `prefix_of` b.

Definition nibbles (k : bytes) : Prop := Forall (fun x => 0 ≤ x < 16) k.

Definition value_ok (v : HashBuilderValue) : Prop :=
  match v with ValueBytes _ => True | ValueHash h => is_u256 h end.

Record items_ok (items : list item) : Prop := {
  items_sorted : StronglySorted diverges items.*1;
  items_nibbles : Forall nibbles items.*1;
  items_values : Forall value_ok items.*2
}.

(** At least two of the items part at their first nibble. *)
Definition branching (items : list item) : Prop :=
  ∃ x y, x ≠ y ∧ down x items ≠ [] ∧ down y items ≠ [].

(** ** Lemmas on paths *)

Lemma diverges_cons x y a b : diverges (x :: a) (y :: b) ↔ x < y ∨ x = y ∧ diverges a b.
Proof.
  unfold diverges, bytes_lt. cbn. destruct (Z.compare_spec x y) as [->|Hlt|Hgt].
  - assert (y :: a `prefix_of` y :: b ↔ a `prefix_of` b) as ->.
    { split; [apply prefix_cons_inv_2|apply prefix_cons]. }
    split; [by right|]. intros [?|[_ ?]]; [lia|done].
  - split; [by left|]. intros _. split; [done|]. intros ?%prefix_cons_inv_1. lia.
  - split; [by intros [? _]|]. intros [?|[? _]]; lia.
Qed.

Lemma diverges_nil a b : diverges a b → a ≠ [] ∧ b ≠ [].
Proof.
  intros [Hlt Hp]. split; intros ->; [by destruct Hp; apply prefix_nil|]. by destruct a.
Qed.

Lemma down_app x l1 l2 : down x (l1 ++ l2) = down x l1 ++ down x l2.
Proof. apply omap_app. Qed.

Lemma elem_of_down x k v items : (k, v) ∈ down x items ↔ (x :: k, v) ∈ items.
Proof.
  unfold down. rewrite list_elem_of_omap. split.
  - intros ([[|y k'] v'] & Hin & Heq); unfold down_item in Heq; cbn in Heq; [done|].
    destruct (Z.eqb_spec y x) as [->|]; [|done]. by injection Heq as -> ->.
  - intros Hin. exists (x :: k, v). split; [done|]. unfold down_item. cbn. by rewrite Z.eqb_refl.
Qed.

Lemma sub_app p q items : sub (p ++ q) items = sub q (sub p items).
Proof. apply foldl_app. Qed.

Lemma elem_of_sub p k v items : (k, v) ∈ sub p items ↔ (p ++ k, v) ∈ items.
Proof.
  revert items. induction p as [|x p IH]; intros items; [done|].
  cbn. rewrite (IH (down x items)). apply elem_of_down.
Qed.

Lemma down_nonempty x items : down x items ≠ [] ↔ ∃ k v, (x :: k, v) ∈ items.
Proof.
  split.
  - destruct (down x items) as [|[k v] l] eqn:E; [done|]. intros _. exists k, v.
    apply elem_of_down. rewrite E. by left.
  - intros (k & v & Hin%elem_of_down) E. rewrite E in Hin. by apply elem_of_nil in Hin.
Qed.

Lemma down_cons x y k v items :
  down x ((y :: k, v) :: items) = if y =? x then (k, v) :: down x items else down x items.
Proof. unfold down. cbn. unfold down_item at 1. cbn. by destruct (y =? x). Qed.

Lemma prepend_cons q k v items : prepend q ((k, v) :: items) = (q ++ k, v) :: prepend q items.
Proof. done. Qed.

Lemma down_prepend x q items : down x (prepend (x :: q) items) = prepend q items.
Proof.
  induction items as [|[k v] items IH]; [done|].
  rewrite !prepend_cons. cbn [app]. by rewrite down_cons, Z.eqb_refl, IH.
Qed.

Lemma down_prepend_ne x y q items : x ≠ y → down x (prepend (y :: q) items) = [].
Proof.
  intros Hne. induction items as [|[k v] items IH]; [done|].
  rewrite prepend_cons. cbn [app]. by rewrite down_cons, (proj2 (Z.eqb_neq y x)) by done.
Qed.

Lemma prepend_nil items : prepend [] items = items.
Proof. unfold prepend. rewrite <- (list_fmap_id items) at 2. by apply list_fmap_ext; intros ? [].  Qed.

Lemma prepend_app p q items : prepend (p ++ q) items = prepend p (prepend q items).
Proof.
  unfold prepend. rewrite <- list_fmap_compose. apply list_fmap_ext. intros _ [k v] _. cbn.
  by rewrite app_assoc.
Qed.

Lemma sub_prepend q items : sub q (prepend q items) = items.
Proof.
  induction q as [|x q IH]; [apply prepend_nil|]. cbn. rewrite down_prepend. apply IH.
Qed.

Lemma elem_of_prepend q k v items : (k, v) ∈ prepend q items ↔ ∃ k', k = q ++ k' ∧ (k', v) ∈ items.
Proof.
  unfold prepend. rewrite list_elem_of_fmap. split.
  - intros ([k' v'] & [= -> ->] & Hin). eauto.
  - intros (k' & -> & Hin). by exists (k', v).
Qed.

(** ** Items that are in order *)

Lemma items_ok_inv i items :
  items_ok (i :: items) →
  items_ok items ∧ Forall (diverges i.1) items.*1 ∧ nibbles i.1 ∧ value_ok i.2.
Proof.
  intros [Hs Hn Hv]. cbn in *. inversion Hs. inversion Hn. inversion Hv. by repeat split.
Qed.

Lemma items_ok_cons i items :
  items_ok items → Forall (diverges i.1) items.*1 → nibbles i.1 → value_ok i.2 →
  items_ok (i :: items).
Proof. intros [Hs Hn Hv] ???. by split; cbn; constructor. Qed.

Lemma items_ok_nil : items_ok [].
Proof. split; constructor. Qed.

Lemma down_ok x items : items_ok items → items_ok (down x items).
Proof.
  induction items as [|[k v] items IH]; [done|].
  intros (Hok & Hd & Hn & Hv)%items_ok_inv. cbn [fst snd] in *. specialize (IH Hok).
  destruct k as [|y k]; [done|]. rewrite down_cons. destruct (Z.eqb_spec y x) as [->|]; [|done].
  apply items_ok_cons; cbn; [done| |by inversion Hn|done].
  rewrite Forall_forall in *. intros k' ([k'' v'] & -> & Hin)%list_elem_of_fmap. cbn.
  apply elem_of_down in Hin. specialize (Hd (x :: k'') (list_elem_of_fmap_2 fst _ _ Hin)).
  apply diverges_cons in Hd as [?|[_ ?]]; [lia|done].
Qed.

Lemma sub_ok p items : items_ok items → items_ok (sub p items).
Proof. revert items. induction p as [|x p IH]; intros items Hok; [done|]. exact (IH (down x items) (down_ok x items Hok)). Qed.

Lemma items_ok_nibbles items k v : items_ok items → (k, v) ∈ items → nibbles k.
Proof.
  intros [_ Hn _] Hin. rewrite Forall_forall in Hn. by apply Hn, (list_elem_of_fmap_2 fst _ _ Hin).
Qed.

(** The empty path only stands alone. *)
Lemma items_ok_empty_key items v : items_ok items → ([], v) ∈ items → items = [([], v)].
Proof.
  destruct items as [|[k v'] items]; [by intros _ ?%elem_of_nil|].
  intros (_ & Hd & _ & _)%items_ok_inv. cbn [fst snd] in *. rewrite Forall_forall in Hd.
  intros [[= <- <-]|Hin]%elem_of_cons.
  - destruct items as [|[k' v'] items]; [done|].
    by destruct (proj1 (diverges_nil _ _ (Hd k' (list_elem_of_here _ _)))).
  - by destruct (proj2 (diverges_nil _ _ (Hd [] (list_elem_of_fmap_2 fst _ _ Hin)))).
Qed.

(** Items that all start with one nibble. *)
Lemma down_all x items :
  (∀ k v, (k, v) ∈ items → ∃ k', k = x :: k') → items = prepend [x] (down x items).
Proof.
  induction items as [|[k v] items IH]; intros Hall; [done|].
  destruct (Hall k v (list_elem_of_here _ _)) as (k' & ->).
  rewrite down_cons, Z.eqb_refl, prepend_cons. cbn [app]. f_equal. apply IH.
  intros k v' Hin. apply (Hall k v'). by right.
Qed.

(** ** Unfolding the tree *)

Lemma lcp_app q a b : lcp (q ++ a) (q ++ b) = q ++ lcp a b.
Proof.
  unfold lcp. induction q as [|x q IH]; [done|]. cbn. rewrite Z.eqb_refl. cbn. by rewrite IH.
Qed.

Lemma shared_prepend q items : items ≠ [] → shared (prepend q items) = q ++ shared items.
Proof.
  destruct items as [|[k v] items]; [done|]. intros _. rewrite prepend_cons. cbn [shared fst].
  induction items as [|[k' v'] items IH]; [done|].
  rewrite prepend_cons. cbn [foldr]. rewrite IH. apply lcp_app.
Qed.

Lemma lcp_prefix_l a b : lcp a b `prefix_of` a.
Proof. apply prefix_take. Qed.

Lemma lcp_prefix_r a b : lcp a b `prefix_of` b.
Proof.
  unfold lcp. revert b. induction a as [|x a IH]; intros [|y b]; cbn; [apply prefix_nil..|].
  destruct (Z.eqb_spec x y) as [->|]; [|apply prefix_nil]. apply prefix_cons, IH.
Qed.

Lemma shared_prefix items k v : (k, v) ∈ items → shared items `prefix_of` k.
Proof.
  destruct items as [|[k0 v0] rest]; [by intros ?%elem_of_nil|]. cbn [shared fst].
  assert (foldr (fun j c => lcp c j.1) k0 rest `prefix_of` k0
          ∧ ∀ k v, (k, v) ∈ rest → foldr (fun j c => lcp c j.1) k0 rest `prefix_of` k) as [H0 Hrest].
  { induction rest as [|[k' v'] rest [IH0 IH]]; cbn; [split; [done|by intros ?? ?%elem_of_nil]|].
    split; [etrans; [apply lcp_prefix_l|done]|].
    intros k1 v1 [[= -> ->]|Hin]%elem_of_cons; [apply lcp_prefix_r|].
    etrans; [apply lcp_prefix_l|by apply (IH k1 v1)]. }
  intros [[= -> ->]|Hin]%elem_of_cons; eauto.
Qed.

Lemma shared_branching items : branching items → shared items = [].
Proof.
  intros (x & y & Hne & (k & v & Hx)%down_nonempty & (k' & v' & Hy)%down_nonempty).
  apply shared_prefix in Hx as [a Ha]. apply shared_prefix in Hy as [b Hb].
  destruct (shared items) as [|z s]; [done|]. cbn in Ha, Hb. by injection Ha; injection Hb; intros; subst.
Qed.

Lemma depth_le items n : (depth items ≤ n)%nat ↔ ∀ k v, (k, v) ∈ items → (length k ≤ n)%nat.
Proof.
  unfold depth. induction items as [|[k v] items IH]; cbn.
  - split; [by intros _ ?? ?%elem_of_nil|lia].
  - rewrite Nat.max_lub_iff, IH. split.
    + intros [? H] k' v' [[= -> ->]|Hin]%elem_of_cons; [done|eauto].
    + intros H. split; [apply (H k v); left|]. intros k' v' Hin. apply (H k' v'). by right.
Qed.

Section unfold.
Context `{!Hashing} `{!RlpStream}.

Lemma branch_rlp_ext f g : (∀ d, f d = g d) → branch_rlp f = branch_rlp g.
Proof. intros Hfg. unfold branch_rlp. by rewrite (list_fmap_ext f g) by auto. Qed.

Lemma cap_single n k v :
  cap n [(k, v)] = match v with ValueBytes b => Rlp (leaf_rlp k b) | ValueHash h => extend k (Known h) end.
Proof. by destruct n, v. Qed.

(** Two items or more make a branch. *)
Definition cap_child (n : nat) (q : bytes) (items : list item) (d : Z) : bytes :=
  match sub (q ++ [d]) items with [] => rlp_null | l => ref_of (cap n l) end.

Lemma cap_many n i j items :
  cap (S n) (i :: j :: items)
  = extend (shared (i :: j :: items))
      (Rlp (branch_rlp (cap_child n (shared (i :: j :: items)) (i :: j :: items)))).
Proof. by destruct i as [k []]. Qed.

Lemma depth_many i j items : items_ok (i :: j :: items) → (0 < depth (i :: j :: items))%nat.
Proof.
  intros (_ & Hd & _)%items_ok_inv. cbn in Hd. inversion Hd as [|? ? [Hi _]%diverges_nil].
  unfold depth. destruct i as [[|d k] v]; [done|]. cbn. lia.
Qed.

Lemma depth_sub q d items n : (depth items ≤ S n)%nat → (depth (sub (q ++ [d]) items) ≤ n)%nat.
Proof.
  rewrite !depth_le. intros Hle k v Hin. apply elem_of_sub in Hin. specialize (Hle _ _ Hin).
  rewrite !length_app in Hle. cbn in Hle. lia.
Qed.

Lemma cap_fuel n m items :
  items_ok items → (depth items ≤ n)%nat → (depth items ≤ m)%nat → cap n items = cap m items.
Proof.
  revert m items. induction n as [|n IH]; intros m items Hok Hn Hm;
    destruct items as [|[k v] [|j items]]; rewrite ?cap_single; [by destruct m|done| |by destruct m|done|].
  - pose proof (depth_many _ _ _ Hok). lia.
  - destruct m as [|m]; [pose proof (depth_many _ _ _ Hok); lia|].
    rewrite !cap_many. f_equal. f_equal. apply branch_rlp_ext. intros d. unfold cap_child.
    set (q := shared _). pose proof (depth_sub q d _ _ Hn) as Hn'. pose proof (depth_sub q d _ _ Hm) as Hm'.
    pose proof (sub_ok (q ++ [d]) _ Hok) as Hok'.
    destruct (sub (q ++ [d]) _) as [|i l]; [done|]. by rewrite (IH m).
Qed.

(** The node of an item alone, and of items that branch, under any path. *)
Lemma trie_node_leaf q v : trie_node [(q, ValueBytes v)] = Rlp (leaf_rlp q v).
Proof. apply cap_single. Qed.

Lemma trie_node_hash q h : trie_node [(q, ValueHash h)] = extend q (Known h).
Proof. apply cap_single. Qed.

Lemma branching_many items : branching items → ∃ i j l, items = i :: j :: l.
Proof.
  intros (x & y & Hne & (k & v & Hx)%down_nonempty & (k' & v' & Hy)%down_nonempty).
  destruct items as [|i [|j l]]; [by apply elem_of_nil in Hx| |eauto].
  apply list_elem_of_singleton in Hx, Hy. congruence.
Qed.

Lemma prepend_ok q items : nibbles q → items_ok items → items_ok (prepend q items).
Proof.
  intros Hq. induction items as [|[k v] items IH]; [done|].
  intros (Hok & Hd & Hn & Hv)%items_ok_inv. rewrite prepend_cons. cbn [fst snd] in *.
  apply items_ok_cons; cbn [fst snd]; [by apply IH| |by apply Forall_app|done].
  rewrite Forall_forall in *. intros k' ([k'' v'] & -> & Hin)%list_elem_of_fmap. cbn.
  apply elem_of_prepend in Hin as (k1 & -> & Hin).
  specialize (Hd k1 (list_elem_of_fmap_2 fst _ _ Hin)). clear IH Hq.
  induction q as [|x q IH]; [done|]. apply diverges_cons. right. by split.
Qed.

Lemma trie_node_branching q items :
  nibbles q → items_ok items → branching items →
  trie_node (prepend q items) = extend q (Rlp (branch_rlp (child items))).
Proof.
  intros Hq Hok Hb. pose proof (prepend_ok q items Hq Hok) as Hok'.
  assert (items ≠ []) as Hne by (intros ->; by destruct (branching_many _ Hb) as (? & ? & ? & ?)).
  assert (shared (prepend q items) = q) as Hshared
    by (rewrite shared_prepend, shared_branching, app_nil_r; done).
  assert (∃ i j l, prepend q items = i :: j :: l) as (i & j & l & Hmany).
  { destruct (branching_many _ Hb) as ([k v] & [k' v'] & l & ->). by eexists _, _, _. }
  unfold trie_node. assert (0 < depth (prepend q items))%nat as Hdepth
    by (rewrite Hmany in *; by apply depth_many).
  destruct (depth (prepend q items)) as [|n] eqn:Hn; [lia|].
  rewrite Hmany at 1. rewrite cap_many, <- Hmany, Hshared. f_equal. f_equal.
  apply branch_rlp_ext. intros d. unfold cap_child, child.
  pose proof (depth_sub q d (prepend q items) n ltac:(lia)) as Hd.
  rewrite sub_app, sub_prepend in *. cbn [sub foldl] in *.
  pose proof (down_ok d _ Hok) as Hokd.
  destruct (down d items) as [|i' l'] eqn:E; [done|].
  unfold trie_node. by rewrite (cap_fuel n (depth (i' :: l'))).
Qed.

End unfold.
