(* ===== verification/BuilderFrames.v ===== *)
(** * BuilderFrames

    What the stack and the groups of the hash builder stand for: the
    references and the masks of the completed children along a path. *)

From stdpp Require Import sorting.
From S2P Require Import Prelude Words Errors Account Block BytesOrder TrieNode HashBuilder MerkleTrie.

(** ** Bits of masks *)

Lemma testbit_bit16 d e : 0 ≤ d < 16 → Z.testbit (bit16 d) e = (d =? e).
Proof.
  intros Hd. unfold bit16. change 15 with (Z.ones 4). rewrite Z.land_ones, Z.mod_small by lia.
  rewrite Z.shiftl_1_l. apply Z.pow2_bits_eqb. lia.
Qed.

Lemma testbit_set_bit d m e : 0 ≤ d < 16 → Z.testbit (set_bit d m) e = Z.testbit m e || (d =? e).
Proof. intros Hd. unfold set_bit. by rewrite Z.lor_spec, testbit_bit16. Qed.

Lemma testbit_unset_bit d m e :
  0 ≤ d < 16 → 0 ≤ e → Z.testbit (unset_bit d m) e = Z.testbit m e && negb (d =? e).
Proof. intros Hd He. unfold unset_bit. by rewrite Z.land_spec, Z.lnot_spec, testbit_bit16. Qed.

(** The mask of the digits that satisfy a predicate. *)
Definition mask_of (P : Z → Prop) `{∀ d, Decision (P d)} : Z :=
  foldr (fun d m => if decide (P d) then set_bit d m else m) 0 digits16.

Lemma elem_of_digits16 d : d ∈ digits16 ↔ 0 ≤ d < 16.
Proof. unfold digits16. rewrite elem_of_seqZ. lia. Qed.

Lemma testbit_mask_of (P : Z → Prop) `{∀ d, Decision (P d)} e :
  Z.testbit (mask_of P) e = true ↔ 0 ≤ e < 16 ∧ P e.
Proof.
  unfold mask_of. rewrite <- elem_of_digits16.
  assert (Forall (fun d => 0 ≤ d < 16) digits16) as Hall
    by (apply Forall_forall; intros d; apply elem_of_digits16).
  induction Hall as [|d ds Hd _ IH]; cbn [foldr].
  - rewrite Z.bits_0. set_solver.
  - rewrite elem_of_cons. destruct (decide (P d)) as [HP|HP].
    + rewrite testbit_set_bit, orb_true_iff, IH, Z.eqb_eq by done. naive_solver.
    + rewrite IH. naive_solver.
Qed.

(** Masks of the digits that a boolean test selects. *)
Definition u16_mask (m : Z) : Prop := ∀ e, Z.testbit m e = true → 0 ≤ e < 16.

Lemma mask_eq m m' : (∀ e, Z.testbit m e = true ↔ Z.testbit m' e = true) → m = m'.
Proof. intros Heq. apply Z.bits_inj'. intros e _. apply eq_true_iff_eq, Heq. Qed.

Lemma mask_subset m m' :
  (∀ e, Z.testbit m e = true → Z.testbit m' e = true) → assert_subset m m' = Ok tt.
Proof.
  intros Hsub. unfold assert_subset.
  replace (Z.land m m') with m; [by rewrite Z.eqb_refl|].
  apply mask_eq. intros e. rewrite Z.land_spec, andb_true_iff. naive_solver.
Qed.

Lemma filter_ext_elem {A} (P Q : A → Prop) `{∀ x, Decision (P x)} `{∀ x, Decision (Q x)} (l : list A) :
  (∀ x, x ∈ l → P x ↔ Q x) → filter P l = filter Q l.
Proof.
  induction l as [|a l IH]; intros Heq; [done|]. rewrite !filter_cons.
  rewrite IH by (intros x Hx; apply Heq; by right).
  pose proof (Heq a (list_elem_of_here _ _)). destruct (decide (P a)), (decide (Q a)); tauto.
Qed.

(** ** Trailing zeros *)

Lemma pop_zeros_app_zeros l k : pop_zeros (l ++ replicate k 0) = pop_zeros l.
Proof.
  induction l as [|x l IH]; cbn; [|by rewrite IH].
  induction k as [|k IH]; [done|]. cbn. by rewrite IH.
Qed.

Lemma pop_zeros_snoc l m : m ≠ 0 → pop_zeros (l ++ [m]) = l ++ [m].
Proof.
  intros Hm. induction l as [|x l IH]; cbn; [by rewrite (proj2 (Z.eqb_neq m 0))|].
  rewrite IH. by destruct l.
Qed.

Lemma pop_zeros_spec l :
  (∃ k, l = pop_zeros l ++ replicate k 0) ∧ last (pop_zeros l) ≠ Some 0.
Proof.
  induction l as [|x l [[k IH] Hlast]]; [by split; [exists 0%nat|]|]. cbn.
  destruct (pop_zeros l) as [|y l'] eqn:E.
  - destruct (Z.eqb_spec x 0) as [->|Hx].
    + split; [|done]. exists (S k). cbn in *. by rewrite IH at 1.
    + split; [exists k; cbn in *; by rewrite IH at 1|]. cbn. congruence.
  - split; [exists k; rewrite IH at 1; done|]. done.
Qed.

Lemma resize_pop_zeros n l :
  (length (pop_zeros l) ≤ n)%nat → (n ≤ length l)%nat → resize n 0 (pop_zeros l) = take n l.
Proof.
  intros H1 H2. destruct (pop_zeros_spec l) as [[k Hl] _]. rewrite Hl at 2.
  rewrite Hl, length_app, length_replicate in H2.
  rewrite resize_ge, take_app_ge by done. f_equal.
  rewrite take_replicate. f_equal. lia.
Qed.

Lemma pop_zeros_lookup l j m : l !! j = Some m → (length (pop_zeros l) ≤ j)%nat → m = 0.
Proof.
  intros Hj Hle. destruct (pop_zeros_spec l) as [[k Hl] _]. rewrite Hl, lookup_app_r in Hj by done.
  by apply lookup_replicate in Hj as [-> _].
Qed.

Lemma pop_zeros_last l : pop_zeros l ≠ [] →
  ∃ m, l !! (length (pop_zeros l) - 1)%nat = Some m ∧ m ≠ 0 ∧ (length (pop_zeros l) ≤ length l)%nat.
Proof.
  intros Hne. destruct (pop_zeros_spec l) as [[k Hl] Hlast].
  destruct (last (pop_zeros l)) as [m|] eqn:E; [|by apply last_None in E].
  apply (f_equal length) in Hl as Hlen. rewrite length_app in Hlen.
  exists m. split; [|split; [congruence|lia]].
  rewrite last_lookup in E. apply (lookup_app_l_Some _ (replicate k 0)) in E. rewrite <- Hl in E.
  by rewrite Nat.sub_1_r.
Qed.

(** ** Completed children along a path *)

Definition lower (x : Z) (items : list item) (d : Z) : Prop := d < x ∧ down d items ≠ [].

#[global] Instance lower_dec x items d : Decision (lower x items d).
Proof. unfold lower. apply _. Defined.

Definition masks (P : bytes) (items : list item) : list Z :=
  imap (fun j x => mask_of (lower x (sub (take j P) items))) P.

Lemma length_masks P items : length (masks P items) = length P.
Proof. apply length_imap. Qed.

Lemma masks_lookup P items j :
  masks P items !! j = (fun x => mask_of (lower x (sub (take j P) items))) <$> P !! j.
Proof. apply list_lookup_imap. Qed.

Lemma masks_take n P items : take n (masks P items) = masks (take n P) items.
Proof.
  apply list_eq. intros j. destruct (decide (j < n)%nat) as [Hlt|Hge].
  - rewrite lookup_take_lt, !masks_lookup, lookup_take_lt by done.
    rewrite take_take. by rewrite Nat.min_l by lia.
  - rewrite lookup_take_ge by lia. symmetry. apply lookup_ge_None_2.
    rewrite length_masks, length_take. lia.
Qed.

(** Along a path that keeps to the right, nothing is greater. *)
Fixpoint rightmost (P : bytes) (items : list item) : Prop :=
  match P with
  | [] => True
  | x :: P => (∀ d, x < d → down d items = []) ∧ rightmost P (down x items)
  end.

Fixpoint leftmost (P : bytes) (items : list item) : Prop :=
  match P with
  | [] => True
  | x :: P => (∀ d, d < x → down d items = []) ∧ leftmost P (down x items)
  end.

Lemma rightmost_app p q items : rightmost (p ++ q) items ↔ rightmost p items ∧ rightmost q (sub p items).
Proof.
  revert items. induction p as [|x p IH]; intros items; [cbn; tauto|].
  cbn [app rightmost]. rewrite IH. change (sub (x :: p) items) with (sub p (down x items)). tauto.
Qed.

Lemma sub_cons x p items : sub (x :: p) items = sub p (down x items).
Proof. done. Qed.

Lemma down_nil x : down x [] = [].
Proof. done. Qed.

Lemma sub_nil p : sub p [] = [].
Proof. by induction p. Qed.

Lemma down_outside x items : items_ok items → ¬ 0 ≤ x < 16 → down x items = [].
Proof.
  intros Hok Hx. destruct (decide (down x items = [])) as [|(k & v & Hin)%down_nonempty]; [done|].
  apply items_ok_nibbles in Hin; [|done]. inversion Hin. lia.
Qed.

(** With no other child on either side, the items share the path. *)
Lemma only_path q items :
  items_ok items → sub q items ≠ [] → leftmost q items → rightmost q items →
  items = prepend q (sub q items).
Proof.
  revert items. induction q as [|x q IH]; intros items Hok Hne Hl Hr; [by rewrite prepend_nil|].
  destruct Hl as [Hl0 Hl], Hr as [Hr0 Hr]. rewrite sub_cons in *.
  change (x :: q) with ([x] ++ q). rewrite prepend_app, <- IH by eauto using down_ok.
  apply down_all. intros k v Hin.
  assert (down x items ≠ []) as Hx by (intros E; by rewrite E, sub_nil in Hne).
  destruct k as [|y k].
  { apply items_ok_empty_key in Hin; [|done]. by rewrite Hin in Hx. }
  exists k. f_equal. assert (down y items ≠ []) as Hy by (apply down_nonempty; eauto).
  destruct (Z.lt_trichotomy y x) as [?|[?|?]]; [by rewrite Hl0 in Hy|done|by rewrite Hr0 in Hy].
Qed.

Lemma masks_cons x P items : masks (x :: P) items = mask_of (lower x items) :: masks P (down x items).
Proof. done. Qed.

Lemma masks_app p q items : masks (p ++ q) items = masks p items ++ masks q (sub p items).
Proof.
  revert items. induction p as [|x p IH]; intros items; [done|].
  cbn [app]. by rewrite !masks_cons, IH.
Qed.

Lemma leftmost_masks P items :
  items_ok items → leftmost P items ↔ masks P items = replicate (length P) 0.
Proof.
  revert items. induction P as [|x P IH]; intros items Hok; [done|].
  rewrite masks_cons. cbn [leftmost length replicate]. rewrite IH by by apply down_ok.
  assert ((∀ d, d < x → down d items = []) ↔ mask_of (lower x items) = 0) as ->.
  { split.
    - intros Hl. apply mask_eq. intros e. rewrite testbit_mask_of, Z.bits_0. unfold lower.
      split; [|done]. intros (_ & Hlt & Hne). by rewrite Hl in Hne.
    - intros H0 d Hd. destruct (decide (0 ≤ d < 16)) as [Hd16|]; [|by apply down_outside].
      destruct (decide (down d items = [])) as [|Hne]; [done|].
      assert (Z.testbit (mask_of (lower x items)) d = true) as Hb by by apply testbit_mask_of.
      by rewrite H0, Z.bits_0 in Hb. }
  split; [by intros [-> ->]|by intros [= -> ->]].
Qed.

(** ** Where the keys of the items lie *)

Lemma diverges_app p a b : diverges (p ++ a) (p ++ b) ↔ diverges a b.
Proof.
  induction p as [|x p IH]; [done|]. cbn [app]. rewrite diverges_cons, IH.
  split; [intros [?|[_ ?]]; [lia|done]|by right].
Qed.

Lemma diverges_irrefl a : ¬ diverges a a.
Proof. intros [H _]. by apply bytes_lt_irrefl in H. Qed.

Lemma diverges_trans a b c : diverges a b → diverges b c → diverges a c.
Proof.
  revert b c. induction a as [|x a IH]; intros [|y b] [|z c] Hab Hbc;
    try (by destruct (diverges_nil _ _ Hab)); try (by destruct (diverges_nil _ _ Hbc)).
  rewrite diverges_cons in *. destruct Hab as [?|[-> ?]], Hbc as [?|[-> ?]]; [left; lia..|].
  right. eauto.
Qed.

Lemma rightmost_intro P items : (∀ k v, (k, v) ∈ items → ¬ diverges P k) → rightmost P items.
Proof.
  revert items. induction P as [|x P IH]; intros items Hnone; [done|]. cbn [rightmost]. split.
  - intros d Hd. destruct (decide (down d items = [])) as [|(k & v & Hin)%down_nonempty]; [done|].
    destruct (Hnone _ _ Hin). apply diverges_cons. by left.
  - apply IH. intros k v Hin%elem_of_down Hd. destruct (Hnone _ _ Hin). apply diverges_cons. by right.
Qed.

Lemma leftmost_intro P items : (∀ k v, (k, v) ∈ items → ¬ diverges k P) → leftmost P items.
Proof.
  revert items. induction P as [|x P IH]; intros items Hnone; [done|]. cbn [leftmost]. split.
  - intros d Hd. destruct (decide (down d items = [])) as [|(k & v & Hin)%down_nonempty]; [done|].
    destruct (Hnone _ _ Hin). apply diverges_cons. by left.
  - apply IH. intros k v Hin%elem_of_down Hd. destruct (Hnone _ _ Hin). apply diverges_cons. by right.
Qed.

Lemma sorted_middle (l1 l2 : list bytes) K :
  StronglySorted diverges (l1 ++ K :: l2) →
  (∀ k, k ∈ l1 → diverges k K) ∧ (∀ k, k ∈ l2 → diverges K k).
Proof.
  induction l1 as [|k0 l1 IH]; cbn; intros Hs; inversion Hs as [|? ? Hs' Hall]; subst.
  - split; [by intros k ?%elem_of_nil|by apply Forall_forall].
  - destruct (IH Hs') as [H1 H2]. split; [|done]. intros k [->|Hin]%elem_of_cons; [|eauto].
    rewrite Forall_forall in Hall. apply Hall. set_solver.
Qed.

(** Every other item comes before or after an item of the list. *)
Lemma items_around l1 K v l2 k v' :
  items_ok (l1 ++ (K, v) :: l2) → (k, v') ∈ l1 ++ (K, v) :: l2 →
  (k, v') ∈ l1 ∧ diverges k K ∨ k = K ∨ (k, v') ∈ l2 ∧ diverges K k.
Proof.
  intros [Hs _ _] Hin. rewrite fmap_app in Hs. apply sorted_middle in Hs as [H1 H2].
  rewrite elem_of_app, elem_of_cons in Hin. destruct Hin as [Hin|[[= -> _]|Hin]].
  - left. split; [done|]. by apply H1, (list_elem_of_fmap_2 fst _ _ Hin).
  - right. by left.
  - right. right. split; [done|]. by apply H2, (list_elem_of_fmap_2 fst _ _ Hin).
Qed.

(** No item lies strictly between two that follow each other. *)
Lemma none_between l1 K v K' v' l2 k u :
  items_ok (l1 ++ (K, v) :: (K', v') :: l2) → (k, u) ∈ l1 ++ (K, v) :: (K', v') :: l2 →
  diverges K k → ¬ diverges k K'.
Proof.
  intros Hok Hin HK HK'. destruct (items_around _ _ _ _ _ _ Hok Hin) as [[_ H]|[->|[Hin2 _]]].
  - by apply (diverges_irrefl K), (diverges_trans _ k).
  - by apply diverges_irrefl in HK.
  - change (l1 ++ (K, v) :: (K', v') :: l2) with (l1 ++ ([(K, v)] ++ (K', v') :: l2)) in Hok.
    rewrite app_assoc in Hok. apply elem_of_cons in Hin2 as [[= -> _]|Hin2].
    { by apply diverges_irrefl in HK'. }
    destruct Hok as [Hs _ _]. rewrite fmap_app in Hs. apply sorted_middle in Hs as [_ H2].
    apply (diverges_irrefl K'), (diverges_trans _ k); [|done].
    by apply H2, (list_elem_of_fmap_2 fst _ _ Hin2).
Qed.

(** ** The stack along a path *)

Section frames.
Context `{!Hashing} `{!RlpStream}.

(** The reference to the subtree of one digit. *)
Definition down_ref (items : list item) (d : Z) : bytes := ref_of (trie_node (down d items)).

Definition refs (x : Z) (items : list item) : list bytes :=
  down_ref items <$> filter (lower x items) digits16.

Fixpoint frames (P : bytes) (items : list item) : list bytes :=
  match P with
  | [] => []
  | x :: P => refs x items ++ frames P (down x items)
  end.

Lemma frames_app p q items : frames (p ++ q) items = frames p items ++ frames q (sub p items).
Proof.
  revert items. induction p as [|x p IH]; intros items; [done|].
  cbn [app frames]. rewrite IH, sub_cons. by rewrite app_assoc.
Qed.

Lemma frames_leftmost P items : leftmost P items → frames P items = [].
Proof.
  revert items. induction P as [|x P IH]; intros items; [done|]. cbn [leftmost frames].
  intros [Hl Hr]. rewrite IH by done. unfold refs.
  rewrite (filter_ext_elem _ (fun _ => False)) by (intros d _; unfold lower; naive_solver).
  induction digits16 as [|d l IH']; [done|]. by rewrite filter_cons.
Qed.

(** The digits of a branch whose last child is [x]: those below [x], then
    [x]. *)
Definition upto (x : Z) (items : list item) : Z := set_bit x (mask_of (lower x items)).

Lemma testbit_upto x items d :
  0 ≤ x < 16 → items_ok items → down x items ≠ [] → (∀ d, x < d → down d items = []) →
  Z.testbit (upto x items) d = true ↔ down d items ≠ [].
Proof.
  intros Hx Hok Hne Hr. unfold upto. rewrite testbit_set_bit, orb_true_iff, testbit_mask_of, Z.eqb_eq by done.
  unfold lower. split; [intros [[_ [_ ?]]| <-]; done|]. intros Hd.
  destruct (decide (0 ≤ d < 16)) as [Hd16|]; [|by destruct Hd; apply down_outside].
  destruct (Z.lt_trichotomy d x) as [?|[?|?]]; [by left|by right|by destruct Hd; apply Hr].
Qed.

Lemma digits16_split x : 0 ≤ x < 16 → digits16 = seqZ 0 x ++ x :: seqZ (x + 1) (15 - x).
Proof.
  intros Hx. unfold digits16. replace 16 with (x + (16 - x)) by lia.
  rewrite seqZ_app by lia. f_equal. rewrite Z.add_0_l, seqZ_cons by lia. f_equal. f_equal; lia.
Qed.

Lemma refs_upto (P : Z → Prop) `{∀ d, Decision (P d)} x items :
  0 ≤ x < 16 → (∀ d, 0 ≤ d < 16 → P d ↔ lower x items d ∨ d = x) →
  refs x items ++ [down_ref items x] = down_ref items <$> filter P digits16.
Proof.
  intros Hx HP. unfold refs. rewrite (digits16_split x Hx), !filter_app, filter_cons, fmap_app.
  rewrite (decide_False (P := lower x items x)) by (unfold lower; lia).
  rewrite (filter_cons P), (decide_True (P := P x)) by (apply HP; [lia|by right]).
  assert (filter (lower x items) (seqZ (x + 1) (15 - x)) = []) as ->.
  { rewrite (filter_ext_elem _ (fun _ => False))
      by (intros d Hd; apply elem_of_seqZ in Hd; unfold lower; split; [lia|done]).
    induction (seqZ _ _) as [|d l IH]; [done|]. by rewrite filter_cons. }
  assert (filter P (seqZ (x + 1) (15 - x)) = []) as ->.
  { rewrite (filter_ext_elem _ (fun _ => False))
      by (intros d Hd; apply elem_of_seqZ in Hd; rewrite HP by lia; unfold lower; split; [lia|done]).
    induction (seqZ _ _) as [|d l IH]; [done|]. by rewrite filter_cons. }
  rewrite (filter_ext_elem P (lower x items)).
  2: { intros d Hd. apply elem_of_seqZ in Hd. rewrite HP by lia. split; [intros [?|?]; [done|lia]|by left]. }
  by rewrite app_nil_r, fmap_app.
Qed.

(** The loop of [branch_ref] over the references of a complete branch. *)
Lemma branch_items_ok f m h ds :
  branch_items ds m h (f <$> filter (fun d => Z.testbit m d = true) ds)
  = Ok ((fun d => if Z.testbit m d then f d else rlp_null) <$> ds,
        f <$> filter (fun d => Z.testbit m d && Z.testbit h d = true) ds).
Proof.
  induction ds as [|d ds IH]; [done|]. rewrite !filter_cons. cbn [branch_items].
  rewrite !fmap_cons. destruct (Z.testbit m d) eqn:Em.
  - rewrite decide_True by done. rewrite fmap_cons, IH, ok_bind. cbn [andb].
    destruct (Z.testbit h d); [by rewrite decide_True|by rewrite decide_False].
  - rewrite decide_False by done. rewrite IH, ok_bind. by rewrite decide_False.
Qed.

End frames.

