(* ===== verification/BuilderMasks.v ===== *)
(** * BuilderMasks

    The hash masks of the hash builder mark completed children that are
    branches or known hashes, its tree masks exactly those with stored
    nodes, and the nodes that it has collected are nodes of the tree. The
    steps of a turn of its loop keep that. *)

From stdpp Require Import sorting.
From S2P Require Import Prelude Words Errors Account Block BytesOrder TrieNode HashBuilder MerkleTrie BuilderFrames.

(** ** Bits in lists of masks *)

Definition bit_at (ms : list Z) (j : nat) (d : Z) : Prop := ∃ m, ms !! j = Some m ∧ Z.testbit m d = true.

Lemma alter_at_ok i f ms : (i < length ms)%nat →
  ∃ x, ms !! i = Some x ∧ alter_at i f ms = Ok (<[i := f x]> ms).
Proof. intros [x Hx]%lookup_lt_is_Some_2. exists x. unfold alter_at. by rewrite Hx. Qed.

Lemma bit_at_insert i x ms j e : (i < length ms)%nat →
  bit_at (<[i := x]> ms) j e ↔ j = i ∧ Z.testbit x e = true ∨ j ≠ i ∧ bit_at ms j e.
Proof.
  intros Hi. unfold bit_at. destruct (decide (j = i)) as [->|Hne].
  - rewrite list_lookup_insert_eq by done. split; [intros (m & [= <-] & ?); by left|].
    intros [[_ ?]|[? _]]; [by eexists|done].
  - rewrite list_lookup_insert_ne by done. tauto.
Qed.

Lemma set_at_ok i d ms : (i < length ms)%nat → 0 ≤ d < 16 →
  ∃ ms', alter_at i (set_bit d) ms = Ok ms' ∧ length ms' = length ms
         ∧ ∀ j e, bit_at ms' j e ↔ bit_at ms j e ∨ j = i ∧ e = d.
Proof.
  intros Hi Hd. destruct (alter_at_ok i (set_bit d) ms Hi) as (x & Hx & ->).
  eexists. split; [done|]. rewrite length_insert. split; [done|]. intros j e.
  rewrite bit_at_insert by done. rewrite testbit_set_bit, orb_true_iff, Z.eqb_eq by done.
  destruct (decide (j = i)) as [->|]; [|tauto]. unfold bit_at. rewrite Hx. split.
  - intros [[_ [?| <-]]|[? _]]; [left; by eexists|by right|done].
  - intros [(m & [= <-] & ?)|[_ ->]]; left; auto.
Qed.

Lemma unset_at_ok i d ms : (i < length ms)%nat → 0 ≤ d < 16 →
  ∃ ms', alter_at i (unset_bit d) ms = Ok ms' ∧ length ms' = length ms ∧ ∀ j e, bit_at ms' j e → bit_at ms j e.
Proof.
  intros Hi Hd. destruct (alter_at_ok i (unset_bit d) ms Hi) as (x & Hx & ->).
  eexists. split; [done|]. rewrite length_insert. split; [done|]. intros j e.
  rewrite bit_at_insert by done. intros [[-> He]|[_ ?]]; [|done]. exists x. split; [done|].
  destruct (decide (0 ≤ e)) as [He0|]; [|by rewrite Z.testbit_neg_r in He by lia].
  rewrite testbit_unset_bit, andb_true_iff in He by done. by destruct He.
Qed.

Lemma bit_at_resize n ms j d : bit_at (resize n 0 ms) j d ↔ bit_at ms j d ∧ (j < n)%nat.
Proof.
  unfold bit_at. destruct (decide (j < n)%nat) as [Hn|Hn].
  2: { rewrite lookup_resize_old by lia. naive_solver. }
  destruct (decide (j < length ms)%nat) as [Hj|Hj].
  - rewrite lookup_resize by done. naive_solver.
  - rewrite lookup_resize_new by lia. rewrite (lookup_ge_None_2 ms) by lia.
    split; [intros (m & [= <-] & H); by rewrite Z.bits_0 in H|naive_solver].
Qed.

(** A digit of a completed child beside the path, and the last digit of the
    path itself. *)
Definition done_at (P : bytes) (items : list item) (j : nat) (d : Z) : Prop :=
  ∃ x, P !! j = Some x ∧ lower x (sub (take j P) items) d.

Definition last_at (P : bytes) (j : nat) (d : Z) : Prop := S j = length P ∧ P !! j = Some d.

Lemma done_at_take n P items j d : (j < n)%nat → done_at (take n P) items j d ↔ done_at P items j d.
Proof. intros Hj. unfold done_at. by rewrite lookup_take_lt, take_take, Nat.min_l by lia. Qed.

Lemma last_at_path P j d : last_at P j d → take j P ++ [d] = P.
Proof. intros [Hj Hd]. rewrite <- (take_S_r _ _ _ Hd), Hj. apply firstn_all. Qed.

Lemma last_at_take n P j d : (n ≤ length P)%nat → last_at (take n P) j d ↔ S j = n ∧ P !! j = Some d.
Proof.
  intros Hn. unfold last_at. rewrite length_take, Nat.min_l by done.
  split; intros [Hj Hd]; (split; [done|]); by rewrite lookup_take_lt in * by lia.
Qed.

Lemma done_at_leftmost n P items j d :
  leftmost (drop n P) (sub (take n P) items) → (n ≤ j)%nat → ¬ done_at P items j d.
Proof.
  intros Hl Hj (x & Hx & Hlow & Hne). apply Hne.
  assert (∀ Q l i, leftmost Q l → Q !! i = Some x → down d (sub (take i Q) l) = []) as H.
  { clear -Hlow. intros Q. induction Q as [|y Q IH]; intros l i Hl Hi; [done|]. destruct Hl as [Hl0 Hl].
    destruct i as [|i]; [injection Hi as ->; by apply Hl0|]. by apply (IH (down y l)). }
  specialize (H (drop n P) (sub (take n P) items) (j - n)%nat Hl).
  rewrite lookup_drop, <- sub_app, take_take_drop in H.
  replace (n + (j - n))%nat with j in H by lia. auto.
Qed.

(** ** Subtrees with a node at their path *)

Definition headed (m : list item) : Prop := branching m ∨ ∃ h, m = [([], ValueHash h)].

Lemma branching_keys k items : branching (sub k items) ↔
  ∃ x y a b v w, x ≠ y ∧ (k ++ x :: a, v) ∈ items ∧ (k ++ y :: b, w) ∈ items.
Proof.
  unfold branching. setoid_rewrite down_nonempty. setoid_rewrite elem_of_sub. naive_solver.
Qed.

(** Items that share a path branch behind it. *)
Lemma branching_only n P items k :
  sub (take n P) items = prepend (drop n P) (sub P items) →
  branching (sub k items) → take n P `prefix_of` k → P `prefix_of` k.
Proof.
  intros Honly (x & y & a & b & v & w & Hxy & Hx & Hy)%branching_keys [r ->].
  assert (∀ z c u, ((take n P ++ r) ++ z :: c, u) ∈ items → drop n P `prefix_of` r ++ z :: c) as Hall.
  { intros z c u Hin. rewrite <- app_assoc in Hin. apply elem_of_sub in Hin. rewrite Honly in Hin.
    apply elem_of_prepend in Hin as (k & -> & _). by apply prefix_app_r. }
  apply Hall in Hx, Hy. rewrite <- (take_drop n P) at 1. apply prefix_app.
  destruct (decide (length (drop n P) ≤ length r)%nat) as [Hle|Hgt].
  - destruct Hx as [s Hs]. apply (f_equal (take (length (drop n P)))) in Hs.
    rewrite take_app_length, take_app_le in Hs by done. rewrite <- Hs. apply prefix_take.
  - exfalso. apply Hxy. destruct Hx as [s Hs], Hy as [s' Hs'].
    apply (f_equal (fun l => l !! length r)) in Hs, Hs'.
    rewrite list_lookup_middle in Hs, Hs' by done. rewrite lookup_app_l in Hs, Hs' by lia. congruence.
Qed.

(** ** Where completed subtrees are *)

Lemma diverges_take n a P : diverges a (take n P) → diverges a P.
Proof.
  intros Hd. rewrite <- (take_drop n P). revert Hd. generalize (take n P) as b. generalize (drop n P) as r.
  intros r b. revert a. induction b as [|y b IH]; intros [|x a] Hd; try (by destruct (diverges_nil _ _ Hd)).
  cbn [app]. rewrite diverges_cons in *. destruct Hd as [?|[-> ?]]; [by left|right; auto].
Qed.

Lemma diverges_cut n a P : diverges a P → diverges a (take n P) ∨ take n P `prefix_of` a.
Proof.
  revert a n. induction P as [|y P IH]; intros [|x a] n Hd; try (by destruct (diverges_nil _ _ Hd)).
  destruct n as [|n]; [right; apply prefix_nil|]. rewrite diverges_cons in Hd. cbn [take]. rewrite diverges_cons.
  destruct Hd as [?|[-> Hd]]; [by left; left|]. destruct (IH a n Hd) as [?|?]; [by left; right|right; by apply prefix_cons].
Qed.

Lemma diverges_not_prefix a b : diverges a b → ¬ b `prefix_of` a.
Proof.
  revert b. induction a as [|x a IH]; intros [|y b] Hd; try (by destruct (diverges_nil _ _ Hd)).
  apply diverges_cons in Hd as [Hlt|[-> Hd]].
  - intros ?%prefix_cons_inv_1. lia.
  - intros ?%prefix_cons_inv_2. by apply (IH b).
Qed.

(** Before the path or, when its subtree is complete, under it. *)
Definition passed (P : bytes) (complete : Prop) (k : bytes) : Prop := diverges k P ∨ complete ∧ P `prefix_of` k.

Lemma passed_take n P c k : passed P c k → passed (take n P) True k.
Proof.
  intros [Hd|[_ Hp]].
  - destruct (diverges_cut n _ _ Hd); [by left|by right].
  - right. split; [done|]. etrans; [apply prefix_take|done].
Qed.

(** A path with something completed right under it is not on the way there. *)
Lemma passed_not_under P c k d : passed P c k → ¬ (k ++ [d]) `prefix_of` P.
Proof.
  intros [[_ Hd]|[_ Hp]] Hk.
  - apply Hd. etrans; [apply prefix_app_r, reflexivity|done].
  - destruct Hp as [r ->], Hk as [r' E]. apply (f_equal length) in E. rewrite !length_app in E. cbn in E. lia.
Qed.

Section masks_inv.
Context `{!Hashing} `{!RlpStream}.

(** The keys of the known subtrees that have stored nodes. *)
Context (indb : bytes → Prop).

Definition calls (hb : HashBuilder) : list (bytes * Node) := default [] (node_collector hb).

(** There are nodes at or under a path: collected or in the database. *)
Definition supported (cs : list (bytes * Node)) (k : bytes) : Prop :=
  (∃ q, indb q ∧ k `prefix_of` q) ∨ ∃ c, c ∈ cs ∧ k `prefix_of` c.1.

(** The hash of what a reference refers to. *)
Definition hash_of (r : bytes) : Z := if (length r =? KECCAK_LENGTH + 1)%nat then from_be_bytes (drop 1 r) else keccak256 r.

Definition child_hash (L : list item) (d h : Z) : Prop :=
  headed (down d L) ∧ length (down_ref L d) = 33%nat ∧ h = from_be_bytes (drop 1 (down_ref L d)).

(** A collected node is that of a branch of the tree. *)
Record node_of (items : list item) (cs : list (bytes * Node)) (k : bytes) (n : Node) : Prop := {
  no_branching : branching (sub k items);
  no_state d : Z.testbit (state_mask n) d = true ↔ down d (sub k items) ≠ [];
  no_hashes : Forall2 (child_hash (sub k items)) (filter (fun d => Z.testbit (hash_mask n) d = true) digits16) (hashes n);
  no_hash d : Z.testbit (hash_mask n) d = true → down d (sub k items) ≠ [];
  no_tree d : Z.testbit (tree_mask n) d = true ↔ supported cs (k ++ [d]);
  no_marked : tree_mask n ≠ 0 ∨ hash_mask n ≠ 0;
  no_root : node_root_hash n = if decide (k = []) then Some (hash_of (ref_of (trie_node (sub k items)))) else None
}.

(** The hash masks mark completed children with a node at their path, the
    tree masks exactly the completed children with stored nodes, which are
    those of all the branches that need to be stored. When the subtree at
    the path is itself complete, so may its digit be. *)
Record masks_inv (P : bytes) (items : list item) (complete : Prop) (hb : HashBuilder) : Prop := {
  inv_length : length (tree_masks hb) = length (hash_masks hb);
  inv_tree j d : bit_at (tree_masks hb) j d →
    (done_at P items j d ∨ complete ∧ last_at P j d) ∧ supported (calls hb) (take j P ++ [d]);
  inv_full j d : has_collector hb = true →
    (done_at P items j d ∨ complete ∧ last_at P j d) → supported (calls hb) (take j P ++ [d]) → bit_at (tree_masks hb) j d;
  inv_hash j d : bit_at (hash_masks hb) j d →
    done_at P items j d ∧ headed (down d (sub (take j P) items)) ∨ complete ∧ last_at P j d ∧ headed (sub P items);
  inv_calls c : c ∈ calls hb → passed P complete c.1 ∧ node_of items (calls hb) c.1 c.2;
  inv_every k d : has_collector hb = true → passed P complete k → branching (sub k items) → supported (calls hb) (k ++ [d]) →
    k ∈ (calls hb).*1
}.

Lemma masks_inv_eq P items complete hb hb' :
  masks_inv P items complete hb →
  tree_masks hb' = tree_masks hb → hash_masks hb' = hash_masks hb → node_collector hb' = node_collector hb →
  masks_inv P items complete hb'.
Proof.
  intros [H1 H2 H3 H4 H5 H6] Ht Hh Hc. assert (calls hb' = calls hb) as Hcs by (unfold calls; by rewrite Hc).
  assert (has_collector hb' = has_collector hb) as Hcol by (unfold has_collector; by rewrite Hc).
  split; rewrite ?Ht, ?Hh, ?Hcs, ?Hcol; done.
Qed.

Lemma masks_inv_iff P items (c c' : Prop) hb :
  masks_inv P items c hb → (c ↔ c') → masks_inv P items c' hb.
Proof.
  intros [H1 H2 H3 H4 H5 H6] Hc. split; [done|..].
  - intros j d Hb. destruct (H2 j d Hb). tauto.
  - intros j d Hcol HS Hs. apply H3; tauto.
  - intros j d Hb. destruct (H4 j d Hb); tauto.
  - intros k Hk. destruct (H5 k Hk) as [Hp ?]. split; [|done]. unfold passed in *. tauto.
  - intros k d Hcol Hp. apply H6; [done|]. unfold passed in *. tauto.
Qed.

(** Resizing the masks to at least the path. *)
Lemma masks_inv_resize n P items c hb :
  (length P ≤ n)%nat → masks_inv P items c hb →
  masks_inv P items c (with_masks (resize n 0 (tree_masks hb)) (resize n 0 (hash_masks hb)) hb).
Proof.
  intros Hn [H1 H2 H3 H4 H5 H6]. split; cbn [with_masks tree_masks hash_masks]; [by rewrite !length_resize|..|done|done].
  - intros j d [Hb _]%bit_at_resize. by apply H2.
  - intros j d Hcol HS Hs. apply bit_at_resize. split; [by apply H3|].
    destruct HS as [(x & Hx%lookup_lt_Some & _)|[_ [Hj _]]]; lia.
  - intros j d [Hb _]%bit_at_resize. by apply H4.
Qed.

(** ** Nodes under a path *)

Lemma supported_mono cs k k' : k' `prefix_of` k → supported cs k → supported cs k'.
Proof. intros Hp [(q & Hq & ?)|(c & Hc & ?)]; [left; exists q|right; exists c]; (split; [done|by etrans]). Qed.

Lemma supported_snoc cs c k : supported (cs ++ [c]) k ↔ supported cs k ∨ k `prefix_of` c.1.
Proof.
  unfold supported. setoid_rewrite elem_of_app. setoid_rewrite list_elem_of_singleton. split.
  - intros [?|(c' & [?| ->] & ?)]; [by left; left|left; right; eauto|by right].
  - intros [[?|(c' & ? & ?)]|?]; [by left|right; eauto|right; eauto].
Qed.

Context (items : list item) (Hok : items_ok items).
Context (Hindb : ∀ q, indb q → ∃ h, (q, ValueHash h) ∈ items).

Lemma indb_item q k : indb q → k `prefix_of` q → ∃ r h, q = k ++ r ∧ (r, ValueHash h) ∈ sub k items.
Proof. intros Hq [r ->]. destruct (Hindb _ Hq) as [h Hh]. exists r, h. split; [done|]. by apply elem_of_sub. Qed.

Lemma call_branch P c hb k cl : masks_inv P items c hb → cl ∈ calls hb → k `prefix_of` cl.1 →
  ∃ r, cl.1 = k ++ r ∧ branching (sub r (sub k items)).
Proof.
  intros Hinv Hcl [r Hr]. exists r. split; [done|]. rewrite <- sub_app, <- Hr. eapply no_branching, inv_calls; done.
Qed.

Lemma branching_not_single r q v : ¬ branching (sub r [(q, v)]).
Proof.
  intros (x & y & a & b & v1 & v2 & Hxy & Hx & Hy)%branching_keys.
  apply list_elem_of_singleton in Hx, Hy. rewrite <- Hx in Hy. injection Hy as Hy _. apply app_inv_head in Hy. congruence.
Qed.

(** A leaf has no nodes, a known subtree only its own. *)
Lemma single_supported P c hb k q v : masks_inv P items c hb → sub k items = [(q, v)] →
  supported (calls hb) k → indb (k ++ q) ∧ ∃ h, v = ValueHash h.
Proof.
  intros Hinv Hsub [(q' & Hq' & Hp)|(cl & Hcl & Hp)].
  - destruct (indb_item q' k Hq' Hp) as (r & h & -> & Hin). rewrite Hsub in Hin.
    apply list_elem_of_singleton in Hin as [= -> <-]. eauto.
  - destruct (call_branch _ _ _ _ _ Hinv Hcl Hp) as (r & _ & Hb). rewrite Hsub in Hb. by apply branching_not_single in Hb.
Qed.

(** What is supported at a branch is supported at one of its children. *)
Lemma supported_child P c hb k : masks_inv P items c hb → branching (sub k items) → k ∉ (calls hb).*1 →
  supported (calls hb) k → ∃ d, supported (calls hb) (k ++ [d]) ∧ down d (sub k items) ≠ [].
Proof.
  intros Hinv Hb Hnin [(q & Hq & Hp)|(cl & Hcl & Hp)].
  - destruct (indb_item q k Hq Hp) as (r & h & -> & Hin). destruct r as [|d r].
    { apply items_ok_empty_key in Hin; [|by apply sub_ok]. destruct (branching_many _ Hb) as (? & ? & ? & E). congruence. }
    exists d. split; [|apply down_nonempty; eauto]. left. exists (k ++ d :: r). split; [done|]. exists r. by rewrite <- app_assoc.
  - destruct (call_branch _ _ _ _ _ Hinv Hcl Hp) as (r & Hr & Hbr). destruct r as [|d r].
    { destruct Hnin. rewrite app_nil_r in Hr. rewrite <- Hr. by apply list_elem_of_fmap_2. }
    exists d. split; [right; exists cl; split; [done|]; exists r; by rewrite Hr, <- app_assoc|].
    rewrite sub_cons in Hbr. intros E. rewrite E, sub_nil in Hbr. by destruct (branching_many _ Hbr) as (? & ? & ? & ?).
Qed.

Lemma calls_none hb : has_collector hb = false → calls hb = [].
Proof. unfold has_collector, calls. destruct (node_collector hb); [|done]. rewrite bool_decide_eq_false. intros []. by eexists. Qed.

(** Without a collector nothing is asked of the tree masks. *)
Lemma masks_inv_weaken P (c c' : Prop) hb :
  masks_inv P items c hb → has_collector hb = false → (c → c') → masks_inv P items c' hb.
Proof.
  intros [H1 H2 H3 H4 H5 H6] Hcol Hc. rewrite Hcol in H3, H6. split; [done|..|by rewrite Hcol].
  - intros j d Hb. destruct (H2 j d Hb). tauto.
  - rewrite Hcol. done.
  - intros j d Hb. destruct (H4 j d Hb); tauto.
  - intros k Hk. rewrite (calls_none hb Hcol) in Hk. by apply elem_of_nil in Hk.
Qed.

(** Cutting the masks and the path at the same length. *)
Lemma masks_inv_take n P (c : Prop) hb :
  (n < length P)%nat → masks_inv P items c hb →
  (has_collector hb = true → n = 0%nat ∧ c ∧ sub (take n P) items = prepend (drop n P) (sub P items)) →
  masks_inv (take n P) items True
    (with_masks (resize n 0 (tree_masks hb)) (resize n 0 (hash_masks hb)) hb).
Proof.
  intros Hn [H1 H2 H3 H4 H5 H6] Hcol. split; cbn [with_masks tree_masks hash_masks].
  - by rewrite !length_resize.
  - intros j d [Hb Hj]%bit_at_resize. destruct (H2 j d Hb) as [[Hd|[_ [? _]]] Hs]; [|lia].
    rewrite done_at_take, take_take, Nat.min_l by lia. auto.
  - intros j d Hc HS Hs. destruct (Hcol Hc) as (-> & _). destruct HS as [(x & Hx & _)|[_ [Hj _]]]; done.
  - intros j d [Hb Hj]%bit_at_resize. destruct (H4 j d Hb) as [[Hd Hh]|[_ [[? _] _]]]; [|lia].
    left. rewrite done_at_take, take_take, Nat.min_l by lia. auto.
  - intros k Hk. destruct (H5 k Hk) as [Hp ?]. split; [by eapply passed_take|done].
  - intros k d Hc Hp Hb Hs. destruct (Hcol Hc) as (-> & Hcc & Honly). apply (H6 k d Hc); [|done|done]. right.
    split; [done|]. apply (branching_only 0 P items k Honly Hb). apply prefix_nil.
Qed.

(** A leaf at the end of a path without children beside its end. *)
Lemma masks_inv_leaf n P q v hb :
  (n ≤ length P)%nat → leftmost (drop n P) (sub (take n P) items) → sub (take n P) items = [(q, ValueBytes v)] →
  masks_inv P items False hb → masks_inv (take n P) items True hb.
Proof.
  intros Hn Hl Hsub Hinv. pose proof Hinv as [H1 H2 H3 H4 H5 H6].
  assert (∀ j d, done_at P items j d → (j < n)%nat) as Hjn.
  { intros j d Hd. destruct (decide (j < n)%nat) as [|Hj]; [done|]. by destruct (done_at_leftmost n P items j d Hl ltac:(lia)). }
  assert (¬ supported (calls hb) (take n P)) as Hns.
  { intros Hs. by destruct (single_supported _ _ _ _ _ _ Hinv Hsub Hs) as [_ [h Hh]]. }
  split; [done|..].
  - intros j d Hb. destruct (H2 j d Hb) as [[Hd|[[] _]] Hs]. pose proof (Hjn _ _ Hd).
    rewrite done_at_take, take_take, Nat.min_l by lia. auto.
  - intros j d Hc [Hd|[_ Hlast]] Hs.
    + assert (j < n)%nat as Hj.
      { destruct Hd as (x & Hx%lookup_lt_Some & _). rewrite length_take in Hx. lia. }
      rewrite done_at_take, take_take, Nat.min_l in * by lia. apply H3; [done|by left|done].
    + rewrite (last_at_path _ _ _ Hlast) in Hs. done.
  - intros j d Hb. destruct (H4 j d Hb) as [[Hd Hh]|[[] _]]. pose proof (Hjn _ _ Hd).
    left. rewrite done_at_take, take_take, Nat.min_l by lia. auto.
  - intros k Hk. destruct (H5 k Hk) as [Hp ?]. split; [by eapply passed_take|done].
  - intros k d Hc [Hd|[_ [r ->]]] Hb Hs.
    + apply (H6 k d Hc); [|done|done]. left. by apply diverges_take in Hd.
    + rewrite sub_app, Hsub in Hb. by apply branching_not_single in Hb.
Qed.

Lemma length_wrap_hash h : length (wrap_hash h) = 33%nat.
Proof. unfold wrap_hash. cbn [length]. by rewrite length_to_be_bytes. Qed.

(** ** The steps of a turn *)

Lemma open_group_ok len x P hb g c :
  P !! len = Some x → groups hb = pop_zeros g → length g = length P →
  (length (groups hb) ≤ S len)%nat → masks_inv P items c hb →
  ∃ hb' m, open_group len x P hb = Ok hb' ∧ g !! len = Some m
    ∧ groups hb' = take len g ++ [set_bit x m] ∧ stack hb' = stack hb ∧ value hb' = value hb
    ∧ is_in_db_trie hb' = is_in_db_trie hb
    ∧ node_collector hb' = node_collector hb ∧ masks_inv P items c hb'
    ∧ (length P ≤ length (hash_masks hb'))%nat.
Proof.
  intros Hx Hg Hlen Hle Hinv. pose proof (lookup_lt_Some _ _ _ Hx) as Hlt.
  destruct (lookup_lt_is_Some_2 g len ltac:(lia)) as [m Hm].
  assert ((if (length (groups hb) <=? len)%nat then resize (S len) 0 (groups hb) else groups hb)
          = take (S len) g) as Hres.
  { rewrite Hg in *. destruct (Nat.leb_spec (length (pop_zeros g)) len).
    - apply resize_pop_zeros; lia.
    - rewrite <- resize_pop_zeros by lia. rewrite resize_all_alt; [done|lia]. }
  assert (alter_at len (set_bit x) (take (S len) g) = Ok (take len g ++ [set_bit x m])) as Halter.
  { unfold alter_at. rewrite lookup_take_lt, Hm by lia. f_equal.
    rewrite (take_S_r _ _ m Hm), insert_app_r_alt by (rewrite length_take; lia).
    rewrite length_take, Nat.min_l, Nat.sub_diag by lia. done. }
  unfold open_group. rewrite Hres, Halter, ok_bind.
  destruct (inv_length _ _ _ _ Hinv). cbn [with_groups tree_masks hash_masks].
  destruct (Nat.ltb_spec (length (tree_masks hb)) (length P)) as [Hshort|Hlong];
    (eexists _, m; split; [done|]; do 6 (split; [done|]); split).
  - apply (masks_inv_eq _ _ _ (with_masks (resize (length P) 0 (tree_masks hb)) (resize (length P) 0 (hash_masks hb)) hb)); [|done..].
    by apply masks_inv_resize.
  - cbn [with_masks hash_masks]. by rewrite length_resize.
  - by apply (masks_inv_eq _ _ _ _ _ Hinv).
  - cbn [with_groups hash_masks]. rewrite <- (inv_length _ _ _ _ Hinv). done.
Qed.

(** Setting the digit of the path itself, at a known subtree. *)
Lemma mark_hash_ok P hb h :
  nibbles P → P ≠ [] → (length P ≤ length (hash_masks hb))%nat → sub P items = [([], ValueHash h)] →
  (is_in_db_trie hb = true ↔ indb P) → masks_inv P items False hb →
  ∃ hb', mark_hash P hb = Ok hb' ∧ stack hb' = stack hb ∧ groups hb' = groups hb
    ∧ node_collector hb' = node_collector hb ∧ length (hash_masks hb') = length (hash_masks hb)
    ∧ masks_inv P items True hb'.
Proof.
  intros Hnib Hne Hlen Hsub Hdb Hinv. pose proof Hinv as [H1 H2 H3 H4 H5 H6].
  destruct (last P) as [d|] eqn:Hd; [|by apply last_None in Hd].
  assert (P !! (length P - 1)%nat = Some d) as Hl by (rewrite last_lookup, <- Nat.sub_1_r in Hd; done).
  pose proof (Forall_lookup_1 _ _ _ _ Hnib Hl) as Hd16. pose proof (lookup_lt_Some _ _ _ Hl) as Hlt.
  assert (last_at P (length P - 1) d) as Hlast by (split; [lia|done]).
  assert (∀ j e, last_at P j e → j = (length P - 1)%nat ∧ e = d) as Huniq.
  { intros j e [Hj He]. assert (j = length P - 1)%nat as -> by lia. split; [done|congruence]. }
  assert (supported (calls hb) P ↔ indb P) as Hsup.
  { split; [|by left; exists P]. intros Hs. destruct (single_supported _ _ _ _ _ _ Hinv Hsub Hs) as [Hq _].
    by rewrite app_nil_r in Hq. }
  destruct (set_at_ok (length P - 1) d (hash_masks hb) ltac:(lia) Hd16) as (hm & Hhm & Hlh & Hhb).
  assert (∃ tm, (if is_in_db_trie hb then alter_at (length P - 1) (set_bit d) (tree_masks hb) else Ok (tree_masks hb)) = Ok tm
                ∧ length tm = length (tree_masks hb)
                ∧ ∀ j e, bit_at tm j e ↔ bit_at (tree_masks hb) j e ∨ indb P ∧ j = (length P - 1)%nat ∧ e = d)
    as (tm & Htm & Hlt' & Htb).
  { destruct (is_in_db_trie hb).
    - destruct (set_at_ok (length P - 1) d (tree_masks hb) ltac:(lia) Hd16) as (tm & ? & ? & Hb).
      exists tm. do 2 (split; [done|]). intros j e. rewrite Hb. tauto.
    - eexists. do 2 (split; [done|]). intros j e. split; [by left|]. intros [?|[Hq _]]; [done|by apply Hdb in Hq]. }
  exists (with_masks tm hm hb). unfold mark_hash. rewrite Hd. cbn [unwrap]. rewrite ok_bind, Htm, ok_bind, Hhm, ok_bind.
  do 4 (split; [done|]). split; [done|]. split; cbn [with_masks tree_masks hash_masks].
  - lia.
  - intros j e [Hb|(Hq & -> & ->)]%Htb.
    + destruct (H2 j e Hb) as [[?|[[] _]] ?]. auto.
    + rewrite (last_at_path _ _ _ Hlast). split; [auto|]. by apply Hsup.
  - intros j e Hc HS Hs. apply Htb. destruct HS as [?|[_ Hj]]; [left; apply H3; auto|right].
    rewrite (last_at_path _ _ _ Hj) in Hs. destruct (Huniq _ _ Hj) as [-> ->]. split; [by apply Hsup|done].
  - intros j e [Hb|[-> ->]]%Hhb.
    + destruct (H4 j e Hb) as [?|[[] _]]. auto.
    + right. split; [done|]. split; [done|]. right. eauto.
  - intros k Hk. destruct (H5 k Hk) as [[?|[[] _]] ?]. split; [by left|done].
  - intros k e Hc [Hdk|[_ [r ->]]] Hb Hs; [apply (H6 k e); [done|by left|done|done]|].
    rewrite sub_app, Hsub in Hb. by apply branching_not_single in Hb.
Qed.

(** An extension over the rest of the path. *)
Lemma extension_masks_ok n P hb :
  (0 < n < length P)%nat → nibbles P → (length P ≤ length (hash_masks hb))%nat → masks_inv P items True hb →
  has_collector hb = true →
  leftmost (drop n P) (sub (take n P) items) → sub (take n P) items = prepend (drop n P) (sub P items) →
  ∃ hb', extension_masks n P hb = Ok hb'
    ∧ stack hb' = stack hb ∧ groups hb' = groups hb ∧ node_collector hb' = node_collector hb
    ∧ masks_inv (take n P) items True
        (with_masks (resize n 0 (tree_masks hb')) (resize n 0 (hash_masks hb')) hb').
Proof.
  intros Hn Hnib Hlen Hinv Hcol Hl Honly. pose proof Hinv as [H1 H2 H3 H4 H5 H6]. unfold extension_masks.
  destruct (lookup_lt_is_Some_2 P (n - 1) ltac:(lia)) as [d Hd].
  pose proof (Forall_lookup_1 _ _ _ _ Hnib Hd) as Hd16. rewrite Hd. cbn [unwrap]. rewrite ok_bind.
  destruct (unset_at_ok (n - 1) d (hash_masks hb) ltac:(lia) Hd16) as (hm & -> & Hhm & Hhb). rewrite ok_bind.
  destruct (lookup_lt_is_Some_2 (tree_masks hb) (length P - 1) ltac:(lia)) as [lm Hlm]. rewrite Hlm.
  cbn [unwrap]. rewrite ok_bind.
  destruct (lookup_lt_is_Some_2 P (length P - 1) ltac:(lia)) as [z Hz].
  assert (last_at P (length P - 1) z) as Hlast by (split; [lia|done]).
  assert (lm ≠ 0 ↔ supported (calls hb) P) as Hsup.
  { split.
    - intros Hne. destruct (Z.testbit lm z) eqn:Ez.
      + destruct (H2 (length P - 1)%nat z) as [_ Hs]; [by exists lm|]. by rewrite (last_at_path _ _ _ Hlast) in Hs.
      + destruct Hne. apply mask_eq. intros e. rewrite Z.bits_0. split; [|done]. intros He.
        destruct (H2 (length P - 1)%nat e) as [[Hdone|[_ [_ He']]] _]; [by exists lm|..].
        * by destruct (done_at_leftmost n P items (length P - 1) e Hl ltac:(lia)).
        * rewrite Hz in He'. injection He' as <-. congruence.
    - intros Hs. destruct (H3 (length P - 1)%nat z Hcol) as (m & Hm & Hb); [by right|by rewrite (last_at_path _ _ _ Hlast)|].
      rewrite Hlm in Hm. injection Hm as <-. intros ->. by rewrite Z.bits_0 in Hb. }
  assert (supported (calls hb) (take n P) → supported (calls hb) P) as Hup.
  { intros [(q & Hq & Hp)|(cl & Hcl & Hp)].
    - left. exists q. split; [done|]. destruct (indb_item q _ Hq Hp) as (r & h & -> & Hin). rewrite Honly in Hin.
      apply elem_of_prepend in Hin as (k & -> & _). rewrite app_assoc, take_drop. by apply prefix_app_r.
    - right. exists cl. split; [done|]. apply (branching_only n P items); [done| |done]. eapply no_branching, H5; done. }
  assert (∃ tm, (if lm =? 0 then Ok (tree_masks hb) else alter_at (n - 1) (set_bit d) (tree_masks hb)) = Ok tm
    ∧ length tm = length (tree_masks hb)
    ∧ ∀ j e, bit_at tm j e ↔ bit_at (tree_masks hb) j e ∨ supported (calls hb) P ∧ j = (n - 1)%nat ∧ e = d)
    as (tm & -> & Htm & Htb).
  { destruct (Z.eqb_spec lm 0) as [E|E].
    - exists (tree_masks hb). do 2 (split; [done|]). intros j e. split; [by left|]. intros [?|[Hs _]]; [done|by apply Hsup in Hs].
    - destruct (set_at_ok (n - 1) d (tree_masks hb) ltac:(lia) Hd16) as (tm & ? & ? & Hb).
      exists tm. do 2 (split; [done|]). intros j e. rewrite Hb, <- Hsup. tauto. }
  rewrite ok_bind. eexists. do 4 (split; [done|]). split; cbn [with_masks tree_masks hash_masks].
  - by rewrite !length_resize.
  - intros j e [[Hb|(Hs & -> & ->)]%Htb Hj]%bit_at_resize.
    + destruct (H2 j e Hb) as [[Hdone|[_ [? _]]] Hs]; [|lia]. rewrite done_at_take, take_take, Nat.min_l by lia. auto.
    + assert (last_at (take n P) (n - 1) d) as Hl' by (apply last_at_take; [lia|]; split; [lia|done]).
      rewrite (last_at_path _ _ _ Hl'). split; [by right|]. by apply (supported_mono _ P); [apply prefix_take|].
  - intros j e _ [Hdone|[_ Hl']] Hs; apply bit_at_resize; rewrite Htb.
    + assert (j < n)%nat as Hj by (destruct Hdone as (x & Hx%lookup_lt_Some & _); rewrite length_take in Hx; lia).
      rewrite done_at_take, take_take, Nat.min_l in * by lia. split; [|done]. left. apply H3; [done|by left|done].
    + rewrite (last_at_path _ _ _ Hl') in Hs. apply (last_at_take n P j e ltac:(lia)) in Hl' as [Hj He].
      assert (j = n - 1)%nat as -> by lia. rewrite Hd in He. injection He as <-. split; [|lia]. right. auto.
  - intros j e [Hb%Hhb Hj]%bit_at_resize. destruct (H4 j e Hb) as [[Hdone Hh]|[_ [[? _] _]]]; [|lia].
    left. rewrite done_at_take, take_take, Nat.min_l by lia. auto.
  - intros k Hk. destruct (H5 k Hk) as [Hp ?]. split; [by eapply passed_take|done].
  - intros k e _ [Hdk|[_ Hp]] Hb Hs; apply (H6 k e Hcol); try done; [left; by eapply diverges_take|right].
    split; [done|]. by apply (branching_only n P items).
Qed.

Lemma push_extension_ok n P c st hb :
  (n < length P)%nat → nibbles P → (length P ≤ length (hash_masks hb))%nat → masks_inv P items True hb →
  leftmost (drop n P) (sub (take n P) items) → sub (take n P) items = prepend (drop n P) (sub P items) →
  stack hb = st ++ [ref_of c] →
  ∃ hb', push_extension n (drop n P) P hb = Ok hb' ∧ stack hb' = st ++ [ref_of (extend (drop n P) c)]
    ∧ groups hb' = groups hb ∧ has_collector hb' = has_collector hb
    ∧ masks_inv (take n P) items True hb' ∧ length (hash_masks hb') = n.
Proof.
  intros Hn Hnib Hlen Hinv Hl Honly Hst. unfold push_extension.
  assert (∃ hb1, (if has_collector hb && (0 <? n)%nat then extension_masks n P hb else Ok hb) = Ok hb1
            ∧ stack hb1 = stack hb ∧ groups hb1 = groups hb ∧ node_collector hb1 = node_collector hb
            ∧ masks_inv (take n P) items True
                (with_masks (resize n 0 (tree_masks hb1)) (resize n 0 (hash_masks hb1)) hb1))
    as (hb1 & -> & Hst1 & Hg1 & Hc1 & Hinv1).
  { destruct (has_collector hb && (0 <? n)%nat) eqn:E.
    - apply andb_true_iff in E as [? ?%Nat.ltb_lt]. by apply extension_masks_ok.
    - exists hb. do 4 (split; [done|]). apply (masks_inv_take n P True); [done|done|]. intros Hc. rewrite Hc in E.
      apply Nat.ltb_ge in E. split; [lia|done]. }
  rewrite ok_bind, Hst1, Hst, last_snoc. cbn [unwrap]. rewrite ok_bind.
  unfold extension_node_rlp. cbv beta iota zeta.
  eexists. split; [done|]. cbn [with_masks with_stack with_buffer stack groups hash_masks].
  rewrite removelast_last, Hg1. unfold has_collector. cbn [with_masks with_stack with_buffer node_collector].
  rewrite Hc1, length_resize. split; [|do 2 (split; [done|]); split; [|done]].
  - destruct (drop n P) eqn:E; [|done]. apply (f_equal length) in E. rewrite length_drop in E. cbn in E. lia.
  - by apply (masks_inv_eq _ _ _ _ _ Hinv1).
Qed.

Lemma extension_tail_ok n P c st hb :
  (n ≤ length P)%nat → nibbles P → (length P ≤ length (hash_masks hb))%nat → masks_inv P items True hb →
  leftmost (drop n P) (sub (take n P) items) → sub (take n P) items = prepend (drop n P) (sub P items) →
  stack hb = st ++ [ref_of c] →
  ∃ hb', (if bool_decide (drop n P ≠ []) then push_extension n (drop n P) P hb else Ok hb) = Ok hb'
    ∧ stack hb' = st ++ [ref_of (extend (drop n P) c)]
    ∧ groups hb' = groups hb ∧ has_collector hb' = has_collector hb
    ∧ masks_inv (take n P) items True hb' ∧ (n ≤ length (hash_masks hb'))%nat.
Proof.
  intros Hn Hnib Hlen Hinv Hl Honly Hst. case_bool_decide as Hq.
  - destruct (push_extension_ok n P c st hb) as (hb' & ? & ? & ? & ? & ? & ?); [|done..|].
    { destruct (decide (n < length P)%nat); [done|]. destruct Hq. by apply drop_ge; lia. }
    exists hb'. do 5 (split; [done|]). lia.
  - exists hb. rewrite Hq. cbn [extend].
    assert (n = length P) as ->.
    { apply (f_equal length) in Hq. rewrite length_drop in Hq. cbn in Hq. lia. }
    by rewrite firstn_all.
Qed.

(** What a turn finds: the branch it has just closed on the stack, or the
    pending value. *)
Definition top (be : bool) (P : bytes) (st : list bytes) (hb : HashBuilder) : Prop :=
  if be then branching (sub P items) ∧ stack hb = st ++ [ref_of (trie_node (sub P items))]
  else sub P items = [([], value hb)] ∧ stack hb = st
    ∧ ∀ h, value hb = ValueHash h → is_in_db_trie hb = true ↔ indb P.

Lemma trie_node_branching_nil l :
  items_ok l → branching l → trie_node l = Rlp (branch_rlp (child l)).
Proof.
  intros Hl Hb. rewrite <- (prepend_nil l) at 1. by rewrite trie_node_branching by (done || constructor).
Qed.

(** The pending known subtree on the stack. *)
Lemma push_known_ok P st hb h :
  nibbles P → P ≠ [] → (length P ≤ length (hash_masks hb))%nat → sub P items = [([], ValueHash h)] →
  (is_in_db_trie hb = true ↔ indb P) → stack hb = st → masks_inv P items False hb →
  ∃ hb', (let hb := with_stack (stack hb ++ [wrap_hash h]) hb in
          if has_collector hb then mark_hash P hb else Ok hb) = Ok hb'
    ∧ stack hb' = st ++ [ref_of (Known h)] ∧ groups hb' = groups hb ∧ has_collector hb' = has_collector hb
    ∧ masks_inv P items True hb' ∧ (length P ≤ length (hash_masks hb'))%nat.
Proof.
  intros Hnib Hne Hlen Hsub Hdb Hst Hinv. cbv zeta. set (hb1 := with_stack (stack hb ++ [wrap_hash h]) hb).
  assert (masks_inv P items False hb1) as Hinv1 by by apply (masks_inv_eq _ _ _ hb).
  destruct (has_collector hb1) eqn:Ecol.
  - destruct (mark_hash_ok P hb1 h) as (hb' & -> & Hs & Hg & Hc & Hl & Hinv'); [done..|].
    exists hb'. split; [done|]. rewrite Hs, Hg. subst hb1. cbn [with_stack stack groups]. rewrite Hst.
    do 2 (split; [done|]). split; [unfold has_collector; by rewrite Hc|]. split; [done|]. rewrite Hl. done.
  - exists hb1. split; [done|]. split; [subst hb1; cbn [with_stack stack]; by rewrite Hst|]. do 2 (split; [done|]).
    split; [|done]. apply (masks_inv_weaken _ False); [done|done|by intros []].
Qed.

Lemma push_node_ok be n P st hb :
  nibbles P → P ≠ [] → (n ≤ length P)%nat → (length P ≤ length (hash_masks hb))%nat →
  leftmost (drop n P) (sub (take n P) items) → rightmost (drop n P) (sub (take n P) items) →
  masks_inv P items (be = true) hb → top be P st hb →
  ∃ hb', push_node be n P hb = Ok hb'
    ∧ stack hb' = st ++ [ref_of (trie_node (sub (take n P) items))]
    ∧ groups hb' = groups hb ∧ has_collector hb' = has_collector hb
    ∧ masks_inv (take n P) items True hb' ∧ (n ≤ length (hash_masks hb'))%nat.
Proof.
  intros Hnib Hne Hn Hlen Hl Hr Hinv Htop.
  assert (nibbles (drop n P)) as Hqn by by apply Forall_drop.
  pose proof (sub_ok (take n P) _ Hok) as HokL. pose proof (sub_ok P _ Hok) as HokP.
  assert (sub P items = sub (drop n P) (sub (take n P) items)) as Hsub
    by by rewrite <- sub_app, take_drop.
  assert (sub P items ≠ []) as Hsne.
  { destruct be, Htop as [Htop _]; [|by rewrite Htop].
    destruct (branching_many _ Htop) as (? & ? & ? & ->). done. }
  rewrite Hsub in Hsne. pose proof (only_path _ _ HokL Hsne Hl Hr) as Hpre. rewrite <- Hsub in *.
  unfold push_node. destruct be; [destruct Htop as [Htop Hst]|destruct Htop as (Htop & Hst & Hdb)].
  - rewrite ok_bind. cbn [andb].
    assert (trie_node (sub (take n P) items) = extend (drop n P) (trie_node (sub P items))) as ->.
    { rewrite (trie_node_branching_nil _ HokP Htop). rewrite Hpre at 1. by apply (trie_node_branching (drop n P)). }
    apply extension_tail_ok; try done. by apply (masks_inv_iff _ _ _ _ _ Hinv).
  - apply (masks_inv_iff _ _ _ False) in Hinv; [|split; [done|intros []]].
    unfold push_value. destruct (value hb) as [v|h] eqn:Hv.
    + assert (sub (take n P) items = [(drop n P, ValueBytes v)]) as Hone.
      { rewrite Hpre, Htop. unfold prepend. cbn [fmap list_fmap fst snd]. by rewrite app_nil_r. }
      rewrite Hone, trie_node_leaf. cbv beta iota zeta. unfold leaf_node_rlp. rewrite ok_bind. cbn [andb].
      eexists. split; [done|]. cbn [with_stack with_buffer stack groups hash_masks]. rewrite Hst.
      do 3 (split; [done|]). split; [|lia].
      apply (masks_inv_eq _ _ _ hb); [|done..]. by apply (masks_inv_leaf n P (drop n P) v).
    + assert (trie_node (sub (take n P) items) = extend (drop n P) (Known h)) as ->.
      { rewrite Hpre, Htop. unfold prepend. cbn [fmap list_fmap fst snd]. by rewrite app_nil_r, trie_node_hash. }
      destruct (push_known_ok P st hb h) as (hb1 & Hrun & Hst1 & <- & <- & Hinv1 & Hlen1); [done..|by apply (Hdb h)|done|done|].
      cbv zeta in Hrun |- *. rewrite Hrun, !ok_bind. cbn [andb]. by apply extension_tail_ok.
Qed.

(** ** Closing a branch *)

Lemma mark_parent_ok i P ms :
  nibbles P → (i < length P)%nat → (i < length ms)%nat →
  ∃ ms', mark_parent i P ms = Ok ms' ∧ length ms' = length ms ∧ ms' !! i = ms !! i
    ∧ ∀ j d, bit_at ms' j d ↔ bit_at ms j d ∨ last_at (take i P) j d.
Proof.
  intros Hnib Hi Hlen. destruct i as [|p]; cbn [mark_parent].
  - exists ms. do 3 (split; [done|]). intros j d. split; [by left|]. intros [?|[? _]]; done.
  - destruct (lookup_lt_is_Some_2 P p ltac:(lia)) as [d Hd]. rewrite Hd. cbn [unwrap]. rewrite ok_bind.
    pose proof (Forall_lookup_1 _ _ _ _ Hnib Hd) as Hd16.
    destruct (alter_at_ok p (set_bit d) ms ltac:(lia)) as (x & Hx & Halter).
    destruct (set_at_ok p d ms ltac:(lia) Hd16) as (ms' & Hms' & Hl & Hbits).
    exists ms'. split; [done|]. split; [done|]. split.
    + rewrite Halter in Hms'. injection Hms' as <-. by rewrite list_lookup_insert_ne by lia.
    + intros j e. rewrite Hbits, last_at_take by lia. split.
      * intros [?|[-> ->]]; [by left|by right].
      * intros [?|[[= ->] He]]; [by left|right]. split; [done|congruence].
Qed.

Lemma hashes_ok l acc : Forall (fun r => length r = 33%nat) l →
  res_foldl (fun hashes r => h ← hash_of_ref r; Ok (hashes ++ [h])) acc l
  = Ok (acc ++ ((fun r => from_be_bytes (drop 1 r)) <$> l)).
Proof.
  intros Hl. revert acc. induction Hl as [|r l Hr _ IH]; intros acc.
  - by rewrite app_nil_r.
  - assert (hash_of_ref r = Ok (from_be_bytes (drop 1 r))) as Hh by (unfold hash_of_ref; by rewrite Hr).
    cbn [res_foldl]. rewrite Hh, !ok_bind, IH, <- app_assoc. done.
Qed.

Lemma child_upto x L d :
  0 ≤ x < 16 → items_ok L → down x L ≠ [] → (∀ e, x < e → down e L = []) →
  (if Z.testbit (upto x L) d then down_ref L d else rlp_null) = child L d.
Proof.
  intros Hx HokL Hne Hr. pose proof (testbit_upto x L d Hx HokL Hne Hr) as Hb.
  unfold child, down_ref. destruct (Z.testbit (upto x L) d).
  - destruct (down d L); [by destruct (proj1 Hb eq_refl)|done].
  - destruct (down d L); [done|]. discriminate (proj2 Hb ltac:(discriminate)).
Qed.

Lemma branch_ref_ok x L h st hb :
  0 ≤ x < 16 → items_ok L → down x L ≠ [] → (∀ e, x < e → down e L = []) →
  (∀ e, Z.testbit h e = true → Z.testbit (upto x L) e = true) →
  stack hb = st ++ refs x L ++ [down_ref L x] →
  branch_ref (upto x L) h hb
  = Ok (down_ref L <$> filter (fun d => Z.testbit (upto x L) d && Z.testbit h d = true) digits16,
        with_stack (st ++ [node_ref (branch_rlp (child L))]) (with_buffer (branch_rlp (child L)) hb)).
Proof.
  intros Hx HokL Hne Hr Hsub Hst. unfold branch_ref. rewrite mask_subset, ok_bind by done.
  assert (refs x L ++ [down_ref L x]
          = down_ref L <$> filter (fun d => Z.testbit (upto x L) d = true) digits16) as Hrefs.
  { apply refs_upto; [done|]. intros d Hd. rewrite testbit_upto by done. unfold lower.
    split; [|intros [[_ ?]| ->]; done]. intros Hd'. destruct (Z.lt_trichotomy d x) as [?|[?|?]];
      [by left|by right|by destruct Hd'; apply Hr]. }
  assert (length (refs x L ++ [down_ref L x]) = count_ones (upto x L)) as Hcount
    by (rewrite Hrefs, length_fmap; unfold count_ones; reflexivity).
  rewrite Hst, length_app, Hcount, (proj2 (Nat.ltb_ge _ _)) by lia.
  replace (length st + count_ones (upto x L) - count_ones (upto x L))%nat with (length st) by lia.
  rewrite drop_app_length, Hrefs, branch_items_ok, ok_bind. cbv beta iota zeta.
  cbn [with_buffer stack]. rewrite Hst, take_app_length.
  rewrite (list_fmap_ext (fun d => if Z.testbit (upto x L) d then down_ref L d else rlp_null) (child L))
    by (intros; by apply child_upto).
  done.
Qed.

(** Every branch of the tree is referred to by its hash. *)
Definition wide (l : list item) : Prop :=
  ∀ p, branching (sub p l) → (KECCAK_LENGTH ≤ length (branch_rlp (child (sub p l))))%nat.

Lemma branching_ref p : wide items → branching (sub p items) → length (ref_of (trie_node (sub p items))) = 33%nat.
Proof.
  intros Hwide Hb. rewrite (trie_node_branching_nil _ (sub_ok p _ Hok) Hb). cbn [ref_of]. unfold node_ref.
  rewrite (proj2 (Nat.ltb_ge _ _)) by by apply Hwide. apply length_wrap_hash.
Qed.

Lemma headed_ref p : wide items → headed (sub p items) → length (ref_of (trie_node (sub p items))) = 33%nat.
Proof.
  intros Hwide [Hb|[h Hh]]; [by apply branching_ref|]. rewrite Hh, trie_node_hash. cbn [extend ref_of]. apply length_wrap_hash.
Qed.

Lemma new_node_ok m t h hs :
  (∀ e, Z.testbit t e = true → Z.testbit m e = true) →
  (∀ e, Z.testbit h e = true → Z.testbit m e = true) → count_ones h = length hs →
  new_node m t h hs None = Ok (mkNode m t h hs None).
Proof.
  intros Ht Hh Hcount. unfold new_node. rewrite !mask_subset by done. rewrite !ok_bind.
  by rewrite Hcount, Nat.eqb_refl.
Qed.

(** A branch of the tree whose last child is on the path. *)
Record last_child (i : nat) (x : Z) (P : bytes) : Prop := {
  lc_nibbles : nibbles P;
  lc_digit : P !! i = Some x;
  lc_child : down x (sub (take i P) items) ≠ [];
  lc_right : ∀ e, x < e → down e (sub (take i P) items) = []
}.

Lemma lc_range i x P : last_child i x P → 0 ≤ x < 16.
Proof. intros [Hnib Hx _ _]. exact (Forall_lookup_1 _ _ _ _ Hnib Hx). Qed.

Lemma lc_upto i x P d : last_child i x P →
  Z.testbit (upto x (sub (take i P) items)) d = true ↔ down d (sub (take i P) items) ≠ [].
Proof. intros Hlc. apply testbit_upto; [by eapply lc_range|by apply sub_ok|apply Hlc..]. Qed.

(** The digits of the branch are those of its children. *)
Lemma lc_digits i x P d : last_child i x P →
  done_at (take (S i) P) items i d ∨ True ∧ last_at (take (S i) P) i d ↔ down d (sub (take i P) items) ≠ [].
Proof.
  intros Hlc. pose proof (lc_digit _ _ _ Hlc) as Hx. pose proof (lookup_lt_Some _ _ _ Hx) as Hi.
  rewrite done_at_take, last_at_take by lia. unfold done_at, lower. rewrite Hx. split.
  - intros [(y & [= <-] & _ & ?)|[_ [_ [= <-]]]]; [done|by apply (lc_child _ _ _ Hlc)].
  - intros Hd. destruct (Z.lt_trichotomy d x) as [?|[->|?]].
    + left. by exists x.
    + by right.
    + by destruct Hd; apply (lc_right _ _ _ Hlc).
Qed.

Lemma supported_nonempty P c hb k : masks_inv P items c hb → supported (calls hb) k → sub k items ≠ [].
Proof.
  intros Hinv [(q & Hq & Hp)|(cl & Hcl & Hp)].
  - destruct (indb_item q k Hq Hp) as (r & h & _ & Hin). intros E. rewrite E in Hin. by apply elem_of_nil in Hin.
  - destruct (call_branch _ _ _ _ _ Hinv Hcl Hp) as (r & _ & Hb). intros E. rewrite E, sub_nil in Hb.
    by destruct (branching_many _ Hb) as (? & ? & ? & ?).
Qed.

(** The tree mask of the branch tells which of its children have nodes. *)
Lemma branch_tree i x P hb d :
  last_child i x P → has_collector hb = true → masks_inv (take (S i) P) items True hb →
  bit_at (tree_masks hb) i d ↔ supported (calls hb) (take i P ++ [d]).
Proof.
  intros Hlc Hcol Hinv. assert (take i (take (S i) P) = take i P) as Htt by (rewrite take_take; f_equal; lia). split.
  - intros Hb. destruct (inv_tree _ _ _ _ Hinv _ _ Hb) as [_ Hs]. by rewrite Htt in Hs.
  - intros Hs. apply (inv_full _ _ _ _ Hinv); [done| |by rewrite Htt].
    apply (lc_digits _ _ _ _ Hlc). pose proof (supported_nonempty _ _ _ _ Hinv Hs) as Hne. by rewrite sub_app in Hne.
Qed.

Lemma branch_hash i x P hb d :
  last_child i x P → masks_inv (take (S i) P) items True hb →
  bit_at (hash_masks hb) i d → headed (down d (sub (take i P) items)).
Proof.
  intros Hlc Hinv Hb. pose proof (lc_digit _ _ _ Hlc) as Hx. pose proof (lookup_lt_Some _ _ _ Hx) as Hi.
  destruct (inv_hash _ _ _ _ Hinv _ _ Hb) as [[_ Hh]|[_ [Hl Hh]]].
  - by rewrite take_take, Nat.min_l in Hh by lia.
  - apply (last_at_take (S i) P i d ltac:(lia)) in Hl as [_ Hd]. rewrite Hx in Hd. injection Hd as <-.
    by rewrite (take_S_r _ _ x Hx), sub_app in Hh.
Qed.

(** Where the subtree at the branch passes, one at its last child did. *)
Lemma passed_child i x P k :
  last_child i x P → branching (sub k items) → passed (take i P) True k →
  k = take i P ∨ passed (take (S i) P) True k.
Proof.
  intros Hlc Hb [Hd|[_ [r ->]]].
  - right. left. apply (diverges_take i). rewrite take_take, Nat.min_l by lia. done.
  - destruct r as [|d r]; [left; by rewrite app_nil_r|right].
    rewrite (take_S_r _ _ x (lc_digit _ _ _ Hlc)). destruct (Z.lt_trichotomy d x) as [?|[->|Hgt]].
    + left. apply diverges_app, diverges_cons. by left.
    + right. split; [done|]. apply prefix_app. by exists r.
    + rewrite sub_app, sub_cons, (lc_right _ _ _ Hlc d Hgt), sub_nil in Hb. by destruct (branching_many _ Hb) as (? & ? & ? & ?).
Qed.

Lemma node_of_more cs c k n P cc : node_of items cs k n → passed P cc k → c.1 = P → node_of items (cs ++ [c]) k n.
Proof.
  intros [H1 H2 H3 H4 H5 H6 H7] Hp Hc. split; [done..| |done|done]. intros d. rewrite H5, supported_snoc, Hc.
  split; [by left|]. intros [?|Hk]; [done|]. by apply (passed_not_under _ _ _ _ Hp) in Hk.
Qed.

(** The branch at [i] is cut off, its node collected if it has children
    with nodes or hashes. *)
Lemma masks_closed i x P hb hb' tm hm (new : list Node) :
  last_child i x P → branching (sub (take i P) items) → has_collector hb = true →
  masks_inv (take (S i) P) items True hb →
  length tm = length hm →
  (∀ j d, bit_at hm j d ↔ bit_at (hash_masks hb) j d ∨ last_at (take i P) j d) →
  (∀ j d, bit_at tm j d ↔ bit_at (tree_masks hb) j d ∨ new ≠ [] ∧ last_at (take i P) j d) →
  calls hb' = calls hb ++ ((fun n => (take i P, n)) <$> new) →
  match new with
  | [] => ∀ d, ¬ bit_at (tree_masks hb) i d
  | [n] => node_of items (calls hb') (take i P) n
  | _ => False
  end →
  masks_inv (take i P) items True (with_masks (resize i 0 tm) (resize i 0 hm) hb').
Proof.
  intros Hlc Hb Hcol Hinv Hlen Hhm Htm Hcs Hnew. pose proof Hinv as [H1 H2 H3 H4 H5 H6].
  pose proof (lc_digit _ _ _ Hlc) as Hx. pose proof (lookup_lt_Some _ _ _ Hx) as Hi.
  assert (take i P ∉ (calls hb).*1) as Hnin.
  { intros (c & Ec & Hc)%list_elem_of_fmap. apply H5 in Hc as [Hp _]. rewrite <- Ec in Hp.
    destruct Hp as [[_ Hd]|[_ [r Hr]]].
    - apply Hd. exists [x]. by apply take_S_r.
    - apply (f_equal length) in Hr. rewrite length_app, !length_take in Hr. lia. }
  assert (∀ k, supported (calls hb') k ↔ supported (calls hb) k ∨ new ≠ [] ∧ k `prefix_of` take i P) as Hsup.
  { intros k. rewrite Hcs. destruct new as [|n [|? ?]]; [rewrite app_nil_r; tauto| |done].
    cbn [fmap list_fmap]. rewrite supported_snoc. cbn [fst]. split; [intros [?|?]; [by left|by right]|intros [?|[_ ?]]; [by left|by right]]. }
  assert (∀ j d, done_at (take i P) items j d → (j < i)%nat ∧ done_at (take (S i) P) items j d
            ∧ ¬ (take j (take i P) ++ [d]) `prefix_of` take i P) as Hdone.
  { intros j d Hd. pose proof Hd as (y & Hy & Hlow & _). pose proof (lookup_lt_Some _ _ _ Hy) as Hj.
    rewrite length_take in Hj. assert (j < i)%nat as Hji by lia. split; [done|].
    rewrite done_at_take in Hd by lia. split; [by rewrite done_at_take by lia|].
    intros [r Hr]. apply (f_equal (fun l => l !! j)) in Hr. rewrite Hy, <- app_assoc in Hr.
    rewrite lookup_app_r, !length_take in Hr by (rewrite !length_take; lia).
    replace (j - (j `min` (i `min` length P)))%nat with 0%nat in Hr by lia. injection Hr as ->. lia. }
  assert (∀ j, (j < i)%nat → take j (take i P) = take j (take (S i) P)) as Htt
    by (intros j Hj; rewrite !take_take; f_equal; lia).
  split; cbn [with_masks tree_masks hash_masks].
  - by rewrite !length_resize.
  - intros j d [[Hbit|[Hne Hl]]%Htm Hj]%bit_at_resize.
    + destruct (H2 j d Hbit) as [[Hd|[_ [Hl _]]] Hs]; [|rewrite length_take in Hl; lia].
      rewrite Htt by done. split; [|apply Hsup; by left]. left.
      rewrite done_at_take in Hd by lia. by rewrite done_at_take by lia.
    + split; [by right|]. apply Hsup. right. split; [done|]. by rewrite (last_at_path _ _ _ Hl).
  - intros j d _ [Hd|[_ Hl]] Hs; apply bit_at_resize; rewrite Htm.
    + destruct (Hdone j d Hd) as (Hj & Hd' & Hnp). split; [|done]. left. apply H3; [done|by left|].
      rewrite <- Htt by done. apply Hsup in Hs as [?|[_ ?]]; done.
    + pose proof Hl as [Hj _]. rewrite length_take in Hj. split; [|lia].
      rewrite (last_at_path _ _ _ Hl) in Hs. right. split; [|done]. destruct new; [|done].
      apply Hsup in Hs as [Hs|[? _]]; [|done].
      destruct (supported_child _ _ _ _ Hinv Hb Hnin Hs) as (e & He & _).
      apply (branch_tree i x P hb e Hlc Hcol Hinv) in He. by apply Hnew in He.
  - intros j d [[Hbit|Hl]%Hhm Hj]%bit_at_resize.
    + destruct (H4 j d Hbit) as [[Hd Hh]|[_ [[Hl _] _]]]; [|rewrite length_take in Hl; lia]. left.
      rewrite Htt by done. rewrite done_at_take in Hd by lia. by rewrite done_at_take by lia.
    + right. split; [done|]. split; [done|]. by left.
  - intros c Hc. assert (calls (with_masks (resize i 0 tm) (resize i 0 hm) hb') = calls hb') as -> by done.
    change (calls (with_masks (resize i 0 tm) (resize i 0 hm) hb')) with (calls hb') in Hc.
    rewrite Hcs in Hc. apply elem_of_app in Hc as [Hc|(n & -> & Hn)%list_elem_of_fmap].
    + destruct (H5 c Hc) as [Hp Hno]. assert (passed (take i P) True c.1) as Hp'.
      { apply (passed_take i) in Hp. by rewrite take_take, Nat.min_l in Hp by lia. }
      split; [done|]. rewrite Hcs. destruct new as [|n [|? ?]]; [by rewrite app_nil_r| |done].
      cbn [fmap list_fmap]. by apply (node_of_more _ _ _ _ (take i P) True).
    + cbn [fst snd]. destruct new as [|n' [|? ?]]; [by apply elem_of_nil in Hn| |done].
      apply list_elem_of_singleton in Hn as ->. split; [by right|done].
  - intros k d _ Hp Hbk Hs. change (calls (with_masks (resize i 0 tm) (resize i 0 hm) hb')) with (calls hb') in Hs |- *.
    rewrite Hcs, fmap_app. apply elem_of_app. destruct (passed_child i x P k Hlc Hbk Hp) as [->|Hp'].
    + right. destruct new as [|n [|? ?]]; [exfalso|left|done]. apply Hsup in Hs as [Hs|[? _]]; [|done].
      apply (branch_tree i x P hb d Hlc Hcol Hinv) in Hs. by apply Hnew in Hs.
    + left. apply (H6 k d Hcol Hp' Hbk). apply Hsup in Hs as [?|[_ Hk]]; [done|].
      by apply (passed_not_under _ _ _ _ Hp) in Hk.
Qed.

Lemma headed_child p d : wide items → headed (down d (sub p items)) → length (down_ref (sub p items) d) = 33%nat.
Proof.
  intros Hwide Hh. unfold down_ref. pose proof (sub_app p [d] items) as E. cbn [sub foldl] in E.
  change (foldl (fun l x => down x l) items p) with (sub p items) in E.
  rewrite <- E in Hh |- *. by apply (headed_ref (p ++ [d])).
Qed.

(** The node of the branch. *)
Lemma branch_node_of i x P hb hb' t h (root : option Z) :
  last_child i x P → branching (sub (take i P) items) → wide items → has_collector hb = true →
  masks_inv (take (S i) P) items True hb →
  tree_masks hb !! i = Some t → hash_masks hb !! i = Some h → t ≠ 0 ∨ h ≠ 0 →
  root = (if decide (take i P = []) then Some (hash_of (ref_of (trie_node (sub (take i P) items)))) else None) →
  let L := sub (take i P) items in
  let n := mkNode (upto x L) t h ((fun r => from_be_bytes (drop 1 r)) <$> (down_ref L <$>
             filter (fun d => Z.testbit (upto x L) d && Z.testbit h d = true) digits16)) root in
  calls hb' = calls hb ++ [(take i P, n)] → node_of items (calls hb') (take i P) n.
Proof.
  intros Hlc Hb Hwide Hcol Hinv Ht Hh Hth Hroot L n Hcs.
  assert (∀ d, Z.testbit t d = true ↔ supported (calls hb) (take i P ++ [d])) as Htree.
  { intros d. rewrite <- (branch_tree i x P hb d Hlc Hcol Hinv). unfold bit_at. rewrite Ht.
    split; [by eexists|by intros (m & [= <-] & ?)]. }
  assert (∀ d, Z.testbit h d = true → headed (down d L)) as Hhash.
  { intros d Hd. apply (branch_hash i x P hb d Hlc Hinv). by exists h. }
  assert (∀ d, headed (down d L) → down d L ≠ []) as Hne.
  { intros d [Hbd|[h' ->]]; [|done]. by destruct (branching_many _ Hbd) as (? & ? & ? & ->). }
  split; cbn [n state_mask tree_mask hash_mask hashes node_root_hash].
  - done.
  - intros d. by apply lc_upto.
  - rewrite <- list_fmap_compose.
    rewrite (filter_ext_elem (fun d => Z.testbit (upto x L) d && Z.testbit h d = true) (fun d => Z.testbit h d = true)).
    2: { intros d _. rewrite andb_true_iff. split; [by intros []|]. intros Hd. split; [|done]. apply (lc_upto i x P d Hlc), Hne, Hhash, Hd. }
    assert (Forall (fun d => Z.testbit h d = true) (filter (fun d => Z.testbit h d = true) digits16)) as Hall.
    { apply Forall_forall. by intros d [Hd _]%list_elem_of_filter. }
    induction Hall as [|d l Hd Hall IH]; [constructor|]. cbn [fmap list_fmap]. constructor; [|done].
    specialize (Hhash d Hd). split; [done|]. split; [|done]. by apply headed_child.
  - intros d Hd. by apply Hne, Hhash.
  - intros d. rewrite Htree, Hcs, supported_snoc. split; [by left|]. intros [?|[r Hr]]; [done|].
    cbn in Hr. apply (f_equal length) in Hr. rewrite !length_app in Hr. cbn in Hr. lia.
  - done.
  - done.
Qed.

Lemma stack_root_of hb st r : stack hb = st ++ [r] → stack_root_hash hb = Ok (hash_of r).
Proof. intros Hst. unfold stack_root_hash. by rewrite Hst, last_snoc. Qed.

Lemma collect_branch_ok i x P hb st h :
  let L := sub (take i P) items in
  last_child i x P → branching L → wide items → has_collector hb = true → stack hb = st ++ [ref_of (trie_node L)] →
  groups hb !! i = Some (upto x L) → hash_masks hb !! i = Some h → masks_inv (take (S i) P) items True hb →
  ∃ hb', collect_branch i P (down_ref L <$>
             filter (fun d => Z.testbit (upto x L) d && Z.testbit h d = true) digits16) hb = Ok hb'
    ∧ stack hb' = stack hb ∧ groups hb' = groups hb ∧ has_collector hb' = has_collector hb
    ∧ masks_inv (take i P) items True
        (with_masks (resize i 0 (tree_masks hb')) (resize i 0 (hash_masks hb')) hb').
Proof.
  intros L Hlc Hb Hwide Hcol Hst Hg Hh Hinv.
  pose proof (lc_digit _ _ _ Hlc) as Hx. pose proof (lookup_lt_Some _ _ _ Hx) as Hi.
  pose proof (lookup_lt_Some _ _ _ Hh) as Hhlen. pose proof (inv_length _ _ _ _ Hinv) as H1.
  destruct (mark_parent_ok i P (hash_masks hb) (lc_nibbles _ _ _ Hlc) Hi Hhlen) as (hm & Hmark & Hhm & Hhi & Hhb).
  destruct (lookup_lt_is_Some_2 (tree_masks hb) i ltac:(lia)) as [t Ht].
  destruct (mark_parent_ok i P (tree_masks hb) (lc_nibbles _ _ _ Hlc) Hi ltac:(lia)) as (tm & Hmarkt & Htm & Hti & Htb).
  unfold collect_branch. rewrite Hmark, ok_bind. cbn [with_masks tree_masks hash_masks].
  rewrite Ht, Hhi, Hh. cbn [unwrap]. rewrite !ok_bind.
  destruct (negb (t =? 0) || negb (h =? 0)) eqn:Eth.
  2: { apply orb_false_iff in Eth as [Et%negb_false_iff%Z.eqb_eq _]. subst t.
       eexists. split; [done|]. do 3 (split; [done|]).
       apply (masks_closed i x P hb _ _ _ [] Hlc Hb Hcol Hinv).
       - cbn [with_masks tree_masks hash_masks]. lia.
       - done.
       - intros j d. cbn. tauto.
       - by rewrite app_nil_r.
       - intros d (m & Hm & Hd). rewrite Ht in Hm. injection Hm as <-. by rewrite Z.bits_0 in Hd. }
  assert (∀ d, Z.testbit h d = true → Z.testbit (upto x L) d = true ∧ length (down_ref L d) = 33%nat) as Hhash.
  { intros d Hd. assert (headed (down d L)) as Hhd by (apply (branch_hash i x P hb d Hlc Hinv); by exists h). split.
    - apply (lc_upto i x P d Hlc). fold L. intros E. rewrite E in Hhd. destruct Hhd as [Hbd|[? ?]]; [|done].
      by destruct (branching_many _ Hbd) as (? & ? & ? & ?).
    - by apply headed_child. }
  assert (∀ d, Z.testbit t d = true → Z.testbit (upto x L) d = true) as Htree.
  { intros d Hd. apply (lc_upto i x P d Hlc). assert (bit_at (tree_masks hb) i d) as Hbit by by exists t.
    apply (branch_tree i x P hb d Hlc Hcol Hinv) in Hbit. pose proof (supported_nonempty _ _ _ _ Hinv Hbit) as Hne.
    by rewrite sub_app in Hne. }
  rewrite Hmarkt, ok_bind. cbn [with_masks tree_masks hash_masks].
  rewrite hashes_ok.
  2: { rewrite Forall_fmap, Forall_forall. intros d [Hd _]%list_elem_of_filter.
       apply andb_true_iff in Hd as [_ Hd]. by apply Hhash. }
  rewrite ok_bind. cbn [groups with_masks tree_masks hash_masks app]. rewrite Hg, Hti, Ht. cbn [unwrap]. rewrite !ok_bind.
  rewrite new_node_ok; [|done|by intros d Hd; apply Hhash|].
  2: { rewrite !length_fmap. unfold count_ones. f_equal. apply filter_ext_elem. intros d _.
       rewrite andb_true_iff. split; [intros Hd; split; [by apply Hhash|done]|by intros []]. }
  rewrite ok_bind. set (hb1 := with_masks tm hm (with_masks (tree_masks hb) hm hb)).
  set (hs := _ <$> (_ <$> _)).
  set (root := if decide (take i P = []) then Some (hash_of (ref_of (trie_node L))) else None).
  assert ((if (i =? 0)%nat then h0 ← stack_root_hash hb1;
            Ok (set_root_hash (Some h0) (mkNode (upto x L) t h hs None))
          else Ok (mkNode (upto x L) t h hs None) : result Node) = Ok (mkNode (upto x L) t h hs root)) as ->.
  { subst root. destruct (Nat.eqb_spec i 0) as [->|Hi0].
    - rewrite (stack_root_of hb1 st (ref_of (trie_node L))) by exact Hst. rewrite ok_bind.
      by rewrite decide_True by done.
    - rewrite decide_False; [done|]. intros E. apply (f_equal length) in E. rewrite length_take in E. cbn in E. lia. }
  rewrite ok_bind. eexists. split; [done|]. cbn [with_collected stack groups].
  do 2 (split; [done|]). split.
  { unfold has_collector. cbn. by destruct (node_collector hb). }
  set (hb2 := with_collected _ _).
  assert (calls hb2 = calls hb ++ [(take i P, mkNode (upto x L) t h hs root)]) as Hcs.
  { unfold calls, hb2, hb1. cbn. unfold has_collector in Hcol. apply bool_decide_eq_true in Hcol as [cs ->]. done. }
  apply (masks_closed i x P hb hb2 tm hm [mkNode (upto x L) t h hs root] Hlc Hb Hcol Hinv).
  - lia.
  - done.
  - intros j d. rewrite Htb. split; [intros [?|?]; [by left|by right]|intros [?|[_ ?]]; [by left|by right]].
  - exact Hcs.
  - apply (branch_node_of i x P hb hb2 t h root); try done.
    apply orb_true_iff in Eth as [E|E]; [left|right]; by apply negb_true_iff, Z.eqb_neq in E.
Qed.

Lemma close_branch_ok i x P st hb :
  last_child i x P → branching (sub (take i P) items) →
  (has_collector hb = true → wide items) →
  groups hb !! i = Some (upto x (sub (take i P) items)) →
  stack hb = st ++ refs x (sub (take i P) items) ++ [down_ref (sub (take i P) items) x] →
  masks_inv (take (S i) P) items True hb → (S i ≤ length (hash_masks hb))%nat →
  ∃ hb', close_branch i P hb = Ok hb'
    ∧ stack hb' = st ++ [ref_of (trie_node (sub (take i P) items))] ∧ groups hb' = groups hb
    ∧ has_collector hb' = has_collector hb
    ∧ masks_inv (take i P) items True
        (with_masks (resize i 0 (tree_masks hb')) (resize i 0 (hash_masks hb')) hb').
Proof.
  intros Hlc Hb Hwide Hg Hst Hinv Hlen. set (L := sub (take i P) items) in *.
  pose proof (lc_digit _ _ _ Hlc) as Hx. pose proof (lc_range _ _ _ Hlc) as Hx16.
  destruct (lookup_lt_is_Some_2 (hash_masks hb) i ltac:(lia)) as [h Hh].
  unfold close_branch. rewrite Hg, Hh. cbn [unwrap]. rewrite !ok_bind.
  assert (items_ok L) as HokL by (apply sub_ok, Hok).
  rewrite (branch_ref_ok x L h st); [|done|done|by apply Hlc|by apply Hlc| |done].
  2: { intros d Hd. apply (lc_upto _ _ _ _ Hlc). fold L. intros E.
       assert (headed (down d L)) as Hhd by (apply (branch_hash i x P hb d Hlc Hinv); by exists h). rewrite E in Hhd.
       destruct Hhd as [Hbd|[? ?]]; [|done]. by destruct (branching_many _ Hbd) as (? & ? & ? & ?). }
  rewrite ok_bind, (trie_node_branching_nil L HokL Hb). cbv beta iota zeta.
  set (hb1 := with_stack _ _).
  assert (masks_inv (take (S i) P) items True hb1) as Hinv1 by by apply (masks_inv_eq _ _ _ _ _ Hinv).
  change (has_collector hb1) with (has_collector hb).
  destruct (has_collector hb) eqn:Ecol.
  - destruct (collect_branch_ok i x P hb1 st h) as (hb' & Hc & Hst' & Hg' & Hcol & Hinv'); [done|done|by apply Hwide|done| |done..|].
    { fold L. by rewrite (trie_node_branching_nil L HokL Hb). }
    fold L in Hc. exists hb'. rewrite Hc, Hst', Hg', Hcol. by rewrite <- Ecol.
  - exists hb1. do 3 (split; [done|]). split; [done|].
    pose proof (lookup_lt_Some _ _ _ Hx) as Hi.
    replace (take i P) with (take i (take (S i) P)) by (rewrite take_take; f_equal; lia).
    apply (masks_inv_take i _ True); [rewrite length_take; lia|done|]. change (has_collector hb1) with (has_collector hb). by rewrite Ecol.
Qed.

End masks_inv.
