(* ===== verification/BuilderRoot.v ===== *)
(** * BuilderRoot

    The hash builder computes the root of the Merkle-Patricia tree of its
    items, and collects its nodes: every turn of the loop, every call and
    the last one keep what [BuilderMasks] says of its state. *)

From stdpp Require Import sorting.
From S2P Require Import Prelude Words Errors Account Block BytesOrder TrieNode HashBuilder MerkleTrie BuilderFrames BuilderMasks.

(** ** Cutting paths *)

Lemma drop_pop_zeros n l : (length (pop_zeros l) ≤ n)%nat → drop n l = replicate (length l - n) 0.
Proof.
  intros Hn. destruct (pop_zeros_spec l) as [[k Hl] _].
  apply (f_equal length) in Hl as Hlen. rewrite length_app, length_replicate in Hlen.
  rewrite Hl at 1. rewrite drop_app_ge, drop_replicate by done. f_equal. lia.
Qed.

Lemma masks_drop n P items :
  (n ≤ length P)%nat → drop n (masks P items) = masks (drop n P) (sub (take n P) items).
Proof.
  intros Hn. assert (masks P items = masks (take n P) items ++ masks (drop n P) (sub (take n P) items)) as ->
    by by rewrite <- masks_app, take_drop.
  rewrite drop_app_length'; [done|]. rewrite length_masks, length_take. lia.
Qed.

Lemma leftmost_drop n P items :
  items_ok items → (length (pop_zeros (masks P items)) ≤ n)%nat → (n ≤ length P)%nat →
  leftmost (drop n P) (sub (take n P) items).
Proof.
  intros Hok Hn HP. apply leftmost_masks; [by apply sub_ok|].
  rewrite length_drop, <- (length_masks P items), <- drop_pop_zeros by done.
  symmetry. by apply masks_drop.
Qed.

Lemma rightmost_drop n m P items :
  (n ≤ m)%nat → rightmost (drop n P) (sub (take n P) items) →
  rightmost (drop m P) (sub (take m P) items).
Proof.
  intros Hnm Hr. replace m with (n + (m - n))%nat by lia. rewrite <- drop_drop.
  rewrite <- (take_drop (m - n) (drop n P)) in Hr. apply rightmost_app in Hr as [_ Hr].
  by rewrite <- sub_app, take_take_drop in Hr.
Qed.

Lemma rightmost_take n m P items :
  (n ≤ m)%nat → rightmost (drop n P) (sub (take n P) items) →
  rightmost (drop n (take m P)) (sub (take n (take m P)) items).
Proof.
  intros Hnm Hr. rewrite take_take, Nat.min_l by done. rewrite skipn_firstn_comm.
  rewrite <- (take_drop (m - n) (drop n P)) in Hr. by apply rightmost_app in Hr as [Hr _].
Qed.

Lemma prefix_length_take i a b :
  (prefix_length a b < i)%nat → prefix_length a (take i b) = prefix_length a b.
Proof.
  revert i b. induction a as [|x a IH]; intros i b Hi; [done|].
  destruct b as [|y b]; [by rewrite take_nil|]. destruct i as [|i]; [lia|]. cbn in *.
  destruct (x =? y); [|done]. rewrite IH; [done|lia].
Qed.

Section loop.
Context `{!Hashing} `{!RlpStream} (indb : bytes → Prop).

(** A frame and the subtree at the end of the path. *)
Lemma frames_snoc i x P items :
  P !! i = Some x →
  frames (take (S i) P) items ++ [ref_of (trie_node (sub (take (S i) P) items))]
  = frames (take i P) items ++ refs x (sub (take i P) items) ++ [down_ref (sub (take i P) items) x].
Proof.
  intros Hx. rewrite (take_S_r _ _ x Hx), frames_app, sub_app. cbn [frames].
  by rewrite app_nil_r, <- app_assoc.
Qed.

(** The branch that the groups close. *)
Lemma last_group P items :
  items_ok items → nibbles P → pop_zeros (masks P items) ≠ [] → sub P items ≠ [] →
  let i := (length (pop_zeros (masks P items)) - 1)%nat in
  rightmost (drop i P) (sub (take i P) items) →
  ∃ x, last_child items i x P ∧ branching (sub (take i P) items).
Proof.
  intros Hok Hnib Hne Hsne i Hr. destruct (pop_zeros_last _ Hne) as (m & Hm & Hm0 & _). fold i in Hm.
  rewrite masks_lookup in Hm. apply fmap_Some in Hm as (x & Hx & ->). exists x.
  assert (down x (sub (take i P) items) ≠ []) as Hdx.
  { intros E. apply Hsne. rewrite <- (take_drop_middle P i x Hx), sub_app, sub_cons, E. apply sub_nil. }
  rewrite (drop_S _ _ _ Hx) in Hr. destruct Hr as [Hr _].
  split; [by split|].
  destruct (decide (Exists (lower x (sub (take i P) items)) digits16)) as [Hex|Hnone].
  - apply Exists_exists in Hex as (d & _ & Hlt & Hd). exists d, x. split; [lia|done].
  - destruct Hm0. apply mask_eq. intros e. rewrite testbit_mask_of, Z.bits_0. split; [|done].
    intros [He Hl]. destruct Hnone. apply Exists_exists. exists e. by rewrite elem_of_digits16.
Qed.

(** The state at the start of a turn: [n] is the depth below which later
    items may still come. *)
Record turn (be : bool) (n : nat) (P : bytes) (items : list item) (hb : HashBuilder) : Prop := {
  t_items : items_ok items;
  t_indb q : indb q → ∃ h, (q, ValueHash h) ∈ items;
  t_nibbles : nibbles P;
  t_path : (n ≤ length P)%nat ∧ P ≠ [];
  t_sub : sub P items ≠ [];
  t_right : rightmost (drop n P) (sub (take n P) items);
  t_groups : groups hb = pop_zeros (masks P items);
  t_top : top indb items be P (frames P items) hb;
  t_masks : masks_inv indb P items (be = true) hb;
  t_wide : has_collector hb = true → wide items
}.

(** The pending subtree is complete down to the depth [S len], or as a
    whole when [len_from] is 0. *)
Lemma turn_push be n P items hb len x :
  let g := length (groups hb) in
  turn be n P items hb → P !! len = Some x → (g ≤ S len)%nat → (n ≤ S len)%nat →
  ∃ hb1, open_group len x P hb = Ok hb1
    ∧ ∀ len_from, (g ≤ len_from)%nat → (n ≤ len_from)%nat → (len_from ≤ S len)%nat →
      ∃ hb2, push_node be len_from P hb1 = Ok hb2
        ∧ groups hb2 = masks (take len P) items ++ [upto x (sub (take len P) items)]
        ∧ stack hb2 = frames (take len_from P) items ++ [ref_of (trie_node (sub (take len_from P) items))]
        ∧ has_collector hb2 = has_collector hb ∧ masks_inv indb (take len_from P) items True hb2
        ∧ (len_from ≤ length (hash_masks hb2))%nat.
Proof.
  intros g [Hok Hdb Hnib [Hn HP] Hsne Hr Hg Htop Hinv _] Hx Hlen Hnl. pose proof (lookup_lt_Some _ _ _ Hx) as Hlt.
  destruct (open_group_ok indb items len x P hb (masks P items) (be = true))
    as (hb1 & m & -> & Hm & Hg1 & Hst1 & Hv1 & Hd1 & Hc1 & Hinv1 & Hl1); [done|done|apply length_masks|done|done|].
  exists hb1. split; [done|]. intros lf Hlf1 Hlf2 Hlf3.
  assert (leftmost (drop lf P) (sub (take lf P) items)) as Hleft
    by (apply leftmost_drop; [done|rewrite <- Hg; done|lia]).
  destruct (push_node_ok indb items Hok Hdb be lf P (frames P items) hb1) as (hb2 & -> & Hst2 & Hg2 & Hc2 & Hinv2 & Hl2);
    [done|done|lia|done|done|by apply (rightmost_drop n)|done| |].
  { unfold top in *. rewrite Hst1, Hv1, Hd1. done. }
  exists hb2. split; [done|]. split.
  { rewrite masks_lookup, Hx in Hm. cbn [fmap option_fmap option_map] in Hm. apply (inj Some) in Hm.
    rewrite Hg2, Hg1, masks_take, <- Hm. reflexivity. }
  split; [|split; [|done]].
  - rewrite Hst2. f_equal. rewrite <- (take_drop lf P) at 1.
    by rewrite frames_app, (frames_leftmost (drop lf P)), app_nil_r.
  - rewrite Hc2. unfold has_collector. by rewrite Hc1.
Qed.

(** The turn closes the branch at the last group [i]. *)
Lemma turn_close be n P items hb hb2 x :
  let i := (length (groups hb) - 1)%nat in
  turn be n P items hb → groups hb ≠ [] → (n ≤ i)%nat → P !! i = Some x →
  groups hb2 = masks (take i P) items ++ [upto x (sub (take i P) items)] →
  stack hb2 = frames (take (S i) P) items ++ [ref_of (trie_node (sub (take (S i) P) items))] →
  has_collector hb2 = has_collector hb → masks_inv indb (take (S i) P) items True hb2 →
  (S i ≤ length (hash_masks hb2))%nat →
  ∃ hb3, close_branch i P hb2 = Ok hb3
    ∧ let hb4 := with_masks (resize i 0 (tree_masks hb3)) (resize i 0 (hash_masks hb3))
                   (with_groups (resize i 0 (groups hb3)) hb3) in
      groups hb4 = masks (take i P) items
      ∧ stack hb4 = frames (take i P) items ++ [ref_of (trie_node (sub (take i P) items))]
      ∧ has_collector hb4 = has_collector hb ∧ branching (sub (take i P) items)
      ∧ masks_inv indb (take i P) items True hb4.
Proof.
  intros i [Hok Hdb Hnib [Hn HP] Hsne Hr Hg _ _ Hwide] Hne Hni Hx Hg2 Hst2 Hc2 Hinv2 Hl2.
  rewrite Hg in Hne. pose proof (last_group P items Hok Hnib Hne Hsne) as Hlast. cbn zeta in Hlast.
  rewrite <- Hg in Hlast. fold i in Hlast.
  destruct (Hlast (rightmost_drop n i P items Hni Hr)) as (x' & Hlc & Hb).
  pose proof (lc_digit _ _ _ _ Hlc) as Hx'. rewrite Hx in Hx'. injection Hx' as <-.
  assert (length (masks (take i P) items) = i) as Hlen.
  { rewrite length_masks, length_take. pose proof (lookup_lt_Some _ _ _ Hx). lia. }
  destruct (close_branch_ok indb items Hok Hdb i x P (frames (take i P) items) hb2)
    as (hb3 & -> & Hst3 & Hg3 & Hc3 & Hinv3);
    [done|done|by rewrite Hc2| |by rewrite Hst2; apply frames_snoc|done|done|].
  { rewrite Hg2, lookup_app_r, Hlen, Nat.sub_diag by lia. done. }
  exists hb3. split; [done|]. cbn [with_masks with_groups groups stack]. split.
  { rewrite Hg3, Hg2, resize_le by (rewrite length_app; cbn; lia).
    by rewrite take_app_length' by done. }
  split; [done|]. split; [by rewrite <- Hc2, <- Hc3|]. split; [done|].
  by apply (masks_inv_eq _ _ _ _ _ _ Hinv3).
Qed.

(** What the loop leaves: the subtree settled as a child of the branch at
    the depth [c] where the next key parts, or the whole tree. *)
Definition settled (c : nat) (P : bytes) (items : list item) (hb : HashBuilder) : Prop :=
  ∃ x, P !! c = Some x
    ∧ groups hb = masks (take c P) items ++ [upto x (sub (take c P) items)]
    ∧ stack hb = frames (take (S c) P) items ++ [ref_of (trie_node (sub (take (S c) P) items))]
    ∧ masks_inv indb (take (S c) P) items True hb.

Definition loop_result (succeeding P : bytes) (items : list item) (hb hb' : HashBuilder) : Prop :=
  has_collector hb' = has_collector hb
  ∧ match succeeding with
    | [] => groups hb' = [] ∧ stack hb' = [ref_of (trie_node items)] ∧ masks_inv indb [] items True hb'
    | _ => settled (prefix_length succeeding P) P items hb'
    end.

Definition later (succeeding P : bytes) : nat :=
  match succeeding with [] => 0%nat | _ => S (prefix_length succeeding P) end.

Lemma settled_take i c P items hb : (c < i)%nat → settled c (take i P) items hb → settled c P items hb.
Proof.
  intros Hi (x & Hx & Hs). exists x. rewrite !take_take, !Nat.min_l in Hs by lia.
  by rewrite lookup_take_lt in Hx by done.
Qed.

Lemma turn_next be n P items hb i hb4 :
  turn be n P items hb → (0 < i < length P)%nat → (n ≤ i)%nat →
  groups hb4 = masks (take i P) items →
  stack hb4 = frames (take i P) items ++ [ref_of (trie_node (sub (take i P) items))] →
  has_collector hb4 = has_collector hb → branching (sub (take i P) items) →
  masks_inv indb (take i P) items True hb4 →
  turn true n (take i P) items (with_groups (pop_zeros (groups hb4)) hb4).
Proof.
  intros [Hok Hdb Hnib [Hn HP] Hsne Hr Hg _ _ Hwide] Hi Hni Hg4 Hst4 Hc4 Hb Hinv4.
  split; [done|done|by apply Forall_take| | |by apply rightmost_take|by rewrite <- Hg4|by split| |].
  - rewrite length_take. split; [lia|]. intros E. apply (f_equal length) in E.
    rewrite length_take in E. cbn in E. lia.
  - by destruct (branching_many _ Hb) as (? & ? & ? & ->).
  - by apply (masks_inv_eq _ _ _ _ hb4); [apply (masks_inv_iff _ _ _ _ _ _ Hinv4)|..].
  - change (has_collector (with_groups (pop_zeros (groups hb4)) hb4)) with (has_collector hb4).
    by rewrite Hc4.
Qed.

Lemma gen_struct_loop_ok fuel be P items hb succeeding :
  turn be (later succeeding P) P items hb → (length P ≤ fuel)%nat →
  (prefix_length succeeding P < length P)%nat →
  ∃ hb', gen_struct_loop fuel be P succeeding hb = Ok hb' ∧ loop_result succeeding P items hb hb'.
Proof.
  revert be P hb. induction fuel as [|fuel IH]; intros be P hb Hturn Hfuel Hc; [lia|].
  set (c := prefix_length succeeding P) in *. set (i := (length (groups hb) - 1)%nat).
  pose proof (length_masks P items) as HmP.
  assert (length (groups hb) ≤ length P)%nat as Hgl.
  { rewrite (t_groups _ _ _ _ _ Hturn). destruct (pop_zeros_spec (masks P items)) as [[k Hk] _].
    apply (f_equal length) in Hk. rewrite length_app in Hk. lia. }
  set (len := Nat.max i c). assert (len < length P)%nat as Hlen by lia.
  destruct (lookup_lt_is_Some_2 P len Hlen) as [x Hx].
  cbn [gen_struct_loop]. fold c i len. rewrite (proj2 (Nat.leb_gt _ _)) by done.
  rewrite Hx. cbn [unwrap]. rewrite ok_bind.
  assert (later succeeding P ≤ S c)%nat as Hlater by (subst c; unfold later; destruct succeeding; lia).
  destruct (turn_push be _ P items hb len x Hturn Hx ltac:(lia) ltac:(lia)) as (hb1 & -> & Hpush).
  rewrite ok_bind.
  destruct (decide (succeeding = [] ∧ groups hb = [])) as [[-> Hg0]|Hclose].
  { (* the whole tree *)
    rewrite !bool_decide_eq_false_2 by (rewrite ?Hg0; tauto). cbn [orb].
    assert (len = 0)%nat as Hlen0 by (subst len i c; rewrite Hg0; done). rewrite Hlen0 in *.
    destruct (Hpush 0%nat) as (hb2 & -> & Hg2 & Hst2 & Hc2 & Hm2 & _); [rewrite Hg0; done|done|lia|].
    rewrite ok_bind, andb_false_r, ok_bind. assert (i = 0)%nat as -> by (subst i; by rewrite Hg0). cbn [Nat.eqb].
    eexists. split; [done|]. split; [exact Hc2|]. split; [apply resize_0|]. split; [exact Hst2|].
    apply (masks_inv_eq _ _ _ _ (with_masks (resize 0 0 (tree_masks hb2)) (resize 0 0 (hash_masks hb2)) hb2)); [|done..].
    apply (masks_inv_resize _ 0); [done|exact Hm2]. }
  assert (bool_decide (succeeding ≠ []) || bool_decide (groups hb ≠ []) = true) as Hor.
  { destruct succeeding; [|done]. destruct (groups hb); [tauto|done]. }
  rewrite Hor. destruct (Hpush (S len)) as (hb2 & -> & Hg2 & Hst2 & Hc2 & Hinv2 & Hl2); [lia..|].
  rewrite ok_bind. destruct ((i <=? c)%nat && bool_decide (succeeding ≠ [])) eqn:Eret.
  { (* a child of the branch where the next key parts *)
    apply andb_true_iff in Eret as [Hic%Nat.leb_le Hs%bool_decide_eq_true].
    assert (len = c) as Hlc by lia. rewrite Hlc in *.
    exists hb2. split; [done|]. split; [done|]. destruct succeeding; [done|]. exists x. by split. }
  assert (later succeeding P ≤ i ∧ len = i ∧ groups hb ≠ [])%nat as (Hli & Hleni & Hne).
  { apply andb_false_iff in Eret. subst c i len. unfold later in *. destruct succeeding as [|y s].
    - split; [lia|]. split; [cbn; lia|]. tauto.
    - destruct Eret as [Eret%Nat.leb_gt|Eret]; [|by rewrite bool_decide_eq_true_2 in Eret].
      split; [lia|]. split; [lia|]. intros E. rewrite E in Eret. cbn in Eret. lia. }
  rewrite Hleni in *. clear Hleni.
  destruct (turn_close be _ P items hb hb2 x Hturn Hne Hli Hx) as (hb3 & Hclose3 & Hg4 & Hst4 & Hc4 & Hb4 & Hinv4);
    [done..|].
  fold i in Hclose3, Hg4, Hst4, Hc4, Hb4, Hinv4. rewrite Hclose3, ok_bind. cbv zeta.
  set (hb4 := with_masks _ _ _) in *.
  destruct (Nat.eqb_spec i 0) as [Hi0|Hi0].
  { (* the branch at the root *)
    rewrite Hi0 in *. exists hb4. split; [done|]. split; [done|].
    unfold later in Hli. destruct succeeding; [by split|lia]. }
  assert (prefix_length succeeding (take i P) = c) as Hci.
  { destruct succeeding; [done|]. apply prefix_length_take. cbn [later] in Hli. subst c. lia. }
  assert (later succeeding (take i P) = later succeeding P) as Hlt
    by (unfold later; rewrite Hci; by destruct succeeding).
  destruct (IH true (take i P) (with_groups (pop_zeros (groups hb4)) hb4)) as (hb' & Hrun & Hcol & Hres).
  - rewrite Hlt. by apply (turn_next be _ P items hb); [|lia|..].
  - rewrite length_take. lia.
  - rewrite Hci, length_take. destruct succeeding as [|y s]; [subst c; cbn; lia|cbn [later] in Hli; subst c; lia].
  - exists hb'. split; [done|]. split.
    { rewrite Hcol. exact Hc4. }
    destruct succeeding as [|y s]; [done|]. rewrite Hci in Hres.
    apply (settled_take i); [cbn [later] in Hli; subst c; lia|done].
Qed.

End loop.

(** ** From one item to the next *)

Lemma diverges_split a b :
  diverges a b →
  ∃ p x y a' b', a = p ++ x :: a' ∧ b = p ++ y :: b' ∧ x < y ∧ prefix_length b a = length p.
Proof.
  revert b. induction a as [|x a IH]; intros [|y b] Hd; try (by destruct (diverges_nil _ _ Hd)).
  apply diverges_cons in Hd as [Hlt|[-> Hd]].
  - exists [], x, y, a, b. cbn. by rewrite (proj2 (Z.eqb_neq y x)) by lia.
  - destruct (IH b Hd) as (p & x' & y' & a' & b' & -> & -> & Hlt & Hlen).
    exists (y :: p), x', y', a', b'. cbn. by rewrite Z.eqb_refl, Hlen.
Qed.

Lemma diverges_raise x y a p b : x < y → diverges a (p ++ [x]) → diverges a (p ++ y :: b).
Proof.
  intros Hxy. revert a. induction p as [|z p IH]; intros [|w a] Hd; try (by destruct (diverges_nil _ _ Hd)).
  - cbn [app] in *. rewrite diverges_cons in *. destruct Hd as [?|[-> Hd]]; [left; lia|]. by destruct (diverges_nil _ _ Hd).
  - cbn [app] in *. rewrite diverges_cons in *. destruct Hd as [?|[-> Hd]]; [by left|right; auto].
Qed.

Lemma leftmost_down t z w s l : z < w → leftmost (t ++ w :: s) l → down z (sub t l) = [].
Proof. intros Hzw. revert l. induction t as [|u t IH]; intros l [Hl Hr]; [by apply Hl|]. rewrite sub_cons. by apply IH. Qed.

Lemma diverges_extend a b c : diverges a b → diverges (a ++ c) b.
Proof.
  revert b. induction a as [|x a IH]; intros [|y b] Hd; try (by destruct (diverges_nil _ _ Hd)).
  cbn [app]. rewrite diverges_cons in *. destruct Hd as [?|[-> ?]]; [by left|right; auto].
Qed.

Section advance.
Context `{!Hashing} `{!RlpStream} (indb : bytes → Prop).

(** What holds between two calls: [K] and [v] are pending. *)
Record pending (items : list item) (K : bytes) (v : HashBuilderValue) (hb : HashBuilder) : Prop := {
  p_key : key hb = K;
  p_value : value hb = v;
  p_groups : groups hb = pop_zeros (masks K items);
  p_stack : stack hb = frames K items;
  p_masks : masks_inv indb K items False hb;
  p_indb : (∀ q, indb q → ∃ h, (q, ValueHash h) ∈ items) ∧ ∀ h, v = ValueHash h → is_in_db_trie hb = true ↔ indb K;
  p_wide : has_collector hb = true → wide items
}.

Lemma sub_member items K v : items_ok items → (K, v) ∈ items → sub K items = [([], v)].
Proof.
  intros Hok Hin. apply items_ok_empty_key; [by apply sub_ok|]. apply elem_of_sub. by rewrite app_nil_r.
Qed.

Lemma pending_turn n items K v hb :
  items_ok items → (K, v) ∈ items → K ≠ [] → (n ≤ length K)%nat →
  rightmost (drop n K) (sub (take n K) items) → pending items K v hb → turn indb false n K items hb.
Proof.
  intros Hok Hin HK Hn Hr [_ Hv Hg Hs Hm [Hdb Hdv] Hw]. pose proof (sub_member _ _ _ Hok Hin) as Hsub.
  split; [done|done|by apply (items_ok_nibbles items K v)|done|by rewrite Hsub|done|done| | |done].
  - split_and!; [by rewrite Hv|done|by rewrite Hv].
  - by apply (masks_inv_iff _ _ _ _ _ _ Hm).
Qed.

(** The keys on both sides of a step. *)
Section between.
Variables (l1 l2 : list item) (p a b : bytes) (x y : Z) (v v' : HashBuilderValue).
Let K := p ++ x :: a.
Let K' := p ++ y :: b.
Let items := l1 ++ (K, v) :: (K', v') :: l2.
Hypothesis Hok : items_ok items.
Hypothesis Hxy : x < y.

Lemma between_none k u : (k, u) ∈ items → diverges K k → ¬ diverges k K'.
Proof. exact (none_between l1 K v K' v' l2 k u Hok). Qed.

Lemma between_digits d : x < d < y → down d (sub p items) = [].
Proof.
  intros Hd. destruct (decide (down d (sub p items) = [])) as [|(k & u & Hin)%down_nonempty]; [done|].
  apply elem_of_sub in Hin. exfalso.
  apply (between_none _ _ Hin); apply diverges_app, diverges_cons; left; lia.
Qed.

Lemma between_right : rightmost a (sub (p ++ [x]) items).
Proof.
  apply rightmost_intro. intros k u Hin Hd. apply elem_of_sub in Hin. rewrite <- app_assoc in Hin.
  apply (between_none _ _ Hin); apply diverges_app, diverges_cons; [by right|by left].
Qed.

Lemma between_left : leftmost b (sub (p ++ [y]) items).
Proof.
  apply leftmost_intro. intros k u Hin Hd. apply elem_of_sub in Hin. rewrite <- app_assoc in Hin.
  apply (between_none _ _ Hin); apply diverges_app, diverges_cons; [by left|by right].
Qed.

Lemma between_first : down x (sub p items) ≠ [].
Proof.
  apply down_nonempty. exists a, v. apply elem_of_sub. apply elem_of_app. right. left.
Qed.

Lemma between_lower d : lower y (sub p items) d ↔ lower x (sub p items) d ∨ d = x.
Proof.
  unfold lower. split.
  - intros [Hd Hne]. destruct (Z.lt_trichotomy d x) as [?|[?|?]]; [by left|by right|].
    by rewrite between_digits in Hne.
  - intros [[? ?]| ->]; [split; [lia|done]|]. split; [done|apply between_first].
Qed.

Lemma between_range : 0 ≤ x < 16.
Proof.
  destruct (decide (0 ≤ x < 16)) as [|Hx]; [done|]. destruct between_first.
  apply down_outside; [by apply sub_ok|done].
Qed.

Lemma between_mask : mask_of (lower y (sub p items)) = upto x (sub p items).
Proof.
  apply mask_eq. intros e. unfold upto. rewrite testbit_set_bit by apply between_range.
  rewrite orb_true_iff, !testbit_mask_of, between_lower, Z.eqb_eq. pose proof between_range.
  naive_solver lia.
Qed.

Lemma between_groups :
  pop_zeros (masks K' items) = masks p items ++ [upto x (sub p items)].
Proof.
  unfold K'. rewrite masks_app, masks_cons, between_mask.
  assert (masks b (down y (sub p items)) = replicate (length b) 0) as ->.
  { apply leftmost_masks; [by apply down_ok, sub_ok|]. pose proof between_left as Hl.
    by rewrite sub_app in Hl. }
  change (upto x (sub p items) :: replicate (length b) 0)
    with ([upto x (sub p items)] ++ replicate (length b) 0).
  rewrite app_assoc, pop_zeros_app_zeros, pop_zeros_snoc; [done|]. intros E.
  assert (Z.testbit (upto x (sub p items)) x = true) as Hb
    by (unfold upto; rewrite testbit_set_bit, Z.eqb_refl, orb_true_r by apply between_range; done).
  by rewrite E, Z.bits_0 in Hb.
Qed.

Lemma between_frames :
  frames K' items = frames (p ++ [x]) items ++ [ref_of (trie_node (sub (p ++ [x]) items))].
Proof.
  unfold K'. rewrite !frames_app, sub_app. cbn [frames]. rewrite (frames_leftmost b).
  2: { pose proof between_left as Hl. by rewrite sub_app in Hl. }
  rewrite !app_nil_r, <- app_assoc. f_equal. symmetry.
  apply (refs_upto (lower y (sub p items))); [apply between_range|]. intros d _. apply between_lower.
Qed.

Lemma between_done j d :
  done_at (p ++ [x]) items j d ∨ True ∧ last_at (p ++ [x]) j d →
  done_at K' items j d ∧ take j K' = take j (p ++ [x]).
Proof.
  assert (∀ j, (j ≤ length p)%nat → take j K' = take j p ∧ take j (p ++ [x]) = take j p) as Htake
    by (intros j' Hj'; unfold K'; by rewrite !take_app_le).
  intros [(z & Hz & Hl)|[_ [Hj Hd]]].
  - pose proof (lookup_lt_Some _ _ _ Hz) as Hj. rewrite length_app in Hj. cbn in Hj.
    destruct (Htake j ltac:(lia)) as [Ht1 Ht2]. rewrite Ht2 in Hl |- *. split; [|done].
    destruct (decide (j = length p)) as [->|Hne].
    + exists y. unfold K'. rewrite lookup_app_r, Nat.sub_diag by lia. split; [done|].
      rewrite take_app_length. rewrite firstn_all in Hl.
      rewrite lookup_app_r, Nat.sub_diag in Hz by lia. injection Hz as <-.
      apply between_lower. by left.
    + exists z. rewrite Ht1. split; [|done]. unfold K'.
      rewrite lookup_app_l in Hz by lia. by rewrite lookup_app_l by lia.
  - rewrite length_app in Hj. cbn in Hj. assert (j = length p) as -> by lia.
    destruct (Htake (length p) ltac:(lia)) as [Ht1 Ht2]. rewrite Ht1, Ht2. split; [|done].
    rewrite lookup_app_r, Nat.sub_diag in Hd by lia. injection Hd as <-.
    exists y. unfold K'. rewrite lookup_app_r, Nat.sub_diag by lia. split; [done|].
    rewrite take_app_length. apply between_lower. by right.
Qed.

(** Conversely, what is completed beside the next key already was. *)
Lemma between_done_rev j d : done_at K' items j d →
  (done_at (p ++ [x]) items j d ∨ True ∧ last_at (p ++ [x]) j d) ∧ take j K' = take j (p ++ [x]).
Proof.
  assert (∀ j, (j ≤ length p)%nat → take j K' = take j p ∧ take j (p ++ [x]) = take j p) as Htake
    by (intros j' Hj'; unfold K'; by rewrite !take_app_le).
  intros Hd. destruct (decide (j < S (length p))%nat) as [Hj|Hj].
  2: { exfalso. apply (done_at_leftmost (S (length p)) K' items j d); [|lia|done].
       pose proof between_left as Hl. replace (take (S (length p)) K') with (p ++ [y]).
       - replace (drop (S (length p)) K') with b; [done|]. unfold K'. change (p ++ y :: b) with (p ++ [y] ++ b).
         rewrite app_assoc, drop_app_length'; [done|]. rewrite length_app. cbn. lia.
       - unfold K'. change (p ++ y :: b) with (p ++ [y] ++ b). rewrite app_assoc, take_app_length'; [done|].
         rewrite length_app. cbn. lia. }
  destruct (Htake j ltac:(lia)) as [Ht1 Ht2]. split; [|congruence]. destruct Hd as (z & Hz & Hl). rewrite Ht1 in Hl.
  destruct (decide (j = length p)) as [->|Hne].
  - unfold K' in Hz. rewrite lookup_app_r, Nat.sub_diag in Hz by lia. injection Hz as <-. rewrite firstn_all in Hl.
    apply between_lower in Hl as [Hl| ->].
    + left. exists x. rewrite Ht2, firstn_all. split; [|done]. by rewrite lookup_app_r, Nat.sub_diag by lia.
    + right. split; [done|]. split; [rewrite length_app; cbn; lia|]. by rewrite lookup_app_r, Nat.sub_diag by lia.
  - left. exists z. rewrite Ht2. split; [|done]. unfold K' in Hz. rewrite lookup_app_l in Hz by lia.
    by rewrite lookup_app_l by lia.
Qed.

(** A subtree before the next key was passed. *)
Lemma between_passed k : sub k items ≠ [] → diverges k K' → passed (p ++ [x]) True k.
Proof.
  intros Hne Hd. destruct (diverges_split k K' Hd) as (q & z & w & r & s & -> & E & Hzw & _).
  unfold K' in E. destruct (decide (length q < length p)%nat) as [Hlt|Hge]; [|destruct (decide (length q = length p)) as [Heq|Hgt]].
  - left. rewrite <- (take_drop (S (length q)) p), <- app_assoc.
    apply (f_equal (take (S (length q)))) in E. rewrite take_app_le in E by lia.
    change (q ++ w :: s) with (q ++ [w] ++ s) in E. rewrite app_assoc, take_app_length' in E by (rewrite length_app; cbn; lia).
    rewrite E, <- app_assoc. apply diverges_app, diverges_cons. by left.
  - apply app_inj_1 in E as [<- [= <- <-]]; [|done]. destruct (Z.lt_trichotomy z x) as [?|[->|?]].
    + left. apply diverges_app, diverges_cons. by left.
    + right. split; [done|]. apply prefix_app. by exists r.
    + exfalso. apply Hne. rewrite sub_app, sub_cons, between_digits, sub_nil by lia. done.
  - exfalso. apply Hne. assert (∃ t, q = p ++ y :: t ∧ b = t ++ w :: s) as (t & -> & Hb).
    { apply (f_equal (take (length q))) in E as E1. rewrite take_app_length in E1.
      destruct (length q - length p)%nat as [|m] eqn:Em; [lia|].
      rewrite take_app_ge in E1 by lia. rewrite Em in E1. cbn [take] in E1. exists (take m b). split; [done|].
      rewrite <- E1, <- app_assoc in E. apply app_inv_head in E. cbn [app] in E. injection E as E. done. }
    pose proof between_left as Hl. rewrite Hb in Hl.
    apply (leftmost_down t z w s _ Hzw) in Hl. rewrite <- app_assoc. change ((y :: t) ++ z :: r) with ([y] ++ t ++ z :: r).
    rewrite app_assoc, sub_app, sub_app, sub_cons, Hl. apply sub_nil.
Qed.

Lemma between_masks hb : masks_inv indb (p ++ [x]) items True hb → masks_inv indb K' items False hb.
Proof.
  intros [H1 H2 H3 H4 H5 H6]. split; [done|..].
  - intros j d Hb. destruct (H2 j d Hb) as [HS Hs]. apply between_done in HS as [Hd Ht]. rewrite Ht. auto.
  - intros j d Hc [Hd|[[] _]] Hs. apply between_done_rev in Hd as [HS Ht]. rewrite Ht in Hs. by apply H3.
  - intros j d Hb. left. specialize (H4 j d Hb).
    assert (done_at (p ++ [x]) items j d ∨ True ∧ last_at (p ++ [x]) j d) as Hd' by tauto.
    apply between_done in Hd' as [Hdone ->]. split; [done|].
    destruct H4 as [[_ ?]|[_ [[Hj Hlast] Hh]]]; [done|].
    rewrite length_app in Hj. cbn in Hj. assert (j = length p) as -> by lia.
    rewrite lookup_app_r, Nat.sub_diag in Hlast by lia. injection Hlast as <-.
    rewrite take_app_length. by rewrite sub_app in Hh.
  - intros c Hc. destruct (H5 c Hc) as [Hp Hn]. split; [left|done]. unfold K'. destruct Hp as [Hd|[_ [r ->]]].
    + by apply (diverges_raise x).
    + rewrite <- app_assoc. apply diverges_app, diverges_cons. by left.
  - intros k d Hc [Hd|[[] _]] Hb Hs. apply (H6 k d Hc); [|done|done]. apply between_passed; [|done].
    by destruct (branching_many _ Hb) as (? & ? & ? & ->).
Qed.

End between.
End advance.

(** ** The root *)

Section root.
Context `{!Hashing} `{!RlpStream}.

Definition builder_with (c : option (list (bytes * Node))) : HashBuilder := with_collected c new_builder.

Lemma has_collector_key (k : bytes) (v : HashBuilderValue) (d : bool) hb : has_collector (with_key k v d hb) = has_collector hb.
Proof. done. Qed.

Section nodes.
Context (indb : bytes → Prop).

Lemma gen_struct_step_ok K succeeding items hb :
  turn indb false (later succeeding K) K items hb → (prefix_length succeeding K < length K)%nat →
  ∃ hb', gen_struct_step K succeeding hb = Ok hb' ∧ loop_result indb succeeding K items hb hb'.
Proof. intros Ht Hp. apply (gen_struct_loop_ok _ _ _ _ _ _ _ Ht); [lia|done]. Qed.

(** Adding an item that comes next. *)
Lemma add_item_run (K : bytes) hb (k : bytes) (i : item) (in_db : bool) hb' :
  key hb = K → K ≠ [] → bytes_lt K k → i.1 = k → gen_struct_step K k hb = Ok hb' →
  ∃ d, add_item i in_db hb = Ok (with_key k i.2 d hb') ∧ ∀ h, i.2 = ValueHash h → d = in_db.
Proof.
  intros <- HK Hlt <- Hrun. unfold add_item, add_leaf, add_branch_node, assert.
  rewrite !(bool_decide_eq_true_2 _ Hlt), !(bool_decide_eq_true_2 _ HK). cbn [orb].
  destruct i.2; rewrite ok_bind, Hrun, ok_bind; eexists; (split; [done|]); [done|by intros ? _].
Qed.

Lemma pending_next l1 K v k v' l2 hb in_db :
  let items := l1 ++ (K, v) :: (k, v') :: l2 in
  items_ok items → pending indb items K v hb → (∀ h, v' = ValueHash h → in_db = true ↔ indb k) →
  ∃ hb', add_item (k, v') in_db hb = Ok hb' ∧ pending indb items k v' hb' ∧ has_collector hb' = has_collector hb.
Proof.
  intros items Hok Hp Hdb.
  assert ((K, v) ∈ items) as HinK by (apply elem_of_app; right; left).
  assert (diverges K k) as Hd.
  { destruct Hok as [Hs _ _]. unfold items in Hs. rewrite fmap_app in Hs.
    apply sorted_middle in Hs as [_ H2]. apply H2. left. }
  destruct (diverges_split K k Hd) as (p & x & y & a & b & -> & -> & Hxy & Hlen).
  assert (take (S (length p)) (p ++ x :: a) = p ++ [x]) as HS
    by (rewrite (take_S_r _ _ x), take_app_length by (by rewrite list_lookup_middle); done).
  assert (turn indb false (S (length p)) (p ++ x :: a) items hb) as Ht.
  { apply (pending_turn _ _ _ _ v); [done|done|by destruct p|rewrite length_app; cbn; lia| |done].
    rewrite HS. change (p ++ x :: a) with (p ++ [x] ++ a). rewrite app_assoc, drop_app_length'.
    - by apply (between_right l1 l2 p a b x y v v').
    - rewrite length_app. cbn. lia. }
  destruct (gen_struct_step_ok (p ++ x :: a) (p ++ y :: b) items hb) as (hb1 & Hrun & Hcol & Hres).
  { unfold later. rewrite Hlen. by destruct p. }
  { rewrite Hlen, length_app. cbn. lia. }
  assert (settled indb (length p) (p ++ x :: a) items hb1) as (x' & Hx' & Hg & Hs & Hm)
    by (rewrite Hlen in Hres; by destruct p).
  rewrite list_lookup_middle in Hx' by done. injection Hx' as <-. rewrite HS, take_app_length in *.
  destruct (add_item_run (p ++ x :: a) hb (p ++ y :: b) (p ++ y :: b, v') in_db hb1) as (d & Hadd & Hdv);
    [by destruct Hp|by destruct p|by destruct Hd|done|done|].
  eexists. split; [exact Hadd|]. split; [|by rewrite has_collector_key].
  split; [done|done| | | | |].
  - cbn [with_key groups]. rewrite Hg. symmetry. by apply (between_groups indb l1 l2 p a b x y v v').
  - cbn [with_key stack]. rewrite Hs. symmetry. by apply (between_frames l1 l2 p a b x y v v').
  - apply (masks_inv_eq _ _ _ _ hb1); [|done..]. by apply (between_masks indb l1 l2 p a b x y v v').
  - split; [apply Hp|]. cbn [with_key is_in_db_trie]. intros h Hh. rewrite (Hdv h Hh). by apply (Hdb h).
  - rewrite has_collector_key, Hcol. by apply Hp.
Qed.

Lemma pending_rest l : ∀ l1 K v hb,
  let items := l1 ++ (K, v) :: l.*1 in
  items_ok items → pending indb items K v hb → (∀ k h b, ((k, ValueHash h), b) ∈ l → b = true ↔ indb k) →
  ∃ l1' K' v' hb', add_items l hb = Ok hb' ∧ items = l1' ++ [(K', v')] ∧ pending indb items K' v' hb'
    ∧ has_collector hb' = has_collector hb.
Proof.
  induction l as [|[[k v'] in_db] l IH]; intros l1 K v hb items Hok Hp Hdb.
  - by exists l1, K, v, hb.
  - unfold items in *. cbn [fmap list_fmap fst] in *.
    destruct (pending_next l1 K v k v' l.*1 hb in_db Hok Hp) as (hb1 & Hadd & Hp1 & Hc1).
    { intros h ->. apply (Hdb k h). left. }
    destruct (IH (l1 ++ [(K, v)]) k v' hb1) as (l1' & K' & v'' & hb' & Hrun & Hitems & Hp' & Hc').
    { by rewrite <- app_assoc. }
    { by rewrite <- app_assoc. }
    { intros k' h b' Hin. apply (Hdb k' h). by right. }
    rewrite <- app_assoc in Hitems, Hp'. cbn [app] in Hitems, Hp'.
    exists l1', K', v'', hb'. split; [|split_and!; [done|done|congruence]]. unfold add_items. cbn [res_foldl]. cbn [fst snd].
    by rewrite Hadd, ok_bind.
Qed.

(** The first item finds an empty builder. *)
Lemma pending_first K v rest c in_db :
  let items := (K, v) :: rest in
  items_ok items → K ≠ [] → (is_Some c → wide items) → default [] c = [] →
  (∀ q, indb q → ∃ h, (q, ValueHash h) ∈ items) → (∀ h, v = ValueHash h → in_db = true ↔ indb K) →
  ∃ hb, add_item (K, v) in_db (builder_with c) = Ok hb ∧ pending indb items K v hb
    ∧ has_collector hb = has_collector (builder_with c).
Proof.
  intros items Hok HK Hwide Hc Hdb Hdv.
  assert (∀ k u, (k, u) ∈ items → ¬ diverges k K) as Hfirst.
  { intros k u Hin Hd. destruct (items_around [] K v rest k u Hok Hin) as [[Hn _]|[->|[_ Hn]]].
    - by apply elem_of_nil in Hn.
    - by apply diverges_irrefl in Hd.
    - by apply (diverges_irrefl K), (diverges_trans _ k). }
  assert (leftmost K items) as Hl by by apply leftmost_intro.
  assert (bytes_lt [] K) as Hlt by by destruct K.
  assert (∃ d, add_item (K, v) in_db (builder_with c) = Ok (with_key K v d (builder_with c)) ∧ ∀ h, v = ValueHash h → d = in_db)
    as (d & Hadd & Hd).
  { assert (bool_decide (bytes_lt (key (builder_with c)) K) = true) as Hkey by by apply bool_decide_eq_true_2.
    unfold add_item, add_leaf, add_branch_node, assert. cbn [fst snd]. rewrite !Hkey.
    rewrite !(bool_decide_eq_false_2 (key (builder_with c) ≠ [])) by (by intros []).
    rewrite !(bool_decide_eq_false_2 (K = [])) by done. destruct v; eexists; (split; [done|]); [done|by intros ? _]. }
  eexists. split; [exact Hadd|]. split; [|done]. split; [done|done| | | | |].
  - cbn. apply leftmost_masks in Hl as ->; [|done]. symmetry. apply (pop_zeros_app_zeros []).
  - cbn. by rewrite frames_leftmost.
  - assert (calls (with_key K v d (builder_with c)) = []) as Hcs by done.
    split; [done|..].
    + by intros j e (m & Hm & _).
    + intros j e _ [He|[[] _]] _. exfalso. apply (done_at_leftmost 0 K items j e); [done|lia|done].
    + by intros j e (m & Hm & _).
    + intros cl Hcl. rewrite Hcs in Hcl. by apply elem_of_nil in Hcl.
    + intros k e _ [Hk|[[] _]] (x & y & a & b & u & w & _ & Hx & _)%branching_keys. exfalso.
      apply (Hfirst _ _ Hx). by apply diverges_extend.
  - split; [done|]. intros h Hh. cbn [with_key is_in_db_trie]. rewrite (Hd h Hh). by apply (Hdv h).
  - unfold has_collector. cbn. rewrite bool_decide_eq_true. done.
Qed.

(** The last item is finalized. *)
Lemma pending_last l K v hb :
  let items := l ++ [(K, v)] in
  items_ok items → K ≠ [] → pending indb items K v hb →
  ∃ hb', finalize hb = Ok hb' ∧ stack hb' = [ref_of (trie_node items)]
    ∧ has_collector hb' = has_collector hb ∧ masks_inv indb [] items True hb'.
Proof.
  intros items Hok HK Hp. assert ((K, v) ∈ items) as Hin by (apply elem_of_app; right; left).
  destruct (gen_struct_step_ok K [] items hb) as (hb1 & Hrun & Hcol & _ & Hst & Hm).
  - apply (pending_turn _ _ _ _ v); [done|done|done|cbn; lia| |done]. cbn [later]. rewrite drop_0, take_0.
    apply rightmost_intro. intros k u Hk Hd.
    destruct (items_around l K v [] k u Hok Hk) as [[_ Hn]|[->|[Hn _]]].
    + by apply (diverges_irrefl K), (diverges_trans _ k).
    + by apply diverges_irrefl in Hd.
    + by apply elem_of_nil in Hn.
  - destruct K; [done|]. cbn. lia.
  - unfold finalize. destruct Hp as [-> _ _ _ _ _ _]. rewrite bool_decide_eq_true_2 by done.
    rewrite Hrun, ok_bind. eexists. split; [done|]. split; [exact Hst|]. split; [exact Hcol|].
    by apply (masks_inv_eq _ _ _ _ hb1).
Qed.
End nodes.

Hypothesis keccak_range : ∀ x, is_u256 (keccak256 x).

Lemma hash_of_wrap h : is_u256 h → from_be_bytes (drop 1 (wrap_hash h)) = h.
Proof. intros Hh. cbn [wrap_hash drop]. apply from_to_be. exact (is_word_bytes 32 _ Hh). Qed.

Lemma trie_node_known items h : items_ok items → trie_node items = Known h → is_u256 h.
Proof.
  intros Hok. unfold trie_node. destruct items as [|[k v] [|j items]]; [done| |].
  - rewrite cap_single. destruct v as [v|h']; [done|]. destruct k; [|done]. cbn [extend].
    intros [= <-]. by apply items_ok_inv in Hok as (_ & _ & _ & ?).
  - pose proof (depth_many _ _ _ Hok). destruct (depth _); [lia|]. rewrite cap_many.
    by destruct (shared _).
Qed.

Lemma stack_root items hb :
  items_ok items → items ≠ [] → stack hb = [ref_of (trie_node items)] →
  stack_root_hash hb = Ok (merkle_root items).
Proof.
  intros Hok Hne Hst. unfold stack_root_hash. rewrite Hst. cbn [last]. f_equal.
  destruct items as [|i items]; [done|]. unfold merkle_root.
  destruct (trie_node (i :: items)) as [b|h] eqn:E; cbn [ref_of].
  - unfold node_ref. destruct (Nat.ltb_spec (length b) KECCAK_LENGTH) as [Hlt|].
    + rewrite (proj2 (Nat.eqb_neq _ _)) by lia. done.
    + rewrite length_wrap_hash. cbn [KECCAK_LENGTH Nat.eqb Nat.add]. by apply hash_of_wrap.
  - rewrite length_wrap_hash. cbn [KECCAK_LENGTH Nat.eqb Nat.add].
    by apply hash_of_wrap, (trie_node_known (i :: items)).
Qed.

(** The root, and the nodes for the collector, of which [indb] says that
    the known subtrees have some already. *)
Lemma add_items_nodes indb (l : list (item * bool)) collector
    (Hok : items_ok l.*1) (Hne : [] ∉ l.*1.*1) (Hwide : is_Some collector → wide l.*1) (Hc : default [] collector = [])
    (Hdb : ∀ q, indb q → ∃ h, (q, ValueHash h) ∈ l.*1)
    (Hflag : ∀ k h b, ((k, ValueHash h), b) ∈ l → b = true ↔ indb k) :
  ∃ hb hb', add_items l (builder_with collector) = Ok hb
    ∧ root_hash hb = Ok (merkle_root l.*1, hb') ∧ has_collector hb' = has_collector (builder_with collector)
    ∧ masks_inv indb [] l.*1 True hb'.
Proof.
  destruct l as [|[[K v] in_db] l].
  { eexists _, _. do 3 (split; [done|]). assert (calls (builder_with collector) = []) as Hcs by done.
    split; [done|..].
    - by intros j e (m & Hm & _).
    - intros j e _ [(x & Hx & _)|[_ [? _]]]; done.
    - by intros j e (m & Hm & _).
    - intros cl Hcl. rewrite Hcs in Hcl. by apply elem_of_nil in Hcl.
    - intros k e _ _ Hb. rewrite sub_nil in Hb. by destruct (branching_many _ Hb) as (? & ? & ? & ?). }
  cbn [fmap list_fmap fst] in *.
  assert (∀ k u, (k, u) ∈ (K, v) :: l.*1 → k ≠ []) as Hkeys.
  { intros k u Hin ->. apply Hne. exact (list_elem_of_fmap_2 fst _ _ Hin). }
  destruct (pending_first indb K v l.*1 collector in_db Hok) as (hb1 & Hadd & Hp1 & Hc1);
    [eapply Hkeys; left|done|done|done|intros h ->; apply (Hflag K h); left|].
  destruct (pending_rest indb l [] K v hb1 Hok Hp1) as (l1 & K' & v' & hb & Hrun & Hitems & Hp & Hc2).
  { intros k h b Hin. apply (Hflag k h). by right. }
  cbn [app] in *. rewrite Hitems in Hok, Hp, Hkeys |- *.
  destruct (pending_last indb l1 K' v' hb Hok) as (hb' & Hfin & Hst & Hc3 & Hm); [|done|].
  { eapply Hkeys. apply elem_of_app. right. left. }
  exists hb, hb'. split; [|split; [|split; [congruence|done]]].
  - unfold add_items. cbn [res_foldl fst snd]. by rewrite Hadd, ok_bind.
  - unfold root_hash. rewrite Hfin, ok_bind.
    rewrite (stack_root _ hb' Hok) by (by destruct l1). by rewrite ok_bind.
Qed.

(** The flags of the items themselves say which are in the database. *)
Definition flagged (l : list (item * bool)) (k : bytes) : Prop := ∃ h, ((k, ValueHash h), true) ∈ l.

Lemma flagged_item l q : flagged l q → ∃ h, (q, ValueHash h) ∈ l.*1.
Proof. intros [h Hh]. exists h. exact (list_elem_of_fmap_2 fst _ _ Hh). Qed.

Lemma flagged_flag l k h b : items_ok l.*1 → ((k, ValueHash h), b) ∈ l → b = true ↔ flagged l k.
Proof.
  intros Hok Hin. split; [intros ->; by exists h|]. intros [h' Hh'].
  assert (NoDup l.*1.*1) as Hnd.
  { pose proof (items_sorted _ Hok) as Hs. induction Hs as [|k0 ks _ IH Hk0]; constructor; [|done].
    intros Hin0. rewrite Forall_forall in Hk0. by apply (diverges_irrefl k0), Hk0. }
  rewrite <- list_fmap_compose in Hnd.
  apply list_elem_of_lookup in Hin as [i Hi], Hh' as [j Hj].
  assert (i = j) as ->.
  { apply (NoDup_lookup _ i j k Hnd); rewrite list_lookup_fmap, ?Hi, ?Hj; done. }
  rewrite Hi in Hj. by injection Hj.
Qed.

Lemma add_items_root (l : list (item * bool)) collector
    (Hok : items_ok l.*1) (Hne : [] ∉ l.*1.*1) (Hwide : is_Some collector → wide l.*1) (Hc : default [] collector = []) :
  ∃ hb hb', add_items l (builder_with collector) = Ok hb
    ∧ root_hash hb = Ok (merkle_root l.*1, hb').
Proof.
  destruct (add_items_nodes (flagged l) l collector Hok Hne Hwide Hc) as (hb & hb' & Hadd & Hroot & _); [apply flagged_item| |eauto].
  intros k h b. by apply flagged_flag.
Qed.

(** C5. Leaves and known subtrees that are added in the order of their keys
    give the root of the Merkle-Patricia tree of them all, whatever the
    shape of the tree: the masks and the stack of the builder, and the
    order in which it closes branches, compute the recursive definition
    (leaf, extension over a branch, branch of sixteen children) and no
    assertion or index of the code fails. With a node collector, every
    branch must be long enough to be referred to by its hash, which the
    code asserts. *)
Theorem root_hash_merkle (l : list (item * bool)) collector
    (Hok : items_ok l.*1) (Hne : [] ∉ l.*1.*1) (Hwide : is_Some collector → wide l.*1)
    (Hc : default [] collector = []) :
  ∃ hb hb', add_items l (builder_with collector) = Ok hb
    ∧ root_hash hb = Ok (merkle_root l.*1, hb').
Proof. by apply add_items_root. Qed.

End root.

(** Instances for the witness: nodes of at least 32 bytes. *)
Definition demo_hashing : Hashing := {|
  keccak256 b := from_be_bytes b mod 2 ^ 256;
  ommers_rlp_hash _ := 0;
  transactions_trie_root _ := 0;
  receipts_trie_root _ := 0;
  ecdsa_recover _ := Panic;
  trie_root _ := 0;
  rlp_bytes := id;
  rlp_account _ _ _ _ := []
|}.

Definition demo_rlp : RlpStream := {|
  rlp_list l := replicate KECCAK_LENGTH 0 ++ mjoin l;
  rlp_null := [0x80]
|}.

Definition demo_items : list (item * bool) :=
  [(([1; 2; 3; 4], ValueBytes [7]), false); (([1; 2; 5; 4], ValueBytes [8]), false);
   (([1; 4], ValueHash 9), true); (([6; 0; 1; 1], ValueBytes [10]), false)].

Lemma root_hash_merkle_witness :
  ∃ hb hb', add_items (H := demo_hashing) (H0 := demo_rlp) demo_items (builder_with (Some [])) = Ok hb
    ∧ root_hash (H := demo_hashing) (H0 := demo_rlp) hb
      = Ok (merkle_root (H := demo_hashing) (H0 := demo_rlp) demo_items.*1, hb').
Proof.
  apply (@root_hash_merkle demo_hashing demo_rlp).
  - intros x. split; cbn [keccak256 demo_hashing]; apply Z.mod_pos_bound; lia.
  - split; cbn.
    + repeat constructor; cbn; try done; intros [? ?]; done.
    + repeat constructor; lia.
    + repeat constructor; cbn; lia.
  - cbn. rewrite !not_elem_of_cons. repeat split; try done. apply not_elem_of_nil.
  - intros _ p _. unfold branch_rlp. cbn [rlp_list demo_rlp]. rewrite length_app, length_replicate. lia.
  - done.
Defined.

(** ** Paths *)

Lemma unpack_cons x b : unpack_nibbles (x :: b) = Z.shiftr x 4 :: Z.land x 15 :: unpack_nibbles b.
Proof. done. Qed.

Lemma byte_of_nibbles hi lo : 0 ≤ hi < 16 → 0 ≤ lo < 16 →
  wrap 8 (wrap 8 (Z.shiftl hi 4) + lo) = hi * 16 + lo.
Proof.
  intros Hhi Hlo. unfold wrap. rewrite Z.shiftl_mul_pow2 by lia. change (2 ^ 4) with 16. change (2 ^ 8) with 256.
  rewrite (Z.mod_small (hi * 16)) by lia. apply Z.mod_small. lia.
Qed.

Lemma nibbles_of_byte x : Z.shiftr x 4 = x `div` 16 ∧ Z.land x 15 = x `mod` 16.
Proof.
  split; [by rewrite Z.shiftr_div_pow2|]. change 15 with (Z.ones 4). by rewrite Z.land_ones.
Qed.

Lemma unpack_byte hi lo b : 0 ≤ hi < 16 → 0 ≤ lo < 16 →
  unpack_nibbles (hi * 16 + lo :: b) = hi :: lo :: unpack_nibbles b.
Proof.
  intros Hhi Hlo. rewrite unpack_cons. destruct (nibbles_of_byte (hi * 16 + lo)) as [-> ->].
  rewrite Z.div_add_l, Z.div_small, Z.add_0_r by lia.
  by rewrite Z.add_comm, Z.mod_add, Z.mod_small by lia.
Qed.

(** Induction on the pairs of a path of even length. *)
Lemma even_path_ind (P : bytes → Prop) :
  P [] → (∀ x y p, P p → P (x :: y :: p)) → ∀ p, (length p mod 2 = 0)%nat → P p.
Proof.
  intros H0 HS p. remember (length p) as n eqn:Hn. revert p Hn.
  induction n as [n IH] using lt_wf_ind. intros [|x [|y p]] -> Hmod; [done|done|].
  apply HS, (IH (length p)); [cbn; lia|done|]. cbn [length] in Hmod.
  by rewrite <- (Nat.Div0.mod_add _ 1 2), Nat.add_comm.
Qed.

Lemma unpack_pairs p : nibbles p → (length p mod 2 = 0)%nat → unpack_nibbles (pack_pairs p) = p.
Proof.
  intros Hp Hmod. revert Hp. revert p Hmod. apply (even_path_ind (fun p => nibbles p → _ = _)); [done|].
  intros x y p IH Hp. inversion Hp as [|? ? Hx Hp']; inversion Hp' as [|? ? Hy Hp'']; subst.
  cbn [pack_pairs]. by rewrite byte_of_nibbles, unpack_byte, IH by done.
Qed.

(** The path and the kind of node that an encoded path stands for. *)
Definition decode_path (b : bytes) : bytes * bool :=
  match b with
  | [] => ([], false)
  | first :: rest =>
      (if Z.testbit first 4 then Z.land first 15 :: unpack_nibbles rest else unpack_nibbles rest,
       Z.testbit first 5)
  end.

Lemma first_byte_odd t n : 0 ≤ n < 16 →
  let f := Z.lor ((if t : bool then 0x20 else 0x00) + 0x10) n in
  Z.testbit f 4 = true ∧ Z.land f 15 = n ∧ Z.testbit f 5 = t.
Proof.
  intros Hn. assert (n ∈ digits16) as Hin by by apply elem_of_digits16.
  unfold digits16 in Hin. vm_compute in Hin.
  repeat (apply elem_of_cons in Hin as [->|Hin]; [by destruct t|]). by apply elem_of_nil in Hin.
Qed.

Lemma decode_encode_path p t : nibbles p → decode_path (encode_path p t) = (p, t).
Proof.
  intros Hp. unfold encode_path. destruct p as [|n p]; [by destruct t|].
  destruct (Nat.eqb_spec (length (n :: p) mod 2) 0) as [Heven|Hodd]; cbn [negb].
  - unfold decode_path. rewrite unpack_pairs by done. by destruct t.
  - inversion Hp as [|? ? Hn Hp']; subst. destruct (first_byte_odd t n Hn) as (H4 & Hl & H5).
    unfold decode_path. rewrite H4, Hl, H5, unpack_pairs; [done|done|].
    cbn [length] in Hodd. pose proof (Nat.mod_upper_bound (S (length p)) 2 ltac:(done)).
    pose proof (Nat.div_mod_eq (S (length p)) 2). 
    pose proof (Nat.div_mod_eq (length p) 2). pose proof (Nat.mod_upper_bound (length p) 2 ltac:(done)). lia.
Qed.

(** The paths in the nodes: the packed form of a key unpacks to its
    nibbles and back, and the compact encoding in leaves and extensions
    tells apart any two paths of nibbles, of either parity, and leaves from
    extensions. *)
Theorem nibble_paths :
  (∀ b, Forall is_byte b → pack_nibbles (unpack_nibbles b) = b)
  ∧ (∀ p q t u, nibbles p → nibbles q → encode_path p t = encode_path q u → p = q ∧ t = u).
Proof.
  split.
  - induction 1 as [|x b Hx _ IH]; [done|]. rewrite unpack_cons. cbn [pack_nibbles]. rewrite IH.
    destruct (nibbles_of_byte x) as [-> ->]. unfold is_byte in Hx.
    pose proof (Z.div_mod x 16 ltac:(lia)). pose proof (Z.mod_pos_bound x 16 ltac:(lia)).
    rewrite byte_of_nibbles; [f_equal; lia|lia|done].
  - intros p q t u Hp Hq Heq. apply (f_equal decode_path) in Heq.
    rewrite !decode_encode_path in Heq by done. by injection Heq as -> ->.
Qed.
