(* ===== verification/Database.v ===== *)
(** * Database

    The tables that execution and the stages keep state in, as the cursors
    of [src/src/kv/traits.rs] show them: unique keys are finite maps walked
    in the order of their keys, tables with duplicates are sets or ordered
    lists of pairs. Keys are the integers that their fixed-length encodings
    order alike ([TableCodecs]). With the slot functions of
    [src/src/state/database.rs]. *)

From stdpp Require Import sorting.
From S2P Require Import Prelude Words Errors Account Transaction Block BytesOrder StagedSync TableCodecs Bitmap.

(** ** Cursors over unique keys *)

Section table.
Context {V : Type}.
Implicit Types (t : gmap Z V).

Definition entry_le (a b : Z * V) : Prop := a.1 ≤ b.1.

#[global] Instance entry_le_dec : RelDecision entry_le.
Proof. intros a b. unfold entry_le. apply _. Defined.

(** The entries in the order of their keys. *)
Definition entries t : list (Z * V) := merge_sort entry_le (map_to_list t).

Definition last_entry t : option (Z * V) := last (entries t).

(** [cursor.seek(key)]: the first entry at or behind the key. *)
Definition seek_from (k : Z) t : option (Z * V) := head (filter (fun e => k ≤ e.1) (entries t)).

Definition walk_from (k : Z) t : list (Z * V) := filter (fun e => k ≤ e.1) (entries t).

Definition KeyMismatch : anyhow := Bail "MDBX_EKEYMISMATCH".

(** [cursor.append(key, value)]: the key must be behind the last one. *)
Definition append (k : Z) (v : V) t : result (gmap Z V) :=
  match last_entry t with
  | Some (k', _) => if k' <? k then Ok (<[k := v]> t) else Err KeyMismatch
  | None => Ok (<[k := v]> t)
  end.

(** [if cursor.seek(key).is_some() { cursor.delete_current() }]. *)
Definition delete_sought (k : Z) t : gmap Z V :=
  match seek_from k t with Some (k', _) => delete k' t | None => t end.

(** [if cursor.seek_exact(key).is_some() { cursor.delete_current() }]. *)
Definition delete_exact (k : Z) t : gmap Z V :=
  match t !! k with Some _ => delete k t | None => t end.

End table.

(** ** Duplicates in order *)

(** [cursor.append_dup(key, value)]: the value must be behind the last
    duplicate of its key. *)
Fixpoint append_dup {K V} (kcmp : K → K → comparison) (vcmp : V → V → comparison) (k : K) (v : V)
    (t : list (K * V)) : result (list (K * V)) :=
  match t with
  | [] => Ok [(k, v)]
  | (k', v') :: t' =>
      match kcmp k' k with
      | Gt => Ok ((k, v) :: t)
      | Lt => t'' ← append_dup kcmp vcmp k v t'; Ok ((k', v') :: t'')
      | Eq =>
          match vcmp v' v with
          | Lt => t'' ← append_dup kcmp vcmp k v t'; Ok ((k', v') :: t'')
          | _ => Err KeyMismatch
          end
      end
  end.

Definition pair_compare : Z * Z → Z * Z → comparison := lex Z.compare Z.compare.

Definition account_change_compare (a b : Z * option Account) : comparison :=
  bytes_cmp (encode account_change_object a) (encode account_change_object b).

Definition storage_change_compare (a b : Z * Z) : comparison :=
  bytes_cmp (encode storage_change_object a) (encode storage_change_object b).

(** ** Storage slots

    [Storage] and [HashedStorage]: the key is an address, the duplicates are
    pairs of a location and a value, in the order of their encodings. *)

Abbreviation DupSlots := (gset (Z * (Z * Z))).

Definition slot_le (a b : Z * (Z * Z)) : Prop :=
  a.2.1 < b.2.1
  ∨ a.2.1 = b.2.1 ∧ bytes_le (encode u256_object a.2.2) (encode u256_object b.2.2).

#[global] Instance slot_le_dec : RelDecision slot_le.
Proof. intros a b. unfold slot_le. apply _. Defined.

(** The duplicates of an address, in order. *)
Definition walk_slots (address : Z) (t : DupSlots) : list (Z * (Z * Z)) :=
  merge_sort slot_le (filter (fun e => e.1 = address) (elements t)).

(** [cursor.seek_both_range(address, location)]. *)
Definition seek_both_range (address location : Z) (t : DupSlots) : option (Z * Z) :=
  snd <$> head (filter (fun e => location ≤ e.2.1) (walk_slots address t)).

Definition seek_storage_key (address location : Z) (t : DupSlots) : option Z :=
  match seek_both_range address location t with
  | Some (l, v) => if l =? location then Some v else None
  | None => None
  end.

Definition upsert_storage_value (address location value : Z) (t : DupSlots) : DupSlots :=
  let t := match seek_storage_key address location t with
           | Some v => t ∖ {[(address, (location, v))]}
           | None => t
           end in
  if value =? 0 then t else {[(address, (location, value))]} ∪ t.

(** The same for the slots of hashed accounts. *)
Definition seek_hashed_storage_key (hashed_address hashed_location : Z) (t : DupSlots) : option Z :=
  match seek_both_range hashed_address hashed_location t with
  | Some (l, v) => if l =? hashed_location then Some v else None
  | None => None
  end.

Definition upsert_hashed_storage_value (hashed_address hashed_location value : Z) (t : DupSlots) : DupSlots :=
  let t := match seek_hashed_storage_key hashed_address hashed_location t with
           | Some v => t ∖ {[(hashed_address, (hashed_location, v))]}
           | None => t
           end in
  if value =? 0 then t else {[(hashed_address, (hashed_location, value))]} ∪ t.

(** [delete_current_duplicates] at an address. *)
Definition delete_duplicates (address : Z) (t : DupSlots) : DupSlots :=
  filter (fun e => e.1 ≠ address) t.

(** ** The tables *)

Record BodyForStorage : Type := mkBodyForStorage {
  base_tx_id : Z;
  tx_amount : Z;
  uncles : list BlockHeader
}.

Record Database : Type := mkDatabase {
  CanonicalHeader : gmap Z Z;
  HeaderNumber : gmap Z Z;
  Header : gmap (Z * Z) BlockHeader;
  HeadersTotalDifficulty : gmap (Z * Z) Z;
  BlockBody_ : gmap (Z * Z) BodyForStorage;
  BlockTransaction : gmap Z MessageWithSignature;
  TxSender : gmap (Z * Z) (list Z);
  TotalGas : gmap Z Z;
  TotalTx : gmap Z Z;
  Account_ : gmap Z Account;
  Storage_ : DupSlots;
  Code : gmap Z bytes;
  AccountChangeSet : list (Z * (Z * option Account));
  StorageChangeSet : list ((Z * Z) * (Z * Z));
  Log_ : list ((Z * Z) * list Log);
  CallTraceSet : list (Z * CallTraceSetEntry);
  AccountHistory : Bitmap.Table;
  StorageHistory : Bitmap.Table;
  HashedAccount : gmap Z Account;
  HashedStorage : DupSlots;
  TrieAccount : gmap bytes bytes;
  TrieStorage : gmap bytes bytes;
  BlockTransactionLookup : gmap Z Z;
  CallFromIndex : Bitmap.Table;
  CallToIndex : Bitmap.Table;
  SyncStage : gmap string Z;
  LastHeader : option Z
}.

Definition set_CanonicalHeader (x : gmap Z Z) (d : Database) : Database :=
  mkDatabase x (HeaderNumber d) (Header d) (HeadersTotalDifficulty d) (BlockBody_ d)
    (BlockTransaction d) (TxSender d) (TotalGas d) (TotalTx d) (Account_ d) (Storage_ d) (Code
    d) (AccountChangeSet d) (StorageChangeSet d) (Log_ d) (CallTraceSet d) (AccountHistory d)
    (StorageHistory d) (HashedAccount d) (HashedStorage d) (TrieAccount d) (TrieStorage d)
    (BlockTransactionLookup d) (CallFromIndex d) (CallToIndex d) (SyncStage d) (LastHeader d).
Definition set_HeaderNumber (x : gmap Z Z) (d : Database) : Database :=
  mkDatabase (CanonicalHeader d) x (Header d) (HeadersTotalDifficulty d) (BlockBody_ d)
    (BlockTransaction d) (TxSender d) (TotalGas d) (TotalTx d) (Account_ d) (Storage_ d) (Code
    d) (AccountChangeSet d) (StorageChangeSet d) (Log_ d) (CallTraceSet d) (AccountHistory d)
    (StorageHistory d) (HashedAccount d) (HashedStorage d) (TrieAccount d) (TrieStorage d)
    (BlockTransactionLookup d) (CallFromIndex d) (CallToIndex d) (SyncStage d) (LastHeader d).
Definition set_BlockBody_ (x : gmap (Z * Z) BodyForStorage) (d : Database) : Database :=
  mkDatabase (CanonicalHeader d) (HeaderNumber d) (Header d) (HeadersTotalDifficulty d) x
    (BlockTransaction d) (TxSender d) (TotalGas d) (TotalTx d) (Account_ d) (Storage_ d) (Code
    d) (AccountChangeSet d) (StorageChangeSet d) (Log_ d) (CallTraceSet d) (AccountHistory d)
    (StorageHistory d) (HashedAccount d) (HashedStorage d) (TrieAccount d) (TrieStorage d)
    (BlockTransactionLookup d) (CallFromIndex d) (CallToIndex d) (SyncStage d) (LastHeader d).
Definition set_BlockTransaction (x : gmap Z MessageWithSignature) (d : Database) : Database :=
  mkDatabase (CanonicalHeader d) (HeaderNumber d) (Header d) (HeadersTotalDifficulty d)
    (BlockBody_ d) x (TxSender d) (TotalGas d) (TotalTx d) (Account_ d) (Storage_ d) (Code d)
    (AccountChangeSet d) (StorageChangeSet d) (Log_ d) (CallTraceSet d) (AccountHistory d)
    (StorageHistory d) (HashedAccount d) (HashedStorage d) (TrieAccount d) (TrieStorage d)
    (BlockTransactionLookup d) (CallFromIndex d) (CallToIndex d) (SyncStage d) (LastHeader d).
Definition set_TxSender (x : gmap (Z * Z) (list Z)) (d : Database) : Database :=
  mkDatabase (CanonicalHeader d) (HeaderNumber d) (Header d) (HeadersTotalDifficulty d)
    (BlockBody_ d) (BlockTransaction d) x (TotalGas d) (TotalTx d) (Account_ d) (Storage_ d)
    (Code d) (AccountChangeSet d) (StorageChangeSet d) (Log_ d) (CallTraceSet d) (AccountHistory
    d) (StorageHistory d) (HashedAccount d) (HashedStorage d) (TrieAccount d) (TrieStorage d)
    (BlockTransactionLookup d) (CallFromIndex d) (CallToIndex d) (SyncStage d) (LastHeader d).
Definition set_TotalGas (x : gmap Z Z) (d : Database) : Database :=
  mkDatabase (CanonicalHeader d) (HeaderNumber d) (Header d) (HeadersTotalDifficulty d)
    (BlockBody_ d) (BlockTransaction d) (TxSender d) x (TotalTx d) (Account_ d) (Storage_ d)
    (Code d) (AccountChangeSet d) (StorageChangeSet d) (Log_ d) (CallTraceSet d) (AccountHistory
    d) (StorageHistory d) (HashedAccount d) (HashedStorage d) (TrieAccount d) (TrieStorage d)
    (BlockTransactionLookup d) (CallFromIndex d) (CallToIndex d) (SyncStage d) (LastHeader d).
Definition set_TotalTx (x : gmap Z Z) (d : Database) : Database :=
  mkDatabase (CanonicalHeader d) (HeaderNumber d) (Header d) (HeadersTotalDifficulty d)
    (BlockBody_ d) (BlockTransaction d) (TxSender d) (TotalGas d) x (Account_ d) (Storage_ d)
    (Code d) (AccountChangeSet d) (StorageChangeSet d) (Log_ d) (CallTraceSet d) (AccountHistory
    d) (StorageHistory d) (HashedAccount d) (HashedStorage d) (TrieAccount d) (TrieStorage d)
    (BlockTransactionLookup d) (CallFromIndex d) (CallToIndex d) (SyncStage d) (LastHeader d).
Definition set_Account_ (x : gmap Z Account) (d : Database) : Database :=
  mkDatabase (CanonicalHeader d) (HeaderNumber d) (Header d) (HeadersTotalDifficulty d)
    (BlockBody_ d) (BlockTransaction d) (TxSender d) (TotalGas d) (TotalTx d) x (Storage_ d)
    (Code d) (AccountChangeSet d) (StorageChangeSet d) (Log_ d) (CallTraceSet d) (AccountHistory
    d) (StorageHistory d) (HashedAccount d) (HashedStorage d) (TrieAccount d) (TrieStorage d)
    (BlockTransactionLookup d) (CallFromIndex d) (CallToIndex d) (SyncStage d) (LastHeader d).
Definition set_Storage_ (x : DupSlots) (d : Database) : Database :=
  mkDatabase (CanonicalHeader d) (HeaderNumber d) (Header d) (HeadersTotalDifficulty d)
    (BlockBody_ d) (BlockTransaction d) (TxSender d) (TotalGas d) (TotalTx d) (Account_ d) x
    (Code d) (AccountChangeSet d) (StorageChangeSet d) (Log_ d) (CallTraceSet d) (AccountHistory
    d) (StorageHistory d) (HashedAccount d) (HashedStorage d) (TrieAccount d) (TrieStorage d)
    (BlockTransactionLookup d) (CallFromIndex d) (CallToIndex d) (SyncStage d) (LastHeader d).
Definition set_Code (x : gmap Z bytes) (d : Database) : Database :=
  mkDatabase (CanonicalHeader d) (HeaderNumber d) (Header d) (HeadersTotalDifficulty d)
    (BlockBody_ d) (BlockTransaction d) (TxSender d) (TotalGas d) (TotalTx d) (Account_ d)
    (Storage_ d) x (AccountChangeSet d) (StorageChangeSet d) (Log_ d) (CallTraceSet d)
    (AccountHistory d) (StorageHistory d) (HashedAccount d) (HashedStorage d) (TrieAccount d)
    (TrieStorage d) (BlockTransactionLookup d) (CallFromIndex d) (CallToIndex d) (SyncStage d) (LastHeader d).
Definition set_AccountChangeSet (x : list (Z * (Z * option Account))) (d : Database) : Database :=
  mkDatabase (CanonicalHeader d) (HeaderNumber d) (Header d) (HeadersTotalDifficulty d)
    (BlockBody_ d) (BlockTransaction d) (TxSender d) (TotalGas d) (TotalTx d) (Account_ d)
    (Storage_ d) (Code d) x (StorageChangeSet d) (Log_ d) (CallTraceSet d) (AccountHistory d)
    (StorageHistory d) (HashedAccount d) (HashedStorage d) (TrieAccount d) (TrieStorage d)
    (BlockTransactionLookup d) (CallFromIndex d) (CallToIndex d) (SyncStage d) (LastHeader d).
Definition set_StorageChangeSet (x : list ((Z * Z) * (Z * Z))) (d : Database) : Database :=
  mkDatabase (CanonicalHeader d) (HeaderNumber d) (Header d) (HeadersTotalDifficulty d)
    (BlockBody_ d) (BlockTransaction d) (TxSender d) (TotalGas d) (TotalTx d) (Account_ d)
    (Storage_ d) (Code d) (AccountChangeSet d) x (Log_ d) (CallTraceSet d) (AccountHistory d)
    (StorageHistory d) (HashedAccount d) (HashedStorage d) (TrieAccount d) (TrieStorage d)
    (BlockTransactionLookup d) (CallFromIndex d) (CallToIndex d) (SyncStage d) (LastHeader d).
Definition set_Log_ (x : list ((Z * Z) * list Log)) (d : Database) : Database :=
  mkDatabase (CanonicalHeader d) (HeaderNumber d) (Header d) (HeadersTotalDifficulty d)
    (BlockBody_ d) (BlockTransaction d) (TxSender d) (TotalGas d) (TotalTx d) (Account_ d)
    (Storage_ d) (Code d) (AccountChangeSet d) (StorageChangeSet d) x (CallTraceSet d)
    (AccountHistory d) (StorageHistory d) (HashedAccount d) (HashedStorage d) (TrieAccount d)
    (TrieStorage d) (BlockTransactionLookup d) (CallFromIndex d) (CallToIndex d) (SyncStage d) (LastHeader d).
Definition set_CallTraceSet (x : list (Z * CallTraceSetEntry)) (d : Database) : Database :=
  mkDatabase (CanonicalHeader d) (HeaderNumber d) (Header d) (HeadersTotalDifficulty d)
    (BlockBody_ d) (BlockTransaction d) (TxSender d) (TotalGas d) (TotalTx d) (Account_ d)
    (Storage_ d) (Code d) (AccountChangeSet d) (StorageChangeSet d) (Log_ d) x (AccountHistory
    d) (StorageHistory d) (HashedAccount d) (HashedStorage d) (TrieAccount d) (TrieStorage d)
    (BlockTransactionLookup d) (CallFromIndex d) (CallToIndex d) (SyncStage d) (LastHeader d).
Definition set_HashedAccount (x : gmap Z Account) (d : Database) : Database :=
  mkDatabase (CanonicalHeader d) (HeaderNumber d) (Header d) (HeadersTotalDifficulty d)
    (BlockBody_ d) (BlockTransaction d) (TxSender d) (TotalGas d) (TotalTx d) (Account_ d)
    (Storage_ d) (Code d) (AccountChangeSet d) (StorageChangeSet d) (Log_ d) (CallTraceSet d)
    (AccountHistory d) (StorageHistory d) x (HashedStorage d) (TrieAccount d) (TrieStorage d)
    (BlockTransactionLookup d) (CallFromIndex d) (CallToIndex d) (SyncStage d) (LastHeader d).
Definition set_HashedStorage (x : DupSlots) (d : Database) : Database :=
  mkDatabase (CanonicalHeader d) (HeaderNumber d) (Header d) (HeadersTotalDifficulty d)
    (BlockBody_ d) (BlockTransaction d) (TxSender d) (TotalGas d) (TotalTx d) (Account_ d)
    (Storage_ d) (Code d) (AccountChangeSet d) (StorageChangeSet d) (Log_ d) (CallTraceSet d)
    (AccountHistory d) (StorageHistory d) (HashedAccount d) x (TrieAccount d) (TrieStorage d)
    (BlockTransactionLookup d) (CallFromIndex d) (CallToIndex d) (SyncStage d) (LastHeader d).
Definition set_TrieAccount (x : gmap bytes bytes) (d : Database) : Database :=
  mkDatabase (CanonicalHeader d) (HeaderNumber d) (Header d) (HeadersTotalDifficulty d)
    (BlockBody_ d) (BlockTransaction d) (TxSender d) (TotalGas d) (TotalTx d) (Account_ d)
    (Storage_ d) (Code d) (AccountChangeSet d) (StorageChangeSet d) (Log_ d) (CallTraceSet d)
    (AccountHistory d) (StorageHistory d) (HashedAccount d) (HashedStorage d) x (TrieStorage d)
    (BlockTransactionLookup d) (CallFromIndex d) (CallToIndex d) (SyncStage d) (LastHeader d).
Definition set_TrieStorage (x : gmap bytes bytes) (d : Database) : Database :=
  mkDatabase (CanonicalHeader d) (HeaderNumber d) (Header d) (HeadersTotalDifficulty d)
    (BlockBody_ d) (BlockTransaction d) (TxSender d) (TotalGas d) (TotalTx d) (Account_ d)
    (Storage_ d) (Code d) (AccountChangeSet d) (StorageChangeSet d) (Log_ d) (CallTraceSet d)
    (AccountHistory d) (StorageHistory d) (HashedAccount d) (HashedStorage d) (TrieAccount d) x
    (BlockTransactionLookup d) (CallFromIndex d) (CallToIndex d) (SyncStage d) (LastHeader d).
Definition set_BlockTransactionLookup (x : gmap Z Z) (d : Database) : Database :=
  mkDatabase (CanonicalHeader d) (HeaderNumber d) (Header d) (HeadersTotalDifficulty d)
    (BlockBody_ d) (BlockTransaction d) (TxSender d) (TotalGas d) (TotalTx d) (Account_ d)
    (Storage_ d) (Code d) (AccountChangeSet d) (StorageChangeSet d) (Log_ d) (CallTraceSet d)
    (AccountHistory d) (StorageHistory d) (HashedAccount d) (HashedStorage d) (TrieAccount d)
    (TrieStorage d) x (CallFromIndex d) (CallToIndex d) (SyncStage d) (LastHeader d).
Definition set_CallFromIndex (x : Bitmap.Table) (d : Database) : Database :=
  mkDatabase (CanonicalHeader d) (HeaderNumber d) (Header d) (HeadersTotalDifficulty d)
    (BlockBody_ d) (BlockTransaction d) (TxSender d) (TotalGas d) (TotalTx d) (Account_ d)
    (Storage_ d) (Code d) (AccountChangeSet d) (StorageChangeSet d) (Log_ d) (CallTraceSet d)
    (AccountHistory d) (StorageHistory d) (HashedAccount d) (HashedStorage d) (TrieAccount d)
    (TrieStorage d) (BlockTransactionLookup d) x (CallToIndex d) (SyncStage d) (LastHeader d).
Definition set_CallToIndex (x : Bitmap.Table) (d : Database) : Database :=
  mkDatabase (CanonicalHeader d) (HeaderNumber d) (Header d) (HeadersTotalDifficulty d)
    (BlockBody_ d) (BlockTransaction d) (TxSender d) (TotalGas d) (TotalTx d) (Account_ d)
    (Storage_ d) (Code d) (AccountChangeSet d) (StorageChangeSet d) (Log_ d) (CallTraceSet d)
    (AccountHistory d) (StorageHistory d) (HashedAccount d) (HashedStorage d) (TrieAccount d)
    (TrieStorage d) (BlockTransactionLookup d) (CallFromIndex d) x (SyncStage d) (LastHeader d).
Definition set_SyncStage (x : gmap string Z) (d : Database) : Database :=
  mkDatabase (CanonicalHeader d) (HeaderNumber d) (Header d) (HeadersTotalDifficulty d)
    (BlockBody_ d) (BlockTransaction d) (TxSender d) (TotalGas d) (TotalTx d) (Account_ d)
    (Storage_ d) (Code d) (AccountChangeSet d) (StorageChangeSet d) (Log_ d) (CallTraceSet d)
    (AccountHistory d) (StorageHistory d) (HashedAccount d) (HashedStorage d) (TrieAccount d)
    (TrieStorage d) (BlockTransactionLookup d) (CallFromIndex d) (CallToIndex d) x (LastHeader d).

Definition set_LastHeader (x : option Z) (d : Database) : Database :=
  mkDatabase (CanonicalHeader d) (HeaderNumber d) (Header d) (HeadersTotalDifficulty d)
    (BlockBody_ d) (BlockTransaction d) (TxSender d) (TotalGas d) (TotalTx d) (Account_ d)
    (Storage_ d) (Code d) (AccountChangeSet d) (StorageChangeSet d) (Log_ d) (CallTraceSet d)
    (AccountHistory d) (StorageHistory d) (HashedAccount d) (HashedStorage d) (TrieAccount d)
    (TrieStorage d) (BlockTransactionLookup d) (CallFromIndex d) (CallToIndex d) (SyncStage d) x.
Definition set_Header (x : gmap (Z * Z) BlockHeader) (d : Database) : Database :=
  mkDatabase (CanonicalHeader d) (HeaderNumber d) x (HeadersTotalDifficulty d)
    (BlockBody_ d) (BlockTransaction d) (TxSender d) (TotalGas d) (TotalTx d) (Account_ d)
    (Storage_ d) (Code d) (AccountChangeSet d) (StorageChangeSet d) (Log_ d) (CallTraceSet d)
    (AccountHistory d) (StorageHistory d) (HashedAccount d) (HashedStorage d) (TrieAccount d)
    (TrieStorage d) (BlockTransactionLookup d) (CallFromIndex d) (CallToIndex d) (SyncStage d) (LastHeader d).
Definition set_HeadersTotalDifficulty (x : gmap (Z * Z) Z) (d : Database) : Database :=
  mkDatabase (CanonicalHeader d) (HeaderNumber d) (Header d) x
    (BlockBody_ d) (BlockTransaction d) (TxSender d) (TotalGas d) (TotalTx d) (Account_ d)
    (Storage_ d) (Code d) (AccountChangeSet d) (StorageChangeSet d) (Log_ d) (CallTraceSet d)
    (AccountHistory d) (StorageHistory d) (HashedAccount d) (HashedStorage d) (TrieAccount d)
    (TrieStorage d) (BlockTransactionLookup d) (CallFromIndex d) (CallToIndex d) (SyncStage d) (LastHeader d).

Definition empty_database : Database :=
  mkDatabase ∅ ∅ ∅ ∅ ∅ ∅ ∅ ∅ ∅ ∅ ∅ ∅ [] [] [] [] [] [] ∅ ∅ ∅ ∅ ∅ [] [] ∅ None.

(** [read_account_storage], [read_account_code], [read_account_code_size]. *)
Definition read_account_storage (d : Database) (address location : Z) : option Z :=
  match seek_both_range address location (Storage_ d) with
  | Some (l, v) => if l =? location then Some v else None
  | None => None
  end.

Definition read_account_code (d : Database) (code_hash : Z) : option bytes := Code d !! code_hash.

Definition read_account_code_size (d : Database) (code_hash : Z) : Z :=
  default 0 ((fun code : bytes => Z.of_nat (length code)) <$> read_account_code d code_hash).

(** A transaction sees what it writes; the backend does not fail. *)
#[global] Instance database_db : StageDb Database := {|
  begin_mutable d := Ok d;
  commit tx := Ok tx;
  get_progress i d := Ok (SyncStage d !! i);
  save_progress i p d := Ok (set_SyncStage (<[i := p]> (SyncStage d)) d)
|}.

#[global] Instance database_laws : StageDbLaws Database.
Proof.
  split.
  - by intros d tx [= ->].
  - by intros tx d [= ->].
  - intros i p tx tx' [= <-]. cbn. by rewrite lookup_insert_eq.
  - intros i i' p tx tx' [= <-] Hi. cbn. by rewrite lookup_insert_ne.
Qed.

#[global] Instance database_reliable : Reliable (D := Database).
Proof. split; intros; by eexists. Qed.
