(* ===== verification/Accessors.v ===== *)
(** * Accessors

    [src/src/accessors/chain.rs] and [state.rs]: typed reads and writes of
    the tables, and reads of the state at an earlier block through the
    history indices and the change sets. *)

From S2P Require Import Prelude Words Errors Account Transaction Block BytesOrder TableCodecs Bitmap Database.

(** ** The chain *)

Module canonical_hash.
Definition read (d : Database) (block_number : Z) : option Z := CanonicalHeader d !! block_number.
Definition write (block_number hash : Z) (d : Database) : Database :=
  set_CanonicalHeader (<[block_number := hash]> (CanonicalHeader d)) d.
End canonical_hash.

Module header_number.
Definition read (d : Database) (hash : Z) : option Z := HeaderNumber d !! hash.
End header_number.

Module header.
Definition read (d : Database) (hash number : Z) : option BlockHeader := Header d !! (number, hash).
End header.

Module tx.
Definition read (d : Database) (base_tx_id : Z) (amount : nat) : list MessageWithSignature :=
  match amount with
  | O => []
  | _ => (take amount (walk_from base_tx_id (BlockTransaction d))).*2
  end.

(** [base_tx_id + i] for the [i]-th transaction; the sum wraps. *)
Fixpoint write (base_tx_id : Z) (txs : list MessageWithSignature) (d : Database) : Database :=
  match txs with
  | [] => d
  | eth_tx :: txs =>
      write (u64_add base_tx_id 1) txs
        (set_BlockTransaction (<[base_tx_id := eth_tx]> (BlockTransaction d)) d)
  end.
End tx.

Module tx_sender.
Definition read (d : Database) (hash number : Z) : list Z := default [] (TxSender d !! (number, hash)).
Definition write (hash number : Z) (senders : list Z) (d : Database) : Database :=
  set_TxSender (<[(number, hash) := senders]> (TxSender d)) d.
End tx_sender.

Module storage_body.
Definition read (d : Database) (hash number : Z) : option BodyForStorage := BlockBody_ d !! (number, hash).
Definition has (d : Database) (hash number : Z) : bool := bool_decide (is_Some (read d hash number)).
Definition write (hash number : Z) (body : BodyForStorage) (d : Database) : Database :=
  set_BlockBody_ (<[(number, hash) := body]> (BlockBody_ d)) d.
End storage_body.

Module block_body.
Definition read_base (d : Database) (hash number : Z) : option (BlockBody * Z) :=
  body ← storage_body.read d hash number;
  let txs := tx.read d (base_tx_id body) (Z.to_nat (tx_amount body)) in
  Some ({| body_transactions := txs; body_ommers := uncles body |}, base_tx_id body).

Definition read_without_senders (d : Database) (hash number : Z) : option BlockBody :=
  fst <$> read_base d hash number.

Definition read_with_senders (d : Database) (hash number : Z) : option BlockBodyWithSenders :=
  '(body, _) ← read_base d hash number;
  let senders := tx_sender.read d hash number in
  Some {| bws_transactions :=
            zip_with (fun t sender => {| message_of := message t; sender := sender |})
              (body_transactions body) senders;
          bws_ommers := body_ommers body |}.
End block_body.

Module td.
Definition read (d : Database) (hash number : Z) : option Z := HeadersTotalDifficulty d !! (number, hash).
End td.

(** ** The state, now or at the end of an earlier block *)

Module history_index.
Definition find_next_block (t : Bitmap.Table) (needle : bytes) (block_number : Z) : option Z :=
  match head (Bitmap.seek (needle, block_number) t) with
  | Some ((inner, _), change_blocks) =>
      if decide (inner = needle)
      then head (filter (fun change_block => block_number < change_block) (ascending change_blocks))
      else None
  | None => None
  end.
End history_index.

Module account.
(** [seek_both_range(block_number, address)] of the changes of a block. *)
Definition seek_change (block_number address : Z) (t : list (Z * (Z * option Account))) :
    option (Z * option Account) :=
  snd <$> head (filter (fun e => e.1 = block_number ∧ address ≤ e.2.1) t).

Definition read (d : Database) (address_to_find : Z) (block_number : option Z) : option Account :=
  let now := Account_ d !! address_to_find in
  match block_number with
  | None => now
  | Some block_number =>
      match history_index.find_next_block (AccountHistory d) (encode address_object address_to_find)
              block_number with
      | Some block_number =>
          match seek_change block_number address_to_find (AccountChangeSet d) with
          | Some (address, account) => if address =? address_to_find then account else now
          | None => now
          end
      | None => now
      end
  end.
End account.

Module storage.
Definition seek_change (k : Z * Z) (location : Z) (t : list ((Z * Z) * (Z * Z))) : option (Z * Z) :=
  snd <$> head (filter (fun e => e.1 = k ∧ location ≤ e.2.1) t).

Definition read (d : Database) (address location_to_find : Z) (block_number : option Z) : Z :=
  let now := default 0 (seek_storage_key address location_to_find (Storage_ d)) in
  match block_number with
  | None => now
  | Some block_number =>
      match history_index.find_next_block (StorageHistory d)
              (encode address_slot_object (address, location_to_find)) block_number with
      | Some block_number =>
          match seek_change (block_number, address) location_to_find (StorageChangeSet d) with
          | Some (location, value) => if location =? location_to_find then value else now
          | None => now
          end
      | None => now
      end
  end.
End storage.

(** ** The end of a chunk

    The search for the next change starts at the chunk whose key is at or
    behind the block itself: if the block is the key of a chunk, its largest
    member, no later change of that chunk exists and the ones in the next
    chunk are not looked at. The change that follows the end of a chunk is
    lost to readers of the history. *)
Lemma chunk_end_lost t needle n change_blocks rest :
  Bitmap.seek (needle, n) t = ((needle, n), change_blocks) :: rest →
  (∀ b, b ∈ change_blocks → b ≤ n) →
  history_index.find_next_block t needle n = None.
Proof.
  intros Ht Hmax. unfold history_index.find_next_block. rewrite Ht. cbn [head].
  rewrite decide_True by done.
  assert (Forall (fun b => b ≤ n) (ascending change_blocks)) as Hall
    by (apply Forall_forall; intros b Hb; apply Hmax; by apply elem_of_ascending).
  induction Hall as [|b l Hb _ IH]; [done|]. rewrite filter_cons, decide_False by lia. exact IH.
Qed.

(** Two chunks of changes of an account, the state at block 8: the change
    of block 10 is not found, and the account is read as it is now. *)
Example chunk_end_example :
  let t := [(([1], 8), list_to_set [3; 8]); (([1], 2 ^ 64 - 1), list_to_set [10; 12])] in
  history_index.find_next_block t [1] 8 = None
  ∧ history_index.find_next_block t [1] 7 = Some 8
  ∧ history_index.find_next_block t [1] 9 = Some 10.
Proof. vm_compute. done. Qed.
