(* ===== verification/Buffer.v ===== *)
(** * Buffer

    [src/src/state/buffer.rs]: the state that execution works on, a layer
    of changes over the tables of a transaction, with the backward changes
    of every block; and its flush into the tables. *)

From stdpp Require Import sorting.
From S2P Require Import Prelude Words Errors Account Transaction Block StateTrait BytesOrder TableCodecs Database Accessors.

Record OverlayStorage : Type := mkOverlay { erased : bool; slots : gmap Z Z }.

Definition default_overlay : OverlayStorage := mkOverlay false ∅.

Record Buffer : Type := mkBuffer {
  txn : Database;
  prune_from : Z;
  historical_block : option Z;
  accounts : gmap Z (option Account);
  storage_of : gmap Z OverlayStorage;
  account_changes : gmap Z (gmap Z (option Account));
  storage_changes : gmap Z (gmap Z (gmap Z Z));
  hash_to_code : gmap Z bytes;
  logs : gmap Z (gmap Z (list Log));
  block_number : Z;
  changed_storage : gset Z
}.

Definition new_buffer (txn : Database) (prune_from : Z) (historical_block : option Z) : Buffer :=
  mkBuffer txn prune_from historical_block ∅ ∅ ∅ ∅ ∅ ∅ 0 ∅.

Definition with_txn (x : Database) (b : Buffer) : Buffer :=
  mkBuffer x (prune_from b) (historical_block b) (accounts b) (storage_of b) (account_changes b)
    (storage_changes b) (hash_to_code b) (logs b) (block_number b) (changed_storage b).
Definition with_accounts (x : gmap Z (option Account)) (b : Buffer) : Buffer :=
  mkBuffer (txn b) (prune_from b) (historical_block b) x (storage_of b) (account_changes b)
    (storage_changes b) (hash_to_code b) (logs b) (block_number b) (changed_storage b).
Definition with_storage (x : gmap Z OverlayStorage) (b : Buffer) : Buffer :=
  mkBuffer (txn b) (prune_from b) (historical_block b) (accounts b) x (account_changes b)
    (storage_changes b) (hash_to_code b) (logs b) (block_number b) (changed_storage b).
Definition with_account_changes (x : gmap Z (gmap Z (option Account))) (b : Buffer) : Buffer :=
  mkBuffer (txn b) (prune_from b) (historical_block b) (accounts b) (storage_of b) x
    (storage_changes b) (hash_to_code b) (logs b) (block_number b) (changed_storage b).
Definition with_storage_changes (x : gmap Z (gmap Z (gmap Z Z))) (b : Buffer) : Buffer :=
  mkBuffer (txn b) (prune_from b) (historical_block b) (accounts b) (storage_of b) (account_changes b)
    x (hash_to_code b) (logs b) (block_number b) (changed_storage b).
Definition with_code (x : gmap Z bytes) (b : Buffer) : Buffer :=
  mkBuffer (txn b) (prune_from b) (historical_block b) (accounts b) (storage_of b) (account_changes b)
    (storage_changes b) x (logs b) (block_number b) (changed_storage b).
Definition with_logs (x : gmap Z (gmap Z (list Log))) (b : Buffer) : Buffer :=
  mkBuffer (txn b) (prune_from b) (historical_block b) (accounts b) (storage_of b) (account_changes b)
    (storage_changes b) (hash_to_code b) x (block_number b) (changed_storage b).
Definition with_block (n : Z) (x : gset Z) (b : Buffer) : Buffer :=
  mkBuffer (txn b) (prune_from b) (historical_block b) (accounts b) (storage_of b) (account_changes b)
    (storage_changes b) (hash_to_code b) (logs b) n x.

(** ** The [State] interface *)

Definition read_account (b : Buffer) (address : Z) : result (option Account) :=
  Ok (match accounts b !! address with
      | Some a => a
      | None => account.read (txn b) address (historical_block b)
      end).

Definition read_code (b : Buffer) (code_hash : Z) : result bytes :=
  Ok (match hash_to_code b !! code_hash with
      | Some c => c
      | None => default [] (Code (txn b) !! code_hash)
      end).

Definition read_storage (b : Buffer) (address location : Z) : result Z :=
  let below := storage.read (txn b) address location (historical_block b) in
  Ok (match storage_of b !! address with
      | Some o =>
          match slots o !! location with
          | Some v => v
          | None => if erased o then 0 else below
          end
      | None => below
      end).

(** [storage_changes.entry(block).or_default().entry(address).or_default()],
    updated. *)
Definition record_slots (address : Z) (f : gmap Z Z → gmap Z Z) (b : Buffer) : Buffer :=
  let m := default ∅ (storage_changes b !! block_number b) in
  with_storage_changes
    (<[block_number b := <[address := f (default ∅ (m !! address))]> m]> (storage_changes b)) b.

(** [entry(slot).or_insert(initial)] for the slots of the table, in order. *)
Definition insert_absent (l : list (Z * (Z * Z))) (m : gmap Z Z) : gmap Z Z :=
  foldl (fun m e => match m !! e.2.1 with Some _ => m | None => <[e.2.1 := e.2.2]> m end) m l.

Definition erase_storage (address : Z) (b : Buffer) : result Buffer :=
  let '(mark_database_as_discarded, overlay) :=
    match storage_of b !! address with
    | Some o => (false, o)
    | None => (true, mkOverlay true ∅)
    end in
  (* the slots drained from the overlay replace what was recorded *)
  let b := record_slots address (fun m => slots overlay ∪ m) b in
  let mark_database_as_discarded := mark_database_as_discarded || negb (erased overlay) in
  let b := with_storage (<[address := mkOverlay true ∅]> (storage_of b)) b in
  Ok (if mark_database_as_discarded
      then record_slots address (insert_absent (walk_slots address (Storage_ (txn b)))) b
      else b).

Definition read_header (b : Buffer) (n block_hash : Z) : result (option BlockHeader) :=
  Ok (header.read (txn b) block_hash n).

Definition read_body (b : Buffer) (n block_hash : Z) : result (option BlockBody) :=
  Ok (block_body.read_without_senders (txn b) block_hash n).

Definition total_difficulty (b : Buffer) (n block_hash : Z) : result (option Z) :=
  Ok (td.read (txn b) block_hash n).

Definition begin_block (n : Z) (b : Buffer) : Buffer := with_block n ∅ b.

Definition update_account (address : Z) (initial current : option Account) (b : Buffer) : Buffer :=
  let equal := bool_decide (current = initial) in
  let account_deleted := bool_decide (current = None) in
  if equal && negb account_deleted && negb (bool_decide (address ∈ changed_storage b)) then b
  else
    let b :=
      if prune_from b <=? block_number b then
        with_account_changes
          (<[block_number b := <[address := initial]> (default ∅ (account_changes b !! block_number b))]>
             (account_changes b)) b
      else b in
    if equal then b else with_accounts (<[address := current]> (accounts b)) b.

Definition update_code (code_hash : Z) (code : bytes) (b : Buffer) : result Buffer :=
  Ok (with_code (<[code_hash := code]> (hash_to_code b)) b).

Definition update_storage (address location initial current : Z) (b : Buffer) : result Buffer :=
  if current =? initial then Ok b
  else
    let b :=
      if prune_from b <=? block_number b then
        record_slots address (insert location initial)
          (with_block (block_number b) ({[address]} ∪ changed_storage b) b)
      else b in
    let o := default default_overlay (storage_of b !! address) in
    Ok (with_storage (<[address := mkOverlay (erased o) (<[location := current]> (slots o))]> (storage_of b)) b).

#[global] Instance buffer_state : State Buffer := {|
  StateTrait.read_account := read_account;
  StateTrait.read_code := read_code;
  StateTrait.read_storage := read_storage;
  StateTrait.erase_storage := erase_storage;
  StateTrait.read_header := read_header;
  StateTrait.read_body := read_body;
  StateTrait.total_difficulty := total_difficulty;
  StateTrait.begin_block := begin_block;
  StateTrait.update_account := update_account;
  StateTrait.update_code := update_code;
  StateTrait.update_storage := update_storage
|}.

(** [insert_receipts]; the logs are grouped by block here. *)
Fixpoint insert_receipts_from (i : Z) (n : Z) (receipts : list Receipt) (b : Buffer) : Buffer :=
  match receipts with
  | [] => b
  | receipt :: receipts =>
      insert_receipts_from (i + 1) n receipts
        (with_logs (<[n := <[i := receipt_logs receipt]> (default ∅ (logs b !! n))]> (logs b)) b)
  end.

Definition insert_receipts (n : Z) (receipts : list Receipt) (b : Buffer) : Buffer :=
  insert_receipts_from 0 n receipts b.

(** ** The flush *)

(** What [write_history] appends, in the order of the ordered maps. *)
Definition account_entries (b : Buffer) : list (Z * (Z * option Account)) :=
  mjoin ((fun '(n, m) => (fun e => (n, e)) <$> entries m) <$> entries (account_changes b)).

Definition storage_entries (b : Buffer) : list ((Z * Z) * (Z * Z)) :=
  mjoin ((fun '(n, m) =>
            mjoin ((fun '(address, s) => (fun e => ((n, address), e)) <$> entries s) <$> entries m))
         <$> entries (storage_changes b)).

Definition log_entries (b : Buffer) : list ((Z * Z) * list Log) :=
  mjoin ((fun '(n, m) => (fun '(i, l) => ((n, i), l)) <$> entries m) <$> entries (logs b)).

Definition append_log (k : Z * Z) (v : list Log) (t : list ((Z * Z) * list Log)) :
    result (list ((Z * Z) * list Log)) :=
  match last t with
  | Some (k', _) => match pair_compare k' k with Lt => Ok (t ++ [(k, v)]) | _ => Err KeyMismatch end
  | None => Ok [(k, v)]
  end.

Definition write_history (b : Buffer) : result Buffer :=
  let d := txn b in
  acs ← res_foldl (fun t '(n, e) => append_dup Z.compare account_change_compare n e t)
          (AccountChangeSet d) (account_entries b);
  scs ← res_foldl (fun t '(k, e) => append_dup pair_compare storage_change_compare k e t)
          (StorageChangeSet d) (storage_entries b);
  ls ← res_foldl (fun t '(k, v) => append_log k v t) (Log_ d) (log_entries b);
  let d := set_AccountChangeSet acs (set_StorageChangeSet scs (set_Log_ ls d)) in
  Ok (with_txn d (with_logs ∅ (with_storage_changes ∅ (with_account_changes ∅ b)))).

(** [account_table]: the accounts in the order of their addresses. *)
Definition write_account (t : gmap Z Account) (address : Z) (account : option Account) : gmap Z Account :=
  match account with
  | Some a => <[address := a]> t
  | None => delete_exact address t
  end.

Definition write_accounts (l : list (Z * option Account)) (t : gmap Z Account) : gmap Z Account :=
  foldl (fun t '(address, account) => write_account t address account) t l.

Definition write_slots (address : Z) (l : list (Z * Z)) (t : DupSlots) : DupSlots :=
  foldl (fun t '(k, v) => upsert_storage_value address k v t) t l.

Definition write_storage (l : list (Z * OverlayStorage)) (t : DupSlots) : DupSlots :=
  foldl (fun t '(address, overlay) =>
      let t := if erased overlay then delete_duplicates address t else t in
      write_slots address (map_to_list (slots overlay)) t) t l.

Definition write_to_db (b : Buffer) : result Database :=
  b ← write_history b;
  let d := txn b in
  let d := set_Account_ (write_accounts (entries (accounts b)) (Account_ d)) d in
  let d := set_Storage_ (write_storage (entries (storage_of b)) (Storage_ d)) d in
  Ok (set_Code (hash_to_code b ∪ Code d) d).
