(* ===== verification/BufferFlush.v ===== *)
(** * BufferFlush

    The flush of a buffer writes what the buffer shows, and appends its
    backward changes to the history in order. *)

From stdpp Require Import sorting.
From S2P Require Import Prelude Words Errors Account Transaction Block StateTrait BytesOrder TableCodecs Database Accessors Buffer.

(** ** Entries of a table *)

#[global] Instance entry_le_trans {V} : Transitive (@entry_le V).
Proof. intros a b c. unfold entry_le. lia. Qed.

#[global] Instance entry_le_total {V} : Total (@entry_le V).
Proof. intros a b. unfold entry_le. lia. Qed.

Lemma entries_perm {V} (t : gmap Z V) : entries t ≡ₚ map_to_list t.
Proof. apply merge_sort_Permutation. Qed.

Lemma elem_of_entries {V} (t : gmap Z V) k v : (k, v) ∈ entries t ↔ t !! k = Some v.
Proof. rewrite entries_perm. apply elem_of_map_to_list. Qed.

Lemma entries_nodup {V} (t : gmap Z V) : NoDup (entries t).*1.
Proof. rewrite entries_perm. apply NoDup_fst_map_to_list. Qed.

Lemma entries_sorted {V} (t : gmap Z V) : StronglySorted (fun a b => a.1 < b.1) (entries t).
Proof.
  assert (StronglySorted entry_le (entries t)) as Hs by (apply StronglySorted_merge_sort; apply _).
  pose proof (entries_nodup t) as Hnd. induction Hs as [|e l Hs IH Hl]; [constructor|].
  rewrite fmap_cons, NoDup_cons in Hnd. destruct Hnd as [Hnin Hnd]. constructor; [by apply IH|].
  rewrite Forall_forall in *. intros f Hf. specialize (Hl f Hf). unfold entry_le in Hl.
  assert (e.1 ≠ f.1); [|lia]. intros E. apply Hnin. rewrite E. by apply list_elem_of_fmap_2.
Qed.

(** A loop over distinct keys that each change one key of a map. *)
Lemma fold_by_key {V W A : Type} (look : A → Z → W) (f : A → Z * V → A) (g : V → W → W) l a :
  (∀ a k v k', look (f a (k, v)) k' = if decide (k' = k) then g v (look a k) else look a k') →
  NoDup l.*1 → ∀ k, look (foldl f a l) k
    = match (list_to_map l : gmap Z V) !! k with Some v => g v (look a k) | None => look a k end.
Proof.
  intros Hf Hnd k. revert a. induction l as [|[k1 v1] l IH]; intros a; cbn.
  - by rewrite lookup_empty.
  - cbn in Hnd. apply NoDup_cons in Hnd as [Hnin Hnd]. rewrite IH, !Hf by done.
    destruct (decide (k = k1)) as [->|Hne].
    + rewrite lookup_insert_eq, not_elem_of_list_to_map_1 by done. done.
    + by rewrite lookup_insert_ne.
Qed.

Lemma list_to_map_entries {V} (t : gmap Z V) : (list_to_map (entries t) : gmap Z V) = t.
Proof.
  etrans; [|apply list_to_map_to_list].
  apply list_to_map_proper; [apply entries_nodup|apply entries_perm].
Qed.

(** ** Slots *)

#[global] Instance slot_le_trans : Transitive slot_le.
Proof.
  intros a b c. unfold slot_le. intros [?|[E1 ?]] [?|[E2 ?]]; [left; lia|left; lia|left; lia|].
  right. split; [congruence|by etrans].
Qed.

#[global] Instance slot_le_total : Total slot_le.
Proof.
  intros a b. unfold slot_le. destruct (Z.lt_trichotomy a.2.1 b.2.1) as [?|[E|?]]; [by left; left| |by right; left].
  destruct (total bytes_le (encode u256_object a.2.2) (encode u256_object b.2.2)); [left|right]; by right.
Qed.

(** One value for a slot. *)
Definition functional (t : DupSlots) : Prop :=
  ∀ a l v v', (a, (l, v)) ∈ t → (a, (l, v')) ∈ t → v = v'.

Definition slot_at (t : DupSlots) (a l : Z) : Z := default 0 (seek_storage_key a l t).

Lemma elem_of_walk_slots a t e : e ∈ walk_slots a t ↔ e.1 = a ∧ e ∈ t.
Proof.
  unfold walk_slots. rewrite (merge_sort_Permutation slot_le _), list_elem_of_filter, elem_of_elements. done.
Qed.

Lemma walk_slots_sorted a t : StronglySorted slot_le (walk_slots a t).
Proof. apply StronglySorted_merge_sort; apply _. Qed.

Lemma StronglySorted_filter' {A} (R : A → A → Prop) (P : A → Prop) `{∀ x, Decision (P x)} l :
  StronglySorted R l → StronglySorted R (filter P l).
Proof.
  induction 1 as [|x l Hl IH Hx]; [constructor|]. rewrite filter_cons. case_decide; [|done].
  constructor; [done|]. rewrite Forall_forall in *. intros y [_ Hy]%list_elem_of_filter. auto.
Qed.

Lemma seek_storage_key_spec t a l v :
  functional t → seek_storage_key a l t = Some v ↔ (a, (l, v)) ∈ t.
Proof.
  intros Hf. unfold seek_storage_key, seek_both_range.
  set (L := filter (fun e => l ≤ e.2.1) (walk_slots a t)).
  assert (∀ e, e ∈ L ↔ l ≤ e.2.1 ∧ e.1 = a ∧ e ∈ t) as HL
    by (intros e; unfold L; rewrite list_elem_of_filter, elem_of_walk_slots; done).
  assert (StronglySorted slot_le L) as HS by apply StronglySorted_filter', walk_slots_sorted.
  destruct L as [|[a0 [l0 v0]] L]; cbn.
  - split; [done|]. intros Hin. assert ((a, (l, v)) ∈ []) as Hn by (apply HL; cbn; split; [lia|done]).
    by apply elem_of_nil in Hn.
  - destruct (proj1 (HL (a0, (l0, v0))) (list_elem_of_here _ _)) as (Hle & Ha & Hin0). cbn in Hle, Ha. subst a0.
    destruct (Z.eqb_spec l0 l) as [->|Hne].
    + split; [by intros [= ->]|]. intros Hin. f_equal. by apply (Hf a l).
    + split; [done|]. intros Hin.
      assert ((a, (l, v)) ∈ (a, (l0, v0)) :: L) as Hin' by (apply HL; cbn; split; [lia|done]).
      apply elem_of_cons in Hin' as [[= -> _]|Hin']; [done|].
      apply StronglySorted_inv in HS as [_ HS]. rewrite Forall_forall in HS.
      specialize (HS _ Hin'). unfold slot_le in HS. cbn in HS. lia.
Qed.

Lemma elem_of_upsert t a l v a' l' v' :
  functional t →
  (a', (l', v')) ∈ upsert_storage_value a l v t
  ↔ if decide (a' = a ∧ l' = l) then v' = v ∧ v ≠ 0 else (a', (l', v')) ∈ t.
Proof.
  intros Hf. unfold upsert_storage_value.
  set (t1 := match seek_storage_key a l t with Some _ => _ | None => _ end).
  assert ((a', (l', v')) ∈ t1 ↔ (a', (l', v')) ∈ t ∧ ¬ (a' = a ∧ l' = l)) as H1.
  { subst t1. destruct (seek_storage_key a l t) as [v0|] eqn:E.
    - apply seek_storage_key_spec in E; [|done]. rewrite elem_of_difference, elem_of_singleton.
      split; [|intros [? Hne]; split; [done|]; intros [= -> -> _]; tauto].
      intros [Hin Hne]. split; [done|]. intros [-> ->]. apply Hne. by rewrite (Hf a l v' v0).
    - split; [|tauto]. intros Hin. split; [done|]. intros [-> ->].
      apply seek_storage_key_spec in Hin; [congruence|done]. }
  destruct (Z.eqb_spec v 0) as [->|Hv].
  - rewrite H1. destruct (decide (a' = a ∧ l' = l)); tauto.
  - rewrite elem_of_union, elem_of_singleton, H1.
    destruct (decide (a' = a ∧ l' = l)) as [[-> ->]|Hne]; [|naive_solver]. split; [|naive_solver].
    intros [[= ->]|[_ []]]; done.
Qed.

Lemma upsert_functional t a l v : functional t → functional (upsert_storage_value a l v t).
Proof.
  intros Hf a' l' v1 v2. rewrite !elem_of_upsert by done. case_decide; [naive_solver|apply Hf].
Qed.

Lemma slot_at_elem t a l v : functional t → v ≠ 0 → slot_at t a l = v ↔ (a, (l, v)) ∈ t.
Proof.
  intros Hf Hv. unfold slot_at. rewrite <- seek_storage_key_spec by done.
  destruct (seek_storage_key a l t); cbn; [naive_solver|naive_solver].
Qed.

Lemma slot_at_upsert t a l v a' l' :
  functional t →
  slot_at (upsert_storage_value a l v t) a' l' = if decide (a' = a ∧ l' = l) then v else slot_at t a' l'.
Proof.
  intros Hf. pose proof (upsert_functional t a l v Hf) as Hf'.
  set (r := if decide _ then v else slot_at t a' l').
  assert (∀ w, w ≠ 0 → slot_at (upsert_storage_value a l v t) a' l' = w ↔ r = w) as Hw.
  { intros w Hw. rewrite slot_at_elem, elem_of_upsert by done. subst r.
    case_decide; [naive_solver|]. by rewrite slot_at_elem. }
  destruct (decide (r = 0)) as [Hr|Hr]; [|by apply Hw].
  destruct (decide (slot_at (upsert_storage_value a l v t) a' l' = 0)) as [E|E]; [congruence|].
  specialize (Hw _ E). symmetry. by apply Hw.
Qed.

Lemma elem_of_delete_duplicates a t e : e ∈ delete_duplicates a t ↔ e.1 ≠ a ∧ e ∈ t.
Proof. unfold delete_duplicates. by rewrite elem_of_filter. Qed.

Lemma delete_duplicates_functional a t : functional t → functional (delete_duplicates a t).
Proof. intros Hf a' l v v'. rewrite !elem_of_delete_duplicates. intros [_ ?] [_ ?]. by apply (Hf a' l). Qed.

Lemma slot_at_delete_duplicates a t a' l' :
  functional t → slot_at (delete_duplicates a t) a' l' = if decide (a' = a) then 0 else slot_at t a' l'.
Proof.
  intros Hf. pose proof (delete_duplicates_functional a t Hf) as Hf'. unfold slot_at.
  destruct (seek_storage_key a' l' (delete_duplicates a t)) as [v|] eqn:E; cbn.
  - apply seek_storage_key_spec in E; [|done]. apply elem_of_delete_duplicates in E as [Hne Hin].
    cbn in Hne. rewrite decide_False by done. apply seek_storage_key_spec in Hin; [|done]. by rewrite Hin.
  - case_decide as Ha; [done|]. destruct (seek_storage_key a' l' t) as [v|] eqn:E'; [|done]. exfalso.
    apply seek_storage_key_spec in E'; [|done].
    assert ((a', (l', v)) ∈ delete_duplicates a t) as Hin by by apply elem_of_delete_duplicates.
    apply seek_storage_key_spec in Hin; [congruence|done].
Qed.

(** ** The loops of the flush *)

Lemma write_slots_ok a l t :
  functional t → NoDup l.*1 →
  functional (write_slots a l t)
  ∧ ∀ a' k, slot_at (write_slots a l t) a' k
      = if decide (a' = a) then default (slot_at t a k) ((list_to_map l : gmap Z Z) !! k) else slot_at t a' k.
Proof.
  revert t. induction l as [|[k v] l IH]; intros t Hf Hnd; cbn [write_slots foldl fmap list_fmap fst].
  - split; [done|]. intros a' k. cbn. rewrite lookup_empty. by case_decide; subst.
  - cbn in Hnd. apply NoDup_cons in Hnd as [Hnin Hnd].
    destruct (IH (upsert_storage_value a k v t) (upsert_functional _ _ _ _ Hf) Hnd) as [Hf' Hs].
    split; [exact Hf'|]. intros a' k'. change (slot_at (write_slots a l (upsert_storage_value a k v t)) a' k' = 
      if decide (a' = a) then default (slot_at t a k') ((list_to_map ((k, v) :: l) : gmap Z Z) !! k') else slot_at t a' k').
    rewrite Hs, !slot_at_upsert by done. cbn [list_to_map foldr uncurry].
    destruct (decide (a' = a)) as [->|Hne]; [|by rewrite decide_False by tauto].
    destruct (decide (k' = k)) as [->|Hk].
    + rewrite decide_True by done. change (foldr _ _ l) with (list_to_map l : gmap Z Z).
      by rewrite lookup_insert_eq, not_elem_of_list_to_map_1.
    + rewrite decide_False by tauto. by rewrite lookup_insert_ne.
Qed.

(** The value of a slot under an overlay. *)
Definition overlay_at (o : option OverlayStorage) (below : Z) (k : Z) : Z :=
  match o with
  | Some o => default (if erased o then 0 else below) (slots o !! k)
  | None => below
  end.

Lemma write_storage_ok l t :
  functional t → NoDup l.*1 →
  functional (write_storage l t)
  ∧ ∀ a k, slot_at (write_storage l t) a k
      = overlay_at ((list_to_map l : gmap Z OverlayStorage) !! a) (slot_at t a k) k.
Proof.
  revert t. induction l as [|[a0 o] l IH]; intros t Hf Hnd.
  - split; [done|]. intros a k. cbn. by rewrite lookup_empty.
  - cbn in Hnd. apply NoDup_cons in Hnd as [Hnin Hnd].
    set (t1 := if erased o then delete_duplicates a0 t else t).
    assert (functional t1) as Hf1 by (subst t1; destruct (erased o); [by apply delete_duplicates_functional|done]).
    destruct (write_slots_ok a0 (map_to_list (slots o)) t1 Hf1 (NoDup_fst_map_to_list _)) as [Hf2 Hs2].
    destruct (IH _ Hf2 Hnd) as [Hf3 Hs3]. split; [exact Hf3|]. intros a k.
    change (write_storage ((a0, o) :: l) t) with (write_storage l (write_slots a0 (map_to_list (slots o)) t1)).
    rewrite Hs3, Hs2, list_to_map_to_list. cbn [list_to_map foldr uncurry].
    change (foldr _ _ l) with (list_to_map l : gmap Z OverlayStorage).
    assert (∀ a', slot_at t1 a' k = if decide (a' = a0 ∧ erased o = true) then 0 else slot_at t a' k) as H1.
    { intros a'. subst t1. destruct (erased o).
      - rewrite (slot_at_delete_duplicates a0 t a' k Hf). destruct (decide (a' = a0)), (decide (a' = a0 ∧ true = true)); naive_solver.
      - by rewrite decide_False by (intros [_ [=]]). }
    destruct (decide (a = a0)) as [->|Hne].
    + rewrite lookup_insert_eq, not_elem_of_list_to_map_1 by done. cbn. rewrite H1.
      destruct (erased o); [by rewrite decide_True|by rewrite decide_False by (intros [_ [=]])].
    + rewrite lookup_insert_ne by done. rewrite H1, decide_False by tauto. done.
Qed.

Lemma write_account_lookup t a x a' :
  write_account t a x !! a' = if decide (a' = a) then x else t !! a'.
Proof.
  unfold write_account, delete_exact. destruct x as [x|].
  - destruct (decide (a' = a)) as [->|]; [by rewrite lookup_insert_eq|by rewrite lookup_insert_ne].
  - destruct (t !! a) eqn:E; destruct (decide (a' = a)) as [->|]; [|by rewrite lookup_delete_ne|done..].
    by rewrite lookup_delete_eq.
Qed.

Lemma write_accounts_lookup l t a :
  NoDup l.*1 →
  write_accounts l t !! a = default (t !! a) ((list_to_map l : gmap Z (option Account)) !! a).
Proof.
  intros Hnd. unfold write_accounts.
  rewrite (fold_by_key (fun t a => t !! a) (fun t '(address, account) => write_account t address account)
             (fun v _ => v)).
  - by destruct (list_to_map l !! a).
  - intros t' k v k'. apply write_account_lookup.
  - done.
Qed.

(** ** The history *)

Section append.
Context {K V : Type} (kcmp : K → K → comparison) (vcmp : V → V → comparison).

Definition before (a b : K * V) : Prop :=
  kcmp a.1 b.1 = Lt ∨ kcmp a.1 b.1 = Eq ∧ vcmp a.2 b.2 = Lt.

Lemma append_dup_last k v t :
  (∀ e, e ∈ t → before e (k, v)) → append_dup kcmp vcmp k v t = Ok (t ++ [(k, v)]).
Proof.
  induction t as [|[k' v'] t IH]; intros Hb; [done|]. cbn [append_dup].
  destruct (Hb (k', v') (list_elem_of_here _ _)) as [Hk|[Hk Hv]]; cbn in *; rewrite Hk, ?Hv;
    rewrite IH by (intros e He; apply Hb; by right); done.
Qed.

Lemma append_all l t :
  StronglySorted before l → (∀ e f, e ∈ t → f ∈ l → before e f) →
  res_foldl (fun t '(k, v) => append_dup kcmp vcmp k v t) t l = Ok (t ++ l).
Proof.
  intros Hs. revert t. induction Hs as [|[k v] l Hs IH Hl]; intros t Ht; cbn [res_foldl].
  - by rewrite app_nil_r.
  - rewrite append_dup_last by (intros e He; apply Ht; [done|left]). rewrite ok_bind.
    rewrite IH; [by rewrite <- app_assoc|]. rewrite Forall_forall in Hl.
    intros e f [He| ->%list_elem_of_singleton]%elem_of_app Hf; [apply Ht; [done|by right]|by apply Hl].
Qed.
End append.

Lemma join_sorted {A B} (Q : A → A → Prop) (R : B → B → Prop) (f : A → list B) (l : list A) :
  StronglySorted Q l → (∀ a, a ∈ l → StronglySorted R (f a)) →
  (∀ a a' b b', a ∈ l → a' ∈ l → Q a a' → b ∈ f a → b' ∈ f a' → R b b') →
  StronglySorted R (mjoin (f <$> l)).
Proof.
  induction 1 as [|a l Hs IH Hl]; intros Hin Hcross; [constructor|]. cbn.
  apply StronglySorted_app. split_and!.
  - intros b b' Hb Hb'. apply list_elem_of_join in Hb' as (l' & Hb' & Hl').
    apply list_elem_of_fmap in Hl' as (a' & -> & Ha'). rewrite Forall_forall in Hl.
    apply (Hcross a a'); [by left|by right|by apply Hl|done|done].
  - apply Hin. left.
  - apply IH; [intros; apply Hin; by right|]. intros a1 a2 b1 b2 ??. apply Hcross; by right.
Qed.

Lemma fmap_sorted {A B} (R : A → A → Prop) (S : B → B → Prop) (f : A → B) l :
  StronglySorted R l → (∀ a b, a ∈ l → b ∈ l → R a b → S (f a) (f b)) → StronglySorted S (f <$> l).
Proof.
  induction 1 as [|a l Hs IH Hl]; intros Hf; [constructor|]. cbn. constructor.
  - apply IH. intros; apply Hf; [by right|by right|done].
  - apply Forall_forall. intros b (a' & -> & Ha')%list_elem_of_fmap.
    apply Hf; [left|by right|]. by eapply Forall_forall in Hl.
Qed.

(** The recorded changes and logs are of later blocks than what the tables
    hold, and their keys are addresses and locations. *)
Record history_fits (b : Buffer) : Prop := {
  fit_accounts n m e : account_changes b !! n = Some m → e ∈ AccountChangeSet (txn b) → e.1 < n;
  fit_storage n m e : storage_changes b !! n = Some m → e ∈ StorageChangeSet (txn b) → e.1.1 < n;
  fit_logs n m e : logs b !! n = Some m → e ∈ Log_ (txn b) → e.1.1 < n;
  fit_addresses n m a x : account_changes b !! n = Some m → m !! a = Some x → fits ADDRESS_LENGTH a;
  fit_locations n m a s l x : storage_changes b !! n = Some m → m !! a = Some s → s !! l = Some x →
    fits KECCAK_LENGTH l
}.

Lemma elem_of_account_entries b n a x :
  (n, (a, x)) ∈ account_entries b ↔ ∃ m, account_changes b !! n = Some m ∧ m !! a = Some x.
Proof.
  unfold account_entries. rewrite list_elem_of_join. split.
  - intros (l & Hin & Hl). apply list_elem_of_fmap in Hl as ([n' m] & -> & Hm).
    apply list_elem_of_fmap in Hin as (e & [= -> <-] & He).
    apply elem_of_entries in Hm. apply elem_of_entries in He. eauto.
  - intros (m & Hm & Ha). exists ((fun e => (n, e)) <$> entries m). split.
    + by apply list_elem_of_fmap_2, elem_of_entries.
    + apply list_elem_of_fmap. exists (n, m). split; [done|by apply elem_of_entries].
Qed.

Lemma elem_of_storage_entries b n a l v :
  ((n, a), (l, v)) ∈ storage_entries b
  ↔ ∃ m s, storage_changes b !! n = Some m ∧ m !! a = Some s ∧ s !! l = Some v.
Proof.
  unfold storage_entries. rewrite list_elem_of_join. split.
  - intros (l1 & Hin & Hl). apply list_elem_of_fmap in Hl as ([n' m] & -> & Hm).
    apply list_elem_of_join in Hin as (l2 & Hin & Hl2). apply list_elem_of_fmap in Hl2 as ([a' s] & -> & Hs).
    apply list_elem_of_fmap in Hin as (e & [= -> -> <-] & He).
    apply elem_of_entries in Hm, Hs, He. eauto.
  - intros (m & s & Hm & Hs & Hl). eexists. split.
    2: { apply list_elem_of_fmap. exists (n, m). split; [reflexivity|by apply elem_of_entries]. }
    apply list_elem_of_join. exists ((fun e => ((n, a), e)) <$> entries s). split.
    + by apply list_elem_of_fmap_2, elem_of_entries.
    + apply list_elem_of_fmap. exists (a, s). split; [done|by apply elem_of_entries].
Qed.

Lemma account_change_before a a' x x' :
  fits ADDRESS_LENGTH a → fits ADDRESS_LENGTH a' → a < a' →
  account_change_compare (a, x) (a', x') = Lt.
Proof.
  intros Ha Ha' Hlt. unfold account_change_compare, account_change_object. cbn [encode].
  rewrite bytes_cmp_fixed by by rewrite !(fixed_length (t := address_object)).
  unfold address_object. rewrite fixed_ordered by done. by rewrite (proj2 (Z.compare_lt_iff a a')).
Qed.

Lemma storage_change_before l l' v v' :
  fits KECCAK_LENGTH l → fits KECCAK_LENGTH l' → l < l' →
  storage_change_compare (l, v) (l', v') = Lt.
Proof.
  intros Hl Hl' Hlt. unfold storage_change_compare, storage_change_object. cbn [encode].
  rewrite bytes_cmp_fixed by by rewrite !(fixed_length (t := h256_object)).
  unfold h256_object. rewrite fixed_ordered by done. by rewrite (proj2 (Z.compare_lt_iff l l')).
Qed.

Lemma account_entries_sorted b :
  history_fits b → StronglySorted (before Z.compare account_change_compare) (account_entries b).
Proof.
  intros Hfit. unfold account_entries. eapply join_sorted; [apply entries_sorted|..].
  - intros [n m] Hm%elem_of_entries. eapply fmap_sorted; [apply entries_sorted|].
    intros [a x] [a' x'] Ha%elem_of_entries Ha'%elem_of_entries Hlt. right. cbn in *.
    split; [apply Z.compare_refl|]. apply account_change_before; [by eapply fit_addresses..|done].
  - intros [n m] [n' m'] e e' _ _ Hlt (x & -> & _)%list_elem_of_fmap (x' & -> & _)%list_elem_of_fmap.
    left. cbn in *. by apply Z.compare_lt_iff.
Qed.

Lemma storage_entries_sorted b :
  history_fits b → StronglySorted (before pair_compare storage_change_compare) (storage_entries b).
Proof.
  intros Hfit. unfold storage_entries. eapply join_sorted; [apply entries_sorted|..].
  - intros [n m] Hm%elem_of_entries. eapply join_sorted; [apply entries_sorted|..].
    + intros [a s] Hs%elem_of_entries. eapply fmap_sorted; [apply entries_sorted|].
      intros [l v] [l' v'] Hl%elem_of_entries Hl'%elem_of_entries Hlt. right. cbn in *.
      split; [unfold pair_compare, lex; cbn; by rewrite !Z.compare_refl|].
      apply storage_change_before; [by eapply fit_locations..|done].
    + intros [a s] [a' s'] e e' _ _ Hlt (x & -> & _)%list_elem_of_fmap (x' & -> & _)%list_elem_of_fmap.
      left. unfold pair_compare, lex. cbn in *. rewrite Z.compare_refl. by apply Z.compare_lt_iff.
  - intros [n m] [n' m'] [[n1 a1] e1] [[n2 a2] e2] _ _ Hlt Hin1 Hin2.
    apply list_elem_of_join in Hin1 as (l1 & Hin1 & Hl1). apply list_elem_of_fmap in Hl1 as ([a s] & -> & _).
    apply list_elem_of_fmap in Hin1 as (x & [= -> -> ->] & _).
    apply list_elem_of_join in Hin2 as (l2 & Hin2 & Hl2). apply list_elem_of_fmap in Hl2 as ([a' s'] & -> & _).
    apply list_elem_of_fmap in Hin2 as (x' & [= -> -> ->] & _).
    left. unfold pair_compare, lex. cbn in *. by rewrite (proj2 (Z.compare_lt_iff n n')).
Qed.

Definition log_before (a b : (Z * Z) * list Log) : Prop := pair_compare a.1 b.1 = Lt.

Lemma append_log_all l t :
  StronglySorted log_before l → (∀ e f, e ∈ t → f ∈ l → log_before e f) →
  res_foldl (fun t '(k, v) => append_log k v t) t l = Ok (t ++ l).
Proof.
  intros Hs. revert t. induction Hs as [|[k v] l Hs IH Hl]; intros t Ht; cbn [res_foldl].
  - by rewrite app_nil_r.
  - assert (append_log k v t = Ok (t ++ [(k, v)])) as ->.
    { unfold append_log. destruct (last t) as [[k' v']|] eqn:E.
      - assert (log_before (k', v') (k, v)) as Hb.
        { apply Ht; [|left]. apply last_Some in E as [t' ->]. apply elem_of_app. right. left. }
        unfold log_before in Hb. cbn in Hb. by rewrite Hb.
      - apply last_None in E as ->. done. }
    rewrite ok_bind, IH; [by rewrite <- app_assoc|].
    intros e f [He| ->%list_elem_of_singleton]%elem_of_app Hf; [apply Ht; [done|by right]|].
    by eapply Forall_forall in Hl.
Qed.

Lemma log_entries_block b e : e ∈ log_entries b → ∃ m, logs b !! e.1.1 = Some m.
Proof.
  unfold log_entries. intros (l & Hin & Hl)%list_elem_of_join.
  apply list_elem_of_fmap in Hl as ([n m] & -> & Hm). apply list_elem_of_fmap in Hin as ([i x] & -> & _).
  exists m. by apply elem_of_entries.
Qed.

Lemma log_entries_sorted b : StronglySorted log_before (log_entries b).
Proof.
  unfold log_entries. eapply join_sorted; [apply entries_sorted|..].
  - intros [n m] _. eapply fmap_sorted; [apply entries_sorted|].
    intros [i x] [i' x'] _ _ Hlt. unfold log_before, pair_compare, lex. cbn in *.
    rewrite Z.compare_refl. by apply Z.compare_lt_iff.
  - intros [n m] [n' m'] e e' _ _ Hlt ([i x] & -> & _)%list_elem_of_fmap ([i' x'] & -> & _)%list_elem_of_fmap.
    unfold log_before, pair_compare, lex. cbn in *. by rewrite (proj2 (Z.compare_lt_iff n n')).
Qed.

Definition with_history (b : Buffer) : Database :=
  set_AccountChangeSet (AccountChangeSet (txn b) ++ account_entries b)
    (set_StorageChangeSet (StorageChangeSet (txn b) ++ storage_entries b)
       (set_Log_ (Log_ (txn b) ++ log_entries b) (txn b))).

Lemma write_history_ok b :
  history_fits b →
  write_history b
  = Ok (with_txn (with_history b) (with_logs ∅ (with_storage_changes ∅ (with_account_changes ∅ b)))).
Proof.
  intros Hfit. unfold write_history.
  rewrite (append_all Z.compare account_change_compare (account_entries b)).
  2: by apply account_entries_sorted.
  2: { intros e [n [a x]] He (m & Hm & _)%elem_of_account_entries. left. cbn.
       apply Z.compare_lt_iff. by eapply fit_accounts. }
  rewrite ok_bind, (append_all pair_compare storage_change_compare (storage_entries b)).
  2: by apply storage_entries_sorted.
  2: { intros e [[n a] [l v]] He (m & s & Hm & _)%elem_of_storage_entries. left.
       assert (e.1.1 < n) as Hlt by by eapply fit_storage.
       unfold pair_compare, lex. cbn. by rewrite (proj2 (Z.compare_lt_iff e.1.1 n)). }
  rewrite ok_bind, append_log_all.
  - done.
  - apply log_entries_sorted.
  - intros e f He [m Hm]%log_entries_block. assert (e.1.1 < f.1.1) as Hlt by by eapply fit_logs.
    unfold log_before, pair_compare, lex. by rewrite (proj2 (Z.compare_lt_iff e.1.1 f.1.1)).
Qed.

(** The tables after a flush. *)
Definition flushed (b : Buffer) : Database :=
  set_Code (hash_to_code b ∪ Code (txn b))
    (set_Storage_ (write_storage (entries (storage_of b)) (Storage_ (txn b)))
       (set_Account_ (write_accounts (entries (accounts b)) (Account_ (txn b))) (with_history b))).

Lemma write_to_db_ok b : history_fits b → write_to_db b = Ok (flushed b).
Proof. intros Hfit. unfold write_to_db. by rewrite write_history_ok, ok_bind. Qed.

Lemma flushed_account b a : Account_ (flushed b) !! a = default (Account_ (txn b) !! a) (accounts b !! a).
Proof.
  unfold flushed. cbn. rewrite write_accounts_lookup by apply entries_nodup.
  by rewrite list_to_map_entries.
Qed.

Lemma flushed_slot b a l :
  functional (Storage_ (txn b)) →
  functional (Storage_ (flushed b))
  ∧ slot_at (Storage_ (flushed b)) a l = overlay_at (storage_of b !! a) (slot_at (Storage_ (txn b)) a l) l.
Proof.
  intros Hf. unfold flushed. cbn.
  destruct (write_storage_ok (entries (storage_of b)) (Storage_ (txn b)) Hf) as [Hf' Hs]; [apply entries_nodup|].
  split; [done|]. rewrite Hs. by rewrite list_to_map_entries.
Qed.

(** C15. A flush writes exactly what the buffer shows: it succeeds on a
    buffer whose changes are of later blocks than the history, every
    account, slot and code then reads from the tables as it read from the
    buffer, erased storage and deleted accounts included, every slot keeps
    one value, and the history is extended by the recorded changes in
    order. *)
Theorem flush_writes_view b
  (Hnow : historical_block b = None) (Hf : functional (Storage_ (txn b))) (Hfit : history_fits b) :
  ∃ d, write_to_db b = Ok d
    ∧ (∀ a, read_account b a = Ok (Account_ d !! a))
    ∧ (∀ a l, read_storage b a l = Ok (storage.read d a l None))
    ∧ (∀ h, read_code b h = Ok (default [] (Code d !! h)))
    ∧ functional (Storage_ d)
    ∧ AccountChangeSet d = AccountChangeSet (txn b) ++ account_entries b
    ∧ StorageChangeSet d = StorageChangeSet (txn b) ++ storage_entries b.
Proof.
  exists (flushed b). split; [by apply write_to_db_ok|]. split_and!; [| | | |done|done].
  - intros a. rewrite flushed_account. unfold read_account. rewrite Hnow. by destruct (accounts b !! a).
  - intros a l. unfold read_storage. rewrite Hnow.
    change (storage.read (flushed b) a l None) with (slot_at (Storage_ (flushed b)) a l).
    change (storage.read (txn b) a l None) with (slot_at (Storage_ (txn b)) a l).
    rewrite (proj2 (flushed_slot b a l Hf)). unfold overlay_at.
    destruct (storage_of b !! a) as [o|]; [|done]. by destruct (slots o !! l).
  - intros h. unfold read_code. cbn. rewrite lookup_union.
    destruct (hash_to_code b !! h), (Code (txn b) !! h); done.
  - by apply (flushed_slot b 0 0).
Qed.

(** A buffer over two accounts and two slots, with a deleted account, an
    erased storage and a new slot. *)
Definition demo_database : Database :=
  mkDatabase ∅ ∅ ∅ ∅ ∅ ∅ ∅ ∅ ∅ (<[1 := mkAccount 1 10 EMPTY_HASH]> (<[2 := mkAccount 2 20 EMPTY_HASH]> ∅))
    {[(1, (5, 50)); (2, (6, 60))]} ∅ [] [] [] [] [] [] ∅ ∅ ∅ ∅ ∅ [] [] ∅ None.

Definition demo_buffer : Buffer :=
  let b := begin_block 7 (new_buffer demo_database 0 None) in
  let b := match erase_storage 2 b with Ok b => b | _ => b end in
  let b := match update_storage 1 9 0 90 b with Ok b => b | _ => b end in
  update_account 2 (Some (mkAccount 2 20 EMPTY_HASH)) None b.

Lemma flush_writes_view_witness :
  ∃ d, write_to_db demo_buffer = Ok d
    ∧ (∀ a, read_account demo_buffer a = Ok (Account_ d !! a))
    ∧ (∀ a l, read_storage demo_buffer a l = Ok (storage.read d a l None))
    ∧ (∀ h, read_code demo_buffer h = Ok (default [] (Code d !! h)))
    ∧ functional (Storage_ d)
    ∧ AccountChangeSet d = AccountChangeSet (txn demo_buffer) ++ account_entries demo_buffer
    ∧ StorageChangeSet d = StorageChangeSet (txn demo_buffer) ++ storage_entries demo_buffer.
Proof.
  apply flush_writes_view.
  - done.
  - change (functional {[(1, (5, 50)); (2, (6, 60))]}). intros a l v v'.
    rewrite !elem_of_union, !elem_of_singleton. intros [[= -> -> ->]|[= -> -> ->]] [[=]|[=]]; congruence.
  - split.
    + intros n m e _ He. change (e ∈ []) in He. by apply elem_of_nil in He.
    + intros n m e _ He. change (e ∈ []) in He. by apply elem_of_nil in He.
    + intros n m e _ He. change (e ∈ []) in He. by apply elem_of_nil in He.
    + intros n m a x Hm Ha.
      change (account_changes demo_buffer)
        with ({[7 := {[2 := Some (mkAccount 2 20 EMPTY_HASH)]}]} : gmap Z (gmap Z (option Account))) in Hm.
      apply lookup_singleton_Some in Hm as [<- <-]. apply lookup_singleton_Some in Ha as [<- _].
      by unfold fits.
    + intros n m a s l x Hm Hs Hl. assert (l = 6 ∨ l = 9) as [-> | ->]; [|by unfold fits..].
      apply (elem_of_map_to_list (M := gmap Z)) in Hm. vm_compute in Hm.
      apply list_elem_of_singleton in Hm. injection Hm as -> ->.
      apply (elem_of_map_to_list (M := gmap Z)) in Hs. vm_compute in Hs.
      apply elem_of_cons in Hs as [Hs|Hs]; [|apply list_elem_of_singleton in Hs];
        injection Hs as -> ->; apply (elem_of_map_to_list (M := gmap Z)) in Hl; vm_compute in Hl;
        apply list_elem_of_singleton in Hl; injection Hl as -> _; auto.
Defined.
