(* ===== verification/StateUnwind.v ===== *)
(** * StateUnwind

    [Execution::unwind] (src/src/stages/execution.rs): the tables of the
    state taken back to an earlier block with the backward changes of the
    history; what it restores, and what it does not. *)

From stdpp Require Import sorting.
From S2P Require Import Prelude Words Errors Account Transaction Block StateTrait IntraBlockState BytesOrder TableCodecs Database Accessors Buffer BufferFlush.

(** ** The loops of [unwind]

    Each takes the last entry of a table until its block is at or before
    [to]; the lists are in reverse order, the rest is what stays. *)

Definition restore_account (address : Z) (account : option Account) (t : gmap Z Account) : gmap Z Account :=
  match account with
  | Some a => <[address := a]> t
  | None => delete_sought address t
  end.

Fixpoint unwind_accounts (to : Z) (changes : list (Z * (Z * option Account))) (t : gmap Z Account) :
    gmap Z Account * list (Z * (Z * option Account)) :=
  match changes with
  | [] => (t, [])
  | (block_number, (address, account)) :: rest =>
      if block_number <=? to then (t, changes)
      else unwind_accounts to rest (restore_account address account t)
  end.

Fixpoint unwind_storage (to : Z) (changes : list ((Z * Z) * (Z * Z))) (t : DupSlots) :
    DupSlots * list ((Z * Z) * (Z * Z)) :=
  match changes with
  | [] => (t, [])
  | ((block_number, address), (location, value)) :: rest =>
      if block_number <=? to then (t, changes)
      else unwind_storage to rest (upsert_storage_value address location value t)
  end.

Fixpoint unwind_logs (to : Z) (ls : list ((Z * Z) * list Log)) : list ((Z * Z) * list Log) :=
  match ls with
  | [] => []
  | ((block_number, _), _) :: rest => if block_number <=? to then ls else unwind_logs to rest
  end.

(** [delete_current_duplicates] takes all the entries of a block at once;
    here they go one by one. *)
Fixpoint unwind_call_traces (to : Z) (ts : list (Z * CallTraceSetEntry)) : list (Z * CallTraceSetEntry) :=
  match ts with
  | [] => []
  | (block_number, _) :: rest => if block_number <=? to then ts else unwind_call_traces to rest
  end.

Definition unwind (unwind_to : Z) (d : Database) : Database :=
  let '(accounts, acs) := unwind_accounts unwind_to (reverse (AccountChangeSet d)) (Account_ d) in
  let d := set_AccountChangeSet (reverse acs) (set_Account_ accounts d) in
  let '(slots, scs) := unwind_storage unwind_to (reverse (StorageChangeSet d)) (Storage_ d) in
  let d := set_StorageChangeSet (reverse scs) (set_Storage_ slots d) in
  let d := set_Log_ (reverse (unwind_logs unwind_to (reverse (Log_ d)))) d in
  set_CallTraceSet (reverse (unwind_call_traces unwind_to (reverse (CallTraceSet d)))) d.

(** ** What the recorded changes restore *)

(** The values recorded for an address, the oldest first. *)
Definition values_of (a : Z) (changes : list (Z * (Z * option Account))) : list (option Account) :=
  omap (fun e => if e.2.1 =? a then Some e.2.2 else None) changes.

(** An account that did not exist before a change does after it. *)
Fixpoint created (values : list (option Account)) (final : option Account) : Prop :=
  match values with
  | [] => True
  | v :: values =>
      (v = None → default final (head values) ≠ None) ∧ created values final
  end.

Lemma delete_sought_present {V} (t : gmap Z V) k : is_Some (t !! k) → delete_sought k t = delete k t.
Proof.
  intros [v Hv]. unfold delete_sought, seek_from.
  pose proof (entries_sorted t) as Hs. apply elem_of_entries in Hv.
  apply list_elem_of_split in Hv as (l1 & l2 & Hl). rewrite Hl in *.
  rewrite filter_app, filter_cons, decide_True by (cbn; lia).
  assert (filter (fun e => k ≤ e.1) l1 = []) as ->; [|done].
  apply StronglySorted_app in Hs as (Hlt & _ & _).
  assert (∀ e, e ∈ l1 → e.1 < k) as Hl1 by (intros e He; apply (Hlt e (k, v)); [done|left]).
  clear -Hl1. induction l1 as [|e l IH]; [done|].
  rewrite filter_cons, decide_False by (specialize (Hl1 e (list_elem_of_here _ _)); lia).
  apply IH. intros f Hf. apply Hl1. by right.
Qed.

Lemma values_of_snoc a l b a' x :
  values_of a (l ++ [(b, (a', x))]) = values_of a l ++ (if a' =? a then [x] else []).
Proof. unfold values_of. rewrite omap_app. cbn. by destruct (a' =? a). Qed.

Lemma created_snoc l x final : created (l ++ [x]) final ↔ created l x ∧ (x = None → final ≠ None).
Proof.
  induction l as [|v l IH]; cbn; [tauto|]. rewrite IH. by destruct l; cbn; tauto.
Qed.

Lemma restore_account_lookup a x t a' :
  (x = None → t !! a ≠ None) → restore_account a x t !! a' = if decide (a' = a) then x else t !! a'.
Proof.
  intros Hx. unfold restore_account. destruct x as [x|].
  - case_decide as E; [subst a'; by rewrite lookup_insert_eq|by rewrite lookup_insert_ne].
  - rewrite delete_sought_present by (destruct (t !! a) eqn:E; [by eexists|by destruct (Hx eq_refl)]).
    case_decide as E; [subst a'; by rewrite lookup_delete_eq|by rewrite lookup_delete_ne].
Qed.

(** The changes after [to] give every address its oldest value. *)
Lemma unwind_accounts_ok to l0 l t :
  (∀ e, e ∈ l0 → e.1 ≤ to) → (∀ e, e ∈ l → to < e.1) → (∀ a, created (values_of a l) (t !! a)) →
  ∃ t', unwind_accounts to (reverse (l0 ++ l)) t = (t', reverse l0)
    ∧ ∀ a, t' !! a = default (t !! a) (head (values_of a l)).
Proof.
  intros H0. revert t. induction l as [|[b [a x]] l IH] using rev_ind; intros t Hl Hc.
  - rewrite app_nil_r. exists t. split; [|done]. destruct (reverse l0) as [|[b [a x]] rest] eqn:E; [done|].
    cbn. assert (b ≤ to) as Hb.
    { apply (H0 (b, (a, x))). apply elem_of_reverse. rewrite E. left. }
    by rewrite (proj2 (Z.leb_le b to)).
  - rewrite app_assoc, reverse_snoc. cbn [unwind_accounts].
    assert (to < b) as Hb by (apply (Hl (b, (a, x))), elem_of_app; right; left).
    rewrite (proj2 (Z.leb_gt b to)) by done.
    assert (x = None → t !! a ≠ None) as Hx.
    { specialize (Hc a). rewrite values_of_snoc, Z.eqb_refl, created_snoc in Hc. by apply Hc. }
    destruct (IH (restore_account a x t)) as (t' & Hrun & Ht').
    + intros e He. apply Hl, elem_of_app. by left.
    + intros a'. specialize (Hc a'). rewrite values_of_snoc in Hc. rewrite restore_account_lookup by done.
      destruct (Z.eqb_spec a a') as [->|Hne].
      * rewrite decide_True by done. by apply created_snoc in Hc as [? _].
      * rewrite decide_False by done. by rewrite app_nil_r in Hc.
    + exists t'. split; [done|]. intros a'. rewrite Ht', values_of_snoc, restore_account_lookup by done.
      destruct (Z.eqb_spec a a') as [->|Hne].
      * rewrite decide_True by done. by destruct (values_of a' l).
      * rewrite decide_False by done. by rewrite app_nil_r.
Qed.

(** The same for slots, whose undoing is exact. *)
Definition slot_values (a k : Z) (changes : list ((Z * Z) * (Z * Z))) : list Z :=
  omap (fun e => if decide (e.1.2 = a ∧ e.2.1 = k) then Some e.2.2 else None) changes.

Lemma unwind_storage_ok to l0 l t :
  (∀ e, e ∈ l0 → e.1.1 ≤ to) → (∀ e, e ∈ l → to < e.1.1) → functional t →
  ∃ t', unwind_storage to (reverse (l0 ++ l)) t = (t', reverse l0) ∧ functional t'
    ∧ ∀ a k, slot_at t' a k = default (slot_at t a k) (head (slot_values a k l)).
Proof.
  intros H0. revert t. induction l as [|[[b a] [k x]] l IH] using rev_ind; intros t Hl Hf.
  - rewrite app_nil_r. exists t. split; [|done]. destruct (reverse l0) as [|[[b a] [k x]] rest] eqn:E; [done|].
    cbn. assert (b ≤ to) as Hb.
    { apply (H0 ((b, a), (k, x))). apply elem_of_reverse. rewrite E. left. }
    by rewrite (proj2 (Z.leb_le b to)).
  - rewrite app_assoc, reverse_snoc. cbn [unwind_storage].
    assert (to < b) as Hb by (apply (Hl ((b, a), (k, x))), elem_of_app; right; left).
    rewrite (proj2 (Z.leb_gt b to)) by done.
    destruct (IH (upsert_storage_value a k x t)) as (t' & Hrun & Hf' & Ht').
    + intros e He. apply Hl, elem_of_app. by left.
    + by apply upsert_functional.
    + exists t'. split; [done|]. split; [done|]. intros a' k'. rewrite Ht', slot_at_upsert by done.
      unfold slot_values. rewrite omap_app. cbn.
      destruct (decide (a = a' ∧ k = k')) as [[-> ->]|Hne].
      * rewrite decide_True by done. by destruct (omap _ l).
      * rewrite decide_False by naive_solver. by rewrite app_nil_r.
Qed.

(** ** The flaw of [seek]

    A block that touches an account which does not exist, and is still empty
    at its end, records the absent account as changed. *)

Definition bystander_database : Database :=
  mkDatabase ∅ ∅ ∅ ∅ ∅ ∅ ∅ ∅ ∅ {[9 := mkAccount 1 100 EMPTY_HASH]} ∅ ∅ [] [] [] [] [] [] ∅ ∅ ∅ ∅ ∅ [] [] ∅ None.

(** A transaction that sends nothing to account 5. *)
Definition touching_block : M Buffer unit :=
  IntraBlockState.add_to_balance 5 0;;
  IntraBlockState.destruct_touched_dead;;
  IntraBlockState.finalize_transaction.

Definition touched_block : result Database :=
  '(_, st) ← touching_block (IntraBlockState.new (new_buffer bystander_database 0 None));
  b ← IntraBlockState.write_to_db st 1;
  write_to_db b.

(** Flaw of [Execution::unwind]: for an account that did not exist it
    seeks the first account at or behind the address and deletes what it
    finds. Unwinding a block that sends nothing to the absent account 5
    deletes account 9, which the block never read. *)
Theorem touched_account_unwind :
  ∃ d, touched_block = Ok d
    ∧ Account_ d = Account_ bystander_database
    ∧ AccountChangeSet d = [(1, (5, None))]
    ∧ Account_ (unwind 0 d) !! 9 = None.
Proof.
  assert (is_ok touched_block = true) as Hok by (vm_compute; reflexivity).
  destruct touched_block as [d| |] eqn:H; [|discriminate Hok..].
  exists d. split; [done|]. vm_compute in H. injection H as <-. vm_compute. by split_and!.
Qed.
