(* ===== verification/Batch.v ===== *)
(** * Batch

    A batch of blocks executed over a buffer, flushed and unwound: the
    composition of [IntraBlockState::write_to_db], the buffer that records
    the changes, its flush and [Execution::unwind]. *)

From stdpp Require Import sorting.
From S2P Require Import Prelude Words Errors Account Transaction Block StateTrait IntraBlockState Journal View Commit BytesOrder TableCodecs Database Accessors Buffer BufferFlush StateUnwind.

(** ** The recorded values, the oldest first *)

Lemma entries_insert_last {V} (t : gmap Z V) n m :
  (∀ k, is_Some (t !! k) → k ≤ n) → entries (<[n := m]> t) = entries (delete n t) ++ [(n, m)].
Proof.
  intros Hn. assert (AntiSymm (=) (fun a b : Z * V => a.1 < b.1)) by (intros a b ??; lia).
  apply (StronglySorted_unique (fun a b : Z * V => a.1 < b.1)).
  - apply entries_sorted.
  - apply StronglySorted_app. split_and!; [|apply entries_sorted|repeat constructor].
    intros [k v] f Hk ->%list_elem_of_singleton. cbn.
    apply elem_of_entries, lookup_delete_Some in Hk as [Hne Hk]. specialize (Hn k). rewrite Hk in Hn.
    assert (k ≤ n) by (apply Hn; by eexists). lia.
  - rewrite !entries_perm, <- insert_delete_eq, map_to_list_insert by by rewrite lookup_delete_eq.
    apply Permutation_cons_append.
Qed.

(** What the oldest block that recorded a key recorded for it. *)
Definition history {V X} (sel : V → option X) (changes : gmap Z V) : list X :=
  omap (fun e => sel e.2) (entries changes).

Lemma history_split {V X} (sel : V → option X) (c : gmap Z V) n :
  (∀ k, is_Some (c !! k) → k ≤ n) →
  history sel c = history sel (delete n c) ++ option_list (c !! n ≫= sel).
Proof.
  intros Hn. unfold history. destruct (c !! n) as [m|] eqn:E.
  - rewrite <- (insert_id c n m E) at 1. rewrite entries_insert_last, omap_app by done.
    cbn. by destruct (sel m).
  - rewrite delete_id by done. by rewrite app_nil_r.
Qed.

Lemma omap_join {A B} (f : A → option B) (ll : list (list A)) : omap f (mjoin ll) = mjoin (omap f <$> ll).
Proof. 
  induction ll as [|l ll IH]; [done|]. change (mjoin (l :: ll)) with (l ++ mjoin ll).
  by rewrite omap_app, IH.
Qed.

Lemma omap_of_fmap {A B C} (f : B → option C) (g : A → B) (l : list A) : omap f (g <$> l) = omap (fun x => f (g x)) l.
Proof. induction l as [|x l IH]; [done|]. cbn. by rewrite IH. Qed.

Lemma join_ext_omap {A B} (g : A → list B) (f : A → option B) l :
  (∀ x, x ∈ l → g x = option_list (f x)) → mjoin (g <$> l) = omap f l.
Proof.
  induction l as [|x l IH]; intros Hx; [done|].
  change (mjoin (g <$> x :: l)) with (g x ++ mjoin (g <$> l)).
  rewrite (Hx x) by left. rewrite IH by (intros y Hy; apply Hx; by right).
  cbn. by destruct (f x).
Qed.

(** The entries of one key. *)
Lemma omap_key {V X} (f : Z * V → option X) k (m : gmap Z V) :
  (∀ k' v, k' ≠ k → f (k', v) = None) →
  omap f (entries m) = option_list (m !! k ≫= fun v => f (k, v)).
Proof.
  intros Hf. rewrite <- (list_to_map_entries m) at 2. pose proof (entries_nodup m) as Hnd.
  induction (entries m) as [|[k' v] l IH]; [done|]. cbn in Hnd. apply NoDup_cons in Hnd as [Hk Hnd].
  cbn. destruct (decide (k' = k)) as [->|Hne].
  - rewrite lookup_insert_eq. cbn. rewrite IH by done. rewrite not_elem_of_list_to_map_1 by done.
    cbn. by destruct (f (k, v)).
  - rewrite lookup_insert_ne by done. rewrite Hf by done. by apply IH.
Qed.

Lemma values_of_entries b a :
  values_of a (account_entries b) = history (fun m => m !! a) (account_changes b).
Proof.
  unfold values_of, account_entries, history. rewrite omap_join, <- list_fmap_compose.
  apply join_ext_omap. intros [n m] _. cbn. rewrite omap_of_fmap. cbn.
  rewrite (omap_key _ a) by (intros k v Hk; cbn; by rewrite (proj2 (Z.eqb_neq k a))).
  destruct (m !! a) as [x|]; [|done]. cbn. by rewrite Z.eqb_refl.
Qed.

Definition at_slot (a k : Z) (m : gmap Z (gmap Z Z)) : option Z := m !! a ≫= fun s => s !! k.

Lemma slot_values_entries b a k :
  slot_values a k (storage_entries b) = history (at_slot a k) (storage_changes b).
Proof.
  unfold slot_values, storage_entries, history. rewrite omap_join, <- list_fmap_compose.
  apply join_ext_omap. intros [n m] _. cbn. rewrite omap_join, <- list_fmap_compose.
  erewrite (join_ext_omap _ (fun e : Z * gmap Z Z => if decide (e.1 = a) then e.2 !! k else None)).
  - rewrite (omap_key _ a) by (intros k' v Hk; cbn; by rewrite decide_False).
    unfold at_slot. destruct (m !! a) as [s|]; [|done]. cbn. by rewrite decide_True.
  - intros [a' s] _. cbn. rewrite omap_of_fmap. cbn. destruct (decide (a' = a)) as [->|Hne].
    + rewrite (omap_key _ k) by (intros k' v Hk; cbn; by rewrite decide_False by naive_solver).
      destruct (s !! k) as [x|]; [|done]. cbn. by rewrite decide_True.
    + induction (entries s) as [|e l IH]; [done|]. cbn. by rewrite decide_False by naive_solver.
Qed.

(** ** What a buffer shows and what it has recorded for its block *)

Definition view_account (b : Buffer) (a : Z) : option Account := default (Account_ (txn b) !! a) (accounts b !! a).

Definition view_slot (b : Buffer) (a k : Z) : Z :=
  overlay_at (storage_of b !! a) (slot_at (Storage_ (txn b)) a k) k.

Definition rec_account (b : Buffer) (a : Z) : option (option Account) :=
  default ∅ (account_changes b !! block_number b) !! a.

Definition rec_slots (b : Buffer) (a : Z) : option (gmap Z Z) :=
  default ∅ (storage_changes b !! block_number b) !! a.

Definition rec_slot (b : Buffer) (a k : Z) : option Z := rec_slots b a ≫= fun s => s !! k.

Lemma read_account_view b a : historical_block b = None → Buffer.read_account b a = Ok (view_account b a).
Proof. intros Hh. unfold Buffer.read_account, view_account. rewrite Hh. by destruct (accounts b !! a). Qed.

Lemma read_storage_view b a k : historical_block b = None → Buffer.read_storage b a k = Ok (view_slot b a k).
Proof.
  intros Hh. unfold Buffer.read_storage, view_slot, overlay_at. rewrite Hh.
  destruct (storage_of b !! a) as [o|]; [|done]. by destruct (slots o !! k).
Qed.

(** What no write to a buffer changes within a block. *)
Definition frame_of (b : Buffer) := (txn b, prune_from b, historical_block b, block_number b, logs b).

(** The buffer [b] within the block that started at [b0]. *)
Record within (b0 b : Buffer) : Prop := {
  w_frame : frame_of b = frame_of b0;
  w_old_accounts : delete (block_number b0) (account_changes b) = delete (block_number b0) (account_changes b0);
  w_old_slots : delete (block_number b0) (storage_changes b) = delete (block_number b0) (storage_changes b0);
  w_account a :
    match rec_account b a with
    | None => view_account b a = view_account b0 a
    | Some x => x = view_account b0 a ∧ (x = None → view_account b a ≠ None) ∧ fits ADDRESS_LENGTH a
    end;
  w_slot a k :
    match rec_slot b a k with
    | None => view_slot b a k = view_slot b0 a k
    | Some x => x = view_slot b0 a k ∧ fits KECCAK_LENGTH k
    end;
  w_overlay a o k : storage_of b !! a = Some o → is_Some (slots o !! k) → fits KECCAK_LENGTH k
}.

Lemma frame_block b0 b : frame_of b = frame_of b0 → block_number b = block_number b0.
Proof. by intros [=]. Qed.

Lemma frame_prune b0 b : frame_of b = frame_of b0 → prune_from b = prune_from b0.
Proof. by intros [=]. Qed.

Lemma frame_txn b0 b : frame_of b = frame_of b0 → txn b = txn b0.
Proof. by intros [=]. Qed.

Lemma rec_slots_record a f b a' :
  rec_slots (record_slots a f b) a'
  = if decide (a' = a) then Some (f (default ∅ (rec_slots b a))) else rec_slots b a'.
Proof.
  unfold rec_slots, record_slots. cbn. rewrite lookup_insert_eq. cbn.
  case_decide; [subst; by rewrite lookup_insert_eq|by rewrite lookup_insert_ne].
Qed.

Lemma rec_slots_with_block n x b : n = block_number b → rec_slots (with_block n x b) = rec_slots b.
Proof. by intros ->. Qed.

Lemma within_update_account b0 b a initial current :
  within b0 b → prune_from b0 ≤ block_number b0 →
  initial = view_account b0 a → (initial = None → current ≠ None) → fits ADDRESS_LENGTH a →
  within b0 (Buffer.update_account a initial current b).
Proof.
  intros Hw Hp Hi Hc Hfit. unfold Buffer.update_account.
  destruct (_ && _ && _); [done|]. pose proof (w_frame _ _ Hw) as Hf.
  rewrite (frame_prune _ _ Hf), (frame_block _ _ Hf), (proj2 (Z.leb_le _ _)) by done.
  set (b1 := with_account_changes _ b).
  assert (∀ a', rec_account b1 a' = if decide (a' = a) then Some initial else rec_account b a') as Hrec.
  { intros a'. unfold rec_account. cbn. rewrite (frame_block _ _ Hf), lookup_insert_eq. cbn.
    case_decide; [subst a'; by rewrite lookup_insert_eq|by rewrite lookup_insert_ne]. }
  assert (∀ b2, frame_of b2 = frame_of b → account_changes b2 = account_changes b1 →
            storage_changes b2 = storage_changes b → storage_of b2 = storage_of b →
            view_account b2 a ≠ None ∨ initial ≠ None → (∀ a', a' ≠ a → view_account b2 a' = view_account b a') →
            within b0 b2) as Hgo.
  { intros b2 Hf2 Hc2 Hs2 Ho2 Hv Hv'. split.
    - by rewrite Hf2.
    - rewrite Hc2. cbn. rewrite delete_insert_eq. apply (w_old_accounts _ _ Hw).
    - rewrite Hs2. apply (w_old_slots _ _ Hw).
    - intros a'. assert (rec_account b2 a' = rec_account b1 a') as ->.
      { unfold rec_account. by rewrite Hc2, (frame_block _ _ Hf2). }
      rewrite Hrec. case_decide as E; [subst a'; split_and!; [done|tauto|done]|].
      rewrite Hv' by done. apply (w_account _ _ Hw).
    - intros a' k. assert (rec_slot b2 a' k = rec_slot b a' k) as ->.
      { unfold rec_slot, rec_slots. by rewrite Hs2, (frame_block _ _ Hf2). }
      assert (view_slot b2 a' k = view_slot b a' k) as ->.
      { unfold view_slot. by rewrite Ho2, (frame_txn _ _ Hf2). }
      apply (w_slot _ _ Hw).
    - rewrite Ho2. apply (w_overlay _ _ Hw). }
  case_bool_decide as Heq.
  - apply Hgo; try done. right. intros ->. by destruct (Hc eq_refl).
  - apply Hgo; try done.
    + destruct initial as [i|]; [by right|left]. unfold view_account. cbn. rewrite lookup_insert_eq. cbn. by apply Hc.
    + intros a' Hne. unfold view_account. cbn. by rewrite lookup_insert_ne.
Qed.

Lemma rec_slots_with_storage x b : rec_slots (with_storage x b) = rec_slots b.
Proof. done. Qed.

(** A write that records slots and replaces the overlay of one address. *)
Lemma within_slots b0 b b' a :
  within b0 b → frame_of b' = frame_of b → account_changes b' = account_changes b → accounts b' = accounts b →
  delete (block_number b0) (storage_changes b') = delete (block_number b0) (storage_changes b) →
  (∀ a', a' ≠ a → rec_slots b' a' = rec_slots b a' ∧ storage_of b' !! a' = storage_of b !! a') →
  (∀ k, match rec_slot b' a k with
        | None => view_slot b' a k = view_slot b0 a k
        | Some x => x = view_slot b0 a k ∧ fits KECCAK_LENGTH k
        end) →
  (∀ o k, storage_of b' !! a = Some o → is_Some (slots o !! k) → fits KECCAK_LENGTH k) →
  within b0 b'.
Proof.
  intros Hw Hf Hc Hacc Hs Hother Ha Ho. split.
  - rewrite Hf. apply (w_frame _ _ Hw).
  - rewrite Hc. apply (w_old_accounts _ _ Hw).
  - rewrite Hs. apply (w_old_slots _ _ Hw).
  - intros a'. pose proof (w_account _ _ Hw a') as H'. unfold rec_account, view_account in *.
    by rewrite Hc, Hacc, (frame_block _ _ Hf), (frame_txn _ _ Hf).
  - intros a' k. destruct (decide (a' = a)) as [->|Hne]; [apply Ha|].
    destruct (Hother a' Hne) as [Hr Hso]. pose proof (w_slot _ _ Hw a' k) as H'.
    unfold rec_slot, view_slot in *. by rewrite Hr, Hso, (frame_txn _ _ Hf).
  - intros a' o k. destruct (decide (a' = a)) as [->|Hne]; [apply Ho|].
    destruct (Hother a' Hne) as [_ ->]. apply (w_overlay _ _ Hw).
Qed.

Lemma within_update_storage b0 b a k initial current :
  within b0 b → prune_from b0 ≤ block_number b0 → initial = view_slot b0 a k → fits KECCAK_LENGTH k →
  ∃ b', Buffer.update_storage a k initial current b = Ok b' ∧ within b0 b'.
Proof.
  intros Hw Hp Hi Hfit. unfold Buffer.update_storage.
  destruct (Z.eqb_spec current initial) as [->|Hne]; [by eexists|].
  pose proof (w_frame _ _ Hw) as Hf.
  rewrite (frame_prune _ _ Hf), (frame_block _ _ Hf), (proj2 (Z.leb_le _ _)) by done.
  eexists; split; [reflexivity|]. cbn [record_slots with_storage_changes with_block storage_of].
  apply (within_slots b0 b _ a Hw); try done.
  - unfold frame_of. cbn. by rewrite (frame_block _ _ Hf).
  - cbn. by rewrite delete_insert_eq.
  - intros a' Ha'. cbn. rewrite lookup_insert_ne by done. split; [|done].
    unfold rec_slots. cbn. rewrite lookup_insert_eq, (frame_block _ _ Hf). cbn. by rewrite lookup_insert_ne.
  - intros k'. unfold rec_slot, rec_slots, view_slot. cbn.
    rewrite !lookup_insert_eq. cbn. rewrite lookup_insert_eq. cbn.
    pose proof (w_slot _ _ Hw a k') as Hk. unfold rec_slot, rec_slots, view_slot in Hk.
    rewrite (frame_block _ _ Hf) in Hk.
    destruct (decide (k' = k)) as [->|Hk']; [by rewrite lookup_insert_eq|]. rewrite lookup_insert_ne by done.
    destruct (default ∅ (storage_changes b !! block_number b0) !! a) as [s|] eqn:Es; cbn in Hk |- *.
    + destruct (s !! k'); [done|]. rewrite <- Hk. rewrite lookup_insert_ne by done.
      by destruct (storage_of b !! a) as [o|]; cbn; rewrite ?lookup_empty.
    + rewrite lookup_empty, <- Hk. rewrite lookup_insert_ne by done.
      by destruct (storage_of b !! a) as [o|]; cbn; rewrite ?lookup_empty.
  - intros o k'. cbn. rewrite lookup_insert_eq. intros [= <-]. cbn.
    destruct (decide (k' = k)) as [->|Hk']; [done|]. rewrite lookup_insert_ne by done. intros Hk.
    destruct (storage_of b !! a) as [o|] eqn:Eo; cbn in Hk; [by eapply w_overlay|].
    rewrite lookup_empty in Hk. by destruct Hk.
Qed.

Lemma insert_absent_spec l m k :
  match insert_absent l m !! k with
  | Some x => m !! k = Some x ∨ m !! k = None ∧ ∃ e, e ∈ l ∧ e.2 = (k, x)
  | None => m !! k = None ∧ ∀ e, e ∈ l → e.2.1 ≠ k
  end.
Proof.
  revert m. induction l as [|[a [k' x']] l IH]; intros m; cbn [insert_absent foldl].
  - destruct (m !! k); [by left|]. split; [done|]. intros e He. by apply elem_of_nil in He.
  - set (m' := match m !! _ with Some _ => _ | None => _ end). specialize (IH m').
    change (foldl _ m' l) with (insert_absent l m').
    assert (m' !! k = if decide (k' = k) then Some (default x' (m !! k)) else m !! k) as Hm'.
    { subst m'. cbn. case_decide as E; [subst k'|].
      - destruct (m !! k) eqn:Em; [by rewrite Em|by rewrite lookup_insert_eq].
      - destruct (m !! k'); [done|by rewrite lookup_insert_ne]. }
    rewrite Hm' in IH. destruct (insert_absent l m' !! k) as [x|].
    + case_decide as E; [subst k'|].
      * destruct IH as [IH|[IH _]]; [|done]. destruct (m !! k) as [y|]; [by left|right].
        split; [done|]. exists (a, (k, x')). split; [left|]. cbn in *. congruence.
      * destruct IH as [IH|(IH & e & He & Hx)]; [by left|right].
        split; [done|]. exists e. split; [by right|done].
    + case_decide as E; [by destruct IH|]. destruct IH as [IH Hl]. split; [done|].
      intros e [->|He]%elem_of_cons; [done|by apply Hl].
Qed.

(** The values of a table that are recorded when its slots are discarded. *)
Lemma insert_absent_walk t a m k :
  functional t →
  match insert_absent (walk_slots a t) m !! k with
  | Some x => m !! k = Some x ∨ (m !! k = None ∧ x = slot_at t a k ∧ (a, (k, x)) ∈ t)
  | None => m !! k = None ∧ slot_at t a k = 0
  end.
Proof.
  intros Hf. pose proof (insert_absent_spec (walk_slots a t) m k) as Hs.
  destruct (insert_absent _ m !! k) as [x|].
  - destruct Hs as [Hs|(Hm & [a' [k' x']] & He & [= -> ->])]; [by left|right]. split; [done|].
    apply elem_of_walk_slots in He as [Ha He]. cbn in Ha. subst a'.
    split; [|done]. unfold slot_at. apply seek_storage_key_spec in He; [|done]. by rewrite He.
  - destruct Hs as [Hm Hl]. split; [done|]. unfold slot_at.
    destruct (seek_storage_key a k t) as [v|] eqn:E; [|done].
    apply seek_storage_key_spec in E; [|done]. exfalso. apply (Hl (a, (k, v))); [|done].
    by apply elem_of_walk_slots.
Qed.

Definition locations_fit (t : DupSlots) : Prop := ∀ a k x, (a, (k, x)) ∈ t → fits KECCAK_LENGTH k.

(** What [erase_storage] records: all the values there are. *)
Lemma erased_record b0 b a m' :
  within b0 b → functional (Storage_ (txn b)) → locations_fit (Storage_ (txn b)) → rec_slots b a = None →
  m' = (match storage_of b !! a with
        | Some o => if erased o then slots o ∪ ∅
                    else insert_absent (walk_slots a (Storage_ (txn b))) (slots o ∪ ∅)
        | None => insert_absent (walk_slots a (Storage_ (txn b))) (∅ ∪ ∅)
        end) →
  ∀ k, match m' !! k with
       | Some x => x = view_slot b0 a k ∧ fits KECCAK_LENGTH k
       | None => view_slot b0 a k = 0
       end.
Proof.
  intros Hw Hf Hl Hr -> k. pose proof (w_slot _ _ Hw a k) as Hv. unfold rec_slot in Hv. rewrite Hr in Hv.
  cbn in Hv. rewrite <- Hv. unfold view_slot, overlay_at.
  assert (∀ m : gmap Z Z, m ∪ ∅ = m) as Hu by (intros m; apply (right_id_L ∅ (∪))).
  pose proof (λ o, w_overlay _ _ Hw a o k) as Hfit.
  destruct (storage_of b !! a) as [o|]; [destruct (erased o)|]; rewrite Hu; clear Hu.
  - destruct (slots o !! k) as [y|] eqn:E; [|done]. cbn. split; [done|]. apply (Hfit o); [done|by eexists].
  - pose proof (insert_absent_walk _ a (slots o) k Hf) as Hi.
    destruct (insert_absent _ (slots o) !! k) as [x|].
    + destruct Hi as [Hi|(Hn & -> & Hi)].
      * rewrite Hi. cbn. split; [done|]. apply (Hfit o); [done|by eexists].
      * rewrite Hn. cbn. split; [done|by eapply Hl].
    + by destruct Hi as [-> Hi].
  - pose proof (insert_absent_walk _ a ∅ k Hf) as Hi.
    destruct (insert_absent _ ∅ !! k) as [x|].
    + destruct Hi as [Hi|(_ & -> & Hi)]; [by rewrite lookup_empty in Hi|]. split; [done|by eapply Hl].
    + by destruct Hi as [_ ->].
Qed.

Lemma within_erase b0 b a :
  within b0 b → functional (Storage_ (txn b)) → locations_fit (Storage_ (txn b)) → rec_slots b a = None →
  ∃ b', Buffer.erase_storage a b = Ok b' ∧ within b0 b'
    ∧ ∀ a', a' ≠ a → rec_slots b' a' = rec_slots b a'.
Proof.
  intros Hw Hf Hl Hr.
  assert (∃ b', Buffer.erase_storage a b = Ok b' ∧ frame_of b' = frame_of b
    ∧ account_changes b' = account_changes b ∧ accounts b' = accounts b
    ∧ delete (block_number b) (storage_changes b') = delete (block_number b) (storage_changes b)
    ∧ storage_of b' = <[a := mkOverlay true ∅]> (storage_of b)
    ∧ (∀ a', rec_slots b' a' = if decide (a' = a) then Some
         (match storage_of b !! a with
          | Some o => if erased o then slots o ∪ ∅
                      else insert_absent (walk_slots a (Storage_ (txn b))) (slots o ∪ ∅)
          | None => insert_absent (walk_slots a (Storage_ (txn b))) (∅ ∪ ∅)
          end) else rec_slots b a')) as (b' & Hrun & Hfr & Hc & Hacc & Hd & Hso & Hrec).
  { unfold Buffer.erase_storage.
    destruct (storage_of b !! a) as [[e sl]|]; [destruct e|]; (eexists; split; [reflexivity|]); cbn;
      (split_and!; [done|done|done|by rewrite ?delete_insert_eq|done|]); intros a';
      repeat (rewrite rec_slots_record || rewrite rec_slots_with_storage);
      rewrite Hr, ?(decide_True (P := a = a)) by done; by destruct (decide (a' = a)). }
  exists b'. split; [done|]. split; [|intros a' Ha'; by rewrite Hrec, decide_False].
  rewrite (frame_block _ _ (w_frame _ _ Hw)) in Hd.
  apply (within_slots b0 b b' a Hw); try done.
  - intros a' Ha'. by rewrite Hrec, Hso, decide_False, lookup_insert_ne.
  - intros k. unfold rec_slot, view_slot. rewrite Hrec, Hso, lookup_insert_eq, decide_True by done. cbn.
    rewrite lookup_empty. cbn.
    pose proof (erased_record b0 b a _ Hw Hf Hl Hr eq_refl k) as Hk.
    by destruct (_ !! k).
  - intros o k. rewrite Hso, lookup_insert_eq. intros [= <-]. cbn. rewrite lookup_empty. by intros [].
Qed.

(** ** The blocks of a batch *)

(** An intra-block state over the buffer: the initial values are the
    buffer's, and no account is absent both before and after the block. *)
Record coherent (b : Buffer) (st : IntraBlockState.IntraBlockState Buffer) : Prop := {
  co_db : db st = b;
  co_account a o : objects st !! a = Some o →
    Buffer.read_account b a = Ok (obj_initial o) ∧ (obj_initial o = None → obj_current o ≠ None)
    ∧ fits ADDRESS_LENGTH a;
  co_slot a o x s k v : objects st !! a = Some o → obj_current o = Some x →
    storage st !! a = Some s → committed s !! k = Some v →
    Buffer.read_storage b a k = Ok (cv_initial v) ∧ fits KECCAK_LENGTH k
}.

(** A database whose history ends at [to]. *)
Record settled (d : Database) (to : Z) : Prop := {
  se_functional : functional (Storage_ d);
  se_locations : locations_fit (Storage_ d);
  se_accounts e : e ∈ AccountChangeSet d → e.1 ≤ to;
  se_storage e : e ∈ StorageChangeSet d → e.1.1 ≤ to;
  se_logs e : e ∈ Log_ d → e.1.1 ≤ to;
  se_traces e : e ∈ CallTraceSet d → e.1 ≤ to
}.

(** The blocks executed one after another, from block [to] on, without a
    flush in between. *)
Inductive batch (d : Database) (p to : Z) : Z → Buffer → Prop :=
| batch_start : batch d p to to (new_buffer d p None)
| batch_block last n b st receipts b' :
    batch d p to last b → last < n → p ≤ n → coherent b st →
    IntraBlockState.write_to_db st n = Ok b' → batch d p to n (insert_receipts n receipts b').

Record tracks (d : Database) (p to last : Z) (b : Buffer) : Prop := {
  tr_txn : txn b = d;
  tr_prune : prune_from b = p;
  tr_now : historical_block b = None;
  tr_last : to ≤ last;
  tr_accounts n : is_Some (account_changes b !! n) → to < n ≤ last;
  tr_slots n : is_Some (storage_changes b !! n) → to < n ≤ last;
  tr_logs n : is_Some (logs b !! n) → to < n ≤ last;
  tr_account a : let h := history (fun m => m !! a) (account_changes b) in
    default (view_account b a) (head h) = Account_ d !! a ∧ created h (view_account b a);
  tr_slot a k : default (view_slot b a k) (head (history (at_slot a k) (storage_changes b))) = slot_at (Storage_ d) a k;
  tr_address n m a x : account_changes b !! n = Some m → m !! a = Some x → fits ADDRESS_LENGTH a;
  tr_location n m a s k x : storage_changes b !! n = Some m → m !! a = Some s → s !! k = Some x →
    fits KECCAK_LENGTH k;
  tr_overlay a o k : storage_of b !! a = Some o → is_Some (slots o !! k) → fits KECCAK_LENGTH k
}.

Lemma within_refl b :
  account_changes b !! block_number b = None → storage_changes b !! block_number b = None →
  (∀ a o k, storage_of b !! a = Some o → is_Some (slots o !! k) → fits KECCAK_LENGTH k) → within b b.
Proof.
  intros Ha Hs Ho. split; try done.
  - intros a. unfold rec_account. rewrite Ha. cbn. by rewrite lookup_empty.
  - intros a k. unfold rec_slot, rec_slots. rewrite Hs. cbn. by rewrite lookup_empty.
Qed.

(** One block: [IntraBlockState::write_to_db] records, for every address
    and slot it changes, what the buffer showed before the block. *)
Lemma write_to_db_within b st n :
  coherent b st → historical_block b = None → prune_from b ≤ n →
  functional (Storage_ (txn b)) → locations_fit (Storage_ (txn b)) →
  account_changes b !! n = None → storage_changes b !! n = None →
  (∀ a o k, storage_of b !! a = Some o → is_Some (slots o !! k) → fits KECCAK_LENGTH k) →
  ∃ b', IntraBlockState.write_to_db st n = Ok b' ∧ within (Buffer.begin_block n b) b'.
Proof.
  intros [Hdb Hacc Hslot] Hnow Hp Hf Hl Hna Hns Ho. unfold IntraBlockState.write_to_db. rewrite Hdb. cbn.
  set (b0 := Buffer.begin_block n b).
  assert (within b0 b0) as H0 by by apply within_refl.
  destruct (map_loop (fun d '(address, incarnation) =>
      if 0 <? incarnation then Buffer.erase_storage address d else Ok d)
    (fun m d => within b0 d ∧ ∀ a, m !! a = None → rec_slots d a = None) (incarnations st) b0)
    as (b1 & Hrun1 & Hw1 & _).
  { split; [done|]. intros a _. unfold rec_slots. cbn. rewrite Hns. apply lookup_empty. }
  { intros m a i d Hm _ [Hw Hr]. destruct (0 <? i).
    - destruct (within_erase b0 d a) as (d' & Hrun & Hw' & Hr'); [done|..|by apply Hr|].
      + by rewrite (frame_txn _ _ (w_frame _ _ Hw)).
      + by rewrite (frame_txn _ _ (w_frame _ _ Hw)).
      + exists d'. split_and!; [done|done|]. intros a' [Hm' Hne]%lookup_insert_None.
        rewrite Hr' by done. by apply Hr.
    - exists d. split_and!; [done|done|]. intros a' [Hm' _]%lookup_insert_None. by apply Hr. }
  unfold write_incarnations. cbn in Hrun1 |- *. rewrite Hrun1. cbn.
  destruct (map_loop (fun d '(address, sto) =>
      match objects st !! address with
      | Some obj => match obj_current obj with
                    | Some _ => IntraBlockState.write_slots address (map_to_list (committed sto)) d
                    | None => Ok d end
      | None => Ok d end) (fun _ d => within b0 d) (storage st) b1) as (b2 & Hrun2 & Hw2); [done|..].
  { intros m a s d _ Hs Hw. destruct (objects st !! a) as [o|] eqn:Eo; [|by eexists].
    destruct (obj_current o) as [x|] eqn:Ex; [|by eexists].
    destruct (map_loop (fun d '(key, val) => Buffer.update_storage a key (cv_initial val) (cv_original val) d)
      (fun _ d => within b0 d) (committed s) d) as (d' & Hrun & Hw'); [done|..|by exists d'].
    intros m' k v d1 _ Hv Hw1'. destruct (Hslot a o x s k v) as [Hread Hfit]; try done.
    rewrite read_storage_view in Hread by done. injection Hread as Hread.
    by apply (within_update_storage b0). }
  unfold write_storages. rewrite Hrun2. cbn.
  assert (within b0 (IntraBlockState.write_accounts (map_to_list (objects st)) b2)) as Hw3.
  { unfold IntraBlockState.write_accounts.
    assert (∀ l d, (∀ a o, (a, o) ∈ l → objects st !! a = Some o) → within b0 d → within b0
      (foldl (fun d '(address, obj) => update_account address (obj_initial obj) (obj_current obj) d) d l)) as Hgo.
    { induction l as [|[a o] l IH]; intros d Hin Hw; [done|]. cbn. apply IH.
      - intros a' o' Hin'. apply Hin. by right.
      - destruct (Hacc a o) as (Hread & Hc & Hfit); [apply Hin; by left|].
        rewrite read_account_view in Hread by done. injection Hread as Hread.
        by apply within_update_account. }
    apply Hgo; [|done]. intros a o Hin. by apply elem_of_map_to_list in Hin. }
  set (b3 := IntraBlockState.write_accounts _ b2) in *. clearbody b3. clear -Hw3.
  unfold write_codes. generalize (map_to_list (new_code st)). intros l. revert b3 Hw3.
  induction l as [|[h c] l IH]; intros b3 Hw3; [by exists b3|]. cbn. apply IH. by destruct Hw3.
Qed.

Lemma delete_agree {V} n (c c' : gmap Z V) k : delete n c = delete n c' → k ≠ n → c !! k = c' !! k.
Proof. intros E Hk. rewrite <- (lookup_delete_ne c n k), E by done. by rewrite lookup_delete_ne. Qed.

Lemma default_head_snoc {X} (h : list X) (o : option X) (x : X) :
  default x (head (h ++ option_list o)) = default (default x o) (head h).
Proof. by destruct h, o. Qed.

Lemma within_tracks d p to last n b b' :
  tracks d p to last b → last < n → within (Buffer.begin_block n b) b' → tracks d p to n b'.
Proof.
  intros Ht Hn Hw. pose proof (w_frame _ _ Hw) as Hf.
  assert (block_number b' = n) as Hbn by apply (frame_block _ _ Hf).
  assert (∀ k, k ≠ n → account_changes b' !! k = account_changes b !! k) as Ha
    by (intros k; apply delete_agree, (w_old_accounts _ _ Hw)).
  assert (∀ k, k ≠ n → storage_changes b' !! k = storage_changes b !! k) as Hs
    by (intros k; apply delete_agree, (w_old_slots _ _ Hw)).
  assert (account_changes b !! n = None) as Hna.
  { destruct (account_changes b !! n) eqn:E; [|done]. pose proof (tr_accounts _ _ _ _ _ Ht n) as H'.
    rewrite E in H'. specialize (H' (ex_intro _ _ eq_refl)). lia. }
  assert (storage_changes b !! n = None) as Hns.
  { destruct (storage_changes b !! n) eqn:E; [|done]. pose proof (tr_slots _ _ _ _ _ Ht n) as H'.
    rewrite E in H'. specialize (H' (ex_intro _ _ eq_refl)). lia. }
  pose proof (tr_last _ _ _ _ _ Ht) as Hlast.
  assert (∀ k, is_Some (account_changes b' !! k) → to < k ≤ n) as Hka.
  { intros k Hk. destruct (decide (k = n)) as [->|Hne]; [lia|]. rewrite Ha in Hk by done.
    apply (tr_accounts _ _ _ _ _ Ht) in Hk. lia. }
  assert (∀ k, is_Some (storage_changes b' !! k) → to < k ≤ n) as Hks.
  { intros k Hk. destruct (decide (k = n)) as [->|Hne]; [lia|]. rewrite Hs in Hk by done.
    apply (tr_slots _ _ _ _ _ Ht) in Hk. lia. }
  assert (delete n (account_changes b') = account_changes b) as Hda.
  { rewrite (w_old_accounts _ _ Hw : delete n _ = delete n _). by apply delete_id. }
  assert (delete n (storage_changes b') = storage_changes b) as Hds.
  { rewrite (w_old_slots _ _ Hw : delete n _ = delete n _). by apply delete_id. }
  injection Hf as Ht1 Hp1 Hh1 _ Hl1. split.
  - rewrite Ht1. apply Ht.
  - rewrite Hp1. apply Ht.
  - rewrite Hh1. apply Ht.
  - lia.
  - done.
  - done.
  - intros k. rewrite Hl1. cbn. intros Hk%(tr_logs _ _ _ _ _ Ht). lia.
  - intros a. cbn. rewrite (history_split _ _ n) by (intros k Hk%Hka; lia). rewrite Hda.
    pose proof (tr_account _ _ _ _ _ Ht a) as [Hv Hc]. pose proof (w_account _ _ Hw a) as Hr.
    unfold rec_account in Hr. rewrite Hbn in Hr. change (view_account (Buffer.begin_block n b) a) with (view_account b a) in Hr.
    assert ((account_changes b' !! n ≫= fun m => m !! a) = default ∅ (account_changes b' !! n) !! a) as ->
      by by destruct (account_changes b' !! n).
    destruct (default ∅ (account_changes b' !! n) !! a) as [x|].
    + destruct Hr as (-> & Hx & _). split; [by rewrite default_head_snoc|].
      apply created_snoc. by split.
    + cbn. rewrite app_nil_r, Hr. done.
  - intros a k. rewrite (history_split _ _ n) by (intros i Hi%Hks; lia). rewrite Hds.
    pose proof (tr_slot _ _ _ _ _ Ht a k) as Hv. pose proof (w_slot _ _ Hw a k) as Hr.
    unfold rec_slot, rec_slots in Hr. rewrite Hbn in Hr.
    change (view_slot (Buffer.begin_block n b) a k) with (view_slot b a k) in Hr.
    assert ((storage_changes b' !! n ≫= at_slot a k) = default ∅ (storage_changes b' !! n) !! a ≫= fun s => s !! k) as ->
      by by destruct (storage_changes b' !! n).
    rewrite default_head_snoc. destruct (_ ≫= _) as [x|]; cbn.
    + by destruct Hr as [-> _].
    + by rewrite Hr.
  - intros i m a x Hm Hx. destruct (decide (i = n)) as [->|Hne].
    + pose proof (w_account _ _ Hw a) as Hr. unfold rec_account in Hr. rewrite Hbn, Hm in Hr. cbn in Hr.
      rewrite Hx in Hr. apply Hr.
    + rewrite Ha in Hm by done. by apply (tr_address _ _ _ _ _ Ht i m a x).
  - intros i m a s k x Hm Hx Hk. destruct (decide (i = n)) as [->|Hne].
    + pose proof (w_slot _ _ Hw a k) as Hr. unfold rec_slot, rec_slots in Hr. rewrite Hbn, Hm in Hr. cbn in Hr.
      rewrite Hx in Hr. cbn in Hr. rewrite Hk in Hr. apply Hr.
    + rewrite Hs in Hm by done. by apply (tr_location _ _ _ _ _ Ht i m a s k x).
  - apply (w_overlay _ _ Hw).
Qed.

Lemma insert_receipts_fields n rs b :
  ∃ ls, insert_receipts n rs b = with_logs ls b
    ∧ ∀ k, is_Some (ls !! k) → k = n ∨ is_Some (logs b !! k).
Proof.
  unfold insert_receipts. generalize 0 at 1. revert b. induction rs as [|r rs IH]; intros b i.
  - exists (logs b). split; [by destruct b|by right].
  - cbn [insert_receipts_from].
    destruct (IH (with_logs (<[n:=<[i:=receipt_logs r]> (default ∅ (logs b !! n))]> (logs b)) b) (i + 1))
      as (ls & Hrun & Hls).
    exists ls. split; [done|]. intros k Hk. destruct (Hls k Hk) as [?|Hk']; [by left|].
    cbn in Hk'. destruct (decide (k = n)) as [->|Hne]; [by left|]. rewrite lookup_insert_ne in Hk' by done. by right.
Qed.

Lemma batch_tracks d p to last b : settled d to → batch d p to last b → tracks d p to last b.
Proof.
  intros Hd. induction 1 as [|last n b st receipts b' _ IH Hn Hp Hco Hrun].
  - assert (∀ V (k : Z), ¬ is_Some ((∅ : gmap Z V) !! k)) as He
      by (intros V k; rewrite lookup_empty; by intros []).
    split; cbn; try done; try (intros n Hn; by destruct (He _ _ Hn)); try (intros; by exfalso; eapply He; eexists).
  - pose proof (write_to_db_within b st n Hco (tr_now _ _ _ _ _ IH)) as Hw.
    rewrite (tr_prune _ _ _ _ _ IH), (tr_txn _ _ _ _ _ IH) in Hw.
    destruct Hw as (b2 & Hrun2 & Hw); [done|apply Hd|apply Hd|..|by apply (tr_overlay _ _ _ _ _ IH)|].
    + destruct (account_changes b !! n) eqn:E; [|done].
      assert (to < n ≤ last) by (apply (tr_accounts _ _ _ _ _ IH); by rewrite E). lia.
    + destruct (storage_changes b !! n) eqn:E; [|done].
      assert (to < n ≤ last) by (apply (tr_slots _ _ _ _ _ IH); by rewrite E). lia.
    + rewrite Hrun in Hrun2. injection Hrun2 as <-.
      pose proof (within_tracks _ _ _ _ _ _ _ IH Hn Hw) as Ht.
      destruct (insert_receipts_fields n receipts b') as (ls & -> & Hls).
      destruct Ht. split; try done.
      intros k Hk. destruct (Hls k Hk) as [->|Hk']; [|by auto]. cbn in *. pose proof (tr_last _ _ _ _ _ IH). lia.
Qed.

Lemma unwind_logs_ok to l0 l :
  (∀ e : (Z * Z) * list Log, e ∈ l0 → e.1.1 ≤ to) → (∀ e, e ∈ l → to < e.1.1) →
  unwind_logs to (reverse (l0 ++ l)) = reverse l0.
Proof.
  intros H0. induction l as [|[[n i] x] l IH] using rev_ind; intros Hl.
  - rewrite app_nil_r. destruct (reverse l0) as [|[[n i] x] rest] eqn:E; [done|]. cbn.
    assert (n ≤ to) as Hn by (apply (H0 ((n, i), x)), elem_of_reverse; rewrite E; left).
    by rewrite (proj2 (Z.leb_le n to)).
  - rewrite app_assoc, reverse_snoc. cbn.
    assert (to < n) as Hn by (apply (Hl ((n, i), x)), elem_of_app; right; left).
    rewrite (proj2 (Z.leb_gt n to)) by done. apply IH. intros e He. apply Hl, elem_of_app. by left.
Qed.

Lemma unwind_call_traces_ok to l :
  (∀ e : Z * CallTraceSetEntry, e ∈ l → e.1 ≤ to) → unwind_call_traces to (reverse l) = reverse l.
Proof.
  intros Hl. destruct (reverse l) as [|[n x] rest] eqn:E; [done|]. cbn.
  assert (n ≤ to) as Hn by (apply (Hl (n, x)), elem_of_reverse; rewrite E; left).
  by rewrite (proj2 (Z.leb_le n to)).
Qed.

Lemma tracks_fits d p to last b : settled d to → tracks d p to last b → history_fits b.
Proof.
  intros Hd Ht. pose proof (tr_txn _ _ _ _ _ Ht) as Htx. split; rewrite ?Htx.
  - intros n m e Hm He%(se_accounts _ _ Hd).
    assert (to < n ≤ last) by (apply (tr_accounts _ _ _ _ _ Ht); by rewrite Hm). lia.
  - intros n m e Hm He%(se_storage _ _ Hd).
    assert (to < n ≤ last) by (apply (tr_slots _ _ _ _ _ Ht); by rewrite Hm). lia.
  - intros n m e Hm He%(se_logs _ _ Hd).
    assert (to < n ≤ last) by (apply (tr_logs _ _ _ _ _ Ht); by rewrite Hm). lia.
  - apply (tr_address _ _ _ _ _ Ht).
  - apply (tr_location _ _ _ _ _ Ht).
Qed.

(** C16. A batch of blocks flushed to the tables and unwound gives back the
    tables: whatever the blocks created, deleted, erased or wrote, in
    however many blocks, [Execution::unwind] restores every account and
    every slot and cuts the change sets, the logs and the call traces to
    what they were, provided that the initial values the blocks report are
    the buffer's (not so for a contract created again in the block that
    destroyed it) and none reports an account absent before and after. *)
Theorem batch_unwinds d p to last b (Hd : settled d to) (Hb : batch d p to last b) :
  ∃ d', Buffer.write_to_db b = Ok d'
    ∧ Account_ (unwind to d') = Account_ d
    ∧ (∀ a k, storage.read (unwind to d') a k None = storage.read d a k None)
    ∧ AccountChangeSet (unwind to d') = AccountChangeSet d
    ∧ StorageChangeSet (unwind to d') = StorageChangeSet d
    ∧ Log_ (unwind to d') = Log_ d
    ∧ CallTraceSet (unwind to d') = CallTraceSet d.
Proof.
  pose proof (batch_tracks d p to last b Hd Hb) as Ht. pose proof (tr_txn _ _ _ _ _ Ht) as Htx.
  exists (flushed b). split; [by apply write_to_db_ok, (tracks_fits d p to last)|].
  assert (functional (Storage_ (txn b))) as Hf by (rewrite Htx; apply Hd).
  destruct (unwind_accounts_ok to (AccountChangeSet d) (account_entries b) (Account_ (flushed b)))
    as (accs & Hrun1 & Ha); [by apply Hd|..].
  { intros [n [a x]] (m & Hm & _)%elem_of_account_entries. cbn.
    assert (to < n ≤ last) by (apply (tr_accounts _ _ _ _ _ Ht); by rewrite Hm). lia. }
  { intros a. rewrite values_of_entries, flushed_account. apply (tr_account _ _ _ _ _ Ht a). }
  destruct (unwind_storage_ok to (StorageChangeSet d) (storage_entries b) (Storage_ (flushed b)))
    as (sls & Hrun2 & Hf2 & Hs); [by apply Hd|..|by apply (flushed_slot b 0 0)|].
  { intros [[n a] [k x]] (m & s & Hm & _)%elem_of_storage_entries. cbn.
    assert (to < n ≤ last) by (apply (tr_slots _ _ _ _ _ Ht); by rewrite Hm). lia. }
  unfold unwind. change (AccountChangeSet (flushed b)) with (AccountChangeSet (txn b) ++ account_entries b).
  rewrite Htx, Hrun1. cbn [set_AccountChangeSet set_Account_ StorageChangeSet Storage_].
  change (StorageChangeSet (flushed b)) with (StorageChangeSet (txn b) ++ storage_entries b).
  rewrite Htx, Hrun2. cbn -[storage.read reverse unwind_logs unwind_call_traces].
  rewrite Htx, unwind_logs_ok, unwind_call_traces_ok, !reverse_involutive; [|apply Hd..|].
  2: { intros e [m Hm]%log_entries_block.
       assert (to < e.1.1 ≤ last) by (apply (tr_logs _ _ _ _ _ Ht); by rewrite Hm). lia. }
  split_and!; try done.
  - apply map_eq. intros a. rewrite Ha, values_of_entries, flushed_account.
    apply (tr_account _ _ _ _ _ Ht a).
  - intros a k. change (slot_at sls a k = slot_at (Storage_ d) a k).
    rewrite Hs, slot_values_entries. destruct (flushed_slot b a k Hf) as [_ ->].
    apply (tr_slot _ _ _ _ _ Ht a k).
Qed.

(** Two blocks over two accounts and two slots: the first pays account 3,
    which did not exist, the second destroys contract 2 and pays again. *)
Definition settled_database : Database := set_Storage_ {[(1, (5, 50)); (2, (6, 60))]} demo_database.

Definition block_state (m : M Buffer unit) (b : Buffer) : IntraBlockState.IntraBlockState Buffer :=
  match m (IntraBlockState.new b) with Ok (_, st) => st | _ => IntraBlockState.new b end.

Definition paying_block : M Buffer unit :=
  IntraBlockState.subtract_from_balance 1 4;; IntraBlockState.add_to_balance 3 4;;
  IntraBlockState.set_storage 1 5 51;; IntraBlockState.finalize_transaction.

Definition destroying_block : M Buffer unit :=
  IntraBlockState.record_selfdestruct 2;; IntraBlockState.add_to_balance 3 1;;
  IntraBlockState.destruct_selfdestructs;; IntraBlockState.finalize_transaction.

Definition first_buffer : Buffer := new_buffer settled_database 0 None.

Definition after_block (m : M Buffer unit) (n : Z) (b : Buffer) : Buffer :=
  match IntraBlockState.write_to_db (block_state m b) n with Ok b => insert_receipts n [] b | _ => b end.

Lemma small_fits n x : (0 < n)%nat → 0 ≤ x < 256 → fits n x.
Proof.
  intros Hn Hx. unfold fits. split; [lia|]. eapply Z.lt_le_trans; [apply Hx|].
  change 256 with (256 ^ 1) at 1. apply Z.pow_le_mono_r; lia.
Qed.

Lemma coherent_check b st :
  db st = b → historical_block b = None →
  map_Forall (fun a o => obj_initial o = view_account b a ∧ ¬ (obj_initial o = None ∧ obj_current o = None)
    ∧ 0 ≤ a < 256) (objects st) →
  map_Forall (fun a s => map_Forall (fun k v => cv_initial v = view_slot b a k ∧ 0 ≤ k < 256) (committed s))
    (storage st) →
  coherent b st.
Proof.
  intros Hdb Hh Ho Hs. split; [done|..].
  - intros a o E. destruct (Ho a o E) as (Hi & Hn & Ha). rewrite read_account_view, Hi by done.
    split; [done|]. split; [intros Hc Hd; apply Hn; by rewrite Hi|]. apply small_fits; [vm_compute; lia|done].
  - intros a o x s k v _ _ E1 E2. destruct (Hs a s E1 k v E2) as [Hv Hk].
    rewrite read_storage_view, Hv by done. split; [done|]. apply small_fits; [vm_compute; lia|done].
Qed.

Lemma batch_unwinds_witness :
  let b := after_block destroying_block 2 (after_block paying_block 1 first_buffer) in
  read_account b 2 = Ok None ∧ read_account b 3 = Ok (Some (mkAccount 0 5 EMPTY_HASH))
  ∧ ∃ d', Buffer.write_to_db b = Ok d'
    ∧ Account_ (unwind 0 d') = Account_ settled_database
    ∧ (∀ a k, storage.read (unwind 0 d') a k None = storage.read settled_database a k None)
    ∧ AccountChangeSet (unwind 0 d') = AccountChangeSet settled_database
    ∧ StorageChangeSet (unwind 0 d') = StorageChangeSet settled_database
    ∧ Log_ (unwind 0 d') = Log_ settled_database
    ∧ CallTraceSet (unwind 0 d') = CallTraceSet settled_database.
Proof.
  split; [vm_compute; reflexivity|]. split; [vm_compute; reflexivity|].
  apply (batch_unwinds settled_database 0 0 2).
  - split.
    + intros a l v v' H1 H2. change (Storage_ settled_database) with ({[(1, (5, 50)); (2, (6, 60))]} : DupSlots) in *.
      apply elem_of_union in H1, H2. rewrite !elem_of_singleton in H1, H2. naive_solver.
    + intros a k x H1. change (Storage_ settled_database) with ({[(1, (5, 50)); (2, (6, 60))]} : DupSlots) in *.
      apply elem_of_union in H1. rewrite !elem_of_singleton in H1. apply small_fits; [vm_compute; lia|naive_solver lia].
    + intros e He. by apply elem_of_nil in He.
    + intros e He. by apply elem_of_nil in He.
    + intros e He. by apply elem_of_nil in He.
    + intros e He. by apply elem_of_nil in He.
  - unfold after_block. destruct (IntraBlockState.write_to_db (block_state paying_block first_buffer) 1) as [b1| |] eqn:E1;
      [|vm_compute in E1; discriminate E1..].
    destruct (IntraBlockState.write_to_db (block_state destroying_block (insert_receipts 1 [] b1)) 2) as [b2| |] eqn:E2.
    2, 3: vm_compute in E1; injection E1 as <-; vm_compute in E2; discriminate E2.
    eapply (batch_block _ _ _ 1 2 _ _ []); [eapply (batch_block _ _ _ 0 1 _ _ []); [apply batch_start|lia|lia| |exact E1]|lia|lia| |exact E2].
    + apply coherent_check; [by vm_compute|done|apply (bool_decide_unpack _); by vm_compute..].
    + vm_compute in E1. injection E1 as <-.
      apply coherent_check; [by vm_compute|done|apply (bool_decide_unpack _); by vm_compute..].
Defined.
