(* ===== verification/TotalIndex.v ===== *)
(** * TotalIndex

    The stages that build the indices of cumulative gas and cumulative
    transactions ([src/src/stages/total_gas_index.rs],
    [total_tx_index.rs]): the two differ in the table they fill and in what
    they add up for a block. *)

From stdpp Require Import sorting.
From S2P Require Import Prelude Words Errors Transaction Block StagedSync Database BufferFlush.

(** ** The stages *)

Record Index : Type := mkIndex {
  index_id : StageId;
  totals : Database → gmap Z Z;
  set_totals : gmap Z Z → Database → Database;
  amount : Database → Z → Z → option Z
}.

Definition TOTAL_GAS_INDEX : StageId := "TotalGasIndex".
Definition TOTAL_TX_INDEX : StageId := "TotalTxIndex".

(** [header.gas_used] of the block with a number and a hash. *)
Definition total_gas_index : Index :=
  mkIndex TOTAL_GAS_INDEX TotalGas set_TotalGas
    (fun d n hash => gas_used <$> (Header d !! (n, hash))).

(** [body.tx_amount]. *)
Definition total_tx_index : Index :=
  mkIndex TOTAL_TX_INDEX TotalTx set_TotalTx (fun d n hash => tx_amount <$> (BlockBody_ d !! (n, hash))).

Section stage.
Context {Mem : Type} (ix : Index).
Implicit Types (d : Database).

(** What the loop adds for a block: both reads are unwrapped. *)
Definition increment d (block_num : Z) : result Z :=
  canonical_hash ← unwrap (CanonicalHeader d !! block_num);
  unwrap (amount ix d block_num canonical_hash).

(** The loop over [count] blocks from [block_num]. *)
Fixpoint accumulate (count : nat) (block_num total : Z) d (t : gmap Z Z) : result (gmap Z Z) :=
  match count with
  | O => Ok t
  | S count =>
      x ← increment d block_num;
      let total := u64_add total x in
      t ← append block_num total t;
      accumulate count (block_num + 1) total d t
  end.

Definition execute_index (input : StageInput) d (mem : Mem) : result (ExecOutput * Database * Mem) :=
  let prev_progress := default 0 (stage_progress input) in
  let starting_block := u64_add prev_progress 1 in
  max_block ← ok_or (Bail "Cannot be the first stage") (snd <$> previous_stage input);
  t ←
    (if starting_block <=? max_block then
       total ← unwrap (totals ix d !! prev_progress);
       accumulate (Z.to_nat (max_block - starting_block + 1)) starting_block total d (totals ix d)
     else Ok (totals ix d));
  Ok (Progress max_block true, set_totals ix t d, mem).

(** The last entries of a table, taken off while they are behind [to]. *)
Fixpoint delete_behind (to : Z) (from_last : list (Z * Z)) (t : gmap Z Z) : gmap Z Z :=
  match from_last with
  | [] => t
  | (block_num, _) :: from_last => if to <? block_num then delete_behind to from_last (delete block_num t) else t
  end.

Definition unwind_index (input : UnwindInput) d (mem : Mem) : result (Z * Database * Mem) :=
  Ok (unwind_to input,
      set_totals ix (delete_behind (unwind_to input) (reverse (entries (totals ix d))) (totals ix d)) d, mem).

Definition index_stage : Stage Database Mem := mkStage (index_id ix) execute_index unwind_index.
End stage.

Definition total_gas_stage {Mem} : Stage Database Mem := index_stage total_gas_index.
Definition total_tx_stage {Mem} : Stage Database Mem := index_stage total_tx_index.

(** ** The table that is promised *)

(** The table of an index is its own; the chain data is not touched. *)
Class IndexLaws (ix : Index) : Prop := {
  totals_set t d : totals ix (set_totals ix t d) = t;
  amount_set t d n hash : amount ix (set_totals ix t d) n hash = amount ix d n hash;
  canonical_set t d : CanonicalHeader (set_totals ix t d) = CanonicalHeader d;
  progress_set t d : SyncStage (set_totals ix t d) = SyncStage d
}.

#[global] Instance total_gas_laws : IndexLaws total_gas_index.
Proof. by split. Qed.

#[global] Instance total_tx_laws : IndexLaws total_tx_index.
Proof. by split. Qed.

Section index.
Context {Mem : Type} (ix : Index) {HL : IndexLaws ix}.
Implicit Types (d : Database).

Definition added d (n : Z) : Z := match increment ix d n with Ok x => x | _ => 0 end.

(** The total of the blocks up to [n], over what the genesis block has. *)
Definition total_upto d (genesis n : Z) : Z := wrap 64 (genesis + foldr Z.add 0 (added d <$> seqZ 1 n)).

(** The totals of the blocks up to [n], and no others. *)
Definition indexed d (genesis n : Z) (t : gmap Z Z) : Prop :=
  ∀ k, t !! k = if decide (0 ≤ k ≤ n) then Some (total_upto d genesis k) else None.

Lemma sum_snoc (l : list Z) x : foldr Z.add 0 (l ++ [x]) = foldr Z.add 0 l + x.
Proof. induction l as [|y l IH]; cbn; lia. Qed.

Lemma total_upto_next d genesis n :
  0 ≤ n → total_upto d genesis (n + 1) = u64_add (total_upto d genesis n) (added d (n + 1)).
Proof.
  intros Hn. unfold total_upto, u64_add, wrap. rewrite seqZ_app by lia. cbn [seqZ].
  change (seqZ (1 + n) 1) with [1 + n]. rewrite fmap_app. cbn [fmap list_fmap].
  rewrite sum_snoc, (Z.add_comm 1 n), Z.add_assoc. by rewrite Z.add_mod_idemp_l by done.
Qed.

Lemma append_behind t (n v : Z) : (∀ k, is_Some (t !! k) → k < n) → append n v t = Ok (<[n := v]> t).
Proof.
  intros Hn. unfold append, last_entry. destruct (last (entries t)) as [[k x]|] eqn:E; [|done].
  assert (k < n) as Hk.
  { apply Hn. apply last_Some in E as [l El]. exists x. apply elem_of_entries. rewrite El.
    apply elem_of_app. right. left. }
  by rewrite (proj2 (Z.ltb_lt k n)).
Qed.

Lemma accumulate_indexed d genesis count : ∀ n t,
  0 ≤ n → indexed d genesis n t →
  (∀ k, n < k ≤ n + Z.of_nat count → ∃ x, increment ix d k = Ok x) →
  ∃ t', accumulate ix count (n + 1) (total_upto d genesis n) d t = Ok t'
    ∧ indexed d genesis (n + Z.of_nat count) t'.
Proof.
  induction count as [|count IH]; intros n t Hn Ht Hinc.
  - exists t. by rewrite Z.add_0_r.
  - destruct (Hinc (n + 1)) as [x Hx]; [lia|]. cbn [accumulate]. rewrite Hx. cbn.
    assert (u64_add (total_upto d genesis n) x = total_upto d genesis (n + 1)) as ->.
    { rewrite total_upto_next by done. unfold added. by rewrite Hx. }
    rewrite append_behind.
    2: { intros k [y Hy]. rewrite Ht in Hy. destruct (decide (0 ≤ k ≤ n)); [lia|done]. }
    cbn. destruct (IH (n + 1) (<[n + 1 := total_upto d genesis (n + 1)]> t)) as (t' & Hrun & Ht'); [lia|..].
    + intros k. destruct (decide (k = n + 1)) as [->|Hk].
      * rewrite lookup_insert_eq. by rewrite decide_True by lia.
      * rewrite lookup_insert_ne, Ht by done.
        destruct (decide (0 ≤ k ≤ n)), (decide (0 ≤ k ≤ n + 1)); done || lia.
    + intros k Hk. apply Hinc. lia.
    + exists t'. split; [done|]. by replace (n + Z.of_nat (S count)) with (n + 1 + Z.of_nat count) by lia.
Qed.

Lemma delete_behind_lookup to (l : list (Z * Z)) t k :
  StronglySorted (fun a b => a.1 < b.1) l →
  delete_behind to (reverse l) t !! k = if decide (to < k ∧ k ∈ l.*1) then None else t !! k.
Proof.
  revert t. induction l as [|[n x] l IH] using rev_ind; intros t Hs.
  - cbn. rewrite decide_False; [done|]. intros [_ Hk]. by apply elem_of_nil in Hk.
  - apply StronglySorted_app in Hs as (Hlt & Hs & _). rewrite reverse_snoc. cbn [delete_behind].
    rewrite fmap_app. destruct (Z.ltb_spec to n) as [Hto|Hto].
    + rewrite IH by done. destruct (decide (k = n)) as [->|Hk].
      * rewrite lookup_delete_eq. destruct (decide (to < n ∧ n ∈ l.*1 ++ _)) as [|Hnot]; [by case_decide|].
        destruct Hnot. split; [done|]. apply elem_of_app. right. left.
      * rewrite lookup_delete_ne by done.
        destruct (decide (to < k ∧ k ∈ l.*1)) as [[? Hin]|Hnot].
        -- rewrite decide_True; [done|]. split; [done|]. apply elem_of_app. by left.
        -- rewrite decide_False; [done|]. intros [? [Hin|Hin]%elem_of_app]; [tauto|].
           apply list_elem_of_singleton in Hin. cbn in Hin. done.
    + rewrite decide_False; [done|]. intros [Hk [Hin|Hin]%elem_of_app].
      * apply list_elem_of_fmap in Hin as ([k' x'] & -> & Hin). cbn in *.
        specialize (Hlt (k', x') (n, x) Hin). cbn in Hlt.
        assert (k' < n) by (apply Hlt; left). lia.
      * apply list_elem_of_singleton in Hin. cbn in Hin. lia.
Qed.

Lemma delete_behind_entries to (t : gmap Z Z) k :
  delete_behind to (reverse (entries t)) t !! k = if decide (to < k) then None else t !! k.
Proof.
  rewrite delete_behind_lookup by apply entries_sorted. destruct (decide (to < k)) as [Hk|Hk].
  - destruct (t !! k) as [x|] eqn:E; [|by destruct (decide _)]. rewrite decide_True; [done|].
    split; [done|]. apply list_elem_of_fmap. exists (k, x). split; [done|by apply elem_of_entries].
  - by rewrite decide_False by tauto.
Qed.

Lemma indexed_same d t0 genesis n t : indexed d genesis n t → indexed (set_totals ix t0 d) genesis n t.
Proof.
  intros Ht k. rewrite Ht. assert (∀ m, added (set_totals ix t0 d) m = added d m) as Ha.
  { intros m. unfold added, increment. rewrite canonical_set.
    destruct (CanonicalHeader d !! m); [|done]. cbn. by rewrite amount_set. }
  unfold total_upto. by rewrite (list_fmap_ext (added (set_totals ix t0 d)) (added d) (seqZ 1 k)) by done.
Qed.

(** C29. The cumulative indices are what their stages promise: from a table
    that has the totals up to the stage's progress, execution extends it to
    the progress of the stage before, with one total for every canonical
    block (wrapped to 64 bits), and unwinding to an earlier block leaves the
    totals up to that block and no others. *)
Theorem total_index_maintained input d (mem : Mem) genesis i max_block
  (Hprev : previous_stage input = Some (i, max_block))
  (Hstart : 0 ≤ default 0 (stage_progress input) ≤ max_block) (Hmax : max_block < 2 ^ 64 - 1)
  (Hchain : ∀ k, default 0 (stage_progress input) < k ≤ max_block → ∃ x, increment ix d k = Ok x)
  (Ht : indexed d genesis (default 0 (stage_progress input)) (totals ix d)) :
  ∃ d', execute_index ix input d mem = Ok (Progress max_block true, d', mem)
    ∧ indexed d' genesis max_block (totals ix d')
    ∧ ∀ from to, 0 ≤ to ≤ max_block →
        ∃ d'', unwind_index ix (mkUnwindInput from to) d' mem = Ok (to, d'', mem)
          ∧ indexed d'' genesis to (totals ix d'').
Proof.
  set (p := default 0 (stage_progress input)) in *.
  assert (∃ t, execute_index ix input d mem = Ok (Progress max_block true, set_totals ix t d, mem)
    ∧ indexed d genesis max_block t) as (t & Hrun & Htot).
  { unfold execute_index. fold p. rewrite Hprev. cbn.
    assert (u64_add p 1 = p + 1) as -> by (unfold u64_add, wrap; apply Z.mod_small; lia).
    destruct (Z.leb_spec (p + 1) max_block) as [Hle|Hle].
    - rewrite Ht, decide_True by lia. cbn.
      destruct (accumulate_indexed d genesis (Z.to_nat (max_block - (p + 1) + 1)) p (totals ix d))
        as (t & -> & Htot); [lia|done|intros k Hk; apply Hchain; lia|].
      exists t. split; [done|]. by replace max_block with (p + Z.of_nat (Z.to_nat (max_block - (p + 1) + 1))) by lia.
    - exists (totals ix d). split; [done|]. by replace max_block with p by lia. }
  exists (set_totals ix t d). split; [done|]. rewrite totals_set. split; [by apply indexed_same|].
  intros from to Hto. eexists. split; [reflexivity|]. rewrite !totals_set.
  cbn [StagedSync.unwind_to]. apply indexed_same, indexed_same. intros k. rewrite delete_behind_entries, Htot.
  destruct (decide (to < k)), (decide (0 ≤ k ≤ max_block)), (decide (0 ≤ k ≤ to)); done || lia.
Qed.
End index.

(** What the staged synchronisation asks of a stage. *)
#[global] Instance index_stage_laws {Mem} ix {HL : IndexLaws ix} : StageLaws (index_stage (Mem := Mem) ix).
Proof.
  split; cbn.
  - intros input d m out d' m' H i. unfold execute_index in H. res_inv.
    by rewrite progress_set.
  - intros input d m p done d' m' H Hle. unfold execute_index in H. res_inv.
    destruct (previous_stage input) as [[i q]|]; [|discriminate Hm]. injection Hm as <-.
    split; [by apply (Hle i q)|]. intros ? ? [= _ <-]. done.
  - intros input d m p d' m' [= _ <- _] i. by rewrite progress_set.
  - intros input d m p d' m' [= <- _ _]. lia.
Qed.

(** Two blocks of three and four transactions over an empty genesis block. *)
Definition demo_chain : Database :=
  mkDatabase (<[1 := 11]> {[2 := 12]}) ∅ ∅ ∅
    (<[(1, 11) := mkBodyForStorage 0 3 []]> {[(2, 12) := mkBodyForStorage 3 4 []]})
    ∅ ∅ ∅ {[0 := 0]} ∅ ∅ ∅ [] [] [] [] [] [] ∅ ∅ ∅ ∅ ∅ [] [] ∅ None.

Definition demo_input : StageInput := mkStageInput false None (Some (TOTAL_GAS_INDEX, 2)) None.

Lemma total_index_maintained_witness :
  ∃ d', execute_index total_tx_index demo_input demo_chain tt = Ok (Progress 2 true, d', tt)
    ∧ TotalTx d' !! 2 = Some 7
    ∧ ∃ d'', unwind_index total_tx_index (mkUnwindInput 2 1) d' tt = Ok (1, d'', tt)
      ∧ TotalTx d'' !! 1 = Some 3 ∧ TotalTx d'' !! 2 = None.
Proof.
  destruct (total_index_maintained total_tx_index demo_input demo_chain tt 0 TOTAL_GAS_INDEX 2)
    as (d' & Hrun & Ht & Hun); [done|cbn; lia|lia|..].
  - intros k Hk. cbn in Hk. assert (k = 1 ∨ k = 2) as [-> | ->] by lia; (eexists; vm_compute; reflexivity).
  - intros k. cbn. destruct (decide (k = 0)) as [->|Hk].
    + vm_compute. reflexivity.
    + rewrite lookup_singleton_ne, decide_False by lia. done.
  - assert (d' = match execute_index total_tx_index demo_input demo_chain tt with Ok (_, d, _) => d | _ => d' end)
      as Hd' by by rewrite Hrun.
    exists d'. split; [done|]. split; [rewrite Hd'; vm_compute; reflexivity|].
    destruct (Hun 2 1) as (d'' & Hrun'' & _); [lia|]. exists d''. split; [done|].
    assert (d'' = match unwind_index total_tx_index (mkUnwindInput 2 1) d' tt with Ok (_, d, _) => d | _ => d'' end)
      as Hd'' by by rewrite Hrun''.
    rewrite Hd'', Hd'. split; vm_compute; reflexivity.
Defined.
