(* ===== verification/HashState.v ===== *)
(** * HashState

    [src/src/stages/hashstate.rs] with [stage_util.rs]: the copies of the
    account and storage tables under hashed keys, that the state root is
    computed from; built anew through the external sort or brought up to
    date with the change sets, and unwound with them. *)

From stdpp Require Import sorting.
From S2P Require Import Prelude Words Errors Account Transaction Block BytesOrder StagedSync Etl TableCodecs Database Accessors Buffer BufferFlush StateUnwind Batch.

Definition HASH_STATE : StageId := "HashState".

(** [OPTIMAL_BUFFER_CAPACITY] of [etl/collector.rs]. *)
Definition OPTIMAL_BUFFER_CAPACITY : Z := 512000000.

(** [should_do_clean_promotion]. *)
Definition should_do_clean_promotion (d : Database) (genesis past_progress max_block threshold : Z) : result bool :=
  current_gas ← ok_or (Bail "No cumulative index for block") (TotalGas d !! past_progress);
  max_gas ← ok_or (Bail "No cumulative index for block") (TotalGas d !! max_block);
  gas_progress ←
    (if max_gas <? current_gas
     then Err (Bail "Faulty cumulative index: max gas less than current gas")
     else Ok (max_gas - current_gas));
  Ok ((past_progress =? genesis) || (threshold <? gas_progress)).

Section hash_state.
Context {HH : Hashing}.
Implicit Types (d : Database).

Definition hash_address (address : Z) : Z := keccak256 (encode address_object address).
Definition hash_location (location : Z) : Z := keccak256 (encode h256_object location).

(** ** Clean promotion *)

(** [put] of an encoded pair: the table holds what the bytes decode to. *)
Definition put_hashed_account (k v : bytes) (t : gmap Z Account) : result (gmap Z Account) :=
  hashed_address ← decode h256_object k;
  account ← decode account_object v;
  Ok (<[hashed_address := account]> t).

Definition put_hashed_storage (k v : bytes) (t : DupSlots) : result DupSlots :=
  hashed_address ← decode h256_object k;
  slot ← decode slot_object v;
  Ok ({[(hashed_address, slot)]} ∪ t).

Definition account_entry (e : Z * Account) : Entry :=
  (encode h256_object (hash_address e.1), encode account_object e.2).

Definition storage_entry (e : Z * (Z * Z)) : Entry :=
  (encode h256_object (hash_address e.1), encode slot_object (hash_location e.2.1, e.2.2)).

Definition promote_clean_accounts d : result Database :=
  let collector_account := push_all (account_entry <$> entries (Account_ d)) (new_collector OPTIMAL_BUFFER_CAPACITY) in
  dst ← load put_hashed_account collector_account ∅;
  Ok (set_HashedAccount dst d).

(** The walk over the whole storage table, in order. *)
Definition all_slots_le (a b : Z * (Z * Z)) : Prop := a.1 < b.1 ∨ a.1 = b.1 ∧ slot_le a b.

#[global] Instance all_slots_le_dec : RelDecision all_slots_le.
Proof. intros a b. unfold all_slots_le. apply _. Defined.

Definition walk_storage (t : DupSlots) : list (Z * (Z * Z)) := merge_sort all_slots_le (elements t).

Definition promote_clean_storage d : result Database :=
  let collector_storage := push_all (storage_entry <$> walk_storage (Storage_ d)) (new_collector OPTIMAL_BUFFER_CAPACITY) in
  dst ← load put_hashed_storage collector_storage ∅;
  Ok (set_HashedStorage dst d).

(** ** Incremental promotion *)

Definition promote_account (account_table target : gmap Z Account) (address : Z) : gmap Z Account :=
  match account_table !! address with
  | Some account => <[hash_address address := account]> target
  | None => delete_exact (hash_address address) target
  end.

Definition promote_accounts (stage_progress : Z) d : Database :=
  let starting_block := u64_add stage_progress 1 in
  set_HashedAccount
    (foldl (promote_account (Account_ d)) (HashedAccount d)
       ((fun e => e.2.1) <$> filter (fun e => starting_block ≤ e.1) (AccountChangeSet d))) d.

Definition promote_slot (storage_table target : DupSlots) (slot : Z * Z) : DupSlots :=
  let '(address, location) := slot in
  let v := match seek_both_range address location storage_table with
           | Some (found_location, value) => if location =? found_location then value else 0
           | None => 0
           end in
  upsert_hashed_storage_value (hash_address address) (hash_location location) v target.

Definition promote_storage (stage_progress : Z) d : Database :=
  let starting_block := u64_add stage_progress 1 in
  set_HashedStorage
    (foldl (promote_slot (Storage_ d)) (HashedStorage d)
       ((fun e => (e.1.2, e.2.1)) <$> filter (fun e => starting_block ≤ e.1.1) (StorageChangeSet d))) d.

(** ** The stage *)

Definition execute_hash_state (clean_promotion_threshold : Z) (input : StageInput) d : result (ExecOutput * Database) :=
  let genesis := 0 in
  let past_progress := default genesis (stage_progress input) in
  max_block ← ok_or (Bail "Cannot be first stage") (snd <$> previous_stage input);
  clean ← should_do_clean_promotion d genesis past_progress max_block clean_promotion_threshold;
  d ←
    (if clean : bool then d ← promote_clean_accounts d; promote_clean_storage d
     else Ok (promote_storage past_progress (promote_accounts past_progress d)));
  Ok (Progress max_block true, d).

Fixpoint unwind_hashed_accounts (to : Z) (changes : list (Z * (Z * option Account))) (t : gmap Z Account) : gmap Z Account :=
  match changes with
  | [] => t
  | (block_number, (address, account)) :: rest =>
      if to <? block_number
      then unwind_hashed_accounts to rest (restore_account (hash_address address) account t)
      else t
  end.

Fixpoint unwind_hashed_storage (to : Z) (changes : list ((Z * Z) * (Z * Z))) (t : DupSlots) : DupSlots :=
  match changes with
  | [] => t
  | ((block_number, address), (location, value)) :: rest =>
      if to <? block_number
      then unwind_hashed_storage to rest
             (upsert_hashed_storage_value (hash_address address) (hash_location location) value t)
      else t
  end.

Definition unwind_hash_state (input : UnwindInput) d : Z * Database :=
  let d := set_HashedAccount
             (unwind_hashed_accounts (unwind_to input) (reverse (AccountChangeSet d)) (HashedAccount d)) d in
  let d := set_HashedStorage
             (unwind_hashed_storage (unwind_to input) (reverse (StorageChangeSet d)) (HashedStorage d)) d in
  (unwind_to input, d).

Definition hash_state_stage {Mem} (clean_promotion_threshold : Z) : Stage Database Mem :=
  mkStage HASH_STATE
    (fun input d mem =>
       '(output, d) ← execute_hash_state clean_promotion_threshold input d; Ok (output, d, mem))
    (fun input d mem => let '(progress, d) := unwind_hash_state input d in Ok (progress, d, mem)).

(** [HashState::new]. *)
Definition new_hash_state {Mem} (clean_promotion_threshold : option Z) : Stage Database Mem :=
  hash_state_stage (default (30000000 * 1000000) clean_promotion_threshold).

(** ** The copy that is promised *)

(** Hashes are 256-bit and do not collide on keys of their width. *)
Class CollisionFree : Prop := {
  hash_address_inj a b : fits ADDRESS_LENGTH a → fits ADDRESS_LENGTH b → hash_address a = hash_address b → a = b;
  hash_location_inj a b : fits KECCAK_LENGTH a → fits KECCAK_LENGTH b → hash_location a = hash_location b → a = b;
  hash_fits l : fits KECCAK_LENGTH (keccak256 l)
}.

(** The accounts under their hashed addresses, and nothing else. *)
Definition account_copy (t h : gmap Z Account) : Prop :=
  ∀ x account, h !! x = Some account ↔ ∃ a, hash_address a = x ∧ t !! a = Some account.

Definition storage_copy (t h : DupSlots) : Prop :=
  ∀ x y v, (x, (y, v)) ∈ h ↔ ∃ a l, hash_address a = x ∧ hash_location l = y ∧ (a, (l, v)) ∈ t.

Definition addresses_fit (t : gmap Z Account) : Prop := ∀ a, is_Some (t !! a) → fits ADDRESS_LENGTH a.

(** Slots with keys of their width and values that are not zero, one each. *)
Record slots_wf (t : DupSlots) : Prop := {
  wf_functional : functional t;
  wf_keys a l v : (a, (l, v)) ∈ t → fits ADDRESS_LENGTH a ∧ fits KECCAK_LENGTH l;
  wf_values a l v : (a, (l, v)) ∈ t → v ≠ 0 ∧ fits KECCAK_LENGTH v
}.

Section copies.
Context {HC : CollisionFree}.

Lemma account_copy_lookup t h a :
  account_copy t h → addresses_fit t → fits ADDRESS_LENGTH a → h !! hash_address a = t !! a.
Proof.
  intros Hc Ht Ha. apply option_eq. intros acc. rewrite (Hc (hash_address a) acc). split; [|eauto].
  intros (a' & E & Hacc). apply hash_address_inj in E as ->; [done|apply Ht; by eexists|done].
Qed.

(** A change of one account, on both sides. *)
Lemma account_copy_update t h t' h' a :
  account_copy t h → addresses_fit t → fits ADDRESS_LENGTH a →
  (∀ b, b ≠ a → t' !! b = t !! b) → (∀ x, x ≠ hash_address a → h' !! x = h !! x) →
  h' !! hash_address a = t' !! a → account_copy t' h'.
Proof.
  intros Hc Ht Ha Hb Hx Hha x acc. destruct (decide (x = hash_address a)) as [->|Hne].
  - rewrite Hha. split; [eauto|]. intros (b & E & Hacc).
    destruct (decide (b = a)) as [->|Hba]; [done|]. rewrite Hb in Hacc by done.
    apply hash_address_inj in E; [done|apply Ht; by eexists|done].
  - rewrite Hx, (Hc x acc) by done. split; intros (b & <- & Hacc); exists b; (split; [done|]).
    + rewrite Hb; [done|congruence].
    + rewrite <- Hb; [done|congruence].
Qed.

Lemma restore_copy t h a account :
  account_copy t h → addresses_fit t → fits ADDRESS_LENGTH a → (account = None → t !! a ≠ None) →
  account_copy (restore_account a account t) (restore_account (hash_address a) account h).
Proof.
  intros Hc Ht Ha Hn. pose proof (account_copy_lookup t h a Hc Ht Ha) as E.
  apply (account_copy_update t h _ _ a Hc Ht Ha).
  - intros b Hb. by rewrite restore_account_lookup, decide_False.
  - intros x Hx. rewrite restore_account_lookup by by rewrite E. by rewrite decide_False.
  - rewrite !restore_account_lookup by (done || by rewrite E). by rewrite !decide_True.
Qed.

Lemma restore_fit t a account :
  addresses_fit t → fits ADDRESS_LENGTH a → (account = None → t !! a ≠ None) →
  addresses_fit (restore_account a account t).
Proof.
  intros Ht Ha Hn b. rewrite restore_account_lookup by done. case_decide; [by subst|apply Ht].
Qed.

(** Unwinding the accounts and their copy leaves a copy. *)
Lemma unwind_accounts_copy to l0 l t h :
  (∀ e, e ∈ l0 → e.1 ≤ to) → (∀ e, e ∈ l → to < e.1 ∧ fits ADDRESS_LENGTH e.2.1) →
  (∀ a, created (values_of a l) (t !! a)) → addresses_fit t → account_copy t h →
  account_copy (unwind_accounts to (reverse (l0 ++ l)) t).1 (unwind_hashed_accounts to (reverse (l0 ++ l)) h).
Proof.
  intros H0. revert t h. induction l as [|[b [a x]] l IH] using rev_ind; intros t h Hl Hc Ht Hcopy.
  - rewrite app_nil_r. destruct (reverse l0) as [|[b [a x]] rest] eqn:E; [done|]. cbn.
    assert (b ≤ to) as Hb by (apply (H0 (b, (a, x))), elem_of_reverse; rewrite E; left).
    by rewrite (proj2 (Z.leb_le b to)), (proj2 (Z.ltb_ge to b)).
  - rewrite app_assoc, reverse_snoc. cbn [unwind_accounts unwind_hashed_accounts].
    destruct (Hl (b, (a, x))) as [Hb Ha]; [apply elem_of_app; right; left|]. cbn in Hb, Ha.
    rewrite (proj2 (Z.leb_gt b to)), (proj2 (Z.ltb_lt to b)) by done.
    assert (x = None → t !! a ≠ None) as Hx.
    { specialize (Hc a). rewrite values_of_snoc, Z.eqb_refl, created_snoc in Hc. by apply Hc. }
    apply IH.
    + intros e He. apply Hl, elem_of_app. by left.
    + intros a'. specialize (Hc a'). rewrite values_of_snoc in Hc. rewrite restore_account_lookup by done.
      destruct (Z.eqb_spec a a') as [->|Hne].
      * rewrite decide_True by done. by apply created_snoc in Hc as [? _].
      * rewrite decide_False by done. by rewrite app_nil_r in Hc.
    + by apply restore_fit.
    + by apply restore_copy.
Qed.

(** The same for slots. *)
Lemma upsert_copy t h a l v :
  storage_copy t h → slots_wf t → fits ADDRESS_LENGTH a → fits KECCAK_LENGTH l → functional h →
  storage_copy (upsert_storage_value a l v t)
    (upsert_hashed_storage_value (hash_address a) (hash_location l) v h).
Proof.
  intros Hc Ht Ha Hl Hf x y w. change upsert_hashed_storage_value with upsert_storage_value.
  rewrite elem_of_upsert by done. case_decide as E.
  - destruct E as [-> ->]. split.
    + intros [-> Hv]. exists a, l. split; [done|]. split; [done|].
      rewrite elem_of_upsert, decide_True by apply Ht || done. done.
    + intros (a' & l' & Ea & El & Hin). rewrite elem_of_upsert in Hin by apply Ht.
      case_decide as E; [done|]. destruct (wf_keys t Ht _ _ _ Hin) as [Ha' Hl'].
      apply hash_address_inj in Ea as ->; [|done..]. apply hash_location_inj in El as ->; [|done..].
      by destruct E.
  - rewrite (Hc x y w). split; intros (a' & l' & <- & <- & Hin); exists a', l'; (split; [done|]; split; [done|]).
    + rewrite elem_of_upsert by apply Ht. rewrite decide_False by (intros [-> ->]; by destruct E). done.
    + rewrite elem_of_upsert in Hin by apply Ht. case_decide as E'; [|done].
      destruct E' as [-> ->]. by destruct E.
Qed.

Lemma upsert_wf t a l v :
  slots_wf t → fits ADDRESS_LENGTH a → fits KECCAK_LENGTH l → fits KECCAK_LENGTH v →
  slots_wf (upsert_storage_value a l v t).
Proof.
  intros Ht Ha Hl Hv. split; [apply upsert_functional, Ht|..]; intros a' l' v';
    rewrite elem_of_upsert by apply Ht; case_decide as E; try apply Ht.
  - by destruct E as [-> ->].
  - by intros [-> ?].
Qed.

(** A copy of functional slots is functional. *)
Lemma storage_copy_functional t h : storage_copy t h → slots_wf t → functional h.
Proof.
  intros Hc Ht x y v v' (a & l & <- & <- & H1)%Hc (a' & l' & Ea & El & H2)%Hc.
  destruct (wf_keys t Ht _ _ _ H1), (wf_keys t Ht _ _ _ H2).
  apply hash_address_inj in Ea as ->; [|done..]. apply hash_location_inj in El as ->; [|done..].
  by eapply (wf_functional t Ht).
Qed.

Lemma unwind_storage_copy to l0 l t h :
  (∀ e, e ∈ l0 → e.1.1 ≤ to) →
  (∀ e, e ∈ l → to < e.1.1 ∧ fits ADDRESS_LENGTH e.1.2 ∧ fits KECCAK_LENGTH e.2.1 ∧ fits KECCAK_LENGTH e.2.2) →
  slots_wf t → storage_copy t h →
  storage_copy (unwind_storage to (reverse (l0 ++ l)) t).1 (unwind_hashed_storage to (reverse (l0 ++ l)) h).
Proof.
  intros H0. revert t h. induction l as [|[[b a] [k x]] l IH] using rev_ind; intros t h Hl Ht Hcopy.
  - rewrite app_nil_r. destruct (reverse l0) as [|[[b a] [k x]] rest] eqn:E; [done|]. cbn.
    assert (b ≤ to) as Hb by (apply (H0 ((b, a), (k, x))), elem_of_reverse; rewrite E; left).
    by rewrite (proj2 (Z.leb_le b to)), (proj2 (Z.ltb_ge to b)).
  - rewrite app_assoc, reverse_snoc. cbn [unwind_storage unwind_hashed_storage].
    destruct (Hl ((b, a), (k, x))) as (Hb & Ha & Hk & Hx); [apply elem_of_app; right; left|]. cbn in Hb, Ha, Hk, Hx.
    rewrite (proj2 (Z.leb_gt b to)), (proj2 (Z.ltb_lt to b)) by done.
    apply IH.
    + intros e He. apply Hl, elem_of_app. by left.
    + by apply upsert_wf.
    + apply upsert_copy; try done. by eapply storage_copy_functional.
Qed.

(** ** Promotion *)

Lemma delete_exact_lookup {V} (t : gmap Z V) k k' :
  delete_exact k t !! k' = if decide (k' = k) then None else t !! k'.
Proof.
  unfold delete_exact. destruct (t !! k) eqn:E; case_decide; subst;
    by rewrite ?lookup_delete_eq, ?lookup_delete_ne.
Qed.

Lemma promote_account_lookup t h a x :
  promote_account t h a !! x = if decide (x = hash_address a) then t !! a else h !! x.
Proof.
  unfold promote_account. destruct (t !! a) as [acc|].
  - case_decide; subst; by rewrite ?lookup_insert_eq, ?lookup_insert_ne.
  - apply delete_exact_lookup.
Qed.

(** The table whose account at [a] is the one of [t]. *)
Definition agree_at (t t0 : gmap Z Account) (a : Z) : gmap Z Account :=
  match t !! a with Some acc => <[a := acc]> t0 | None => delete a t0 end.

Lemma agree_at_lookup t t0 a b : agree_at t t0 a !! b = if decide (b = a) then t !! a else t0 !! b.
Proof.
  unfold agree_at. destruct (t !! a); case_decide; subst;
    by rewrite ?lookup_insert_eq, ?lookup_insert_ne, ?lookup_delete_eq, ?lookup_delete_ne.
Qed.

Lemma promote_accounts_copy t l : addresses_fit t → ∀ t0 h,
  account_copy t0 h → addresses_fit t0 → Forall (fits ADDRESS_LENGTH) l →
  (∀ a, t0 !! a ≠ t !! a → a ∈ l) → account_copy t (foldl (promote_account t) h l).
Proof.
  intros Ht. induction l as [|a l IH]; intros t0 h Hc H0 Hl Hdiff.
  - cbn. replace t with t0; [done|]. apply map_eq. intros a.
    destruct (decide (t0 !! a = t !! a)) as [|Hne]; [done|]. apply Hdiff in Hne. by apply elem_of_nil in Hne.
  - apply Forall_cons in Hl as [Ha Hl]. cbn. apply (IH (agree_at t t0 a)).
    + apply (account_copy_update t0 h _ _ a Hc H0 Ha).
      * intros b Hb. by rewrite agree_at_lookup, decide_False.
      * intros x Hx. by rewrite promote_account_lookup, decide_False.
      * by rewrite promote_account_lookup, agree_at_lookup, !decide_True.
    + intros b. rewrite agree_at_lookup. case_decide; [subst; apply Ht|apply H0].
    + done.
    + intros b. rewrite agree_at_lookup. case_decide; [by subst|]. intros Hb%Hdiff.
      by apply elem_of_cons in Hb as [|].
Qed.

Lemma promote_slot_upsert t h a l :
  promote_slot t h (a, l) = upsert_hashed_storage_value (hash_address a) (hash_location l) (slot_at t a l) h.
Proof.
  unfold promote_slot, slot_at, seek_storage_key. destruct (seek_both_range a l t) as [[l' v]|]; [|done].
  rewrite Z.eqb_sym. by destruct (l' =? l).
Qed.

Lemma slot_at_fits t a l : slots_wf t → fits KECCAK_LENGTH (slot_at t a l).
Proof.
  intros Ht. unfold slot_at. destruct (seek_storage_key a l t) as [v|] eqn:E.
  - apply seek_storage_key_spec in E; [|apply Ht]. by eapply wf_values.
  - cbn. unfold fits. cbn. lia.
Qed.

(** Slots with the same values are the same. *)
Lemma slots_ext t t' : slots_wf t → slots_wf t' → (∀ a l, slot_at t a l = slot_at t' a l) → t = t'.
Proof.
  intros Ht Ht' E. apply set_eq. intros [a [l v]]. split; intros Hin.
  - destruct (wf_values t Ht _ _ _ Hin) as [Hv _]. apply slot_at_elem; [apply Ht'|done|].
    rewrite <- E. apply slot_at_elem; [apply Ht|done|done].
  - destruct (wf_values t' Ht' _ _ _ Hin) as [Hv _]. apply slot_at_elem; [apply Ht|done|].
    rewrite E. apply slot_at_elem; [apply Ht'|done|done].
Qed.

Lemma promote_storage_copy t l : slots_wf t → ∀ t0 h,
  storage_copy t0 h → slots_wf t0 → Forall (both (fits ADDRESS_LENGTH) (fits KECCAK_LENGTH)) l →
  (∀ a k, slot_at t0 a k ≠ slot_at t a k → (a, k) ∈ l) → storage_copy t (foldl (promote_slot t) h l).
Proof.
  intros Ht. induction l as [|[a k] l IH]; intros t0 h Hc H0 Hl Hdiff.
  - cbn. replace t with t0; [done|]. apply slots_ext; [done..|]. intros a k.
    destruct (decide (slot_at t0 a k = slot_at t a k)) as [|Hne]; [done|]. apply Hdiff in Hne. by apply elem_of_nil in Hne.
  - apply Forall_cons in Hl as [[Ha Hk] Hl]. cbn [foldl]. rewrite promote_slot_upsert.
    apply (IH (upsert_storage_value a k (slot_at t a k) t0)).
    + apply upsert_copy; try done. by eapply storage_copy_functional.
    + apply upsert_wf; [done..|by apply slot_at_fits].
    + done.
    + intros b j. rewrite slot_at_upsert by apply H0. case_decide as E; [by destruct E as [-> ->]|].
      intros Hb%Hdiff. apply elem_of_cons in Hb as [[= -> ->]|]; [by destruct E|done].
Qed.

(** ** Through the external sort *)

Lemma load_entries {A C} (enc : A → Entry) put (step : C → A → C) cap l c :
  (∀ x c, x ∈ l → put (enc x).1 (enc x).2 c = Ok (step c x)) → (∀ x, x ∈ l → 0 < entry_size (enc x)) →
  total_size (enc <$> l) < 2 ^ 64 →
  ∃ l', l' ≡ₚ l ∧ load put (push_all (enc <$> l) (new_collector cap)) c = Ok (foldl step c l').
Proof.
  intros Hput Hpos Hsum. destruct (load_pushed cap (enc <$> l)) as [_ Hload]; [| |done|].
  - apply Forall_forall. intros e He. assert (entry_size e ≤ total_size (enc <$> l)) as Hle.
    { apply list_elem_of_split in He as (l1 & l2 & ->). rewrite total_size_app.
      change (total_size (e :: l2)) with (entry_size e + total_size l2).
      pose proof (total_size_nonneg l1). pose proof (total_size_nonneg l2). lia. }
    unfold entry_size in Hle. split; lia.
  - apply Forall_forall. intros e (x & -> & Hx)%list_elem_of_fmap. by apply Hpos.
  - rewrite Hload. assert (merge_sort pair_le (enc <$> l) ≡ₚ enc <$> l) as Hperm by apply merge_sort_Permutation.
    apply Permutation_map_inv in Hperm as (l' & -> & Hl').
    exists l'. split; [done|]. clear -Hput Hl'. change (map enc l') with (enc <$> l').
    assert (∀ x, x ∈ l' → x ∈ l) as Hin by (intros x Hx; by rewrite Hl').
    clear Hl'. revert c. induction l' as [|x l' IH]; intros c; [done|]. cbn [fmap list_fmap res_foldl foldl].
    rewrite Hput by (apply Hin; left). apply IH. intros y Hy. apply Hin. by right.
Qed.

(** Tables whose keys and values have their widths, and whose entries fit
    the collector's counter of bytes. *)
Record tables_wf (d : Database) : Prop := {
  tw_addresses : addresses_fit (Account_ d);
  tw_accounts a account : Account_ d !! a = Some account → account_wf account;
  tw_slots : slots_wf (Storage_ d);
  tw_account_changes e : e ∈ AccountChangeSet d → fits ADDRESS_LENGTH e.2.1;
  tw_storage_changes e : e ∈ StorageChangeSet d →
    fits ADDRESS_LENGTH e.1.2 ∧ fits KECCAK_LENGTH e.2.1 ∧ fits KECCAK_LENGTH e.2.2;
  tw_account_size : total_size (account_entry <$> entries (Account_ d)) < 2 ^ 64;
  tw_storage_size : total_size (storage_entry <$> walk_storage (Storage_ d)) < 2 ^ 64
}.

Lemma inserted_accounts (l : list (Z * Account)) : ∀ (h : gmap Z Account) x acc,
  NoDup l.*1 → Forall (fun e => fits ADDRESS_LENGTH e.1) l →
  foldl (fun (h : gmap Z Account) e => <[hash_address e.1 := e.2]> h) h l !! x = Some acc
  ↔ (∃ a, hash_address a = x ∧ (a, acc) ∈ l) ∨ (h !! x = Some acc ∧ ∀ e, e ∈ l → hash_address e.1 ≠ x).
Proof.
  induction l as [|[a acc0] l IH]; intros h x acc Hnd Hfit.
  - cbn. split; [intros Hx; right; split; [done|intros e He; by apply elem_of_nil in He]|].
    intros [(a & _ & Ha)|[? _]]; [by apply elem_of_nil in Ha|done].
  - cbn in Hnd. apply NoDup_cons in Hnd as [Hn Hnd]. apply Forall_cons in Hfit as [Ha Hfit].
    cbn [foldl]. rewrite IH by done. setoid_rewrite elem_of_cons. cbn [fst snd].
    destruct (decide (x = hash_address a)) as [->|Hne].
    + rewrite lookup_insert_eq. split.
      * intros [(b & Hb & Hin)|[[= ->] Hall]]; left; [exists b; auto|exists a; auto].
      * intros [(b & Hb & [[= -> ->]|Hin])|[_ Hall]]; [|by left; exists b|].
        -- right. split; [done|]. intros [c acc'] Hin Hc. cbn in Hc.
           assert (c = a) as ->; [|by apply Hn, list_elem_of_fmap; exists (a, acc')].
           apply hash_address_inj; [exact (proj1 (Forall_forall _ _) Hfit (c, acc') Hin)|done|done].
        -- by destruct (Hall (a, acc0) (or_introl eq_refl)).
    + rewrite lookup_insert_ne by done. split.
      * intros [(b & Hb & Hin)|[Hx Hall]]; [left; exists b; auto|right; split; [done|]].
        intros e [->|He]; [cbn; congruence|by apply Hall].
      * intros [(b & Hb & [[= -> ->]|Hin])|[Hx Hall]]; [done|by left; exists b|].
        right. split; [done|]. intros e He. apply Hall. by right.
Qed.

Lemma promote_clean_accounts_ok d : tables_wf d →
  ∃ h, promote_clean_accounts d = Ok (set_HashedAccount h d) ∧ account_copy (Account_ d) h.
Proof.
  intros Hw. unfold promote_clean_accounts.
  destruct (load_entries account_entry put_hashed_account (fun h e => <[hash_address e.1 := e.2]> h)
    OPTIMAL_BUFFER_CAPACITY (entries (Account_ d)) ∅) as (l & Hl & ->); [| |by apply Hw|].
  - intros [a acc] h Hin%elem_of_entries. cbn [account_entry fst snd]. unfold put_hashed_account.
    rewrite (roundtrip (t := h256_object)) by apply hash_fits. rewrite ok_bind.
    rewrite (roundtrip (t := account_object)) by (by apply (tw_accounts d Hw a)). done.
  - intros e _. unfold entry_size, account_entry. cbn [fst snd].
    rewrite (fixed_length (t := h256_object)). unfold KECCAK_LENGTH. lia.
  - eexists. split; [reflexivity|]. intros x acc. rewrite inserted_accounts.
    + setoid_rewrite Hl. setoid_rewrite elem_of_entries. split; [|eauto].
      intros [?|[Hx _]]; [done|by rewrite lookup_empty in Hx].
    + rewrite Hl. apply entries_nodup.
    + rewrite Hl. apply Forall_forall. intros [a acc'] Hin%elem_of_entries. apply (tw_addresses d Hw). by eexists.
Qed.

Lemma inserted_slots (l : list (Z * (Z * Z))) : ∀ (h : DupSlots) e,
  e ∈ foldl (fun h s => {[(hash_address s.1, (hash_location s.2.1, s.2.2))]} ∪ h) h l
  ↔ (∃ s, s ∈ l ∧ e = (hash_address s.1, (hash_location s.2.1, s.2.2))) ∨ e ∈ h.
Proof.
  induction l as [|s l IH]; intros h e; cbn [foldl].
  - split; [by right|]. intros [(s & Hs & _)|]; [by apply elem_of_nil in Hs|done].
  - rewrite IH, elem_of_union, elem_of_singleton. setoid_rewrite elem_of_cons. naive_solver.
Qed.

Lemma promote_clean_storage_ok d : tables_wf d →
  ∃ h, promote_clean_storage d = Ok (set_HashedStorage h d) ∧ storage_copy (Storage_ d) h.
Proof.
  intros Hw. unfold promote_clean_storage.
  assert (∀ e, e ∈ walk_storage (Storage_ d) ↔ e ∈ Storage_ d) as Hwalk
    by (intros e; unfold walk_storage; by rewrite merge_sort_Permutation, elem_of_elements).
  destruct (load_entries storage_entry put_hashed_storage
    (fun h s => {[(hash_address s.1, (hash_location s.2.1, s.2.2))]} ∪ h)
    OPTIMAL_BUFFER_CAPACITY (walk_storage (Storage_ d)) ∅) as (l & Hl & ->); [| |by apply Hw|].
  - intros [a [k v]] h Hin%Hwalk. cbn [storage_entry fst snd]. unfold put_hashed_storage.
    rewrite (roundtrip (t := h256_object)) by apply hash_fits. rewrite ok_bind.
    rewrite (roundtrip (t := slot_object)); [done|]. split; [apply hash_fits|].
    by apply (wf_values _ (tw_slots d Hw) a k v).
  - intros e _. unfold entry_size, storage_entry. cbn [fst snd].
    rewrite (fixed_length (t := h256_object)). unfold KECCAK_LENGTH. lia.
  - eexists. split; [reflexivity|]. intros x y v. rewrite inserted_slots. setoid_rewrite Hl.
    setoid_rewrite Hwalk. split.
    + intros [([a [k w]] & Hin & [= -> -> ->])|He]; [by exists a, k|by apply elem_of_empty in He].
    + intros (a & k & <- & <- & Hin). left. by exists (a, (k, v)).
Qed.

(** ** The stage behind the execution stage *)

(** What the hashed tables are to be. *)
Definition hashed d : Prop := account_copy (Account_ d) (HashedAccount d) ∧ storage_copy (Storage_ d) (HashedStorage d).

Lemma head_missing {X} (x : X) l y : default x (head l) = y → x ≠ y → ∃ z, z ∈ l.
Proof. destruct l as [|z l]; [done|]. intros _ _. exists z. left. Qed.

(** A batch leaves a change for every account and slot it alters. *)
Lemma batch_account_diff d to p last b a : tracks d p to last b →
  Account_ d !! a ≠ view_account b a → ∃ n x, (n, (a, x)) ∈ account_entries b ∧ to < n.
Proof.
  intros Ht Hne. destruct (tr_account _ _ _ _ _ Ht a) as [E _].
  destruct (head_missing _ _ _ E (not_eq_sym Hne)) as [x Hx]. rewrite <- values_of_entries in Hx.
  unfold values_of in Hx. apply list_elem_of_omap in Hx as ([n [a' x']] & Hin & Hx). cbn in Hx.
  destruct (Z.eqb_spec a' a) as [->|]; [|done]. injection Hx as ->. exists n, x. split; [done|].
  apply elem_of_account_entries in Hin as (m & Hm & _).
  assert (to < n ≤ last) by (apply (tr_accounts _ _ _ _ _ Ht); by rewrite Hm). lia.
Qed.

Lemma batch_slot_diff d to p last b a k : tracks d p to last b →
  slot_at (Storage_ d) a k ≠ view_slot b a k → ∃ n x, ((n, a), (k, x)) ∈ storage_entries b ∧ to < n.
Proof.
  intros Ht Hne. pose proof (tr_slot _ _ _ _ _ Ht a k) as E.
  destruct (head_missing _ _ _ E (not_eq_sym Hne)) as [x Hx]. rewrite <- slot_values_entries in Hx.
  unfold slot_values in Hx. apply list_elem_of_omap in Hx as ([[n a'] [k' x']] & Hin & Hx). cbn in Hx.
  destruct (decide (a' = a ∧ k' = k)) as [[-> ->]|]; [|done]. injection Hx as ->. exists n, x. split; [done|].
  apply elem_of_storage_entries in Hin as (m & s & Hm & _).
  assert (to < n ≤ last) by (apply (tr_slots _ _ _ _ _ Ht); by rewrite Hm). lia.
Qed.

Lemma tables_wf_hashed d h : tables_wf d → tables_wf (set_HashedAccount h d).
Proof. intros [? ? ? ? ? ? ?]. by split. Qed.

(** What a flush does with the other tables. *)
Lemma flushed_others b :
  AccountChangeSet (flushed b) = AccountChangeSet (txn b) ++ account_entries b
  ∧ StorageChangeSet (flushed b) = StorageChangeSet (txn b) ++ storage_entries b
  ∧ HashedAccount (flushed b) = HashedAccount (txn b) ∧ HashedStorage (flushed b) = HashedStorage (txn b).
Proof. done. Qed.

Lemma promote_both to d :
  promote_storage to (promote_accounts to d)
  = set_HashedStorage
      (foldl (promote_slot (Storage_ d)) (HashedStorage d)
         ((fun e => (e.1.2, e.2.1)) <$> filter (fun e => u64_add to 1 ≤ e.1.1) (StorageChangeSet d)))
      (set_HashedAccount
         (foldl (promote_account (Account_ d)) (HashedAccount d)
            ((fun e => e.2.1) <$> filter (fun e => u64_add to 1 ≤ e.1) (AccountChangeSet d))) d).
Proof. done. Qed.

Opaque flushed.

(** Both ways of promotion copy the tables of the flushed batch. *)
Lemma promoted d to p last b (clean : bool) :
  tracks d p to last b → hashed d → addresses_fit (Account_ d) → slots_wf (Storage_ d) → tables_wf (flushed b) →
  0 ≤ to < 2 ^ 64 - 1 →
  ∃ ha hs,
    (if clean then d ← promote_clean_accounts (flushed b); promote_clean_storage d
     else Ok (promote_storage to (promote_accounts to (flushed b))))
    = Ok (set_HashedStorage hs (set_HashedAccount ha (flushed b)))
    ∧ account_copy (Account_ (flushed b)) ha ∧ storage_copy (Storage_ (flushed b)) hs.
Proof.
  intros Ht [Hca Hcs] Hd1 Hd2 Hw Hto. destruct (flushed_others b) as (Eac & Esc & Eha & Ehs). pose proof (tr_txn _ _ _ _ _ Ht) as Htx.
  assert (u64_add to 1 = to + 1) as Hstart by (unfold u64_add; apply wrap_small; unfold is_word; lia).
  destruct clean.
  - destruct (promote_clean_accounts_ok (flushed b) Hw) as (ha & -> & Ha). rewrite ok_bind.
    destruct (promote_clean_storage_ok (set_HashedAccount ha (flushed b))) as (hs & -> & Hs); [by apply tables_wf_hashed|].
    by exists ha, hs.
  - rewrite Htx in Eha, Ehs. rewrite promote_both, Hstart. do 2 eexists. split; [reflexivity|]. split.
    + apply (promote_accounts_copy _ _ (tw_addresses _ Hw) (Account_ d)); [by rewrite Eha|done|..].
      * apply Forall_forall. intros a (e & -> & [_ He]%list_elem_of_filter)%list_elem_of_fmap.
        by apply (tw_account_changes _ Hw).
      * intros a Hne. rewrite flushed_account in Hne.
        destruct (batch_account_diff d to p last b a Ht Hne) as (n & x & Hin & Hn).
        apply list_elem_of_fmap. exists (n, (a, x)). split; [done|]. apply list_elem_of_filter. cbn.
        split; [lia|]. rewrite Eac. apply elem_of_app. by right.
    + apply (promote_storage_copy _ _ (tw_slots _ Hw) (Storage_ d)); [by rewrite Ehs|done|..].
      * apply Forall_forall. intros s (e & -> & [_ He]%list_elem_of_filter)%list_elem_of_fmap.
        destruct (tw_storage_changes _ Hw e He) as (? & ? & ?). by split.
      * intros a k Hne.
        assert (slot_at (Storage_ d) a k ≠ view_slot b a k) as Hne'.
        { intros E. apply Hne. rewrite E. symmetry. apply flushed_slot. rewrite Htx. apply Hd2. }
        destruct (batch_slot_diff d to p last b a k Ht Hne') as (n & x & Hin & Hn).
        apply list_elem_of_fmap. exists ((n, a), (k, x)). split; [done|]. apply list_elem_of_filter. cbn.
        split; [lia|]. rewrite Esc. apply elem_of_app. by right.
Qed.

Lemma unwound_fields to d :
  Account_ (unwind to d) = (unwind_accounts to (reverse (AccountChangeSet d)) (Account_ d)).1
  ∧ HashedAccount (unwind to d) = HashedAccount d
  ∧ Storage_ (unwind to d) = (unwind_storage to (reverse (StorageChangeSet d)) (Storage_ d)).1
  ∧ HashedStorage (unwind to d) = HashedStorage d.
Proof.
  unfold unwind. destruct (unwind_accounts _ _ _) as [accs acs]. cbn -[reverse unwind_storage].
  by destruct (unwind_storage _ _ _) as [sls scs].
Qed.

(** Unwinding a database whose change sets are split at [to]. *)
Lemma unwound_hashed to from d l0 la m0 ls :
  hashed d → tables_wf d → AccountChangeSet d = l0 ++ la → StorageChangeSet d = m0 ++ ls →
  (∀ e, e ∈ l0 → e.1 ≤ to) → (∀ e, e ∈ m0 → e.1.1 ≤ to) →
  (∀ e, e ∈ la → to < e.1) → (∀ e, e ∈ ls → to < e.1.1) →
  (∀ a, created (values_of a la) (Account_ d !! a)) →
  hashed (unwind to (unwind_hash_state (mkUnwindInput from to) d).2).
Proof.
  intros [Ha Hs] Hw Ea Es Hl0 Hm0 Hla Hls Hc.
  set (u := (unwind_hash_state _ _).2). destruct (unwound_fields to u) as (E1 & E2 & E3 & E4).
  unfold hashed. rewrite E1, E2, E3, E4. unfold u, unwind_hash_state. cbn -[reverse]. rewrite Ea, Es. split.
  - apply unwind_accounts_copy; [done| |done|apply Hw|done]. intros e He. split; [by apply Hla|].
    apply (tw_account_changes d Hw). rewrite Ea. apply elem_of_app. by right.
  - apply unwind_storage_copy; [done| |apply Hw|done]. intros e He. split; [by apply Hls|].
    apply (tw_storage_changes d Hw). rewrite Es. apply elem_of_app. by right.
Qed.

Lemma set_hashed_fields d ha hs : let d' := set_HashedStorage hs (set_HashedAccount ha d) in
  Account_ d' = Account_ d ∧ Storage_ d' = Storage_ d ∧ HashedAccount d' = ha ∧ HashedStorage d' = hs
  ∧ AccountChangeSet d' = AccountChangeSet d ∧ StorageChangeSet d' = StorageChangeSet d
  ∧ (tables_wf d → tables_wf d').
Proof. intros d'. split_and!; try done. intros [? ? ? ? ? ? ?]. by split. Qed.

End copies.
End hash_state.

(** What the staged synchronisation asks of a stage. *)
#[global] Instance hash_state_laws {HH : Hashing} {Mem} threshold : StageLaws (hash_state_stage (Mem := Mem) threshold).
Proof.
  assert (∀ input d out d', execute_hash_state threshold input d = Ok (out, d') →
    SyncStage d' = SyncStage d ∧ ∃ i q, previous_stage input = Some (i, q) ∧ out = Progress q true) as He.
  { intros input d out d' H. unfold execute_hash_state in H. res_inv.
    destruct (previous_stage input) as [[i q]|]; [|discriminate Hm]. injection Hm as <-.
    split; [|by exists i, q]. destruct a0; res_inv; [|done].
    unfold promote_clean_storage, promote_clean_accounts in *. by res_inv. }
  split; cbn.
  - intros input d m out d' m' H i. res_inv. destruct a as [out' d1]. injection H as <- <- <-.
    apply He in Hm as [-> _]. done.
  - intros input d m p done d' m' H Hle. res_inv. destruct a as [out' d1]. injection H as -> <- <-.
    apply He in Hm as (_ & i & q & Hp & [= -> ->]). rewrite Hp in *. split; [by apply (Hle i q)|].
    by intros ? ? [= _ ->].
  - intros input d m p d' m' [= _ <- _] i. done.
  - intros input d m p d' m' [= <- _ _]. lia.
Qed.

(** *** A batch of one block with a hash that is its own preimage *)

Definition plain_hashing : Hashing := {|
  keccak256 l := wrap 256 (from_be_bytes l);
  ommers_rlp_hash _ := 0;
  transactions_trie_root _ := 0;
  receipts_trie_root _ := 0;
  ecdsa_recover _ := Ok 0;
  trie_root _ := 0;
  rlp_bytes l := l;
  rlp_account _ _ _ _ := []
|}.

Lemma plain_hash len x : (len ≤ 32)%nat → fits len x → wrap 256 (from_be_bytes (to_be_bytes len x)) = x.
Proof.
  intros Hlen Hx. rewrite from_to_be by done. apply wrap_small. unfold is_word. destruct Hx as [? Hx].
  split; [done|]. eapply Z.lt_le_trans; [exact Hx|]. change (2 ^ 256) with (256 ^ 32).
  apply Z.pow_le_mono_r; lia.
Qed.

Lemma plain_hash_address a : fits ADDRESS_LENGTH a → hash_address (HH := plain_hashing) a = a.
Proof. intros Ha. apply (plain_hash 20); [lia|done]. Qed.

Lemma plain_hash_location a : fits KECCAK_LENGTH a → hash_location (HH := plain_hashing) a = a.
Proof. intros Ha. apply (plain_hash 32); [lia|done]. Qed.

#[global] Instance plain_collision_free : CollisionFree (HH := plain_hashing).
Proof.
  split.
  - intros a b Ha Hb. by rewrite !plain_hash_address.
  - intros a b Ha Hb. by rewrite !plain_hash_location.
  - intros l. pose proof (wrap_word 256 (from_be_bytes l)) as Hw. apply Hw. lia.
Qed.

Lemma plain_account_copy t : addresses_fit t → account_copy (HH := plain_hashing) t t.
Proof.
  intros Ht x acc. split.
  - intros Hx. exists x. split; [|done]. apply plain_hash_address, Ht. by eexists.
  - intros (a & <- & Ha). rewrite plain_hash_address; [done|]. apply Ht. by eexists.
Qed.

Lemma plain_storage_copy t : slots_wf t → storage_copy (HH := plain_hashing) t t.
Proof.
  intros Ht x y v. split.
  - intros Hx. destruct (wf_keys t Ht _ _ _ Hx). exists x, y. by rewrite plain_hash_address, plain_hash_location.
  - intros (a & l & <- & <- & Ha). destruct (wf_keys t Ht _ _ _ Ha).
    by rewrite plain_hash_address, plain_hash_location.
Qed.

Definition slots_small (t : DupSlots) : Prop :=
  set_Forall (fun e => (0 ≤ e.1 < 256 ∧ 0 ≤ e.2.1 < 256) ∧ 0 < e.2.2 < 256
    ∧ set_Forall (fun e' => e'.1 = e.1 → e'.2.1 = e.2.1 → e'.2.2 = e.2.2) t) t.

Lemma slots_check t : slots_small t → slots_wf t.
Proof.
  intros Ht. split.
  - intros a l v v' H1 H2. destruct (Ht _ H1) as (_ & _ & Hv). symmetry. by apply (Hv _ H2).
  - intros a l v Hin. destruct (Ht _ Hin) as ((? & ?) & _). split; (apply small_fits; [vm_compute; lia|done]).
  - intros a l v Hin. destruct (Ht _ Hin) as (_ & Hv & _). cbn in Hv. split; [lia|].
    apply small_fits; [vm_compute; lia|lia].
Qed.

Lemma addresses_check (t : gmap Z Account) : map_Forall (fun a _ => 0 ≤ a < 256) t → addresses_fit t.
Proof. intros Ht a [acc Ha]. apply small_fits; [vm_compute; lia|by apply (Ht a acc)]. Qed.

Lemma accounts_check (t : gmap Z Account) : map_Forall (fun _ acc => account_wf acc) t →
  ∀ a acc, t !! a = Some acc → account_wf acc.
Proof. intros Ht a acc Ha. by apply (Ht a acc). Qed.

Definition hashed_database : Database :=
  set_TotalGas (<[0 := 0]> {[1 := 21000]})
    (set_HashedStorage (Storage_ settled_database)
       (set_HashedAccount (Account_ settled_database) settled_database)).

Definition hashed_start : Buffer := new_buffer hashed_database 0 None.

Definition hashed_input : StageInput := mkStageInput false None (Some ("Execution"%string, 1)) None.

Definition hashed_flushed : Database := Eval vm_compute in
  match Buffer.write_to_db (after_block paying_block 1 hashed_start) with Ok d => d | _ => hashed_start.(txn) end.

Lemma hashed_flush : Buffer.write_to_db (after_block paying_block 1 hashed_start) = Ok hashed_flushed.
Proof. vm_compute. reflexivity. Qed.

Lemma hashed_flushed_accounts : addresses_fit (Account_ hashed_flushed).
Proof. apply addresses_check, (bool_decide_unpack _). vm_compute. exact I. Qed.

Lemma hashed_flushed_values a acc : Account_ hashed_flushed !! a = Some acc → account_wf acc.
Proof. revert a acc. apply accounts_check, (bool_decide_unpack _). vm_compute. exact I. Qed.

Lemma hashed_flushed_slots : slots_wf (Storage_ hashed_flushed).
Proof. apply slots_check, (bool_decide_unpack _). vm_compute. exact I. Qed.

Lemma hashed_flushed_wf : tables_wf (HH := plain_hashing) hashed_flushed.
Proof.
  split; [exact hashed_flushed_accounts|exact hashed_flushed_values|exact hashed_flushed_slots|..].
  - intros e. cbn. rewrite !elem_of_cons, elem_of_nil.
    intros [->|[->|[]]]; (apply small_fits; [vm_compute; lia|cbn; lia]).
  - intros e. cbn. rewrite !elem_of_cons, elem_of_nil.
    intros [->|[]]; split_and!; (apply small_fits; [vm_compute; lia|cbn; lia]).
  - vm_compute. done.
  - vm_compute. done.
Qed.

Lemma hashed_settled : settled hashed_database 0.
Proof.
  assert (slots_small (Storage_ settled_database)) as Hsm by (apply (bool_decide_unpack _); by vm_compute).
  split; cbn; try (intros e He; by apply elem_of_nil in He); [apply slots_check, Hsm|].
  intros a l v Hin. by apply (wf_keys _ (slots_check _ Hsm) _ _ _ Hin).
Qed.

Lemma hashed_batch : batch hashed_database 0 0 1 (after_block paying_block 1 hashed_start).
Proof.
  unfold after_block. destruct (IntraBlockState.write_to_db (block_state paying_block hashed_start) 1) as [b1| |] eqn:E1;
    [|vm_compute in E1; discriminate E1..].
  eapply (batch_block _ _ _ 0 1 _ _ []); [apply batch_start|lia|lia| |exact E1].
  apply coherent_check; [by vm_compute|done|apply (bool_decide_unpack _); by vm_compute..].
Qed.

