(* ===== verification/MerkleCover.v ===== *)
(** * MerkleCover

    Replacing whole subtrees of a Merkle-Patricia tree by their hashes does
    not change the tree: what the incremental computation of the state root
    relies on. *)

From stdpp Require Import sorting.
From S2P Require Import Prelude Words Errors Account Block BytesOrder TrieNode HashBuilder MerkleTrie BuilderFrames BuilderMasks BuilderRoot.

(** Two items or more are a branch under the path they share. *)
Lemma branching_split n : ∀ i j items,
  (depth (i :: j :: items) ≤ n)%nat → items_ok (i :: j :: items) →
  ∃ q m, i :: j :: items = prepend q m ∧ nibbles q ∧ items_ok m ∧ branching m.
Proof.
  induction n as [|n IH]; intros i j items Hn Hok.
  { pose proof (depth_many i j items Hok). lia. }
  set (l := i :: j :: items) in *.
  assert (∀ k v, (k, v) ∈ l → k ≠ []) as Hne.
  { intros k v Hin ->. by apply items_ok_empty_key in Hin. }
  destruct i as [[|x k] v] eqn:Ei; [by destruct (Hne [] v); [left|]|].
  destruct (decide (Forall (fun e => head e.1 = Some x) l)) as [Hall|Hex].
  - assert (l = prepend [x] (down x l)) as Heq.
    { apply down_all. intros k' v' Hin. rewrite Forall_forall in Hall. specialize (Hall _ Hin). cbn in Hall.
      destruct k' as [|y k']; [done|]. injection Hall as ->. eauto. }
    assert (∃ i' j' l', down x l = i' :: j' :: l') as (i' & j' & l' & Hd).
    { assert (length (down x l) = length l) as Hlen by (rewrite Heq at 2; unfold prepend; by rewrite length_fmap).
      destruct (down x l) as [|? [|? ?]]; [done|done|eauto]. }
    destruct (IH i' j' l') as (q & m & Hm & Hq & Hokm & Hb).
    + rewrite <- Hd. apply (depth_sub [] x l n Hn).
    + rewrite <- Hd. by apply down_ok.
    + exists (x :: q), m. rewrite Heq, Hd, Hm. split_and!; [|constructor|done|done].
      * by rewrite <- prepend_app.
      * destruct (items_ok_inv _ _ Hok) as (_ & _ & Hnib & _). by inversion Hnib.
      * done.
  - exists [], l. rewrite prepend_nil. split_and!; [done|constructor|done|].
    apply not_Forall_Exists in Hex; [|apply _]. apply Exists_exists in Hex as ([k' v'] & Hin & Hk). cbn in Hk.
    destruct k' as [|y k']; [by destruct (Hne [] v')|].
    exists x, y. split_and!; [by intros ->|apply down_nonempty; exists k, v; left|apply down_nonempty; eauto].
Qed.

Section cover.
Context {HH : Hashing} {HR : RlpStream}.

(** The items [m] of a subtree have the hash [h], without an extension. *)
Definition known (m : list item) (h : Z) : Prop :=
  items_ok m ∧ branching m ∧ ref_of (trie_node m) = wrap_hash h.

(** [l'] has hashes for some of the subtrees of [l]. *)
Inductive covers : list item → list item → Prop :=
| covers_nil : covers [] []
| covers_item i l' l : covers l' l → covers (i :: l') (i :: l)
| covers_hash p h m l' l : known m h → nibbles p → covers l' l → covers ((p, ValueHash h) :: l') (prepend p m ++ l).

Lemma known_nonempty m h : known m h → m ≠ [].
Proof. intros (_ & Hb & _) ->. by destruct (branching_many _ Hb) as (? & ? & ? & ?). Qed.

Lemma covers_empty l' l : covers l' l → l' = [] ↔ l = [].
Proof.
  destruct 1 as [|i l' l _|p h m l' l Hk _ _]; [done..|]. split; [done|]. intros E. apply app_eq_nil in E as [E _].
  apply known_nonempty in Hk. by destruct m.
Qed.

Lemma covers_down x l' l : covers l' l → [] ∉ l'.*1 → covers (down x l') (down x l).
Proof.
  induction 1 as [|[k v] l' l Hc IH|p h m l' l Hk Hp Hc IH]; intros Hne; [constructor|..];
    cbn [fmap list_fmap fst] in Hne; apply not_elem_of_cons in Hne as [Hk0 Hne]; specialize (IH Hne).
  - destruct k as [|y k]; [done|]. rewrite !down_cons. case_match; [by constructor|done].
  - destruct p as [|y p]; [done|]. rewrite down_cons, down_app. destruct (Z.eqb_spec y x) as [->|Hyx].
    + rewrite down_prepend. constructor; [done| |done]. by inversion Hp.
    + by rewrite down_prepend_ne.
Qed.

Lemma covers_prepend q m' : ∀ l, covers (prepend q m') l → ∃ m, l = prepend q m ∧ covers m' m.
Proof.
  induction m' as [|[k v] m' IH]; intros l Hc; [inversion Hc; exists []; split; [done|constructor]|].
  rewrite prepend_cons in Hc. inversion Hc as [|? ? l0 Hc'|p h m0 ? l0 Hk Hp Hc']; subst.
  - destruct (IH _ Hc') as (m & -> & Hm). exists ((k, v) :: m). split; [done|by constructor].
  - destruct (IH _ Hc') as (m & -> & Hm). exists (prepend k m0 ++ m). split.
    + unfold prepend at 3. rewrite fmap_app. f_equal. apply prepend_app.
    + constructor; [done| |done]. apply Forall_app in Hp. by apply Hp.
Qed.

Lemma branching_empty_key m : items_ok m → branching m → [] ∉ m.*1.
Proof.
  intros Hok Hb ([k v] & E & Hin)%list_elem_of_fmap. cbn in E. subst k. apply items_ok_empty_key in Hin; [|done]. subst m.
  by destruct (branching_many _ Hb) as (? & ? & ? & ?).
Qed.

Lemma covers_branching m' m : covers m' m → items_ok m' → branching m' → branching m.
Proof.
  intros Hc Hok Hb. pose proof (branching_empty_key _ Hok Hb) as Hne. destruct Hb as (x & y & Hxy & Hx & Hy).
  exists x, y. split_and!; [done|..]; intros E; by apply (covers_empty _ _ (covers_down _ _ _ Hc Hne)) in E.
Qed.

Lemma depth_down d m n : [] ∉ m.*1 → (depth m ≤ S n)%nat → (depth (down d m) ≤ n)%nat.
Proof. intros _ Hn. exact (depth_sub [] d m n Hn). Qed.

Lemma depth_prepend q m : (depth m ≤ depth (prepend q m))%nat.
Proof.
  apply depth_le. intros k v Hin. pose proof (proj1 (depth_le (prepend q m) _) (le_n _)) as Hd.
  specialize (Hd (q ++ k) v). rewrite length_app in Hd. transitivity (length q + length k)%nat; [lia|].
  apply Hd, elem_of_prepend. eauto.
Qed.

(** The tree is the same; a hash that stands alone stands for its tree. *)
Lemma covers_node n : ∀ l' l,
  (depth l' ≤ n)%nat → covers l' l → items_ok l' → items_ok l →
  ref_of (trie_node l') = ref_of (trie_node l) ∧ ([] ∉ l'.*1 → trie_node l' = trie_node l).
Proof.
  induction n as [|n IH]; intros l' l Hn Hc Hok' Hok.
  all: destruct l' as [|i [|j l']]; [inversion Hc; by subst| |].
  1, 3: inversion Hc as [|? ? l0 Hc'|p h m ? l0 Hk Hp Hc']; subst; inversion Hc'; subst; [done|];
    rewrite app_nil_r; destruct Hk as (Hokm & Hb & Hr); rewrite trie_node_hash, trie_node_branching by done;
    pose proof (trie_node_branching [] m ltac:(constructor) Hokm Hb) as Hm; rewrite prepend_nil in Hm; cbn [extend] in Hm;
    rewrite Hm in Hr; destruct p as [|x p]; [split; [done|]; intros []; by left|];
    cbn [extend]; change (ref_of (Known h)) with (wrap_hash h); by rewrite <- Hr.
  { pose proof (depth_many _ _ _ Hok'). lia. }
  destruct (branching_split _ _ _ _ Hn Hok') as (q & m' & Heq & Hq & Hokm' & Hb). rewrite Heq in *.
  destruct (covers_prepend q m' l Hc) as (m & -> & Hcm).
  assert (items_ok m) as Hokm by (rewrite <- (sub_prepend q m); by apply sub_ok).
  pose proof (branching_empty_key _ Hokm' Hb) as Hne.
  rewrite !trie_node_branching by eauto using covers_branching.
  assert (branch_rlp (child m') = branch_rlp (child m)) as ->; [|done].
  apply branch_rlp_ext. intros d. unfold child.
  pose proof (covers_down d _ _ Hcm Hne) as Hcd. pose proof (covers_empty _ _ Hcd) as He.
  pose proof (depth_prepend q m'). pose proof (depth_down d m' n Hne ltac:(lia)) as Hd.
  destruct (IH _ _ Hd Hcd (down_ok d _ Hokm') (down_ok d _ Hokm)) as [Href _].
  destruct (down d m') as [|i1 l1], (down d m) as [|i2 l2]; [done|naive_solver..|done].
Qed.

Lemma wrap_hash_inj a b : is_u256 a → is_u256 b → wrap_hash a = wrap_hash b → a = b.
Proof. intros Ha Hb E. rewrite <- (hash_of_wrap a), <- (hash_of_wrap b) by done. by rewrite E. Qed.

Lemma covers_root l' l : covers l' l → items_ok l' → items_ok l → [] ∉ l'.*1 → merkle_root l' = merkle_root l.
Proof.
  intros Hc Hok' Hok Hne. pose proof (covers_empty _ _ Hc) as He.
  destruct (covers_node _ _ _ (le_n _) Hc Hok' Hok) as [_ Heq]. specialize (Heq Hne). unfold merkle_root.
  destruct l' as [|i' l'], l as [|i l]; [done|naive_solver..|]. by rewrite Heq.
Qed.

(** The whole tree has the hash. *)
Lemma known_root m h (Hword : ∀ x, is_u256 (keccak256 x)) : is_u256 h → known m h → merkle_root m = h.
Proof.
  intros Hh (Hok & Hb & Hr). pose proof (trie_node_branching [] m ltac:(constructor) Hok Hb) as Hm.
  rewrite prepend_nil in Hm. cbn [extend] in Hm. unfold merkle_root.
  destruct (branching_many _ Hb) as (i & j & l & ->). rewrite Hm in Hr |- *. cbn [ref_of] in Hr. unfold node_ref in Hr.
  destruct (Nat.ltb_spec (length (branch_rlp (child (i :: j :: l)))) KECCAK_LENGTH) as [Hlt|_].
  - apply (f_equal length) in Hr. rewrite length_wrap_hash in Hr. unfold KECCAK_LENGTH in Hlt. lia.
  - by apply wrap_hash_inj in Hr.
Qed.

Lemma covers_sub p : ∀ l' l, covers l' l → items_ok l' → branching (sub p l') → covers (sub p l') (sub p l).
Proof.
  induction p as [|x p IH]; intros l' l Hc Hok Hb; [done|]. rewrite sub_cons in *. apply IH; [|by apply down_ok|done].
  apply covers_down; [done|]. intros ([k v] & E & Hin)%list_elem_of_fmap. cbn in E. subst k.
  apply items_ok_empty_key in Hin; [|done]. subst l'. destruct (branching_many _ Hb) as (i & j & l0 & E).
  cbn in E. by rewrite sub_nil in E.
Qed.

Lemma covers_wide l' l : covers l' l → items_ok l' → items_ok l → wide l → wide l'.
Proof.
  intros Hc Hok' Hok Hw p Hb. pose proof (covers_sub p _ _ Hc Hok' Hb) as Hcp.
  pose proof (sub_ok p _ Hok') as Hokp'. pose proof (sub_ok p _ Hok) as Hokp.
  pose proof (branching_empty_key _ Hokp' Hb) as Hne.
  pose proof (covers_branching _ _ Hcp Hokp' Hb) as Hbp. specialize (Hw p Hbp).
  destruct (covers_node _ _ _ (le_n _) Hcp Hokp' Hokp) as [_ Heq]. specialize (Heq Hne).
  pose proof (trie_node_branching [] _ ltac:(constructor) Hokp' Hb) as H1.
  pose proof (trie_node_branching [] _ ltac:(constructor) Hokp Hbp) as H2.
  rewrite prepend_nil in H1, H2. cbn [extend] in H1, H2. rewrite Heq, H2 in H1. injection H1 as H1. by rewrite <- H1.
Qed.

(** A hash for the whole tree, which the builder takes as it is. *)
Lemma add_root_node h in_db c : is_u256 h →
  ∃ hb, add_items [(([], ValueHash h), in_db)] (builder_with c) = Ok hb ∧ root_hash hb = Ok (h, hb) ∧ node_collector hb = c.
Proof.
  intros Hh. exists (with_key [] (ValueHash h) in_db (with_stack [wrap_hash h] (builder_with c))). split; [done|]. split; [|done].
  unfold root_hash, finalize. rewrite bool_decide_eq_false_2 by (intros E; by apply E). rewrite ok_bind.
  unfold stack_root_hash. change (stack _) with [wrap_hash h]. cbn [last]. rewrite length_wrap_hash.
  change (33 =? KECCAK_LENGTH + 1)%nat with true. by rewrite hash_of_wrap, ok_bind by done.
Qed.
End cover.
