(* ===== verification/TrieCursor.v ===== *)
(** * TrieCursor

    [src/src/trie/intermediate_hashes.rs], lines 23 to 296: the cursor over
    the trie nodes stored in a table. It walks the nodes in the order of
    their paths, passes over the subtrees whose hash still holds, and takes
    the nodes it has consumed out of the table. *)

From stdpp Require Import sorting.
From S2P Require Import Prelude Words Errors Account Block BytesOrder TrieNode HashBuilder.

(** ** Tables of byte strings *)

Abbreviation ByteTable := (gmap bytes bytes).

Definition row_le (a b : bytes * bytes) : Prop := bytes_le a.1 b.1.

#[global] Instance row_le_dec : RelDecision row_le.
Proof. intros a b. unfold row_le. apply _. Defined.

Definition rows (t : ByteTable) : list (bytes * bytes) := merge_sort row_le (map_to_list t).

(** [cursor.seek(key)]: the first row at or behind the key. *)
Definition seek_row (k : bytes) (t : ByteTable) : option (bytes * bytes) :=
  head (filter (fun e => bytes_le k e.1) (rows t)).

(** ** The nodes on the way to the cursor *)

Record CursorSubNode : Type := mkSubNode {
  sub_key : bytes;
  sub_node : option Node;
  nibble : Z
}.

Definition with_nibble (n : Z) (sn : CursorSubNode) : CursorSubNode := mkSubNode (sub_key sn) (sub_node sn) n.

Definition full_key (sn : CursorSubNode) : bytes :=
  if 0 <=? nibble sn then sub_key sn ++ [nibble sn] else sub_key sn.

(** [mask & (1u16 << nibble) != 0]. *)
Definition mask_has (mask n : Z) : bool := negb (Z.land mask (bit16 n) =? 0).

Definition state_flag (sn : CursorSubNode) : bool :=
  match sub_node sn with
  | Some node => if nibble sn <? 0 then true else mask_has (state_mask node) (nibble sn)
  | None => true
  end.

Definition tree_flag (sn : CursorSubNode) : bool :=
  match sub_node sn with
  | Some node => if nibble sn <? 0 then true else mask_has (tree_mask node) (nibble sn)
  | None => true
  end.

Definition hash_flag (sn : CursorSubNode) : bool :=
  match sub_node sn with
  | Some node =>
      if nibble sn <? 0 then bool_decide (is_Some (node_root_hash node))
      else mask_has (hash_mask node) (nibble sn)
  | None => false
  end.

Definition sub_hash (sn : CursorSubNode) : result (option Z) :=
  if negb (hash_flag sn) then Ok None
  else
    node ← unwrap (sub_node sn);
    if nibble sn <? 0 then Ok (node_root_hash node)
    else
      let first_nibbles_mask := bit16 (nibble sn) - 1 in
      let hash_idx := count_ones (Z.land (hash_mask node) first_nibbles_mask) in
      h ← unwrap (hashes node !! hash_idx);
      Ok (Some h).

(** The loop of [increment_key], from the last nibble to the first. *)
Fixpoint increment_last (out : bytes) : result (option bytes) :=
  match out with
  | [] => Ok None
  | n :: out =>
      if n <? 0x10 then
        if n <? 0xf then Ok (Some (n + 1 :: out))
        else o ← increment_last out; Ok (fmap (M := option) (cons 0) o)
      else Panic
  end.

Definition increment_key (unpacked : bytes) : result (option bytes) :=
  o ← increment_last (reverse unpacked);
  Ok (fmap (M := option) reverse o).

(** ** The cursor *)

(** [Cursor]: the table behind its database cursor, the changed keys, and
    the stack with its top first. *)
Record Cursor : Type := mkCursor {
  table : ByteTable;
  changed : PrefixSet;
  prefix : bytes;
  stack : list CursorSubNode;
  can_skip_state : bool
}.

Definition with_stack (s : list CursorSubNode) (c : Cursor) : Cursor :=
  mkCursor (table c) (changed c) (prefix c) s (can_skip_state c).
Definition with_table (t : ByteTable) (c : Cursor) : Cursor :=
  mkCursor t (changed c) (prefix c) (stack c) (can_skip_state c).

Definition key (c : Cursor) : option bytes := full_key <$> head (stack c).

Definition hash (c : Cursor) : result (option Z) :=
  match stack c with [] => Ok None | sn :: _ => sub_hash sn end.

Definition children_are_in_trie (c : Cursor) : bool :=
  match stack c with [] => false | sn :: _ => tree_flag sn end.

Definition first_uncovered_prefix (c : Cursor) : result (option bytes) :=
  let k := key c in
  k ← (match k with
       | Some k' => if can_skip_state c then increment_key k' else Ok k
       | None => Ok k
       end);
  Ok (fmap (M := option) pack_nibbles k).

Definition update_skip_state (c : Cursor) : Cursor :=
  let skip :=
    match stack c with
    | [] => false
    | sn :: _ => if contains (prefix c ++ full_key sn) (changed c) then false else hash_flag sn
    end in
  mkCursor (table c) (changed c) (prefix c) (stack c) skip.

(** [self.stack[0].nibble = n]: the bottom is the last of the list. *)
Fixpoint set_bottom_nibble (n : Z) (s : list CursorSubNode) : list CursorSubNode :=
  match s with
  | [] => []
  | [sn] => [with_nibble n sn]
  | sn :: s => sn :: set_bottom_nibble n s
  end.

(** The first digit of the state mask, which is not 0. *)
Definition first_nibble (mask : Z) : option Z := head (filter (fun d => mask_has mask d = true) digits16).

(** The node of a row: [unmarshal_node(..).unwrap()] and its assertion. *)
Definition row_node (v : bytes) : result Node :=
  n ← unmarshal_node v;
  n ← unwrap n;
  if state_mask n =? 0 then Panic else Ok n.

(** The row that [consume_node] stops at, [None] when it clears the stack:
    its path and its value, if there is one. *)
Definition find_row (to : bytes) (exact : bool) (c : Cursor) : option (bytes * option bytes) :=
  let db_key := prefix c ++ to in
  if exact then Some (to, table c !! db_key)
  else
    match seek_row db_key (table c) with
    | Some (k, v) => if has_prefix k (prefix c) then Some (drop (length (prefix c)) k, Some v) else None
    | None => None
    end.

Definition consume_node (to : bytes) (exact : bool) (c : Cursor) : result Cursor :=
  match find_row to exact c with
  | None => Ok (with_stack [] c)
  | Some (k, v) =>
      node ← (match v with Some v => n ← row_node v; Ok (Some n) | None => Ok None end);
      n ← (match node with
           | Some node =>
               if bool_decide (is_Some (node_root_hash node)) then Ok (-1)
               else unwrap (first_nibble (state_mask node))
           | None => Ok (-1)
           end);
      let s := match k with
               | d :: _ => set_bottom_nibble d (stack c)
               | [] => stack c
               end in
      let c := update_skip_state (with_stack (mkSubNode k node n :: s) c) in
      Ok (if bool_decide (is_Some v) && (negb (can_skip_state c) || negb (n =? -1))
          then with_table (delete (prefix c ++ k) (table c)) c else c)
  end.

(** [while sn.nibble < 16 { if sn.state_flag() { return } sn.nibble += 1 }]. *)
Definition next_nibble (sn : CursorSubNode) : option Z :=
  head (filter (fun d => state_flag (with_nibble d sn) = true) (seqZ (nibble sn) (16 - nibble sn))).

(** [move_to_next_sibling] pops the stack until a node has a sibling. *)
Fixpoint move_from (s : list CursorSubNode) (allow_root_to_child_nibble_within_subnode : bool) (c : Cursor) :
    result Cursor :=
  match s with
  | [] => Ok (with_stack [] c)
  | sn :: rest =>
      if (15 <=? nibble sn) || ((nibble sn <? 0) && negb allow_root_to_child_nibble_within_subnode)
      then move_from rest false c
      else
        let sn := with_nibble (nibble sn + 1) sn in
        match sub_node sn with
        | None => consume_node (full_key sn) false (with_stack (sn :: rest) c)
        | Some _ =>
            match next_nibble sn with
            | Some d => Ok (with_stack (with_nibble d sn :: rest) c)
            | None => move_from rest false c
            end
        end
  end.

Definition move_to_next_sibling (allow : bool) (c : Cursor) : result Cursor := move_from (stack c) allow c.

Definition new_cursor (t : ByteTable) (changed : PrefixSet) (prefix : bytes) : result Cursor :=
  consume_node [] true (mkCursor t changed prefix [] false).

Definition next (c : Cursor) : result Cursor :=
  match stack c with
  | [] => Ok c
  | sn :: _ =>
      c ← (if negb (can_skip_state c) && children_are_in_trie c then
             if nibble sn <? 0 then move_to_next_sibling true c
             else consume_node (full_key sn) false c
           else move_to_next_sibling false c);
      Ok (update_skip_state c)
  end.

(** ** The traversals of the tests *)

Definition demo_node (state tree hash : Z) (hs : list Z) (root : option Z) : bytes :=
  marshal_node (mkNode state tree hash hs root).

(** The keys that [n] steps visit. *)
Fixpoint visit (n : nat) (c : Cursor) : list (option bytes) :=
  key c :: match n with
           | O => []
           | S n => match next c with Ok c => visit n c | _ => [] end
           end.

Definition visit_keys (n : nat) (t : ByteTable) (changed : PrefixSet) (prefix : bytes) : list (option bytes) :=
  match new_cursor t changed prefix with Ok c => visit n c | _ => [] end.

Lemma cursor_traversal_1 :
  visit_keys 9 (<[[1] := demo_node 11 9 0 [] None]>
               (<[[1; 0; 0xB] := demo_node 10 0 0 [] None]>
               {[[1; 3] := demo_node 14 0 0 [] None]})) new_prefix_set []
  = [Some []; Some [1; 0]; Some [1; 0; 0xB; 1]; Some [1; 0; 0xB; 3]; Some [1; 1]; Some [1; 3];
     Some [1; 3; 1]; Some [1; 3; 2]; Some [1; 3; 3]; None].
Proof. vm_compute. reflexivity. Qed.

Lemma cursor_traversal_2 :
  visit_keys 5 (<[[4] := demo_node 20 0 4 [77] None]>
               {[[6] := demo_node 18 0 2 [78] None]}) new_prefix_set []
  = [Some []; Some [4; 2]; Some [4; 4]; Some [6; 1]; Some [6; 4]; None].
Proof. vm_compute. reflexivity. Qed.

Definition demo_prefixed : ByteTable :=
  <[[0xa; 0xa; 0; 2] := demo_node 20 0 0 [] (Some 1)]>
  (<[[0xb; 0xb; 0; 5] := demo_node 20 4 0 [] (Some 2)]>
  (<[[0xb; 0xb; 0; 5; 2] := demo_node 2 0 2 [3] None]>
  {[[0xc; 0xc; 0; 1] := demo_node 30 0 0 [] (Some 4)]})).

Lemma cursor_within_prefix :
  visit_keys 1 demo_prefixed new_prefix_set [0xb; 0xb; 0; 5] = [Some []; None]
  ∧ visit_keys 4 demo_prefixed (insert [0xb; 0xb; 0; 5; 0xd; 5] (insert [0xc; 0xc; 0; 1; 0xb; 8] new_prefix_set))
      [0xb; 0xb; 0; 5] = [Some []; Some [2]; Some [2; 1]; Some [4]; None].
Proof. split; vm_compute; reflexivity. Qed.
