(* ===== verification/IntermediateHashes.v ===== *)
(** * IntermediateHashes

    [src/src/trie/intermediate_hashes.rs], lines 298 to 556: the state root
    of the hashed tables, from their leaves and the stored nodes that still
    hold, and the update of the stored nodes. *)

From stdpp Require Import sorting.
From S2P Require Import Prelude Words Errors Account Transaction Block BytesOrder StagedSync Etl TableCodecs Database HashState.
From S2P Require Import TrieNode HashBuilder TrieCursor.

Section intermediate_hashes.
Context {HH : Hashing} {HR : RlpStream}.
Implicit Types (d : Database).

(** [unpack_nibbles(hash.as_bytes())]. *)
Definition hash_path (hash : Z) : bytes := unpack_nibbles (to_be_bytes KECCAK_LENGTH hash).

(** ** The loop of [calculate_root] and [calculate_storage_root]

    [s] is what the loop adds to; [add_branch] and [leaves] add to it. *)

Section walk.
Context {T : Type}.

(** The leaves from a cursor of the state on, up to the key of the trie. *)
Fixpoint add_leaves {A} (path : A → bytes) (add : A → T → result T) (trie_key : option bytes) (l : list A) (s : T) :
    result T :=
  match l with
  | [] => Ok s
  | x :: l =>
      if match trie_key with Some k => bool_decide (bytes_lt k (path x)) | None => false end
      then Ok s
      else s ← add x s; add_leaves path add trie_key l s
  end.

(** The key to seek: 32 bytes. *)
Definition seek_key (uncovered : bytes) : Z := from_be_bytes (resize 32 0 uncovered).

(** [trie_key]: the key of the trie after its step; [from]: the sought key. *)
Fixpoint walk_trie (add_branch : bytes → Z → bool → T → result T)
    (leaves : option bytes → Z → T → result T) (fuel : nat) (trie : Cursor) (s : T) : result (Cursor * T) :=
  match key trie with
  | None => Ok (trie, s)
  | Some k =>
      match fuel with
      | O => Err (Bail "out of fuel")
      | S fuel =>
          s ← (if can_skip_state trie
               then h ← hash trie; h ← unwrap h; add_branch k h (children_are_in_trie trie) s
               else Ok s);
          uncovered ← first_uncovered_prefix trie;
          match uncovered with
          | None => Ok (trie, s)
          | Some uncovered =>
              trie ← next trie;
              s ← leaves (key trie) (seek_key uncovered) s;
              walk_trie add_branch leaves fuel trie s
          end
      end
  end.

End walk.

(** Enough steps for the nodes of a table, with each of their digits, and
    for the root. *)
Definition trie_fuel (t : ByteTable) : nat := (17 * (size t + 1) + 1)%nat.

(** ** The storage of an account *)

Definition storage_value_rlp (value : Z) : bytes := rlp_bytes (zeroless_view (to_be_bytes 32 value)).

Definition slot_path (e : Z * (Z * Z)) : bytes := hash_path e.2.1.

(** The pushes of a node collector: marshalled nodes under a prefix. *)
Definition collected (prefix : bytes) (hb : HashBuilder) : list Entry :=
  (fun call => (prefix ++ call.1, marshal_node call.2)) <$> default [] (node_collector hb).

(** With the hashed storage and the trie nodes of storage; returns the root,
    the nodes for the collector and the table of the cursor. *)
Definition calculate_storage_root (hashed_storage : DupSlots) (key_with_inc : Z) (changed : PrefixSet) (t : ByteTable) :
    result (Z * list Entry * ByteTable) :=
  let prefix := to_be_bytes KECCAK_LENGTH key_with_inc in
  let hb := with_collected (Some []) new_builder in
  let leaves trie_key from :=
    add_leaves slot_path (fun e => add_leaf (slot_path e) (storage_value_rlp e.2.2)) trie_key
      (filter (fun e => from ≤ e.2.1) (walk_slots key_with_inc hashed_storage)) in
  trie ← new_cursor t changed prefix;
  '(trie, hb) ← walk_trie add_branch_node leaves (trie_fuel t) trie hb;
  '(root, hb) ← root_hash hb;
  Ok (root, collected prefix hb, table trie).

(** ** The state *)

(** [DbTrieLoader], with the nodes pushed to the storage collector and the
    trie nodes of storage. *)
Record DbTrieLoader : Type := mkLoader {
  hb : HashBuilder;
  storage_nodes : list Entry;
  trie_storage : ByteTable
}.

Definition with_hb (b : HashBuilder) (l : DbTrieLoader) : DbTrieLoader :=
  mkLoader b (storage_nodes l) (trie_storage l).

Definition account_path (e : Z * Account) : bytes := hash_path e.1.

Definition account_rlp (account : Account) (storage_root : Z) : bytes :=
  rlp_account (nonce account) (balance account) storage_root (code_hash account).

Definition add_account (hashed_storage : DupSlots) (changed : PrefixSet) (e : Z * Account) (l : DbTrieLoader) :
    result DbTrieLoader :=
  '(storage_root, pushed, t) ← calculate_storage_root hashed_storage e.1 changed (trie_storage l);
  b ← add_leaf (account_path e) (account_rlp e.2 storage_root) (hb l);
  Ok (mkLoader b (storage_nodes l ++ pushed) t).

Definition add_account_branch (k : bytes) (h : Z) (in_db : bool) (l : DbTrieLoader) : result DbTrieLoader :=
  b ← add_branch_node k h in_db (hb l);
  Ok (with_hb b l).

(** The account collector leaves out the root. *)
Definition account_nodes (b : HashBuilder) : list Entry :=
  filter (fun e => e.1 ≠ []) (collected [] b).

(** Returns the root and the nodes for the two collectors; the nodes that
    the cursors have consumed are out of the tables. *)
Definition calculate_root (changed : PrefixSet) d : result (Z * list Entry * list Entry * Database) :=
  let loader := mkLoader (with_collected (Some []) new_builder) [] (TrieStorage d) in
  let leaves trie_key from :=
    add_leaves account_path (add_account (HashedStorage d) changed) trie_key (walk_from from (HashedAccount d)) in
  trie ← new_cursor (TrieAccount d) changed [];
  '(trie, loader) ← walk_trie add_account_branch leaves (trie_fuel (TrieAccount d)) trie loader;
  '(root, b) ← root_hash (hb loader);
  Ok (root, account_nodes b, storage_nodes loader,
      set_TrieStorage (trie_storage loader) (set_TrieAccount (table trie) d)).

(** [cursor.put] of an erased table. *)
Definition put_bytes (k v : bytes) (t : ByteTable) : result ByteTable := Ok (<[k := v]> t).

Definition do_increment_intermediate_hashes (expected_root : option Z) (changed : PrefixSet) d :
    result (Z * Database) :=
  '(root, account_entries, storage_entries, d) ← calculate_root changed d;
  if match expected_root with Some expected => negb (expected =? root) | None => false end
  then Err (Bail "Wrong state root")
  else
    t ← load put_bytes (push_all account_entries (new_collector OPTIMAL_BUFFER_CAPACITY)) (TrieAccount d);
    let d := set_TrieAccount t d in
    t ← load put_bytes (push_all storage_entries (new_collector OPTIMAL_BUFFER_CAPACITY)) (TrieStorage d);
    Ok (root, set_TrieStorage t d).

(** ** The changed keys *)

Definition hashed_storage_key (address location : Z) : bytes :=
  to_be_bytes KECCAK_LENGTH (hash_address address) ++ hash_path (hash_location location).

Definition gather_changes (from : Z) d : PrefixSet :=
  let starting_key := u64_add from 1 in
  let out :=
    foldl (fun out e => insert (hash_path (hash_address e.2.1)) out) new_prefix_set
      (filter (fun e => starting_key ≤ e.1) (AccountChangeSet d)) in
  foldl (fun out e => insert (hashed_storage_key e.1.2 e.2.1) out) out
    (filter (fun e => starting_key ≤ e.1.1) (StorageChangeSet d)).

Definition increment_intermediate_hashes (from : Z) (expected_root : option Z) d : result (Z * Database) :=
  let changes := gather_changes from d in
  do_increment_intermediate_hashes expected_root changes d.

Definition regenerate_intermediate_hashes (expected_root : option Z) d : result (Z * Database) :=
  let d := set_TrieAccount ∅ d in
  let d := set_TrieStorage ∅ d in
  do_increment_intermediate_hashes expected_root new_prefix_set d.

End intermediate_hashes.
