(* ===== verification/TrieWalk.v ===== *)
(** * TrieWalk

    The cursor over the stored trie nodes of [TrieCursor] goes forward: its
    keys increase, and behind a subtree that it skips they leave the
    subtree. So the loop of [IntermediateHashes] adds every leaf, or a hash
    that stands for it, in order. *)

From stdpp Require Import sorting.
From S2P Require Import Prelude Words Errors Account Transaction Block BytesOrder StagedSync Etl TableCodecs Database BufferFlush HashState.
From S2P Require Import TrieNode HashBuilder MerkleTrie BuilderFrames BuilderMasks BuilderRoot MerkleCover TrieCursor IntermediateHashes.

(** ** Paths *)

(** Where a path is behind another. *)
Lemma bytes_lt_cons x y a b : bytes_lt (x :: a) (y :: b) ↔ x < y ∨ x = y ∧ bytes_lt a b.
Proof.
  unfold bytes_lt. cbn. destruct (Z.compare_spec x y) as [->| |]; [|split; [by left|done]|split; [done|lia]].
  split; [by right|]. by intros [?|[_ ?]]; [lia|].
Qed.

Lemma bytes_le_cons x y a b : bytes_le (x :: a) (y :: b) ↔ x < y ∨ x = y ∧ bytes_le a b.
Proof.
  unfold bytes_le. cbn. destruct (Z.compare_spec x y) as [->| |]; [|split; [by left|done]|split; [done|lia]].
  split; [by right|]. by intros [?|[_ ?]]; [lia|].
Qed.

Lemma diverges_le a b : bytes_le a b → a `prefix_of` b ∨ diverges a b.
Proof.
  intros [->|Hlt]%bytes_le_lt; [by left|]. destruct (decide (a `prefix_of` b)); [by left|]. by right.
Qed.

Lemma diverges_lt a b : diverges a b → bytes_lt a b.
Proof. by intros []. Qed.

(** What diverges from a path diverges from all that is behind it. *)
Lemma diverges_le_trans a b p : diverges a b → bytes_le b p → diverges a p.
Proof.
  revert b p. induction a as [|x a IH]; intros [|y b] [|z p] Hd Hle;
    try (by destruct (diverges_nil _ _ Hd)).
  apply diverges_cons in Hd. apply bytes_le_cons in Hle. apply diverges_cons.
  destruct Hd as [?|[-> Hd]], Hle as [?|[-> Hle]]; [left; lia..|]. right. split; [done|by eapply IH].
Qed.

Lemma diverges_prefix a a' b : a `prefix_of` a' → diverges a b → diverges a' b.
Proof.
  intros [c ->]. revert b. induction a as [|x a IH]; intros [|y b] Hd; try (by destruct (diverges_nil _ _ Hd)).
  cbn [app]. apply diverges_cons in Hd. apply diverges_cons. destruct Hd as [?|[-> ?]]; [by left|right; auto].
Qed.

Lemma diverges_last p d e q : d < e → diverges (p ++ [d]) (p ++ e :: q).
Proof. intros Hde. apply diverges_app, diverges_cons. by left. Qed.

Lemma prefix_lt p q : q ≠ [] → bytes_lt p (p ++ q).
Proof.
  intros Hq. unfold bytes_lt. rewrite <- (app_nil_r p) at 1. rewrite bytes_cmp_app. by destruct q.
Qed.

Lemma bytes_lt_prefix a p : a `prefix_of` p → a ≠ p → bytes_lt a p.
Proof. intros [q ->] Hne. apply prefix_lt. intros ->. by rewrite app_nil_r in Hne. Qed.

(** ** The increment of a key *)

(** From the front. *)
Fixpoint inc (k : bytes) : option bytes :=
  match k with
  | [] => None
  | x :: k =>
      match inc k with
      | Some u => Some (x :: u)
      | None => if x <? 15 then Some (x + 1 :: replicate (length k) 0) else None
      end
  end.

Lemma inc_snoc k n : n ≤ 15 →
  inc (k ++ [n]) = if n <? 15 then Some (k ++ [n + 1]) else fmap (fun u => u ++ [0]) (inc k).
Proof.
  intros Hn. induction k as [|x k IH]; cbn [inc app].
  - by destruct (n <? 15).
  - rewrite IH. destruct (n <? 15); [done|]. destruct (inc k) as [u|]; cbn [fmap option_fmap option_map]; [done|].
    rewrite length_app. cbn [length]. destruct (x <? 15); [|done].
    cbn [fmap option_fmap option_map app]. do 2 f_equal. by rewrite replicate_add.
Qed.

Lemma increment_key_inc k : nibbles k → increment_key k = Ok (inc k).
Proof.
  intros Hk. unfold increment_key. induction k as [|n k IH] using rev_ind; [done|].
  apply Forall_app in Hk as [Hk Hn]. assert (0 ≤ n < 16) as Hn16 by by inversion Hn. specialize (IH Hk).
  rewrite reverse_snoc. rewrite inc_snoc by lia. cbn [increment_last]. rewrite (proj2 (Z.ltb_lt n 16)) by lia.
  destruct (n <? 15); [rewrite ok_bind; cbn [fmap option_fmap option_map]; by rewrite reverse_cons, reverse_involutive|].
  destruct (increment_last (reverse k)) as [o|e|]; [|done..]. rewrite ok_bind in IH. injection IH as <-.
  rewrite !ok_bind. destruct o as [u|]; cbn [fmap option_fmap option_map]; [by rewrite reverse_cons|done].
Qed.

Lemma zeros_le n p : nibbles p → (n ≤ length p)%nat → bytes_le (replicate n 0) p.
Proof.
  intros Hp. revert n. induction Hp as [|y p Hy Hp IH]; intros [|n] Hn; cbn [length] in Hn; try done; [lia|].
  cbn [replicate]. apply bytes_le_cons. destruct (decide (y = 0)) as [->|]; [|left; lia].
  right. split; [done|]. apply IH. lia.
Qed.

Lemma inc_spec k : nibbles k →
  match inc k with
  | Some u => nibbles u ∧ length u = length k
      ∧ ∀ p, nibbles p → (length k ≤ length p)%nat → bytes_le u p ↔ diverges k p
  | None => ∀ p, nibbles p → (length k ≤ length p)%nat → ¬ diverges k p
  end.
Proof.
  induction 1 as [|x k Hx Hk IH]; [by intros p _ _ []%diverges_nil|]. cbn [inc].
  destruct (inc k) as [u|].
  - destruct IH as (Hu & Hlen & IH). split_and!; [by constructor|cbn; lia|].
    intros [|y p] Hp Hl; [cbn in Hl; lia|]. inversion Hp; subst. rewrite bytes_le_cons, diverges_cons, IH; [done|done|cbn in Hl; lia].
  - destruct (Z.ltb_spec x 15).
    + split_and!; [constructor; [lia|]; apply Forall_replicate; lia|cbn; by rewrite length_replicate|].
      intros [|y p] Hp Hl; [cbn in Hl; lia|]. inversion Hp as [|? ? Hy Hp']; subst. cbn in Hl.
      rewrite bytes_le_cons, diverges_cons. specialize (IH p Hp' ltac:(lia)).
      pose proof (zeros_le (length k) p Hp' ltac:(lia)) as H0. split; [intros [?|[? _]]; left; lia|].
      intros [?|[_ Hd]]; [|by destruct IH]. destruct (decide (y = x + 1)); [right; split; [lia|done]|left; lia].
    + intros [|y p] Hp Hl; [cbn in Hl; lia|]. inversion Hp as [|? ? Hy Hp']; subst. cbn in Hl.
      rewrite diverges_cons. intros [?|[_ Hd]]; [lia|]. by apply (IH p Hp' ltac:(lia)).
Qed.

(** ** Rows in order *)

#[global] Instance row_le_preorder : PreOrder row_le.
Proof. split; [by intros [a ?]; unfold row_le; cbn|]. intros [a ?] [b ?] [c ?]. unfold row_le. cbn. by intros ->. Qed.

#[global] Instance row_le_total : Total row_le.
Proof. intros [a ?] [b ?]. apply (total bytes_le a b). Qed.

Lemma elem_of_rows t k v : (k, v) ∈ rows t ↔ t !! k = Some v.
Proof. unfold rows. rewrite (merge_sort_Permutation row_le _). apply elem_of_map_to_list. Qed.

Lemma seek_row_spec k t :
  match seek_row k t with
  | Some (k', v) => t !! k' = Some v ∧ bytes_le k k' ∧ ∀ k'', is_Some (t !! k'') → bytes_le k k'' → bytes_le k' k''
  | None => ∀ k'', is_Some (t !! k'') → ¬ bytes_le k k''
  end.
Proof.
  unfold seek_row. set (l := filter _ (rows t)).
  assert (StronglySorted row_le l) as Hs by (apply StronglySorted_filter', StronglySorted_merge_sort; apply _).
  assert (∀ k' v, (k', v) ∈ l ↔ bytes_le k k' ∧ t !! k' = Some v) as Hl.
  { intros k' v. unfold l. by rewrite list_elem_of_filter, elem_of_rows. }
  clearbody l. destruct l as [|[k' v] l]; cbn [head].
  - intros k'' [v Hv] Hle. specialize (proj2 (Hl k'' v) (conj Hle Hv)). by intros ?%elem_of_nil.
  - destruct (proj1 (Hl k' v) (list_elem_of_here _ _)) as [Hle Hv]. split_and!; [done|done|].
    intros k'' [v'' Hv''] Hle''. pose proof (proj2 (Hl k'' v'') (conj Hle'' Hv'')) as Hin.
    apply elem_of_cons in Hin as [[= -> ->]|Hin]; [done|]. inversion Hs as [|? ? _ Hall]; subst.
    rewrite Forall_forall in Hall. exact (Hall _ Hin).
Qed.

(** ** Masks and nodes *)

Lemma mask_has_testbit m d : 0 ≤ d < 16 → mask_has m d = Z.testbit m d.
Proof.
  intros Hd. unfold mask_has.
  assert (∀ e, Z.testbit (Z.land m (bit16 d)) e = Z.testbit m e && (d =? e)) as Hl
    by (intros e; by rewrite Z.land_spec, testbit_bit16).
  destruct (Z.eqb_spec (Z.land m (bit16 d)) 0) as [E|Hne]; cbn [negb].
  - specialize (Hl d). by rewrite E, Z.bits_0, Z.eqb_refl, andb_true_r in Hl.
  - destruct (Z.testbit m d) eqn:Hm; [done|]. destruct Hne. apply Z.bits_inj'. intros e _. rewrite Hl, Z.bits_0.
    destruct (Z.eqb_spec d e) as [<-|]; [by rewrite Hm|by rewrite andb_false_r].
Qed.

Lemma first_nibble_spec m : is_u16 m → m ≠ 0 → ∃ d, first_nibble m = Some d ∧ 0 ≤ d < 16.
Proof.
  intros Hm Hne. unfold first_nibble. set (l := filter _ digits16).
  assert (∀ d, d ∈ l ↔ mask_has m d = true ∧ 0 ≤ d < 16) as Hl
    by (intros d; unfold l; by rewrite list_elem_of_filter, elem_of_digits16).
  clearbody l. destruct l as [|d l].
  - destruct Hne. apply Z.bits_inj'. intros e He. rewrite Z.bits_0. unfold is_u16 in Hm.
    destruct (decide (e < 16)) as [Hlt|Hge].
    + rewrite <- mask_has_testbit by lia. destruct (mask_has m e) eqn:E; [|done].
      pose proof (proj2 (Hl e) (conj E (conj He Hlt))) as Hin. by apply elem_of_nil in Hin.
    + destruct (decide (m = 0)) as [->|]; [apply Z.bits_0|]. apply Z.bits_above_log2; [lia|].
      assert (Z.log2 m < 16); [|lia]. apply Z.log2_lt_pow2; lia.
  - exists d. split; [done|]. apply Hl. left.
Qed.

Lemma first_nibble_least m d e : 0 ≤ e < d → first_nibble m = Some d → mask_has m e = false.
Proof.
  unfold first_nibble. intros He Hf. destruct (mask_has m e) eqn:Hm; [|done]. exfalso.
  assert (StronglySorted Z.lt digits16) as Hs by (repeat constructor).
  assert (e ∈ digits16) as Hin.
  { apply elem_of_digits16. apply head_Some_elem_of, list_elem_of_filter in Hf as [_ Hf]. apply elem_of_digits16 in Hf. lia. }
  revert Hf Hin. induction Hs as [|x l Hl IH Hx]; intros Hf Hin; [by apply elem_of_nil in Hin|].
  destruct (decide (mask_has m x = true)) as [Hmx|Hmx].
  - rewrite filter_cons_True in Hf by done. injection Hf as ->. apply elem_of_cons in Hin as [->|Hin]; [lia|].
    rewrite Forall_forall in Hx. specialize (Hx e Hin). lia.
  - rewrite filter_cons_False in Hf by done. apply elem_of_cons in Hin as [->|Hin]; [done|auto].
Qed.

Lemma new_node_eq s t h hs r n : new_node s t h hs r = Ok n → n = mkNode s t h hs r.
Proof. unfold new_node. intros H. res_inv. destruct (_ =? _)%nat; by res_inv. Qed.

Lemma row_node_ok v n : row_node v = Ok n → state_mask n ≠ 0 ∧ count_ones (hash_mask n) = length (hashes n).
Proof.
  unfold row_node. intros (o & H1 & H)%res_bind_ok. apply res_bind_ok in H as (n' & H2 & H).
  destruct (Z.eqb_spec (state_mask n') 0) as [|Hne]; [done|]. injection H as ->. split; [done|].
  apply unwrap_ok in H2 as ->. unfold unmarshal_node in H1. case_match; [done|]. case_match; [done|].
  apply res_bind_ok in H1 as (n' & H1 & [= ->]). pose proof (new_node_count _ _ _ _ _ _ H1) as Hc.
  by apply new_node_eq in H1 as ->.
Qed.

(** The hash of the child [d] of a node, if it has one. *)
Definition node_hash (n : Node) (d : Z) : option Z :=
  if mask_has (hash_mask n) d then hashes n !! count_ones (Z.land (hash_mask n) (bit16 d - 1)) else None.

(** The bits of a mask below a digit. *)
Lemma ones_below m d : 0 ≤ d < 16 →
  count_ones (Z.land m (bit16 d - 1)) = length (filter (fun e => Z.testbit m e = true) (seqZ 0 d)).
Proof.
  intros Hd. unfold count_ones. rewrite (digits16_split d Hd).
  assert (∀ e, 0 ≤ e → Z.testbit (Z.land m (bit16 d - 1)) e = Z.testbit m e && (e <? d)) as Hl.
  { intros e He. rewrite Z.land_spec. f_equal. unfold bit16. change 15 with (Z.ones 4).
    rewrite Z.land_ones, Z.mod_small by lia. replace (Z.shiftl 1 d - 1) with (Z.ones d)
      by (rewrite Z.ones_equiv, Z.shiftl_1_l; lia).
    destruct (Z.ltb_spec e d); [apply Z.ones_spec_low; lia|apply Z.ones_spec_high; lia]. }
  rewrite filter_app, length_app.
  rewrite filter_cons_False by (rewrite Hl, Z.ltb_irrefl, andb_false_r by lia; done).
  rewrite (filter_ext_elem _ (fun e => Z.testbit m e = true) (seqZ 0 d)).
  2: { intros e [H0 H1]%elem_of_seqZ. rewrite Hl, (proj2 (Z.ltb_lt e d)), andb_true_r by lia. done. }
  assert (filter (fun e => Z.testbit (Z.land m (bit16 d - 1)) e = true) (seqZ (d + 1) (15 - d)) = []) as ->; [|cbn; lia].
  rewrite (filter_ext_elem _ (fun e => False)); [by induction (seqZ (d + 1) (15 - d))|].
  intros e [H0 H1]%elem_of_seqZ. rewrite Hl, (proj2 (Z.ltb_ge e d)), andb_false_r by lia. done.
Qed.

Lemma count_below m d : 0 ≤ d < 16 → Z.testbit m d = true →
  (count_ones (Z.land m (bit16 d - 1)) < count_ones m)%nat.
Proof.
  intros Hd Hm. rewrite ones_below by done. unfold count_ones.
  rewrite (digits16_split d Hd), filter_app, length_app, filter_cons_True by done. cbn [length]. lia.
Qed.

(** ** The cursor goes forward *)

Section cursor.
Context (t0 : ByteTable) (pre : bytes) (ch : PrefixSet).

Definition node_at (p : bytes) (n : Node) : Prop := ∃ v, t0 !! (pre ++ p) = Some v ∧ row_node v = Ok n.

(** The stored nodes under a prefix: the tree flags are true of the table,
    and exactly the root has its hash. *)
Record trie_wf : Prop := {
  wf_row p v : t0 !! (pre ++ p) = Some v → ∃ n, row_node v = Ok n ∧ is_u16 (state_mask n);
  wf_path p : is_Some (t0 !! (pre ++ p)) → nibbles p ∧ (length p < 63)%nat;
  wf_tree p n d : node_at p n → 0 ≤ d < 16 → mask_has (tree_mask n) d = true →
    ∃ q, is_Some (t0 !! (pre ++ p ++ d :: q));
  wf_root p n : node_at p n → is_Some (node_root_hash n) ↔ p = []
}.

Definition sub_ok (sn : CursorSubNode) : Prop :=
  -1 ≤ nibble sn < 16 ∧ (nibble sn = -1 → sub_key sn = [])
  ∧ match sub_node sn with Some n => node_at (sub_key sn) n | None => sub_key sn = [] end.

Fixpoint stack_ok (s : list CursorSubNode) : Prop :=
  match s with
  | [] => True
  | sn :: rest =>
      sub_ok sn ∧ stack_ok rest
      ∧ match rest with
        | [] => sub_key sn = []
        | parent :: _ => sub_node sn ≠ None ∧ 0 ≤ nibble parent ∧ full_key parent `prefix_of` sub_key sn
        end
  end.

(** The rows that are gone are behind the cursor, but for the root. *)
Definition below (c : Cursor) (k : bytes) : Prop :=
  ∀ q, is_Some (t0 !! (pre ++ q)) → table c !! (pre ++ q) = None → bytes_lt q k ∨ q = [].

Record cursor_ok (c : Cursor) : Prop := {
  co_prefix : prefix c = pre;
  co_changed : changed c = ch;
  co_stack : stack_ok (stack c);
  co_table k : is_Some (table c !! k) → table c !! k = t0 !! k;
  co_other k : ¬ pre `prefix_of` k → table c !! k = t0 !! k;
  co_below sn rest : stack c = sn :: rest → below c (full_key sn)
}.

Context (Hwf : trie_wf).

Lemma full_key_nibble sn : 0 ≤ nibble sn → full_key sn = sub_key sn ++ [nibble sn].
Proof. intros Hn. unfold full_key. by rewrite (proj2 (Z.leb_le 0 _)). Qed.

Lemma full_key_mk p n d : 0 ≤ d → full_key (mkSubNode p n d) = p ++ [d].
Proof. intros Hd. by apply full_key_nibble. Qed.

Lemma full_key_root sn : nibble sn = -1 → full_key sn = sub_key sn.
Proof. intros Hn. unfold full_key. by rewrite Hn. Qed.

Lemma head_app_prefix {A} (a b : list A) d : a `prefix_of` b → head a = Some d → head b = Some d.
Proof. intros [c ->] Ha. by destruct a. Qed.

Lemma bottom_nibble d s : ∀ sn,
  stack_ok (sn :: s) → 0 ≤ nibble sn → head (full_key sn) = Some d → set_bottom_nibble d (sn :: s) = sn :: s.
Proof.
  induction s as [|parent s IH]; intros sn (_ & Hs & Hp) Hn Hd.
  - rewrite full_key_nibble, Hp in Hd by done. injection Hd as <-. by destruct sn.
  - destruct Hp as (_ & Hn' & Hpre). change (set_bottom_nibble d (sn :: parent :: s)) with (sn :: set_bottom_nibble d (parent :: s)).
    f_equal. apply IH; [done|done|]. rewrite full_key_nibble in Hd by done.
    pose proof (full_key_nibble parent Hn') as Hf. destruct Hpre as [r Hr]. rewrite Hr, Hf in Hd. rewrite Hf.
    by destruct (sub_key parent).
Qed.

(** A node that is read has a digit, or is the root. *)
Lemma row_digit p v : t0 !! (pre ++ p) = Some v → p ≠ [] →
  ∃ n d, row_node v = Ok n ∧ node_root_hash n = None ∧ first_nibble (state_mask n) = Some d ∧ 0 ≤ d < 16 ∧ node_at p n.
Proof.
  intros Hv Hp. destruct (wf_row Hwf _ _ Hv) as (n & Hn & Hu).
  destruct (first_nibble_spec (state_mask n) Hu) as (d & Hd & Hdr); [by apply (row_node_ok v)|].
  assert (node_at p n) as Hat by by exists v. exists n, d. split_and!; try done; [|lia..].
  destruct (node_root_hash n) eqn:E; [|done]. destruct Hp. by apply (wf_root Hwf p n Hat).
Qed.

Definition with_sn (sn : CursorSubNode) (c c' : Cursor) : Prop := ∃ rest, stack c' = sn :: rest.

Lemma find_row_row k c p r :
  prefix c = pre → find_row k false c = Some (p, r) → ∃ v, r = Some v ∧ table c !! (pre ++ p) = Some v ∧ bytes_le k p.
Proof.
  intros Hpre Hf. unfold find_row in Hf. rewrite Hpre in Hf. pose proof (seek_row_spec (pre ++ k) (table c)) as Hseek.
  destruct (seek_row (pre ++ k) (table c)) as [[k' v]|]; [|done]. destruct Hseek as (Hv & Hle & _).
  unfold has_prefix in Hf. destruct (bool_decide_reflect (pre `prefix_of` k')) as [[p' ->]|]; [|done].
  injection Hf as <- <-. exists v. rewrite drop_app_length. split_and!; [done|done|].
  unfold bytes_le in *. by rewrite bytes_cmp_app in Hle.
Qed.

Lemma sub_key_prefix sn : sub_key sn `prefix_of` full_key sn.
Proof. unfold full_key. destruct (0 <=? nibble sn); [by apply prefix_app_r|done]. Qed.

(** The row that is read, and the cursor behind it. *)
Lemma find_row_spec k c : prefix c = pre →
  match find_row k false c with
  | Some (p, r) => bytes_le k p ∧ ∀ q, is_Some (table c !! (pre ++ q)) → bytes_le k q → bytes_le p q
  | None => ∀ q, is_Some (table c !! (pre ++ q)) → ¬ bytes_le k q
  end.
Proof.
  intros Hpre. unfold find_row. rewrite Hpre. pose proof (seek_row_spec (pre ++ k) (table c)) as Hseek.
  assert (∀ a b, bytes_le (pre ++ a) (pre ++ b) ↔ bytes_le a b) as Happ by (intros; unfold bytes_le; by rewrite bytes_cmp_app).
  destruct (seek_row (pre ++ k) (table c)) as [[k' v]|].
  - destruct Hseek as (Hv & Hle & Hmin). unfold has_prefix. destruct (bool_decide_reflect (pre `prefix_of` k')) as [[p ->]|Hno].
    + rewrite drop_app_length. split; [by apply Happ|]. intros q Hq Hkq. by apply Happ, Hmin, Happ.
    + intros q Hq Hkq. apply Hno. apply Happ in Hkq. specialize (Hmin _ Hq Hkq).
      apply (bytes_le_prefix pre k' (pre ++ q)); [|done|by apply prefix_app_r].
      etrans; [|exact Hle]. apply prefix_bytes_le. by apply prefix_app_r.
  - intros q Hq Hkq. by apply (Hseek _ Hq), Happ.
Qed.

Lemma consume_eq k c p r :
  prefix c = pre → (∀ k, is_Some (table c !! k) → table c !! k = t0 !! k) → k ≠ [] → find_row k false c = Some (p, r) →
  ∃ e p' n d, p = e :: p' ∧ node_at p n ∧ first_nibble (state_mask n) = Some d ∧ 0 ≤ d < 16
    ∧ consume_node k false c = Ok (with_table (delete (pre ++ p) (table c))
        (update_skip_state (TrieCursor.with_stack (mkSubNode p (Some n) d :: set_bottom_nibble e (stack c)) c))).
Proof.
  intros Hpre Ht Hk Hf. unfold consume_node. rewrite Hf.
  destruct (find_row_row k c p r Hpre Hf) as (v & -> & Hv & Hle).
  assert (p ≠ []) as Hp by (intros ->; by destruct k).
  assert (t0 !! (pre ++ p) = Some v) as Hv0 by (rewrite <- Ht; [done|eauto]).
  destruct (row_digit p v Hv0 Hp) as (n & d & Hn & Hroot & Hd & Hdr & Hat). rewrite Hn, !ok_bind. cbv beta iota. rewrite Hroot.
  rewrite (bool_decide_eq_false_2 (is_Some None)) by (by intros []). rewrite Hd. cbn [unwrap]. rewrite ok_bind.
  destruct p as [|e p]; [done|]. exists e, p, n, d. split_and!; [done|done|done|lia|lia|].
  rewrite bool_decide_eq_true_2 by eauto. rewrite (proj2 (Z.eqb_neq d (-1))) by lia. cbn [negb]. rewrite orb_true_r. cbn [andb].
  change (prefix (update_skip_state _)) with (prefix c). by rewrite Hpre.
Qed.

(** Reading a node on the way forward from [k]. *)
Lemma consume_ok k c s parent s' :
  prefix c = pre → changed c = ch → (∀ k, is_Some (table c !! k) → table c !! k = t0 !! k) →
  (∀ k, ¬ pre `prefix_of` k → table c !! k = t0 !! k) → below c k → k ≠ [] →
  stack c = s → stack_ok s →
  (∀ p d r, find_row k false c = Some (p, r) → head p = Some d →
     set_bottom_nibble d s = parent :: s' ∧ stack_ok (parent :: s') ∧ 0 ≤ nibble parent ∧ full_key parent `prefix_of` p) →
  ∃ c', consume_node k false c = Ok c' ∧ cursor_ok c'
    ∧ match find_row k false c with
      | None => stack c' = []
      | Some (p, _) => bytes_le k p ∧ ∃ d n, stack c' = mkSubNode p (Some n) d :: parent :: s' ∧ 0 ≤ d < 16
      end.
Proof.
  intros Hpre Hch Ht Hother Hbelow Hk Hs Hok Hparent. unfold consume_node.
  destruct (find_row k false c) as [[p r]|] eqn:Hf.
  2: { exists (with_stack [] c). split_and!; [done| |done]. by constructor. }
  destruct (consume_eq k c p r Hpre Ht Hk Hf) as (e & p' & n & d & -> & Hat & Hd & Hdr & Heq).
  unfold consume_node in Heq. rewrite Hf in Heq. rewrite Heq. clear Heq.
  destruct (find_row_row k c _ r Hpre Hf) as (v & -> & Hv & Hle).
  destruct (Hparent (e :: p') e (Some v) eq_refl eq_refl) as (Hset & Hok' & Hnp & Hpp). rewrite Hs, Hset.
  eexists. split; [reflexivity|]. cbn [table prefix update_skip_state TrieCursor.with_stack with_table TrieCursor.stack].
  split; [|split; [done|]; by exists d, n].
  constructor; cbn [prefix changed TrieCursor.stack table update_skip_state with_table TrieCursor.with_stack]; [done|done| | | |].
  - split; [split; [cbn; lia|split; [cbn; intros ?; lia|exact Hat]]|split; [exact Hok'|]].
    split; [done|]. by split.
  - intros k'. destruct (decide (k' = pre ++ e :: p')) as [->|Hne].
    + rewrite lookup_delete_eq. by intros [].
    + rewrite lookup_delete_ne by done. apply Ht.
  - intros k' Hk'. rewrite lookup_delete_ne; [by apply Hother|]. intros <-. apply Hk'. by apply prefix_app_r.
  - intros sn rest [= <- <-]. rewrite full_key_nibble by (cbn; lia). cbn [sub_key nibble].
    intros q Hq. cbn [table with_table prefix update_skip_state TrieCursor.with_stack]. intros Hgone. destruct (decide (q = e :: p')) as [->|Hne].
    { left. by apply prefix_lt. }
    rewrite lookup_delete_ne in Hgone by (intros [=]%(inj (app pre)); congruence).
    destruct (Hbelow q Hq Hgone) as [Hlt|]; [|by right]. left.
    apply bytes_lt_trans with (e :: p'); [|by apply prefix_lt].
    apply bytes_le_lt in Hle as [<-|Hle]; [done|by eapply bytes_lt_trans].
Qed.

(** A child in the table is found before the cursor leaves it. *)
Lemma find_child k q c :
  prefix c = pre → (∀ k, is_Some (table c !! k) → table c !! k = t0 !! k) → below c k → k ≠ [] →
  is_Some (t0 !! (pre ++ k ++ q)) → ∃ p v, find_row k false c = Some (p, Some v) ∧ k `prefix_of` p.
Proof.
  intros Hpre Ht Hbelow Hk Hq. unfold find_row. rewrite Hpre.
  pose proof (seek_row_spec (pre ++ k) (table c)) as Hseek.
  assert (is_Some (table c !! (pre ++ k ++ q))) as Hin.
  { destruct (table c !! (pre ++ k ++ q)) eqn:E; [done|]. destruct (Hbelow _ Hq E) as [Hlt|Hnil].
    - exfalso. apply (bytes_lt_irrefl k). destruct q as [|d q]; [by rewrite app_nil_r in Hlt|].
      eapply bytes_lt_trans; [|exact Hlt]. by apply prefix_lt.
    - by destruct k. }
  assert (bytes_le (pre ++ k) (pre ++ k ++ q)) as Hle by (apply prefix_bytes_le; rewrite app_assoc; by apply prefix_app_r).
  destruct (seek_row (pre ++ k) (table c)) as [[k' v]|]; [|by destruct (Hseek _ Hin)].
  destruct Hseek as (Hv & Hle' & Hmin). specialize (Hmin _ Hin Hle).
  assert ((pre ++ k) `prefix_of` k') as [r ->].
  { apply (bytes_le_prefix _ _ (pre ++ k ++ q)); [done|done|]. rewrite app_assoc. by apply prefix_app_r. }
  unfold has_prefix. rewrite bool_decide_eq_true_2 by (rewrite <- app_assoc; by apply prefix_app_r).
  rewrite <- app_assoc, drop_app_length. exists (k ++ r), v. split; [done|]. by apply prefix_app_r.
Qed.

(** The same from the root, when it is not stored: at any node behind. *)
Lemma consume_root sn c :
  prefix c = pre → changed c = ch → (∀ k, is_Some (table c !! k) → table c !! k = t0 !! k) →
  (∀ k, ¬ pre `prefix_of` k → table c !! k = t0 !! k) → below c (full_key sn) →
  stack c = [sn] → sub_node sn = None → sub_key sn = [] → 0 ≤ nibble sn < 16 →
  ∃ c', consume_node (full_key sn) false c = Ok c' ∧ cursor_ok c'
    ∧ (stack c' = [] ∨ ∃ sn' rest', stack c' = sn' :: rest' ∧ 0 ≤ nibble sn' ∧ bytes_lt (full_key sn) (full_key sn')
         ∧ ∃ e q, full_key sn' = e :: q ∧ nibble sn ≤ e).
Proof.
  intros Hpre Hch Ht Ho Hb Hs Hn Hk Hr.
  assert (full_key sn = [nibble sn]) as Hfull by (rewrite full_key_nibble, Hk by lia; done).
  destruct (consume_ok (full_key sn) c [sn]
              (with_nibble (default 0 (p ← (fst <$> find_row (full_key sn) false c); head p)) sn) [])
    as (c' & Hc & Hok' & Hres); try done.
  - by rewrite Hfull.
  - split; [|done]. split; [lia|]. split; [lia|]. by rewrite Hn.
  - intros p d r Hf Hd. rewrite Hf. cbn [fmap option_fmap option_map mbind option_bind fst]. rewrite Hd. cbn [default from_option].
    assert (0 ≤ d < 16) as Hdr.
    { destruct (find_row_row _ c p r Hpre Hf) as (v & _ & Hv & _).
      destruct (wf_path Hwf p) as [Hnib _]; [rewrite <- Ht by eauto; eauto|].
      destruct p as [|e p]; [done|]. injection Hd as ->. by inversion Hnib. }
    split; [done|split; [|split]].
    + split; [|done]. split; [cbn; lia|]. split; [cbn; intros ?; lia|]. cbn. by rewrite Hn.
    + cbn; lia.
    + rewrite full_key_nibble by (cbn; lia). cbn. rewrite Hk. destruct p; [done|]. injection Hd as ->. by apply prefix_cons, prefix_nil.
  - exists c'. split_and!; [done|done|]. destruct (find_row _ _ _) as [[p r]|]; [|by left]. right.
    destruct Hres as (Hle & d & n & Hstk & Hdr). eexists _, _. split; [exact Hstk|]. split; [cbn; lia|].
    rewrite full_key_mk by lia. split.
    + apply bytes_le_lt in Hle as [<-|Hle]; [by apply prefix_lt|]. eapply bytes_lt_trans; [exact Hle|by apply prefix_lt].
    + rewrite Hfull in Hle. destruct p as [|e p]; [done|]. apply bytes_le_cons in Hle. exists e, (p ++ [d]). split; [done|lia].
Qed.

(** Moving on from a stack whose top is on the way to [k]. *)
Lemma move_from_ok k s : ∀ allow c,
  prefix c = pre → changed c = ch → (∀ k, is_Some (table c !! k) → table c !! k = t0 !! k) →
  (∀ k, ¬ pre `prefix_of` k → table c !! k = t0 !! k) → below c k → stack_ok s →
  match s with
  | sn :: _ => full_key sn `prefix_of` k ∧ (nibble sn = -1 → allow = true → k = [])
  | [] => True
  end →
  ∃ c', move_from s allow c = Ok c' ∧ cursor_ok c'
    ∧ (stack c' = [] ∨ ∃ sn rest, stack c' = sn :: rest ∧ 0 ≤ nibble sn
         ∧ (diverges k (full_key sn) ∨ k = [] ∧ allow = true)).
Proof.
  induction s as [|sn rest IH]; intros allow c Hpre Hch Ht Ho Hb Hok Hk; cbn [move_from].
  { exists (with_stack [] c). split_and!; [done|by constructor|by left]. }
  destruct Hok as ((Hr & Hroot & Hnode) & Hrest & Hbot). destruct Hk as [Hk Hka].
  assert (∃ c', move_from rest false c = Ok c' ∧ cursor_ok c'
    ∧ (stack c' = [] ∨ ∃ sn rest, stack c' = sn :: rest ∧ 0 ≤ nibble sn
         ∧ (diverges k (full_key sn) ∨ k = [] ∧ allow = true))) as Hpop.
  { destruct (IH false c) as (c' & Hm & Hc' & Hs'); try done.
    - destruct rest as [|parent rest]; [done|]. split; [|done]. etrans; [apply Hbot|]. etrans; [|exact Hk].
      apply sub_key_prefix.
    - exists c'. split_and!; [done|done|]. destruct Hs' as [?|(sn' & rest' & ? & ? & [?|[_ ?]])]; [by left| |done].
      right. exists sn', rest'. auto. }
  destruct (Z.leb_spec 15 (nibble sn)) as [|Hlt]; [exact Hpop|]. cbn [orb].
  destruct ((nibble sn <? 0) && negb allow) eqn:Hneg; [exact Hpop|].
  set (sn1 := with_nibble (nibble sn + 1) sn).
  assert (∀ d q, nibble sn < d → diverges k (sub_key sn ++ d :: q) ∨ k = [] ∧ allow = true) as Hforward.
  { intros d q Hd. destruct (Z.ltb_spec (nibble sn) 0) as [Hn|Hn].
    - right. destruct allow; [|done]. split; [|done]. apply Hka; [lia|done].
    - left. rewrite full_key_nibble in Hk by done. apply (diverges_prefix _ _ _ Hk). by apply diverges_last. }
  destruct (sub_node sn) as [n|] eqn:Hn.
  - change (sub_node sn1) with (sub_node sn). rewrite Hn.
    destruct (next_nibble sn1) as [d|] eqn:Hd; [|exact Hpop].
    assert (nibble sn < d < 16) as Hdr.
    { unfold next_nibble in Hd. destruct (filter _ _) as [|d' l] eqn:Hl; [done|]. injection Hd as ->.
      assert (d ∈ d :: l) as Hin by left. rewrite <- Hl in Hin. apply list_elem_of_filter in Hin as [_ Hin].
      apply elem_of_seqZ in Hin. change (nibble sn1) with (nibble sn + 1) in Hin. lia. }
    exists (with_stack (with_nibble d sn1 :: rest) c). split; [done|].
    assert (full_key (with_nibble d sn1) = sub_key sn ++ [d]) as Hfull by (by rewrite full_key_nibble by (cbn; lia)).
    split; [|right; exists (with_nibble d sn1), rest; rewrite Hfull; split_and!; [done|cbn; lia|apply Hforward; lia]].
    constructor; cbn [prefix changed TrieCursor.stack table TrieCursor.with_stack]; try done.
    + split; [|split; [done|]].
      * split; [cbn; lia|]. split; [cbn; intros ?; lia|]. cbn. by rewrite Hn.
      * destruct rest; [done|]. cbn. by rewrite Hn.
    + intros sn' rest' [= <- <-] q Hq Hgone. cbn [table TrieCursor.with_stack] in Hgone. rewrite Hfull.
      destruct (Hb q Hq Hgone) as [Hlt'|]; [|by right]. left. eapply bytes_lt_trans; [exact Hlt'|].
      destruct (Hforward d [] ltac:(lia)) as [[? _]|[-> _]]; [done|]. by destruct q.
  - change (sub_node sn1) with (sub_node sn). rewrite Hn.
    assert (rest = []) as -> by (destruct rest as [|parent rest]; [done|]; by destruct Hbot).
    assert (full_key sn1 = [nibble sn + 1]) as Hfull.
    { rewrite full_key_nibble by (cbn; lia). change (sub_key sn1) with (sub_key sn). by rewrite Hnode. }
    destruct (consume_root sn1 (with_stack [sn1] c)) as (c' & Hc & Hok' & Hres); try done; [|cbn; lia|].
    + intros q Hq Hgone. rewrite Hfull. destruct (Hb q Hq Hgone) as [Hlt'|]; [|by right]. left.
      eapply bytes_lt_trans; [exact Hlt'|]. destruct (Hforward (nibble sn + 1) [] ltac:(lia)) as [[Hd _]|[-> _]];
        [by rewrite Hnode in Hd|by destruct q].
    + exists c'. split_and!; [done|done|]. destruct Hres as [|(sn' & rest' & Hs' & Hn' & _ & e & q & Hfk & He)]; [by left|].
      right. exists sn', rest'. split_and!; [done|done|]. rewrite Hfk. cbn in He.
      specialize (Hforward e q ltac:(lia)). by rewrite Hnode in Hforward.
Qed.

Definition skip_ok (c : Cursor) : Prop := can_skip_state c = can_skip_state (update_skip_state c).

Lemma update_skip_ok c : cursor_ok c → cursor_ok (update_skip_state c) ∧ skip_ok (update_skip_state c).
Proof. intros [? ? ? ? ? ?]. split; [by constructor|done]. Qed.

Lemma new_cursor_ok : ∃ c sn, new_cursor t0 ch pre = Ok c ∧ cursor_ok c ∧ skip_ok c ∧ stack c = [sn] ∧ full_key sn = [].
Proof.
  unfold new_cursor, consume_node, find_row. cbn [prefix table].
  destruct (t0 !! (pre ++ [])) as [v|] eqn:Hv.
  - destruct (wf_row Hwf _ _ Hv) as (n & Hn & _). rewrite Hn, !ok_bind. cbv beta iota.
    assert (node_at [] n) as Hat by by exists v. destruct (proj2 (wf_root Hwf [] n Hat) eq_refl) as [h Hroot].
    rewrite Hroot. rewrite (bool_decide_eq_true_2 (is_Some (Some h))) by eauto. rewrite ok_bind.
    rewrite (bool_decide_eq_true_2 (is_Some (Some v))) by eauto. change (-1 =? -1) with true. cbn [negb andb]. rewrite orb_false_r.
    set (c := update_skip_state _).
    assert (cursor_ok c) as Hc.
    { constructor; [done|done| |done|done|]; cbn.
      - split; [|done]. split; [cbn; lia|]. split; [done|exact Hat].
      - intros sn rest _ q Hq Hgone. cbn in Hgone. destruct Hq as [w Hw]. congruence. }
    exists (if negb (can_skip_state c) then with_table (delete (pre ++ []) (table c)) c else c), (mkSubNode [] (Some n) (-1)).
    split_and!; [done| | |by destruct (can_skip_state c)|done].
    + destruct (negb _); [|done]. destruct Hc as [? ? ? Ht Ho Hb]. constructor; cbn [prefix changed TrieCursor.stack table with_table]; try done.
      * intros k. destruct (decide (k = pre ++ [])) as [->|]; [rewrite lookup_delete_eq; by intros []|].
        rewrite lookup_delete_ne by done. apply Ht.
      * intros k Hk. rewrite lookup_delete_ne; [by apply Ho|]. intros <-. apply Hk. by apply prefix_app_r.
      * intros sn rest _ q Hq Hgone. cbn [table with_table] in Hgone. right. destruct q as [|d q]; [done|].
        rewrite lookup_delete_ne in Hgone by (intros [=]%(inj (app pre))). destruct Hq as [w Hw].
        change (table c) with t0 in Hgone. by rewrite Hw in Hgone.
    + by destruct (negb _).
  - rewrite ok_bind. cbv beta iota. rewrite ok_bind. rewrite (bool_decide_eq_false_2 (is_Some None)) by (by intros []). cbn [andb].
    eexists _, (mkSubNode [] None (-1)). split; [reflexivity|]. split; [|by split_and!].
    constructor; [done|done| |done|done|]; cbn.
    + split; [|done]. split; [cbn; lia|]. by split.
    + intros sn rest _ q Hq Hgone. cbn in Hgone. destruct Hq as [w Hw]. congruence.
Qed.

(** A step: the key increases, and leaves the subtree that was skipped. *)
Lemma next_ok c sn rest :
  cursor_ok c → stack c = sn :: rest →
  ∃ c', next c = Ok c' ∧ cursor_ok c' ∧ skip_ok c'
    ∧ (stack c' = [] ∨ ∃ sn' rest', stack c' = sn' :: rest' ∧ 0 ≤ nibble sn'
         ∧ bytes_lt (full_key sn) (full_key sn')
         ∧ (can_skip_state c = true → diverges (full_key sn) (full_key sn'))).
Proof.
  intros Hc Hs. unfold next. rewrite Hs. unfold children_are_in_trie. rewrite Hs. pose proof Hc as [Hpre Hch Hstk Ht Ho Hb].
  specialize (Hb sn rest Hs). rewrite Hs in Hstk. destruct Hstk as ((Hr & Hroot & Hnode) & Hrest & Hbot).
  assert (∀ m : result Cursor, (∃ c', m = Ok c' ∧ cursor_ok c'
    ∧ (stack c' = [] ∨ ∃ sn' rest', stack c' = sn' :: rest' ∧ 0 ≤ nibble sn'
         ∧ bytes_lt (full_key sn) (full_key sn')
         ∧ (can_skip_state c = true → diverges (full_key sn) (full_key sn')))) →
    ∃ c', (c ← m; Ok (update_skip_state c)) = Ok c' ∧ cursor_ok c' ∧ skip_ok c'
    ∧ (stack c' = [] ∨ ∃ sn' rest', stack c' = sn' :: rest' ∧ 0 ≤ nibble sn'
         ∧ bytes_lt (full_key sn) (full_key sn')
         ∧ (can_skip_state c = true → diverges (full_key sn) (full_key sn')))) as Hend.
  { intros m (c' & -> & Hc' & Hres). exists (update_skip_state c'). destruct (update_skip_ok c' Hc'). by split_and!. }
  apply Hend. clear Hend.
  assert (∀ allow, (nibble sn = -1 → allow = true → full_key sn = []) → (allow = true → can_skip_state c = false) →
    ∃ c', move_to_next_sibling allow c = Ok c' ∧ cursor_ok c'
    ∧ (stack c' = [] ∨ ∃ sn' rest', stack c' = sn' :: rest' ∧ 0 ≤ nibble sn'
         ∧ bytes_lt (full_key sn) (full_key sn')
         ∧ (can_skip_state c = true → diverges (full_key sn) (full_key sn')))) as Hmove.
  { intros allow Ha Hskip. unfold move_to_next_sibling. rewrite Hs.
    destruct (move_from_ok (full_key sn) (sn :: rest) allow c) as (c' & Hm & Hc' & Hres); try done.
    exists c'. split_and!; [done|done|]. destruct Hres as [|(sn' & rest' & Hs' & Hn' & Hd)]; [by left|]. right.
    exists sn', rest'. split_and!; [done|done|..].
    - destruct Hd as [[? _]|[-> _]]; [done|]. rewrite full_key_nibble by done. by destruct (sub_key sn').
    - intros Hcs. destruct Hd as [?|[_ ->]]; [done|]. by rewrite Hskip in Hcs. }
  destruct (negb (can_skip_state c) && tree_flag sn) eqn:Hdown; [|by apply Hmove].
  apply andb_true_iff in Hdown as [Hskip Htree]. apply negb_true_iff in Hskip.
  destruct (Z.ltb_spec (nibble sn) 0) as [Hn|Hn].
  { apply Hmove; [|done]. intros Hn1 _. by rewrite full_key_root, Hroot. }
  assert (full_key sn = sub_key sn ++ [nibble sn]) as Hfull by by apply full_key_nibble.
  assert (full_key sn ≠ []) as Hne by (rewrite Hfull; by destruct (sub_key sn)).
  assert (sub_node sn ≠ None → ∃ p v, find_row (full_key sn) false c = Some (p, Some v) ∧ full_key sn `prefix_of` p) as Hfind.
  { intros Hsome. unfold tree_flag in Htree. destruct (sub_node sn) as [n|]; [|done].
    rewrite (proj2 (Z.ltb_ge _ _)) in Htree by done.
    destruct (wf_tree Hwf _ _ (nibble sn) Hnode ltac:(lia) Htree) as [q Hq].
    apply (find_child _ q); try done. rewrite Hfull, <- app_assoc. exact Hq. }
  assert (stack_ok (sn :: rest)) as Hsok by done.
  destruct (sub_node sn) as [n|] eqn:Hsn.
  - destruct (Hfind ltac:(done)) as (p & v & Hf & Hpp).
    destruct (consume_ok (full_key sn) c (sn :: rest) sn rest) as (c' & Hcn & Hc' & Hres); try done.
    { intros p' d r Hf' Hd. rewrite Hf in Hf'. injection Hf' as <- <-.
      split; [|split; [done|by split]]. apply bottom_nibble; [done|done|].
      rewrite Hfull in *. destruct Hpp as [r' ->]. by destruct (sub_key sn). }
    exists c'. split_and!; [done|done|]. right. rewrite Hf in Hres. destruct Hres as (Hle & d & n' & Hs' & Hd).
    eexists _, _. split_and!; [exact Hs'|cbn; lia| |by rewrite Hskip].
    rewrite full_key_mk by lia. apply bytes_le_lt in Hle as [<-|Hle]; [by apply prefix_lt|].
    eapply bytes_lt_trans; [exact Hle|by apply prefix_lt].
  - assert (rest = []) as -> by (destruct rest; [done|]; by destruct Hbot).
    destruct (consume_root sn c) as (c' & Hcn & Hc' & Hres); try done; [lia|].
    exists c'. split_and!; [done|done|]. destruct Hres as [|(sn' & rest' & Hs' & Hn' & Hlt & _)]; [by left|].
    right. exists sn', rest'. by rewrite Hskip.
Qed.
End cursor.
