(* ===== verification/TrieVisit.v ===== *)
(** * TrieVisit

    The cursor of [TrieCursor] visits every stored node that is not under a
    subtree it passes over, and takes it out of the table, when the tree
    masks are complete. *)

From stdpp Require Import sorting.
From S2P Require Import Prelude Words Errors Account Transaction Block BytesOrder StagedSync Etl TableCodecs Database BufferFlush HashState.
From S2P Require Import TrieNode HashBuilder MerkleTrie BuilderFrames BuilderMasks BuilderRoot MerkleCover TrieCursor IntermediateHashes TrieWalk.

(** The tree masks are complete, and so are the nodes but for the root. *)
Record trie_full (t : ByteTable) (pre : bytes) : Prop := {
  tf_tree p n d q : node_at t pre p n → is_Some (t !! (pre ++ p ++ d :: q)) → mask_has (tree_mask n) d = true;
  tf_meet p d e q r : p ≠ [] → d ≠ e →
    is_Some (t !! (pre ++ p ++ d :: q)) → is_Some (t !! (pre ++ p ++ e :: r)) → is_Some (t !! (pre ++ p))
}.

Lemma ok_inj {E A} (a b : A) : @Ok E A a = Ok b → a = b.
Proof. by intros [=]. Qed.

Lemma row_node_tree v n : row_node v = Ok n → Z.land (tree_mask n) (state_mask n) = tree_mask n.
Proof.
  unfold row_node. intros (o & H1 & H)%res_bind_ok. apply res_bind_ok in H as (n' & H2 & H).
  destruct (state_mask n' =? 0); [done|]. injection H as ->. apply unwrap_ok in H2 as ->.
  unfold unmarshal_node in H1. case_match; [done|]. case_match; [done|].
  apply res_bind_ok in H1 as (n' & H1 & [= ->]). pose proof H1 as E%new_node_eq. unfold new_node in H1.
  apply res_bind_ok in H1 as (? & H1 & _). unfold assert_subset in H1.
  destruct (Z.land _ _ =? _) eqn:Hl in H1; [|done]. apply Z.eqb_eq in Hl. by rewrite E.
Qed.

(** Where one path is compared to another. *)
Lemma lt_or_diverges a q : bytes_lt q a ∨ a `prefix_of` q ∨ diverges a q.
Proof.
  destruct (decide (bytes_le a q)) as [Hle|Hn]; [right; by apply diverges_le|].
  left. destruct (total bytes_le a q) as [?|Hle]; [done|]. apply bytes_le_lt in Hle as [->|?]; [|done]. by destruct Hn.
Qed.

(** Behind a child and before a later one: in a child between them. *)
Lemma diverges_child p x q : diverges (p ++ [x]) q → (∃ e r, q = p ++ e :: r ∧ x < e) ∨ diverges p q.
Proof.
  revert q. induction p as [|y p IH]; intros [|z q] Hd; try (by destruct (diverges_nil _ _ Hd)).
  - left. apply diverges_cons in Hd as [?|[_ Hd]]; [by exists z, q|by destruct (diverges_nil _ _ Hd)].
  - apply diverges_cons in Hd as [Hlt|[<- Hd]]; [right; apply diverges_cons; by left|].
    destruct (IH q Hd) as [(e & r & -> & He)|?]; [left; by exists e, r|right; apply diverges_cons; auto].
Qed.

Lemma lt_child p d e r : bytes_lt (p ++ e :: r) (p ++ [d]) → e < d.
Proof.
  induction p as [|y p IH]; cbn; rewrite bytes_lt_cons; [|intros [?|[_ ?]]; [lia|auto]].
  intros [?|[_ H]]; [done|]. by destruct r.
Qed.

(** Two paths that part do so at a digit. *)
Lemma diverges_meet a b : diverges a b → ∃ m x y s t, a = m ++ x :: s ∧ b = m ++ y :: t ∧ x < y.
Proof.
  revert b. induction a as [|x a IH]; intros [|y b] Hd; try (by destruct (diverges_nil _ _ Hd)).
  apply diverges_cons in Hd as [?|[-> Hd]]; [by exists [], x, y, a, b|].
  destruct (IH b Hd) as (m & x' & y' & s & t & -> & -> & ?). by exists (y :: m), x', y', s, t.
Qed.

Section visit.
Context (t0 : ByteTable) (pre : bytes) (ch : PrefixSet) (Hwf : trie_wf t0 pre) (Hfull : trie_full t0 pre).

Abbreviation row q := (is_Some (t0 !! (pre ++ q))).

Lemma node_child p n d q : node_at t0 pre p n → row (p ++ d :: q) → 0 ≤ d < 16 ∧ mask_has (tree_mask n) d = true ∧ mask_has (state_mask n) d = true.
Proof.
  intros Hn Hq. pose proof (tf_tree _ _ Hfull p n d q Hn Hq) as Ht.
  destruct (wf_path _ _ Hwf _ Hq) as [Hnib _]. apply Forall_app in Hnib as [_ Hnib]. assert (0 ≤ d < 16) as Hd by by inversion Hnib.
  split_and!; [lia|lia|done|]. destruct Hn as (v & _ & Hv%row_node_tree). rewrite mask_has_testbit in Ht |- * by done.
  rewrite <- Hv, Z.land_spec in Ht. by apply andb_true_iff in Ht as [_ ?].
Qed.

(** ** What is behind the cursor *)

(** A row that has been taken out, or is under a key that was passed. *)
Definition handled (t : ByteTable) (P : bytes → Prop) (q : bytes) : Prop :=
  t !! (pre ++ q) = None ∨ ∃ k, P k ∧ k `prefix_of` q.

(** The node of each entry of the stack is the first one behind its
    parent. *)
Fixpoint first_ok (s : list CursorSubNode) : Prop :=
  match s with
  | [] => True
  | sn :: rest =>
      first_ok rest
      ∧ match rest with
        | [] => True
        | parent :: _ => ∀ q, row q → bytes_le (full_key parent) q → bytes_le (sub_key sn) q
        end
  end.

Definition visited (c : Cursor) (P : bytes → Prop) : Prop :=
  ∀ q, row q → match stack c with [] => True | sn :: _ => bytes_lt q (full_key sn) end → handled (table c) P q.

(** Between two tables of the cursor only rows from a key on go. *)
Definition gone_from (k : bytes) (t t' : ByteTable) : Prop :=
  ∀ q, t' !! (pre ++ q) = t !! (pre ++ q) ∨ t' !! (pre ++ q) = None ∧ bytes_le k q.

Lemma gone_handled k t t' P q : gone_from k t t' → handled t P q → handled t' P q.
Proof. intros Hg [Hq|?]; [left|by right]. destruct (Hg q) as [->|[? _]]; done. Qed.

Lemma consume_visit k c c' P :
  prefix c = pre → (∀ k, is_Some (table c !! k) → table c !! k = t0 !! k) → below t0 pre c k → k ≠ [] →
  (∀ q, row q → bytes_lt q k → handled (table c) P q) →
  consume_node k false c = Ok c' →
  visited c' P ∧ gone_from k (table c) (table c')
  ∧ (stack c' = [] ∨ ∃ e p n d, stack c' = mkSubNode (e :: p) n d :: set_bottom_nibble e (stack c)
       ∧ bytes_le k (e :: p) ∧ ∀ q, row q → bytes_le k q → bytes_le (e :: p) q).
Proof.
  intros Hpre Ht Hbelow Hk Hdone Hc. pose proof (find_row_spec pre k c Hpre) as Hfind.
  assert (∀ q, row q → bytes_le k q → is_Some (table c !! (pre ++ q))) as Hin.
  { intros q Hq Hle. destruct (table c !! (pre ++ q)) eqn:E; [done|]. destruct (Hbelow q Hq E) as [Hlt| ->]; [|by destruct k].
    destruct (bytes_lt_irrefl k). apply bytes_le_lt in Hle as [->|]; [done|by eapply bytes_lt_trans]. }
  destruct (find_row k false c) as [[p r]|] eqn:Hf.
  - destruct (consume_eq t0 pre Hwf k c p r Hpre Ht Hk Hf) as (e & p' & n & d & -> & Hat & Hd & Hdr & Heq).
    rewrite Heq in Hc. injection Hc as <-. destruct Hfind as [Hle Hmin].
    assert (∀ q, row q → bytes_le k q → bytes_le (e :: p') q) as Hfirst by auto.
    split_and!.
    + intros q Hq. cbn [stack with_table TrieCursor.with_stack update_skip_state table].
      rewrite full_key_mk by lia. intros Hlt. unfold handled.
      destruct (decide (q = e :: p')) as [->|Hne]; [left; apply lookup_delete_eq|].
      rewrite lookup_delete_ne by (intros [=]%(inj (app pre)); congruence).
      destruct (lt_or_diverges k q) as [Hqk|Hkq]; [by apply Hdone|]. exfalso.
      assert (bytes_le k q) as Hkq'.
      { destruct Hkq as [?|?%diverges_lt]; [by apply prefix_bytes_le|apply bytes_le_lt; by right]. }
      pose proof (Hfirst q Hq Hkq') as Hpq. apply diverges_le in Hpq as [[s ->]|Hdiv].
      * destruct s as [|x s]; [by rewrite app_nil_r in Hne|].
        destruct (node_child _ _ _ _ Hat Hq) as (Hx & _ & Hstate).
        apply lt_child in Hlt. apply (first_nibble_least _ _ x) in Hd; [|lia]. by rewrite Hd in Hstate.
      * apply (bytes_lt_irrefl q). eapply bytes_lt_trans; [exact Hlt|]. apply diverges_lt.
        apply (diverges_prefix (e :: p')); [by apply prefix_app_r|done].
    + intros q. cbn [table with_table]. destruct (decide (q = e :: p')) as [->|Hne].
      * right. split; [apply lookup_delete_eq|done].
      * left. by rewrite lookup_delete_ne by (intros [=]%(inj (app pre)); congruence).
    + right. exists e, p', (Some n), d. split_and!; [done|done|]. exact Hfirst.
  - unfold consume_node in Hc. rewrite Hf in Hc. injection Hc as <-. split_and!; [|by left|by left].
    intros q Hq _. cbn [table TrieCursor.with_stack]. destruct (lt_or_diverges k q) as [?|Hkq]; [by apply Hdone|].
    exfalso. assert (bytes_le k q) as Hkq'.
    { destruct Hkq as [?|?%diverges_lt]; [by apply prefix_bytes_le|apply bytes_le_lt; by right]. }
    by apply (Hfind q); [apply Hin|].
Qed.
(** The next digit of the state mask. *)
Lemma head_filter_seqZ (f : Z → Prop) `{∀ x, Decision (f x)} a n :
  match head (filter f (seqZ a n)) with
  | Some d => a ≤ d < a + n ∧ ∀ e, a ≤ e < d → ¬ f e
  | None => ∀ e, a ≤ e < a + n → ¬ f e
  end.
Proof.
  assert (∀ e, e ∈ seqZ a n ↔ a ≤ e < a + n) as Hin by apply elem_of_seqZ.
  assert (StronglySorted Z.lt (seqZ a n)) as Hs.
  { apply Sorted_StronglySorted; [apply _|]. clear. remember (Z.to_nat n) as m eqn:Hm. revert a n Hm. induction m as [|m IH]; intros a n Hm.
    - unfold seqZ. rewrite <- Hm. constructor.
    - rewrite seqZ_cons by lia. constructor; [apply IH; lia|]. destruct (decide (Z.pred n ≤ 0)) as [Hn|Hn].
      + rewrite seqZ_nil by lia. constructor.
      + rewrite seqZ_cons by lia. constructor. lia. }
  destruct (head (filter f (seqZ a n))) as [d|] eqn:Hf.
  - apply head_Some_elem_of in Hf as Hdin. apply list_elem_of_filter in Hdin as [Hd Hdin].
    split; [by apply Hin|]. intros e He Hfe.
    assert (e ∈ seqZ a n) as Hein by (apply Hin; apply Hin in Hdin; lia). clear Hin.
    induction Hs as [|x l Hl IH Hx]; [by apply elem_of_nil in Hein|].
    destruct (decide (f x)) as [Hfx|Hfx].
    + rewrite filter_cons_True in Hf by done. injection Hf as ->. apply elem_of_cons in Hein as [->|Hein]; [lia|].
      rewrite Forall_forall in Hx. specialize (Hx e Hein). lia.
    + rewrite filter_cons_False in Hf by done. apply elem_of_cons in Hein as [->|Hein]; [done|].
      apply elem_of_cons in Hdin as [->|Hdin]; [done|]. by apply IH.
  - intros e He Hfe. assert (e ∈ filter f (seqZ a n)) as Hein by (apply list_elem_of_filter; split; [done|by apply Hin]).
    destruct (filter f (seqZ a n)); [by apply elem_of_nil in Hein|done].
Qed.

Lemma next_nibble_spec sn n : sub_node sn = Some n → 0 ≤ nibble sn →
  match next_nibble sn with
  | Some d => nibble sn ≤ d < 16 ∧ ∀ e, nibble sn ≤ e < d → mask_has (state_mask n) e = false
  | None => ∀ e, nibble sn ≤ e < 16 → mask_has (state_mask n) e = false
  end.
Proof.
  intros Hn H0. unfold next_nibble.
  pose proof (head_filter_seqZ (fun d => state_flag (with_nibble d sn) = true) (nibble sn) (16 - nibble sn)) as H.
  assert (∀ e, nibble sn ≤ e → state_flag (with_nibble e sn) ≠ true → mask_has (state_mask n) e = false) as Hflag.
  { intros e He. unfold state_flag. cbn. rewrite Hn, (proj2 (Z.ltb_ge e 0)) by lia. by destruct (mask_has _ _). }
  destruct (head _) as [d|].
  - destruct H as [Hd H]. split; [lia|]. intros e He. apply Hflag; [lia|by apply H].
  - intros e He. apply Hflag; [lia|apply H; lia].
Qed.

(** ** Moving on *)

(** Everything up to the end of the subtree of the top is behind. *)
Definition done_top (t : ByteTable) (P : bytes → Prop) (allow : bool) (s : list CursorSubNode) : Prop :=
  ∀ q, row q → handled t P q
    ∨ match s with [] => False | sn :: _ => diverges (full_key sn) q ∨ nibble sn = -1 ∧ allow = true ∧ q ≠ [] end.

(** With the children of its node behind as well. *)
Lemma done_pop t P allow sn rest :
  stack_ok t0 pre (sn :: rest) → first_ok (sn :: rest) → done_top t P allow (sn :: rest) →
  (∀ q e, row (sub_key sn ++ e :: q) → nibble sn < e → nibble sn = -1 → allow = true → False) →
  (∀ q e, row (sub_key sn ++ e :: q) → 0 ≤ nibble sn < e → False) → done_top t P false rest.
Proof.
  intros ((Hr & Hroot & Hnode) & Hrest & Hbot) [_ Hfirst] Hdone Hnone1 Hnone2 q Hq.
  assert (handled t P q ∨ diverges (sub_key sn) q) as [?|Hdiv]; [|by left|].
  { destruct (Hdone q Hq) as [?|[Hd|(Hn & Ha & Hne)]]; [by left|..].
    - destruct (decide (nibble sn = -1)) as [Hn|Hn].
      { rewrite full_key_root, Hroot in Hd by done. by destruct (diverges_nil _ _ Hd). }
      rewrite full_key_nibble in Hd by lia. apply diverges_child in Hd as [(e & r & -> & He)|?]; [|by right].
      exfalso. eapply Hnone2; [exact Hq|lia].
    - rewrite Hroot by done. destruct q as [|e r]; [done|]. exfalso.
      destruct (wf_path _ _ Hwf _ Hq) as [Hnib _]. inversion Hnib; subst.
      apply (Hnone1 r e); rewrite ?Hroot by done; [done|lia|done|done]. }
  destruct rest as [|parent rest]; [rewrite Hbot in Hdiv; by destruct (diverges_nil _ _ Hdiv)|].
  destruct Hbot as (Hsome & Hpn & Hpp). right. left.
  destruct (lt_or_diverges (full_key parent) q) as [Hlt|[Hpq|?]]; [| |done]; exfalso.
  - apply (bytes_lt_irrefl q). eapply bytes_lt_trans; [exact Hlt|].
    apply prefix_bytes_le, bytes_le_lt in Hpp as [->|Hpp]; [by apply diverges_lt|].
    eapply bytes_lt_trans; [exact Hpp|by apply diverges_lt].
  - destruct (diverges_meet _ _ Hdiv) as (m & x & y & s & u & Es & -> & Hxy).
    assert (full_key parent `prefix_of` m) as Hm.
    { rewrite Es in Hpp. destruct (prefix_weak_total (full_key parent) m _ Hpp) as [?|[r Hr']]; [by apply prefix_app_r|done|].
      rewrite Hr' in Hpp, Hpq. apply prefix_app_inv in Hpp, Hpq. destruct r as [|z r].
      - rewrite app_nil_r in Hr'. by rewrite Hr'.
      - apply prefix_cons_inv_1 in Hpp, Hpq. lia. }
    assert (row (sub_key sn)) as Hsn.
    { destruct (sub_node sn) as [n|]; [|done]. destruct Hnode as (v & Hv & _). by exists v. }
    assert (row m) as Hrm.
    { apply (tf_meet _ _ Hfull m x y s u); [|lia|by rewrite <- Es|done]. intros ->. apply prefix_nil_inv in Hm.
      rewrite full_key_nibble in Hm by done. by destruct (sub_key parent). }
    specialize (Hfirst m Hrm (prefix_bytes_le _ _ Hm)). rewrite Es in Hfirst. apply bytes_le_lt in Hfirst as [E|Hlt].
    + apply (f_equal length) in E. rewrite length_app in E. cbn in E. lia.
    + apply (bytes_lt_irrefl m). eapply bytes_lt_trans; [|exact Hlt]. by apply prefix_lt.
Qed.
Lemma nibble_row p e q : row (p ++ e :: q) → 0 ≤ e < 16.
Proof. intros Hq. destruct (wf_path _ _ Hwf _ Hq) as [Hnib _]. apply Forall_app in Hnib as [_ Hnib]. by inversion Hnib. Qed.

Lemma move_visit k P s : ∀ allow c c',
  prefix c = pre → (∀ k, is_Some (table c !! k) → table c !! k = t0 !! k) → below t0 pre c k →
  stack_ok t0 pre s → first_ok s → done_top (table c) P allow s →
  match s with
  | sn :: _ => full_key sn `prefix_of` k ∧ (nibble sn = -1 → allow = true → k = [])
  | [] => True
  end →
  move_from s allow c = Ok c' →
  visited c' P ∧ first_ok (stack c')
  ∧ ∀ q, table c' !! (pre ++ q) = table c !! (pre ++ q) ∨ table c' !! (pre ++ q) = None ∧ (diverges k q ∨ k = [] ∧ allow = true).
Proof.
  induction s as [|sn rest IH]; intros allow c c' Hpre Ht Hbelow Hok Hfirst Hdone Hk Hm; cbn [move_from] in Hm.
  { injection Hm as <-. split_and!; [|done|by left]. intros q Hq _. by destruct (Hdone q Hq) as [?|[]]. }
  pose proof Hok as ((Hr & Hroot & Hnode) & Hrest & Hbot). destruct Hk as [Hk Hka].
  assert ((∀ q e, row (sub_key sn ++ e :: q) → nibble sn < e → nibble sn = -1 → allow = true → False) →
    (∀ q e, row (sub_key sn ++ e :: q) → 0 ≤ nibble sn < e → False) →
    move_from rest false c = Ok c' → visited c' P ∧ first_ok (stack c')
      ∧ ∀ q, table c' !! (pre ++ q) = table c !! (pre ++ q) ∨ table c' !! (pre ++ q) = None ∧ (diverges k q ∨ k = [] ∧ allow = true)) as Hpop.
  { intros H1 H2 Hrun. destruct (IH false c c') as (Hv & Hf & Hg); try done.
    - by apply Hfirst.
    - by eapply done_pop.
    - destruct rest as [|parent rest]; [done|]. split; [|done]. etrans; [apply Hbot|]. etrans; [|exact Hk]. apply sub_key_prefix.
    - split_and!; [done|done|]. intros q. destruct (Hg q) as [?|[? [?|[_ ?]]]]; [by left|right; auto|done]. }
  destruct (Z.leb_spec 15 (nibble sn)) as [H15|H15]; cbn [orb] in Hm.
  { apply Hpop; [lia| |done]. intros q e Hq%nibble_row He. lia. }
  destruct ((nibble sn <? 0) && negb allow) eqn:Hneg.
  { apply andb_true_iff in Hneg as [Hn Ha]. apply Hpop; [|zbool; lia|done]. intros q e _ _ _ ->. done. }
  assert (nibble sn = -1 → allow = true) as Hallow.
  { intros Hn. rewrite Hn in Hneg. by destruct allow. }
  set (sn1 := with_nibble (nibble sn + 1) sn) in Hm.
  assert (∀ q, row q → handled (table c) P q ∨ (∃ e r, q = sub_key sn ++ e :: r ∧ nibble sn < e) ∨ diverges (sub_key sn) q) as Hahead.
  { intros q Hq. destruct (Hdone q Hq) as [?|[Hd|(Hn & Ha & Hne)]]; [by left|..]; right.
    - destruct (decide (nibble sn = -1)) as [Hn|Hn].
      { rewrite full_key_root, Hroot in Hd by done. by destruct (diverges_nil _ _ Hd). }
      rewrite full_key_nibble in Hd by lia. by apply diverges_child.
    - left. rewrite Hroot by done. destruct q as [|e r]; [done|]. exists e, r. split; [done|]. pose proof (nibble_row [] e r Hq). lia. }
  destruct (sub_node sn) as [n|] eqn:Hn.
  - change (sub_node sn1) with (sub_node sn) in Hm. rewrite Hn in Hm.
    pose proof (next_nibble_spec sn1 n Hn ltac:(cbn; lia)) as Hspec. cbn [nibble sn1 with_nibble] in Hspec.
    destruct (next_nibble sn1) as [d|].
    2: { apply Hpop; [| |done]; intros q e Hq He; intros; destruct (node_child _ _ _ _ Hnode Hq) as (Her & _ & Hst);
           rewrite Hspec in Hst by lia; done. }
    destruct Hspec as [Hd Hspec]. injection Hm as <-. split_and!; [|by apply Hfirst|by left].
    intros q Hq. cbn [stack TrieCursor.with_stack table]. rewrite full_key_nibble by (cbn; lia). cbn [sub_key sn1 with_nibble nibble].
    intros Hlt. destruct (Hahead q Hq) as [?|[(e & r & -> & He)|Hdiv]]; [done|exfalso..].
    + apply lt_child in Hlt. destruct (node_child _ _ _ _ Hnode Hq) as (_ & _ & Hst). by rewrite Hspec in Hst by lia.
    + apply (bytes_lt_irrefl q). eapply bytes_lt_trans; [exact Hlt|]. apply diverges_lt.
      by apply (diverges_prefix (sub_key sn)); [by apply prefix_app_r|].
  - change (sub_node sn1) with (sub_node sn) in Hm. rewrite Hn in Hm.
    assert (rest = []) as -> by (destruct rest as [|parent rest]; [done|]; by destruct Hbot).
    assert (full_key sn1 = [nibble sn + 1]) as Hfk.
    { rewrite full_key_nibble by (cbn; lia). change (sub_key sn1) with (sub_key sn). by rewrite Hnode. }
    rewrite Hfk in Hm. rewrite Hnode in Hahead.
    assert (diverges k [nibble sn + 1] ∨ k = [] ∧ allow = true) as Hforward.
    { destruct (decide (nibble sn = -1)); [right; auto|left].
      rewrite full_key_nibble, Hnode in Hk by lia. apply (diverges_prefix _ _ _ Hk). apply diverges_cons. left. lia. }
    destruct (consume_visit [nibble sn + 1] (with_stack [sn1] c) c' P) as (Hv & Hgone & Hst); try done.
    { intros q Hq Hnone. destruct (Hbelow q Hq Hnone) as [Hlt'|]; [|by right]. left.
      destruct Hforward as [Hd|[-> _]]; [|by destruct q]. eapply bytes_lt_trans; [exact Hlt'|by apply diverges_lt]. }
    { intros q Hq Hlt. destruct (Hahead q Hq) as [?|[(e & r & -> & He)|Hdiv]]; [done|exfalso..].
      - by apply (lt_child [] _ e r) in Hlt; lia.
      - by destruct (diverges_nil _ _ Hdiv). }
    split_and!; [done| |].
    + destruct Hst as [-> |(e & p & n & d & -> & Hle & Hmin)]; [done|]. cbn [stack TrieCursor.with_stack set_bottom_nibble].
      split; [done|]. intros q Hq Hpq. apply Hmin; [done|]. etrans; [|exact Hpq].
      apply bytes_le_cons in Hle. unfold full_key. cbn. rewrite Hnode.
      assert (0 <=? e = true) as -> by (apply Z.leb_le; lia). cbn. apply bytes_le_cons.
      destruct Hle as [?|[-> _]]; [by left|by right].
    + intros q. destruct (Hgone q) as [?|[? Hle]]; [by left|right]. split; [done|].
      destruct Hforward as [Hd|?]; [left; by eapply diverges_le_trans|by right].
Qed.

(** ** A step of the cursor *)

(** A node that is read as the first one behind the top of the stack. *)
Lemma first_ok_read sn rest e p n d :
  stack_ok t0 pre (sn :: rest) → first_ok (sn :: rest) → 0 ≤ nibble sn → tree_flag sn = true →
  bytes_le (full_key sn) (e :: p) → (∀ q, row q → bytes_le (full_key sn) q → bytes_le (e :: p) q) →
  first_ok (mkSubNode (e :: p) n d :: set_bottom_nibble e (sn :: rest)).
Proof.
  intros Hstk Hfirst Hn Htree Hle Hmin. pose proof Hstk as ((Hr & Hroot & Hnode) & Hrest & Hbot).
  destruct (sub_node sn) as [m|] eqn:Hm.
  - assert (full_key sn `prefix_of` e :: p) as Hp.
    { unfold tree_flag in Htree. rewrite Hm, (proj2 (Z.ltb_ge _ _)) in Htree by done.
      destruct (wf_tree _ _ Hwf _ _ (nibble sn) Hnode ltac:(lia) Htree) as [q Hq].
      assert (full_key sn `prefix_of` sub_key sn ++ nibble sn :: q) as Hpq.
      { exists q. by rewrite full_key_nibble, <- app_assoc by done. }
      apply (bytes_le_prefix _ _ (sub_key sn ++ nibble sn :: q)); [done| |done]. apply Hmin; [done|by apply prefix_bytes_le]. }
    rewrite (bottom_nibble t0 pre e rest sn Hstk Hn).
    + by split.
    + rewrite full_key_nibble in Hp |- * by done. destruct (sub_key sn); cbn in *; by apply prefix_cons_inv_1 in Hp as ->.
  - assert (rest = []) as -> by (destruct rest as [|parent rest]; [done|]; by destruct Hbot).
    split; [done|]. intros q Hq Hpq. apply Hmin; [done|]. etrans; [|exact Hpq].
    rewrite full_key_nibble, Hnode in Hle |- * by done. apply bytes_le_cons in Hle.
    unfold full_key. cbn. rewrite Hnode. assert (0 <=? e = true) as -> by (apply Z.leb_le; lia). cbn. apply bytes_le_cons.
    destruct Hle as [?|[-> _]]; [by left|by right].
Qed.

(** The rows before the cursor have been taken out, but for those under the
    keys it has passed, all of which are still there. *)
Record visiting (c : Cursor) (P : bytes → Prop) : Prop := {
  vs_visited : visited c P;
  vs_first : first_ok (stack c);
  vs_kept k q : P k → k `prefix_of` q → table c !! (pre ++ q) = t0 !! (pre ++ q);
  vs_behind k : P k → match stack c with [] => True | sn :: _ => diverges k (full_key sn) end;
  vs_root : match stack c with
            | sn :: _ => full_key sn = [] →
                if can_skip_state c then ∀ q, table c !! (pre ++ q) = t0 !! (pre ++ q) else table c !! (pre ++ []) = None
            | [] => True
            end
}.

Definition passing (c : Cursor) (P : bytes → Prop) (k : bytes) : Prop :=
  P k ∨ can_skip_state c = true ∧ key c = Some k.

(** The rows under the key that is passed are all there. *)
Lemma kept_passing c sn rest P :
  cursor_ok t0 pre ch c → stack c = sn :: rest → visiting c P →
  ∀ k q, passing c P k → k `prefix_of` q → table c !! (pre ++ q) = t0 !! (pre ++ q).
Proof.
  intros [Hpre _ Hstk Ht Ho Hb] Hs [_ _ Hkept _ Hroot0] k q. rewrite Hs in Hroot0. specialize (Hb sn rest Hs).
  intros [Hk|[Hcan Hk]] Hq; [by eapply Hkept|]. unfold key in Hk. rewrite Hs in Hk. injection Hk as <-.
  destruct (decide (full_key sn = [])) as [E|E]; [specialize (Hroot0 E); rewrite Hcan in Hroot0; apply Hroot0|].
  destruct (t0 !! (pre ++ q)) as [v|] eqn:Hv0.
  - destruct (table c !! (pre ++ q)) as [w|] eqn:Hw; [rewrite <- Hw, <- Hv0; apply Ht; eauto|].
    destruct (Hb q ltac:(eauto) Hw) as [Hlt| ->]; [|by apply prefix_nil_inv in Hq].
    exfalso. apply (bytes_lt_irrefl q). apply prefix_bytes_le, bytes_le_lt in Hq as [E'|Hq]; [by rewrite <- E' at 2|by eapply bytes_lt_trans].
  - destruct (table c !! (pre ++ q)) as [w|] eqn:Hw; [|done]. rewrite Ht in Hw by eauto. congruence.
Qed.

Lemma next_visit c sn rest c' P :
  cursor_ok t0 pre ch c → stack c = sn :: rest → visiting c P → next c = Ok c' → visiting c' (passing c P).
Proof.
  intros Hc Hs Hvis Hnext. pose proof Hvis as [Hv Hf Hkept Hbehind Hroot0].
  destruct (next_ok t0 pre ch Hwf c sn rest Hc Hs) as (c1 & E & Hc' & _ & Hmove). rewrite Hnext in E. injection E as <-.
  pose proof Hc as [Hpre _ Hstk Ht Ho Hb]. specialize (Hb sn rest Hs). unfold visited in Hv. rewrite Hs in Hstk, Hf, Hv, Hbehind, Hroot0.
  pose proof Hstk as ((Hr & Hroot & Hnode) & Hrest & Hbot).
  assert (key c = Some (full_key sn)) as Hkey by (unfold key; by rewrite Hs).
  assert (∀ q, row q → bytes_lt q (full_key sn) → handled (table c) (passing c P) q) as Hv'.
  { intros q Hq Hlt. destruct (Hv q Hq Hlt) as [?|(k & Hk & ?)]; [by left|right]. exists k. split; [by left|done]. }
  pose proof (kept_passing c sn rest P Hc Hs Hvis) as Hkept'.
  (* what the step takes out is not under a key that was passed *)
  assert (visited c' (passing c P) ∧ first_ok (stack c')
    ∧ ∀ q, table c' !! (pre ++ q) = table c !! (pre ++ q)
         ∨ table c' !! (pre ++ q) = None ∧ (diverges (full_key sn) q ∨ can_skip_state c = false ∧ bytes_le (full_key sn) q))
    as (Hv2 & Hf2 & Hgone).
  { unfold next in Hnext. rewrite Hs in Hnext. unfold children_are_in_trie in Hnext. rewrite Hs in Hnext.
    apply res_bind_ok in Hnext as (c1 & Hnext & [= <-]).
    change (visited (update_skip_state c1) (passing c P)) with (visited c1 (passing c P)).
    change (stack (update_skip_state c1)) with (stack c1). change (table (update_skip_state c1)) with (table c1).
    destruct (negb (can_skip_state c) && tree_flag sn) eqn:Hdown.
    - apply andb_true_iff in Hdown as [Hskip Htree]. apply negb_true_iff in Hskip.
      destruct (Z.ltb_spec (nibble sn) 0) as [Hn|Hn].
      + unfold move_to_next_sibling in Hnext. rewrite Hs in Hnext.
        assert (full_key sn = []) as Hk by (rewrite full_key_root, Hroot by lia; done).
        destruct (move_visit (full_key sn) (passing c P) (sn :: rest) true c c1) as (H1 & H2 & H3); try done.
        * intros q Hq. destruct (decide (q = [])) as [->|Hne]; [|right; right; split_and!; [lia|done|done]].
          left. left. specialize (Hroot0 Hk). by rewrite Hskip in Hroot0.
        * split_and!; [done|done|]. intros q. destruct (H3 q) as [?|[? Hd]]; [by left|right]. split; [done|].
          destruct Hd as [?|[-> _]]; [by left|right]. split; [done|]. apply prefix_bytes_le, prefix_nil.
      + assert (full_key sn ≠ []) as Hne by (rewrite full_key_nibble by done; by destruct (sub_key sn)).
        destruct (consume_visit (full_key sn) c c1 (passing c P)) as (H1 & H2 & H3); try done.
        split_and!; [done| |].
        * destruct H3 as [-> |(e & p & n & d & -> & Hle & Hmin)]; [done|]. rewrite Hs. by apply first_ok_read.
        * intros q. destruct (H2 q) as [?|[? Hle]]; [by left|right]. split; [done|]. by right.
    - destruct (move_visit (full_key sn) (passing c P) (sn :: rest) false c c1) as (H1 & H2 & H3); try done.
      + intros q Hq. destruct (lt_or_diverges (full_key sn) q) as [?|[Hp|?]]; [left; by apply Hv'| |by right; left].
        left. destruct (can_skip_state c) eqn:Hcan; [right; exists (full_key sn); split; [by right|done]|].
        cbn [negb andb] in Hdown. unfold tree_flag in Hdown. destruct (sub_node sn) as [n|]; [|done].
        destruct (Z.ltb_spec (nibble sn) 0); [done|]. rewrite full_key_nibble in Hp by done. destruct Hp as [r ->].
        rewrite <- app_assoc in Hq. destruct (node_child _ _ _ _ Hnode Hq) as (_ & Ht' & _). congruence.
      + unfold move_to_next_sibling in Hnext. by rewrite Hs in Hnext.
      + split_and!; [done|done|]. intros q. destruct (H3 q) as [?|[? Hd]]; [by left|right]. split; [done|].
        destruct Hd as [?|[_ ?]]; [by left|done]. }
  split; [done|done|..].
  - intros k q Hk Hq. destruct (Hgone q) as [->|[_ Hd]]; [by eapply Hkept'|]. exfalso. destruct Hk as [Hk|[Hcan Hk]].
    + specialize (Hbehind k Hk). assert (diverges k q) as Hkq.
      { apply (diverges_le_trans k (full_key sn)); [done|]. destruct Hd as [?%diverges_lt|[_ ?]]; [apply bytes_le_lt; by right|done]. }
      by destruct Hkq as [_ ?].
    + rewrite Hkey in Hk. injection Hk as <-. destruct Hd as [[_ ?]|[? _]]; [done|congruence].
  - intros k Hk. destruct Hmove as [->|(sn' & rest' & Hs' & Hn' & Hlt & Hd)]; [done|]. rewrite Hs'. destruct Hk as [Hk|[Hcan Hk]].
    + apply (diverges_le_trans k (full_key sn)); [by apply Hbehind|]. apply bytes_le_lt. by right.
    + rewrite Hkey in Hk. injection Hk as <-. by apply Hd.
  - destruct Hmove as [->|(sn' & rest' & Hs' & Hn' & Hlt & Hd)]; [done|]. rewrite Hs'. rewrite full_key_nibble by done.
    by destruct (sub_key sn').
Qed.

(** A new cursor has only taken out the root, unless it passes it. *)
Lemma new_cursor_visit c : new_cursor t0 ch pre = Ok c → visiting c (fun _ => False).
Proof.
  intros Hnew. destruct (new_cursor_ok t0 pre ch Hwf) as (c1 & sn & E & Hc & _ & Hs & Hfull'). rewrite Hnew in E. injection E as <-.
  assert (∀ q, bytes_lt q [] → False) as Hnil by (intros [|]; done).
  split.
  - intros q _. rewrite Hs, Hfull'. by intros ?%Hnil.
  - rewrite Hs. done.
  - done.
  - done.
  - rewrite Hs. intros _. unfold new_cursor, consume_node, find_row in Hnew. cbn [prefix table] in Hnew.
    destruct (t0 !! (pre ++ [])) as [v|] eqn:Hv.
    + destruct (wf_row _ _ Hwf _ _ Hv) as (n & Hn & _). rewrite Hn, !ok_bind in Hnew. cbv beta iota in Hnew.
      assert (node_at t0 pre [] n) as Hat by by exists v. destruct (proj2 (wf_root _ _ Hwf [] n Hat) eq_refl) as [h Hroot].
      rewrite Hroot in Hnew. rewrite (bool_decide_eq_true_2 (is_Some (Some h))) in Hnew by eauto. rewrite ok_bind in Hnew.
      rewrite (bool_decide_eq_true_2 (is_Some (Some v))) in Hnew by eauto. change (-1 =? -1) with true in Hnew. cbn [negb andb] in Hnew.
      rewrite orb_false_r in Hnew. apply ok_inj in Hnew. rewrite <- Hnew.
      destruct (can_skip_state (update_skip_state _)) eqn:Hskip; cbn [negb]; [by rewrite Hskip|].
      cbn [with_table can_skip_state]. rewrite Hskip. cbn [table]. apply lookup_delete_eq.
    + rewrite ok_bind in Hnew. cbv beta iota in Hnew. rewrite ok_bind in Hnew.
      rewrite (bool_decide_eq_false_2 (is_Some None)) in Hnew by (by intros []). cbn [andb] in Hnew.
      apply ok_inj in Hnew. rewrite <- Hnew. by destruct (can_skip_state _).
Qed.

(** ** What the cursor leaves in the end *)

Record left_behind (t : ByteTable) (P : bytes → Prop) : Prop := {
  lb_handled q : row q → handled t P q;
  lb_kept k q : P k → k `prefix_of` q → t !! (pre ++ q) = t0 !! (pre ++ q)
}.

Lemma left_behind_iff t P Q : left_behind t P → (∀ k, P k ↔ Q k) → left_behind t Q.
Proof.
  intros [H1 H2] Heq. split.
  - intros q Hq. destruct (H1 q Hq) as [?|(k & Hk & ?)]; [by left|right]. exists k. by rewrite <- Heq.
  - intros k q Hk. by apply H2, Heq.
Qed.

Lemma visiting_end c P : stack c = [] → visiting c P → left_behind (table c) P.
Proof.
  intros Hs [Hv _ Hkept _ _]. split; [|done]. intros q Hq. apply Hv; [done|]. by rewrite Hs.
Qed.

Lemma visiting_last c sn rest P :
  cursor_ok t0 pre ch c → stack c = sn :: rest → can_skip_state c = true → nibbles (full_key sn) → inc (full_key sn) = None →
  visiting c P → left_behind (table c) (passing c P).
Proof.
  intros Hc Hs Hcan Hn Hinc Hvis. split; [|by eapply kept_passing].
  intros q Hq. destruct (lt_or_diverges (full_key sn) q) as [Hlt|[Hp|Hd]].
  - destruct (vs_visited _ _ Hvis q Hq) as [?|(k & ? & ?)]; [by rewrite Hs|by left|right]. exists k. split; [by left|done].
  - right. exists (full_key sn). split; [right; split; [done|]|done]. unfold key. by rewrite Hs.
  - exfalso. pose proof (inc_spec _ Hn) as Hspec. rewrite Hinc in Hspec.
    destruct (wf_path _ _ Hwf _ Hq) as [Hqn _]. apply (Hspec (q ++ replicate (length (full_key sn)) 0)).
    + apply Forall_app. split; [done|]. apply Forall_replicate. lia.
    + rewrite length_app, length_replicate. lia.
    + apply (diverges_le_trans _ q); [done|]. apply prefix_bytes_le. by apply prefix_app_r.
Qed.

(** What is passed has not changed, and its flag tells whether it has
    rows. *)
Lemma passed_flag c sn rest :
  cursor_ok t0 pre ch c → skip_ok c → stack c = sn :: rest → can_skip_state c = true →
  contains (pre ++ full_key sn) ch = false
  ∧ (children_are_in_trie c = true ↔ ∃ p, full_key sn `prefix_of` p ∧ row p).
Proof.
  intros [Hpre Hch Hstk _ _ _] Hskip Hs Hcan. rewrite Hskip in Hcan. unfold update_skip_state in Hcan. cbn in Hcan.
  rewrite Hs, Hpre, Hch in Hcan. destruct (contains _ ch); [done|]. split; [done|].
  unfold children_are_in_trie. rewrite Hs in Hstk |- *. destruct Hstk as ((Hr & Hroot & Hnode) & _).
  unfold hash_flag in Hcan. unfold tree_flag. destruct (sub_node sn) as [n|]; [|done].
  destruct (Z.ltb_spec (nibble sn) 0) as [Hneg|Hpos].
  - split; [intros _|done]. exists []. rewrite full_key_root, Hroot by lia. split; [done|].
    rewrite Hroot in Hnode by lia. destruct Hnode as (v & Hv & _). by exists v.
  - rewrite full_key_nibble by done. split.
    + intros Ht. destruct (wf_tree _ _ Hwf _ _ (nibble sn) Hnode ltac:(lia) Ht) as [q Hq].
      exists (sub_key sn ++ nibble sn :: q). split; [|done]. exists q. by rewrite <- app_assoc.
    + intros (p & [q ->] & Hq). rewrite <- app_assoc in Hq. by apply (node_child _ _ _ _ Hnode Hq).
Qed.
End visit.
