(* ===== verification/TrieRoot.v ===== *)
(** * TrieRoot

    The loop of [calculate_root] and [calculate_storage_root] over the
    cursor: whatever nodes are stored, as long as the hashes that it takes
    over are right, it adds every leaf or its subtree, and ends within its
    fuel; so the root is that of the Merkle-Patricia tree of all leaves. *)

From stdpp Require Import sorting.
From S2P Require Import Prelude Words Errors Account Transaction Block BytesOrder StagedSync Etl TableCodecs Database BufferFlush HashState.
From S2P Require Import TrieNode HashBuilder MerkleTrie BuilderFrames BuilderMasks BuilderRoot MerkleCover TrieCursor IntermediateHashes TrieWalk TrieVisit.

(** ** Loops over sorted leaves *)

Lemma filter_split_sorted {A} (R : A → A → Prop) (P : A → Prop) `{∀ x, Decision (P x)} l :
  StronglySorted R l → (∀ x y, R x y → P y → P x) → l = filter P l ++ filter (fun x => ¬ P x) l.
Proof.
  induction 1 as [|x l Hl IH Hx]; intros Hdown; [done|]. destruct (decide (P x)) as [HP|HP].
  - rewrite (filter_cons_True P), (filter_cons_False (fun x => ¬ P x)) by tauto. cbn [app]. f_equal. by apply IH.
  - rewrite (filter_cons_False P), (filter_cons_True (fun x => ¬ P x)) by done.
    assert (∀ y, y ∈ l → ¬ P y) as Hnone.
    { intros y Hy HPy. rewrite Forall_forall in Hx. apply HP, (Hdown x y); auto. }
    rewrite (filter_ext_elem P (fun _ => False)) by (intros y Hy; split; [by apply Hnone|done]).
    rewrite (filter_ext_elem (fun x => ¬ P x) (fun _ => True)) by (intros y Hy; split; [done|intros _; by apply Hnone]).
    assert (filter (fun _ : A => False) l = []) as -> by (clear; by induction l).
    assert (filter (fun _ : A => True) l = l) as -> by (clear; induction l as [|y l IH]; [done|]; rewrite filter_cons_True by done; by rewrite IH).
    done.
Qed.

Section leaves.
Context {A T : Type} (path : A → bytes) (add : A → T → result T).

Definition path_lt (x y : A) : Prop := bytes_lt (path x) (path y).

Lemma add_leaves_all l s : add_leaves path add None l s = res_foldl (fun s x => add x s) s l.
Proof. revert s. induction l as [|x l IH]; intros s; [done|]. cbn [add_leaves res_foldl]. destruct (add x s) as [s'|e|]; [apply IH|done..]. Qed.

Lemma add_leaves_upto k l s : StronglySorted path_lt l →
  add_leaves path add (Some k) l s = res_foldl (fun s x => add x s) s (filter (fun x => ¬ bytes_lt k (path x)) l).
Proof.
  intros Hs. revert s. induction Hs as [|x l Hl IH Hx]; intros s; [done|]. cbn [add_leaves].
  destruct (decide (bytes_lt k (path x))) as [Hlt|Hnlt].
  - rewrite bool_decide_eq_true_2 by done.
    rewrite (filter_ext_elem _ (fun _ => False)); [|].
    + assert (filter (fun _ : A => False) (x :: l) = []) as -> by (clear; by induction (x :: l)). done.
    + intros y Hy. split; [|done]. intros Hny. apply Hny. apply elem_of_cons in Hy as [->|Hy]; [done|].
      rewrite Forall_forall in Hx. eapply bytes_lt_trans; [exact Hlt|by apply Hx].
  - rewrite bool_decide_eq_false_2, filter_cons_True by done. cbn [res_foldl]. destruct (add x s) as [s'|e|]; [apply IH|done..].
Qed.
End leaves.

(** ** What the loop does *)

Inductive event (A : Type) : Type :=
| EBranch (k : bytes) (h : Z) (in_db : bool)
| ELeaf (x : A).
Arguments EBranch {A}.
Arguments ELeaf {A}.

Definition apply_event {A T} (add_branch : bytes → Z → bool → T → result T) (add : A → T → result T) (s : T) (e : event A) :
    result T :=
  match e with
  | EBranch k h in_db => add_branch k h in_db s
  | ELeaf x => add x s
  end.

Section walk.
Context (t0 : ByteTable) (pre : bytes) (ch : PrefixSet) (Hwf : trie_wf t0 pre).
Context {A : Type} (path : A → bytes) (L : list A).
Context (Hpath : ∀ x, x ∈ L → nibbles (path x) ∧ length (path x) = 64%nat).
Context (Hsorted : StronglySorted (path_lt path) L).
Context (holds : bytes → Z → Prop).

(** The stored hashes of what has not changed. *)
Record unchanged_hold : Prop := {
  uh_child p n d h : node_at t0 pre p n → 0 ≤ d < 16 → node_hash n d = Some h →
    contains (pre ++ p ++ [d]) ch = false → holds (p ++ [d]) h;
  uh_root n h : node_at t0 pre [] n → node_root_hash n = Some h → contains (pre ++ []) ch = false → holds [] h
}.
Context (Hhold : unchanged_hold).

Inductive events_cover : list (event A) → list A → Prop :=
| ec_nil : events_cover [] []
| ec_leaf x evs l : events_cover evs l → events_cover (ELeaf x :: evs) (x :: l)
| ec_branch k h in_db evs l : holds k h → nibbles k → events_cover evs l →
    events_cover (EBranch k h in_db :: evs) (filter (fun x => k `prefix_of` path x) L ++ l).

Lemma leaves_cover l1 evs l : events_cover evs l → events_cover ((ELeaf <$> l1) ++ evs) (l1 ++ l).
Proof. intros He. induction l1; [done|]. by constructor. Qed.

Lemma key_path sn rest : stack_ok t0 pre (sn :: rest) → nibbles (full_key sn) ∧ (length (full_key sn) ≤ 63)%nat.
Proof.
  intros ((Hr & Hroot & Hnode) & _).
  assert (nibbles (sub_key sn) ∧ (length (sub_key sn) < 63)%nat) as [Hn Hl].
  { destruct (sub_node sn) as [n|]; [|rewrite Hnode; split; [constructor|cbn; lia]].
    destruct Hnode as (v & Hv & _). apply (wf_path _ _ Hwf). by exists v. }
  unfold full_key. destruct (Z.leb_spec 0 (nibble sn)); [|split; [done|lia]].
  rewrite length_app. cbn [length]. split; [|lia]. apply Forall_app. split; [done|]. repeat constructor; lia.
Qed.

(** The positions of the cursor, for the measure. *)
Definition positions : list bytes :=
  [] :: (p ← ([] :: ((fun e => drop (length pre) e.1) <$> map_to_list t0)); (fun d => p ++ [d]) <$> digits16).

Lemma length_positions : (length positions = 16 * (size t0 + 1) + 1)%nat.
Proof.
  unfold positions. cbn [length]. set (ps := [] :: _).
  assert (length ps = size t0 + 1)%nat as Hlen by (subst ps; cbn [length]; rewrite length_fmap, length_map_to_list; lia).
  rewrite <- Hlen. clearbody ps. enough (length (p ← ps; (fun d => p ++ [d]) <$> digits16) = 16 * length ps)%nat by lia.
  clear Hlen. induction ps as [|p ps IH]; [done|]. rewrite bind_cons, length_app, length_fmap, IH. cbn [length]. change (length digits16) with 16%nat. lia.
Qed.

Lemma key_position sn rest : stack_ok t0 pre (sn :: rest) → full_key sn ∈ positions.
Proof.
  intros ((Hr & Hroot & Hnode) & _). unfold positions. destruct (decide (nibble sn = -1)) as [E|E].
  { rewrite full_key_root, (Hroot E) by done. left. }
  right. apply list_elem_of_bind. exists (sub_key sn). rewrite full_key_nibble by lia. split.
  - apply list_elem_of_fmap. exists (nibble sn). split; [done|]. apply elem_of_digits16. lia.
  - destruct (sub_node sn) as [n|]; [|rewrite Hnode; left]. right. destruct Hnode as (v & Hv & _).
    apply list_elem_of_fmap. exists (pre ++ sub_key sn, v). cbn. rewrite drop_app_length. split; [done|]. by apply elem_of_map_to_list.
Qed.

Definition remaining (k : bytes) : nat := length (filter (bytes_lt k) positions).

Lemma remaining_lt k k' : bytes_lt k k' → k' ∈ positions → (remaining k' < remaining k)%nat.
Proof.
  intros Hlt Hin. unfold remaining. induction positions as [|p l IH]; [by apply elem_of_nil in Hin|].
  assert (length (filter (bytes_lt k') l) ≤ length (filter (bytes_lt k) l))%nat as Hle.
  { clear IH Hin. induction l as [|q l IH]; [done|]. rewrite !filter_cons. repeat case_decide; cbn [length]; try lia.
    by destruct (H0); eapply bytes_lt_trans. }
  rewrite !filter_cons. apply elem_of_cons in Hin as [<-|Hin].
  - rewrite decide_False by apply bytes_lt_irrefl. rewrite decide_True by done. cbn [length]. lia.
  - specialize (IH Hin). repeat case_decide; cbn [length]; try lia. by destruct (H0); eapply bytes_lt_trans.
Qed.

(** A hash that is taken over. *)
Lemma skip_holds c sn rest :
  cursor_ok t0 pre ch c → skip_ok c → stack c = sn :: rest → can_skip_state c = true →
  ∃ h, hash c = Ok (Some h) ∧ holds (full_key sn) h.
Proof.
  intros [Hpre Hch Hstk _ _ _] Hskip Hs Hcan. rewrite Hskip in Hcan. unfold update_skip_state in Hcan. cbn in Hcan.
  rewrite Hs, Hpre, Hch in Hcan. destruct (contains _ ch) eqn:Hcont; [done|]. rewrite Hs in Hstk.
  destruct Hstk as ((Hr & Hroot & Hnode) & _). unfold hash. rewrite Hs. unfold sub_hash. rewrite Hcan. cbn [negb].
  unfold hash_flag in Hcan. destruct (sub_node sn) as [n|] eqn:Hn; [|done]. cbn [unwrap]. rewrite ok_bind.
  destruct (Z.ltb_spec (nibble sn) 0) as [Hneg|Hpos].
  - rewrite full_key_root, Hroot in Hcont |- * by lia. rewrite Hroot in Hnode by lia.
    apply bool_decide_eq_true in Hcan as [h Hh]. exists h. rewrite Hh. split; [done|]. by eapply (uh_root Hhold).
  - rewrite full_key_nibble in Hcont |- * by done.
    pose proof Hnode as (v & _ & Hv). apply row_node_ok in Hv as [_ Hcount].
    assert (Z.testbit (hash_mask n) (nibble sn) = true) as Hbit by (rewrite <- mask_has_testbit by lia; done).
    pose proof (count_below (hash_mask n) (nibble sn) ltac:(lia) Hbit) as Hlt. rewrite Hcount in Hlt.
    destruct (lookup_lt_is_Some_2 _ _ Hlt) as [h Hh]. exists h. rewrite Hh. cbn [unwrap]. rewrite ok_bind. split; [done|].
    eapply (uh_child Hhold); [exact Hnode|lia| |done]. unfold node_hash. by rewrite Hcan.
Qed.

Lemma leaf_behind k x : (length k ≤ 63)%nat → x ∈ L → path x ≠ k.
Proof. intros Hk Hx <-. destruct (Hpath x Hx) as [_ Hl]. lia. Qed.

(** The leaves behind [u], split at the next key. *)
Lemma split_at u k' :
  (length k' ≤ 63)%nat → (∀ x, x ∈ L → bytes_le k' (path x) → bytes_le u (path x)) →
  filter (fun x => bytes_le u (path x)) L
  = filter (fun x => ¬ bytes_lt k' (path x)) (filter (fun x => bytes_le u (path x)) L)
    ++ filter (fun x => bytes_le k' (path x)) L.
Proof.
  intros Hlen Hle. set (l := filter (fun x => bytes_le u (path x)) L).
  rewrite (filter_split_sorted (path_lt path) (fun x => ¬ bytes_lt k' (path x)) l) at 1.
  - f_equal. subst l. rewrite list_filter_filter. apply filter_ext_elem. intros x Hx. split.
    + intros [Hnn _]. apply bytes_le_lt. right. destruct (decide (bytes_lt k' (path x))); [done|by destruct Hnn].
    + intros Hk. split; [|by apply Hle]. intros Hnn. apply Hnn. apply bytes_le_lt in Hk as [E|]; [|done].
      by destruct (leaf_behind k' x Hlen Hx).
  - by apply StronglySorted_filter'.
  - unfold path_lt. intros x y Hxy Hny Hx. apply Hny. by eapply bytes_lt_trans.
Qed.

(** [leaves] adds those from a sought key on. *)
Definition seeks {T} (add : A → T → result T) (leaves : option bytes → Z → T → result T) : Prop :=
  ∀ trie_key u s, nibbles u → (length u ≤ 63)%nat →
    leaves trie_key (seek_key (pack_nibbles u)) s
    = add_leaves path add trie_key (filter (fun x => bytes_le u (path x)) L) s.

Definition runs (fuel : nat) (c c' : Cursor) (evs : list (event A)) : Prop :=
  ∀ T (add_branch : bytes → Z → bool → T → result T) add leaves s, seeks add leaves →
    walk_trie add_branch leaves fuel c s = (s ← res_foldl (apply_event add_branch add) s evs; Ok (c', s)).

Lemma res_foldl_leaves {T} (add_branch : bytes → Z → bool → T → result T) (add : A → T → result T) (l : list A)
    (evs : list (event A)) (s : T) :
  res_foldl (apply_event add_branch add) s ((ELeaf <$> l) ++ evs)
  = (s ← res_foldl (fun s x => add x s) s l; res_foldl (apply_event add_branch add) s evs).
Proof.
  revert s. induction l as [|x l IH]; intros s; [done|]. cbn [fmap list_fmap app res_foldl apply_event].
  destruct (add x s) as [s'|e|]; [apply IH|done..].
Qed.

(** One turn: the leaves up to the key [tk] of the next cursor, then the
    rest of the loop. *)
Lemma turn_leaves fuel c k (tk : option bytes) u c' c'' evs (l : list A) :
  key c = Some k → can_skip_state c = false → first_uncovered_prefix c = Ok (Some (pack_nibbles u)) →
  nibbles u → (length u ≤ 63)%nat → next c = Ok c' → key c' = tk →
  (∀ T (add : A → T → result T) s, add_leaves path add tk (filter (fun x => bytes_le u (path x)) L) s
     = res_foldl (fun s x => add x s) s l) →
  runs fuel c' c'' evs → runs (S fuel) c c'' ((ELeaf <$> l) ++ evs).
Proof.
  intros Hk Hskip Hu Hn Hl Hnext Htk Hadd Hrun T add_branch add leaves s Hseek. cbn [walk_trie]. rewrite Hk, Hskip, ok_bind, Hu, ok_bind.
  cbv beta iota. rewrite Hnext, ok_bind, Htk, Hseek, Hadd, res_foldl_leaves by done.
  destruct (res_foldl _ s l) as [s'|e|]; [|done..]. by apply Hrun.
Qed.

Lemma turn_branch fuel c k (tk : option bytes) u h c' c'' evs (l : list A) :
  key c = Some k → can_skip_state c = true → hash c = Ok (Some h) →
  first_uncovered_prefix c = Ok (Some (pack_nibbles u)) →
  nibbles u → (length u ≤ 63)%nat → next c = Ok c' → key c' = tk →
  (∀ T (add : A → T → result T) s, add_leaves path add tk (filter (fun x => bytes_le u (path x)) L) s
     = res_foldl (fun s x => add x s) s l) →
  runs fuel c' c'' evs → runs (S fuel) c c'' (EBranch k h (children_are_in_trie c) :: (ELeaf <$> l) ++ evs).
Proof.
  intros Hk Hskip Hh Hu Hn Hl Hnext Htk Hadd Hrun T add_branch add leaves s Hseek. cbn [walk_trie res_foldl apply_event].
  rewrite Hk, Hskip, Hh, ok_bind. cbn [unwrap]. rewrite ok_bind.
  destruct (add_branch k h (children_are_in_trie c) s) as [s1|e|]; [|done..]. rewrite !ok_bind, Hu, ok_bind.
  cbv beta iota. rewrite Hnext, ok_bind, Htk, Hseek, Hadd, res_foldl_leaves by done.
  destruct (res_foldl _ s1 l) as [s'|e|]; [|done..]. by apply Hrun.
Qed.

Lemma turn_last fuel c k h :
  key c = Some k → can_skip_state c = true → hash c = Ok (Some h) → first_uncovered_prefix c = Ok None →
  runs (S fuel) c c [EBranch k h (children_are_in_trie c)].
Proof.
  intros Hk Hskip Hh Hu T add_branch add leaves s Hseek. cbn [walk_trie res_foldl apply_event].
  rewrite Hk, Hskip, Hh, ok_bind. cbn [unwrap]. rewrite ok_bind.
  destruct (add_branch k h (children_are_in_trie c) s) as [s1|e|]; [|done..]. by rewrite !ok_bind, Hu, ok_bind.
Qed.

(** *** What the loop takes over, and what it leaves in the table *)

Definition branched (evs : list (event A)) (k : bytes) : Prop := ∃ h b, EBranch k h b ∈ evs.

Lemma branched_leaves l evs k : branched ((ELeaf <$> l) ++ evs) k ↔ branched evs k.
Proof.
  unfold branched. setoid_rewrite elem_of_app. split; [|intros (h & b & ?); eauto].
  intros (h & b & [(x & ? & _)%list_elem_of_fmap|?]); [done|eauto].
Qed.

Lemma branched_cons k h b evs k' : branched (EBranch k h b :: evs) k' ↔ k' = k ∨ branched evs k'.
Proof.
  unfold branched. setoid_rewrite elem_of_cons. split.
  - intros (h' & b' & [[= -> _ _]|?]); [by left|right; eauto].
  - intros [->|(h' & b' & ?)]; eauto.
Qed.

Record taken_over (evs : list (event A)) : Prop := {
  to_unchanged k h b : EBranch k h b ∈ evs → contains (pre ++ k) ch = false;
  to_flag k h b : EBranch k h b ∈ evs → b = true ↔ ∃ p, k `prefix_of` p ∧ is_Some (t0 !! (pre ++ p))
}.

Lemma taken_over_leaves l evs : taken_over evs → taken_over ((ELeaf <$> l) ++ evs).
Proof.
  intros [H1 H2]. split; intros k h b [(x & ? & _)%list_elem_of_fmap|?]%elem_of_app; try done; eauto.
Qed.

Lemma taken_over_nil : taken_over [].
Proof. split; by intros k h b ?%elem_of_nil. Qed.

Lemma taken_over_branch c sn rest h evs :
  trie_full t0 pre → cursor_ok t0 pre ch c → skip_ok c → stack c = sn :: rest → can_skip_state c = true →
  taken_over evs → taken_over (EBranch (full_key sn) h (children_are_in_trie c) :: evs).
Proof.
  intros Hfull Hc Hskip Hs Hcan [H1 H2]. destruct (passed_flag t0 pre ch Hwf Hfull c sn rest Hc Hskip Hs Hcan) as [Hu Hf].
  split; intros k h' b [[= -> _ ->]|?]%elem_of_cons; eauto.
Qed.

Definition left_after (c : Cursor) (evs : list (event A)) (c' : Cursor) : Prop :=
  trie_full t0 pre → taken_over evs
    ∧ ∀ P, visiting t0 pre c P → left_behind t0 pre (table c') (fun k => P k ∨ branched evs k).

(** From the key [k] on. *)
Lemma walk_ok fuel : ∀ c sn rest,
  cursor_ok t0 pre ch c → skip_ok c → stack c = sn :: rest → (remaining (full_key sn) < fuel)%nat →
  ∃ evs c', events_cover evs (filter (fun x => bytes_le (full_key sn) (path x)) L) ∧ cursor_ok t0 pre ch c' ∧ runs fuel c c' evs
    ∧ left_after c evs c'.
Proof.
  induction fuel as [|fuel IH]; intros c sn rest Hc Hskip Hs Hfuel; [lia|].
  set (k := full_key sn) in *. assert (key c = Some k) as Hk by (unfold key; by rewrite Hs).
  assert (nibbles k ∧ (length k ≤ 63)%nat) as [Hkn Hkl].
  { apply (key_path sn rest). rewrite <- Hs. apply Hc. }
  destruct (next_ok t0 pre ch Hwf c sn rest Hc Hs) as (c' & Hnext & Hc' & Hskip' & Hmove).
  (* the leaves from [u] to the next key, and the rest *)
  assert (∀ u, nibbles u → (length u ≤ 63)%nat →
    (∀ k' x, bytes_lt k k' → (can_skip_state c = true → diverges k k') → x ∈ L → bytes_le k' (path x) → bytes_le u (path x)) →
    ∃ l evs c'', events_cover ((ELeaf <$> l) ++ evs) (filter (fun x => bytes_le u (path x)) L)
      ∧ cursor_ok t0 pre ch c'' ∧ runs fuel c' c'' evs ∧ left_after c' evs c''
      ∧ ∀ T (add : A → T → result T) s, add_leaves path add (key c') (filter (fun x => bytes_le u (path x)) L) s
          = res_foldl (fun s x => add x s) s l) as Hturn.
  { intros u Hun Hul Hule. destruct Hmove as [Hnil|(sn' & rest' & Hs' & Hn' & Hlt & Hdiv)].
    - exists (filter (fun x => bytes_le u (path x)) L), [], c'. rewrite app_nil_r. split_and!.
      + rewrite <- (app_nil_r (filter _ L)) at 2. rewrite <- (app_nil_r (ELeaf <$> _)). apply leaves_cover. constructor.
      + done.
      + intros T add_branch add leaves s _. destruct fuel; cbn [walk_trie]; unfold key; by rewrite Hnil.
      + intros Hfull. split; [apply taken_over_nil|]. intros P Hvis.
        apply (left_behind_iff _ _ _ P); [by apply visiting_end|]. intros k0. split; [by left|].
        intros [?|(h & b & ?%elem_of_nil)]; done.
      + intros T add s. unfold key. rewrite Hnil. apply add_leaves_all.
    - destruct (key_path sn' rest') as [Hkn' Hkl']; [rewrite <- Hs'; apply Hc'|].
      pose proof (key_position sn' rest') as Hin. rewrite <- Hs' in Hin. specialize (Hin (co_stack _ _ _ _ Hc')).
      pose proof (remaining_lt k (full_key sn') Hlt Hin).
      destruct (IH c' sn' rest' Hc' Hskip' Hs' ltac:(lia)) as (evs & c'' & Hcov & Hc'' & Hrun & Hleft).
      exists (filter (fun x => ¬ bytes_lt (full_key sn') (path x)) (filter (fun x => bytes_le u (path x)) L)), evs, c''.
      split_and!; [|done|done|done|].
      + pose proof (leaves_cover (filter (fun x => ¬ bytes_lt (full_key sn') (path x)) (filter (fun x => bytes_le u (path x)) L)) _ _ Hcov) as Hall.
        by rewrite <- (split_at u (full_key sn')) in Hall by eauto.
      + intros T add s. unfold key. rewrite Hs'. cbn [head fmap option_fmap option_map].
        apply add_leaves_upto. by apply StronglySorted_filter'. }
  destruct (can_skip_state c) eqn:Hcan.
  - destruct (skip_holds c sn rest Hc Hskip Hs Hcan) as (h & Hh & Hholds). fold k in Hholds.
    assert (first_uncovered_prefix c = Ok (pack_nibbles <$> inc k)) as Hunc.
    { unfold first_uncovered_prefix. rewrite Hk, Hcan, increment_key_inc by done. by rewrite ok_bind. }
    pose proof (inc_spec k Hkn) as Hinc.
    assert (∀ x, x ∈ L → nibbles (path x) ∧ (length k ≤ length (path x))%nat) as Hxl.
    { intros x Hx. destruct (Hpath x Hx). split; [done|lia]. }
    assert (∀ x, x ∈ L → bytes_le k (path x) ↔ k `prefix_of` path x ∨ diverges k (path x)) as Hk2.
    { intros x Hx. split; [apply diverges_le|]. intros [?|?]; [by apply prefix_bytes_le|]. apply bytes_le_lt. right. by apply diverges_lt. }
    destruct (inc k) as [u|] eqn:Hu.
    + destruct Hinc as (Hun & Hul & Hu2). rewrite <- Hul in Hkl.
      destruct (Hturn u Hun Hkl) as (l & evs & c'' & Hcov & Hc'' & Hrun & Hleft & Hadd).
      { intros k' x _ Hd Hx Hle. destruct (Hxl x Hx). apply Hu2; [done|done|]. by apply (diverges_le_trans k k'); [apply Hd|]. }
      exists (EBranch k h (children_are_in_trie c) :: (ELeaf <$> l) ++ evs), c''. split_and!; [|done|by eapply turn_branch|].
      2: { intros Hfull. destruct (Hleft Hfull) as [Hover Hend].
           split; [apply (taken_over_branch c sn rest); try done; by apply taken_over_leaves|].
           intros P Hvis. eapply left_behind_iff; [apply Hend, (next_visit t0 pre ch Hwf Hfull c sn rest); done|]. intros k'. cbv beta.
           rewrite branched_cons, branched_leaves. unfold passing. rewrite Hk, Hcan. naive_solver. }
      assert (filter (fun x => bytes_le k (path x)) L
              = filter (fun x => k `prefix_of` path x) L ++ filter (fun x => bytes_le u (path x)) L) as ->; [|by constructor].
      rewrite (filter_split_sorted (path_lt path) (fun x => ¬ bytes_le u (path x)) (filter (fun x => bytes_le k (path x)) L)).
      * rewrite !list_filter_filter. f_equal; apply filter_ext_elem; intros x Hx; destruct (Hxl x Hx) as [Hx1 Hx2];
          rewrite (Hu2 _ Hx1 Hx2), (Hk2 x Hx).
        -- split; [tauto|]. intros Hp. split; [by intros [_ ?]|by left].
        -- split; [|tauto]. intros [Hnn _]. destruct (decide (diverges k (path x))); tauto.
      * by apply StronglySorted_filter'.
      * unfold path_lt. intros x y Hxy Hny Hx. apply Hny. etrans; [exact Hx|]. apply bytes_le_lt. by right.
    + exists [EBranch k h (children_are_in_trie c)], c. split_and!; [|done|by eapply turn_last|].
      2: { intros Hfull. split; [apply (taken_over_branch c sn rest); try done; apply taken_over_nil|].
           intros P Hvis. eapply left_behind_iff; [apply (visiting_last t0 pre ch Hwf c sn rest); done|]. intros k'. cbv beta.
           rewrite branched_cons. unfold passing, branched. rewrite Hk, Hcan. setoid_rewrite elem_of_nil. naive_solver. }
      assert (filter (fun x => bytes_le k (path x)) L = filter (fun x => k `prefix_of` path x) L ++ []) as ->; [|by repeat constructor].
      rewrite app_nil_r. apply filter_ext_elem. intros x Hx. destruct (Hxl x Hx) as [Hx1 Hx2]. rewrite (Hk2 x Hx).
      specialize (Hinc _ Hx1 Hx2). tauto.
  - destruct (Hturn k Hkn Hkl) as (l & evs & c'' & Hcov & Hc'' & Hrun & Hleft & Hadd).
    { intros k' x Hlt _ _ Hle. etrans; [|exact Hle]. apply bytes_le_lt. by right. }
    exists ((ELeaf <$> l) ++ evs), c''. split_and!; [done|done|..].
    + eapply turn_leaves; try done. unfold first_uncovered_prefix. rewrite Hk, Hcan, ok_bind. done.
    + intros Hfull. destruct (Hleft Hfull) as [Hover Hend]. split; [by apply taken_over_leaves|].
      intros P Hvis. eapply left_behind_iff; [apply Hend, (next_visit t0 pre ch Hwf Hfull c sn rest); done|]. intros k'. cbv beta.
      rewrite branched_leaves. unfold passing. rewrite Hcan. naive_solver.
Qed.

(** The whole loop, from a new cursor. *)
Lemma walk_all : ∃ c c' evs,
  new_cursor t0 ch pre = Ok c ∧ events_cover evs L ∧ cursor_ok t0 pre ch c' ∧ runs (trie_fuel t0) c c' evs
    ∧ (trie_full t0 pre → taken_over evs ∧ left_behind t0 pre (table c') (branched evs)).
Proof.
  destruct (new_cursor_ok t0 pre ch Hwf) as (c & sn & Hnew & Hc & Hskip & Hs & Hfull).
  destruct (walk_ok (trie_fuel t0) c sn [] Hc Hskip Hs) as (evs & c' & Hcov & Hc' & Hrun & Hleft).
  - unfold remaining, trie_fuel. pose proof length_positions.
    pose proof (length_filter (bytes_lt (full_key sn)) positions). lia.
  - exists c, c', evs. split_and!; [done| |done|done|].
    2: { intros Hcomplete. destruct (Hleft Hcomplete) as [Hover Hend]. split; [done|].
         eapply left_behind_iff; [by eapply Hend, new_cursor_visit|]. intros k. cbv beta. naive_solver. }
    rewrite Hfull in Hcov.
    assert (filter (fun x => bytes_le [] (path x)) L = L) as E; [|by rewrite E in Hcov].
    rewrite (filter_ext_elem _ (fun _ => True)) by (intros x _; split; [done|intros _; by apply prefix_bytes_le, prefix_nil]).
    clear. induction L as [|y l IH]; [done|]. rewrite filter_cons_True by done. by rewrite IH.
Qed.
End walk.
