(* ===== verification/LoopItems.v ===== *)
(** * LoopItems

    The keys of the hashed tables as paths, and what the loop of
    [intermediate_hashes.rs] gives to the hash builder: leaves, and hashes
    that stand for subtrees, in order. *)

From stdpp Require Import sorting.
From S2P Require Import Prelude Words Errors Account Transaction Block BytesOrder StagedSync Etl TableCodecs Database BufferFlush HashState.
From S2P Require Import TrieNode HashBuilder MerkleTrie BuilderFrames BuilderMasks BuilderRoot MerkleCover TrieCursor IntermediateHashes TrieWalk TrieVisit TrieRoot.

(** ** Paths of hashes *)

Lemma length_unpack b : length (unpack_nibbles b) = (2 * length b)%nat.
Proof. induction b as [|x b IH]; [done|]. rewrite unpack_cons. cbn [length]. lia. Qed.

Lemma unpack_nibbles_ok b : Forall is_byte b → nibbles (unpack_nibbles b).
Proof.
  induction 1 as [|x b Hx _ IH]; [constructor|]. rewrite unpack_cons. destruct (nibbles_of_byte x) as [-> ->].
  unfold is_byte in Hx. constructor; [|constructor; [|done]].
  - split; [apply Z.div_pos; lia|apply Z.div_lt_upper_bound; lia].
  - apply Z.mod_pos_bound. lia.
Qed.

Lemma unpack_cmp a b : Forall is_byte a → Forall is_byte b →
  bytes_cmp (unpack_nibbles a) (unpack_nibbles b) = bytes_cmp a b.
Proof.
  intros Ha. revert b. induction Ha as [|x a Hx _ IH]; intros b Hb; destruct Hb as [|y b Hy Hb]; [done..|].
  rewrite !unpack_cons. cbn [bytes_cmp]. rewrite IH by done.
  destruct (nibbles_of_byte x) as [-> ->], (nibbles_of_byte y) as [-> ->]. unfold is_byte in *.
  pose proof (Z.div_mod x 16 ltac:(lia)). pose proof (Z.mod_pos_bound x 16 ltac:(lia)).
  pose proof (Z.div_mod y 16 ltac:(lia)). pose proof (Z.mod_pos_bound y 16 ltac:(lia)).
  destruct (Z.compare_spec (x / 16) (y / 16)), (Z.compare_spec (x mod 16) (y mod 16)), (Z.compare_spec x y); try done; lia.
Qed.

Lemma hash_path_ok x : nibbles (hash_path x) ∧ length (hash_path x) = 64%nat.
Proof.
  unfold hash_path. split; [apply unpack_nibbles_ok, to_be_bytes_bytes|]. by rewrite length_unpack, length_to_be_bytes.
Qed.

Lemma hash_path_lt a b : fits KECCAK_LENGTH a → fits KECCAK_LENGTH b → bytes_lt (hash_path a) (hash_path b) ↔ a < b.
Proof.
  intros Ha Hb. unfold bytes_lt, hash_path. rewrite unpack_cmp by apply to_be_bytes_bytes.
  pose proof (ordered (t := fixed KECCAK_LENGTH) a b Ha Hb) as Ho. cbn [encode fixed] in Ho. rewrite Ho. apply Z.compare_lt_iff.
Qed.

(** The sought key: the first hash whose path is at or behind a prefix. *)
Lemma pack_bytes u : nibbles u → Forall is_byte (pack_nibbles u).
Proof.
  intros Hu. remember (length u) as n eqn:Hn. revert u Hn Hu.
  induction n as [n IH] using lt_wf_ind. intros [|x [|y u]] -> Hu; cbn [pack_nibbles]; [constructor|..].
  - constructor; [|constructor]. unfold is_byte. apply wrap_word. lia.
  - inversion Hu as [|? ? _ Hu']; subst. inversion Hu' as [|? ? _ Hu'']; subst. constructor; [unfold is_byte; apply wrap_word; lia|].
    apply (IH (length u)); [cbn; lia|done|done].
Qed.

Lemma unpack_pack_le u p n : nibbles u → nibbles p → length p = (2 * n)%nat → (length u ≤ 2 * n)%nat →
  bytes_le (unpack_nibbles (resize n 0 (pack_nibbles u))) p ↔ bytes_le u p.
Proof.
  revert u p. induction n as [|n IH]; intros u p Hu Hp Hlp Hlu.
  { destruct u; [|cbn in Hlu; lia]. by destruct p. }
  destruct p as [|a [|b p]]; [cbn in Hlp; lia..|]. inversion Hp as [|? ? Ha Hp']; subst. inversion Hp' as [|? ? Hb Hp'']; subst.
  cbn [length] in Hlp. destruct u as [|x [|y u]].
  - cbn [pack_nibbles]. rewrite resize_nil. split; [intros _; by apply prefix_bytes_le, prefix_nil|intros _].
    assert (unpack_nibbles (replicate (S n) 0) = replicate (2 * S n) 0) as ->.
    { clear. induction n as [|n IH]; [done|]. change (replicate (S (S n)) 0) with (0 :: replicate (S n) 0).
      rewrite unpack_cons, IH. replace (2 * S (S n))%nat with (S (S (2 * S n))) by lia. done. }
    apply zeros_le; [done|cbn [length]; lia].
  - inversion Hu as [|? ? Hx _]; subst. cbn [pack_nibbles].
    change (resize (S n) 0 [wrap 8 (Z.shiftl x 4)]) with (wrap 8 (Z.shiftl x 4) :: resize n 0 []).
    assert (wrap 8 (Z.shiftl x 4) = x * 16 + 0) as ->.
    { unfold wrap. rewrite Z.shiftl_mul_pow2, Z.add_0_r by lia. change (2 ^ 8) with 256. change (2 ^ 4) with 16. apply Z.mod_small. lia. }
    rewrite unpack_byte by lia. rewrite !bytes_le_cons. specialize (IH [] p ltac:(constructor) Hp'' ltac:(lia) ltac:(cbn; lia)).
    cbn [pack_nibbles] in IH. split.
    + intros [?|[-> _]]; [by left|right]. split; [done|]. apply prefix_bytes_le, prefix_nil.
    + intros [?|[-> _]]; [by left|right]. split; [done|]. destruct (decide (b = 0)) as [->|]; [right; split; [done|]|left; lia].
      apply IH, prefix_bytes_le, prefix_nil.
  - inversion Hu as [|? ? Hx Hu']; subst. inversion Hu' as [|? ? Hy Hu'']; subst. cbn [pack_nibbles].
    rewrite byte_of_nibbles by done. change (resize (S n) 0 (x * 16 + y :: pack_nibbles u)) with (x * 16 + y :: resize n 0 (pack_nibbles u)).
    rewrite unpack_byte by done. rewrite !bytes_le_cons, IH by (done || lia || (cbn [length] in Hlu; lia)). done.
Qed.

Lemma seek_key_path u x : nibbles u → (length u ≤ 64)%nat → fits KECCAK_LENGTH x →
  seek_key (pack_nibbles u) ≤ x ↔ bytes_le u (hash_path x).
Proof.
  intros Hu Hl Hx. destruct (hash_path_ok x) as [Hpn Hpl].
  rewrite <- (unpack_pack_le u (hash_path x) 32 Hu Hpn Hpl) by lia.
  unfold seek_key. set (b := resize 32 0 (pack_nibbles u)).
  assert (Forall is_byte b) as Hb by (apply Forall_resize; [unfold is_byte; lia|by apply pack_bytes]).
  assert (length b = 32%nat) as Hlb by (subst b; apply length_resize).
  assert (fits KECCAK_LENGTH (from_be_bytes b)) as Hf.
  { unfold fits. pose proof (from_be_bound b Hb) as Hbound. by rewrite Hlb in Hbound. }
  unfold bytes_le, hash_path. rewrite unpack_cmp by (done || apply to_be_bytes_bytes).
  pose proof (ordered (t := fixed KECCAK_LENGTH) _ x Hf Hx) as Ho. cbn [encode fixed] in Ho.
  unfold KECCAK_LENGTH in Ho at 1. rewrite <- Hlb, to_from_be in Ho by done. rewrite Ho. unfold Z.le. done.
Qed.

(** ** From what the loop adds to the items of the builder *)

Section items.
Context {HH : Hashing} {HR : RlpStream}.
Context {A : Type} (path : A → bytes) (leaf : A → bytes) (L : list A).
Context (Hpath : ∀ x, x ∈ L → nibbles (path x) ∧ length (path x) = 64%nat).
Context (Hsorted : StronglySorted (path_lt path) L).

Definition leaf_item (x : A) : item := (path x, ValueBytes (leaf x)).

Definition leaf_items : list item := leaf_item <$> L.

Definition event_item (e : event A) : item * bool :=
  match e with
  | EBranch k h in_db => ((k, ValueHash h), in_db)
  | ELeaf x => (leaf_item x, false)
  end.

(** The hash of the subtree under a path. *)
Definition holds (k : bytes) (h : Z) : Prop := is_u256 h ∧ known (sub k leaf_items) h.

Lemma filter_prefix k (items : list item) : filter (fun i => k `prefix_of` i.1) items = prepend k (sub k items).
Proof.
  revert items. induction k as [|x k IH]; intros items.
  - rewrite prepend_nil. cbn [sub foldl]. induction items as [|i items IH]; [done|].
    rewrite filter_cons_True by apply prefix_nil. by rewrite IH.
  - transitivity (prepend [x] (prepend k (sub (x :: k) items))); [|symmetry; apply (prepend_app [x] k)].
    rewrite sub_cons, <- IH.
    induction items as [|[[|y p] v] items IHi]; [done|..].
    + rewrite filter_cons_False; [done|]. cbn. by intros ?%prefix_nil_not.
    + rewrite down_cons. destruct (Z.eqb_spec y x) as [->|Hne].
      * rewrite !filter_cons. cbn [fst]. destruct (decide (k `prefix_of` p)) as [Hp|Hp].
        -- rewrite decide_True by by apply prefix_cons. rewrite prepend_cons. cbn [app]. by f_equal.
        -- rewrite decide_False; [done|]. by intros ?%prefix_cons_inv_2.
      * rewrite filter_cons_False; [done|]. cbn. intros ?%prefix_cons_inv_1. congruence.
Qed.

Lemma segment_items k : leaf_item <$> filter (fun x => k `prefix_of` path x) L = prepend k (sub k leaf_items).
Proof.
  rewrite <- filter_prefix. unfold leaf_items. clear. induction L as [|x l IH]; [done|].
  rewrite fmap_cons, !filter_cons. cbn [leaf_item fst]. destruct (decide (k `prefix_of` path x)); [|done].
  rewrite fmap_cons. by f_equal.
Qed.

Abbreviation cover := (events_cover path L holds).

Lemma event_items_cover evs l : cover evs l → covers (event_item <$> evs).*1 (leaf_item <$> l).
Proof.
  induction 1 as [|x evs l _ IH|k h in_db evs l [_ Hk] Hn _ IH]; [constructor|by constructor|].
  rewrite fmap_app, segment_items. cbn [fmap list_fmap event_item fst]. by constructor.
Qed.

Lemma leaf_items_ok : items_ok leaf_items.
Proof.
  unfold leaf_items. split.
  - rewrite <- list_fmap_compose. change (fst ∘ leaf_item) with path.
    clear -Hpath Hsorted. induction Hsorted as [|x l Hl IH Hx]; cbn; constructor.
    + apply IH; [|done]. intros y Hy. apply Hpath. by right.
    + apply Forall_forall. intros p (y & -> & Hy)%list_elem_of_fmap. rewrite Forall_forall in Hx. split; [by apply Hx|].
      destruct (Hpath x ltac:(left)) as [_ H1], (Hpath y ltac:(by right)) as [_ H2]. intros [r Hr].
      assert (r = []) as ->; [|rewrite app_nil_r in Hr; specialize (Hx y Hy); unfold path_lt in Hx; rewrite Hr in Hx; by apply bytes_lt_irrefl in Hx].
      rewrite Hr, length_app in H2. destruct r; [done|cbn in H2; lia].
  - apply Forall_forall. intros p ([k v] & -> & (x & [= -> ->] & Hx)%list_elem_of_fmap)%list_elem_of_fmap. by apply Hpath.
  - apply Forall_forall. intros v ([k v'] & -> & (x & [= -> ->] & Hx)%list_elem_of_fmap)%list_elem_of_fmap. done.
Qed.

(** The leaves that an event stands for. *)
Definition event_leaves (e : event A) : list A :=
  match e with EBranch k _ _ => filter (fun x => k `prefix_of` path x) L | ELeaf x => [x] end.

Definition event_key (e : event A) : bytes := (event_item e).1.1.

Lemma path_inj x y : x ∈ L → y ∈ L → path x = path y → x = y.
Proof.
  clear Hpath. induction Hsorted as [|z l Hl IH Hz]; intros Hx Hy E; [by apply elem_of_nil in Hx|].
  rewrite Forall_forall in Hz. apply elem_of_cons in Hx as [->|Hx], Hy as [->|Hy]; [done|..|eauto]; exfalso.
  - specialize (Hz y Hy). unfold path_lt in Hz. rewrite E in Hz. by apply bytes_lt_irrefl in Hz.
  - specialize (Hz x Hx). unfold path_lt in Hz. rewrite E in Hz. by apply bytes_lt_irrefl in Hz.
Qed.

Lemma cover_leaves evs l : cover evs l → l = evs ≫= event_leaves.
Proof. induction 1 as [|x evs l _ ->|k h in_db evs l _ _ _ ->]; done. Qed.

(** An event: its key is on the way to its leaves, of which there are some,
    and only to those. *)
Record event_ok (e : event A) : Prop := {
  eo_nonempty : ∃ x, x ∈ event_leaves e;
  eo_under x : x ∈ event_leaves e → x ∈ L ∧ event_key e `prefix_of` path x;
  eo_all x : x ∈ L → event_key e `prefix_of` path x → x ∈ event_leaves e;
  eo_nibbles : nibbles (event_key e);
  eo_value : value_ok (event_item e).1.2
}.

Lemma cover_ok evs l : cover evs l → (∀ x, x ∈ l → x ∈ L) → Forall event_ok evs.
Proof.
  induction 1 as [|x evs l _ IH|k h in_db evs l [Hh Hk] Hn _ IH]; intros Hin; constructor.
  - assert (x ∈ L) as Hx by (apply Hin; left). split; cbn.
    + exists x. left.
    + intros y ->%list_elem_of_singleton. done.
    + intros y Hy [r Hr]. apply list_elem_of_singleton, path_inj; [done|done|].
      destruct (Hpath x Hx) as [_ H1], (Hpath y Hy) as [_ H2]. rewrite Hr, length_app in H2.
      destruct r; [by rewrite app_nil_r in Hr|cbn in H2; lia].
    + by apply Hpath.
    + done.
  - apply IH. intros y Hy. apply Hin. by right.
  - split; cbn.
    + pose proof (known_nonempty _ _ Hk) as Hne. destruct (filter (fun x => k `prefix_of` path x) L) as [|x l'] eqn:E; [|exists x; left].
      pose proof (segment_items k) as Hseg. rewrite E in Hseg. cbn in Hseg. by destruct (sub k leaf_items).
    + intros x [Hp Hx]%list_elem_of_filter. done.
    + intros x Hx Hp. by apply list_elem_of_filter.
    + done.
    + done.
  - apply IH. intros y Hy. apply Hin, elem_of_app. by right.
Qed.

Lemma path_lt_apart a b p q : a `prefix_of` p → b `prefix_of` q → bytes_lt p q →
  ¬ a `prefix_of` b → ¬ b `prefix_of` a → diverges a b.
Proof.
  intros Ha Hb Hlt Hab Hba. destruct (total bytes_le a b) as [H|H]; apply diverges_le in H as [?|Hd]; [done|done|done|].
  exfalso. apply (bytes_lt_irrefl p). eapply bytes_lt_trans; [exact Hlt|]. apply diverges_lt.
  apply (diverges_le_trans q a p); [by apply (diverges_prefix b)|by apply prefix_bytes_le].
Qed.

Lemma cover_items_ok evs l :
  cover evs l → StronglySorted (path_lt path) l → (∀ x, x ∈ l → x ∈ L) → items_ok (event_item <$> evs).*1.
Proof.
  intros Hc. pose proof (cover_leaves _ _ Hc) as El. intros Hs Hin. pose proof (cover_ok _ _ Hc Hin) as Hok. clear Hc.
  subst l. induction Hok as [|e evs He Hok IH]; [apply items_ok_nil|].
  rewrite bind_cons in Hs, Hin. apply StronglySorted_app in Hs as (Hbefore & _ & Hs).
  rewrite !fmap_cons. apply items_ok_cons; [| |apply He|apply He]. { apply IH; [intros x Hx; apply Hin, elem_of_app; by right|done]. }
  apply Forall_forall. intros k (i & -> & Hi)%list_elem_of_fmap. apply list_elem_of_fmap in Hi as (i' & -> & Hi).
  apply list_elem_of_fmap in Hi as (e' & -> & He'). rewrite Forall_forall in Hok. pose proof (Hok e' He') as Hok'.
  destruct (eo_nonempty _ He) as [x Hx], (eo_nonempty _ Hok') as [y Hy].
  destruct (eo_under _ He x Hx) as [HxL Hpx], (eo_under _ Hok' y Hy) as [HyL Hpy].
  assert (∀ z z', z ∈ event_leaves e → z' ∈ event_leaves e' → path_lt path z z') as Hlt.
  { intros z z' Hz Hz'. apply Hbefore; [done|]. apply list_elem_of_bind. by exists e'. }
  assert (∀ z, z ∈ event_leaves e → z ∉ event_leaves e') as Hdisj.
  { intros z Hz Hz'. apply (bytes_lt_irrefl (path z)). by apply (Hlt z z). }
  apply (path_lt_apart _ _ _ _ Hpx Hpy); [by apply Hlt|..]; fold (event_key e) (event_key e').
  - intros Hp. apply (Hdisj y); [|done]. apply (eo_all _ He); [done|]. by etrans.
  - intros Hp. apply (Hdisj x); [done|]. apply (eo_all _ Hok'); [done|]. by etrans.
Qed.

End items.
