(* ===== verification/StoredNodes.v ===== *)
(** * StoredNodes

    The nodes that the hash builder collects from the loop of
    [intermediate_hashes.rs] hold: they are branches of the tree of all
    leaves, and their hashes are those of its subtrees, also where the loop
    took over stored hashes. *)

From stdpp Require Import sorting.
From S2P Require Import Prelude Words Errors Account Transaction Block BytesOrder StagedSync Etl TableCodecs Database BufferFlush HashState.
From S2P Require Import TrieNode HashBuilder MerkleTrie BuilderFrames BuilderMasks BuilderRoot MerkleCover TrieCursor IntermediateHashes TrieWalk TrieVisit TrieRoot LoopItems.

(** ** Masks of nodes *)

Lemma u16_of_bits m : u16_mask m → is_u16 m.
Proof.
  intros Hm. assert (m = m mod 2 ^ 16) as E.
  { apply mask_eq. intros e. destruct (decide (0 ≤ e)) as [He|He]; [|by rewrite !Z.testbit_neg_r by lia].
    destruct (decide (e < 16)) as [Hlt|Hge]; [by rewrite Z.mod_pow2_bits_low by lia|].
    rewrite Z.mod_pow2_bits_high by lia. split; [|done]. intros H%Hm. lia. }
  unfold is_u16. rewrite E. apply Z.mod_pos_bound. lia.
Qed.

(** A set bit is as far in the list of set bits as there are ones below. *)
Lemma bit_index m d : 0 ≤ d < 16 → Z.testbit m d = true →
  filter (fun d => Z.testbit m d = true) digits16 !! count_ones (Z.land m (bit16 d - 1)) = Some d.
Proof.
  intros Hd Hm. rewrite (ones_below m d Hd), (digits16_split d Hd), filter_app, filter_cons_True by done.
  by rewrite list_lookup_middle.
Qed.

Lemma nonzero_bit m : u16_mask m → m ≠ 0 → ∃ d, Z.testbit m d = true.
Proof.
  intros Hm Hne. destruct (first_nibble_spec m (u16_of_bits m Hm) Hne) as (d & Hf & Hd). exists d.
  unfold first_nibble in Hf. apply head_Some_elem_of, list_elem_of_filter in Hf as [Hf _]. by rewrite mask_has_testbit in Hf.
Qed.

Section node_holds.
Context {HH : Hashing} {HR : RlpStream}.

Definition holds_for (items : list item) (k : bytes) (h : Z) : Prop := is_u256 h ∧ known (sub k items) h.

(** A node at [k] that holds for the tree of [items]. *)
Record node_holds (items : list item) (k : bytes) (n : Node) : Prop := {
  nh_branching : branching (sub k items);
  nh_ok : node_ok n ∧ state_mask n ≠ 0;
  nh_child d h : 0 ≤ d < 16 → node_hash n d = Some h → holds_for items (k ++ [d]) h;
  nh_root : is_Some (node_root_hash n) ↔ k = [];
  nh_root_hash h : node_root_hash n = Some h → holds_for items k h;
  nh_path : nibbles k ∧ (length k < 63)%nat
}.

Lemma row_node_marshal items k n : node_holds items k n → row_node (marshal_node n) = Ok n.
Proof.
  intros [_ [Hok Hne] _ _ _ _]. unfold row_node. rewrite marshalled_node by done. rewrite !ok_bind. cbn [unwrap]. rewrite ok_bind.
  by rewrite (proj2 (Z.eqb_neq _ _)).
Qed.
End node_holds.

(** ** The nodes of the builder *)

(** The nodes that were collected from the items [l]: branches of their
    tree, and all of those that have nodes under them. *)
Record collected_ok {HH : Hashing} {HR : RlpStream} (indb : bytes → Prop) (l : list item) (cs : list (bytes * Node)) : Prop := {
  ck_node c : c ∈ cs → node_of indb l cs c.1 c.2;
  ck_every k d : branching (sub k l) → supported indb cs (k ++ [d]) → k ∈ cs.*1
}.

Lemma cover_branch {A} (path : A → bytes) L (P : bytes → Z → Prop) evs l :
  events_cover path L P evs l → ∀ k h b, EBranch k h b ∈ evs → P k h ∧ nibbles k.
Proof.
  induction 1 as [|x evs l _ IH|k' h' b' evs l Hh Hn _ IH]; intros k h b He;
    [by apply elem_of_nil in He|apply elem_of_cons in He as [E|He]; [done|by eapply IH]..|].
  apply elem_of_cons in He as [E|He]; [by injection E as -> -> ->|by eapply IH].
Qed.

Section collected.
Context {HH : Hashing} {HR : RlpStream}.
Context {A : Type} (path : A → bytes) (leaf : A → bytes) (L : list A).
Context (Hpath : ∀ x, x ∈ L → nibbles (path x) ∧ length (path x) = 64%nat).
Context (Hsorted : StronglySorted (path_lt path) L).
Context (Hword : ∀ x, is_u256 (keccak256 x)).

Abbreviation items := (leaf_items path leaf L).
Abbreviation holds := (holds_for items).

Context (Hwide : wide items).

(** A branch of the tree is above its leaves. *)
Lemma branch_path k : branching (sub k items) → nibbles k ∧ (length k < 64)%nat.
Proof.
  intros (x & y & a & b & v & w & _ & Hx & _)%branching_keys.
  apply list_elem_of_fmap in Hx as (z & [= Hk _] & Hz). destruct (Hpath z Hz) as [Hn Hl].
  rewrite <- Hk in Hn, Hl. apply Forall_app in Hn as [Hn _]. rewrite length_app in Hl. cbn in Hl. split; [done|lia].
Qed.

Lemma holds_path k h : holds k h → nibbles k ∧ (length k < 64)%nat.
Proof. intros (_ & _ & Hb & _). by apply branch_path. Qed.

Context (evs : list (event A)) (Hcov : events_cover path L holds evs L).

Abbreviation taken := (event_item path leaf <$> evs).

Lemma taken_ok : items_ok taken.*1.
Proof. by apply (cover_items_ok path leaf L Hpath Hsorted evs L). Qed.

Lemma taken_covers : covers taken.*1 items.
Proof. apply (event_items_cover path leaf L evs L), Hcov. Qed.

Lemma taken_hash k h : (k, ValueHash h) ∈ taken.*1 → holds k h.
Proof.
  intros ([[k' v] b] & E & Hin)%list_elem_of_fmap. cbn in E. injection E as <- <-.
  apply list_elem_of_fmap in Hin as (e & E & He). destruct e as [k' h' b'|x]; [|done]. cbn in E. injection E as -> -> ->.
  by apply (cover_branch _ _ _ _ _ Hcov _ _ _ He).
Qed.

(** A branch of what was added is one of the tree, with the same hash. *)
Lemma taken_branch k : branching (sub k taken.*1) →
  branching (sub k items) ∧ trie_node (sub k taken.*1) = trie_node (sub k items).
Proof.
  intros Hb. pose proof (covers_sub k _ _ taken_covers taken_ok Hb) as Hc. pose proof (MerkleTrie.sub_ok k _ taken_ok) as Hok.
  split; [by apply (covers_branching _ _ Hc)|]. pose proof (MerkleTrie.sub_ok k _ (leaf_items_ok path leaf L Hpath Hsorted)) as Hok2.
  destruct (covers_node _ _ _ (le_n _) Hc Hok Hok2) as [_ Heq]. apply Heq. by apply branching_empty_key.
Qed.

Lemma known_branch k : branching (sub k items) → holds k (hash_of (ref_of (trie_node (sub k items)))).
Proof.
  intros Hb. pose proof (MerkleTrie.sub_ok k _ (leaf_items_ok path leaf L Hpath Hsorted)) as Hok.
  pose proof (trie_node_branching_nil _ Hok Hb) as Hn.
  assert (ref_of (trie_node (sub k items)) = wrap_hash (keccak256 (branch_rlp (child (sub k items))))) as Href.
  { rewrite Hn. cbn [ref_of]. unfold node_ref. rewrite (proj2 (Nat.ltb_ge _ _)) by by apply Hwide. done. }
  rewrite Href. unfold hash_of. rewrite length_wrap_hash. cbn [Nat.eqb KECCAK_LENGTH Nat.add].
  rewrite hash_of_wrap by done. split; [done|]. by split_and!.
Qed.

Lemma child_holds k d h : child_hash (sub k taken.*1) d h → holds (k ++ [d]) h.
Proof.
  unfold child_hash, down_ref. pose proof (sub_app k [d] taken.*1) as E. cbn [sub foldl] in E.
  change (foldl (fun l x => down x l) taken.*1 k) with (sub k taken.*1) in E. rewrite <- E. clear E.
  intros ([Hb|[h' Hh]] & Hlen & ->).
  - destruct (taken_branch _ Hb) as [Hb' Hn]. rewrite Hn in Hlen |- *. pose proof (known_branch _ Hb') as H.
    unfold hash_of in H. rewrite Hlen in H. exact H.
  - rewrite Hh, trie_node_hash. cbn [extend ref_of].
    assert (holds (k ++ [d]) h') as H.
    { apply taken_hash. rewrite <- (app_nil_r (k ++ [d])). apply elem_of_sub. rewrite Hh. left. }
    rewrite hash_of_wrap by apply H. exact H.
Qed.

(** Where the nodes of what is collected, or is stored under the known
    subtrees, are. *)
Context (indb : bytes → Prop) (Hdb : ∀ q, indb q → ∃ h, (q, ValueHash h) ∈ taken.*1).
Context (cs : list (bytes * Node)) (Hcs : collected_ok indb taken.*1 cs).

Lemma supported_path k : supported indb cs k → (length k < 64)%nat.
Proof.
  intros [(q & Hq & Hp)|(c & Hc & Hp)]; apply stdpp.list_relations.list.prefix_length in Hp.
  - destruct (Hdb q Hq) as [h Hh]. apply taken_hash, holds_path in Hh as [_ Hl]. lia.
  - pose proof (ck_node _ _ _ Hcs c Hc) as Hn. apply no_branching, taken_branch in Hn as [Hn _].
    apply branch_path in Hn as [_ Hl]. lia.
Qed.

Lemma nonempty_digit k d : down d (sub k taken.*1) ≠ [] → 0 ≤ d < 16.
Proof.
  intros Hd. destruct (decide (0 ≤ d < 16)) as [|Hr]; [done|]. destruct Hd. by apply (down_outside d _ (MerkleTrie.sub_ok k _ taken_ok)).
Qed.

Lemma hashes_at k n d : node_of indb taken.*1 cs k n →
  Forall2 (child_hash (sub k taken.*1)) (filter (fun d => Z.testbit (hash_mask n) d = true) digits16) (hashes n) →
  0 ≤ d < 16 → ∀ h, node_hash n d = Some h → child_hash (sub k taken.*1) d h.
Proof.
  intros Hn Hall Hd h. unfold node_hash. rewrite mask_has_testbit by done. destruct (Z.testbit (hash_mask n) d) eqn:Hbit; [|done].
  intros Hh. pose proof (bit_index (hash_mask n) d Hd Hbit) as Hi.
  by apply (Forall2_lookup_lr _ _ _ _ _ _ Hall Hi Hh).
Qed.

Lemma supported_item k : supported indb cs k → sub k taken.*1 ≠ [].
Proof.
  intros [(q & Hq & [r ->])|(c & Hc & [r Hr])] E.
  - destruct (Hdb _ Hq) as [h Hh]. apply elem_of_sub in Hh. rewrite E in Hh. by apply elem_of_nil in Hh.
  - pose proof (no_branching _ _ _ _ _ (ck_node _ _ _ Hcs c Hc)) as Hb. rewrite Hr, sub_app, E, sub_nil in Hb.
    by destruct (branching_many _ Hb) as (? & ? & ? & ?).
Qed.

Lemma collected_node c : c ∈ cs → node_holds items c.1 c.2.
Proof.
  intros Hc. pose proof (ck_node _ _ _ Hcs c Hc) as Hn. destruct c as [k n]. cbn [fst snd] in *.
  pose proof (no_branching _ _ _ _ _ Hn) as Hbt. destruct (taken_branch k Hbt) as [Hb Heq].
  pose proof (hashes_at k n) as Hat. specialize (fun d => Hat d Hn (no_hashes _ _ _ _ _ Hn)).
  assert (∀ d, Z.testbit (tree_mask n) d = true → Z.testbit (state_mask n) d = true) as Ht.
  { intros d Hd. apply (no_state _ _ _ _ _ Hn). apply (no_tree _ _ _ _ _ Hn), supported_item in Hd. by rewrite sub_app in Hd. }
  assert (∀ d, Z.testbit (hash_mask n) d = true → Z.testbit (state_mask n) d = true) as Hh.
  { intros d Hd. by apply (no_state _ _ _ _ _ Hn), (no_hash _ _ _ _ _ Hn). }
  assert (u16_mask (state_mask n)) as Hs.
  { intros d Hd%(no_state _ _ _ _ _ Hn). by apply (nonempty_digit k). }
  assert (count_ones (hash_mask n) = length (hashes n)) as Hcount by exact (Forall2_length _ _ _ (no_hashes _ _ _ _ _ Hn)).
  assert (∀ h, node_root_hash n = Some h → k = [] ∧ holds k h) as Hroot.
  { intros h. rewrite (no_root _ _ _ _ _ Hn). case_decide as E; [|done]. intros [= <-]. split; [done|].
    rewrite Heq. by apply known_branch. }
  split.
  - done.
  - split.
    + split_and!; [by apply u16_of_bits|apply u16_of_bits; intros d Hd; by apply Hs, Ht|apply u16_of_bits; intros d Hd; by apply Hs, Hh|..].
      * apply Forall_forall. intros h (i & Hi)%list_elem_of_lookup.
        destruct (Forall2_lookup_r _ _ _ _ _ (no_hashes _ _ _ _ _ Hn) Hi) as (d & _ & Hch). by apply child_holds in Hch as [? _].
      * destruct (node_root_hash n) as [h|] eqn:E; [|done]. cbn. by apply (Hroot h).
      * unfold new_node. rewrite !mask_subset by done. rewrite !ok_bind, Hcount, Nat.eqb_refl. by destruct n.
    + intros E. destruct Hbt as (x & _ & _ & Hx & _). apply (no_state _ _ _ _ _ Hn) in Hx. by rewrite E, Z.bits_0 in Hx.
  - intros d h Hd Hdh. apply child_holds. by apply Hat.
  - rewrite (no_root _ _ _ _ _ Hn). case_decide; split; [done|by eexists|by intros []|done].
  - intros h Hh'. by apply Hroot.
  - split; [by apply branch_path|]. assert (∃ d, (length (k ++ [d]) < 64)%nat) as [d Hd]; [|rewrite length_app in Hd; cbn in Hd; lia].
    destruct (no_marked _ _ _ _ _ Hn) as [Hm|Hm].
    + assert (∃ d, Z.testbit (tree_mask n) d = true) as [d Hd].
      { apply nonzero_bit; [|done]. intros e He. by apply Hs, Ht. }
      exists d. by apply supported_path, (no_tree _ _ _ _ _ Hn).
    + assert (∃ d, Z.testbit (hash_mask n) d = true) as [d Hd].
      { apply nonzero_bit; [|done]. intros e He. by apply Hs, Hh. }
      exists d. pose proof (Hs d (Hh d Hd)) as Hdr. pose proof (bit_index (hash_mask n) d Hdr Hd) as Hi.
      destruct (Forall2_lookup_l _ _ _ _ _ (no_hashes _ _ _ _ _ Hn) Hi) as (h & _ & Hch).
      apply child_holds, holds_path in Hch as [_ Hl]. exact Hl.
Qed.

(** ** The table that they are loaded into *)

(** What the loop leaves in the table of its cursor: the rows under the
    subtrees that it has passed over, which have not changed. *)
Record walk_left (t0 : ByteTable) (pre : bytes) (ch : PrefixSet) (t : ByteTable) : Prop := {
  wl_row p : is_Some (t !! (pre ++ p)) → ∃ k h b, EBranch k h b ∈ evs ∧ k `prefix_of` p;
  wl_kept k h b p : EBranch k h b ∈ evs → k `prefix_of` p → t !! (pre ++ p) = t0 !! (pre ++ p);
  wl_flag k h b : EBranch k h b ∈ evs → b = true ↔ ∃ p, k `prefix_of` p ∧ is_Some (t0 !! (pre ++ p));
  wl_unchanged k h b : EBranch k h b ∈ evs → contains (pre ++ k) ch = false
}.
End collected.

(** The nodes of the collector, but for a root that it may leave out, put
    into that table. *)
Record loaded (t : ByteTable) (cs : list (bytes * Node)) (pre : bytes) (tf : ByteTable) : Prop := {
  ld_row p v : tf !! (pre ++ p) = Some v → (∃ n, (p, n) ∈ cs ∧ v = marshal_node n) ∨ t !! (pre ++ p) = Some v;
  ld_new c : c ∈ cs → c.1 ≠ [] → is_Some (tf !! (pre ++ c.1));
  ld_old p : is_Some (t !! (pre ++ p)) → is_Some (tf !! (pre ++ p))
}.

(** The subtrees taken over that have stored nodes. *)
Definition reused {A} (evs : list (event A)) (q : bytes) : Prop := ∃ h, EBranch q h true ∈ evs.

Lemma not_contains_more p r ch : StronglySorted bytes_lt ch → contains p ch = false → contains (p ++ r) ch = false.
Proof.
  intros Hch Hp. destruct (contains (p ++ r) ch) eqn:E; [|done].
  apply contains_sorted in E; [|done]. rewrite <- Hp. symmetry. apply contains_sorted; [done|].
  eapply Exists_impl; [exact E|]. intros k Hk. etrans; [|exact Hk]. by apply prefix_app_r.
Qed.

Section loaded.
Context {HH : Hashing} {HR : RlpStream}.
Context {A : Type} (path : A → bytes) (leaf : A → bytes) (L : list A).
Context (Hpath : ∀ x, x ∈ L → nibbles (path x) ∧ length (path x) = 64%nat).
Context (Hsorted : StronglySorted (path_lt path) L).
Context (Hword : ∀ x, is_u256 (keccak256 x)).

Abbreviation items := (leaf_items path leaf L).

Context (Hwide : wide items).
Context (evs : list (event A)) (Hcov : events_cover path L (holds_for items) evs L).

Abbreviation taken := (event_item path leaf <$> evs).

Abbreviation reused := (reused evs).

Context (cs : list (bytes * Node)) (Hcs : collected_ok reused taken.*1 cs).
Context (t0 : ByteTable) (pre : bytes) (ch : PrefixSet) (Hch : StronglySorted bytes_lt ch).
Context (Hwf : trie_wf t0 pre) (Hfull : trie_full t0 pre) (Hhold : unchanged_hold t0 pre ch (holds_for items)).
Context (t : ByteTable) (Hleft : walk_left evs t0 pre ch t).
Context (tf : ByteTable) (Hloaded : loaded t cs pre tf).

Abbreviation row m p := (is_Some (m !! (pre ++ p))).

Lemma event_taken k h b : EBranch k h b ∈ evs → (k, ValueHash h) ∈ taken.*1.
Proof.
  intros He. apply list_elem_of_fmap. exists ((k, ValueHash h), b). split; [done|].
  apply list_elem_of_fmap. by exists (EBranch k h b).
Qed.

Lemma reused_taken q : reused q → ∃ h, (q, ValueHash h) ∈ taken.*1.
Proof. intros [h Hh]. exists h. by eapply event_taken. Qed.

Lemma node_collected c : c ∈ cs → node_holds items c.1 c.2.
Proof. exact (collected_node path leaf L Hpath Hsorted Hword Hwide evs Hcov reused reused_taken cs Hcs c). Qed.

Abbreviation Hok := (taken_ok path leaf L Hpath Hsorted evs Hcov).

(** Nothing is collected under a subtree that was passed over. *)
Lemma collected_apart c k h b : c ∈ cs → EBranch k h b ∈ evs → ¬ k `prefix_of` c.1.
Proof.
  intros Hc He [r Hr]. pose proof (no_branching _ _ _ _ _ (ck_node _ _ _ Hcs c Hc)) as Hb. rewrite Hr, sub_app in Hb.
  apply event_taken in He. rewrite <- (app_nil_r k) in He. apply elem_of_sub in He.
  rewrite (items_ok_empty_key _ _ (MerkleTrie.sub_ok k _ Hok) He) in Hb. by apply branching_not_single in Hb.
Qed.

(** Where a row comes from. *)
Inductive source (p : bytes) : Prop :=
| from_collected n : (p, n) ∈ cs → source p
| from_table k h b : EBranch k h b ∈ evs → k `prefix_of` p → row t0 p → source p.

Lemma left_row p : row t p → ∃ k h b, EBranch k h b ∈ evs ∧ k `prefix_of` p ∧ t !! (pre ++ p) = t0 !! (pre ++ p).
Proof.
  intros Hp. destruct (wl_row _ _ _ _ _ Hleft p Hp) as (k & h & b & He & Hk). exists k, h, b.
  split_and!; [done|done|]. by apply (wl_kept _ _ _ _ _ Hleft k h b).
Qed.

Lemma row_source p : row tf p → source p.
Proof.
  intros [v Hv]. destruct (ld_row _ _ _ _ Hloaded p v Hv) as [(n & Hn & _)|Ht]; [by apply (from_collected p n)|].
  destruct (left_row p ltac:(by exists v)) as (k & h & b & He & Hk & E). apply (from_table p k h b He Hk). rewrite <- E. by exists v.
Qed.

Lemma kept_row k h b p : EBranch k h b ∈ evs → k `prefix_of` p → row t0 p → row tf p.
Proof. intros He Hk Hp. apply (ld_old _ _ _ _ Hloaded). by rewrite (wl_kept _ _ _ _ _ Hleft k h b). Qed.

(** The nodes that the new table holds. *)
Lemma node_source p n : node_at tf pre p n →
  (p, n) ∈ cs ∨ ∃ k h b, EBranch k h b ∈ evs ∧ k `prefix_of` p ∧ node_at t0 pre p n.
Proof.
  intros (v & Hv & Hn). destruct (ld_row _ _ _ _ Hloaded p v Hv) as [(n' & Hn' & ->)|Ht].
  - left. pose proof (row_node_marshal _ _ _ (node_collected _ Hn')) as E. cbn [snd] in E. rewrite E in Hn. by injection Hn as <-.
  - right. destruct (left_row p ltac:(by exists v)) as (k & h & b & He & Hk & E). exists k, h, b.
    split_and!; [done|done|]. exists v. by rewrite <- E.
Qed.

Lemma supported_row k : k ≠ [] → supported reused cs k → ∃ q, row tf (k ++ q).
Proof.
  intros Hk [(q & [h Hh] & [r ->])|(c & Hc & [r Hr])].
  - destruct (proj1 (wl_flag _ _ _ _ _ Hleft _ _ _ Hh) eq_refl) as (p & [s ->] & Hp).
    exists (r ++ s). rewrite (app_assoc k). eapply kept_row; [exact Hh|by apply prefix_app_r|done].
  - exists r. rewrite <- Hr. apply (ld_new _ _ _ _ Hloaded); [done|]. rewrite Hr. by destruct k.
Qed.

Lemma source_supported p d q : source (p ++ d :: q) → (∀ k h b, EBranch k h b ∈ evs → ¬ k `prefix_of` p) →
  supported reused cs (p ++ [d]).
Proof.
  intros Hs Hp. assert (p ++ d :: q = (p ++ [d]) ++ q) as E by by rewrite <- app_assoc. rewrite E in Hs.
  destruct Hs as [n Hn|k h b He Hk Hrow].
  - right. exists (p ++ [d] ++ q, n). rewrite <- app_assoc in Hn. split; [done|]. cbn [fst]. rewrite app_assoc. by apply prefix_app_r.
  - left. assert (b = true) as -> by (apply (wl_flag _ _ _ _ _ Hleft k h b He); eauto).
    exists k. split; [by exists h|]. specialize (Hp k h true He).
    destruct (prefix_weak_total k (p ++ [d]) _ Hk (prefix_app_r _ _ _ (reflexivity _))) as [Hkp|?]; [|done].
    destruct Hkp as [r Hr]. destruct r as [|x r _] using rev_ind; [rewrite app_nil_r in Hr; by rewrite Hr|].
    rewrite app_assoc in Hr. apply app_inj_tail in Hr as [Hr _]. destruct Hp. rewrite Hr. by apply prefix_app_r.
Qed.

Lemma loaded_wf : trie_wf tf pre.
Proof.
  split.
  - intros p v Hv. destruct (ld_row _ _ _ _ Hloaded p v Hv) as [(n & Hn & ->)|Ht].
    + pose proof (node_collected _ Hn) as Hh. exists n. split; [by apply (row_node_marshal _ _ _ Hh)|].
      by destruct (nh_ok _ _ _ Hh) as [[? _] _].
    + destruct (left_row p ltac:(by exists v)) as (_ & _ & _ & _ & _ & E). apply (wf_row _ _ Hwf p). by rewrite <- E.
  - intros p Hp. destruct (row_source p Hp) as [n Hn|k h b _ _ Hrow]; [by apply (nh_path _ _ _ (node_collected _ Hn))|].
    by apply (wf_path _ _ Hwf).
  - intros p n d Hn Hd Hm. destruct (node_source p n Hn) as [Hc|(k & h & b & He & Hk & Hn0)].
    + rewrite mask_has_testbit in Hm by done. apply (no_tree _ _ _ _ _ (ck_node _ _ _ Hcs _ Hc)) in Hm. cbn [fst] in Hm.
      destruct (supported_row (p ++ [d]) ltac:(by destruct p) Hm) as [q Hq]. exists q. by rewrite <- app_assoc in Hq.
    + destruct (wf_tree _ _ Hwf p n d Hn0 Hd Hm) as [q Hq]. exists q.
      apply (kept_row k h b); [done|by apply prefix_app_r|done].
  - intros p n Hn. destruct (node_source p n Hn) as [Hc|(k & h & b & He & Hk & Hn0)].
    + by apply (nh_root _ _ _ (node_collected _ Hc)).
    + by apply (wf_root _ _ Hwf).
Qed.

Lemma loaded_hold ch' : unchanged_hold tf pre ch' (holds_for items).
Proof.
  split.
  - intros p n d h Hn Hd Hdh _. destruct (node_source p n Hn) as [Hc|(k & h' & b & He & [r ->] & Hn0)].
    + by apply (nh_child _ _ _ (node_collected _ Hc)).
    + apply (uh_child _ _ _ _ Hhold _ n d h Hn0 Hd Hdh). rewrite <- app_assoc, app_assoc.
      apply not_contains_more; [done|]. by apply (wl_unchanged _ _ _ _ _ Hleft k h' b).
  - intros n h Hn Hh _. destruct (node_source [] n Hn) as [Hc|(k & h' & b & He & Hk & Hn0)].
    + by apply (nh_root_hash _ _ _ (node_collected _ Hc)).
    + apply prefix_nil_inv in Hk as ->. apply (uh_root _ _ _ _ Hhold n h Hn0 Hh). by apply (wl_unchanged _ _ _ _ _ Hleft [] h' b).
Qed.

(** A subtree that was passed over has all its rows in the old table. *)
Lemma under_passed k h b p : EBranch k h b ∈ evs → k `prefix_of` p → source p → row t0 p.
Proof. intros He Hk [n Hn|k' h' b' _ _ Hrow]; [|done]. by destruct (collected_apart _ _ _ _ Hn He). Qed.

Lemma source_down p d q : source (p ++ d :: q) → (∀ k h b, EBranch k h b ∈ evs → ¬ k `prefix_of` p) →
  down d (sub p taken.*1) ≠ [].
Proof.
  intros Hs Hp. pose proof (source_supported p d q Hs Hp) as Hsup.
  pose proof (supported_item path leaf evs reused reused_taken cs Hcs _ Hsup) as Hne. by rewrite sub_app in Hne.
Qed.

Lemma passed_above p : (∃ k h b, EBranch k h b ∈ evs ∧ k `prefix_of` p) ∨ (∀ k h b, EBranch k h b ∈ evs → ¬ k `prefix_of` p).
Proof.
  clear. induction evs as [|e l IH]; [right; by intros k h b ?%elem_of_nil|].
  destruct IH as [(k & h & b & He & Hk)|Hno]; [left; exists k, h, b; split; [by right|done]|].
  destruct e as [k h b|x].
  - destruct (decide (k `prefix_of` p)) as [Hk|Hk]; [left; exists k, h, b; split; [left|done]|].
    right. intros k' h' b' [[= -> _ _]|Hin]%elem_of_cons; [done|by eapply Hno].
  - right. intros k' h' b' [?|Hin]%elem_of_cons; [done|by eapply Hno].
Qed.

Lemma loaded_full : trie_full tf pre.
Proof.
  split.
  - intros p n d q Hn Hq%row_source. destruct (node_source p n Hn) as [Hc|(k & h & b & He & Hk & Hn0)].
    + assert (∀ k h b, EBranch k h b ∈ evs → ¬ k `prefix_of` p) as Hp by (intros k h b; by apply (collected_apart (p, n))).
      pose proof (source_supported p d q Hq Hp) as Hs. pose proof (ck_node _ _ _ Hcs _ Hc) as Hnode. cbn [fst snd] in Hnode.
      pose proof (source_down p d q Hq Hp) as Hd.
      rewrite mask_has_testbit; [by apply (no_tree _ _ _ _ _ Hnode)|].
      by apply (nonempty_digit path leaf L Hpath Hsorted evs Hcov p).
    + apply (tf_tree _ _ Hfull p n d q Hn0). apply (under_passed k h b); [done|by apply prefix_app_r|done].
  - intros p d e q r Hp Hde Hq%row_source Hr%row_source. destruct (passed_above p) as [(k & h & b & He & Hk)|Hno].
    + apply (kept_row k h b p He Hk). apply (tf_meet _ _ Hfull p d e q r Hp Hde);
        (apply (under_passed k h b); [done|by apply prefix_app_r|done]).
    + assert (p ∈ cs.*1) as ([p' n] & -> & Hin)%list_elem_of_fmap.
      { apply (ck_every _ _ _ Hcs p d); [|by eapply source_supported]. exists d, e. split_and!; [done|by eapply source_down..]. }
      by apply (ld_new _ _ _ _ Hloaded (p', n)).
Qed.
End loaded.

(** ** The builder on the items of the loop, with a node collector *)

Section build.
Context {HH : Hashing} {HR : RlpStream}.
Context {A : Type} (path : A → bytes) (leaf : A → bytes) (L : list A).
Context (Hpath : ∀ x, x ∈ L → nibbles (path x) ∧ length (path x) = 64%nat).
Context (Hsorted : StronglySorted (path_lt path) L).
Context (Hword : ∀ x, is_u256 (keccak256 x)).

Abbreviation items := (leaf_items path leaf L).

Context (Hwide : wide items).

Lemma collected_none (indb : bytes → Prop) q v : collected_ok indb [(q, v)] [].
Proof. split; [by intros c ?%elem_of_nil|]. intros k d Hb. by apply branching_not_single in Hb. Qed.

Lemma build_root evs :
  events_cover path L (holds_for items) evs L →
  ∃ hb hb', add_items (event_item path leaf <$> evs) (builder_with (Some [])) = Ok hb
    ∧ root_hash hb = Ok (merkle_root items, hb')
    ∧ collected_ok (reused evs) (event_item path leaf <$> evs).*1 (calls hb').
Proof.
  intros Hc. pose proof (taken_ok path leaf L Hpath Hsorted evs Hc) as Hok. pose proof (taken_covers path leaf L evs Hc) as Hcov.
  pose proof (leaf_items_ok path leaf L Hpath Hsorted) as Hokl.
  destruct (decide ([] ∈ (event_item path leaf <$> evs).*1.*1)) as [Hin|Hnin].
  - apply list_elem_of_fmap in Hin as ([k v] & E & Hin). cbn in E. subst k.
    pose proof (items_ok_empty_key _ _ Hok Hin) as Hall.
    destruct evs as [|e [|e' evs]]; [done| |done]. cbn [fmap list_fmap] in *. injection Hall as Hall.
    destruct e as [k h in_db|x]; cbn [event_item fst] in Hall |- *.
    + injection Hall as -> <-. destruct (cover_branch _ _ _ _ _ Hc [] h in_db ltac:(left)) as [[Hh Hk] _].
      destruct (add_root_node h in_db (Some []) Hh) as (hb & Hadd & Hroot & Hcs). exists hb, hb.
      split; [exact Hadd|]. rewrite Hroot, (known_root items h Hword Hh Hk). split; [done|].
      unfold calls. rewrite Hcs. apply collected_none.
    + injection Hall as Hx _. assert (x ∈ L) as HxL by (inversion Hc; subst; left).
      destruct (Hpath x HxL) as [_ Hl]. by rewrite Hx in Hl.
  - destruct (add_items_nodes Hword (reused evs) (event_item path leaf <$> evs) (Some []) Hok Hnin)
      as (hb & hb' & Hadd & Hroot & Hcol & Hinv); [by intros _; apply (covers_wide _ _ Hcov)|done|..].
    { intros q [h Hh]. exists h. by eapply event_taken. }
    { intros k h b Hin. rewrite (flagged_flag _ k h b Hok Hin). unfold flagged, reused. split; intros [h' Hh']; exists h'.
      - apply list_elem_of_fmap in Hh' as ([k' h'' b'|x] & [=] & He); by subst.
      - apply list_elem_of_fmap. by exists (EBranch k h' true). }
    exists hb, hb'. split; [done|]. rewrite Hroot. split; [do 2 f_equal; by apply covers_root|].
    split; [intros c Hcc; by apply (inv_calls _ _ _ _ _ Hinv)|].
    intros k d Hb Hs. apply (inv_every _ _ _ _ _ Hinv k d); [by rewrite Hcol| |done|done]. right. split; [done|apply prefix_nil].
Qed.

End build.

(** What the cursor leaves in the end. *)
Lemma walk_leaves {A} t0 pre ch c (evs : list (event A)) :
  cursor_ok t0 pre ch c → taken_over t0 pre ch evs → left_behind t0 pre (table c) (branched evs) →
  walk_left evs t0 pre ch (table c).
Proof.
  intros Hc [Hu Hf] [Hh Hk]. split.
  - intros p Hp. assert (is_Some (t0 !! (pre ++ p))) as Hp0 by by rewrite <- (co_table _ _ _ _ Hc).
    destruct (Hh p Hp0) as [Hn|(k & (h & b & He) & Hkp)]; [rewrite Hn in Hp; by destruct Hp|]. by exists k, h, b.
  - intros k h b p He. apply Hk. by exists h, b.
  - exact Hf.
  - exact Hu.
Qed.
