(* ===== verification/StateRoot.v ===== *)
(** * StateRoot

    The roots that [intermediate_hashes.rs] computes are those of the
    Merkle-Patricia trees of the hashed tables: from scratch, and from
    stored nodes of which those that have not changed still hold. The nodes
    that it stores hold again. *)

From stdpp Require Import sorting.
From S2P Require Import Prelude Words Errors Account Transaction Block BytesOrder StagedSync Etl TableCodecs Database BufferFlush HashState.
From S2P Require Import TrieNode HashBuilder MerkleTrie BuilderFrames BuilderMasks BuilderRoot MerkleCover TrieCursor IntermediateHashes TrieWalk TrieVisit TrieRoot LoopItems StoredNodes.

(** ** The trees of the hashed tables *)

Section roots.
Context {HH : Hashing} {HR : RlpStream}.
Implicit Types (d : Database) (hs : DupSlots).

Definition slot_rlp (e : Z * (Z * Z)) : bytes := storage_value_rlp e.2.2.

Definition storage_items hs (a : Z) : list item := leaf_items slot_path slot_rlp (walk_slots a hs).

(** The storage root of an account. *)
Definition storage_root_of hs (a : Z) : Z := merkle_root (storage_items hs a).

Definition full_account_rlp hs (e : Z * Account) : bytes := account_rlp e.2 (storage_root_of hs e.1).

Definition account_items d : list item := leaf_items account_path (full_account_rlp (HashedStorage d)) (entries (HashedAccount d)).

(** The state root: that of the tree of all accounts, each with its storage
    root. *)
Definition hashed_root d : Z := merkle_root (account_items d).

(** The hashed tables: keys of 32 bytes, one value for each slot. *)
Record hashed_wf d : Prop := {
  hw_accounts a : is_Some (HashedAccount d !! a) → fits KECCAK_LENGTH a;
  hw_slots a l v : (a, (l, v)) ∈ HashedStorage d → fits KECCAK_LENGTH l;
  hw_functional : functional (HashedStorage d);
  hw_wide : wide (account_items d) ∧ ∀ a, wide (storage_items (HashedStorage d) a)
}.

(** Stored trie nodes under a prefix, of which those that are not on the way
    to a changed key hold. *)
Definition stored_hold (t : ByteTable) (pre : bytes) (ch : PrefixSet) (items : list item) : Prop :=
  trie_wf t pre ∧ unchanged_hold t pre ch (holds_for items).

Record tries_hold (ch : PrefixSet) d : Prop := {
  th_accounts : stored_hold (TrieAccount d) [] ch (account_items d);
  th_storage a : is_Some (HashedAccount d !! a) →
    stored_hold (TrieStorage d) (to_be_bytes KECCAK_LENGTH a) ch (storage_items (HashedStorage d) a)
}.

Lemma stored_hold_ext t t' pre ch items :
  (∀ p, t' !! (pre ++ p) = t !! (pre ++ p)) → stored_hold t pre ch items → stored_hold t' pre ch items.
Proof.
  intros He [[Hr Hp Ht Hro] [Hc Hu]].
  assert (∀ p n, node_at t' pre p n ↔ node_at t pre p n) as Hn by (intros p n; unfold node_at; by rewrite He).
  split; split.
  - intros p v. rewrite He. apply Hr.
  - intros p. rewrite He. apply Hp.
  - intros p n d. rewrite Hn. intros H1 H2 H3. destruct (Ht p n d H1 H2 H3) as [q Hq]. exists q. by rewrite He.
  - intros p n. rewrite Hn. apply Hro.
  - intros p n d h. rewrite Hn. apply Hc.
  - intros n h. rewrite Hn. apply Hu.
Qed.

Lemma slots_sorted hs a :
  functional hs → (∀ l v, (a, (l, v)) ∈ hs → fits KECCAK_LENGTH l) → StronglySorted (path_lt slot_path) (walk_slots a hs).
Proof.
  intros Hf Hfit. pose proof (walk_slots_sorted a hs) as Hs.
  assert (∀ e, e ∈ walk_slots a hs → e.1 = a ∧ e ∈ hs) as Hin by (intros e; apply elem_of_walk_slots).
  assert (NoDup (walk_slots a hs)) as Hnd.
  { unfold walk_slots. rewrite (merge_sort_Permutation slot_le _). apply NoDup_filter, NoDup_elements. }
  induction Hs as [|e l Hl IH He]; [constructor|]. apply NoDup_cons in Hnd as [Hnin Hnd]. constructor.
  { apply IH; [intros e' He'; apply Hin; by right|done]. }
  apply Forall_forall. intros e' He'. rewrite Forall_forall in He. specialize (He e' He').
  destruct (Hin e ltac:(left)) as [E1 H1], (Hin e' ltac:(by right)) as [E2 H2].
  destruct e as [a1 [l1 v1]], e' as [a2 [l2 v2]]. cbn in *. subst a1 a2.
  unfold path_lt, slot_path. cbn. apply hash_path_lt; [by eapply Hfit..|].
  destruct He as [Hlt|[E _]]; cbn in *; [done|]. subst l2. rewrite (Hf a l1 v1 v2 H1 H2) in Hnin. done.
Qed.

Lemma walk_slots_path hs a x : x ∈ walk_slots a hs → nibbles (slot_path x) ∧ length (slot_path x) = 64%nat.
Proof. intros _. apply hash_path_ok. Qed.

Lemma entries_path {V} (m : gmap Z V) (e : Z * V) : nibbles (hash_path e.1) ∧ length (hash_path e.1) = 64%nat.
Proof. apply hash_path_ok. Qed.

Lemma accounts_sorted (m : gmap Z Account) :
  (∀ a, is_Some (m !! a) → fits KECCAK_LENGTH a) → StronglySorted (path_lt account_path) (entries m).
Proof.
  intros Hfit. pose proof (entries_sorted m) as Hs.
  assert (∀ e, e ∈ entries m → fits KECCAK_LENGTH e.1) as Hin.
  { intros [a acc] He%elem_of_entries. apply Hfit. cbn. by rewrite He. }
  induction Hs as [|e l Hl IH He]; [constructor|]. constructor; [apply IH; intros e' He'; apply Hin; by right|].
  apply Forall_forall. intros e' He'. rewrite Forall_forall in He. specialize (He e' He').
  apply hash_path_lt; [apply Hin; left|apply Hin; by right|done].
Qed.

(** The items that the builder gets from the events of the storage loop. *)
Lemma storage_events leaf evs hb :
  res_foldl (apply_event add_branch_node (fun e : Z * (Z * Z) => add_leaf (slot_path e) (leaf e))) hb evs
  = add_items (event_item slot_path leaf <$> evs) hb.
Proof.
  revert hb. induction evs as [|e evs IH]; intros hb; [done|]. unfold add_items in *. cbn [fmap list_fmap res_foldl].
  assert (apply_event add_branch_node (fun e => add_leaf (slot_path e) (leaf e)) hb e
          = add_item (event_item slot_path leaf e).1 (event_item slot_path leaf e).2 hb) as -> by by destruct e.
  destruct (add_item _ _ hb); [apply IH|done..].
Qed.

(** Stored nodes that all hold, with complete tree masks. *)
Definition stored_full (t : ByteTable) (pre : bytes) (items : list item) : Prop :=
  (∀ ch, stored_hold t pre ch items) ∧ trie_full t pre.

(** What putting the collected nodes [cs] into the table [t] of the cursor
    makes of it. *)
Definition stores (t : ByteTable) (cs : list (bytes * Node)) (pre : bytes) (items : list item) : Prop :=
  ∀ tf, loaded t cs pre tf → stored_full tf pre items.

(** One run of the loop over sorted leaves, with its builder. *)
Lemma run_stores {A} (path leaf : A → bytes) L ch t pre c evs hb
    (Hpath : ∀ x, x ∈ L → nibbles (path x) ∧ length (path x) = 64%nat) (Hsorted : StronglySorted (path_lt path) L)
    (Hword : ∀ x, is_u256 (keccak256 x)) (Hwide : wide (leaf_items path leaf L)) (Hch : StronglySorted bytes_lt ch) :
  stored_hold t pre ch (leaf_items path leaf L) → trie_full t pre →
  events_cover path L (holds_for (leaf_items path leaf L)) evs L → cursor_ok t pre ch c →
  taken_over t pre ch evs → left_behind t pre (table c) (branched evs) →
  collected_ok (reused evs) (event_item path leaf <$> evs).*1 (calls hb) →
  stores (table c) (calls hb) pre (leaf_items path leaf L).
Proof.
  intros [Hwf Hhold] Hfull Hcov Hc Hover Hleft Hcs tf Hloaded. pose proof (walk_leaves t pre ch c evs Hc Hover Hleft) as Hw.
  split; [intros ch'; split|].
  - by eapply (loaded_wf path leaf L Hpath Hsorted Hword Hwide evs Hcov).
  - by eapply (loaded_hold path leaf L Hpath Hsorted Hword Hwide evs Hcov).
  - by eapply (loaded_full path leaf L Hpath Hsorted Hword Hwide evs Hcov).
Qed.

(** The storage root is that of the tree of the slots. *)
Lemma calculate_storage_root_ok hs a ch t (Hword : ∀ x, is_u256 (keccak256 x)) :
  functional hs → (∀ l v, (a, (l, v)) ∈ hs → fits KECCAK_LENGTH l) → wide (storage_items hs a) → StronglySorted bytes_lt ch →
  stored_hold t (to_be_bytes KECCAK_LENGTH a) ch (storage_items hs a) →
  ∃ b t', calculate_storage_root hs a ch t = Ok (storage_root_of hs a, collected (to_be_bytes KECCAK_LENGTH a) b, t')
    ∧ (∀ k, ¬ to_be_bytes KECCAK_LENGTH a `prefix_of` k → t' !! k = t !! k)
    ∧ (trie_full t (to_be_bytes KECCAK_LENGTH a) → stores t' (calls b) (to_be_bytes KECCAK_LENGTH a) (storage_items hs a)).
Proof.
  intros Hf Hfit Hwide Hch [Hwf Hhold]. set (pre := to_be_bytes KECCAK_LENGTH a) in *.
  pose proof (slots_sorted hs a Hf Hfit) as Hs.
  destruct (walk_all t pre ch Hwf slot_path (walk_slots a hs) (walk_slots_path hs a) Hs _ Hhold)
    as (c & c' & evs & Hnew & Hcov & Hc' & Hrun & Hleft).
  destruct (build_root slot_path slot_rlp (walk_slots a hs) (walk_slots_path hs a) Hs Hword Hwide evs Hcov)
    as (hb & hb' & Hadd & Hroot & Hcs).
  unfold calculate_storage_root. fold pre. rewrite Hnew, ok_bind. cbv zeta.
  rewrite (Hrun _ add_branch_node (fun e => add_leaf (slot_path e) (slot_rlp e))).
  - rewrite storage_events. change (with_collected (Some []) new_builder) with (builder_with (Some [])).
    rewrite Hadd, !ok_bind, Hroot, ok_bind. eexists _, _. split; [reflexivity|]. split; [apply (co_other _ _ _ _ Hc')|].
    intros Hfull. destruct (Hleft Hfull). by eapply run_stores; [apply walk_slots_path|..].
  - intros trie_key u s Hu Hl. f_equal. apply filter_ext_elem. intros [a' [l v]] He. apply elem_of_walk_slots in He as [E He].
    cbn in E. subst a'. apply seek_key_path; [done|lia|]. by eapply Hfit.
Qed.

(** The accounts whose storage the events visit. *)
Definition visited {V} (evs : list (event (Z * V))) : list Z :=
  omap (fun e => match e with ELeaf x => Some x.1 | EBranch _ _ _ => None end) evs.

Lemma cover_visited {V} path (L : list (Z * V)) holds evs l :
  events_cover path L holds evs l → NoDup l.*1 → NoDup (visited evs) ∧ ∀ a, a ∈ visited evs → a ∈ l.*1.
Proof.
  induction 1 as [|x evs l _ IH|k h in_db evs l _ _ _ IH]; intros Hn; cbn [visited omap list_omap].
  - split; [constructor|done].
  - rewrite fmap_cons in Hn |- *. apply NoDup_cons in Hn as [Hx Hn]. destruct (IH Hn) as [Hnd Hin]. split.
    + constructor; [|done]. intros H%Hin. done.
    + intros a [->|Ha]%elem_of_cons; [left|right; by apply Hin].
  - rewrite fmap_app in Hn |- *. apply NoDup_app in Hn as (_ & _ & Hn). destruct (IH Hn) as [Hnd Hin]. split; [done|].
    intros a Ha. apply elem_of_app. right. by apply Hin.
Qed.

Lemma to_be_prefix a b p : fits KECCAK_LENGTH a → fits KECCAK_LENGTH b →
  to_be_bytes KECCAK_LENGTH a `prefix_of` to_be_bytes KECCAK_LENGTH b ++ p → a = b.
Proof.
  intros Ha Hb [q Hq]. apply app_inj_1 in Hq as [Hq _]; [|by rewrite !length_to_be_bytes].
  by apply (f_equal from_be_bytes) in Hq; rewrite !from_to_be in Hq by done.
Qed.

Lemma to_be_common a b k : fits KECCAK_LENGTH a → fits KECCAK_LENGTH b →
  to_be_bytes KECCAK_LENGTH a `prefix_of` k → to_be_bytes KECCAK_LENGTH b `prefix_of` k → a = b.
Proof. intros Ha Hb Hpa [q ->]. by eapply to_be_prefix. Qed.

Lemma trie_full_ext t t' pre : (∀ p, t' !! (pre ++ p) = t !! (pre ++ p)) → trie_full t pre → trie_full t' pre.
Proof.
  intros He [H1 H2]. split.
  - intros p n d q (v & Hv & Hn). rewrite He in Hv |- *. apply H1. by exists v.
  - intros p d e q r. rewrite !He. apply H2.
Qed.

(** What the node collectors get. *)
Definition node_entry (e : Entry) : Prop := ∃ k n, e = (k, marshal_node n).

Lemma collected_entries p b : Forall node_entry (collected p b).
Proof. apply Forall_forall. intros e ([k n] & -> & _)%list_elem_of_fmap. by eexists _, _. Qed.

(** The entries of the account [a] among those pushed, with what is left of
    its nodes. *)
Definition storage_stores hs (a : Z) (t : ByteTable) (pushed : list Entry) : Prop :=
  ∃ cs, (∀ p v, (to_be_bytes KECCAK_LENGTH a ++ p, v) ∈ pushed → ∃ n, (p, n) ∈ cs ∧ v = marshal_node n)
    ∧ (∀ c, c ∈ cs → (to_be_bytes KECCAK_LENGTH a ++ c.1, marshal_node c.2) ∈ pushed)
    ∧ stores t cs (to_be_bytes KECCAK_LENGTH a) (storage_items hs a).

Lemma loaded_ext t t' cs pre tf : (∀ p, t' !! (pre ++ p) = t !! (pre ++ p)) → loaded t' cs pre tf → loaded t cs pre tf.
Proof.
  intros He [H1 H2 H3]. split; [|done|].
  - intros p v Hv. rewrite <- He. by apply H1.
  - intros p. rewrite <- He. apply H3.
Qed.

(** Entries of other accounts do not matter. *)
Lemma storage_stores_more hs a t t' pushed l :
  (∀ p, t' !! (to_be_bytes KECCAK_LENGTH a ++ p) = t !! (to_be_bytes KECCAK_LENGTH a ++ p)) →
  (∀ e, e ∈ l → ¬ to_be_bytes KECCAK_LENGTH a `prefix_of` e.1) →
  storage_stores hs a t pushed → storage_stores hs a t' (pushed ++ l) ∧ storage_stores hs a t' (l ++ pushed).
Proof.
  intros He Hl (cs & H1 & H2 & H3).
  assert (∀ p v, (to_be_bytes KECCAK_LENGTH a ++ p, v) ∉ l) as Hno.
  { intros p v Hin. apply (Hl _ Hin). by exists p. }
  split; exists cs; (split_and!; [intros p v [Hin|Hin]%elem_of_app|intros c Hc; apply elem_of_app|]).
  all: try (by destruct (Hno p v Hin)). all: try (by apply H1). all: try (by left; apply H2). all: try (by right; apply H2).
  all: intros tf Htf; apply H3; by eapply loaded_ext.
Qed.

Lemma collected_keys p b e : e ∈ collected p b → p `prefix_of` e.1.
Proof. intros ([k n] & -> & _)%list_elem_of_fmap. by apply prefix_app_r. Qed.

Lemma collected_stores hs a t b : stores t (calls b) (to_be_bytes KECCAK_LENGTH a) (storage_items hs a) →
  storage_stores hs a t (collected (to_be_bytes KECCAK_LENGTH a) b).
Proof.
  intros H. exists (calls b). split_and!; [|intros [k n] Hc; apply list_elem_of_fmap; by exists (k, n)|done].
  intros p v ([k n] & E & Hin)%list_elem_of_fmap. injection E as -> ->. by exists n.
Qed.

(** The loop over the accounts: the builder gets each with its storage
    root; the nodes of the storage of one account are apart from those of
    the others. *)
Lemma account_events hs ch (Hword : ∀ x, is_u256 (keccak256 x)) (Hf : functional hs)
    (Hfit : ∀ a l v, (a, (l, v)) ∈ hs → fits KECCAK_LENGTH l) (Hwide : ∀ a, wide (storage_items hs a))
    (Hch : StronglySorted bytes_lt ch) evs :
  NoDup (visited evs) → (∀ a, a ∈ visited evs → fits KECCAK_LENGTH a) →
  ∀ loader hb', (∀ a, a ∈ visited evs → stored_hold (trie_storage loader) (to_be_bytes KECCAK_LENGTH a) ch (storage_items hs a)) →
  add_items (event_item account_path (full_account_rlp hs) <$> evs) (hb loader) = Ok hb' →
  ∃ new t, res_foldl (apply_event add_account_branch (add_account hs ch)) loader evs
           = Ok (mkLoader hb' (storage_nodes loader ++ new) t)
    ∧ Forall node_entry new
    ∧ (∀ k, (∀ a, a ∈ visited evs → ¬ to_be_bytes KECCAK_LENGTH a `prefix_of` k) → t !! k = trie_storage loader !! k)
    ∧ (∀ e, e ∈ new → ∃ a, a ∈ visited evs ∧ to_be_bytes KECCAK_LENGTH a `prefix_of` e.1)
    ∧ ∀ a, a ∈ visited evs → trie_full (trie_storage loader) (to_be_bytes KECCAK_LENGTH a) → storage_stores hs a t new.
Proof.
  induction evs as [|e evs IH]; intros Hn Hfits loader hb' Hst Hadd.
  { injection Hadd as <-. exists [], (trie_storage loader). split; [rewrite app_nil_r; by destruct loader|].
    split_and!; [constructor|done|by intros e ?%elem_of_nil|by intros a ?%elem_of_nil]. }
  unfold add_items in *. cbn [fmap list_fmap res_foldl] in *.
  destruct (add_item _ _ (hb loader)) as [b|er|] eqn:Hb; [|done..]. rewrite ok_bind in Hadd.
  destruct e as [k h in_db|[a acc]]; cbn [event_item fst snd leaf_item add_item] in Hb; cbn [apply_event visited omap list_omap] in *.
  - unfold add_account_branch. rewrite Hb, !ok_bind. by apply (IH Hn Hfits (with_hb b loader) hb' Hst Hadd).
  - apply NoDup_cons in Hn as [Ha Hn]. cbn [fst] in *.
    assert (fits KECCAK_LENGTH a) as Hfa by (apply Hfits; left).
    assert (∀ a', a' ∈ visited evs → fits KECCAK_LENGTH a' ∧ a' ≠ a) as Hne.
    { intros a' Ha'. split; [apply Hfits; by right|]. by intros ->. }
    assert (∀ a', a' ∈ visited evs → ∀ p, ¬ to_be_bytes KECCAK_LENGTH a `prefix_of` to_be_bytes KECCAK_LENGTH a' ++ p) as Hapart.
    { intros a' Ha' p Hp. destruct (Hne a' Ha') as [? Hne']. apply to_be_prefix in Hp; [by apply Hne'|done|done]. }
    destruct (calculate_storage_root_ok hs a ch (trie_storage loader) Hword Hf (fun l v => Hfit a l v) (Hwide a) Hch)
      as (sb & t' & Hroot & Hframe & Hstores).
    { apply Hst. left. }
    unfold add_account. cbn [fst snd]. rewrite Hroot, ok_bind. unfold full_account_rlp in Hb. cbn [fst snd] in Hb.
    rewrite Hb, !ok_bind.
    destruct (IH Hn (fun a' H => proj1 (Hne a' H)) (mkLoader b (storage_nodes loader ++ collected (to_be_bytes KECCAK_LENGTH a) sb) t') hb')
      as (new & t & Hrun & Hent & Hother & Hkeys & Hall); [|done|].
    { intros a' Ha'. cbn [trie_storage]. eapply stored_hold_ext; [|apply Hst; by right].
      intros p. by apply Hframe, Hapart. }
    cbn [trie_storage storage_nodes] in *. exists (collected (to_be_bytes KECCAK_LENGTH a) sb ++ new), t.
    rewrite app_assoc. split; [exact Hrun|]. split_and!.
    + apply Forall_app. split; [apply collected_entries|done].
    + intros k Hk. rewrite Hother by (intros a' Ha'; apply Hk; by right). apply Hframe, Hk. left.
    + intros e [He|He]%elem_of_app; [exists a; split; [left|by eapply collected_keys]|].
      destruct (Hkeys e He) as (a' & ? & ?). exists a'. split; [by right|done].
    + intros a' [->|Ha']%elem_of_cons Hfull.
      * refine (proj1 (storage_stores_more hs a t' t _ new _ _ _)); [| |apply collected_stores, Hstores, Hfull].
        -- intros p. apply Hother. intros a' Ha' Hp. destruct (Hne a' Ha') as [? Hne']. apply to_be_prefix in Hp; [by apply Hne'|done|done].
        -- intros e He Hp. destruct (Hkeys e He) as (a' & Ha' & Hp'). destruct (Hne a' Ha') as [Hfa' Hne']. apply Hne'.
           by apply (to_be_common a' a e.1).
      * refine (proj2 (storage_stores_more hs a' t t new (collected (to_be_bytes KECCAK_LENGTH a) sb) _ _ _)); [| |apply Hall; [done|]].
        -- done.
        -- intros e He Hp. apply collected_keys in He. destruct (Hne a' Ha') as [Hfa' Hne']. apply Hne'.
           by apply (to_be_common a' a e.1).
        -- eapply trie_full_ext; [|exact Hfull]. intros p. by apply Hframe, Hapart.
Qed.

(** Entries put into a table. *)
Record put_all (l : list Entry) (t tf : ByteTable) : Prop := {
  pa_row k v : tf !! k = Some v → (k, v) ∈ l ∨ t !! k = Some v;
  pa_new k v : (k, v) ∈ l → is_Some (tf !! k);
  pa_old k : is_Some (t !! k) → is_Some (tf !! k)
}.

(** Stored nodes that the changes [ch] are made behind: those off the way to
    a change hold, all those of the storage of an account that has not
    changed, and the tree masks are complete. *)
Definition storage_changes (ch : PrefixSet) (a : Z) : PrefixSet := if contains (hash_path a) ch then ch else new_prefix_set.

Record tries_ready (ch : PrefixSet) d : Prop := {
  tr_accounts : stored_hold (TrieAccount d) [] ch (account_items d) ∧ trie_full (TrieAccount d) [];
  tr_storage a : is_Some (HashedAccount d !! a) →
    stored_hold (TrieStorage d) (to_be_bytes KECCAK_LENGTH a) (storage_changes ch a) (storage_items (HashedStorage d) a)
    ∧ trie_full (TrieStorage d) (to_be_bytes KECCAK_LENGTH a)
}.

(** Stored nodes that all hold. *)
Record tries_stored d (accounts storage : ByteTable) : Prop := {
  ts_accounts : stored_full accounts [] (account_items d);
  ts_storage a : is_Some (HashedAccount d !! a) →
    stored_full storage (to_be_bytes KECCAK_LENGTH a) (storage_items (HashedStorage d) a)
}.

Lemma stored_hold_all t pre ch items : stored_hold t pre new_prefix_set items → stored_hold t pre ch items.
Proof. intros [Hwf [H1 H2]]. split; [done|]. split; intros; [by eapply H1|by eapply H2]. Qed.

Lemma tries_ready_hold ch d : tries_ready ch d → tries_hold ch d.
Proof.
  intros [[Ha _] Hs]. split; [done|]. intros a Hacc. destruct (Hs a Hacc) as [H _]. unfold storage_changes in H.
  destruct (contains (hash_path a) ch); [done|]. by apply stored_hold_all.
Qed.

Lemma cover_member {A} (path : A → bytes) L P evs l x :
  events_cover path L P evs l → x ∈ l → ELeaf x ∈ evs ∨ ∃ k, branched evs k ∧ k `prefix_of` path x.
Proof.
  induction 1 as [|y evs l _ IH|k h b evs l _ _ _ IH]; [by intros ?%elem_of_nil|..].
  - intros [->|Hx]%elem_of_cons; [left; left|]. destruct (IH Hx) as [?|(k & (h & b & ?) & ?)]; [left; by right|right].
    exists k. split; [exists h, b; by right|done].
  - intros [[Hp _]%list_elem_of_filter|Hx]%elem_of_app.
    + right. exists k. split; [exists h, b; left|done].
    + destruct (IH Hx) as [?|(k' & (h' & b' & ?) & ?)]; [left; by right|right].
      exists k'. split; [exists h', b'; by right|done].
Qed.

Lemma visited_leaf {V} (evs : list (event (Z * V))) a v : ELeaf (a, v) ∈ evs → a ∈ visited evs.
Proof. intros H. apply list_elem_of_omap. by exists (ELeaf (a, v)). Qed.

(** The storage nodes of an account that the loop does not visit are left
    alone. *)
Lemma unvisited_storage hs a ch t t' new tf :
  stored_hold t (to_be_bytes KECCAK_LENGTH a) new_prefix_set (storage_items hs a) → trie_full t (to_be_bytes KECCAK_LENGTH a) →
  (∀ p, t' !! (to_be_bytes KECCAK_LENGTH a ++ p) = t !! (to_be_bytes KECCAK_LENGTH a ++ p)) →
  (∀ e, e ∈ new → ¬ to_be_bytes KECCAK_LENGTH a `prefix_of` e.1) → put_all new t' tf →
  stored_hold tf (to_be_bytes KECCAK_LENGTH a) ch (storage_items hs a) ∧ trie_full tf (to_be_bytes KECCAK_LENGTH a).
Proof.
  intros Hst Hfull Hframe Hnew [H1 H2 H3].
  assert (∀ p, tf !! (to_be_bytes KECCAK_LENGTH a ++ p) = t !! (to_be_bytes KECCAK_LENGTH a ++ p)) as He.
  { intros p. rewrite <- Hframe. set (k := to_be_bytes KECCAK_LENGTH a ++ p) in *.
    assert (∀ v, tf !! k = Some v → t' !! k = Some v) as Hback.
    { intros v Hv. destruct (H1 k v Hv) as [Hin|?]; [|done]. destruct (Hnew _ Hin). by exists p. }
    destruct (tf !! k) as [v|] eqn:Hv; [by rewrite (Hback v)|]. destruct (t' !! k) eqn:Hv'; [|done].
    destruct (H3 k) as [w Hw]; [by eexists|congruence]. }
  split; [|by eapply trie_full_ext]. eapply stored_hold_ext; [done|]. by apply stored_hold_all.
Qed.

Lemma calculate_root_ok ch d (Hword : ∀ x, is_u256 (keccak256 x)) (Hch : StronglySorted bytes_lt ch) :
  hashed_wf d → tries_hold ch d →
  ∃ accounts storage t t', calculate_root ch d
      = Ok (hashed_root d, accounts, storage, set_TrieStorage t' (set_TrieAccount t d))
    ∧ Forall node_entry accounts ∧ Forall node_entry storage
    ∧ (tries_ready ch d → ∀ ta ts, put_all accounts t ta → put_all storage t' ts → tries_stored d ta ts).
Proof.
  intros [Hacc Hslots Hf [Hwa Hws]] [[Hwf Hhold] Hst].
  pose proof (accounts_sorted (HashedAccount d) Hacc) as Hs.
  assert (∀ x, x ∈ entries (HashedAccount d) → nibbles (account_path x) ∧ length (account_path x) = 64%nat) as Hpath
    by (intros x _; apply hash_path_ok).
  destruct (walk_all (TrieAccount d) [] ch Hwf account_path (entries (HashedAccount d)) Hpath Hs _ Hhold)
    as (c & c' & evs & Hnew & Hcov & Hc' & Hrun & Hleft).
  destruct (build_root account_path (full_account_rlp (HashedStorage d)) (entries (HashedAccount d)) Hpath Hs Hword Hwa evs Hcov)
    as (b & b' & Hadd & Hroot & Hcs).
  destruct (cover_visited _ _ _ _ _ Hcov) as [Hnd Hin].
  { apply entries_nodup. }
  assert (∀ a, a ∈ visited evs → is_Some (HashedAccount d !! a)) as Hvis.
  { intros a Ha. apply Hin, list_elem_of_fmap in Ha as ([a' acc] & -> & He). apply elem_of_entries in He. cbn. by rewrite He. }
  destruct (account_events (HashedStorage d) ch Hword Hf Hslots Hws Hch evs Hnd) with
    (loader := mkLoader (with_collected (Some []) new_builder) [] (TrieStorage d)) (hb' := b)
    as (new & t & Hev & Hent & Hframe & Hkeys & Hstores).
  { intros a Ha. by apply Hacc, Hvis. }
  { intros a Ha. by apply Hst, Hvis. }
  { done. }
  unfold calculate_root. rewrite Hnew, ok_bind. cbv zeta.
  rewrite (Hrun _ add_account_branch (add_account (HashedStorage d) ch)).
  2: { intros trie_key u s Hu Hl. f_equal. unfold walk_from. apply filter_ext_elem. intros [a acc] He%elem_of_entries. cbn [fst].
       apply seek_key_path; [done|lia|]. apply Hacc. by rewrite He. }
  rewrite Hev, !ok_bind. cbn [hb]. rewrite Hroot, ok_bind. eexists _, _, _, _. split; [reflexivity|].
  cbn [storage_nodes trie_storage app] in *. split_and!; [|done|].
  { apply Forall_forall. intros e [_ He]%list_elem_of_filter. pose proof (collected_entries [] b') as Hall.
    rewrite Forall_forall in Hall. by apply Hall. }
  intros [[Hst0 Hfull] Hready] ta ts Hta Hts. destruct (Hleft Hfull) as [Hover Hbehind]. split.
  - eapply (run_stores account_path); try done. destruct Hta as [H1 H2 H3]. split; cbn [app].
    + intros p v Hv. destruct (H1 p v Hv) as [[_ Hp]%list_elem_of_filter|?]; [left|by right].
      apply list_elem_of_fmap in Hp as ([k n] & [= -> ->] & Hp). by exists n.
    + intros [k n] Hc Hk. apply (H2 k (marshal_node n)). apply list_elem_of_filter. split; [done|].
      apply list_elem_of_fmap. by exists (k, n).
    + apply H3.
  - intros a Ha. destruct (Hready a Ha) as [Hsta Hfulla]. destruct (decide (a ∈ visited evs)) as [Hva|Hnva].
    + destruct (Hstores a Hva Hfulla) as (cs & H1 & H2 & H3). apply H3. destruct Hts as [P1 P2 P3]. split.
      * intros p v Hv. destruct (P1 _ _ Hv) as [Hp|?]; [left; by apply H1|by right].
      * intros c0 Hc0 _. apply (P2 _ (marshal_node c0.2)). by apply H2.
      * intros p. apply P3.
    + assert (contains (hash_path a) ch = false) as Hunch.
      { destruct Ha as [acc Ha]. pose proof Ha as He%elem_of_entries.
        destruct (cover_member _ _ _ _ _ _ Hcov He) as [Hleaf|(k & (h & b0 & Hk) & [r Hr])]; [by apply visited_leaf in Hleaf|].
        change (hash_path a) with (account_path (a, acc)). rewrite Hr. apply not_contains_more; [done|].
        by apply (to_unchanged _ _ _ _ Hover k h b0). }
      unfold storage_changes in Hsta. rewrite Hunch in Hsta.
      assert (∀ a', a' ∈ visited evs → ∀ k, to_be_bytes KECCAK_LENGTH a `prefix_of` k → ¬ to_be_bytes KECCAK_LENGTH a' `prefix_of` k) as Hapart.
      { intros a' Ha' k Hk Hk'. assert (a' = a) as ->; [|done]. apply (to_be_common a' a k); [by apply Hacc, Hvis|by apply Hacc|done|done]. }
      pose proof (fun ch' => unvisited_storage (HashedStorage d) a ch' (TrieStorage d) t new ts Hsta Hfulla) as Hun.
      assert (∀ p, t !! (to_be_bytes KECCAK_LENGTH a ++ p) = TrieStorage d !! (to_be_bytes KECCAK_LENGTH a ++ p)) as H1.
      { intros p. apply Hframe. intros a' Ha'. apply (Hapart a' Ha'). by exists p. }
      assert (∀ e, e ∈ new → ¬ to_be_bytes KECCAK_LENGTH a `prefix_of` e.1) as H2.
      { intros e He Hp. destruct (Hkeys e He) as (a' & Ha' & Hp'). by apply (Hapart a' Ha' e.1). }
      split; [intros ch'; by apply (Hun ch')|by apply (Hun [])].
Qed.
End roots.
