(* ===== verification/Interhashes.v ===== *)
(** * Interhashes

    [src/src/stages/interhashes.rs]: the stage that computes the state root,
    checks it against the header, and keeps the trie nodes; with what
    [increment_intermediate_hashes] and [regenerate_intermediate_hashes]
    return. *)

From stdpp Require Import sorting.
From S2P Require Import Prelude Words Errors Account Transaction Block BytesOrder StagedSync Etl TableCodecs Database Accessors BufferFlush Batch HashState.
From S2P Require Import TrieNode HashBuilder MerkleTrie BuilderFrames BuilderMasks BuilderRoot MerkleCover TrieCursor IntermediateHashes TrieWalk TrieVisit TrieRoot LoopItems StoredNodes StateRoot.

Definition INTERMEDIATE_HASHES : StageId := "IntermediateHashes".

Section stage.
Context {HH : Hashing} {HR : RlpStream}.
Implicit Types (d : Database).

Definition execute_interhashes (clean_promotion_threshold : Z) (input : StageInput) d : result (ExecOutput * Database) :=
  let genesis := 0 in
  max_block ← ok_or (Bail "Cannot be first stage") (snd <$> previous_stage input);
  let past_progress := default genesis (stage_progress input) in
  d ←
    (if past_progress <? max_block then
       hash ← ok_or (Bail "No canonical hash for block") (canonical_hash.read d max_block);
       h ← ok_or (Bail "No header for block") (header.read d hash max_block);
       let block_state_root := state_root h in
       clean ← should_do_clean_promotion d genesis past_progress max_block clean_promotion_threshold;
       '(trie_root, d) ←
         (if clean : bool then regenerate_intermediate_hashes (Some block_state_root) d
          else increment_intermediate_hashes past_progress (Some block_state_root) d);
       Ok d
     else Ok d);
  Ok (Progress (Z.max max_block past_progress) true, d).

Definition unwind_interhashes (input : UnwindInput) d : Z * Database :=
  (0, set_TrieStorage ∅ (set_TrieAccount ∅ d)).

Definition interhashes_stage {Mem} (clean_promotion_threshold : Z) : Stage Database Mem :=
  mkStage INTERMEDIATE_HASHES
    (fun input d mem => '(out, d) ← execute_interhashes clean_promotion_threshold input d; Ok (out, d, mem))
    (fun input d mem => Ok ((unwind_interhashes input d).1, (unwind_interhashes input d).2, mem)).

Definition new_interhashes {Mem} (clean_promotion_threshold : option Z) : Stage Database Mem :=
  interhashes_stage (default 1000000000000 clean_promotion_threshold).

(** ** The root that is computed and checked *)

(** The nodes that the collectors get fit into memory. *)
Definition nodes_fit (ch : PrefixSet) d : Prop :=
  ∀ root accounts storage d', calculate_root ch d = Ok (root, accounts, storage, d') →
    total_size accounts < 2 ^ 64 ∧ total_size storage < 2 ^ 64.

Definition nodes_fit_dec (ch : PrefixSet) d : bool :=
  match calculate_root ch d with
  | Ok (_, accounts, storage, _) => (total_size accounts <? 2 ^ 64) && (total_size storage <? 2 ^ 64)
  | _ => true
  end.

Lemma nodes_fit_check ch d : nodes_fit_dec ch d = true → nodes_fit ch d.
Proof. unfold nodes_fit_dec. intros H root accounts storage d' Hc. rewrite Hc in H. zbool. lia. Qed.

Lemma put_all_inserts (l : list Entry) : ∀ t, put_all l t (foldl (fun t e => <[e.1 := e.2]> t) t l).
Proof.
  induction l as [|[k0 v0] l IH]; intros t; cbn [foldl fst snd].
  { split; [by right|by intros k v ?%elem_of_nil|done]. }
  destruct (IH (<[k0 := v0]> t)) as [H1 H2 H3]. split.
  - intros k v Hv. destruct (H1 k v Hv) as [?|Hi]; [left; by right|]. destruct (decide (k0 = k)) as [->|Hne].
    + rewrite lookup_insert_eq in Hi. injection Hi as ->. left. left.
    + rewrite lookup_insert_ne in Hi by done. by right.
  - intros k v [[= -> ->]|Hin]%elem_of_cons; [|by eapply H2]. apply H3. rewrite lookup_insert_eq. eauto.
  - intros k Hk. apply H3. destruct (decide (k0 = k)) as [->|Hne]; [rewrite lookup_insert_eq; eauto|by rewrite lookup_insert_ne].
Qed.

Lemma load_nodes l t : Forall node_entry l → total_size l < 2 ^ 64 →
  ∃ t', load put_bytes (push_all l (new_collector OPTIMAL_BUFFER_CAPACITY)) t = Ok t' ∧ put_all l t t'.
Proof.
  intros Hl Hsum.
  destruct (load_entries (fun e : Entry => e) put_bytes (fun t e => <[e.1 := e.2]> t) OPTIMAL_BUFFER_CAPACITY l t)
    as (l' & Hperm & Hload); [done| |by rewrite list_fmap_id|].
  - intros e He. rewrite Forall_forall in Hl. destruct (Hl e He) as (k & n & ->). unfold entry_size. cbn [fst snd].
    unfold marshal_node. rewrite !length_app, length_to_be_bytes. lia.
  - rewrite list_fmap_id in Hload. eexists. split; [exact Hload|]. destruct (put_all_inserts l' t) as [H1 H2 H3].
    split; [intros k v; rewrite <- Hperm; apply H1|intros k v; rewrite <- Hperm; apply H2|done].
Qed.

Lemma do_increment_ok expected ch d (Hword : ∀ x, is_u256 (keccak256 x)) (Hch : StronglySorted bytes_lt ch) :
  hashed_wf d → tries_hold ch d → nodes_fit ch d →
  if match expected with Some r => negb (r =? hashed_root d) | None => false end
  then do_increment_intermediate_hashes expected ch d = Err (Bail "Wrong state root")
  else ∃ t t', do_increment_intermediate_hashes expected ch d
                 = Ok (hashed_root d, set_TrieStorage t' (set_TrieAccount t d))
               ∧ (tries_ready ch d → tries_stored d t t').
Proof.
  intros Hwf Hst Hfit. destruct (calculate_root_ok ch d Hword Hch Hwf Hst) as (accounts & storage & t & t' & Hroot & Ha & Hs & Hkeep).
  destruct (Hfit _ _ _ _ Hroot) as [Hfa Hfs]. unfold do_increment_intermediate_hashes. rewrite Hroot, ok_bind.
  destruct (match expected with Some r => negb (r =? hashed_root d) | None => false end); [done|].
  destruct (load_nodes accounts t Ha Hfa) as (ta & Hta & Hpa), (load_nodes storage t' Hs Hfs) as (ts & Hts & Hps).
  exists ta, ts. change (TrieAccount (set_TrieStorage t' (set_TrieAccount t d))) with t. rewrite Hta, ok_bind. cbv zeta.
  match goal with |- context [TrieStorage ?x] => change (TrieStorage x) with t' end. rewrite Hts, ok_bind.
  split; [done|]. intros Hready. by apply Hkeep.
Qed.

Lemma gather_changes_sorted from d : StronglySorted bytes_lt (gather_changes from d).
Proof.
  unfold gather_changes. cbv zeta. set (l1 := filter _ (AccountChangeSet d)). set (l2 := filter _ (StorageChangeSet d)).
  assert (∀ {B} (f : B → bytes) (l : list B) ps, StronglySorted bytes_lt ps → StronglySorted bytes_lt (foldl (fun out e => insert (f e) out) ps l)) as H.
  { intros B f l. induction l as [|x l IH]; intros ps Hps; [done|]. by apply IH, insert_sorted. }
  apply (H _ (fun e => hashed_storage_key e.1.2 e.2.1)), (H _ (fun e => hash_path (hash_address e.2.1))). constructor.
Qed.

Lemma empty_stored pre ch items : stored_hold ∅ pre ch items.
Proof.
  assert (∀ p n, ¬ node_at ∅ pre p n) as Hn by (intros p n (v & Hv & _); by rewrite lookup_empty in Hv).
  split; split.
  - intros p v Hv. by rewrite lookup_empty in Hv.
  - intros p [v Hv]. by rewrite lookup_empty in Hv.
  - intros p n x H. by apply Hn in H.
  - intros p n H. by apply Hn in H.
  - intros p n x h H. by apply Hn in H.
  - intros n h H. by apply Hn in H.
Qed.

Definition without_nodes d : Database := set_TrieStorage ∅ (set_TrieAccount ∅ d).

Lemma without_nodes_hold ch d : tries_hold ch (without_nodes d).
Proof. split; [apply empty_stored|intros a _; apply empty_stored]. Qed.

Lemma empty_full pre : trie_full ∅ pre.
Proof.
  split.
  - intros p n d q (v & Hv & _). by rewrite lookup_empty in Hv.
  - intros p d e q r _ _ [v Hv]. by rewrite lookup_empty in Hv.
Qed.

Lemma without_nodes_ready ch d : tries_ready ch (without_nodes d).
Proof. split; [|intros a _]; (split; [apply empty_stored|apply empty_full]). Qed.

Lemma without_nodes_wf d : hashed_wf d → hashed_wf (without_nodes d).
Proof. intros [? ? ? ?]. by split. Qed.

(** What the stage needs of the nodes: nothing when it makes them anew, and
    otherwise that those hold that are not on the way to a change. *)
Definition nodes_ready (clean : bool) (past : Z) d : Prop :=
  if clean then nodes_fit new_prefix_set (without_nodes d)
  else tries_hold (gather_changes past d) d ∧ nodes_fit (gather_changes past d) d.

(** And for these to be kept. *)
Definition nodes_kept (clean : bool) (past : Z) d : Prop :=
  if clean then True else tries_ready (gather_changes past d) d.

Lemma run_root d past clean r (Hword : ∀ x, is_u256 (keccak256 x)) (Hwf : hashed_wf d) (Hready : nodes_ready clean past d) :
  if r =? hashed_root d
  then ∃ t t', (if clean then regenerate_intermediate_hashes (Some r) d else increment_intermediate_hashes past (Some r) d)
                 = Ok (hashed_root d, set_TrieStorage t' (set_TrieAccount t d))
               ∧ (nodes_kept clean past d → tries_stored d t t')
  else (if clean then regenerate_intermediate_hashes (Some r) d else increment_intermediate_hashes past (Some r) d)
       = Err (Bail "Wrong state root").
Proof.
  destruct clean.
  - pose proof (do_increment_ok (Some r) new_prefix_set (without_nodes d) Hword ltac:(constructor)
      (without_nodes_wf d Hwf) (without_nodes_hold _ d) Hready) as H.
    change (hashed_root (without_nodes d)) with (hashed_root d) in H.
    cbv iota beta in H. revert H. destruct (r =? hashed_root d); cbn [negb]; intros H; [|exact H].
    destruct H as (t & t' & H & Hkeep). exists t, t'. split; [exact H|]. intros _.
    destruct (Hkeep (without_nodes_ready _ d)) as [Ha Hs]. by split.
  - destruct Hready as [Hst Hfit].
    pose proof (do_increment_ok (Some r) _ d Hword (gather_changes_sorted past d) Hwf Hst Hfit) as H.
    cbv iota beta in H. revert H. by destruct (r =? hashed_root d).
Qed.

(** C6. The stage checks the state root: for stored nodes of which those off
    the way to a changed key hold, whichever these are, the root that it
    computes from them and the leaves between them is that of the
    Merkle-Patricia tree of all hashed accounts, each with the root of the
    tree of all its hashed slots; so it goes on to the block exactly when
    that is the root in the header, and fails otherwise. It leaves
    everything but the nodes as it is. *)
Theorem interhashes_checks_root threshold input d i last hash h clean
  (Hword : ∀ x, is_u256 (keccak256 x)) (Hwf : hashed_wf d)
  (Hprev : previous_stage input = Some (i, last)) (Hlt : default 0 (stage_progress input) < last)
  (Hhash : canonical_hash.read d last = Some hash) (Hheader : header.read d hash last = Some h)
  (Hclean : should_do_clean_promotion d 0 (default 0 (stage_progress input)) last threshold = Ok clean)
  (Hready : nodes_ready clean (default 0 (stage_progress input)) d) :
  if state_root h =? hashed_root d
  then ∃ t t', execute_interhashes threshold input d
                 = Ok (Progress last true, set_TrieStorage t' (set_TrieAccount t d))
  else execute_interhashes threshold input d = Err (Bail "Wrong state root").
Proof.
  unfold execute_interhashes. rewrite Hprev. cbn [fmap option_fmap option_map snd ok_or]. rewrite ok_bind.
  cbv zeta. set (past := default 0 (stage_progress input)) in *.
  rewrite (proj2 (Z.ltb_lt _ _)), Hhash by done. cbn [ok_or]. rewrite ok_bind, Hheader. cbn [ok_or]. rewrite ok_bind.
  rewrite Hclean, ok_bind. replace (Z.max last past) with last by lia.
  pose proof (run_root d past clean (state_root h) Hword Hwf Hready) as Hrun.
  destruct (state_root h =? hashed_root d).
  - destruct Hrun as (t & t' & -> & _). rewrite !ok_bind. by exists t, t'.
  - by rewrite Hrun.
Qed.


End stage.

(** *** Nodes of an account that was destroyed

    With a hash that keeps keys of up to 32 bytes as they are. *)

Definition tree_hashing : Hashing := {|
  keccak256 l :=
    wrap 256 (if (length l <=? 32)%nat then from_be_bytes l else foldl (fun h b => h * 257 + b + 1) 1 l);
  ommers_rlp_hash _ := 0;
  transactions_trie_root _ := 0;
  receipts_trie_root _ := 0;
  ecdsa_recover _ := Ok 0;
  trie_root _ := 0;
  rlp_bytes l := l;
  rlp_account nonce balance storage_root code_hash :=
    to_be_bytes 8 nonce ++ to_be_bytes 32 balance ++ to_be_bytes 32 storage_root ++ to_be_bytes 32 code_hash
|}.

(** A location whose hash starts with two digits. *)
Definition location (d e : Z) : Z := (d * 16 + e) * 2 ^ 248.

(** An account with three slots, two of which share their first digit. *)
Definition deployed : Database :=
  set_HashedStorage {[(5, (location 1 0, 7)); (5, (location 1 1, 8)); (5, (location 2 0, 9))]}
    (set_HashedAccount {[5 := mkAccount 1 0 77; 6 := mkAccount 3 1000 EMPTY_HASH]} empty_database).

(** Block 2: it is destroyed. *)
Definition destroyed d : Database :=
  set_AccountChangeSet [(2, (5, Some (mkAccount 1 0 77)))]
    (set_StorageChangeSet [((2, 5), (location 1 0, 7)); ((2, 5), (location 1 1, 8)); ((2, 5), (location 2 0, 9))]
      (set_HashedStorage ∅ (set_HashedAccount {[6 := mkAccount 3 1000 EMPTY_HASH]} d))).

(** Block 3: it is created again, with one slot. *)
Definition recreated d : Database :=
  set_AccountChangeSet (AccountChangeSet d ++ [(3, (5, None))])
    (set_StorageChangeSet (StorageChangeSet d ++ [((3, 5), (location 2 0, 0))])
      (set_HashedStorage {[(5, (location 2 0, 4))]}
        (set_HashedAccount {[5 := mkAccount 1 0 78; 6 := mkAccount 3 1000 EMPTY_HASH]} d))).

Definition database_of (out : result (Z * Database)) : Database :=
  match out with Ok (_, d) => d | _ => empty_database end.


Definition rooted_header : BlockHeader :=
  mkHeader 0 0 0 (hashed_root (HH := tree_hashing) (HR := demo_rlp) deployed) 0 0 0 0 1 0 0 0 [] 0 0 None.

Definition rooted_database : Database :=
  set_TotalGas (<[0 := 0]> {[1 := 21000]})
    (set_CanonicalHeader {[1 := 11]}
      (mkDatabase ∅ ∅ {[(1, 11) := rooted_header]} ∅ ∅ ∅ ∅ ∅ ∅ ∅ ∅ ∅ [] [] [] [] [] []
        (HashedAccount deployed) (HashedStorage deployed) ∅ ∅ ∅ [] [] ∅ None)).

Definition rooted_input : StageInput := mkStageInput false None (Some (HASH_STATE, 1)) None.

Lemma rooted_words x : is_u256 (keccak256 (Hashing := tree_hashing) x).
Proof. apply wrap_word. lia. Qed.

Lemma demo_wide {HH : Hashing} items : wide (H0 := demo_rlp) items.
Proof. intros p _. unfold branch_rlp. cbn [rlp_list demo_rlp]. rewrite length_app, length_replicate. lia. Qed.

Lemma deployed_wf d : HashedAccount d = HashedAccount deployed → HashedStorage d = HashedStorage deployed →
  hashed_wf (HH := tree_hashing) (HR := demo_rlp) d.
Proof.
  intros Ha Hs. split.
  - intros a. rewrite Ha. intros [acc H]. apply small_fits; [vm_compute; lia|]. revert a acc H.
    apply (bool_decide_unpack (map_Forall (fun a _ => 0 ≤ a < 256) (HashedAccount deployed))). by vm_compute.
  - intros a l v H. rewrite Hs in H.
    assert (set_Forall (fun e => 0 ≤ e.2.1 < 2 ^ 256) (HashedStorage deployed)) as Hall by (apply (bool_decide_unpack _); by vm_compute).
    exact (Hall _ H).
  - intros a l v v' H H'. rewrite Hs in H, H'.
    assert (set_Forall (fun e => set_Forall (fun e' => e'.1 = e.1 → e'.2.1 = e.2.1 → e'.2.2 = e.2.2) (HashedStorage deployed)) (HashedStorage deployed))
      as Hall by (apply (bool_decide_unpack _); by vm_compute).
    symmetry. by apply (Hall _ H _ H').
  - split; [|intros a]; apply demo_wide.
Qed.

Lemma interhashes_checks_root_witness :
  ∃ t t', execute_interhashes (HH := tree_hashing) (HR := demo_rlp) 1000 rooted_input rooted_database
    = Ok (Progress 1 true, set_TrieStorage t' (set_TrieAccount t rooted_database)).
Proof.
  pose proof (interhashes_checks_root (HH := tree_hashing) (HR := demo_rlp) 1000 rooted_input rooted_database
    HASH_STATE 1 11 rooted_header true rooted_words) as H.
  assert (state_root rooted_header =? hashed_root (HH := tree_hashing) (HR := demo_rlp) rooted_database = true) as E
    by apply Z.eqb_refl.
  rewrite E in H. apply H; [by apply deployed_wf|done|by cbn|done|done|by vm_compute|].
  apply nodes_fit_check. by vm_compute.
Defined.

Lemma rooted_fit : nodes_fit (HH := tree_hashing) (HR := demo_rlp) new_prefix_set (without_nodes rooted_database).
Proof. apply nodes_fit_check. by vm_compute. Qed.

