(* ===== verification/TrieChanges.v ===== *)
(** * TrieChanges

    Between two runs of the stage [Interhashes]: when the changes of the
    hashed tables are recorded in the change sets, the stored nodes off the
    way to what [gather_changes] collects still hold. *)

From stdpp Require Import sorting.
From S2P Require Import Prelude Words Errors Account Transaction Block BytesOrder StagedSync Etl TableCodecs Database Accessors BufferFlush Batch HashState.
From S2P Require Import TrieNode HashBuilder MerkleTrie BuilderFrames BuilderMasks BuilderRoot MerkleCover TrieCursor IntermediateHashes TrieWalk TrieVisit TrieRoot LoopItems StoredNodes StateRoot Interhashes.

(** Lists in a strict order are determined by their elements. *)
Lemma sorted_elements {A} (R : A → A → Prop) (l l' : list A) :
  (∀ x, ¬ R x x) → (∀ x y z, R x y → R y z → R x z) → StronglySorted R l → StronglySorted R l' →
  (∀ x, x ∈ l ↔ x ∈ l') → l = l'.
Proof.
  intros Hirr Htrans Hl. revert l'. induction Hl as [|x l Hl IH Hx]; intros l' Hl' Heq.
  { destruct l' as [|y l']; [done|]. pose proof (proj2 (Heq y) (list_elem_of_here _ _)) as Hin. by apply elem_of_nil in Hin. }
  destruct Hl' as [|y l' Hl' Hy]; [pose proof (proj1 (Heq x) (list_elem_of_here _ _)) as Hin; by apply elem_of_nil in Hin|].
  rewrite Forall_forall in Hx, Hy.
  assert (x = y) as ->.
  { pose proof (proj1 (Heq x) (list_elem_of_here _ _)) as Hin. apply elem_of_cons in Hin as [?|Hin]; [done|].
    pose proof (proj2 (Heq y) (list_elem_of_here _ _)) as Hin'. apply elem_of_cons in Hin' as [?|Hin']; [done|].
    destruct (Hirr x). exact (Htrans x y x (Hx y Hin') (Hy x Hin)). }
  f_equal. apply IH; [done|]. intros z. split; intros Hz.
  - pose proof (proj1 (Heq z) (list_elem_of_further _ _ _ Hz)) as Hin. apply elem_of_cons in Hin as [->|?]; [|done].
    by destruct (Hirr y (Hx y Hz)).
  - pose proof (proj2 (Heq z) (list_elem_of_further _ _ _ Hz)) as Hin. apply elem_of_cons in Hin as [->|?]; [|done].
    by destruct (Hirr y (Hy y Hz)).
Qed.

Lemma prepend_inj q l l' : prepend q l = prepend q l' → l = l'.
Proof. intros E. apply (f_equal (sub q)) in E. by rewrite !sub_prepend in E. Qed.

(** The subtree under a path is that of the leaves under it. *)
Lemma sub_leaf_items {A} (path leaf leaf' : A → bytes) L L' k :
  StronglySorted (path_lt path) L → StronglySorted (path_lt path) L' →
  (∀ x, k `prefix_of` path x → x ∈ L ↔ x ∈ L') →
  (∀ x, k `prefix_of` path x → x ∈ L → leaf x = leaf' x) →
  sub k (leaf_items path leaf L) = sub k (leaf_items path leaf' L').
Proof.
  intros Hs Hs' Heq Hleaf. apply (prepend_inj k). rewrite <- !segment_items.
  assert (filter (fun x => k `prefix_of` path x) L = filter (fun x => k `prefix_of` path x) L') as <-.
  { apply (sorted_elements (path_lt path)).
    - intros x. apply bytes_lt_irrefl.
    - intros x y z. apply bytes_lt_trans.
    - by apply StronglySorted_filter'.
    - by apply StronglySorted_filter'.
    - intros x. rewrite !list_elem_of_filter. split; intros [Hk Hx]; (split; [done|]); by apply (Heq x Hk). }
  apply list_fmap_ext. intros i x Hx%list_elem_of_lookup_2. apply list_elem_of_filter in Hx as [Hk Hx].
  unfold leaf_item. by rewrite (Hleaf x Hk Hx).
Qed.

Section changes.
Context {HH : Hashing} {HR : RlpStream}.
Implicit Types (d : Database).

(** What the change sets hold behind a block. *)
Definition account_recorded (past : Z) d (a : Z) : Prop :=
  ∃ n address acc, (n, (address, acc)) ∈ AccountChangeSet d ∧ u64_add past 1 ≤ n ∧ a = hash_address address.

Definition slot_recorded (past : Z) d (a l : Z) : Prop :=
  ∃ n address location v, ((n, address), (location, v)) ∈ StorageChangeSet d ∧ u64_add past 1 ≤ n
    ∧ a = hash_address address ∧ l = hash_location location.

(** The hashed tables of [d'] differ from those of [d] where the change
    sets say so, a slot together with its account, and the nodes are the
    same; an account that is new has no stored nodes of storage. *)
Record recorded (past : Z) d d' : Prop := {
  rc_nodes : TrieAccount d' = TrieAccount d ∧ TrieStorage d' = TrieStorage d;
  rc_account a : ¬ account_recorded past d' a →
    HashedAccount d' !! a = HashedAccount d !! a ∧ ∀ e, (a, e) ∈ HashedStorage d' ↔ (a, e) ∈ HashedStorage d;
  rc_slot a l v : ¬ slot_recorded past d' a l → (a, (l, v)) ∈ HashedStorage d' ↔ (a, (l, v)) ∈ HashedStorage d;
  rc_created a : is_Some (HashedAccount d' !! a) →
    is_Some (HashedAccount d !! a) ∨ ∀ p, TrieStorage d !! (to_be_bytes KECCAK_LENGTH a ++ p) = None
}.

Lemma elem_of_foldl_insert {B} (f : B → bytes) (l : list B) ps k :
  k ∈ foldl (fun out e => insert (f e) out) ps l ↔ (∃ e, e ∈ l ∧ k = f e) ∨ k ∈ ps.
Proof.
  revert ps. induction l as [|x l IH]; intros ps; cbn [foldl].
  - split; [by right|]. intros [(e & Hin & _)|?]; [by apply elem_of_nil in Hin|done].
  - rewrite IH, elem_of_insert. setoid_rewrite elem_of_cons. naive_solver.
Qed.

Lemma elem_of_gather past d k : k ∈ gather_changes past d ↔
  (∃ e, e ∈ StorageChangeSet d ∧ u64_add past 1 ≤ e.1.1 ∧ k = hashed_storage_key e.1.2 e.2.1)
  ∨ ∃ e, e ∈ AccountChangeSet d ∧ u64_add past 1 ≤ e.1 ∧ k = hash_path (hash_address e.2.1).
Proof.
  unfold gather_changes. cbv zeta.
  rewrite (elem_of_foldl_insert (fun e => hashed_storage_key e.1.2 e.2.1)), (elem_of_foldl_insert (fun e => hash_path (hash_address e.2.1))).
  setoid_rewrite list_elem_of_filter. unfold new_prefix_set. rewrite elem_of_nil. naive_solver.
Qed.

Lemma gathered past d k q : contains k (gather_changes past d) = false → k `prefix_of` q → q ∉ gather_changes past d.
Proof.
  intros Hk Hq Hin. assert (contains k (gather_changes past d) = true) as H; [|congruence].
  apply contains_sorted; [apply gather_changes_sorted|]. apply Exists_exists. by exists q.
Qed.

Lemma unchanged_account past d k a : contains k (gather_changes past d) = false → k `prefix_of` hash_path a → ¬ account_recorded past d a.
Proof.
  intros Hk Hp (n & address & acc & Hin & Hn & ->). apply (gathered past d k _ Hk Hp), elem_of_gather. right.
  by exists (n, (address, acc)).
Qed.

Lemma unchanged_slot past d k a l : contains (to_be_bytes KECCAK_LENGTH a ++ k) (gather_changes past d) = false →
  k `prefix_of` hash_path l → ¬ slot_recorded past d a l.
Proof.
  intros Hk Hp (n & address & location & v & Hin & Hn & -> & ->).
  apply (gathered past d _ (hashed_storage_key address location) Hk); [by apply prefix_app|].
  apply elem_of_gather. left. by exists ((n, address), (location, v)).
Qed.

Context (past : Z) (d d' : Database) (Hwf : hashed_wf d) (Hwf' : hashed_wf d') (Hrec : recorded past d d').

Lemma same_slots a k : (∀ l v, k `prefix_of` hash_path l → (a, (l, v)) ∈ HashedStorage d' ↔ (a, (l, v)) ∈ HashedStorage d) →
  sub k (storage_items (HashedStorage d') a) = sub k (storage_items (HashedStorage d) a).
Proof.
  intros Heq. destruct Hwf as [_ Hs Hf _], Hwf' as [_ Hs' Hf' _]. apply sub_leaf_items; [apply slots_sorted; eauto|apply slots_sorted; eauto| |done].
  intros [a' [l v]] Hk. rewrite !elem_of_walk_slots. cbn [fst]. split; intros [-> Hin]; (split; [done|]); by apply (Heq l v Hk).
Qed.

Lemma same_accounts k : contains k (gather_changes past d') = false → sub k (account_items d') = sub k (account_items d).
Proof.
  intros Hk. destruct Hwf as [Ha _ _ _], Hwf' as [Ha' _ _ _].
  assert (∀ x : Z * Account, k `prefix_of` account_path x → ¬ account_recorded past d' x.1) as Hun.
  { intros x. by apply unchanged_account. }
  apply sub_leaf_items; [by apply accounts_sorted|by apply accounts_sorted|..].
  - intros [a acc] Hp. rewrite !elem_of_entries. by destruct (rc_account _ _ _ Hrec a (Hun _ Hp)) as [-> _].
  - intros [a acc] Hp _. unfold full_account_rlp, storage_root_of. cbn [fst snd].
    pose proof (same_slots a [] (fun l v _ => proj2 (rc_account _ _ _ Hrec a (Hun (a, acc) Hp)) (l, v))) as E.
    unfold sub in E. cbn [foldl] in E. by rewrite E.
Qed.

Lemma stored_after (t : ByteTable) pre ch items items' :
  stored_full t pre items → (∀ k, contains (pre ++ k) ch = false → sub k items' = sub k items) → stored_hold t pre ch items'.
Proof.
  intros [Hst _] Heq. destruct (Hst new_prefix_set) as [Hw [H1 H2]]. split; [done|]. unfold holds_for in *. split.
  - intros p n x h Hn Hx Hh Hc. rewrite Heq by done. by apply (H1 p n x h).
  - intros n h Hn Hh Hc. rewrite Heq by done. by apply (H2 n h).
Qed.

(** C8. The stored nodes are ready for the next run: when those of
    the last one all hold for the hashed tables as they were then, and these
    have changed since only where the change sets of the later blocks say
    so, all nodes off the way to the keys that [gather_changes] collects
    hold for the tables as they are now, whether they belong to the
    accounts, to the storage of one that has changed, or to that of one
    that has not. The exception are accounts that were destroyed and have
    come back. *)
Theorem stored_nodes_ready (Hstored : tries_stored d (TrieAccount d) (TrieStorage d)) :
  tries_ready (gather_changes past d') d'.
Proof.
  destruct Hstored as [Ha Hs]. destruct (rc_nodes _ _ _ Hrec) as [Hta Hts]. split; rewrite ?Hta.
  - split; [|apply Ha]. eapply stored_after; [exact Ha|]. intros k. apply same_accounts.
  - intros a Hacc. rewrite Hts. destruct (rc_created _ _ _ Hrec a Hacc) as [Hold|Hnone].
    + destruct (Hs a Hold) as [Hst Hfull]. split; [|done]. eapply stored_after; [by apply Hs|]. intros k Hk.
      apply same_slots. unfold storage_changes in Hk. destruct (contains (hash_path a) _) eqn:Hc.
      * intros l v Hp. apply (rc_slot _ _ _ Hrec). by eapply unchanged_slot.
      * intros l v _. apply (rc_account _ _ _ Hrec a). by eapply unchanged_account.
    + split.
      * eapply (stored_hold_ext ∅); [|apply empty_stored]. intros p. by rewrite Hnone.
      * eapply (trie_full_ext ∅); [|apply empty_full]. intros p. by rewrite Hnone.
Qed.

End changes.

(** The database of the stage behind its first run, and a transfer in
    block 2. *)
Definition paid d : Database :=
  set_AccountChangeSet [(2, (6, Some (mkAccount 3 1000 EMPTY_HASH)))]
    (set_HashedAccount (<[6 := mkAccount 4 900 EMPTY_HASH]> (HashedAccount d)) d).

Lemma stored_nodes_ready_witness :
  ∃ t t', let d := set_TrieStorage t' (set_TrieAccount t rooted_database) in
    tries_ready (HH := tree_hashing) (HR := demo_rlp) (gather_changes (HH := tree_hashing) 1 (paid d)) (paid d).
Proof.
  pose proof (run_root (HH := tree_hashing) (HR := demo_rlp) rooted_database 0 true (state_root rooted_header)
    rooted_words (deployed_wf rooted_database eq_refl eq_refl) rooted_fit) as H.
  assert (state_root rooted_header =? hashed_root (HH := tree_hashing) (HR := demo_rlp) rooted_database = true) as E
    by apply Z.eqb_refl.
  rewrite E in H. destruct H as (t & t' & _ & Hstored). exists t, t'. intros d.
  assert (hashed_wf (HH := tree_hashing) (HR := demo_rlp) d) as Hwf by by apply deployed_wf.
  assert (tries_stored (HH := tree_hashing) (HR := demo_rlp) d (TrieAccount d) (TrieStorage d)) as Hd
    by (destruct (Hstored I) as [H1 H2]; by split).
  assert (is_Some (HashedAccount d !! 6)) as H6 by by eexists.
  clearbody d. clear E Hstored t t'.
  apply (stored_nodes_ready (HH := tree_hashing) (HR := demo_rlp) 1 d (paid d)); [done| | |done].
  - destruct Hwf as [Ha Hs Hf _]. split; [|done|done|].
    + intros a [acc Hacc]. change (<[6 := mkAccount 4 900 EMPTY_HASH]> (HashedAccount d) !! a = Some acc) in Hacc.
      apply lookup_insert_Some in Hacc as [[<- _]|[_ Hacc]]; [apply small_fits; [vm_compute; lia|lia]|]. apply Ha. by exists acc.
    + split; [|intros a]; apply (demo_wide (HH := tree_hashing)).
  - split; [done| |done|].
    + intros a Hno. split; [|done]. change (<[6 := mkAccount 4 900 EMPTY_HASH]> (HashedAccount d) !! a = HashedAccount d !! a).
      apply lookup_insert_ne. intros <-. apply Hno. exists 2, 6, (Some (mkAccount 3 1000 EMPTY_HASH)).
      split_and!; [by left|by vm_compute|by vm_compute].
    + intros a [acc Hacc]. left. change (<[6 := mkAccount 4 900 EMPTY_HASH]> (HashedAccount d) !! a = Some acc) in Hacc.
      apply lookup_insert_Some in Hacc as [[<- _]|[_ Hacc]]; [done|by exists acc].
Defined.
