(* ===== verification/HeaderSlices.v ===== *)
(** * HeaderSlices

    [src/src/downloader/headers_downloader/headers]: headers with their
    cached hash ([header.rs]), and the window of slices that the header
    downloader works on ([header_slices.rs]). A slice behind its lock is
    its index in the window; the watch channels, over which the counters are
    published, are left out. *)

From S2P Require Import Prelude Words Errors Transaction Block Rlp TransactionRlp BlockRlp.

(** ** Headers with their hash *)

Record CachedHeader : Type := mkCachedHeader {
  header : BlockHeader;
  rlp_repr_cached : option bytes;
  hash_cached : option Z
}.

Section cached.
Context {R : Rlp} {H : Hashing}.

(** [BlockHeader::new] and [From<BaseBlockHeader>]. *)
Definition known_header (header : BlockHeader) (known_hash : Z) : CachedHeader :=
  mkCachedHeader header None (Some known_hash).

Definition cached_of (header : BlockHeader) : CachedHeader := mkCachedHeader header None None.

Definition rlp_repr_compute (h : CachedHeader) : bytes := header_rlp (header h).

Definition rlp_repr_prepare (h : CachedHeader) : CachedHeader :=
  mkCachedHeader (header h) (Some (rlp_repr_compute h)) (hash_cached h).

Definition rlp_repr (h : CachedHeader) : bytes := default (rlp_repr_compute h) (rlp_repr_cached h).

Definition hash_prepare (h : CachedHeader) : CachedHeader :=
  let h := match rlp_repr_cached h with None => rlp_repr_prepare h | Some _ => h end in
  mkCachedHeader (header h) (rlp_repr_cached h) (Some (keccak256 (rlp_repr h))).

Definition hash (h : CachedHeader) : Z := default (keccak256 (rlp_repr h)) (hash_cached h).

(** What is cached is what would be computed. *)
Definition cached_ok (h : CachedHeader) : Prop :=
  rlp_repr h = header_rlp (header h) ∧ hash h = header_hash (header h).

Lemma cached_of_ok h : cached_ok (cached_of h).
Proof. by split. Qed.

Lemma known_header_ok h : cached_ok (known_header h (header_hash h)).
Proof. by split. Qed.

Lemma hash_prepare_ok h : cached_ok h → cached_ok (hash_prepare h) ∧ header (hash_prepare h) = header h.
Proof.
  intros [Hr Hh]. unfold hash_prepare. destruct (rlp_repr_cached h) as [r|] eqn:E; (split; [split|done]).
  - unfold rlp_repr in *. cbn. by rewrite E in *.
  - unfold hash, header_hash. cbn. by rewrite Hr.
  - done.
  - done.
Qed.

End cached.

(** ** Slices *)

Module Status.
(** [HeaderSliceStatus]. *)
Inductive t : Type :=
| Empty
| Waiting
| Downloaded
| VerifiedInternally
| Verified
| Invalid
| Fork
| Saved.

#[global] Instance t_eq_dec : EqDecision t.
Proof. solve_decision. Defined.

Definition to_char (status : t) : string :=
  match status with
  | Empty => "-" | Waiting => "<" | Downloaded => "." | VerifiedInternally => "="
  | Verified => "#" | Invalid => "x" | Fork => "Y" | Saved => "+"
  end.

Definition of_char (status_code : string) : result t :=
  if decide (status_code = "-") then Ok Empty
  else if decide (status_code = "<") then Ok Waiting
  else if decide (status_code = ".") then Ok Downloaded
  else if decide (status_code = "=") then Ok VerifiedInternally
  else if decide (status_code = "#") then Ok Verified
  else if decide (status_code = "x") then Ok Invalid
  else if decide (status_code = "Y") then Ok Fork
  else if decide (status_code = "+") then Ok Saved
  else Err (Bail "unrecognized status code").

Lemma char_roundtrip status : of_char (to_char status) = Ok status.
Proof. by destruct status. Qed.
End Status.

Record HeaderSlice : Type := mkHeaderSlice {
  start_block_num : Z;
  status : Status.t;
  headers : option (list CachedHeader);
  from_peer_id : option Z;
  request_time : option Z;
  request_attempt : Z;
  refetch_attempt : Z
}.

Definition default_slice : HeaderSlice := mkHeaderSlice 0 Status.Empty None None None 0 0.

Definition with_start (n : Z) (s : HeaderSlice) : HeaderSlice :=
  mkHeaderSlice n (status s) (headers s) (from_peer_id s) (request_time s) (request_attempt s) (refetch_attempt s).
Definition with_status (st : Status.t) (s : HeaderSlice) : HeaderSlice :=
  mkHeaderSlice (start_block_num s) st (headers s) (from_peer_id s) (request_time s) (request_attempt s) (refetch_attempt s).
Definition with_headers (hs : option (list CachedHeader)) (s : HeaderSlice) : HeaderSlice :=
  mkHeaderSlice (start_block_num s) (status s) hs (from_peer_id s) (request_time s) (request_attempt s) (refetch_attempt s).
Definition with_peer (p : option Z) (s : HeaderSlice) : HeaderSlice :=
  mkHeaderSlice (start_block_num s) (status s) (headers s) p (request_time s) (request_attempt s) (refetch_attempt s).
Definition with_request (time : option Z) (attempt : Z) (s : HeaderSlice) : HeaderSlice :=
  mkHeaderSlice (start_block_num s) (status s) (headers s) (from_peer_id s) time attempt (refetch_attempt s).

Definition slice_len (s : HeaderSlice) : nat := from_option length 0%nat (headers s).

(** [block_num_range().contains(&block_num)]. *)
Definition block_num_in_range (block_num : Z) (s : HeaderSlice) : bool :=
  (start_block_num s <=? block_num) && (block_num <? u64_add (start_block_num s) (Z.of_nat (slice_len s))).

Definition HEADER_SLICE_SIZE : nat := 192.

Definition slice_size : Z := Z.of_nat HEADER_SLICE_SIZE.

Definition align_block_num_to_slice_start (num : Z) : Z := num / slice_size * slice_size.

Definition is_block_num_aligned_to_slice_start (num : Z) : bool := num mod slice_size =? 0.

(** ** The window *)

(** [counts]: the counters of the status watches. *)
Record HeaderSlices : Type := mkHeaderSlices {
  slices : list HeaderSlice;
  max_slices : nat;
  max_block_num : Z;
  final_block_num : Z;
  counts : Status.t → Z
}.

Definition with_slices (l : list HeaderSlice) (w : HeaderSlices) : HeaderSlices :=
  mkHeaderSlices l (max_slices w) (max_block_num w) (final_block_num w) (counts w).
Definition with_max_block_num (n : Z) (w : HeaderSlices) : HeaderSlices :=
  mkHeaderSlices (slices w) (max_slices w) n (final_block_num w) (counts w).
Definition with_counts (c : Status.t → Z) (w : HeaderSlices) : HeaderSlices :=
  mkHeaderSlices (slices w) (max_slices w) (max_block_num w) (final_block_num w) c.

(** [count.fetch_add] and [fetch_sub] on the counter of a status. *)
Definition count_add (st : Status.t) (n : Z) (w : HeaderSlices) : HeaderSlices :=
  with_counts (fun st' => if decide (st' = st) then u64_add (counts w st') n else counts w st') w.
Definition count_sub (st : Status.t) (n : Z) (w : HeaderSlices) : HeaderSlices :=
  with_counts (fun st' => if decide (st' = st) then u64_sub (counts w st') n else counts w st') w.

(** How many slices have a status. *)
Definition tally (st : Status.t) (l : list HeaderSlice) : nat := length (filter (fun s => status s = st) l).

Definition make_state_watches_from_slices (l : list HeaderSlice) : Status.t → Z :=
  foldl (fun c s st => if decide (st = status s) then u64_add (c st) 1 else c st) (fun _ => 0) l.

Definition from_slices_vec (vec : list HeaderSlice) (start_block_num_opt : option Z) (max_slices_opt : option nat)
    (final_block_num_opt : option Z) : result HeaderSlices :=
  let slices_count := length vec in
  let start := match vec with s :: _ => start_block_num s | [] => default 0 start_block_num_opt end in
  if negb (is_block_num_aligned_to_slice_start start) then Panic
  else
    let max := default slices_count max_slices_opt in
    let vec := take max vec
      ++ ((fun i => with_start (u64_add start (Z.of_nat (i * HEADER_SLICE_SIZE))) default_slice)
          <$> seq slices_count (max - slices_count)) in
    let max_block := u64_add start (Z.of_nat (max * HEADER_SLICE_SIZE)) in
    let final := default max_block final_block_num_opt in
    if negb (is_block_num_aligned_to_slice_start final) then Panic
    else Ok (mkHeaderSlices vec max max_block final (make_state_watches_from_slices vec)).

Section sizes.
(** [size_of::<BlockHeader>()], which the compiler lays out. *)
Variable header_size : nat.

Definition estimate_max_slices_for_mem_limit (mem_limit : nat) : nat := mem_limit / header_size / HEADER_SLICE_SIZE.

Definition new_slices (mem_limit : nat) (start final : Z) : result HeaderSlices :=
  let total_block_num := Z.to_nat (u64_sub final start) in
  let max := Nat.min (estimate_max_slices_for_mem_limit mem_limit)
               ((total_block_num + HEADER_SLICE_SIZE - 1) / HEADER_SLICE_SIZE) in
  from_slices_vec [] (Some start) (Some max) (Some final).
End sizes.

Definition empty_slices (max : nat) : HeaderSlices :=
  mkHeaderSlices [] max 0 0 (make_state_watches_from_slices []).

Definition clone_statuses (w : HeaderSlices) : list Status.t := status <$> slices w.

Definition find_by_start_block_num (n : Z) (w : HeaderSlices) : option nat :=
  fst <$> list_find (fun s => start_block_num s = n) (slices w).

Definition find_by_block_num (block_num : Z) (w : HeaderSlices) : option nat :=
  i ← find_by_start_block_num (align_block_num_to_slice_start block_num) w;
  s ← slices w !! i;
  if block_num_in_range block_num s then Some i else None.

Definition find_by_status (st : Status.t) (w : HeaderSlices) : option nat :=
  fst <$> list_find (fun s => status s = st) (slices w).

(** The loop of [find_batch_by_status], from the slice at [i]: [n] is the
    number of slices found so far. *)
Fixpoint find_batch (st : Status.t) (batch_size n i : nat) (l : list HeaderSlice) : list nat :=
  match l with
  | [] => []
  | s :: l =>
      if decide (status s = st)
      then i :: if (S n =? batch_size)%nat then [] else find_batch st batch_size (S n) (S i) l
      else find_batch st batch_size n (S i) l
  end.

Definition find_batch_by_status (st : Status.t) (batch_size : nat) (w : HeaderSlices) : list nat :=
  find_batch st batch_size 0 0 (slices w).

Definition remove (st : Status.t) (w : HeaderSlices) : HeaderSlices :=
  let count := tally st (slices w) in
  count_sub st (Z.of_nat count) (with_slices (filter (fun s => status s ≠ st) (slices w)) w).

(** The loop of [refill], with the number of slices that it has added. *)
Fixpoint refill_loop (n : nat) (count : Z) (w : HeaderSlices) : Z * HeaderSlices :=
  match n with
  | O => (count, w)
  | S n =>
      if final_block_num w <=? max_block_num w then (count, w)
      else
        let w := with_slices (slices w ++ [with_start (max_block_num w) default_slice]) w in
        refill_loop n (count + 1) (with_max_block_num (u64_add (max_block_num w) slice_size) w)
  end.

Definition refill (w : HeaderSlices) : HeaderSlices :=
  let '(count, w) := refill_loop (max_slices w - length (slices w)) 0 w in
  count_add Status.Empty count w.

Definition clear (w : HeaderSlices) : HeaderSlices :=
  mkHeaderSlices [] (max_slices w) 0 (final_block_num w) (fun _ => 0).

Definition reset_to_single_slice (initial : HeaderSlice) (w : HeaderSlices) : HeaderSlices :=
  mkHeaderSlices [initial] (max_slices w) (u64_add (start_block_num initial) slice_size) (final_block_num w)
    (fun st => if decide (st = status initial) then 1 else 0).

Definition prepend_slice (w : HeaderSlices) : result HeaderSlices :=
  if (max_slices w <=? length (slices w))%nat then Err (Bail "can't prepend: max_slices limit reached")
  else
    match slices w with
    | [] => Err (Bail "can't prepend if empty")
    | first :: _ =>
        if start_block_num first <? slice_size then Err (Bail "can't prepend before block")
        else
          let s := with_start (start_block_num first - slice_size) default_slice in
          Ok (count_add Status.Empty 1 (with_slices (s :: slices w) w))
    end.

Definition append_slice (w : HeaderSlices) : HeaderSlices :=
  let w := with_slices (slices w ++ [with_start (max_block_num w) default_slice]) w in
  let w := with_max_block_num (u64_add (max_block_num w) slice_size) w in
  count_add Status.Empty 1 w.

(** [n]: by how much the window is too long. *)
Fixpoint trim_start (n : nat) (w : HeaderSlices) : HeaderSlices :=
  match n, slices w with
  | S n, removed :: l => trim_start n (count_sub (status removed) 1 (with_slices l w))
  | _, _ => w
  end.

Definition trim_start_to_fit_max_slices (w : HeaderSlices) : HeaderSlices :=
  trim_start (length (slices w) - max_slices w) w.

Definition count_slices_in_status (st : Status.t) (w : HeaderSlices) : Z := counts w st.

Definition contains_status (st : Status.t) (w : HeaderSlices) : bool := 0 <? count_slices_in_status st w.

Definition has_one_of_statuses (l : list Status.t) (w : HeaderSlices) : bool := existsb (fun st => contains_status st w) l.

(** A change of the slice at [i] through its lock. *)
Definition update_slice_at (i : nat) (f : HeaderSlice → HeaderSlice) (w : HeaderSlices) : HeaderSlices :=
  with_slices (alter f i (slices w)) w.

Definition set_slice_status (i : nat) (st : Status.t) (w : HeaderSlices) : HeaderSlices :=
  match slices w !! i with
  | None => w
  | Some s =>
      if decide (st = status s) then w
      else count_add st 1 (count_sub (status s) 1 (update_slice_at i (with_status st) w))
  end.

Definition min_block_num (w : HeaderSlices) : Z :=
  match slices w with first :: _ => start_block_num first | [] => max_block_num w end.

Definition is_empty (w : HeaderSlices) : bool := bool_decide (slices w = []).

Definition is_empty_at_final_position (w : HeaderSlices) : bool :=
  (final_block_num w <=? max_block_num w) && is_empty w.

Definition all_in_status (st : Status.t) (w : HeaderSlices) : bool :=
  count_slices_in_status st w =? Z.of_nat (length (slices w)).

(** ** The counters *)

(** The operations that change the window or a status in it. *)
Inductive window_step : HeaderSlices → HeaderSlices → Prop :=
| step_remove st w : window_step w (remove st w)
| step_refill w : window_step w (refill w)
| step_clear w : window_step w (clear w)
| step_reset s w : window_step w (reset_to_single_slice s w)
| step_prepend w w' : prepend_slice w = Ok w' → window_step w w'
| step_append w : window_step w (append_slice w)
| step_trim w : window_step w (trim_start_to_fit_max_slices w)
| step_status i st w : window_step w (set_slice_status i st w)
| step_write i f w : (∀ s, status (f s) = status s) → window_step w (update_slice_at i f w).

Definition counts_ok (w : HeaderSlices) : Prop :=
  ∀ st, counts w st = wrap 64 (Z.of_nat (tally st (slices w))).

(** The fields of a changed window. *)
Ltac window_simpl :=
  cbn [slices max_slices max_block_num final_block_num counts with_slices with_max_block_num with_counts count_add count_sub update_slice_at].

Lemma tally_app st l1 l2 : tally st (l1 ++ l2) = (tally st l1 + tally st l2)%nat.
Proof. unfold tally. by rewrite filter_app, length_app. Qed.

Lemma tally_cons st s l : tally st (s :: l) = ((if decide (st = status s) then 1 else 0) + tally st l)%nat.
Proof. unfold tally. rewrite filter_cons. repeat case_decide; by subst. Qed.

Lemma tally_without st st' l :
  tally st' (filter (fun s => status s ≠ st) l) = if decide (st' = st) then 0%nat else tally st' l.
Proof.
  induction l as [|s l IH]; [by case_decide|]. rewrite filter_cons.
  repeat case_decide; rewrite ?tally_cons, ?IH; repeat case_decide; subst; done.
Qed.

Lemma tally_length st l : (tally st l ≤ length l)%nat.
Proof. apply length_filter. Qed.

Lemma add_wrapped a b : u64_add (wrap 64 a) b = wrap 64 (a + b).
Proof. unfold u64_add, wrap. by rewrite Z.add_mod_idemp_l. Qed.

Lemma sub_wrapped a b : u64_sub (wrap 64 a) b = wrap 64 (a - b).
Proof. unfold u64_sub, wrap. by rewrite Zminus_mod_idemp_l. Qed.

(** [d] slices of status [st] more. *)
Lemma count_add_ok st d l (w : HeaderSlices) :
  counts_ok w →
  (∀ st', Z.of_nat (tally st' l) = Z.of_nat (tally st' (slices w)) + (if decide (st' = st) then d else 0)) →
  counts_ok (count_add st d (with_slices l w)).
Proof.
  intros Hw Hl st'. window_simpl. rewrite Hw, Hl. case_decide; [apply add_wrapped|by rewrite Z.add_0_r].
Qed.

Lemma count_sub_ok st d l (w : HeaderSlices) :
  counts_ok w →
  (∀ st', Z.of_nat (tally st' l) = Z.of_nat (tally st' (slices w)) - (if decide (st' = st) then d else 0)) →
  counts_ok (count_sub st d (with_slices l w)).
Proof.
  intros Hw Hl st'. window_simpl. rewrite Hw, Hl. case_decide; [apply sub_wrapped|by rewrite Z.sub_0_r].
Qed.

Lemma watches_ok l st : make_state_watches_from_slices l st = wrap 64 (Z.of_nat (tally st l)).
Proof.
  unfold make_state_watches_from_slices.
  assert (∀ c l', (∀ st, c st = wrap 64 (Z.of_nat (tally st l'))) →
    ∀ st, foldl (fun c s st => if decide (st = status s) then u64_add (c st) 1 else c st) c l st
          = wrap 64 (Z.of_nat (tally st (l' ++ l)))) as Hfold; [|by apply (Hfold (fun _ => 0) [])].
  clear st. induction l as [|s l IH]; intros c l' Hc st; [by rewrite app_nil_r|]. cbn [foldl].
  rewrite (IH _ (l' ++ [s])); [by rewrite <- app_assoc|]. intros st'. rewrite tally_app, tally_cons, Hc.
  change (tally st' []) with 0%nat. case_decide; [rewrite add_wrapped; f_equal; lia|]. do 2 f_equal. lia.
Qed.

Lemma slice_split (l : list HeaderSlice) i s :
  l !! i = Some s → ∃ l1 l2, l = l1 ++ s :: l2 ∧ length l1 = i ∧ ∀ f, alter f i l = l1 ++ f s :: l2.
Proof.
  intros Hi. exists (take i l), (drop (S i) l). pose proof (lookup_lt_Some _ _ _ Hi) as Hlt. split_and!.
  - by rewrite take_drop_middle.
  - rewrite length_take. lia.
  - intros f. rewrite <- (take_drop_middle l i s Hi) at 1. rewrite alter_app_r_alt by (rewrite length_take; lia).
    rewrite length_take, Nat.min_l, Nat.sub_diag by lia. done.
Qed.

Lemma update_counts_ok i f (w : HeaderSlices) :
  (∀ s, status (f s) = status s) → counts_ok w → counts_ok (update_slice_at i f w).
Proof.
  intros Hf Hw st. window_simpl. rewrite Hw. do 2 f_equal. destruct (slices w !! i) as [s|] eqn:Hi.
  - destruct (slice_split _ _ _ Hi) as (l1 & l2 & -> & _ & ->). by rewrite !tally_app, !tally_cons, Hf.
  - f_equal. apply list_eq. intros j. rewrite list_lookup_alter. case_decide; [subst; by rewrite Hi|done].
Qed.

Lemma set_status_counts_ok i st (w : HeaderSlices) : counts_ok w → counts_ok (set_slice_status i st w).
Proof.
  intros Hw. unfold set_slice_status. destruct (slices w !! i) as [s|] eqn:Hi; [|done].
  case_decide as Hst; [done|]. intros st'. window_simpl. rewrite Hw.
  destruct (slice_split _ _ _ Hi) as (l1 & l2 & -> & _ & ->). rewrite !tally_app, !tally_cons. cbn [status with_status].
  repeat case_decide; subst; try done; rewrite ?sub_wrapped, ?add_wrapped; f_equal; lia.
Qed.

Lemma refill_counts n : ∀ count (w w' : HeaderSlices) c,
  refill_loop n count w = (c, w') →
  counts w' = counts w ∧ count ≤ c
  ∧ ∀ st, Z.of_nat (tally st (slices w'))
          = Z.of_nat (tally st (slices w)) + if decide (st = Status.Empty) then c - count else 0.
Proof.
  induction n as [|n IH]; intros count w w' c; cbn [refill_loop].
  - intros [= <- <-]. split_and!; [done|lia|]. intros st. case_decide; lia.
  - destruct (_ <=? _); [intros [= <- <-]; split_and!; [done|lia|]; intros st; case_decide; lia|].
    intros (Hc & Hle & Ht)%IH. split_and!; [by rewrite Hc|lia|]. intros st. rewrite Ht. window_simpl.
    rewrite tally_app, tally_cons. cbn [status with_start default_slice]. change (tally st []) with 0%nat. repeat case_decide; subst; lia || done.
Qed.

Lemma trim_counts_ok n : ∀ (w : HeaderSlices), counts_ok w → counts_ok (trim_start n w).
Proof.
  induction n as [|n IH]; intros w Hw; cbn [trim_start]; [done|]. destruct (slices w) as [|s l] eqn:El; [done|].
  apply IH, count_sub_ok; [done|]. intros st. rewrite El, tally_cons. case_decide; lia.
Qed.

Lemma counts_kept (w w' : HeaderSlices) : window_step w w' → counts_ok w → counts_ok w'.
Proof.
  intros Hstep Hw. destruct Hstep as [st w|w|w|s w|w w' Hp|w|w|i st w|i f w Hf].
  - apply count_sub_ok; [done|]. intros st'. rewrite tally_without. case_decide; subst; lia.
  - unfold refill. destruct (refill_loop _ _ w) as [c w'] eqn:Er. destruct (refill_counts _ _ _ _ _ Er) as (Hc & _ & Ht).
    intros st. window_simpl. rewrite Ht, Hc, Hw. case_decide; rewrite ?add_wrapped; f_equal; lia.
  - done.
  - intros st. cbn [counts reset_to_single_slice slices]. rewrite tally_cons. change (tally st []) with 0%nat. by case_decide.
  - unfold prepend_slice in Hp. destruct (_ <=? _)%nat; [done|]. destruct (slices w) as [|s l] eqn:El; [done|].
    destruct (_ <? _); [done|]. injection Hp as <-. apply count_add_ok; [done|]. intros st.
    rewrite El, (tally_cons _ (with_start _ _)). cbn [status with_start default_slice]. case_decide; lia.
  - intros st. unfold append_slice. window_simpl. rewrite Hw, tally_app, tally_cons. change (tally st []) with 0%nat.
    cbn [status with_start default_slice]. case_decide; rewrite ?add_wrapped; f_equal; lia.
  - by apply trim_counts_ok.
  - by apply set_status_counts_ok.
  - by apply update_counts_ok.
Qed.

Lemma new_counts_ok vec a b c w : from_slices_vec vec a b c = Ok w → counts_ok w.
Proof.
  unfold from_slices_vec. destruct (negb _); [done|]. cbv zeta. destruct (negb _); [done|]. intros [= <-] st. apply watches_ok.
Qed.

Lemma reached_counts_ok w w' : rtc window_step w w' → counts_ok w → counts_ok w'.
Proof. induction 1 as [|w1 w2 w3 Hs _ IH]; [done|]. intros Hw. eapply IH, counts_kept; eauto. Qed.

Lemma counts_exact (w : HeaderSlices) st :
  counts_ok w → Z.of_nat (length (slices w)) < 2 ^ 64 → count_slices_in_status st w = Z.of_nat (tally st (slices w)).
Proof.
  intros Hw Hlen. unfold count_slices_in_status. rewrite Hw. apply wrap_small. pose proof (tally_length st (slices w)). split; lia.
Qed.

(** C39. Whatever operations are run on a window, its counters tell how many of
    its slices have each status, so that a stage that waits for slices of
    its status is woken up exactly when there are some: removing, adding,
    trimming and resetting keep them, and a change of status moves a slice
    from one counter to the other. *)
Theorem status_counters_exact vec start max final (w w' : HeaderSlices) (st : Status.t)
    (Hnew : from_slices_vec vec start max final = Ok w) (Hops : rtc window_step w w')
    (Hlen : Z.of_nat (length (slices w')) < 2 ^ 64) :
  count_slices_in_status st w' = Z.of_nat (tally st (slices w'))
  ∧ (contains_status st w' = true ↔ ∃ s, s ∈ slices w' ∧ status s = st).
Proof.
  assert (count_slices_in_status st w' = Z.of_nat (tally st (slices w'))) as Hc.
  { apply counts_exact; [|done]. eapply reached_counts_ok; [exact Hops|]. by eapply new_counts_ok. }
  split; [done|]. unfold contains_status. rewrite Hc. unfold tally. split.
  - intros Hpos. zbool. destruct (filter _ _) as [|s l] eqn:Ef; [done|].
    assert (s ∈ filter (fun s => status s = st) (slices w')) as Hs by (rewrite Ef; left).
    apply list_elem_of_filter in Hs as [? ?]. eauto.
  - intros (s & Hs & Hst). destruct (filter _ _) as [|s' l] eqn:Ef; [|done].
    assert (s ∈ filter (fun s => status s = st) (slices w')) as Hin by by apply list_elem_of_filter.
    rewrite Ef in Hin. by apply not_elem_of_nil in Hin.
Qed.

(** Two slices, of which the first is saved and replaced. *)
Definition demo_window : HeaderSlices :=
  let l := [with_start 192 default_slice; with_start 384 default_slice] in
  mkHeaderSlices l 2 576 768 (make_state_watches_from_slices l).

Definition demo_refilled : HeaderSlices :=
  refill (remove Status.Saved (set_slice_status 0 Status.Saved demo_window)).

Lemma status_counters_exact_witness :
  count_slices_in_status Status.Empty demo_refilled = Z.of_nat (tally Status.Empty (slices demo_refilled))
  ∧ (contains_status Status.Empty demo_refilled = true
     ↔ ∃ s, s ∈ slices demo_refilled ∧ status s = Status.Empty).
Proof.
  apply (status_counters_exact [] (Some 192) (Some 2%nat) (Some 768) demo_window).
  - reflexivity.
  - eapply rtc_l; [apply step_status|]. eapply rtc_l; [apply step_remove|]. apply rtc_once, step_refill.
  - vm_compute. reflexivity.
Defined.
