(* ===== verification/SliceVerifier.v ===== *)
(** * SliceVerifier

    [src/src/downloader/headers_downloader/verification]: the trait
    [HeaderSliceVerifier], its Ethash implementation, and the check of
    preverified slices ([stages/verify_preverified_stage.rs]). The laws of
    the trait say what a header that passes is known to be. *)

From S2P Require Import Prelude Words Errors Account Params ChainSpec Transaction Block InMemoryState Rlp TransactionRlp BlockRlp Difficulty HeaderSlices.

(** [a && b] where [b] may panic. *)
Definition and_then (a b : result bool) : result bool :=
  a ≫= fun x : bool => if x then b else Ok false.

(** [iter.all(f)]. *)
Fixpoint all_of {A} (f : A → result bool) (l : list A) : result bool :=
  match l with
  | [] => Ok true
  | x :: l => and_then (f x) (all_of f l)
  end.

Lemma and_then_true a b : and_then a b = Ok true ↔ a = Ok true ∧ b = Ok true.
Proof. unfold and_then. destruct a as [[]|e|]; cbn; naive_solver. Qed.

Lemma all_of_true {A} (f : A → result bool) l : all_of f l = Ok true ↔ Forall (fun x => f x = Ok true) l.
Proof.
  induction l as [|x l IH]; cbn [all_of]; [by rewrite Forall_nil|]. by rewrite and_then_true, IH, Forall_cons.
Qed.

(** The trait [HeaderSliceVerifier]: children first. *)
Class HeaderSliceVerifier : Type := {
  verify_link : CachedHeader → CachedHeader → ChainSpec → result bool;
  verify_slice : list CachedHeader → Z → Z → ChainSpec → result bool
}.

Definition enumerate_sequential_pairs {A} (l : list A) : list (A * A) := zip l (tail l).

(** Consecutive headers, each the parent of the next. *)
Definition chained (link : BlockHeader → BlockHeader → Prop) (l : list BlockHeader) : Prop :=
  Forall (fun '(parent, child) => link child parent) (enumerate_sequential_pairs l).

(** What the verdicts mean, for a relation of children and parents. *)
Class VerifierLaws {R : Rlp} {H : Hashing} (V : HeaderSliceVerifier) (spec : ChainSpec)
    (link : BlockHeader → BlockHeader → Prop) : Prop := {
  link_verified child parent :
    cached_ok child → cached_ok parent → verify_link child parent spec = Ok true → link (header child) (header parent);
  slice_verified l start_block_num max_timestamp :
    Forall cached_ok l → verify_slice l start_block_num max_timestamp spec = Ok true →
    chained link (header <$> l) ∧ from_option (fun h => number (header h) = start_block_num) True (head l);
  link_number child parent : link child parent → number child = u64_add (number parent) 1;
  link_parent child parent : link child parent → parent_hash child = header_hash parent
}.

Section ethash.
Context {R : Rlp} {H : Hashing}.

Definition verify_link_by_parent_hash (child parent : CachedHeader) : bool :=
  let given_parent_hash := parent_hash (header child) in
  let expected_parent_hash := hash parent in
  given_parent_hash =? expected_parent_hash.

Definition verify_link_block_nums (child parent : CachedHeader) : bool :=
  let given_block_num := number (header child) in
  let expected_block_num := u64_add (number (header parent)) 1 in
  given_block_num =? expected_block_num.

Definition verify_link_timestamps (child parent : CachedHeader) : bool :=
  timestamp (header parent) <? timestamp (header child).

(** The difficulty that a child of this number and time must have. *)
Definition expected_child_difficulty (homestead_formula byzantium_formula : option Z)
    (difficulty_bomb : option DifficultyBomb) (child parent : BlockHeader) : Z :=
  canonical_difficulty (number child) (timestamp child) (difficulty parent) (timestamp parent)
    (negb (ommers_hash parent =? EMPTY_LIST_HASH))
    (switch_is_active byzantium_formula (number child)) (switch_is_active homestead_formula (number child))
    ((fun bomb => {| delay_to := get_delay_to bomb (number child) |}) <$> difficulty_bomb).

Definition verify_link_difficulties (child parent : CachedHeader) (spec : ChainSpec) : result bool :=
  match seal_verification (consensus spec) with
  | EthashSeal _ _ homestead_formula byzantium_formula difficulty_bomb _ =>
      let given_child_difficulty := difficulty (header child) in
      Ok (given_child_difficulty
          =? expected_child_difficulty homestead_formula byzantium_formula difficulty_bomb (header child) (header parent))
  | Clique _ _ => Panic
  end.

Definition verify_link_pow (child parent : CachedHeader) : bool := true.

Definition verify_slice_is_linked_by_parent_hash (l : list CachedHeader) : bool :=
  forallb (fun '(parent, child) => verify_link_by_parent_hash child parent) (enumerate_sequential_pairs l).

Definition verify_slice_block_nums (l : list CachedHeader) (start_block_num : Z) : bool :=
  match l with
  | [] => true
  | first :: _ =>
      if forallb (fun '(parent, child) => verify_link_block_nums child parent) (enumerate_sequential_pairs l)
      then number (header first) =? start_block_num
      else false
  end.

Definition verify_slice_timestamps (l : list CachedHeader) (max_timestamp : Z) : bool :=
  match last l with
  | None => true
  | Some last =>
      if forallb (fun '(parent, child) => verify_link_timestamps child parent) (enumerate_sequential_pairs l)
      then timestamp (header last) <? max_timestamp
      else false
  end.

Definition verify_slice_difficulties (l : list CachedHeader) (spec : ChainSpec) : result bool :=
  all_of (fun '(parent, child) => verify_link_difficulties child parent spec) (enumerate_sequential_pairs l).

Definition verify_slice_pow (l : list CachedHeader) : bool := true.

#[export] Instance EthashHeaderSliceVerifier : HeaderSliceVerifier := {|
  verify_link child parent spec :=
    and_then (Ok (verify_link_by_parent_hash child parent))
      (and_then (Ok (verify_link_block_nums child parent))
        (and_then (Ok (verify_link_timestamps child parent))
          (and_then (verify_link_difficulties child parent spec)
            (Ok (verify_link_pow child parent)))));
  verify_slice l start_block_num max_timestamp spec :=
    and_then (Ok (verify_slice_is_linked_by_parent_hash l))
      (and_then (Ok (verify_slice_block_nums l start_block_num))
        (and_then (Ok (verify_slice_timestamps l max_timestamp))
          (and_then (verify_slice_difficulties l spec)
            (Ok (verify_slice_pow l)))))
|}.

(** What links a header to its parent. *)
Definition ethash_link (spec : ChainSpec) (child parent : BlockHeader) : Prop :=
  parent_hash child = header_hash parent
  ∧ number child = u64_add (number parent) 1
  ∧ timestamp parent < timestamp child
  ∧ match seal_verification (consensus spec) with
    | EthashSeal _ _ homestead_formula byzantium_formula difficulty_bomb _ =>
        difficulty child = expected_child_difficulty homestead_formula byzantium_formula difficulty_bomb child parent
    | Clique _ _ => False
    end.

Lemma ethash_verified child parent spec :
  cached_ok parent → verify_link child parent spec = Ok true ↔ ethash_link spec (header child) (header parent).
Proof.
  intros [_ Hp]. cbn [verify_link EthashHeaderSliceVerifier]. rewrite !and_then_true.
  unfold ethash_link, verify_link_by_parent_hash, verify_link_block_nums, verify_link_timestamps, verify_link_difficulties.
  rewrite Hp. destruct (seal_verification (consensus spec)); split.
  - intros (_ & _ & _ & [=] & _).
  - by intros (_ & _ & _ & []).
  - intros ([= ?%Z.eqb_eq] & [= ?%Z.eqb_eq] & [= ?%Z.ltb_lt] & [= ?%Z.eqb_eq] & _). by split_and!.
  - intros (? & ? & ? & ?). split_and!; f_equal; first [by apply Z.eqb_eq | by apply Z.ltb_lt | done].
Qed.

Lemma pairs_fmap {A B} (f : A → B) (l : list A) :
  enumerate_sequential_pairs (f <$> l) = prod_map f f <$> enumerate_sequential_pairs l.
Proof.
  destruct l as [|x l]; [done|]. unfold enumerate_sequential_pairs. cbn [tail fmap list_fmap].
  revert x. induction l as [|y l IH]; intros x; [done|]. cbn [zip zip_with fmap list_fmap prod_map]. f_equal. apply (IH y).
Qed.

Lemma pairs_elem {A} (l : list A) x y : (x, y) ∈ enumerate_sequential_pairs l → x ∈ l ∧ y ∈ l.
Proof.
  intros Hin. unfold enumerate_sequential_pairs in Hin. split; [by eapply elem_of_zip_l|].
  apply elem_of_zip_r in Hin. destruct l; [done|]. by right.
Qed.

Lemma forallb_pairs {A} (f : A * A → bool) l : forallb f l = true ↔ ∀ x, x ∈ l → f x = true.
Proof. rewrite forallb_forall. by setoid_rewrite list_elem_of_In. Qed.

Lemma linked_pairs l spec :
  Forall cached_ok l →
  chained (ethash_link spec) (header <$> l) ↔
  verify_slice_is_linked_by_parent_hash l = true
  ∧ forallb (fun '(parent, child) => verify_link_block_nums child parent) (enumerate_sequential_pairs l) = true
  ∧ forallb (fun '(parent, child) => verify_link_timestamps child parent) (enumerate_sequential_pairs l) = true
  ∧ verify_slice_difficulties l spec = Ok true.
Proof.
  intros Hok. rewrite Forall_forall in Hok. unfold chained, verify_slice_is_linked_by_parent_hash, verify_slice_difficulties.
  rewrite pairs_fmap, Forall_fmap, all_of_true, !forallb_pairs, !Forall_forall.
  assert (∀ x, x ∈ enumerate_sequential_pairs l →
    (ethash_link spec (header x.2) (header x.1) ↔
      verify_link_by_parent_hash x.2 x.1 = true ∧ verify_link_block_nums x.2 x.1 = true
      ∧ verify_link_timestamps x.2 x.1 = true ∧ verify_link_difficulties x.2 x.1 spec = Ok true)) as Heq.
  { intros [p c] Hin. cbn. pose proof (Hok _ (proj1 (pairs_elem _ _ _ Hin))) as Hp. rewrite <- (ethash_verified c p spec Hp).
    cbn [verify_link EthashHeaderSliceVerifier]. rewrite !and_then_true. split.
    - intros ([= ->] & [= ->] & [= ->] & -> & _). done.
    - intros (-> & -> & -> & ->). done. }
  split.
  - intros Hl. split_and!; intros [p c] Hin; by apply (Heq _ Hin), (Hl _ Hin).
  - intros (H1 & H2 & H3 & H4) [p c] Hin. apply (Heq _ Hin). split_and!; [by apply (H1 (p, c))|by apply (H2 (p, c))|by apply (H3 (p, c))|by apply (H4 (p, c))].
Qed.

(** A slice is verified exactly when each of its headers is linked to the
    one before, it starts at its number, and it ends in the past. *)
Lemma ethash_slice_verified l start_block_num max_timestamp spec :
  Forall cached_ok l →
  verify_slice l start_block_num max_timestamp spec = Ok true ↔
  chained (ethash_link spec) (header <$> l)
  ∧ from_option (fun h => number (header h) = start_block_num) True (head l)
  ∧ from_option (fun h => timestamp (header h) < max_timestamp) True (last l).
Proof.
  intros Hok. rewrite (linked_pairs l spec Hok). cbn [verify_slice EthashHeaderSliceVerifier]. rewrite !and_then_true.
  unfold verify_slice_block_nums, verify_slice_timestamps. destruct l as [|h l].
  { split; intros _; split_and!; done. }
  destruct (last (h :: l)) as [h'|] eqn:El; [|by apply last_None in El]. cbn [head from_option].
  rewrite <- Z.eqb_eq, <- Z.ltb_lt.
  destruct (forallb (fun '(parent, child) => verify_link_block_nums child parent) _);
    destruct (forallb (fun '(parent, child) => verify_link_timestamps child parent) _); (split;
    [ intros (E1 & E2 & E3 & E4 & _); try discriminate; injection E1 as E1; injection E2 as E2; injection E3 as E3; by rewrite E1
    | intros ((E1 & E2 & E3 & E4) & E5 & E6); try discriminate; by rewrite E1, E4, E5, E6 ]).
Qed.

#[export] Instance ethash_laws spec : VerifierLaws EthashHeaderSliceVerifier spec (ethash_link spec).
Proof.
  split.
  - intros child parent _ Hp. by apply ethash_verified.
  - intros l n t Hl Hv. apply ethash_slice_verified in Hv as (Hc & Hn & _); [|done]. done.
  - by intros child parent (_ & Hn & _).
  - by intros child parent (Hp & _).
Qed.

(** ** Preverified slices *)

(** [PreverifiedHashesConfig]: the hash of every 192nd block. *)
Definition preverified_hash (hashes : list Z) (block_num : Z) : option Z :=
  if negb (block_num mod slice_size =? 0) then None
  else hashes !! Z.to_nat (block_num / slice_size).

(** [VerifyPreverifiedStage::verify_slice]. *)
Definition verify_preverified_slice (hashes : list Z) (s : HeaderSlice) : bool :=
  match headers s with
  | Some ((first :: _) as l) =>
      match preverified_hash hashes (start_block_num s) with
      | None => false
      | Some expected_first_hash =>
          if negb (hash first =? expected_first_hash) then false
          else
            match preverified_hash hashes (u64_sub (u64_add (start_block_num s) (Z.of_nat (length l))) 1) with
            | None => false
            | Some expected_last_hash =>
                if negb (from_option hash 0 (last l) =? expected_last_hash) then false
                else verify_slice_is_linked_by_parent_hash l
            end
      end
  | _ => false
  end.


End ethash.

