(* ===== verification/DownloadStages.v ===== *)
(** * DownloadStages

    [src/src/downloader/headers_downloader/stages]: the stages of the header
    downloader. Each executes on the window whenever slices have its status
    and moves them on to the next one; [execute] without the waiting is a
    function on the window. Peers, clocks and the sentry are arguments. *)

From S2P Require Import Prelude Words Errors ChainSpec Transaction Block Rlp TransactionRlp BlockRlp Database HeaderSlices SliceVerifier.

(** [for_each] over the slices, each changed through its lock. *)
Definition for_each_slice (f : nat → HeaderSlice → HeaderSlices → HeaderSlices) (w : HeaderSlices) : HeaderSlices :=
  foldl (fun w i => match slices w !! i with Some s => f i s w | None => w end) w (seq 0 (length (slices w))).

(** ** Requests (fetch_request_stage.rs) *)

(** What [try_send_message] answers. *)
Inductive SendOutcome : Type :=
| Sent
| SendQueueFull
| ReactorStopped
| SendFailed.

Record GetBlockHeaders : Type := mkGetBlockHeaders {
  request_id : Z;
  request_start : Z;
  request_limit : Z
}.

Section fetch.
Variables (limit : Z) (send : GetBlockHeaders → SendOutcome) (now : Z).

(** The [try_fold] of [request_pending], at the slice [i]. *)
Fixpoint request_loop (n i : nat) (last_request_id : Z) (w : HeaderSlices) : result (Z * HeaderSlices) :=
  match n with
  | O => Ok (last_request_id, w)
  | S n =>
      match slices w !! i with
      | None => Ok (last_request_id, w)
      | Some s =>
          if decide (status s = Status.Empty)
          then
            match send (mkGetBlockHeaders last_request_id (start_block_num s) limit) with
            | SendQueueFull => Ok (u64_add last_request_id 1, w)
            | ReactorStopped => Err (Bail "reactor stopped")
            | SendFailed => Err (Bail "send failed")
            | Sent =>
                let w := update_slice_at i (with_request (Some now) (request_attempt s)) w in
                request_loop n (S i) (u64_add last_request_id 1) (set_slice_status i Status.Waiting w)
            end
          else request_loop n (S i) last_request_id w
      end
  end.

Definition request_pending (last_request_id : Z) (w : HeaderSlices) : result (Z * HeaderSlices) :=
  request_loop (length (slices w)) 0 last_request_id w.
End fetch.

(** ** Answers (fetch_receive_stage.rs) *)

Definition update_slice (i : nat) (l : list CachedHeader) (peer : option Z) (w : HeaderSlices) : HeaderSlices :=
  set_slice_status i Status.Downloaded (update_slice_at i (fun s => with_peer peer (with_headers (Some l) s)) w).

Definition on_headers_message (message : list BlockHeader) (peer : option Z) (w : HeaderSlices) : HeaderSlices :=
  match message with
  | [] => w
  | first :: _ =>
      match find_by_start_block_num (number first) w with
      | Some i =>
          match slices w !! i with
          | Some s =>
              if decide (status s = Status.Waiting) then update_slice i (cached_of <$> message) peer w else w
          | None => w
          end
      | None => w
      end
  end.

(** ** Retries (retry_stage.rs); times are in nanoseconds *)

Definition from_secs (n : Z) : Z := n * 1000000000.

Definition timeout_for_attempt (attempt : Z) : Z :=
  if attempt =? 0 then from_secs 5 else if attempt =? 1 then from_secs 10
  else if attempt =? 2 then from_secs 15 else from_secs 30.

Definition is_waiting_timeout_expired (s : HeaderSlice) (now : Z) : bool :=
  match request_time s with
  | None => false
  | Some request_time => timeout_for_attempt (request_attempt s) <? Z.max 0 (now - request_time)
  end.

Definition retry_pending (now : Z) (w : HeaderSlices) : HeaderSlices :=
  for_each_slice (fun i s w =>
    if bool_decide (status s = Status.Waiting) && is_waiting_timeout_expired s now
    then set_slice_status i Status.Empty
           (update_slice_at i (with_request None (wrap 16 (request_attempt s + 1))) w)
    else w) w.

(** ** Penalties (penalize_stage.rs) *)

Definition collect_bad_peers (w : HeaderSlices) : gset Z :=
  list_to_set (omap from_peer_id (filter (fun s => status s = Status.Invalid) (slices w))).

Definition reset_invalid (w : HeaderSlices) : HeaderSlices :=
  for_each_slice (fun i s w =>
    if decide (status s = Status.Invalid)
    then update_slice_at i (with_headers None) (set_slice_status i Status.Empty w)
    else w) w.

(** ** Refill (refill_stage.rs) *)

Definition refill_pending (w : HeaderSlices) : HeaderSlices := refill (remove Status.Saved w).

(** ** Extension (extend_stage.rs) *)

Definition extend (w : HeaderSlices) : HeaderSlices :=
  if all_in_status Status.Saved w then append_slice w else w.

Section stages.
Context {R : Rlp} {H : Hashing} {V : HeaderSliceVerifier}.
Variables (spec : ChainSpec) (genesis_block_hash : Z).

(** ** Verification of slices (verify_slices_stage.rs) *)

Section verify.
(** The clock, as the slice of that number is verified. *)
Variable now : Z → Z.

Definition prepare_slice_hashes (s : HeaderSlice) : HeaderSlice :=
  with_headers (fmap (M := list) hash_prepare <$> headers s) s.

Definition verify_downloaded (s : HeaderSlice) : result bool :=
  match headers s with
  | None => Ok false
  | Some l => verify_slice l (start_block_num s) (now (start_block_num s)) spec
  end.

(** Each slice of the batch is another one: the order does not matter. *)
Fixpoint verify_slices_parallel (batch : list nat) (w : HeaderSlices) : result (list bool * HeaderSlices) :=
  match batch with
  | [] => Ok ([], w)
  | i :: batch =>
      let w := update_slice_at i prepare_slice_hashes w in
      s ← unwrap (slices w !! i);
      is_verified ← verify_downloaded s;
      '(slices_verified, w) ← verify_slices_parallel batch w;
      Ok (is_verified :: slices_verified, w)
  end.

Definition set_verified (good : Status.t) (w : HeaderSlices) (v : nat * bool) : HeaderSlices :=
  set_slice_status v.1 (if v.2 then good else Status.Invalid) w.

(** A turn of the loop of [verify_pending]. *)
Definition verify_batch (num_cpus : nat) (w : HeaderSlices) : result HeaderSlices :=
  let batch := find_batch_by_status Status.Downloaded num_cpus w in
  '(slices_verified, w) ← verify_slices_parallel batch w;
  Ok (foldl (set_verified Status.VerifiedInternally) w (zip batch slices_verified)).

Fixpoint verify_loop (fuel num_cpus : nat) (w : HeaderSlices) : result HeaderSlices :=
  match fuel with
  | O => Ok w
  | S fuel =>
      if bool_decide (find_batch_by_status Status.Downloaded num_cpus w = []) then Ok w
      else w ← verify_batch num_cpus w; verify_loop fuel num_cpus w
  end.

(** Every turn takes a slice off the status. *)
Definition verify_pending (num_cpus : nat) (w : HeaderSlices) : result HeaderSlices :=
  verify_loop (tally Status.Downloaded (slices w)) num_cpus w.
End verify.

(** ** Links of slices (verify_link_linear_stage.rs) *)

Fixpoint find_next_link (i : nat) (l : list HeaderSlice) : option nat :=
  match l with
  | [] => None
  | s :: l =>
      match status s with
      | Status.Verified | Status.Saved => find_next_link (S i) l
      | Status.VerifiedInternally => Some i
      | _ => None
      end
  end.

Fixpoint last_verified_slice (found : option HeaderSlice) (l : list HeaderSlice) : option HeaderSlice :=
  match l with
  | [] => found
  | s :: l =>
      match status s with
      | Status.Verified | Status.Saved => last_verified_slice (Some s) l
      | _ => found
      end
  end.

Definition find_last_verified_header (w : HeaderSlices) : option CachedHeader :=
  s ← last_verified_slice None (slices w); l ← headers s; last l.

Definition verify_slice_link (s : HeaderSlice) (parent : option CachedHeader) : result bool :=
  match headers s with
  | None | Some [] => Ok false
  | Some ((child :: _) as l) =>
      if negb (length l =? HEADER_SLICE_SIZE)%nat then Ok false
      else if number (header child) =? 0 then Ok (hash child =? genesis_block_hash)
      else
        match parent with
        | None => Ok false
        | Some parent => verify_link child parent spec
        end
  end.

Definition verify_pending_slice (invalid_status : Status.t) (i : nat) (last_verified_header : option CachedHeader)
    (w : HeaderSlices) : result (bool * (option CachedHeader * HeaderSlices)) :=
  s ← unwrap (slices w !! i);
  is_verified ← verify_slice_link s last_verified_header;
  if is_verified : bool
  then
    let w := set_slice_status i Status.Verified w in
    l ← unwrap (headers s);
    let last_verified_header := match last l with Some h => Some h | None => last_verified_header end in
    Ok (true, (last_verified_header, w))
  else Ok (false, (last_verified_header, set_slice_status i invalid_status w)).

(** [verify_pending_monotonic], with the number of slices updated. *)
Fixpoint link_pending (invalid_status : Status.t) (pending_count : nat) (last_verified_header : option CachedHeader)
    (w : HeaderSlices) : result (nat * (option CachedHeader * HeaderSlices)) :=
  match pending_count with
  | O => Ok (0%nat, (last_verified_header, w))
  | S pending_count =>
      match find_next_link 0 (slices w) with
      | None => Ok (0%nat, (last_verified_header, w))
      | Some i =>
          '(is_verified, (last_verified_header, w)) ← verify_pending_slice invalid_status i last_verified_header w;
          if is_verified : bool
          then
            '(updated_count, r) ← link_pending invalid_status pending_count last_verified_header w;
            Ok (S updated_count, r)
          else Ok (1%nat, (last_verified_header, w))
      end
  end.

(** ** Saving (save_stage.rs) *)

Definition read_parent_header_total_difficulty (child : CachedHeader) (d : Database) : option Z :=
  if number (header child) =? 0 then Some 0
  else
    let parent_block_num := number (header child) - 1 in
    HeadersTotalDifficulty d !! (parent_block_num, parent_hash (header child)).

Definition header_total_difficulty (h : CachedHeader) (d : Database) : option Z :=
  parent_total_difficulty ← read_parent_header_total_difficulty h d;
  Some (u256_add parent_total_difficulty (difficulty (header h))).

Definition load_canonical_header_by_num (block_num : Z) (d : Database) : option CachedHeader :=
  header_hash ← CanonicalHeader d !! block_num;
  header ← Header d !! (block_num, header_hash);
  Some (known_header header header_hash).

Definition update_canonical_chain_header (h : CachedHeader) (d : Database) : Database :=
  let block_num := number (header h) in
  let header_hash := hash h in
  let d := set_CanonicalHeader (<[block_num := header_hash]> (CanonicalHeader d)) d in
  let d := set_LastHeader (Some header_hash) d in
  match header_total_difficulty h d with
  | Some total_difficulty =>
      set_HeadersTotalDifficulty (<[(block_num, header_hash) := total_difficulty]> (HeadersTotalDifficulty d)) d
  | None => d
  end.

Definition save_header (is_canonical_chain : bool) (d : Database) (h : CachedHeader) : Database :=
  let block_num := number (header h) in
  let header_hash := hash h in
  let d := if is_canonical_chain then update_canonical_chain_header h d else d in
  let d := set_Header (<[(block_num, header_hash) := header h]> (Header d)) d in
  set_HeaderNumber (<[header_hash := block_num]> (HeaderNumber d)) d.

Definition save_headers (is_canonical_chain : bool) (l : list CachedHeader) (d : Database) : Database :=
  foldl (save_header is_canonical_chain) d l.

(** The headers are taken out of the slice and put back: they are not
    looked at in between. *)
Definition save_slice (is_canonical_chain : bool) (i : nat) (w : HeaderSlices) (d : Database) :
    result (HeaderSlices * Database) :=
  s ← unwrap (slices w !! i);
  l ← ok_or (Bail "SaveStage: inconsistent state - Verified slice has no headers") (headers s);
  Ok (set_slice_status i Status.Saved w, save_headers is_canonical_chain l d).

Fixpoint find_next_save (i : nat) (l : list HeaderSlice) : option nat :=
  match l with
  | [] => None
  | s :: l =>
      match status s with
      | Status.Saved => find_next_save (S i) l
      | Status.Verified => Some i
      | _ => None
      end
  end.

Fixpoint save_pending_monotonic (is_canonical_chain : bool) (pending_count : nat) (w : HeaderSlices) (d : Database) :
    result (nat * (HeaderSlices * Database)) :=
  match pending_count with
  | O => Ok (0%nat, (w, d))
  | S pending_count =>
      match find_next_save 0 (slices w) with
      | None => Ok (0%nat, (w, d))
      | Some i =>
          '(w, d) ← save_slice is_canonical_chain i w d;
          '(saved_count, r) ← save_pending_monotonic is_canonical_chain pending_count w d;
          Ok (S saved_count, r)
      end
  end.

Fixpoint save_pending_all (is_canonical_chain : bool) (pending_count : nat) (w : HeaderSlices) (d : Database) :
    result (nat * (HeaderSlices * Database)) :=
  match find_by_status Status.Verified w, pending_count with
  | Some i, S pending_count =>
      '(w, d) ← save_slice is_canonical_chain i w d;
      '(saved_count, r) ← save_pending_all is_canonical_chain pending_count w d;
      Ok (S saved_count, r)
  | _, _ => Ok (0%nat, (w, d))
  end.

(** [SaveStage::unwind]: the loop deletes canonical hashes until one is
    missing; [fuel]: one turn per entry of the table, and the last. *)
Fixpoint unwind_canonical (fuel : nat) (i : Z) (d : Database) : Database :=
  match fuel with
  | O => d
  | S fuel =>
      match CanonicalHeader d !! i with
      | None => d
      | Some _ => unwind_canonical fuel (i + 1) (set_CanonicalHeader (base.delete i (CanonicalHeader d)) d)
      end
  end.

Definition unwind_headers (unwind_to_block_num : Z) (d : Database) : result Database :=
  let d := unwind_canonical (S (size (CanonicalHeader d))) (unwind_to_block_num + 1) d in
  match CanonicalHeader d !! unwind_to_block_num with
  | Some hash => Ok (set_LastHeader (Some hash) d)
  | None => Err (Bail "unwind: not found header hash of the top block after unwind")
  end.

(** ** The preverified slices (verify_preverified_stage.rs) *)

Fixpoint preverify_parallel (hashes : list Z) (batch : list nat) (w : HeaderSlices) : result (list bool * HeaderSlices) :=
  match batch with
  | [] => Ok ([], w)
  | i :: batch =>
      let w := update_slice_at i prepare_slice_hashes w in
      s ← unwrap (slices w !! i);
      '(slices_verified, w) ← preverify_parallel hashes batch w;
      Ok (verify_preverified_slice hashes s :: slices_verified, w)
  end.

Definition preverify_batch (hashes : list Z) (num_cpus : nat) (w : HeaderSlices) : result HeaderSlices :=
  let batch := find_batch_by_status Status.Downloaded num_cpus w in
  '(slices_verified, w) ← preverify_parallel hashes batch w;
  Ok (foldl (set_verified Status.Verified) w (zip batch slices_verified)).

End stages.
