(* ===== verification/DownloadSteps.v ===== *)
(** * DownloadSteps

    What the stages of [DownloadStages] do to the slices that are not yet
    verified: each slice keeps its place, and what is known of its headers
    is what its status stands for. *)

From S2P Require Import Prelude Words Errors ChainSpec Transaction Block Rlp TransactionRlp BlockRlp Database HeaderSlices SliceVerifier DownloadStages.

(** Statuses that the stages before the saving may change. *)
Definition loose (st : Status.t) : Prop :=
  match st with Status.Verified | Status.Saved | Status.Fork => False | _ => True end.

#[global] Instance loose_dec st : Decision (loose st).
Proof. destruct st; cbn; apply _. Defined.

Section steps.
Context {R : Rlp} {H : Hashing} {V : HeaderSliceVerifier}.
Variable spec : ChainSpec.
Variable link : BlockHeader → BlockHeader → Prop.
Context {VL : VerifierLaws V spec link}.

(** Headers that form a slice by themselves. *)
Definition internally_linked (s : HeaderSlice) : Prop :=
  ∃ l, headers s = Some l ∧ Forall cached_ok l ∧ chained link (header <$> l)
    ∧ from_option (fun h => number (header h) = start_block_num s) True (head l).

Definition good (s : HeaderSlice) : Prop :=
  match status s with
  | Status.Downloaded => ∃ l, headers s = Some l ∧ Forall cached_ok l
  | Status.VerifiedInternally => internally_linked s
  | _ => True
  end.

Definition slice_step (s s' : HeaderSlice) : Prop :=
  s = s' ∨ loose (status s) ∧ loose (status s') ∧ start_block_num s' = start_block_num s ∧ (good s → good s').

#[export] Instance slice_step_preorder : PreOrder slice_step.
Proof.
  split; [by left|]. intros s1 s2 s3 [->|(H1 & H2 & H3 & H4)] [->|(H5 & H6 & H7 & H8)]; [by left|by right|by right|].
  right. split_and!; [done|done|congruence|auto].
Qed.

(** Steps of the window that only change loose slices. *)
Record rest_step (w w' : HeaderSlices) : Prop := {
  rest_slices : Forall2 slice_step (slices w) (slices w');
  rest_max : max_slices w' = max_slices w;
  rest_end : max_block_num w' = max_block_num w;
  rest_final : final_block_num w' = final_block_num w;
  rest_counts : counts_ok w → counts_ok w'
}.

#[export] Instance rest_step_preorder : PreOrder rest_step.
Proof.
  split; [by split|]. intros w1 w2 w3 [H1 H2 H3 H4 H5] [H6 H7 H8 H9 H10].
  split; [by trans (slices w2)|congruence|congruence|congruence|auto].
Qed.

Lemma rest_lookup w w' i s : rest_step w w' → slices w !! i = Some s → ∃ s', slices w' !! i = Some s' ∧ slice_step s s'.
Proof. intros [Hs _ _ _ _] Hi. by eapply Forall2_lookup_l. Qed.

Lemma forall2_alter (l : list HeaderSlice) i f :
  (∀ s, l !! i = Some s → slice_step s (f s)) → Forall2 slice_step l (alter f i l).
Proof.
  intros Hf. apply Forall2_same_length_lookup. split; [by rewrite length_alter|]. intros j x y Hx. rewrite list_lookup_alter.
  case_decide as Hij; [subst; rewrite Hx|rewrite Hx; intros [= <-]; by left]. intros [= <-]. by apply Hf.
Qed.

Lemma update_rest w i f :
  (∀ s, status (f s) = status s) → (∀ s, slices w !! i = Some s → slice_step s (f s)) → rest_step w (update_slice_at i f w).
Proof. intros Hs Hf. split; [by apply forall2_alter|done|done|done|by apply update_counts_ok]. Qed.

Lemma set_status_slices i st (w : HeaderSlices) s :
  slices w !! i = Some s → slices (set_slice_status i st w) = alter (with_status st) i (slices w).
Proof.
  intros Hi. unfold set_slice_status. rewrite Hi. case_decide as Hst; [|done].
  destruct (slice_split _ _ _ Hi) as (l1 & l2 & -> & _ & ->). subst st. by destruct s.
Qed.

Lemma set_status_fields i st (w : HeaderSlices) :
  max_slices (set_slice_status i st w) = max_slices w ∧ max_block_num (set_slice_status i st w) = max_block_num w
  ∧ final_block_num (set_slice_status i st w) = final_block_num w.
Proof. unfold set_slice_status. destruct (slices w !! i); [by case_decide|done]. Qed.

Lemma set_status_rest w i st :
  (∀ s, slices w !! i = Some s → slice_step s (with_status st s)) → rest_step w (set_slice_status i st w).
Proof.
  intros Hst. pose proof (set_status_fields i st w) as (? & ? & ?). split; [|done|done|done|by apply set_status_counts_ok].
  destruct (slices w !! i) as [s|] eqn:Hi.
  - rewrite (set_status_slices _ _ _ _ Hi). apply forall2_alter. intros s' Hs'. apply Hst. congruence.
  - unfold set_slice_status. by rewrite Hi.
Qed.

(** A change of a slice, and of its status. *)
Lemma change_rest w i st f s :
  slices w !! i = Some s → (∀ s, status (f s) = status s) → slice_step s (with_status st (f s)) →
  rest_step w (set_slice_status i st (update_slice_at i f w)).
Proof.
  intros Hi Hf Hs. pose proof (set_status_fields i st (update_slice_at i f w)) as (? & ? & ?). split; [|done|done|done|].
  - assert (slices (update_slice_at i f w) !! i = Some (f s)) as Hi'.
    { cbn [update_slice_at slices with_slices]. by rewrite list_lookup_alter, decide_True, Hi. }
    rewrite (set_status_slices _ _ _ _ Hi'). cbn [update_slice_at slices with_slices].
    rewrite list_alter_alter_eq. apply forall2_alter. intros s' Hs'. assert (s' = s) as -> by congruence. done.
  - intros Hw. by apply set_status_counts_ok, update_counts_ok.
Qed.

(** Loops over all slices. *)
Lemma for_each_rest f w :
  (∀ w i s, slices w !! i = Some s → rest_step w (f i s w)) → rest_step w (for_each_slice f w).
Proof.
  intros Hf. unfold for_each_slice. generalize (seq 0 (length (slices w))). intros l. revert w.
  induction l as [|i l IH]; intros w; [done|]. cbn [foldl]. etrans; [|apply IH].
  destruct (slices w !! i) as [s|] eqn:Hi; [by apply Hf|done].
Qed.

Lemma request_rest limit send now n : ∀ i id w id' w',
  request_loop limit send now n i id w = Ok (id', w') → rest_step w w'.
Proof.
  induction n as [|n IH]; intros i id w id' w'; cbn [request_loop]; [by intros [= _ <-]|].
  destruct (slices w !! i) as [s|] eqn:Hi; [|by intros [= _ <-]].
  case_decide as Hst; [|by intros ?%IH]. destruct (send _); try done; [|by intros [= _ <-]].
  intros Hr%IH. etrans; [|exact Hr]. eapply change_rest; [exact Hi|done|]. right. rewrite Hst. split_and!; done.
Qed.

Lemma receive_rest message peer w : rest_step w (on_headers_message message peer w).
Proof.
  unfold on_headers_message. destruct message as [|first message]; [done|].
  destruct (find_by_start_block_num _ w) as [i|]; [|done]. destruct (slices w !! i) as [s|] eqn:Hi; [|done].
  case_decide as Hst; [|done]. eapply change_rest; [exact Hi|done|]. right. rewrite Hst. split_and!; [done|done|done|].
  intros _. exists (cached_of <$> first :: message). split; [done|]. apply Forall_fmap, Forall_forall. intros h _. apply cached_of_ok.
Qed.

Lemma retry_rest now w : rest_step w (retry_pending now w).
Proof.
  apply for_each_rest. clear w. intros w i s Hi. case_bool_decide as Hst; cbn [andb]; [|done].
  destruct (is_waiting_timeout_expired s now); [|done]. eapply change_rest; [exact Hi|done|]. right. rewrite Hst. split_and!; done.
Qed.

Lemma penalize_rest w : rest_step w (reset_invalid w).
Proof.
  apply for_each_rest. clear w. intros w i s Hi. case_decide as Hst; [|done].
  trans (set_slice_status i Status.Empty w).
  - apply set_status_rest. intros s' Hs'. assert (s' = s) as -> by congruence. right. rewrite Hst. split_and!; done.
  - apply update_rest; [done|]. intros s' Hs'. rewrite (set_status_slices _ _ _ _ Hi), list_lookup_alter, decide_True, Hi in Hs' by done.
    injection Hs' as <-. right. split_and!; done.
Qed.

(** ** Verification *)

Lemma batch_found st size n i l : Forall (fun j => ∃ s, (i ≤ j)%nat ∧ l !! (j - i)%nat = Some s ∧ status s = st) (find_batch st size n i l).
Proof.
  revert n i. induction l as [|s l IH]; intros n i; [constructor|]. cbn [find_batch].
  assert (∀ n, Forall (fun j => ∃ s', (i ≤ j)%nat ∧ (s :: l) !! (j - i)%nat = Some s' ∧ status s' = st) (find_batch st size n (S i) l)) as Hl.
  { intros n'. eapply Forall_impl; [apply IH|]. intros j (s' & Hj & Hs & ?). exists s'. split_and!; [lia| |done].
    by replace (j - i)%nat with (S (j - S i)) by lia. }
  case_decide; [|apply Hl]. constructor; [exists s; by rewrite Nat.sub_diag|]. destruct (_ =? _)%nat; [constructor|apply Hl].
Qed.

Lemma batch_nodup st size l : ∀ n i, NoDup (find_batch st size n i l).
Proof.
  induction l as [|s l IH]; intros n i; [constructor|]. cbn [find_batch]. case_decide; [|apply IH].
  constructor; [|destruct (_ =? _)%nat; [constructor|apply IH]].
  destruct (_ =? _)%nat; [apply not_elem_of_nil|]. intros Hin. pose proof (batch_found st size (S n) (S i) l) as Hf.
  rewrite Forall_forall in Hf. destruct (Hf _ Hin) as (? & ? & _). lia.
Qed.

Lemma prepare_good s : good s → good (prepare_slice_hashes s).
Proof.
  assert (∀ l, Forall cached_ok l → Forall cached_ok (hash_prepare <$> l) ∧ header <$> (hash_prepare <$> l) = header <$> l) as Hp.
  { induction 1 as [|h l Hh Hl [IH1 IH2]]; [done|]. destruct (hash_prepare_ok h Hh) as [? He]. split; [by constructor|]. rewrite !fmap_cons. f_equal; [exact He|exact IH2]. }
  unfold good. cbn [status prepare_slice_hashes with_headers]. destruct (status s); try done.
  - intros (l & Hl & Hok). exists (hash_prepare <$> l). cbn [headers prepare_slice_hashes with_headers]. rewrite Hl. by destruct (Hp l Hok).
  - intros (l & Hl & Hok & Hc & Hn). exists (hash_prepare <$> l). cbn [headers start_block_num prepare_slice_hashes with_headers]. rewrite Hl.
    destruct (Hp l Hok) as [? Heq]. rewrite Heq. split_and!; [done|done|done|].
    destruct l as [|h l]; [done|]. rewrite !fmap_cons in Heq. cbn [fmap list_fmap head from_option] in *. apply (f_equal head) in Heq. injection Heq as Hh. by rewrite <- Hn, <- Hh.
Qed.

(** The slices of the batch, as they are verified. *)
Lemma parallel_spec now batch : ∀ w verdicts w',
  NoDup batch → verify_slices_parallel spec now batch w = Ok (verdicts, w') →
  length verdicts = length batch
  ∧ (∀ i s, slices w !! i = Some s → i ∉ batch → slices w' !! i = Some s)
  ∧ (∀ i v, (i, v) ∈ zip batch verdicts → ∃ s, slices w !! i = Some s ∧ slices w' !! i = Some (prepare_slice_hashes s)
                          ∧ verify_downloaded spec now (prepare_slice_hashes s) = Ok v)
  ∧ ((∀ i s, i ∈ batch → slices w !! i = Some s → loose (status s)) → rest_step w w').
Proof.
  induction batch as [|i batch IH]; intros w verdicts w' Hnd; cbn [verify_slices_parallel]; cbv zeta.
  { intros [= <- <-]. split_and!; try done. by intros ? ? ?%elem_of_nil. }
  apply NoDup_cons in Hnd as [Hni Hnd]. set (w1 := update_slice_at i prepare_slice_hashes w).
  assert (∀ j, slices w1 !! j = if decide (i = j) then prepare_slice_hashes <$> slices w !! i else slices w !! j) as Hw1.
  { intros j. apply list_lookup_alter. }
  intros Hr. destruct (slices w1 !! i) as [s1|] eqn:Hi1; [|done]. cbn [unwrap] in Hr. rewrite ok_bind in Hr.
  rewrite Hw1, decide_True in Hi1 by done. destruct (slices w !! i) as [s|] eqn:Hi; [|done]. injection Hi1 as <-.
  apply res_bind_ok in Hr as (v & Hv & Hr). apply res_bind_ok in Hr as ([vs w2] & Hp & [= <- <-]).
  destruct (IH _ _ _ Hnd Hp) as (H1 & H2 & H3 & H4). split_and!.
  - cbn. by rewrite H1.
  - intros j sj Hj Hnj. rewrite not_elem_of_cons in Hnj. apply H2; [|tauto]. rewrite Hw1, decide_False by naive_solver. done.
  - intros j vj. cbn [zip zip_with]. intros [[= -> ->]|Hin]%elem_of_cons.
    + exists s. split_and!; [done| |done]. apply H2; [|done]. by rewrite Hw1, decide_True by done.
    + destruct (H3 _ _ Hin) as (sj & Hj & Hj' & Hvj). exists sj. split_and!; [|done|done].
      rewrite Hw1, decide_False in Hj; [done|]. intros ->. apply Hni. by eapply elem_of_zip_l.
  - intros Hl. trans w1.
    + apply update_rest; [done|]. intros s' Hs'. assert (s' = s) as -> by congruence.
      right. assert (loose (status s)) by (eapply Hl; [left|done]). split_and!; [done|done|done|apply prepare_good].
    + apply H4. intros j sj Hj. rewrite Hw1, decide_False by (by intros ->). apply Hl. by right.
Qed.

(** Statuses set from verdicts on headers that are known. *)
Lemma set_verdicts_rest good_status l : ∀ w,
  NoDup l.*1 → loose good_status →
  (∀ i v, (i, v) ∈ l → ∃ s, slices w !! i = Some s ∧ loose (status s)
     ∧ (v = true → good s → good (with_status good_status s))) →
  rest_step w (foldl (set_verified good_status) w l).
Proof.
  induction l as [|[i v] l IH]; intros w Hnd Hgs Hl; [done|]. cbn [foldl fmap list_fmap fst] in *.
  apply NoDup_cons in Hnd as [Hni Hnd]. destruct (Hl i v) as (s & Hi & Hs & Hg); [left|].
  etrans; [|apply IH; [done|done|]].
  - unfold set_verified. cbn [fst snd]. apply set_status_rest. intros s' Hs'. assert (s' = s) as -> by congruence.
    right. split; [done|]. split; [by destruct v|]. split; [done|]. destruct v; [by apply Hg|done].
  - intros j vj Hj. destruct (Hl j vj) as (sj & Hsj & ?); [by right|]. exists sj. split; [|done].
    unfold set_verified. cbn [fst snd]. rewrite (set_status_slices _ _ _ _ Hi), list_lookup_alter, decide_False; [done|].
    intros ->. apply Hni, list_elem_of_fmap. by exists (j, vj).
Qed.

Lemma verified_good now s :
  status s = Status.Downloaded → verify_downloaded spec now s = Ok true → good s → good (with_status Status.VerifiedInternally s).
Proof.
  intros Hst Hv Hg. unfold good in Hg. rewrite Hst in Hg. destruct Hg as (l & Hl & Hok). exists l.
  unfold verify_downloaded in Hv. rewrite Hl in Hv. apply slice_verified in Hv as [Hc Hn]; [|done]. by split_and!.
Qed.

Lemma verify_batch_rest now num_cpus w w' : verify_batch spec now num_cpus w = Ok w' → rest_step w w'.
Proof.
  unfold verify_batch. cbv zeta. set (batch := find_batch_by_status _ _ w). intros Hr.
  apply res_bind_ok in Hr as ([verdicts w1] & Hp & [= <-]).
  assert (NoDup batch) as Hnd by apply batch_nodup.
  assert (∀ i, i ∈ batch → ∃ s, slices w !! i = Some s ∧ status s = Status.Downloaded) as Hd.
  { intros i Hi. pose proof (batch_found Status.Downloaded num_cpus 0 0 (slices w)) as Hf. rewrite Forall_forall in Hf.
    destruct (Hf i Hi) as (s & _ & Hs & ?). rewrite Nat.sub_0_r in Hs. eauto. }
  destruct (parallel_spec _ _ _ _ _ Hnd Hp) as (Hlen & _ & H2 & H3).
  trans w1; [apply H3; intros i s Hi Hs; destruct (Hd i Hi) as (s' & Hs' & Hst); by replace s with s' by congruence; rewrite Hst|].
  apply set_verdicts_rest; [|done|].
  - by rewrite fst_zip by lia.
  - intros i v Hin. destruct (H2 _ _ Hin) as (s & Hi & Hi' & Hv). exists (prepare_slice_hashes s).
    assert (status s = Status.Downloaded) as Hst.
    { destruct (Hd i) as (s' & Hs' & ?); [by eapply elem_of_zip_l|]. by replace s with s' by congruence. }
    split_and!; [done|cbn; by rewrite Hst|]. intros ->. apply (verified_good now); [by cbn|done].
Qed.

Lemma verify_loop_rest now num_cpus fuel : ∀ w w', verify_loop spec now fuel num_cpus w = Ok w' → rest_step w w'.
Proof.
  induction fuel as [|fuel IH]; intros w w'; cbn [verify_loop]; [by intros [= <-]|]. case_bool_decide; [by intros [= <-]|].
  intros (w1 & H1%verify_batch_rest & H2%IH)%res_bind_ok. by trans w1.
Qed.

End steps.
