(* ===== verification/LinearDownload.v ===== *)
(** * LinearDownload

    [src/src/downloader/headers_downloader/downloader_linear.rs] and
    [downloader_stage_loop.rs]: the linear phase of the header download. Its
    stages run concurrently on one window; a step is one execution of a
    stage, or one turn of the loops that wait for threads or for the
    database in between. Answers of peers are arbitrary. *)

From S2P Require Import Prelude Words Errors ChainSpec Transaction Block Rlp TransactionRlp BlockRlp Database HeaderSlices SliceVerifier DownloadStages.

(** The window, the fields of the stages, and the tables. [penalized]: the
    sets of peers that were penalized, last first. *)
Record Download : Type := mkDownload {
  window : HeaderSlices;
  last_verified_header : option CachedHeader;
  link_remaining_count : Z;
  save_remaining_count : Z;
  is_over : bool;
  last_request_id : Z;
  tables : Database;
  penalized : list (gset Z)
}.

Definition with_window (w : HeaderSlices) (s : Download) : Download :=
  mkDownload w (last_verified_header s) (link_remaining_count s) (save_remaining_count s) (is_over s)
    (last_request_id s) (tables s) (penalized s).

Record DownloaderLinearReport : Type := mkReport {
  loaded_count : Z;
  report_final_block_num : Z;
  target_final_block_num : Z;
  estimated_top_block_num : Z
}.

(** Executions of the stages. [VerifySlicesTurn] and [SaveTurn] are single
    turns of executions that others interleave. *)
Inductive Execution : Type :=
| FetchRequest (send : GetBlockHeaders → SendOutcome) (now : Z)
| FetchReceive (message : option (list BlockHeader * option Z))
| Retry (now : Z)
| VerifySlices (num_cpus : nat) (now : Z → Z)
| VerifySlicesTurn (num_cpus : nat) (now : Z → Z)
| VerifyLinkLinear
| Penalize (penalize_peers : gset Z → result unit)
| Save
| SaveTurn
| Refill.

Section linear.
Context {R : Rlp} {H : Hashing} {V : HeaderSliceVerifier}.
Variables (spec : ChainSpec) (genesis_block_hash : Z).

Definition execute_verify_link (s : Download) : result Download :=
  let pending_count := count_slices_in_status Status.VerifiedInternally (window s) in
  '(updated_count, (last, w)) ←
    link_pending spec genesis_block_hash Status.Invalid (Z.to_nat pending_count) (last_verified_header s) (window s);
  Ok (mkDownload w last (u64_sub pending_count (Z.of_nat updated_count)) (save_remaining_count s) (is_over s)
        (last_request_id s) (tables s) (penalized s)).

Definition save_result (remaining : Z) (s : Download) (r : HeaderSlices * Database) : Download :=
  mkDownload r.1 (last_verified_header s) (link_remaining_count s) remaining (is_over s) (last_request_id s) r.2
    (penalized s).

Definition execute_save (s : Download) : result Download :=
  let pending_count := count_slices_in_status Status.Verified (window s) in
  '(saved_count, r) ← save_pending_monotonic true (Z.to_nat pending_count) (window s) (tables s);
  Ok (save_result (u64_sub pending_count (Z.of_nat saved_count)) s r).

Definition execute (e : Execution) (s : Download) : result Download :=
  match e with
  | FetchRequest send now =>
      '(id, w) ← request_pending slice_size send now (last_request_id s) (window s);
      Ok (mkDownload w (last_verified_header s) (link_remaining_count s) (save_remaining_count s) (is_over s)
            id (tables s) (penalized s))
  | FetchReceive (Some (message, peer)) => Ok (with_window (on_headers_message message peer (window s)) s)
  | FetchReceive None =>
      Ok (mkDownload (window s) (last_verified_header s) (link_remaining_count s) (save_remaining_count s) true
            (last_request_id s) (tables s) (penalized s))
  | Retry now => Ok (with_window (retry_pending now (window s)) s)
  | VerifySlices num_cpus now => w ← verify_pending spec now num_cpus (window s); Ok (with_window w s)
  | VerifySlicesTurn num_cpus now => w ← verify_batch spec now num_cpus (window s); Ok (with_window w s)
  | VerifyLinkLinear => execute_verify_link s
  | Penalize penalize_peers =>
      let bad_peers := collect_bad_peers (window s) in
      penalize_peers bad_peers;;
      Ok (mkDownload (reset_invalid (window s)) (last_verified_header s) (link_remaining_count s)
            (save_remaining_count s) (is_over s) (last_request_id s) (tables s) (bad_peers :: penalized s))
  | Save => execute_save s
  | SaveTurn =>
      '(_, r) ← save_pending_monotonic true 1 (window s) (tables s);
      Ok (save_result (save_remaining_count s) s r)
  | Refill => Ok (with_window (refill_pending (window s)) s)
  end.

Definition step (s s' : Download) : Prop := ∃ e, execute e s = Ok s'.

(** [is_over_check] and the disjunction of the [can_proceed_check]s. *)
Definition is_over_check (s : Download) : bool := is_empty_at_final_position (window s).

Definition some_stage_can_proceed (s : Download) : bool :=
  contains_status Status.Empty (window s)
  || (negb (is_over s) && contains_status Status.Waiting (window s))
  || false
  || contains_status Status.Downloaded (window s)
  || contains_status Status.VerifiedInternally (window s)
  || contains_status Status.Invalid (window s)
  || negb (count_slices_in_status Status.Verified (window s) =? save_remaining_count s)
  || contains_status Status.Saved (window s).

(** [DownloaderLinear::run] up to the loop over the stages. *)
Inductive Started : Type :=
| NothingToLoad (report : DownloaderLinearReport)
| Running (target_final_block_num : Z) (s : Download).

Definition trusted_len : Z := 90000.

Definition linear_target (estimated_top : Z) : Z :=
  if trusted_len <? estimated_top then align_block_num_to_slice_start (estimated_top - trusted_len) else 0.

Definition start_linear (header_size mem_limit : nat) (start_block_num max_blocks_count estimated_top : Z) (d : Database) :
    result Started :=
  if negb (is_block_num_aligned_to_slice_start start_block_num) then Err (Bail "expected an aligned start block")
  else
    let target := linear_target estimated_top in
    let final := Z.min target (align_block_num_to_slice_start (u64_add start_block_num max_blocks_count)) in
    if final <=? start_block_num then Ok (NothingToLoad (mkReport 0 start_block_num target estimated_top))
    else
      let start_block_parent_num := if 0 <? start_block_num then Some (start_block_num - 1) else None in
      let start_block_parent_header := n ← start_block_parent_num; load_canonical_header_by_num n d in
      match start_block_parent_num, start_block_parent_header with
      | Some _, None => Err (Bail "expected a saved parent header")
      | _, _ =>
          w ← new_slices header_size mem_limit start_block_num final;
          match start_block_parent_header with
          | Some h =>
              if u64_add (number (header h)) 1 =? min_block_num w then Ok tt else Panic
          | None => Ok tt
          end;;
          let last := match find_last_verified_header w with Some h => Some h | None => start_block_parent_header end in
          Ok (Running target (mkDownload w last 0 0 false 0 d []))
      end.

Definition report_of (start_block_num target estimated_top : Z) (s : Download) : DownloaderLinearReport :=
  mkReport (u64_sub (min_block_num (window s)) start_block_num) (min_block_num (window s)) target estimated_top.

End linear.
