(* ===== verification/LinearSafety.v ===== *)
(** * LinearSafety

    The linear phase of the header download only ever saves a chain: the
    invariant of the window, the headers and the tables, and that each step
    of [LinearDownload] keeps it, whatever peers answer. *)

From S2P Require Import Prelude Words Errors ChainSpec Transaction Block Rlp TransactionRlp BlockRlp Database HeaderSlices SliceVerifier DownloadStages DownloadSteps LinearDownload.

Section chain.
Context {R : Rlp} {H : Hashing} {V : HeaderSliceVerifier}.
Variables (spec : ChainSpec) (genesis_block_hash : Z).
Variable link : BlockHeader → BlockHeader → Prop.
Context {VL : VerifierLaws V spec link}.

(** ** Chains of headers *)

(** The genesis block has no parent. *)
Definition linked_to (parent : option BlockHeader) (h : BlockHeader) : Prop :=
  match parent with
  | Some p => link h p
  | None => number h = 0 ∧ header_hash h = genesis_block_hash
  end.

Fixpoint follows (parent : option BlockHeader) (l : list BlockHeader) : Prop :=
  match l with
  | [] => True
  | h :: l => linked_to parent h ∧ follows (Some h) l
  end.

Definition last_or (parent : option BlockHeader) (l : list BlockHeader) : option BlockHeader :=
  match last l with Some h => Some h | None => parent end.

Definition first_number (parent : option BlockHeader) : Z :=
  match parent with Some p => u64_add (number p) 1 | None => 0 end.

Lemma last_or_cons parent h l : last_or parent (h :: l) = last_or (Some h) l.
Proof. unfold last_or. rewrite last_cons. by destruct (last l). Qed.

Lemma last_or_app parent l1 l2 : last_or parent (l1 ++ l2) = last_or (last_or parent l1) l2.
Proof. unfold last_or. rewrite last_app. destruct (last l2); [done|by destruct (last l1)]. Qed.

Lemma follows_app parent l1 l2 : follows parent (l1 ++ l2) ↔ follows parent l1 ∧ follows (last_or parent l1) l2.
Proof.
  revert parent. induction l1 as [|h l1 IH]; intros parent; [cbn; tauto|]. cbn [app follows]. rewrite IH, last_or_cons. tauto.
Qed.

Lemma chained_follows l : ∀ h parent, chained link (h :: l) → linked_to parent h → follows parent (h :: l).
Proof.
  induction l as [|h' l IH]; intros h parent Hc Hh; [done|]. unfold chained, enumerate_sequential_pairs in Hc. cbn [zip zip_with tail] in Hc.
  apply Forall_cons in Hc as [Hl Hc]. split; [done|]. by apply IH.
Qed.

Lemma linked_number parent h : linked_to parent h → number h = first_number parent.
Proof. destruct parent; cbn; [apply link_number|by intros [-> _]]. Qed.

Lemma follows_number start l : ∀ parent k h,
  follows parent l → first_number parent = start → 0 ≤ start → start + Z.of_nat (length l) < 2 ^ 64 → l !! k = Some h →
  number h = start + Z.of_nat k.
Proof.
  revert start. induction l as [|h0 l IH]; intros start parent k h Hf Hs H0 Hb Hk; [done|]. destruct Hf as [Hl Hf].
  apply linked_number in Hl. destruct k as [|k]; [injection Hk as <-; lia|]. cbn [length] in Hb. cbn [lookup list_lookup] in Hk.
  rewrite (IH (start + 1) (Some h0) k h Hf); [lia| |lia|lia|done].
  cbn [first_number]. rewrite Hl, Hs. apply u64_add_small. unfold is_word. apply lookup_lt_Some in Hk. lia.
Qed.

(** ** Saved chains *)

Variables (parent : option BlockHeader) (start target : Z) (d0 : Database).
Hypothesis Hstart : first_number parent = start.
Hypothesis Hstart0 : 0 ≤ start.
Hypothesis Hgenesis : parent = None → start = 0.
Hypothesis Hparent : is_Some parent → 0 < start.

(** The total difficulty behind the parent. *)
Definition parent_total : option Z :=
  match parent with
  | None => Some 0
  | Some p => HeadersTotalDifficulty d0 !! (start - 1, header_hash p)
  end.

Definition total_of (t : Z) (l : list BlockHeader) : Z := foldl (fun t h => u256_add t (difficulty h)) t l.

(** [l] is the canonical chain from [start] on, and the rest is as it was
    before. *)
Record saved_chain (d : Database) (l : list BlockHeader) : Prop := {
  saved_canonical k h : l !! k = Some h → CanonicalHeader d !! (start + Z.of_nat k) = Some (header_hash h);
  saved_header k h : l !! k = Some h → Header d !! (start + Z.of_nat k, header_hash h) = Some h;
  saved_total k h t : l !! k = Some h → parent_total = Some t →
    HeadersTotalDifficulty d !! (start + Z.of_nat k, header_hash h) = Some (total_of t (take (S k) l));
  saved_last h : last l = Some h → LastHeader d = Some (header_hash h);
  saved_outside n : n < start ∨ start + Z.of_nat (length l) ≤ n → CanonicalHeader d !! n = CanonicalHeader d0 !! n;
  saved_total_below n x : n < start → HeadersTotalDifficulty d !! (n, x) = HeadersTotalDifficulty d0 !! (n, x)
}.

Lemma saved_nothing : saved_chain d0 [].
Proof. split; done. Qed.

Lemma parent_total_difficulty d l h t :
  saved_chain d l → follows parent (l ++ [header h]) → start + Z.of_nat (length l) < 2 ^ 64 → parent_total = Some t →
  number (header h) = start + Z.of_nat (length l) →
  read_parent_header_total_difficulty h d = Some (total_of t l).
Proof.
  intros Hs Hf Hb Ht Hn. unfold read_parent_header_total_difficulty. rewrite Hn.
  apply follows_app in Hf as [_ [Hl _]]. destruct (last l) as [p|] eqn:El.
  - assert (l ≠ []) as Hne by (by intros ->). assert (l !! (length l - 1)%nat = Some p) as Hp.
    { rewrite last_lookup in El. by rewrite Nat.sub_1_r. }
    assert (0 < length l)%nat as Hlen by (destruct l; [done|cbn; lia]).
    rewrite (proj2 (Z.eqb_neq _ _)) by lia.
    unfold last_or in Hl. rewrite El in Hl. rewrite (link_parent _ _ Hl).
    pose proof (saved_total _ _ Hs _ _ _ Hp Ht) as Htot.
    replace (start + Z.of_nat (length l) - 1) with (start + Z.of_nat (length l - 1)) by lia.
    rewrite Htot. f_equal. f_equal. apply firstn_all2. lia.
  - apply last_None in El as ->. cbn [length] in *. cbn in Hl. unfold parent_total in Ht.
    destruct parent as [p|].
    + rewrite (proj2 (Z.eqb_neq _ _)) by (specialize (Hparent ltac:(done)); lia).
      rewrite (link_parent _ _ Hl), Z.add_0_r. by rewrite (saved_total_below _ _ Hs) by lia.
    + rewrite (Hgenesis eq_refl). cbn. by injection Ht as <-.
Qed.

(** The tables behind a header. *)
Lemma save_header_tables d h :
  let n := number (header h) in
  CanonicalHeader (save_header true d h) = <[n := hash h]> (CanonicalHeader d)
  ∧ Header (save_header true d h) = <[(n, hash h) := header h]> (Header d)
  ∧ LastHeader (save_header true d h) = Some (hash h)
  ∧ HeadersTotalDifficulty (save_header true d h)
    = match header_total_difficulty h d with
      | Some t => <[(n, hash h) := t]> (HeadersTotalDifficulty d)
      | None => HeadersTotalDifficulty d
      end.
Proof.
  cbv zeta. unfold save_header, update_canonical_chain_header. cbv zeta.
  assert (∀ c x, header_total_difficulty h (set_LastHeader x (set_CanonicalHeader c d)) = header_total_difficulty h d) as -> by done.
  by destruct (header_total_difficulty h d).
Qed.

Lemma lookup_snoc {A} (l : list A) x k y :
  (l ++ [x]) !! k = Some y → (k = length l ∧ y = x) ∨ ((k < length l)%nat ∧ l !! k = Some y).
Proof.
  intros Hk. destruct (decide (k < length l)%nat) as [Hlt|Hge].
  - right. split; [done|]. by rewrite lookup_app_l in Hk.
  - left. rewrite lookup_app_r in Hk by lia. destruct (k - length l)%nat as [|j] eqn:E; [injection Hk as <-; split; [lia|done]|done].
Qed.

Lemma save_header_chain d l h :
  saved_chain d l → follows parent (l ++ [header h]) → cached_ok h → start + Z.of_nat (length l) + 1 < 2 ^ 64 →
  saved_chain (save_header true d h) (l ++ [header h]).
Proof.
  intros Hs Hf [_ Hh] Hb.
  assert (number (header h) = start + Z.of_nat (length l)) as Hn.
  { eapply (follows_number start (l ++ [header h]) parent); [done|done|done|rewrite length_app; cbn; lia|].
    rewrite lookup_app_r, Nat.sub_diag by lia. done. }
  destruct (save_header_tables d h) as (Tc & Th & Tl & Tt). rewrite Hn, Hh in *. split.
  - intros k h' [[-> ->]|[Hk Hl]]%lookup_snoc; rewrite Tc; [by rewrite lookup_insert_eq|].
    rewrite lookup_insert_ne by lia. by apply (saved_canonical _ _ Hs).
  - intros k h' [[-> ->]|[Hk Hl]]%lookup_snoc; rewrite Th; [by rewrite lookup_insert_eq|].
    rewrite lookup_insert_ne by (intros [=]; lia). by apply (saved_header _ _ Hs).
  - intros k h' t Hk Ht. rewrite Tt. unfold header_total_difficulty.
    rewrite (parent_total_difficulty d l h t Hs Hf) by (first [done|lia]). cbn.
    apply lookup_snoc in Hk as [[-> ->]|[Hk Hl]].
    + rewrite lookup_insert_eq. f_equal. rewrite firstn_all2 by (rewrite length_app; cbn; lia).
      unfold total_of. by rewrite foldl_app.
    + rewrite lookup_insert_ne by (intros [=]; lia). rewrite take_app_le by lia. by apply (saved_total _ _ Hs).
  - intros h'. rewrite last_snoc, Tl. by intros [= <-].
  - intros n. rewrite length_app. cbn [length]. intros Hout. rewrite Tc, lookup_insert_ne by lia. apply (saved_outside _ _ Hs). lia.
  - intros n x Hlt. rewrite Tt. assert (HeadersTotalDifficulty d !! (n, x) = HeadersTotalDifficulty d0 !! (n, x)) as Hd.
    { by apply (saved_total_below _ _ Hs). }
    destruct (header_total_difficulty h d); [|done]. rewrite lookup_insert_ne; [done|]. intros [=]. lia.
Qed.

Lemma save_headers_chain m : ∀ d l,
  saved_chain d l → follows parent (l ++ (header <$> m)) → Forall cached_ok m →
  start + Z.of_nat (length l + length m) < 2 ^ 64 →
  saved_chain (save_headers true m d) (l ++ (header <$> m)).
Proof.
  induction m as [|h m IH]; intros d l Hs Hf Hok Hb; [by rewrite app_nil_r|]. apply Forall_cons in Hok as [Hh Hok].
  rewrite fmap_cons in *. cbn [save_headers foldl].
  rewrite (cons_middle (header h) l), app_assoc in *. cbn [length] in Hb. apply IH; [|done|done|rewrite length_app; cbn; lia].
  apply save_header_chain; [done| |done|lia]. by apply follows_app in Hf as [Hf _].
Qed.

(** ** The window *)

Fixpoint consecutive (b : Z) (l : list HeaderSlice) : Prop :=
  match l with
  | [] => True
  | s :: l => start_block_num s = b ∧ consecutive (b + slice_size) l
  end.

(** A verified slice holds all its headers. *)
Definition complete (s : HeaderSlice) : Prop :=
  status s = Status.Verified ∧ ∃ l, headers s = Some l ∧ Forall cached_ok l ∧ length l = HEADER_SLICE_SIZE.

Definition headers_of (s : HeaderSlice) : list BlockHeader :=
  match headers s with Some l => header <$> l | None => [] end.

Definition span (l : list HeaderSlice) : Z := slice_size * Z.of_nat (length l).

(** The slices of a window are consecutive, from where the download has got
    to, and end at a boundary not after the final block. *)
Record placed (w : HeaderSlices) : Prop := {
  at_consecutive : consecutive (min_block_num w) (slices w);
  at_end : max_block_num w = min_block_num w + span (slices w);
  at_begin : start ≤ min_block_num w;
  at_final : max_block_num w ≤ final_block_num w;
  at_aligned : (slice_size | final_block_num w - max_block_num w);
  at_target : final_block_num w ≤ target;
  at_word : final_block_num w < 2 ^ 64;
  at_filled : max_slices w ≠ 0%nat → slices w = [] → final_block_num w ≤ max_block_num w;
  at_counts : counts_ok w
}.

(** The slices that are saved, then those that are verified, then the rest;
    [done] is saved, [pending] is not yet. *)
Record linear_inv (w : HeaderSlices) (lv : option CachedHeader) (d : Database)
    (saved verified rest : list HeaderSlice) (done pending : list BlockHeader) : Prop := {
  inv_slices : slices w = saved ++ verified ++ rest;
  inv_saved : Forall (fun s => status s = Status.Saved) saved;
  inv_verified : Forall complete verified;
  inv_rest : Forall (fun s => loose (status s) ∧ good link s) rest;
  inv_placed : placed w;
  inv_chain : follows parent (done ++ pending);
  inv_done : start + Z.of_nat (length done) = min_block_num w + span saved;
  inv_pending : pending = mjoin (headers_of <$> verified);
  inv_last : header <$> lv = last_or parent (done ++ pending);
  inv_cached : from_option cached_ok True lv;
  inv_tables : saved_chain d done
}.

Definition safe (w : HeaderSlices) (lv : option CachedHeader) (d : Database) : Prop :=
  ∃ saved verified rest done pending, linear_inv w lv d saved verified rest done pending.

Lemma span_app l1 l2 : span (l1 ++ l2) = span l1 + span l2.
Proof. unfold span. rewrite length_app. lia. Qed.

Lemma span_cons s l : span (s :: l) = slice_size + span l.
Proof. unfold span. cbn [length]. lia. Qed.

Lemma span_nonneg l : 0 ≤ span l.
Proof. unfold span, slice_size. lia. Qed.

Lemma consecutive_app b l1 l2 : consecutive b (l1 ++ l2) ↔ consecutive b l1 ∧ consecutive (b + span l1) l2.
Proof.
  revert b. induction l1 as [|s l1 IH]; intros b; cbn [app consecutive].
  - unfold span. cbn. rewrite Z.mul_0_r, Z.add_0_r. tauto.
  - rewrite IH, span_cons. replace (b + (slice_size + span l1)) with (b + slice_size + span l1) by lia. tauto.
Qed.

Lemma pending_length verified : Forall complete verified → Z.of_nat (length (mjoin (headers_of <$> verified))) = span verified.
Proof.
  induction 1 as [|s l [_ (hs & Hh & _ & Hlen)] _ IH]; [done|]. rewrite fmap_cons. change (mjoin (headers_of s :: ?k)) with (headers_of s ++ mjoin k).
  rewrite length_app, span_cons, Nat2Z.inj_add, IH. unfold headers_of. rewrite Hh, length_fmap, Hlen. done.
Qed.


(** Steps of the loose slices leave the others where they are. *)
Lemma fixed_slices l l' : Forall (fun s => ¬ loose (status s)) l → Forall2 (slice_step link) l l' → l' = l.
Proof.
  intros Hl Hs. induction Hs as [|s s' l l' Hss _ IH]; [done|]. apply Forall_cons in Hl as [Hl Hf].
  rewrite IH by done. f_equal. destruct Hss as [->|(? & _)]; done.
Qed.

Definition same_start (s s' : HeaderSlice) : Prop := start_block_num s' = start_block_num s.

Lemma same_start_refl l : Forall2 same_start l l.
Proof. induction l; by constructor. Qed.

Lemma same_placed w w' :
  Forall2 same_start (slices w) (slices w') → max_slices w' = max_slices w → max_block_num w' = max_block_num w →
  final_block_num w' = final_block_num w → (counts_ok w → counts_ok w') → placed w →
  placed w' ∧ min_block_num w' = min_block_num w.
Proof.
  intros Hs Hm He Hf Hc [H1 H2 H3 H4 H5 HT H6 H7 H8]. pose proof (Forall2_length _ _ _ Hs) as Hlen.
  assert (min_block_num w' = min_block_num w) as Hmin.
  { unfold min_block_num. destruct Hs as [|x y l1 l2 E _]; [done|by rewrite E]. }
  split; [|done]. split; rewrite ?Hmin, ?He, ?Hf, ?Hm; try done.
  - clear -Hs H1. generalize dependent (min_block_num w). induction Hs as [|x y l1 l2 E _ IH]; intros b; [done|].
    cbn [consecutive]. rewrite E. intros [-> ?]. auto.
  - rewrite H2. unfold span. by rewrite Hlen.
  - intros Hne Hnil. apply H7; [done|]. apply length_zero_iff_nil. by rewrite Hlen, Hnil.
  - auto.
Qed.

Lemma rest_placed w w' : rest_step link w w' → placed w → placed w' ∧ min_block_num w' = min_block_num w.
Proof.
  intros [Hs Hm He Hf Hc]. apply same_placed; try done. eapply Forall2_impl; [exact Hs|].
  intros s s' [->|(_ & _ & ? & _)]; done.
Qed.

(** A new status for a slice. *)
Lemma status_placed w l1 s l2 st :
  slices w = l1 ++ s :: l2 → placed w →
  let w' := set_slice_status (length l1) st w in
  slices w' = l1 ++ with_status st s :: l2 ∧ placed w' ∧ min_block_num w' = min_block_num w.
Proof.
  intros Hw Hp. cbv zeta. assert (slices w !! length l1 = Some s) as Hs by (rewrite Hw, lookup_app_r, Nat.sub_diag; done).
  pose proof (set_status_slices _ st w s Hs) as Hsl. rewrite Hw, (alter_app_r_alt _ _ _ (length l1)), Nat.sub_diag in Hsl by done.
  split; [done|]. destruct (set_status_fields (length l1) st w) as (Fm & Fe & Ff).
  apply same_placed; try done; [|by apply set_status_counts_ok]. rewrite Hsl, Hw.
  apply Forall2_app; [apply same_start_refl|]. constructor; [done|apply same_start_refl].
Qed.

Lemma rest_kept w w' lv d saved verified rest done pending :
  rest_step link w w' → linear_inv w lv d saved verified rest done pending →
  ∃ rest', linear_inv w' lv d saved verified rest' done pending.
Proof.
  intros Hr Hi. destruct (rest_placed _ _ Hr) as [Hp Hmin]; [apply Hi|]. destruct Hr as [Hs _ _ _ _].
  rewrite (inv_slices _ _ _ _ _ _ _ _ Hi) in Hs. apply Forall2_app_inv_l in Hs as (l1 & l2 & Hs1 & Hs & E1).
  apply Forall2_app_inv_l in Hs as (l3 & l4 & Hs3 & Hs4 & E2).
  apply fixed_slices in Hs1 as ->; [|eapply Forall_impl; [apply (inv_saved _ _ _ _ _ _ _ _ Hi)|]; intros x ->; by intros []].
  apply fixed_slices in Hs3 as ->; [|eapply Forall_impl; [apply (inv_verified _ _ _ _ _ _ _ _ Hi)|]; intros x [-> _]; by intros []].
  exists l4. destruct Hi. split; try done.
  - by rewrite E1, E2.
  - clear -Hs4 inv_rest0. induction Hs4 as [|s s' l l' Hss _ IH]; [done|]. apply Forall_cons in inv_rest0 as [[Hl Hg] Hf].
    constructor; [|by apply IH]. destruct Hss as [->|(_ & ? & _ & ?)]; [done|]. split; auto.
  - by rewrite Hmin.
Qed.

Lemma rest_safe w w' lv d : rest_step link w w' → safe w lv d → safe w' lv d.
Proof. intros Hr (sa & ve & re & dn & pe & Hi). destruct (rest_kept _ _ _ _ _ _ _ _ _ Hr Hi) as (re' & Hi'). by eexists _, _, _, _, _. Qed.

(** ** Links *)

Lemma find_link_skip i l1 l2 :
  Forall (fun s => ¬ loose (status s) ∧ status s ≠ Status.Fork) l1 → find_next_link i (l1 ++ l2) = find_next_link (i + length l1) l2.
Proof.
  revert i. induction l1 as [|s l1 IH]; intros i Hl; [cbn; by rewrite Nat.add_0_r|]. apply Forall_cons in Hl as [[Hs Hf] Hl].
  cbn [app find_next_link length]. rewrite (IH (S i)) by done. replace (S i + length l1)%nat with (i + S (length l1))%nat by lia.
  destruct (status s); cbn in Hs; tauto || done.
Qed.

Lemma verified_prefix (saved verified : list HeaderSlice) :
  Forall (fun s => status s = Status.Saved) saved → Forall complete verified →
  Forall (fun s => ¬ loose (status s) ∧ status s ≠ Status.Fork) (saved ++ verified).
Proof.
  intros Hs Hv. apply Forall_app. split.
  - eapply Forall_impl; [exact Hs|]. intros x ->. by split; [intros []|].
  - eapply Forall_impl; [exact Hv|]. intros x [-> _]. by split; [intros []|].
Qed.

Lemma find_link_spec w lv d saved verified rest done pending i :
  linear_inv w lv d saved verified rest done pending → find_next_link 0 (slices w) = Some i →
  ∃ s rest', rest = s :: rest' ∧ status s = Status.VerifiedInternally ∧ i = length (saved ++ verified).
Proof.
  intros Hi. rewrite (inv_slices _ _ _ _ _ _ _ _ Hi), app_assoc, find_link_skip by (apply verified_prefix; apply Hi).
  pose proof (inv_rest _ _ _ _ _ _ _ _ Hi) as Hr. destruct rest as [|s rest]; [done|]. cbn [find_next_link].
  apply Forall_cons in Hr as [[Hl _] _]. destruct (status s) eqn:Hs; try done. intros [= <-]. eauto.
Qed.

(** What a verified link shows of the first header of a slice. *)
Lemma slice_linked w lv d saved verified rest done pending s :
  linear_inv w lv d saved verified (s :: rest) done pending → status s = Status.VerifiedInternally →
  verify_slice_link spec genesis_block_hash s lv = Ok true →
  ∃ l h, headers s = Some l ∧ last l = Some h ∧ Forall cached_ok l ∧ length l = HEADER_SLICE_SIZE
    ∧ follows (last_or parent (done ++ pending)) (header <$> l).
Proof.
  intros Hi Hst Hv. pose proof (inv_rest _ _ _ _ _ _ _ _ Hi) as Hr. apply Forall_cons in Hr as [[_ Hg] _].
  unfold good in Hg. rewrite Hst in Hg. destruct Hg as (l & Hl & Hok & Hc & Hn). unfold verify_slice_link in Hv. rewrite Hl in Hv.
  destruct l as [|child l]; [done|]. cbn [head from_option] in Hn.
  destruct (negb (length (child :: l) =? HEADER_SLICE_SIZE)%nat) eqn:Hlen; [done|]. apply negb_false_iff, Nat.eqb_eq in Hlen.
  apply Forall_cons in Hok as Hok'. destruct Hok' as [Hchild _].
  destruct (last (child :: l)) as [h|] eqn:Elast; [|by apply last_None in Elast].
  exists (child :: l), h. split_and!; try done. rewrite fmap_cons. apply chained_follows; [by rewrite <- fmap_cons|].
  assert (start_block_num s = start + Z.of_nat (length (done ++ pending))) as Hnum.
  { pose proof (at_consecutive _ (inv_placed _ _ _ _ _ _ _ _ Hi)) as Hcon. rewrite (inv_slices _ _ _ _ _ _ _ _ Hi), app_assoc in Hcon.
    apply consecutive_app in Hcon as [_ [-> _]]. rewrite span_app, length_app, (inv_pending _ _ _ _ _ _ _ _ Hi), Nat2Z.inj_add.
    rewrite (pending_length verified) by apply Hi. pose proof (inv_done _ _ _ _ _ _ _ _ Hi). lia. }
  pose proof (inv_last _ _ _ _ _ _ _ _ Hi) as Hlast. pose proof (inv_cached _ _ _ _ _ _ _ _ Hi) as Hcached.
  destruct (Z.eqb_spec (number (header child)) 0) as [H0|H0].
  - injection Hv as Hv%Z.eqb_eq. assert (start = 0 ∧ length (done ++ pending) = 0%nat) as [Hz Hnil] by lia.
    apply length_zero_iff_nil in Hnil. rewrite Hnil. unfold last_or. cbn [last].
    destruct parent as [p|]; [specialize (Hparent ltac:(done)); lia|]. split; [done|]. by destruct Hchild as [_ <-].
  - destruct lv as [p|]; [|done]. cbn in Hlast, Hcached. rewrite <- Hlast. cbn. by apply link_verified.
Qed.

Lemma link_inv w lv d saved verified rest done pending s l h :
  linear_inv w lv d saved verified (s :: rest) done pending → status s = Status.VerifiedInternally →
  headers s = Some l → last l = Some h → Forall cached_ok l → length l = HEADER_SLICE_SIZE →
  follows (last_or parent (done ++ pending)) (header <$> l) →
  linear_inv (set_slice_status (length (saved ++ verified)) Status.Verified w) (Some h) d
    saved (verified ++ [with_status Status.Verified s]) rest done (pending ++ (header <$> l)).
Proof.
  intros Hi Hst Hl Hlast Hok Hlen Hf.
  destruct (status_placed w (saved ++ verified) s rest Status.Verified) as (Hsl & Hp & Hmin).
  { rewrite <- app_assoc. apply Hi. }
  { apply Hi. }
  destruct Hi. split; try done.
  - by rewrite Hsl, <- !app_assoc.
  - apply Forall_app. split; [done|]. constructor; [|constructor]. split; [done|]. by exists l.
  - by apply Forall_cons in inv_rest0 as [_ ?].
  - rewrite app_assoc. apply follows_app. by split.
  - by rewrite Hmin.
  - rewrite inv_pending0, fmap_app, join_app. f_equal. change (mjoin (headers_of <$> [?x])) with (headers_of x ++ []).
    rewrite app_nil_r. unfold headers_of. cbn [headers with_status]. by rewrite Hl.
  - rewrite app_assoc, last_or_app. unfold last_or at 1. rewrite fmap_last, Hlast. done.
  - cbn. rewrite Forall_forall in Hok. apply Hok. rewrite last_lookup in Hlast. by eapply list_elem_of_lookup_2.
Qed.

Lemma link_failed w lv d saved verified rest done pending s :
  linear_inv w lv d saved verified (s :: rest) done pending → status s = Status.VerifiedInternally →
  rest_step link w (set_slice_status (length (saved ++ verified)) Status.Invalid w).
Proof.
  intros Hi Hst. apply set_status_rest. intros s'.
  rewrite (inv_slices _ _ _ _ _ _ _ _ Hi), app_assoc, lookup_app_r, Nat.sub_diag by done. intros [= <-].
  right. by rewrite Hst.
Qed.

Lemma link_pending_safe n : ∀ w lv d u lv' w',
  safe w lv d → link_pending spec genesis_block_hash Status.Invalid n lv w = Ok (u, (lv', w')) → safe w' lv' d.
Proof.
  induction n as [|n IH]; intros w lv d u lv' w' Hsafe; cbn [link_pending]; [by intros [= _ <- <-]|].
  destruct (find_next_link 0 (slices w)) as [i|] eqn:Hfind; [|by intros [= _ <- <-]].
  destruct Hsafe as (sa & ve & re & dn & pe & Hi). destruct (find_link_spec _ _ _ _ _ _ _ _ _ Hi Hfind) as (s & re' & -> & Hst & ->).
  intros ([b [lv1 w1]] & Hone & Hrest)%res_bind_ok. unfold verify_pending_slice in Hone.
  rewrite (inv_slices _ _ _ _ _ _ _ _ Hi), app_assoc, lookup_app_r, Nat.sub_diag in Hone by done. cbn [lookup list_lookup unwrap] in Hone.
  rewrite ok_bind in Hone. apply res_bind_ok in Hone as ([] & Hv & Hone).
  - destruct (slice_linked _ _ _ _ _ _ _ _ _ Hi Hst Hv) as (l & h & Hl & Hlast & Hok & Hlen & Hf).
    cbv zeta in Hone. rewrite Hl in Hone. cbn [unwrap] in Hone. rewrite ok_bind, Hlast in Hone. injection Hone as <- <- <-.
    apply res_bind_ok in Hrest as ([u1 [lv2 w2]] & Hrest & [= <- <- <-]). eapply IH; [|exact Hrest].
    eexists _, _, _, _, _. by eapply link_inv.
  - injection Hone as <- <- <-. injection Hrest as <- <- <-. eapply rest_safe; [by eapply link_failed|]. by eexists _, _, _, _, _.
Qed.

(** ** Saving *)

Lemma find_save_skip i l1 l2 :
  Forall (fun s => status s = Status.Saved) l1 → find_next_save i (l1 ++ l2) = find_next_save (i + length l1) l2.
Proof.
  revert i. induction l1 as [|s l1 IH]; intros i Hl; [cbn; by rewrite Nat.add_0_r|]. apply Forall_cons in Hl as [Hs Hl].
  cbn [app find_next_save length]. rewrite Hs, (IH (S i)) by done. by replace (S i + length l1)%nat with (i + S (length l1))%nat by lia.
Qed.

Lemma find_save_spec w lv d saved verified rest done pending :
  linear_inv w lv d saved verified rest done pending →
  find_next_save 0 (slices w) = match verified with [] => None | _ => Some (length saved) end.
Proof.
  intros Hi. rewrite (inv_slices _ _ _ _ _ _ _ _ Hi), find_save_skip by apply Hi.
  pose proof (inv_verified _ _ _ _ _ _ _ _ Hi) as Hv. destruct verified as [|s verified]; cbn [app].
  - pose proof (inv_rest _ _ _ _ _ _ _ _ Hi) as Hr. destruct rest as [|s rest]; [done|]. apply Forall_cons in Hr as [[Hl _] _].
    cbn [find_next_save]. destruct (status s); cbn in Hl; done.
  - apply Forall_cons in Hv as [[Hs _] _]. cbn [find_next_save]. by rewrite Hs.
Qed.

Lemma save_inv w lv d saved s verified rest done pending :
  linear_inv w lv d saved (s :: verified) rest done pending →
  ∃ w' d' done' pending', save_slice true (length saved) w d = Ok (w', d')
    ∧ linear_inv w' lv d' (saved ++ [with_status Status.Saved s]) verified rest done' pending'.
Proof.
  intros Hi. pose proof (inv_verified _ _ _ _ _ _ _ _ Hi) as Hv. apply Forall_cons in Hv as [(Hst & l & Hl & Hok & Hlen) Hv].
  destruct (status_placed w saved s (verified ++ rest) Status.Saved) as (Hsl & Hp & Hmin); [apply Hi..|].
  exists (set_slice_status (length saved) Status.Saved w), (save_headers true l d), (done ++ (header <$> l)), (mjoin (headers_of <$> verified)).
  split.
  { unfold save_slice. rewrite (inv_slices _ _ _ _ _ _ _ _ Hi), lookup_app_r, Nat.sub_diag by done.
    cbn [app lookup list_lookup unwrap]. by rewrite ok_bind, Hl. }
  pose proof (inv_placed _ _ _ _ _ _ _ _ Hi) as Hpl. pose proof (at_end _ Hpl) as Hend.
  rewrite (inv_slices _ _ _ _ _ _ _ _ Hi), span_app, <- app_comm_cons, span_cons in Hend.
  pose proof (at_final _ Hpl). pose proof (at_word _ Hpl). pose proof (span_nonneg (verified ++ rest)) as Hnn.
  assert (pending = (header <$> l) ++ mjoin (headers_of <$> verified)) as Hpend.
  { rewrite (inv_pending _ _ _ _ _ _ _ _ Hi), fmap_cons. change (mjoin (headers_of s :: ?k)) with (headers_of s ++ mjoin k).
    unfold headers_of at 1. by rewrite Hl. }
  assert (Z.of_nat (length l) = slice_size) as Hsize by by rewrite Hlen.
  destruct Hi. rewrite Hpend in *. rewrite app_assoc in *. split; try done.
  - by rewrite Hsl, <- !app_assoc.
  - apply Forall_app. split; [done|]. by constructor.
  - rewrite Hmin, span_app, length_app, length_fmap. cbn [length]. rewrite span_cons. change (span []) with 0. lia.
  - apply save_headers_chain; [done| |done|lia]. apply follows_app in inv_chain0 as [? _]. done.
Qed.

Lemma save_pending_safe n : ∀ w lv d saved verified rest done pending,
  linear_inv w lv d saved verified rest done pending →
  ∃ w' d', save_pending_monotonic true n w d = Ok (Nat.min n (length verified), (w', d')) ∧ safe w' lv d'.
Proof.
  induction n as [|n IH]; intros w lv d saved verified rest done pending Hi; cbn [save_pending_monotonic].
  { exists w, d. split; [done|]. by eexists _, _, _, _, _. }
  rewrite (find_save_spec _ _ _ _ _ _ _ _ Hi). destruct verified as [|s verified].
  { exists w, d. split; [done|]. by eexists _, _, _, _, _. }
  destruct (save_inv _ _ _ _ _ _ _ _ _ Hi) as (w1 & d1 & done1 & pending1 & Hs & Hi1).
  destruct (IH _ _ _ _ _ _ _ _ Hi1) as (w2 & d2 & Hr & Hsafe). exists w2, d2. split; [|done].
  rewrite Hs. res_simpl. by rewrite Hr.
Qed.

(** The number of verified slices. *)
Lemma verified_count w lv d saved verified rest done pending :
  linear_inv w lv d saved verified rest done pending →
  count_slices_in_status Status.Verified w = Z.of_nat (length verified).
Proof.
  intros Hi. pose proof (inv_placed _ _ _ _ _ _ _ _ Hi) as Hp. pose proof (at_end _ Hp) as He. pose proof (at_final _ Hp).
  pose proof (at_word _ Hp). pose proof (at_begin _ Hp). rewrite counts_exact; [|apply Hp|unfold span in He; change slice_size with 192 in He; lia].
  f_equal. rewrite (inv_slices _ _ _ _ _ _ _ _ Hi), !tally_app.
  assert (∀ l, Forall (fun s => status s ≠ Status.Verified) l → tally Status.Verified l = 0%nat) as Hnone.
  { induction 1 as [|x l Hx _ IH]; [done|]. rewrite tally_cons, IH, decide_False; done. }
  rewrite (Hnone saved), (Hnone rest).
  - rewrite Nat.add_0_r. cbn [Nat.add]. pose proof (inv_verified _ _ _ _ _ _ _ _ Hi) as Hv. clear -Hv. induction Hv as [|x l [Hx _] _ IH]; [done|].
    rewrite tally_cons, Hx, IH. done.
  - eapply Forall_impl; [apply (inv_rest _ _ _ _ _ _ _ _ Hi)|]. intros x [Hx _] Hs. by rewrite Hs in Hx.
  - eapply Forall_impl; [apply (inv_saved _ _ _ _ _ _ _ _ Hi)|]. intros x ->. done.
Qed.

(** ** Refilling *)

Lemma refill_loop_spec n : ∀ count w c w',
  refill_loop n count w = (c, w') →
  max_block_num w ≤ final_block_num w → (slice_size | final_block_num w - max_block_num w) →
  0 ≤ max_block_num w → final_block_num w < 2 ^ 64 →
  ∃ new, slices w' = slices w ++ new ∧ Forall (fun s => status s = Status.Empty) new
    ∧ consecutive (max_block_num w) new ∧ max_block_num w' = max_block_num w + span new
    ∧ max_slices w' = max_slices w ∧ final_block_num w' = final_block_num w
    ∧ max_block_num w' ≤ final_block_num w ∧ (slice_size | final_block_num w - max_block_num w')
    ∧ (n ≠ 0%nat → new = [] → final_block_num w ≤ max_block_num w).
Proof.
  induction n as [|n IH]; intros count w c w'; cbn [refill_loop].
  { intros [= _ <-] Hm Ha H0 Hw. exists []. rewrite app_nil_r. change (span []) with 0. by split_and!; try lia. }
  destruct (final_block_num w <=? max_block_num w) eqn:Hle.
  { intros [= _ <-] Hm Ha H0 Hw. zbool. exists []. rewrite app_nil_r. change (span []) with 0. by split_and!; try lia. }
  intros Hr Hm Ha H0 Hw. zbool. destruct Ha as [k Hk]. change slice_size with 192 in Hk.
  assert (u64_add (max_block_num w) slice_size = max_block_num w + slice_size) as Hadd.
  { change slice_size with 192. apply u64_add_small. unfold is_word. lia. }
  destruct (IH _ _ _ _ Hr) as (new & Hsl & Hst & Hcon & He & Hms & Hf & Hmf & Ha & _); window_simpl; rewrite ?Hadd.
  - change slice_size with 192. lia.
  - exists (k - 1). change slice_size with 192. lia.
  - change slice_size with 192. lia.
  - done.
  - revert Hsl Hcon He Hms Hf Hmf Ha. window_simpl. rewrite Hadd. intros Hsl Hcon He Hms Hf Hmf Ha.
    exists (with_start (max_block_num w) default_slice :: new). rewrite span_cons. split_and!; try done; [|by constructor|lia].
    by rewrite Hsl, <- app_assoc.
Qed.

Lemma keep_unsaved l : Forall (fun s => status s ≠ Status.Saved) l → filter (fun s => status s ≠ Status.Saved) l = l.
Proof. induction 1 as [|s l Hs _ IH]; [done|]. by rewrite filter_cons, decide_True, IH. Qed.

Lemma drop_saved l : Forall (fun s => status s = Status.Saved) l → filter (fun s => status s ≠ Status.Saved) l = [].
Proof. induction 1 as [|s l Hs _ IH]; [done|]. by rewrite filter_cons, decide_False, IH by auto. Qed.

Lemma consecutive_min b w : consecutive b (slices w) → (slices w = [] → max_block_num w = b) → min_block_num w = b.
Proof. unfold min_block_num. destruct (slices w); [auto|]. by intros [-> _]. Qed.

Lemma refill_safe w lv d : safe w lv d → safe (refill_pending w) lv d.
Proof.
  intros (sa & ve & re & dn & pe & Hi). pose proof (inv_placed _ _ _ _ _ _ _ _ Hi) as [P1 P2 P3 P4 P5 PT P6 P7 P8].
  assert (slices (remove Status.Saved w) = ve ++ re) as Hs1.
  { cbn [remove count_sub with_counts with_slices slices]. rewrite (inv_slices _ _ _ _ _ _ _ _ Hi), !filter_app.
    rewrite (drop_saved sa), (keep_unsaved ve), (keep_unsaved re); [done|..].
    - eapply Forall_impl; [apply (inv_rest _ _ _ _ _ _ _ _ Hi)|]. intros x [Hx _] E. by rewrite E in Hx.
    - eapply Forall_impl; [apply (inv_verified _ _ _ _ _ _ _ _ Hi)|]. intros x [Hx _] E. by rewrite Hx in E.
    - apply Hi. }
  rewrite (inv_slices _ _ _ _ _ _ _ _ Hi) in P1, P2. apply consecutive_app in P1 as [_ P1]. rewrite span_app in P2.
  pose proof (span_nonneg sa). pose proof (span_nonneg (ve ++ re)).
  assert (counts_ok (refill_pending w)) as Hc.
  { unfold refill_pending. eapply counts_kept; [apply step_refill|]. eapply counts_kept; [apply step_remove|]. done. }
  unfold refill_pending, refill in *. destruct (refill_loop _ _ _) as [c w2] eqn:Hr.
  destruct (refill_loop_spec _ _ _ _ _ Hr) as (new & Hsl & Hst & Hcon & He & Hms & Hf & Hmf & Ha & Hfill); [done|done|cbn; lia|done|].
  rewrite Hs1 in *. change (max_block_num (remove Status.Saved w)) with (max_block_num w) in *.
  change (final_block_num (remove Status.Saved w)) with (final_block_num w) in *.
  change (max_slices (remove Status.Saved w)) with (max_slices w) in *. set (w3 := count_add Status.Empty c w2) in *.
  assert (consecutive (min_block_num w + span sa) (slices w3)) as Hcon3.
  { change (slices w3) with (slices w2). rewrite Hsl. apply consecutive_app. split; [done|].
    by replace (min_block_num w + span sa + span (ve ++ re)) with (max_block_num w) by lia. }
  assert (min_block_num w3 = min_block_num w + span sa) as Hmin.
  { apply consecutive_min; [done|]. change (slices w3) with (slices w2). change (max_block_num w3) with (max_block_num w2).
    rewrite Hsl. intros [E ->]%app_nil. rewrite He. rewrite E in *. change (span []) with 0 in *. lia. }
  exists [], ve, (re ++ new), dn, pe. destruct Hi. split; try done.
  - change (slices w3) with (slices w2). by rewrite Hsl, <- app_assoc.
  - apply Forall_app. split; [done|]. eapply Forall_impl; [exact Hst|]. intros x Hx. unfold good. by rewrite Hx.
  - split; rewrite ?Hmin; try done.
    + change (slices w3) with (slices w2). change (max_block_num w3) with (max_block_num w2). rewrite Hsl, He, span_app. lia.
    + lia.
    + change (final_block_num w3) with (final_block_num w2). change (max_block_num w3) with (max_block_num w2). by rewrite Hf.
    + change (final_block_num w3) with (final_block_num w2). change (max_block_num w3) with (max_block_num w2). by rewrite Hf.
    + change (final_block_num w3) with (final_block_num w2). by rewrite Hf.
    + change (final_block_num w3) with (final_block_num w2). by rewrite Hf.
    + change (final_block_num w3) with (final_block_num w2). change (max_block_num w3) with (max_block_num w2).
      change (slices w3) with (slices w2). change (max_slices w3) with (max_slices w2). rewrite Hf, Hms, Hsl, He.
      intros Hne [E ->]%app_nil. rewrite E in Hfill. change (span []) with 0. cbn [length] in Hfill. specialize (Hfill ltac:(lia) eq_refl). lia.
  - rewrite Hmin. change (span []) with 0. lia.
Qed.
(** ** Steps *)

Definition safe_state (s : Download) : Prop :=
  safe (window s) (last_verified_header s) (tables s) ∧ save_remaining_count s = 0.

Lemma step_safe s s' : step spec genesis_block_hash s s' → safe_state s → safe_state s'.
Proof.
  intros [e He] [Hs Hr]. destruct e as [send now|[[message peer]|]|now|cpus now|cpus now| |answer| | |]; cbn [execute] in He.
  - apply res_bind_ok in He as ([id w] & Hq & [= <-]). split; [|done]. eapply rest_safe; [|exact Hs]. by eapply request_rest.
  - injection He as <-. split; [|done]. eapply rest_safe; [|exact Hs]. apply receive_rest.
  - by injection He as <-.
  - injection He as <-. split; [|done]. eapply rest_safe; [|exact Hs]. apply retry_rest.
  - apply res_bind_ok in He as (w & Hv & [= <-]). split; [|done]. eapply rest_safe; [|exact Hs]. by eapply verify_loop_rest.
  - apply res_bind_ok in He as (w & Hv & [= <-]). split; [|done]. eapply rest_safe; [|exact Hs]. by eapply verify_batch_rest.
  - unfold execute_verify_link in He. apply res_bind_ok in He as ([u [lv w]] & Hl & [= <-]). split; [|done]. by eapply link_pending_safe.
  - apply res_bind_ok in He as ([] & _ & [= <-]). split; [|done]. eapply rest_safe; [|exact Hs]. apply penalize_rest.
  - destruct Hs as (sa & ve & re & dn & pe & Hi). unfold execute_save in He.
    rewrite (verified_count _ _ _ _ _ _ _ _ Hi), Nat2Z.id in He.
    destruct (save_pending_safe (length ve) _ _ _ _ _ _ _ _ Hi) as (w' & d' & Hsave & Hsafe). rewrite Hsave in He.
    injection He as <-. split; [done|]. cbn. rewrite Nat.min_id. unfold u64_sub. by rewrite Z.sub_diag.
  - destruct Hs as (sa & ve & re & dn & pe & Hi).
    destruct (save_pending_safe 1 _ _ _ _ _ _ _ _ Hi) as (w' & d' & Hsave & Hsafe). rewrite Hsave in He.
    injection He as <-. by split.
  - injection He as <-. split; [|done]. by apply refill_safe.
Qed.

Lemma steps_safe s s' : rtc (step spec genesis_block_hash) s s' → safe_state s → safe_state s'.
Proof. induction 1 as [|s1 s2 s3 H12 _ IH]; [done|]. intros Hs. eapply IH, step_safe; eauto. Qed.

(** ** The start *)

Lemma fresh_consecutive n : ∀ i, start + Z.of_nat ((i + n) * HEADER_SLICE_SIZE) < 2 ^ 64 →
  consecutive (start + Z.of_nat (i * HEADER_SLICE_SIZE))
    ((fun i => with_start (u64_add start (Z.of_nat (i * HEADER_SLICE_SIZE))) default_slice) <$> seq i n).
Proof.
  change HEADER_SLICE_SIZE with 192%nat. induction n as [|n IH]; intros i Hb; [done|]. cbn [seq]. rewrite fmap_cons. cbn [consecutive]. split.
  - cbn [start_block_num with_start]. apply u64_add_small. unfold is_word. lia.
  - replace (start + Z.of_nat (i * 192) + slice_size) with (start + Z.of_nat (S i * 192)) by (change slice_size with 192; lia).
    apply IH. by replace (S i + n)%nat with (i + S n)%nat by lia.
Qed.

Lemma new_placed header_size mem_limit final w :
  new_slices header_size mem_limit start final = Ok w → start < final → final < 2 ^ 64 → final ≤ target →
  placed w ∧ min_block_num w = start ∧ Forall (fun s => status s = Status.Empty) (slices w) ∧ final_block_num w = final.
Proof.
  intros Hnew Hlt Hword Htarget. unfold new_slices, from_slices_vec in Hnew. pose proof (new_counts_ok _ _ _ _ _ Hnew) as Hcounts.
  cbn [length from_option id] in Hnew. cbv zeta in Hnew.
  rewrite u64_sub_small in * by (unfold is_word; lia).
  set (m := Nat.min _ _) in *. destruct (negb _) eqn:Ha; [done|]. destruct (negb (is_block_num_aligned_to_slice_start final)) eqn:Hf; [done|].
  injection Hnew as <-. apply negb_false_iff, Z.eqb_eq in Ha, Hf. change slice_size with 192 in Ha, Hf.
  apply Z.mod_divide in Ha as [ka Ha]; [|done]. apply Z.mod_divide in Hf as [kf Hf]; [|done].
  assert (Z.of_nat (m * 192) ≤ final - start) as Hm.
  { assert (m ≤ (Z.to_nat (final - start) + HEADER_SLICE_SIZE - 1) / HEADER_SLICE_SIZE)%nat as Hle by apply Nat.le_min_r.
    change HEADER_SLICE_SIZE with 192%nat in Hle. clearbody m.
    assert (((Z.to_nat (final - start) + 192 - 1) / 192 = Z.to_nat (kf - ka))%nat) as Hdiv.
    { symmetry. apply (Nat.div_unique _ 192 _ 191); lia. }
    lia. }
  clearbody m. rewrite take_nil, Nat.sub_0_r in *. cbn [app] in *. set (l := _ <$> seq 0 m).
  assert (length l = m) as Hlen by (unfold l; by rewrite length_fmap, length_seq).
  assert (u64_add start (Z.of_nat (m * HEADER_SLICE_SIZE)) = start + Z.of_nat (m * 192)) as Hend.
  { apply u64_add_small. unfold is_word. change HEADER_SLICE_SIZE with 192%nat. lia. }
  assert (consecutive start l) as Hcon.
  { pose proof (fresh_consecutive m 0) as Hc. cbn [Nat.add Nat.mul] in Hc. rewrite Z.add_0_r in Hc. apply Hc. change HEADER_SLICE_SIZE with 192%nat. lia. }
  match goal with |- placed ?w ∧ _ => set (w' := w) end.
  assert (min_block_num w' = start) as Hmin.
  { apply consecutive_min; [done|]. unfold w'. cbn [slices max_block_num]. intros Hnil. rewrite Hend. rewrite Hnil in Hlen. cbn in Hlen. rewrite <- Hlen. lia. }
  split_and!; [|done| |done].
  - split; rewrite ?Hmin; cbn [max_block_num final_block_num slices max_slices w']; rewrite ?Hend; try done.
    + unfold span. rewrite Hlen. change slice_size with 192. lia.
    + lia.
    + exists (kf - ka - Z.of_nat m). change slice_size with 192. lia.
    + intros Hne Hnil. rewrite Hnil in Hlen. done.
  - cbn. unfold l. apply Forall_fmap, Forall_forall. done.
Qed.

Lemma fresh_safe w lv :
  placed w → min_block_num w = start → Forall (fun s => status s = Status.Empty) (slices w) →
  header <$> lv = parent → from_option cached_ok True lv → safe w lv d0.
Proof.
  intros Hp Hmin Hs Hl Hc. exists [], [], (slices w), [], []. split; try done.
  - eapply Forall_impl; [exact Hs|]. intros s E. unfold good. by rewrite E.
  - change (span []) with 0. cbn. lia.
Qed.
End chain.

Section linear.
Context {R : Rlp} {H : Hashing} {V : HeaderSliceVerifier}.
Variables (spec : ChainSpec) (genesis_block_hash : Z).
Variable link : BlockHeader → BlockHeader → Prop.
Context {VL : VerifierLaws V spec link}.

(** The canonical header before the first block. *)
Definition start_parent (start : Z) (d : Database) : option CachedHeader :=
  if 0 <? start then load_canonical_header_by_num (start - 1) d else None.

(** A canonical hash is the hash of its header. *)
Definition parent_hashed (start : Z) (d : Database) : Prop :=
  ∀ x h, CanonicalHeader d !! (start - 1) = Some x → Header d !! (start - 1, x) = Some h → x = header_hash h.

Lemma start_parent_cached start d : parent_hashed start d → from_option cached_ok True (start_parent start d).
Proof.
  intros Hp. unfold start_parent, load_canonical_header_by_num. destruct (0 <? start); [|done].
  destruct (CanonicalHeader d !! (start - 1)) as [x|] eqn:Hx; [|done]. cbn.
  destruct (Header d !! (start - 1, x)) as [h|] eqn:Hh; [|done]. cbn. rewrite (Hp x h) by done. apply known_header_ok.
Qed.

Lemma start_safe header_size mem_limit start max_blocks estimated d target s :
  start_linear header_size mem_limit start max_blocks estimated d = Ok (Running target s) →
  0 ≤ start → is_u64 estimated → parent_hashed start d →
  let parent := header <$> start_parent start d in
  first_number parent = start ∧ (parent = None → start = 0) ∧ (is_Some parent → 0 < start)
  ∧ safe_state genesis_block_hash link parent start target d s
  ∧ min_block_num (window s) = start ∧ is_over s = false
  ∧ Forall (fun x => status x = Status.Empty) (slices (window s)).
Proof.
  intros Hs Hstart Hest Hph. cbv zeta. pose proof (start_parent_cached start d Hph) as Hcached. unfold start_linear in Hs.
  destruct (negb _); [done|]. cbv zeta in Hs. set (tg := linear_target estimated) in *. set (final := Z.min tg _) in *.
  assert (tg < 2 ^ 64) as Htg.
  { unfold tg, linear_target, align_block_num_to_slice_start. change slice_size with 192.
    destruct (trusted_len <? estimated) eqn:E; [|done]. zbool. unfold trusted_len in *. unfold is_word in Hest.
    pose proof (Z.mul_div_le (estimated - 90000) 192). lia. }
  destruct (final <=? start) eqn:Hfs; [done|]. zbool. unfold start_parent in *.
  destruct (0 <? start) eqn:H0.
  - change (Some (start - 1) ≫= _) with (load_canonical_header_by_num (start - 1) d) in Hs.
    destruct (load_canonical_header_by_num (start - 1) d) as [p|] eqn:Hp; [|done].
    apply res_bind_ok in Hs as (w & Hw & Hs). destruct (new_placed start tg Hstart _ _ _ _ Hw) as (Hpl & Hmin & He & Hf); [lia|lia|lia|].
    rewrite Hmin in Hs. destruct (u64_add (number (header p)) 1 =? start) eqn:Hn; [|done]. cbn [mbind res_mbind res_bind] in Hs.
    assert (find_last_verified_header w = None) as Hlast.
    { unfold find_last_verified_header. destruct (slices w) as [|x l]; [done|]. apply Forall_cons in He as [Hx _]. cbn. by rewrite Hx. }
    rewrite Hlast in Hs. injection Hs as <- <-. zbool. split; [done|]. split; [done|]. split; [done|].
    split; [split; [by apply fresh_safe|done]|]. by split_and!.
  - zbool. cbn [mbind option_bind] in Hs. apply res_bind_ok in Hs as (w & Hw & Hs).
    destruct (new_placed start tg Hstart _ _ _ _ Hw) as (Hpl & Hmin & He & Hf); [lia|lia|lia|]. cbn [mbind res_mbind res_bind] in Hs.
    assert (find_last_verified_header w = None) as Hlast.
    { unfold find_last_verified_header. destruct (slices w) as [|x l]; [done|]. apply Forall_cons in He as [Hx _]. cbn. by rewrite Hx. }
    rewrite Hlast in Hs. injection Hs as <- <-. split; [cbn; lia|]. split; [intros _; lia|]. split; [by intros [? [=]]|].
    split; [split; [by apply fresh_safe|done]|]. by split_and!.
Qed.

(** C3. The linear download saves nothing but a chain. Whatever peers answer,
    in whatever order the stages run and wherever they stop: the canonical
    headers from the first block on are a chain in which each header is
    linked to the one before it as the verifier says (under Ethash: its
    parent hash, its number, a later time and the difficulty that the
    formula demands), and the first one to the canonical header that was
    there before, or is the genesis block. Each is stored under its hash
    with its total difficulty, the last one is the last header, and the
    blocks that are reported as loaded are among them. *)
Theorem linear_download_saves_chain header_size mem_limit start max_blocks estimated d target s0 s
    (Hstarted : start_linear header_size mem_limit start max_blocks estimated d = Ok (Running target s0))
    (Hsteps : rtc (step spec genesis_block_hash) s0 s)
    (Hstart : 0 ≤ start) (Hestimated : is_u64 estimated) (Hparent : parent_hashed start d) :
  let parent := header <$> start_parent start d in
  ∃ l, follows genesis_block_hash link parent l
    ∧ saved_chain parent start d (tables s) l
    ∧ report_final_block_num (report_of start target estimated s) ≤ start + Z.of_nat (length l)
    ∧ loaded_count (report_of start target estimated s)
      = report_final_block_num (report_of start target estimated s) - start
    ∧ report_final_block_num (report_of start target estimated s) ≤ target.
Proof.
  cbv zeta. destruct (start_safe _ _ _ _ _ _ _ _ Hstarted Hstart Hestimated Hparent) as (Hf & Hn & Hp & Hs & _).
  destruct (steps_safe spec genesis_block_hash link _ _ target _ Hf Hstart Hn Hp _ _ Hsteps Hs) as [(sa & ve & re & dn & pe & Hi) _].
  pose proof (inv_placed _ _ _ _ _ _ _ _ _ _ _ _ _ _ Hi) as Hpl.
  exists dn. unfold report_of. cbn [report_final_block_num loaded_count].
  pose proof (at_begin _ _ _ Hpl). pose proof (at_end _ _ _ Hpl). pose proof (at_final _ _ _ Hpl). pose proof (at_word _ _ _ Hpl).
  pose proof (at_target _ _ _ Hpl).
  pose proof (span_nonneg (slices (window s))). pose proof (span_nonneg sa). pose proof (inv_done _ _ _ _ _ _ _ _ _ _ _ _ _ _ Hi).
  split_and!.
  - pose proof (inv_chain _ _ _ _ _ _ _ _ _ _ _ _ _ _ Hi) as Hc. by apply follows_app in Hc as [? _].
  - apply (inv_tables _ _ _ _ _ _ _ _ _ _ _ _ _ _ Hi).
  - lia.
  - apply u64_sub_small. unfold is_word. lia.
  - lia.
Qed.
(** A slice at the front of the window is some stage's to move on. *)
Lemma front_status w lv d parent start target d0 s l : 0 ≤ start →
  safe genesis_block_hash link parent start target d0 w lv d → slices w = s :: l →
  contains_status (status s) w = true ∧ status s ≠ Status.Fork.
Proof.
  intros H0 (sa & ve & re & dn & pe & Hi) Hw. pose proof (inv_placed _ _ _ _ _ _ _ _ _ _ _ _ _ _ Hi) as Hpl.
  pose proof (at_begin _ _ _ Hpl). pose proof (at_end _ _ _ Hpl) as Hend. pose proof (at_final _ _ _ Hpl). pose proof (at_word _ _ _ Hpl).
  split.
  - unfold contains_status. rewrite counts_exact; [|apply Hpl|].
    + rewrite Hw, tally_cons, decide_True by done. apply Z.ltb_lt. lia.
    + unfold span in *. change slice_size with 192 in *. lia.
  - intros E. pose proof (inv_slices _ _ _ _ _ _ _ _ _ _ _ _ _ _ Hi) as Hsl.
    assert (s ∈ sa ++ ve ++ re) as [Hin|[Hin|Hin]%elem_of_app]%elem_of_app by (rewrite <- Hsl, Hw; left).
    + pose proof (inv_saved _ _ _ _ _ _ _ _ _ _ _ _ _ _ Hi) as Hf. rewrite Forall_forall in Hf. by rewrite (Hf _ Hin) in E.
    + pose proof (inv_verified _ _ _ _ _ _ _ _ _ _ _ _ _ _ Hi) as Hf. rewrite Forall_forall in Hf. destruct (Hf _ Hin) as [Hs _]. by rewrite Hs in E.
    + pose proof (inv_rest _ _ _ _ _ _ _ _ _ _ _ _ _ _ Hi) as Hf. rewrite Forall_forall in Hf. destruct (Hf _ Hin) as [Hs _]. by rewrite E in Hs.
Qed.

(** C38. The loop over the stages does not end early: as long as the window is
    not empty at its final position and answers of peers come in, some stage
    can proceed, so that the loop goes on, whatever has happened so far. *)
Theorem linear_download_proceeds header_size mem_limit start max_blocks estimated d target s0 s
    (Hstarted : start_linear header_size mem_limit start max_blocks estimated d = Ok (Running target s0))
    (Hsteps : rtc (step spec genesis_block_hash) s0 s)
    (Hstart : 0 ≤ start) (Hestimated : is_u64 estimated) (Hparent : parent_hashed start d)
    (Hroom : max_slices (window s) ≠ 0%nat) (Hpeers : is_over s = false) :
  is_over_check s = false → some_stage_can_proceed s = true.
Proof.
  intros Hover. destruct (start_safe _ _ _ _ _ _ _ _ Hstarted Hstart Hestimated Hparent) as (Hf & Hn & Hp & Hs & _).
  destruct (steps_safe spec genesis_block_hash link _ _ target _ Hf Hstart Hn Hp _ _ Hsteps Hs) as [Hsafe Hrem].
  destruct (slices (window s)) as [|x l] eqn:Hw.
  - destruct Hsafe as (sa & ve & re & dn & pe & Hi). pose proof (at_filled _ _ _ (inv_placed _ _ _ _ _ _ _ _ _ _ _ _ _ _ Hi) Hroom Hw).
    unfold is_over_check, is_empty_at_final_position, is_empty in Hover. rewrite Hw, bool_decide_eq_true_2, andb_true_r in Hover by done.
    zbool. lia.
  - destruct (front_status _ _ _ _ _ _ _ _ _ Hstart Hsafe Hw) as [Hc Hfork]. unfold some_stage_can_proceed. rewrite Hpeers, Hrem.
    destruct (status x); try (by rewrite Hc, ?orb_true_r); [|done].
    unfold contains_status in Hc. assert (count_slices_in_status Status.Verified (window s) ≠ 0) as Hne by (zbool; lia).
    rewrite (proj2 (Z.eqb_neq _ _) Hne). cbn [negb]. by rewrite !orb_true_r.
Qed.
End linear.

(** ** A run *)

(** Executions one after the other. *)
Fixpoint executions {R : Rlp} {H : Hashing} {V : HeaderSliceVerifier} (spec : ChainSpec) (genesis_block_hash : Z)
    (es : list Execution) (s : Download) : result Download :=
  match es with
  | [] => Ok s
  | e :: es => s ← execute spec genesis_block_hash e s; executions spec genesis_block_hash es s
  end.

Lemma executions_steps {R : Rlp} {H : Hashing} {V : HeaderSliceVerifier} spec genesis_block_hash es : ∀ s s',
  executions spec genesis_block_hash es s = Ok s' → rtc (step spec genesis_block_hash) s s'.
Proof.
  induction es as [|e es IH]; intros s s'; cbn [executions]; [by intros [= ->]|].
  intros (s1 & H1 & Hr)%res_bind_ok. eapply rtc_l; [by exists e|by apply IH].
Qed.

(** The first slice of a chain that keeps to the formula, from a peer. *)
Definition demo_spec : ChainSpec := {|
  consensus := {| seal_verification := EthashSeal 13 ∅ None None None true; eip1559_block := None |};
  upgrades := mkUpgrades None None None None None None None None None;
  params := {| ChainSpec.chain_id := 1; network_id := 1; min_gas_limit := 5000 |};
  contracts := ∅; balances := ∅ |}.

Section demo.
#[local] Existing Instance tagged_rlp.
#[local] Instance constant_hashing : Hashing := {|
  keccak256 _ := 0;
  ommers_rlp_hash _ := 0;
  transactions_trie_root _ := 0;
  receipts_trie_root _ := 0;
  ecdsa_recover _ := Panic;
  trie_root _ := 0;
  rlp_bytes := id;
  rlp_account _ _ _ _ := []
|}.

Definition demo_child (p : BlockHeader) : BlockHeader :=
  let child d := mkHeader (header_hash p) 0 0 0 0 0 0 d (number p + 1) 5000 0 (timestamp p + 13) [] 0 0 None in
  child (expected_child_difficulty None None None (child 0) p).

Fixpoint demo_descendants (n : nat) (p : BlockHeader) : list BlockHeader :=
  match n with
  | O => []
  | S n => let h := demo_child p in h :: demo_descendants n h
  end.

Definition demo_genesis_header : BlockHeader := mkHeader 0 0 0 0 0 0 0 131072 0 5000 0 100 [] 0 0 None.

Definition demo_headers : list BlockHeader := demo_genesis_header :: demo_descendants 191 demo_genesis_header.

Definition demo_start : result Started :=
  start_linear 1 192 0 192 (trusted_len + 192) empty_database.

Definition demo_executions : list Execution :=
  [FetchRequest (fun _ => Sent) 0; FetchReceive (Some (demo_headers, Some 7)); VerifySlices 4 (fun _ => 10000);
   VerifyLinkLinear; Save; Refill].

Definition demo_end (s : Download) : Download :=
  match executions demo_spec (header_hash demo_genesis_header) demo_executions s with Ok s => s | _ => s end.

Definition demo_started : Download :=
  match demo_start with Ok (Running _ s) => s | _ => mkDownload (empty_slices 0) None 0 0 false 0 empty_database [] end.

Lemma demo_started_ok : demo_start = Ok (Running 192 demo_started).
Proof. vm_compute. reflexivity. Qed.

Lemma demo_steps : rtc (step demo_spec (header_hash demo_genesis_header)) demo_started (demo_end demo_started).
Proof.
  assert (is_ok (executions demo_spec (header_hash demo_genesis_header) demo_executions demo_started) = true) as Hok.
  { lazy. reflexivity. }
  apply (executions_steps _ _ demo_executions). unfold demo_end. destruct (executions _ _ _ demo_started); done.
Qed.

Lemma demo_parent_hashed : parent_hashed 0 empty_database.
Proof. intros x h Hx. cbn in Hx. by rewrite lookup_empty in Hx. Qed.

Lemma demo_estimated : is_u64 (trusted_len + 192).
Proof. unfold is_word, trusted_len. lia. Qed.

Lemma linear_download_saves_chain_witness :
  let report := report_of 0 192 (trusted_len + 192) (demo_end demo_started) in
  report_final_block_num report = 192
  ∧ ∃ l, follows (header_hash demo_genesis_header) (ethash_link demo_spec) None l
      ∧ saved_chain None 0 empty_database (tables (demo_end demo_started)) l
      ∧ report_final_block_num report ≤ 0 + Z.of_nat (length l)
      ∧ loaded_count report = report_final_block_num report - 0
      ∧ report_final_block_num report ≤ 192.
Proof.
  split; [lazy; reflexivity|].
  apply (linear_download_saves_chain (V := EthashHeaderSliceVerifier) demo_spec (header_hash demo_genesis_header)
    (ethash_link demo_spec) 1 192 0 192 (trusted_len + 192) empty_database 192 demo_started).
  - exact demo_started_ok.
  - exact demo_steps.
  - lia.
  - exact demo_estimated.
  - exact demo_parent_hashed.
Defined.

Lemma linear_download_proceeds_witness :
  is_over_check demo_started = false ∧ some_stage_can_proceed demo_started = true.
Proof.
  split; [lazy; reflexivity|].
  apply (linear_download_proceeds (V := EthashHeaderSliceVerifier) demo_spec (header_hash demo_genesis_header)
    (ethash_link demo_spec) 1 192 0 192 (trusted_len + 192) empty_database 192 demo_started).
  - exact demo_started_ok.
  - apply rtc_refl.
  - lia.
  - exact demo_estimated.
  - exact demo_parent_hashed.
  - discriminate.
  - reflexivity.
  - lazy. reflexivity.
Defined.

End demo.
